(* ===== verification/_CoqProject ===== *)
-Q . S2P
Prelude.v
Bytes.v
Common.v
Alloc.v
Dispatch.v
Lockfree.v
Ring.v
Treiber.v
Recorder.v
Shadow.v
Double.v
Histogram.v
Ks.v
X86.v
Emitter.v
Jit.v
Segment.v
SlowInit.v
Chunks.v
Retire.v
Heap.v
HeapOps.v
HeapSafe.v
Bump.v
Analysis.v
Evidence.v
Picker.v
Workloads.v
Handoff.v
Summaries.v
Codegen.v
CodeHeap.v
Deopt.v
TraceFile.v
Background.v
Json.v
Dump.v
DumpText.v
Trampoline.v
Routing.v
TrampolineHeap.v
Pipeline.v
BoundBench.v
BenchMain.v
Profile.v
MicroBench.v
Interposed.v
