(* ===== verification/Prelude.v ===== *)
(** * tbjit-alloc: a verification development

    tbjit-alloc is a shared library that replaces [malloc], [free] and [realloc].
    It records what every call site allocates, learns which allocation strategy
    suits the site, emits an x86-64 routine specialized to it, and takes the
    routine back when the site's behaviour drifts.  This library models the C++
    program under [src/src/], the two tools that run its analysis offline
    ([src/tools/replay.cpp], [src/tools/bound_bench.cpp]) and the benchmark programs under
    [src/bench/], translating it definition by definition, and proves what makes it correct.  Definitions keep the names of the source; a
    machine word is a [Z] with its wrap-around written out ([u8] to [u64]), a
    pointer a 64-bit address with 0 for null, a failing [assert] or a dereference
    of null the outcome [Trap] of the type [res].

    ** The program and the files

    An allocation goes through [malloc] ([src/trace/trampoline.cpp]: [Trampoline]).
    It hashes the return address to a site ([common.h]: [Common]), looks the site up
    in the dispatch table ([dispatch/dispatch.cpp]: [Dispatch], [Lockfree]) through a
    per-thread inline cache, calls the site's routine or libc, and pushes an event
    on the thread's ring ([trace/trace.cpp]: [Ring]; threads' numbers, the rings' memory and their
    list: [Recorder]; the other compare-and-swap lists: [Treiber]).  The background thread
    ([analysis/analysis.cpp], [futex.h]: [Background]) drains the rings into the
    online analysis ([Analysis], over the histogram of [analysis/histogram.h]:
    [Histogram] and the test of [analysis/ks_test.h]: [Ks], both on the binary64
    numbers of [Double]).  A stable site is compiled ([codegen/codegen.cpp]:
    [Codegen]) by the emitters ([codegen/emitter.cpp]: [Emitter]), whose bytes run
    on the machine of [X86] ([Jit]).  A routine serves a thread-local slot
    and falls back to a slow path ([codegen/slow_init.cpp], [tls.h], [tls.cpp]:
    [SlowInit]) that takes segments from [seg/segment.cpp] ([Segment]);
    [free_managed] brings blocks back.  A failing guard deoptimizes the site
    ([deopt/deopt.cpp]: [Deopt]), and its code page is unmapped once no thread can be in
    it.  The metadata lives in the arena of [alloc/alloc.cpp] ([Alloc]).  Events may
    be written to a trace file ([trace/writer.cpp]: [TraceFile]), which the replay
    tool reads ([TraceFile]) and the bound-replay benchmark replays against three
    allocators ([BoundBench], [BenchMain], [Profile]).  At exit the statistics are written as JSON
    ([analysis/dump.cpp]: [Dump], over the language of [Json]) and printed ([DumpText]).  The debug build
    checks the blocks handed out against a table ([shadow/shadow.cpp]: [Shadow]).
    The benchmarks ([src/bench/]) are streams of calls ([Workloads], the two threads of
    [producer_consumer.cpp] in [Handoff]); [micro_jit_direct.cpp] and
    [gate1_lifetime_probe.c], which do more, are in [MicroBench].

    ** What the theorems show

    - Segment heap.  [Segment]: the pagemap and the registry are a finite set
      ([registry_refines_set]), a 2 MiB-aligned region is cut out of a larger mapping.
      [SlowInit] has every slow path and [free_managed] for the five strategies.
      [Heap] interleaves routines, frees, writes, reaper passes and thread exits (thread
      ids are reused) over segments of every strategy but the producer-consumer one, whose
      retirement undercounts ([Bump.pc_retire_undercounts]); every operation is one step,
      and a reset ends an arena's blocks.  [Chunks] has the geometry,
      [HeapOps] shows that each operation keeps the invariant, and [HeapSafe] what
      follows: live blocks never overlap and are never handed out twice, no operation
      traps but for the [assert] when [mmap] has failed, and [live_chunks] of a retired
      segment counts its live blocks, so that the reaper unmaps only dead segments.  [Retire] interleaves the accesses of one
      segment's retirement, frees and reclamation: still nothing is unmapped while
      it can be touched, but a free that straddles the retirement strands its chunk
      ([stranded_never_reaped]).  [Treiber] refines the
      lock-free pushes and the harvest to single accesses, with spurious failures and
      reuse of nodes (ABA): the head always represents what was pushed and not taken.
    - Code.  [Emitter] writes the routines byte by byte; [Jit] decodes them and gives
      result, memory, calls and tail call of each path; [Codegen] composes this with
      the slots of the compiled site and the slow paths' addresses
      ([compiled_routine_correct]), and [CodeHeap] with the segment heap: the bytes run
      as [Heap.routine], on a memory that represents its slots and links.
    - Analysis.  [Histogram], [Ks]: the queries against their definitions by sorting
      and counting.  [Summaries]: every summary stays within its types and bounds
      under any knobs the environment gives.  [Picker]: a site whose consecutive windows
      the stability test accepts is compiled after exactly the configured windows (windows
      with the same sizes in any order are accepted, [permuted_stable]), a blacklisted one
      never again, a drifting one without end.  [Evidence]: what the votes and the LIFO stack can and cannot
      see.  [Workloads]: a site whose blocks are freed in nested order is compiled as a
      paired stack if its windows are stable ([nested_site_compiles]: frees change nothing
      else, so the site takes the steps of the same site without frees up to its
      compilation); hence what is learned from the benchmarks of one thread.
    - Concurrency.  [Ring]: the single-producer single-consumer ring is a bounded queue,
      sequentially and under every interleaving of its accesses.  [Recorder]: recording is
      one such queue per thread, for the 125 threads the arena has room for; threads whose
      first events overlap can be given the same ring ([first_events_share_ring]).  [Background]: the
      drain takes every event once, a stop loses no event pushed before it, and the
      thread never stalls although the wake-up can be lost (the one-second time-out is
      what saves it): its own steps to the processing of an event and to its end are
      bounded, whatever the others do between them.  [Lockfree]: the dispatch table has no lock, yet under every
      interleaving of its accesses it represents the map of the committed writes, the
      inline cache is never behind a finished write, and every call ends.  [Deopt]: pending
      pages are reclaimed, and registered threads only run mapped code, on a condition
      ([rule]) which neither [mmap] nor the code establishes and without which it is
      false ([page_reclaimed_twice]); an unregistered thread's page is unmapped under it.
    - Composition.  [Pipeline] runs the analysis, the compiler, the dispatch table and
      the reclamation on one state: every routine the table dispatches serves its own site
      from its own slot whatever events came, on the same condition; and, without it, no
      event fails an assertion.
    - Interposition.  [Routing]: over any two heaps that keep the promises [HeapLaws], in
      every stage of the process each block goes back to the allocator it came from, and
      no call traps.  [TrampolineHeap] shows the promises of [Heap]'s protocol without
      arenas beside any libc that does what is documented of it, and concludes the same
      of them ([routing_over_segments]); [realloc] of a segment's block after the
      destructor is the exception ([realloc_after_fini]).  [Interposed]: the bootstrap
      buffer, the inline cache, and [malloc]'s dispatch as a run of [Deopt]'s
      interleaving model.
    - Files and tables.  [TraceFile]: a trace, whole or truncated anywhere, replays to
      the analysis of the whole events in it.  [Dump]: the JSON file parses back to the
      table and its exact counts.  [Dispatch] and [Shadow]: open addressing refines a
      finite map.  [DumpText]: the percentages printed are the
      exact ones rounded to a tenth, through the roundings of [Double].  [BoundBench]: the replayed stream is the reference matching of frees
      to allocations, any number of passes is free of double frees and leaks,
      the backend with the inline cache serves as the one without, and ([BenchMain]) the
      whole tool, from its command line on, over the repository's segment heap, returns
      and gives back what it took; [Profile]: the profiled pass counts exactly, but its
      share of served allocations is that of attached routines, 0 for the sim backend.
    - Benchmarks.  [Handoff]: the ring of pointers between the two threads is first in,
      first out, and they can always end.  [MicroBench]: the trials of a compiled bump
      routine never leave its fast path; the lifetime probe's report.

    Theorems whose statement describes a defect (a property of kind error) are proved
    on the code as it is.

    ** Interfaces

    [Analysis.Backend] is what the analysis asks of segments and compiler, whose answers
    may differ from event to event;
    [Codegen.Image] where the linker and the loader put the symbols; [X86.SysV] the
    calling convention of the functions a routine calls; [Deopt.RoutineTable] with
    [RoutineTableLaws] the dispatch table, implemented by [Dispatch] (instances
    [dispatch_table], [dispatch_table_laws]); [Trampoline.Heaps] with
    [Routing.HeapLaws] the two heaps behind [malloc], and [BenchMain.Segments] with
    [SegmentLaws] their reaper, implemented by [TrampolineHeap] and [BenchMain] when no slot
    is for an arena or [ProducerConsumer]; [TrampolineHeap.Libc] with [LibcLaws] libc, with
    a concrete one for the witnesses; [TraceFile.Layout] with [LayoutLaws] the structures in a
    trace file.  Clients are proved against the interface only.

    ** Bounds and fuel

    Loops that are not structural carry fuel, with a theorem that it is enough:
    the probes of [Dispatch.find_loop] and of [Shadow] take [TABLE_SIZE] steps, after
    which every slot has been seen; [SlowInit.chop] has [chop_fuel], the number of chunks that fit a
    segment, and [count_chain] the number of chunks of one; [Jit]'s runs end
    within 40 instructions; the merge walk of [Ks] takes as many steps as there are
    entries; the readers of [TraceFile], [BoundBench] and [Json] take the length of
    their input; [Background.drain_ring] and [Recorder.pop_all] take one step more than a ring holds, and
    [Recorder.drain] one more than there are rings.  [Trap OutOfFuel] is
    never the outcome under a theorem's hypotheses.  Theorems over runs carry their bounds
    where a counter could wrap (fewer than 2^63 ring operations, 2^32 events, 4096 sites).  [assert] is checked
    ([Trap AssertFailed]) except where [Recorder] says what the default build, which
    defines [NDEBUG], does instead.

    ** Not modelled

    - Relaxed memory: atomic accesses are sequentially consistent, one per step.
    - The kernel and libc: [mmap], [munmap], [mprotect], [dlsym], [fopen], clocks, process
      and thread ids are arguments or classes of the definitions that use them;
      mutexes make what they protect atomic.
    - The segment heap under [ProducerConsumer] slots: [SlowInit] has its operations, but
      its retirement loses blocks in use, so no invariant is stated for it.
    - Text for people: the tables the tools print and log lines.  The numbers behind them
      are modelled where the code computes them.
    - Of [bound_bench.cpp] and [src/bench/]: the readings of the clocks and of
      resident-set sizes (they are arguments), what is written into the blocks, the
      sleeps, and the crash handler.
    - [src/test/], the Python and shell scripts: they call or measure the code modelled
      here and keep no state of their own.
    - Builds without [__x86_64__] and [__linux__]: the fallbacks are empty. *)

From stdpp Require Export base tactics numbers list option strings gmap sorting relations.
From Stdlib Require Export ZArith Lia Btauto.

#[global] Open Scope Z_scope.

(** ** Outcomes

    A C++ [assert] that fails, a call on a null object and the like leave the
    modelled program: [Trap].  Everything else is [Ok]. *)

Inductive trap :=
  | AssertFailed
  | NullDeref
  | Unmapped
  | OutOfFuel.

Inductive res (A : Type) :=
  | Ok (a : A)
  | Trap (t : trap).
Arguments Ok {A} _.
Arguments Trap {A} _.

#[export] Instance trap_eq_dec : EqDecision trap.
Proof. solve_decision. Defined.

#[export] Instance res_ret : MRet res := fun _ a => Ok a.
#[export] Instance res_bind : MBind res := fun _ _ f m =>
  match m with Ok a => f a | Trap t => Trap t end.

(** [res_ok m]: the computation finishes. *)
Definition res_ok {A} (m : res A) : Prop := exists a, m = Ok a.

Definition of_option {A} (t : trap) (o : option A) : res A :=
  match o with Some a => Ok a | None => Trap t end.

Lemma bind_Ok {A B} (m : res A) (f : A -> res B) b :
  (m ≫= f) = Ok b -> exists a, m = Ok a /\ f a = Ok b.
Proof. destruct m; simpl; [eauto | discriminate]. Qed.

(** ** Machine integers

    An unsigned w-bit integer is a [Z] in [0, 2^w); the C++ conversions and
    arithmetic reduce modulo [2^w]. *)

Definition wrap (w z : Z) : Z := z mod 2 ^ w.
Definition u8 (z : Z) : Z := wrap 8 z.
Definition u16 (z : Z) : Z := wrap 16 z.
Definition u32 (z : Z) : Z := wrap 32 z.
Definition u64 (z : Z) : Z := wrap 64 z.

Definition fits (w z : Z) : Prop := 0 <= z < 2 ^ w.

Lemma wrap_small w z : fits w z -> wrap w z = z.
Proof. apply Z.mod_small. Qed.

Lemma wrap_fits w z : 0 <= w -> fits w (wrap w z).
Proof. intros Hw. apply Z.mod_pos_bound, Z.pow_pos_nonneg; lia. Qed.

Lemma wrap_wrap w z : wrap w (wrap w z) = wrap w z.
Proof. unfold wrap. apply Zmod_mod. Qed.

Lemma wrap_add_l w a b : wrap w (wrap w a + b) = wrap w (a + b).
Proof. unfold wrap. apply Zplus_mod_idemp_l. Qed.

Lemma wrap_add_r w a b : wrap w (a + wrap w b) = wrap w (a + b).
Proof. unfold wrap. apply Zplus_mod_idemp_r. Qed.

Lemma wrap_sub_l w a b : wrap w (wrap w a - b) = wrap w (a - b).
Proof. unfold wrap. apply Zminus_mod_idemp_l. Qed.

Lemma wrap_sub_r w a b : wrap w (a - wrap w b) = wrap w (a - b).
Proof. unfold wrap. apply Zminus_mod_idemp_r. Qed.

(** [pow2] turns the powers [2 ^ n] with a literal exponent into literals, for
    [lia]. *)
Ltac pow2 :=
  unfold fits in *;
  repeat match goal with
  | H : context [2 ^ Zpos ?p] |- _ =>
      let v := eval vm_compute in (2 ^ Zpos p) in
      change (2 ^ Zpos p) with v in H
  | |- context [2 ^ Zpos ?p] =>
      let v := eval vm_compute in (2 ^ Zpos p) in
      change (2 ^ Zpos p) with v
  end.

Ltac unfold_words := unfold u8, u16, u32, u64 in *.

Lemma u64_small z : 0 <= z < 2 ^ 64 -> u64 z = z.
Proof. apply wrap_small. Qed.
Lemma u32_small z : 0 <= z < 2 ^ 32 -> u32 z = z.
Proof. apply wrap_small. Qed.
Lemma u8_small z : 0 <= z < 2 ^ 8 -> u8 z = z.
Proof. apply wrap_small. Qed.
Lemma u64_bound z : 0 <= u64 z < 2 ^ 64.
Proof. apply wrap_fits. lia. Qed.
Lemma u32_bound z : 0 <= u32 z < 2 ^ 32.
Proof. apply wrap_fits. lia. Qed.
Lemma u8_bound z : 0 <= u8 z < 2 ^ 8.
Proof. apply wrap_fits. lia. Qed.

(** Masking with [2^k - 1] is reduction modulo [2^k]. *)
Lemma land_mask a k : 0 <= k -> Z.land a (2 ^ k - 1) = a mod 2 ^ k.
Proof.
  intros Hk. rewrite <- Z.land_ones by done. f_equal.
  rewrite Z.ones_equiv. lia.
Qed.

(** Clearing the low [k] bits rounds down to a multiple of [2^k]. *)
Lemma land_lnot_mask a k :
  0 <= k -> Z.land a (Z.lnot (2 ^ k - 1)) = a - a mod 2 ^ k.
Proof.
  intros Hk. rewrite <- Z.ldiff_land.
  replace (2 ^ k - 1) with (Z.ones k) by (rewrite Z.ones_equiv; lia).
  rewrite Z.ldiff_ones_r, Z.shiftl_mul_pow2, Z.shiftr_div_pow2 by done.
  pose proof (Z.div_mod a (2 ^ k)) as E.
  assert (0 < 2 ^ k) by (apply Z.pow_pos_nonneg; lia). lia.
Qed.

(** ** Booleans of the source's comparisons *)

(** [zb] turns boolean comparisons on [Z] in the context and goal into
    propositions. *)
Ltac zb :=
  repeat match goal with
  | H : negb ?b = true |- _ => apply negb_true_iff in H
  | H : negb ?b = false |- _ => apply negb_false_iff in H
  | H : (?a && ?b)%bool = true |- _ => apply andb_true_iff in H; destruct H
  | H : (?a || ?b)%bool = false |- _ => apply orb_false_iff in H; destruct H
  | H : (?a && ?b)%bool = false |- _ => apply andb_false_iff in H
  | H : (?a || ?b)%bool = true |- _ => apply orb_true_iff in H
  | H : (?a =? ?b) = true |- _ => apply Z.eqb_eq in H
  | H : (?a =? ?b) = false |- _ => apply Z.eqb_neq in H
  | H : (?a <? ?b) = true |- _ => apply Z.ltb_lt in H
  | H : (?a <? ?b) = false |- _ => apply Z.ltb_ge in H
  | H : (?a <=? ?b) = true |- _ => apply Z.leb_le in H
  | H : (?a <=? ?b) = false |- _ => apply Z.leb_gt in H
  | H : (?a >? ?b) = _ |- _ => rewrite Z.gtb_ltb in H
  | H : (?a >=? ?b) = _ |- _ => rewrite Z.geb_leb in H
  end.

(** [cases] splits every [if] and [match] of the goal, keeping the equations,
    and reads the comparisons off. *)
Ltac cases := repeat case_match; zb; simplify_eq/=.

(** [arith] closes a conjunction of trivial and linear facts. *)
Ltac arith := split_and?; simpl in *; try done; try lia.

(** ** Arrays

    A zero-initialised C array is a [gmap Z A] read through [arr], the
    default standing for the initial value of the slots never written. *)
Definition arr {A} (d : A) (m : gmap Z A) (k : Z) : A := default d (m !! k).

Lemma arr_insert_eq {A} (d : A) m k v : arr d (<[k := v]> m) k = v.
Proof. unfold arr. by rewrite lookup_insert_eq. Qed.

Lemma arr_insert_ne {A} (d : A) m k j v : k ≠ j -> arr d (<[k := v]> m) j = arr d m j.
Proof. intros. unfold arr. by rewrite lookup_insert_ne. Qed.

Lemma arr_empty {A} (d : A) k : arr d ∅ k = d.
Proof. done. Qed.

Lemma size_list_to_set_le (l : list Z) : (size (list_to_set (C := gset Z) l) <= length l)%nat.
Proof.
  induction l as [|x l IH]; [done|]. change (list_to_set (x :: l)) with ({[x]} ∪ list_to_set (C := gset Z) l).
  rewrite size_union_alt, size_singleton. simpl.
  pose proof (subseteq_size (list_to_set (C := gset Z) l ∖ {[x]}) (list_to_set l) ltac:(set_solver)). lia.
Qed.

Lemma submseteq_NoDup {A} (l k : list A) : l ⊆+ k -> NoDup k -> NoDup l.
Proof. intros [k' ->]%submseteq_Permutation. by intros [? _]%NoDup_app. Qed.

(** ** Linked lists *)

(** The nodes threaded from [h] through the link word of each; 0 ends the list. *)
Fixpoint chain (m : gmap Z Z) (h : Z) (l : list Z) : Prop :=
  match l with
  | [] => h = 0
  | x :: l => h = x ∧ x ≠ 0 ∧ chain m (arr 0 m x) l
  end.

Lemma chain_ext m m' h l :
  (∀ x, x ∈ l -> arr 0 m' x = arr 0 m x) -> chain m h l -> chain m' h l.
Proof.
  revert h. induction l as [|x l IH]; intros h Hm; [done|]. intros (-> & Hx & Hl). simpl.
  rewrite Hm by set_solver. split_and!; [done..|]. apply IH; [|done]. intros. apply Hm. set_solver.
Qed.

Lemma chain_write m x v h l : x ∉ l -> chain m h l -> chain (<[x := v]> m) h l.
Proof. intros Hx. apply chain_ext. intros y Hy. apply arr_insert_ne. by intros ->. Qed.

Lemma chain_cons m p h l :
  p ≠ 0 -> p ∉ l -> chain m h l -> chain (<[p := h]> m) p (p :: l).
Proof.
  intros Hp Hn Hl. simpl. rewrite arr_insert_eq. split_and!; [done..|]. by apply chain_write.
Qed.

Lemma chain_nil m l : chain m 0 l -> l = [].
Proof. destruct l; [done|]. intros (<- & ? & _). done. Qed.

(** ** Step relations *)

(** An invariant of the initial state that every step preserves holds in every
    reachable state. *)
Lemma reachable_invariant {A} (R : relation A) (P : A -> Prop) x y :
  P x -> (∀ a b, P a -> R a b -> P b) -> rtc R x y -> P y.
Proof. intros Hx Hstep H. induction H; eauto. Qed.

Create HintDb words.
Create Rewrite HintDb words.
#[export] Hint Resolve u64_bound u32_bound u8_bound : words.
#[export] Hint Rewrite wrap_add_l wrap_add_r wrap_sub_l wrap_sub_r wrap_wrap : words.
Create Rewrite HintDb arrays.
#[export] Hint Rewrite @arr_insert_eq @arr_empty : arrays.
#[export] Hint Rewrite @arr_insert_ne using (first [done | lia]) : arrays.
