(* ===== verification/Bytes.v ===== *)
(** * Little-endian bytes

    How the JIT's immediates, the machine's words and the trace file's fields are
    laid out: the bytes of a word, lowest first, and back. *)

From S2P Require Import Prelude.

Definition byte (k v : Z) : Z := u8 (Z.shiftr v (8 * k)).
Definition le_bytes (n : nat) (v : Z) : list Z := (λ k, byte (Z.of_nat k) v) <$> seq 0 n.
Fixpoint le_combine (l : list Z) : Z :=
  match l with [] => 0 | b :: l => b + 256 * le_combine l end.

Lemma byte_bound k v : 0 <= byte k v < 256.
Proof. apply u8_bound. Qed.

Lemma le_combine_bytes n v :
  le_combine (le_bytes n v) = v mod 2 ^ (8 * Z.of_nat n).
Proof.
  unfold le_bytes. assert (H : ∀ s, le_combine ((λ k, byte (Z.of_nat k) v) <$> seq s n) =
    Z.shiftr v (8 * Z.of_nat s) mod 2 ^ (8 * Z.of_nat n)); [|rewrite H; by rewrite Z.shiftr_0_r].
  induction n as [|n IH]; intros s; [by rewrite Z.mod_1_r|].
  cbn [seq fmap list_fmap le_combine]. rewrite IH. unfold byte, u8, wrap.
  rewrite !Z.shiftr_div_pow2 by lia.
  replace (8 * Z.of_nat (S s)) with (8 * Z.of_nat s + 8) by lia.
  replace (8 * Z.of_nat (S n)) with (8 + 8 * Z.of_nat n) by lia.
  rewrite !Z.pow_add_r by lia. rewrite <- Z.div_div by lia.
  rewrite Z.rem_mul_r by lia. done.
Qed.

Lemma le_combine_32 v : 0 <= v < 2 ^ 32 -> le_combine (le_bytes 4 v) = v.
Proof. intros. rewrite le_combine_bytes. by apply Z.mod_small. Qed.
Lemma le_combine_64 v : 0 <= v < 2 ^ 64 -> le_combine (le_bytes 8 v) = v.
Proof. intros. rewrite le_combine_bytes. by apply Z.mod_small. Qed.

Lemma le_bytes_length n v : length (le_bytes n v) = n.
Proof. unfold le_bytes. by rewrite length_fmap, length_seq. Qed.
