(* ===== verification/Common.v ===== *)
(** * Common types ([src/src/common.h])

    The call-site identifier and its hash, the strategies, and the allocation
    events the trampoline records. *)

From S2P Require Import Prelude.

(** [using CallSiteID = uint32_t]; a pointer is a 64-bit address, 0 is null. *)
Abbreviation CallSiteID := Z (only parsing).
Abbreviation ptr := Z (only parsing).

(** [hash_return_addr], before and after the truncation to 32 bits. *)
Definition xorshift16 (v : Z) : Z := Z.lxor v (Z.shiftr v 16).

Definition hash_mix (ra : Z) : Z :=
  let v := xorshift16 ra in
  let v := u64 (v * 0x45d9f3b) in
  xorshift16 v.

Definition hash_return_addr (ra : Z) : CallSiteID := u32 (hash_mix ra).

Inductive Strategy :=
  | Generic
  | BumpAlloc
  | ThreadLocalFreeList
  | EpochArena
  | PairedStack
  | ProducerConsumer
  | MultiSizeFreeList.

#[export] Instance Strategy_eq_dec : EqDecision Strategy.
Proof. solve_decision. Defined.

(** The enumerators' values. *)
Definition strategy_value (s : Strategy) : Z :=
  match s with
  | Generic => 0
  | BumpAlloc => 1
  | ThreadLocalFreeList => 2
  | EpochArena => 3
  | PairedStack => 4
  | ProducerConsumer => 5
  | MultiSizeFreeList => 6
  end.

(** [analysis::DeoptReason] ([analysis.h]): shared by the emitter, the deopt
    queue and the analysis. *)
Inductive DeoptReason :=
  | NoReason
  | SizeDrift
  | RegionExhaust
  | ThreadShift
  | LifoViolation
  | Other.

#[export] Instance DeoptReason_eq_dec : EqDecision DeoptReason.
Proof. solve_decision. Defined.

Definition reason_value (r : DeoptReason) : Z :=
  match r with
  | NoReason => 0
  | SizeDrift => 1
  | RegionExhaust => 2
  | ThreadShift => 3
  | LifoViolation => 4
  | Other => 5
  end.

Record AllocEvent := mkAllocEvent {
  ev_call_site : CallSiteID;
  ev_size : Z;
  ev_timestamp_ns : Z;
  ev_thread_id : Z;
  ev_ptr : ptr;
}.

#[export] Instance AllocEvent_eq_dec : EqDecision AllocEvent.
Proof. solve_decision. Defined.

Definition event_zero : AllocEvent := mkAllocEvent 0 0 0 0 0.

(** Every field of an event is in its C++ type. *)
Definition event_wf (ev : AllocEvent) : Prop :=
  fits 32 (ev_call_site ev) ∧ fits 32 (ev_size ev) ∧
  fits 64 (ev_timestamp_ns ev) ∧ fits 32 (ev_thread_id ev) ∧ fits 64 (ev_ptr ev).

(** ** Properties of the hash *)

Lemma xorshift16_fits v : fits 64 v -> fits 64 (xorshift16 v).
Proof.
  unfold fits, xorshift16. intros Hv.
  assert (H : 0 <= Z.lxor v (Z.shiftr v 16)).
  { apply Z.lxor_nonneg. rewrite Z.shiftr_nonneg. lia. }
  split; [done|]. destruct (Z.eq_dec (Z.lxor v (Z.shiftr v 16)) 0) as [->|Hne]; [lia|].
  apply Z.log2_lt_pow2; [lia|].
  eapply Z.le_lt_trans; [apply Z.log2_lxor; [lia|apply Z.shiftr_nonneg; lia]|].
  assert (Z.log2 v < 64).
  { destruct (Z.eq_dec v 0) as [->|]; [done|]. apply Z.log2_lt_pow2; lia. }
  apply Z.max_lub_lt; [done|].
  destruct (Z.eq_dec v 0) as [->|]; [done|].
  destruct (Z_lt_ge_dec (Z.log2 v) 16).
  - rewrite Z.shiftr_eq_0; [done|lia|lia].
  - rewrite Z.log2_shiftr by lia. lia.
Qed.

(** Four shifted copies fold back and undo one xor-shift. *)
Definition unxorshift16 (w : Z) : Z :=
  Z.lxor (Z.lxor w (Z.shiftr w 16)) (Z.lxor (Z.shiftr w 32) (Z.shiftr w 48)).

Lemma xorshift16_inverse v : fits 64 v -> unxorshift16 (xorshift16 v) = v.
Proof.
  intros Hv. unfold unxorshift16, xorshift16.
  rewrite !Z.shiftr_lxor, !Z.shiftr_shiftr by lia.
  change (16 + 16) with 32. change (16 + 32) with 48. change (16 + 48) with 64.
  replace (Z.shiftr v 64) with 0.
  2:{ rewrite Z.shiftr_div_pow2 by lia. symmetry. apply Z.div_small, Hv. }
  apply Z.bits_inj'. intros n Hn. rewrite !Z.lxor_spec, Z.bits_0. btauto.
Qed.

Lemma xorshift16_inj a b :
  fits 64 a -> fits 64 b -> xorshift16 a = xorshift16 b -> a = b.
Proof.
  intros Ha Hb E.
  rewrite <- (xorshift16_inverse a Ha), <- (xorshift16_inverse b Hb), E. done.
Qed.

(** The multiplier is odd, hence invertible modulo [2^64]. *)
Lemma mult_inj a b :
  fits 64 a -> fits 64 b -> u64 (a * 0x45d9f3b) = u64 (b * 0x45d9f3b) -> a = b.
Proof.
  intros Ha Hb E.
  assert (Hinv : forall v, fits 64 v -> u64 (u64 (v * 0x45d9f3b) * 18005711234046747123) = v).
  { intros v Hv. unfold u64, wrap. rewrite Z.mul_mod_idemp_l by lia.
    rewrite <- Z.mul_assoc, <- Z.mul_mod_idemp_r by lia.
    change ((73244475 * 18005711234046747123) mod 2 ^ 64) with 1.
    rewrite Z.mul_1_r. apply Z.mod_small. done. }
  rewrite <- (Hinv a Ha), <- (Hinv b Hb), E. done.
Qed.

(** The 64-bit mixing loses nothing: two return addresses share a call-site id
    only when the final truncation merges them. *)
Lemma hash_mix_inj a b :
  fits 64 a -> fits 64 b -> hash_mix a = hash_mix b -> a = b.
Proof.
  intros Ha Hb E. apply xorshift16_inj; [done..|].
  apply mult_inj; [by apply xorshift16_fits..|].
  apply xorshift16_inj; [apply u64_bound..|]. exact E.
Qed.

Lemma hash_return_addr_fits ra : fits 32 (hash_return_addr ra).
Proof. apply u32_bound. Qed.
