(* ===== verification/Alloc.v ===== *)
(** * The internal bump arena ([src/src/alloc/alloc.cpp])

    tbjit's own metadata (the dispatch table, the ring buffers) lives in one
    4 MiB mapping that is bumped and never freed. *)

From S2P Require Import Prelude.

Definition ARENA_SIZE : Z := 4 * 1024 * 1024.

Record Arena := mkArena { base : Z; cursor : Z; end_ : Z }.

(** [Arena g_arena{}]. *)
Definition g_arena0 : Arena := mkArena 0 0 0.

(** [init]: [mem] is what [mmap] returned, [None] for [MAP_FAILED].  A second
    call is a no-op. *)
Definition init (mem : option Z) (g : Arena) : res Arena :=
  if negb (base g =? 0) then Ok g else
  match mem with
  | None => Trap AssertFailed
  | Some m => Ok (mkArena m m (m + ARENA_SIZE))
  end.

(** [(cur + align - 1) & ~(align - 1)] on [uintptr_t]. *)
Definition align_up (cur align : Z) : Z :=
  Z.land (u64 (cur + align - 1)) (u64 (Z.lnot (align - 1))).

Definition alloc (size align : Z) (g : Arena) : res (Z * Arena) :=
  let aligned := align_up (cursor g) align in
  let next := u64 (aligned + size) in
  if negb (next <=? end_ g) then Trap AssertFailed
  else Ok (aligned, mkArena (base g) next (end_ g)).

(** ** The arena's invariant and what an allocation promises *)

Definition wf (g : Arena) : Prop :=
  0 < base g ∧ base g <= cursor g <= end_ g ∧ end_ g = base g + ARENA_SIZE ∧
  end_ g + 2 ^ 32 < 2 ^ 64.

(** On a power of two alignment [align_up] is the least multiple not below. *)
Lemma align_up_spec cur k :
  0 <= k < 63 -> 0 <= cur -> cur + 2 ^ k < 2 ^ 64 ->
  align_up cur (2 ^ k) mod 2 ^ k = 0 ∧ cur <= align_up cur (2 ^ k) < cur + 2 ^ k.
Proof.
  intros Hk Hc Hb. unfold align_up.
  assert (Hp : 0 < 2 ^ k) by (apply Z.pow_pos_nonneg; lia).
  rewrite u64_small by lia.
  set (x := cur + 2 ^ k - 1).
  assert (E : Z.land x (u64 (Z.lnot (2 ^ k - 1))) = x - x mod 2 ^ k).
  { rewrite <- land_lnot_mask by lia. unfold u64, wrap.
    rewrite <- Z.land_ones by lia. rewrite (Z.land_comm (Z.lnot _)), Z.land_assoc.
    f_equal. rewrite Z.land_ones by lia. apply Z.mod_small. lia. }
  rewrite E. pose proof (Z.mod_pos_bound x (2 ^ k) Hp).
  split; [|subst x; lia].
  rewrite Zminus_mod_idemp_r, Z.sub_diag. apply Z.mod_0_l. lia.
Qed.

(** A successful request returns an aligned block of [size] bytes inside the
    arena and past everything handed out before; a request that does not fit
    trips the assertion. *)
Lemma alloc_spec size k g :
  wf g -> 0 <= k <= 12 -> 0 <= size < 2 ^ 31 ->
  match alloc size (2 ^ k) g with
  | Ok (p, g') =>
      p mod 2 ^ k = 0 ∧ cursor g <= p ∧ p + size = cursor g' ∧
      wf g' ∧ base g' = base g
  | Trap t => t = AssertFailed ∧ end_ g < align_up (cursor g) (2 ^ k) + size
  end.
Proof.
  intros (Hb & Hc & He & Hlim) Hk Hs. unfold alloc.
  assert (Hp : 0 < 2 ^ k <= 2 ^ 12).
  { split; [apply Z.pow_pos_nonneg; lia | apply Z.pow_le_mono_r; lia]. }
  assert (2 ^ 12 = 4096) by done. assert (2 ^ 31 < 2 ^ 32) by done.
  assert (2 ^ 32 = 4294967296) by done. unfold ARENA_SIZE in *.
  destruct (align_up_spec (cursor g) k) as [Ham Hab]; [lia..|].
  rewrite u64_small by lia. unfold wf, ARENA_SIZE.
  cases; simpl; arith.
Qed.

(** [allocs l g]: the blocks of a sequence of requests [(size, log2 align)]. *)
Fixpoint allocs (l : list (Z * Z)) (g : Arena) : res (list (Z * Z) * Arena) :=
  match l with
  | [] => Ok ([], g)
  | (size, k) :: l =>
      '(p, g) ← alloc size (2 ^ k) g;
      '(ps, g) ← allocs l g;
      Ok ((p, size) :: ps, g)
  end.

Definition req_ok (r : Z * Z) : Prop := 0 <= r.1 < 2 ^ 31 ∧ 0 <= r.2 <= 12.

(** Two blocks that share no byte. *)
Definition disjoint_blocks (a b : Z * Z) : Prop := a.1 + a.2 <= b.1 ∨ b.1 + b.2 <= a.1.

Lemma allocs_spec l g bs g' :
  wf g -> Forall req_ok l -> allocs l g = Ok (bs, g') ->
  wf g' ∧ cursor g <= cursor g' ∧ base g' = base g ∧
  Forall2 (fun r b => b.2 = r.1 ∧ b.1 mod 2 ^ r.2 = 0) l bs ∧
  Forall (fun b => cursor g <= b.1 ∧ b.1 + b.2 <= cursor g') bs ∧
  ForallOrdPairs disjoint_blocks bs.
Proof.
  revert g bs g'. induction l as [|[size k] l IH]; intros g bs g' Hg Hl E; simpl in E.
  { simplify_eq. split_and!; auto; try lia; constructor. }
  inversion_clear Hl as [|?? [Hs Hk] Hl']. simpl in Hs, Hk.
  pose proof (alloc_spec size k g Hg Hk Hs) as HA.
  apply bind_Ok in E as ([p g1] & E1 & E). rewrite E1 in HA.
  destruct HA as (Hal & Hp & Hn & Hg1 & Hb1).
  apply bind_Ok in E as ([ps g2] & E2 & E). simplify_eq/=.
  destruct (IH _ _ _ Hg1 Hl' E2) as (Hg2 & Hc & Hb & HF & Hin & HD).
  split_and!; auto; try lia.
  - constructor; [simpl; lia|]. eapply Forall_impl; [exact Hin|]. simpl. lia.
  - constructor; [|done]. eapply Forall_impl; [exact Hin|].
    intros b [? ?]. left. simpl. lia.
Qed.

(** Every sequence of successful internal requests after [init] yields
    aligned, pairwise disjoint blocks inside the 4 MiB mapping. *)
Theorem arena_blocks_disjoint m l g bs g' :
  0 < m -> m + ARENA_SIZE + 2 ^ 32 < 2 ^ 64 ->
  init (Some m) g_arena0 = Ok g -> Forall req_ok l -> allocs l g = Ok (bs, g') ->
  Forall2 (fun r b => b.2 = r.1 ∧ b.1 mod 2 ^ r.2 = 0) l bs ∧
  Forall (fun b => m <= b.1 ∧ b.1 + b.2 <= m + ARENA_SIZE) bs ∧
  ForallOrdPairs disjoint_blocks bs.
Proof.
  intros Hm Hlim Hi Hl Ha. unfold init in Hi. simpl in Hi. simplify_eq.
  assert (Hg : wf (mkArena m m (m + ARENA_SIZE))).
  { unfold wf; simpl. unfold ARENA_SIZE in *. lia. }
  destruct (allocs_spec _ _ _ _ Hg Hl Ha) as (Hg' & Hc & Hb & HF & Hin & HD).
  split_and!; auto. eapply Forall_impl; [exact Hin|].
  destruct Hg' as (? & ? & ? & ?). simpl in *. lia.
Qed.

Lemma arena_blocks_disjoint_witness :
  ∃ g bs g', init (Some 4096) g_arena0 = Ok g ∧ allocs [(65536, 3); (48, 4); (7, 0)] g = Ok (bs, g') ∧
  ForallOrdPairs disjoint_blocks bs.
Proof.
  eexists _, _, _. split; [vm_compute; reflexivity|]. split; [vm_compute; reflexivity|].
  eapply (arena_blocks_disjoint 4096 [(65536, 3); (48, 4); (7, 0)]);
    [lia | vm_compute; reflexivity | vm_compute; reflexivity | | vm_compute; reflexivity].
  repeat constructor; simpl; lia.
Defined.
