(* ===== verification/Dispatch.v ===== *)
(** * The dispatch table ([src/src/dispatch/dispatch.cpp])

    An open-addressing table from call-site ids to compiled routines, with the
    id 0 as the free-slot marker, and the generation counter the trampoline's
    inline cache is checked against.  The abstract contract is a finite map
    ([spec_run]); [run_refines] is the refinement. *)

From S2P Require Import Prelude Common.

Definition TABLE_SIZE : Z := 4096.

(** [struct Entry]; a routine is its address, 0 is [nullptr]. *)
Record Entry := mkEntry { fn : ptr; id : CallSiteID }.
Definition Entry0 : Entry := mkEntry 0 0.

Record state := mkState {
  g_table : gmap Z Entry;
  g_generation : Z;
}.

Abbreviation entry t k := (arr Entry0 t k).
Abbreviation id_at t k := (id (arr Entry0 t k)).

(** The loop of [find]: [n] iterations are left, [i] is the loop counter. *)
Fixpoint find_loop (n : nat) (t : gmap Z Entry) (cid slot i : Z) : option Z :=
  match n with
  | O => None
  | S n =>
      let k := Z.land (slot + i) (TABLE_SIZE - 1) in
      if (id_at t k =? cid) || (id_at t k =? 0) then Some k
      else find_loop n t cid slot (i + 1)
  end.

(** [find]: the index of the entry, [None] for [nullptr]. *)
Definition find (t : gmap Z Entry) (cid : CallSiteID) : option Z :=
  let slot := Z.land cid (TABLE_SIZE - 1) in
  find_loop (Z.to_nat TABLE_SIZE) t cid slot 0.

Definition init : state := mkState ∅ 1.

Definition install (cid : CallSiteID) (f : ptr) (s : state) : res state :=
  match find (g_table s) cid with
  | None => Trap AssertFailed
  | Some k => Ok (mkState (<[k := mkEntry f cid]> (g_table s)) (u64 (g_generation s + 1)))
  end.

Definition revert (cid : CallSiteID) (s : state) : state :=
  match find (g_table s) cid with
  | Some k =>
      if id_at (g_table s) k =? cid
      then mkState (<[k := mkEntry 0 (id_at (g_table s) k)]> (g_table s))
                   (u64 (g_generation s + 1))
      else s
  | None => s
  end.

Definition lookup (cid : CallSiteID) (s : state) : ptr :=
  match find (g_table s) cid with
  | None => 0
  | Some k => if negb (id_at (g_table s) k =? cid) then 0 else fn (entry (g_table s) k)
  end.

Definition generation (s : state) : Z := g_generation s.

(** ** The probe sequence *)

(** The [i]-th slot probed for [cid]. *)
Definition probe (cid i : Z) : Z := (cid + i) mod TABLE_SIZE.

Lemma land_probe cid i :
  Z.land (Z.land cid (TABLE_SIZE - 1) + i) (TABLE_SIZE - 1) = probe cid i.
Proof.
  unfold TABLE_SIZE, probe. change (4096 - 1) with (2 ^ 12 - 1).
  rewrite !land_mask by lia. change TABLE_SIZE with (2 ^ 12).
  apply Zplus_mod_idemp_l.
Qed.

Lemma probe_range cid i : 0 <= probe cid i < TABLE_SIZE.
Proof. apply Z.mod_pos_bound. done. Qed.

(** Every slot is on every probe sequence. *)
Lemma probe_surj cid k :
  0 <= k < TABLE_SIZE -> ∃ i, 0 <= i < TABLE_SIZE ∧ probe cid i = k.
Proof.
  intros Hk. exists ((k - cid) mod TABLE_SIZE). split; [apply Z.mod_pos_bound; done|].
  unfold probe. rewrite Zplus_mod_idemp_r.
  replace (cid + (k - cid)) with k by lia. by apply Z.mod_small.
Qed.

(** [stops t cid k]: slot [k] ends a probe for [cid]. *)
Definition stops (t : gmap Z Entry) (cid k : Z) : Prop := id_at t k = cid ∨ id_at t k = 0.

Lemma find_loop_spec n t cid i :
  match find_loop n t cid (Z.land cid (TABLE_SIZE - 1)) i with
  | Some k => ∃ j, i <= j < i + Z.of_nat n ∧ k = probe cid j ∧ stops t cid k ∧
                   ∀ j', i <= j' < j -> ¬ stops t cid (probe cid j')
  | None => ∀ j', i <= j' < i + Z.of_nat n -> ¬ stops t cid (probe cid j')
  end.
Proof.
  revert i. induction n as [|n IH]; intros i; cbn [find_loop]; [lia|].
  rewrite land_probe. unfold stops in *. destruct (_ || _) eqn:E; zb.
  - exists i. split_and!; auto; lia.
  - specialize (IH (i + 1)).
    assert (Hi : ∀ j', i = j' -> ¬ (id_at t (probe cid j') = cid ∨ id_at t (probe cid j') = 0)).
    { intros ? <-. zb. tauto. }
    destruct (find_loop _ _ _ _ _).
    + destruct IH as (j & Hj & -> & Hs & Hmin). exists j. split_and!; auto; try lia.
      intros j' Hj'. destruct (decide (i = j')); [auto|]. apply Hmin. lia.
    + intros j' Hj'. destruct (decide (i = j')); [auto|]. apply IH. lia.
Qed.

(** [find] in one sentence: the first stopping slot of the probe sequence. *)
Definition found (t : gmap Z Entry) (cid k : Z) : Prop :=
  ∃ j, 0 <= j < TABLE_SIZE ∧ k = probe cid j ∧ stops t cid k ∧
       ∀ j', 0 <= j' < j -> ¬ stops t cid (probe cid j').

Definition not_found (t : gmap Z Entry) (cid : Z) : Prop :=
  ∀ k, 0 <= k < TABLE_SIZE -> ¬ stops t cid k.

Lemma find_spec t cid :
  (∃ k, find t cid = Some k ∧ found t cid k) ∨ (find t cid = None ∧ not_found t cid).
Proof.
  unfold find, found. pose proof (find_loop_spec (Z.to_nat TABLE_SIZE) t cid 0) as H.
  rewrite Z2Nat.id in H by done.
  destruct (find_loop _ _ _ _ _) as [k|]; [left|right].
  - destruct H as (j & Hj & E & Hs & Hm). exists k. split; [reflexivity|].
    exists j. split_and!; auto; lia.
  - split; [reflexivity|]. intros k Hk Hs. destruct (probe_surj cid k Hk) as (i & Hi & <-).
    apply (H i); [lia|exact Hs].
Qed.

Lemma found_range t cid k : found t cid k -> 0 <= k < TABLE_SIZE ∧ stops t cid k.
Proof. intros (j & Hj & -> & Hs & _). split; [apply probe_range|exact Hs]. Qed.

Lemma found_unique t cid k k' : found t cid k -> found t cid k' -> k = k'.
Proof.
  intros (j & Hj & -> & Hs & Hm) (j' & Hj' & -> & Hs' & Hm').
  destruct (Z.lt_total j j') as [?|[->|?]]; [|reflexivity|].
  - destruct (Hm' j); [lia|exact Hs].
  - destruct (Hm j'); [lia|exact Hs'].
Qed.

Lemma found_not_found t cid k : found t cid k -> not_found t cid -> False.
Proof. intros Hf Hn. apply found_range in Hf as [Hr Hs]. exact (Hn k Hr Hs). Qed.

(** ** The table invariant *)

(** Every occupied slot is the one its own id's probe finds: ids are stored
    once and no free slot precedes them on their probe sequence. *)
Definition wf (t : gmap Z Entry) : Prop :=
  (∀ k, id_at t k ≠ 0 -> found t (id_at t k) k) ∧
  (∀ k, id_at t k = 0 -> fn (entry t k) = 0).

Lemma wf_empty : wf ∅.
Proof. split; intros k; [by rewrite arr_empty|done]. Qed.

(** Writing an entry over a slot that is free or already carries its id leaves
    the other ids' probes alone unless they ended on that very slot. *)
Lemma stops_insert_ne t cid k e k' :
  k' ≠ k -> stops (<[k := e]> t) cid k' <-> stops t cid k'.
Proof. intros ?. unfold stops. by rewrite arr_insert_ne by done. Qed.

Lemma found_insert_other t cid k e k' :
  id e ≠ cid -> id e ≠ 0 -> k' ≠ k -> found t cid k' -> found (<[k := e]> t) cid k'.
Proof.
  intros Hid H0 Hne (j & Hj & -> & Hs & Hm). exists j.
  split; [lia|]. split; [reflexivity|]. split; [by apply stops_insert_ne|].
  intros j' Hj'. destruct (decide (probe cid j' = k)) as [->|].
  - unfold stops. rewrite arr_insert_eq. intros [?|?]; contradiction.
  - rewrite stops_insert_ne by done. auto.
Qed.

Lemma found_insert_same t cid k f :
  found t cid k -> found (<[k := mkEntry f cid]> t) cid k.
Proof.
  intros (j & Hj & -> & Hs & Hm). exists j. split; [lia|]. split; [reflexivity|]. split.
  - left. by rewrite arr_insert_eq.
  - intros j' Hj' Hbad. apply (Hm j' Hj').
    destruct (decide (probe cid j' = probe cid j)) as [E|E]; [by rewrite E|].
    by rewrite stops_insert_ne in Hbad by done.
Qed.

(** Writing over the slot [find] returned keeps the invariant. *)
Lemma wf_insert t cid k f :
  wf t -> cid ≠ 0 -> found t cid k -> wf (<[k := mkEntry f cid]> t).
Proof.
  intros [Hwf Hfn] Hc Hf. split; intros k' Hk'.
  - destruct (decide (k = k')) as [<-|Hne].
    + rewrite arr_insert_eq. by apply found_insert_same.
    + rewrite arr_insert_ne in * by done.
      pose proof (Hwf _ Hk') as Hf'. apply found_insert_other; [|exact Hc|lia|exact Hf'].
      simpl. intros E. rewrite <- E in Hf'. apply Hne. eapply found_unique; eauto.
  - destruct (decide (k = k')) as [<-|Hne].
    + rewrite arr_insert_eq in Hk'. contradiction.
    + rewrite arr_insert_ne in * by done. auto.
Qed.

(** ** Lookups *)

Lemma lookup_found t g cid k :
  found t cid k ->
  lookup cid (mkState t g) = if id_at t k =? cid then fn (entry t k) else 0.
Proof.
  intros Hf. unfold lookup; simpl.
  destruct (find_spec t cid) as [(k' & E & Hf')|[_ Hn]]; [|destruct (found_not_found _ _ _ Hf Hn)].
  rewrite E, (found_unique _ _ _ _ Hf' Hf). by destruct (_ =? _).
Qed.

Lemma lookup_absent t g cid :
  (∀ k, found t cid k -> id_at t k ≠ cid) -> lookup cid (mkState t g) = 0.
Proof.
  intros H. unfold lookup; simpl.
  destruct (find_spec t cid) as [(k & E & Hf)|[E _]]; rewrite E; [|reflexivity].
  by rewrite (proj2 (Z.eqb_neq _ _) (H k Hf)).
Qed.

(** What a lookup sees after an entry for [cid] is written. *)
Lemma lookup_insert_same t cid k f g :
  found t cid k -> lookup cid (mkState (<[k := mkEntry f cid]> t) g) = f.
Proof.
  intros Hf. rewrite (lookup_found _ _ _ k) by (by apply found_insert_same).
  rewrite arr_insert_eq. simpl. by rewrite Z.eqb_refl.
Qed.

Lemma lookup_insert_other t cid cid' k f g g' :
  wf t -> cid ≠ 0 -> cid' ≠ 0 -> cid' ≠ cid -> found t cid k ->
  lookup cid' (mkState (<[k := mkEntry f cid]> t) g') = lookup cid' (mkState t g).
Proof.
  intros [Hwf _] Hc Hc' Hne Hf.
  assert (Habs : (∀ k', id_at t k' = cid' -> k' = k -> False) ∧
                 (∀ k', id_at t k' = cid' -> found t cid' k')).
  { split; [|intros k' <-; by apply Hwf].
    intros k' E ->. destruct (found_range _ _ _ Hf) as [_ [?|?]]; congruence. }
  destruct Habs as [Hk Hin].
  assert (Hdec : (∃ k', id_at t k' = cid' ∧ found t cid' k') ∨
                 (∀ k', found t cid' k' -> id_at t k' ≠ cid')).
  { destruct (find_spec t cid') as [(k' & _ & Hf')|[_ Hn]].
    - destruct (decide (id_at t k' = cid')); [left; by exists k'|right].
      intros k'' Hf''. by rewrite (found_unique _ _ _ _ Hf'' Hf').
    - right. intros k' Hf'. destruct (found_not_found _ _ _ Hf' Hn). }
  destruct Hdec as [(k' & E & Hf')|Hno].
  - assert (k' ≠ k) by (intros ->; eapply Hk; eauto).
    rewrite (lookup_found _ g' cid' k') by (apply found_insert_other; simpl; auto).
    rewrite (lookup_found _ g cid' k') by exact Hf'.
    by rewrite arr_insert_ne by done.
  - rewrite (lookup_absent t g cid' Hno). apply lookup_absent.
    intros k' Hf' E. destruct (decide (k = k')) as [<-|Hkk].
    + rewrite arr_insert_eq in E. simpl in E. congruence.
    + rewrite arr_insert_ne in E by done. exact (Hno k' (Hin k' E) E).
Qed.

(** ** The operations *)

Lemma install_spec cid f s s' :
  wf (g_table s) -> cid ≠ 0 -> install cid f s = Ok s' ->
  wf (g_table s') ∧ g_generation s' = u64 (g_generation s + 1) ∧
  ∀ cid', cid' ≠ 0 -> lookup cid' s' = if decide (cid' = cid) then f else lookup cid' s.
Proof.
  intros Hw Hc E. unfold install in E.
  destruct (find_spec (g_table s) cid) as [(k & Ef & Hf)|[Ef _]]; rewrite Ef in E; simplify_eq/=.
  split; [by apply wf_insert|]. split; [reflexivity|].
  intros cid' Hc'. case_decide as Hd.
  - subst. by apply lookup_insert_same.
  - destruct s. by apply lookup_insert_other.
Qed.

Lemma revert_spec cid s :
  wf (g_table s) -> cid ≠ 0 ->
  wf (g_table (revert cid s)) ∧
  ∀ cid', cid' ≠ 0 -> lookup cid' (revert cid s) = if decide (cid' = cid) then 0 else lookup cid' s.
Proof.
  intros Hw Hc. unfold revert. destruct s as [t g]; simpl in *.
  destruct (find_spec t cid) as [(k & Ef & Hf)|[Ef Hn]]; rewrite Ef.
  - destruct (Z.eqb_spec (id_at t k) cid) as [E|E].
    + rewrite E. split; [by apply wf_insert|]. intros cid' Hc'. case_decide; subst.
      * by apply lookup_insert_same.
      * by apply lookup_insert_other.
    + split; [done|]. intros cid' Hc'. case_decide as Hd; [subst|reflexivity].
      rewrite (lookup_found _ _ _ _ Hf). by rewrite (proj2 (Z.eqb_neq _ _) E).
  - split; [done|]. intros cid' Hc'. case_decide as Hd; [subst|reflexivity].
    apply lookup_absent. intros k Hf. destruct (found_not_found _ _ _ Hf Hn).
Qed.

(** ** Capacity: an install finds a slot while fewer than [TABLE_SIZE] other
    ids are in the table *)

(** All ids stored are drawn from the set [S]. *)
Definition ids_in (t : gmap Z Entry) (S : gset Z) : Prop :=
  ∀ k, id_at t k ≠ 0 -> id_at t k ∈ S.

Lemma full_table_size t cid S :
  wf t -> ids_in t S -> not_found t cid -> cid ∉ S -> (4096 <= size S)%nat.
Proof.
  intros [Hwf _] HS Hn Hc.
  pose (l := (λ k, id_at t k) <$> seqZ 0 4096).
  assert (Hocc : ∀ k, k ∈ seqZ 0 4096 -> id_at t k ≠ 0).
  { intros k Hk%elem_of_seqZ E. apply (Hn k); [unfold TABLE_SIZE; lia|]. by right. }
  assert (Hnd : NoDup l).
  { apply NoDup_fmap_2_strong; [|apply NoDup_seqZ]. intros k k' Hk Hk' E.
    pose proof (Hwf _ (Hocc _ Hk)) as F. pose proof (Hwf _ (Hocc _ Hk')) as F'.
    rewrite E in F. eapply found_unique; eauto. }
  assert (Hl : length l = 4096%nat) by (unfold l; rewrite length_fmap, length_seqZ; done).
  rewrite <- Hl, <- (size_list_to_set (C := gset Z) l) by done.
  apply subseteq_size. intros x [k [-> Hk]]%elem_of_list_to_set%list_elem_of_fmap. auto.
Qed.

(** ** The contract: a finite map *)

Inductive op :=
  | OpInstall (cid : CallSiteID) (f : ptr)
  | OpRevert (cid : CallSiteID).

Definition op_id (o : op) : CallSiteID :=
  match o with OpInstall c _ | OpRevert c => c end.

Definition step (o : op) (s : state) : res state :=
  match o with
  | OpInstall c f => install c f s
  | OpRevert c => Ok (revert c s)
  end.

Fixpoint run (ops : list op) (s : state) : res state :=
  match ops with
  | [] => Ok s
  | o :: ops => s ← step o s; run ops s
  end.

Definition spec_step (o : op) (m : gmap CallSiteID ptr) : gmap CallSiteID ptr :=
  match o with
  | OpInstall c f => <[c := f]> m
  | OpRevert c => <[c := 0]> m
  end.

Definition spec_run (ops : list op) (m : gmap CallSiteID ptr) : gmap CallSiteID ptr :=
  foldl (λ m o, spec_step o m) m ops.

(** The table represents the map [m]. *)
Definition represents (s : state) (m : gmap CallSiteID ptr) : Prop :=
  wf (g_table s) ∧ ∀ cid, cid ≠ 0 -> lookup cid s = arr 0 m cid.

Lemma init_represents : represents init ∅.
Proof.
  split; [apply wf_empty|]. intros cid Hc. apply lookup_absent.
  intros k _. rewrite arr_empty. simpl. lia.
Qed.

Lemma ids_in_insert t S k f cid :
  ids_in t S -> cid ∈ S -> ids_in (<[k := mkEntry f cid]> t) S.
Proof.
  intros HS Hc k' Hk'. destruct (decide (k = k')) as [<-|].
  - by rewrite arr_insert_eq.
  - rewrite arr_insert_ne in * by done. auto.
Qed.

Lemma ids_in_keep t S k f : ids_in t S -> ids_in (<[k := mkEntry f (id_at t k)]> t) S.
Proof.
  intros HS k' Hk'. destruct (decide (k = k')) as [<-|].
  - rewrite arr_insert_eq in *. by apply HS.
  - rewrite arr_insert_ne in * by done. auto.
Qed.

Lemma ids_in_revert s S cid : ids_in (g_table s) S -> ids_in (g_table (revert cid s)) S.
Proof.
  intros HS. unfold revert. destruct (find (g_table s) cid) as [k|]; [|done].
  destruct (_ =? cid); [by apply ids_in_keep|done].
Qed.

(** The assertion of [install] does not fail. *)
Lemma install_total c f s S :
  wf (g_table s) -> c ∈ S -> ids_in (g_table s) S -> (size S <= 4096)%nat ->
  ∃ s', install c f s = Ok s' ∧ ids_in (g_table s') S.
Proof.
  intros Hw HoS HS Hsz. destruct (find_spec (g_table s) c) as [(k & Ef & Hf)|[Ef Hn]].
  - eexists. unfold install. rewrite Ef. split; [reflexivity|]. by apply ids_in_insert.
  - exfalso. assert (Hids : ids_in (g_table s) (S ∖ {[c]})).
    { intros k Hk. apply elem_of_difference. split; [auto|].
      intros E%elem_of_singleton. destruct Hw as [Hw _].
      pose proof (Hw k Hk) as F. rewrite E in F. exact (found_not_found _ _ _ F Hn). }
    pose proof (full_table_size _ c _ Hw Hids Hn ltac:(set_solver)) as Hge.
    rewrite size_difference, size_singleton in Hge by set_solver.
    assert (size S ≠ 0%nat); [|lia]. intros Hz%size_empty_inv. set_solver.
Qed.

Lemma step_refines o s m S :
  represents s m -> op_id o ≠ 0 -> op_id o ∈ S -> ids_in (g_table s) S -> (size S <= 4096)%nat ->
  ∃ s', step o s = Ok s' ∧ represents s' (spec_step o m) ∧ ids_in (g_table s') S.
Proof.
  intros [Hw Hl] Ho HoS HS Hsz. destruct o as [c f|c]; simpl in *.
  - destruct (install_total c f s S) as (s' & E & HS'); [done..|]. exists s'. split; [done|]. split; [|done].
    destruct (install_spec _ _ _ _ Hw Ho E) as (Hw' & _ & Hl'). split; [exact Hw'|]. intros cid Hc. rewrite Hl' by done.
    case_decide; subst; [by rewrite arr_insert_eq|]. rewrite arr_insert_ne by done. auto.
  - destruct (revert_spec c s Hw Ho) as [Hw' Hl']. eexists. split; [reflexivity|].
    split; [split; [exact Hw'|]|by apply ids_in_revert].
    intros cid Hc. rewrite Hl' by done.
    case_decide; subst; [by rewrite arr_insert_eq|]. rewrite arr_insert_ne by done. auto.
Qed.

(** C24: from an empty table, any sequence of installs and reverts of non-zero
    ids naming at most [TABLE_SIZE] sites runs without tripping the assertion,
    and every lookup then agrees with the finite map the operations describe. *)
Theorem run_refines ops (S : gset CallSiteID) :
  Forall (λ o, op_id o ≠ 0 ∧ op_id o ∈ S) ops -> (size S <= 4096)%nat ->
  ∃ s, run ops init = Ok s ∧ ∀ cid, cid ≠ 0 -> lookup cid s = arr 0 (spec_run ops ∅) cid.
Proof.
  intros HF Hsz.
  cut (∀ s m, represents s m -> ids_in (g_table s) S ->
         ∃ s', run ops s = Ok s' ∧ represents s' (spec_run ops m)).
  { intros H. destruct (H init ∅ init_represents) as (s & E & _ & Hl); [|by exists s].
    intros k Hk. destruct (Hk eq_refl). }
  induction HF as [|o ops [Ho HoS] HF IH]; intros s m Hr HS; [by exists s|].
  destruct (step_refines o s m S) as (s' & E & Hr' & HS'); [done..|].
  simpl. rewrite E. simpl. by apply IH.
Qed.

Lemma run_refines_witness :
  ∃ s, run [OpInstall 5 100; OpInstall 4101 200; OpRevert 5; OpInstall 8197 300] init = Ok s ∧
       lookup 4101 s = 200 ∧ lookup 5 s = 0.
Proof.
  destruct (run_refines [OpInstall 5 100; OpInstall 4101 200; OpRevert 5; OpInstall 8197 300]
              (list_to_set [5; 4101; 8197])) as (s & E & Hl).
  - repeat constructor; simpl; first [lia | set_solver].
  - vm_compute. lia.
  - exists s. split; [exact E|]. split; rewrite Hl by lia; vm_compute; reflexivity.
Defined.

(** The id 0 is not representable: an install for it is lost to the next site
    that probes the same slot. *)
Example zero_id_overwritten :
  (s ← run [OpInstall 0 100; OpInstall 4096 200] init; Ok (lookup 0 s, lookup 4096 s)) = Ok (0, 200).
Proof. vm_compute. reflexivity. Qed.
