(* ===== verification/Lockfree.v ===== *)
(** * The dispatch table under concurrency ([src/src/dispatch/dispatch.cpp])

    [Dispatch] runs the table's operations one at a time.  Here they interleave
    access by access: any number of threads dispatch ([malloc]: the generation, the
    inline cache, [lookup]) and deoptimize ([revert]) while the background thread
    installs; there is no lock.  The loop of [find] reads an entry's id twice per
    iteration, as the source does; [Entry::id] is not atomic there, and the model
    takes its accesses in some sequential order too.  The abstract state is [Dispatch]'s finite map,
    after the writes committed so far. *)

From S2P Require Import Prelude Common Dispatch.

(** ** State *)

Inductive req :=
  | Get (cid : CallSiteID)                    (* [malloc]'s dispatch *)
  | Install (cid : CallSiteID) (f : ptr)
  | Revert (cid : CallSiteID).

Definition req_id (r : req) : CallSiteID := match r with Get c | Install c _ | Revert c => c end.

(** A call under way.  [c_gen] is [malloc]'s [cur_gen]; [c_bumps] is history: how many
    writes the generation had counted when the call began. *)
Record call := mkCall { c_req : req; c_gen : Z; c_bumps : nat }.

(** What a thread's next access is. *)
Inductive pc :=
  | Idle
  | ReadGen (cid : CallSiteID)            (* [generation()] *)
  | First (q : call) (i : Z)              (* iteration [i] of [find]: [e.id == id] *)
  | Second (q : call) (i : Z)             (* the same iteration: [e.id == 0] *)
  | Found (q : call) (e : option Z)       (* [find] has returned *)
  | Access (q : call) (k : Z)             (* the entry's [fn] *)
  | Count (q : call) (j : nat)            (* [g_generation.fetch_add]; the write was the [j]-th *)
  | Return (q : call) (r : ptr)
  | Asserted.

(** The inline cache of a thread. *)
Record cache := mkCache { ic_id : CallSiteID; ic_fn : ptr; ic_gen : Z }.
Definition cache0 : cache := mkCache 0 0 0.

Record conf := mkConf {
  table : gmap Z Entry;
  gen : Z;
  pcs : gmap Z pc;
  caches : gmap Z cache;
  commits : list op;        (* history: the stores to [fn], oldest first *)
  bumped : list nat;        (* history: the writes counted by the generation *)
}.

Definition conf0 : conf := mkConf ∅ 1 ∅ ∅ [] [].

Abbreviation pc_of c t := (arr Idle (pcs c) t).
Abbreviation cache_of c t := (arr cache0 (caches c) t).

Definition goto (t : Z) (p : pc) (c : conf) : conf :=
  mkConf (table c) (gen c) (<[t := p]> (pcs c)) (caches c) (commits c) (bumped c).
Definition set_cache (t : Z) (ic : cache) (c : conf) : conf :=
  mkConf (table c) (gen c) (pcs c) (<[t := ic]> (caches c)) (commits c) (bumped c).
Definition set_table (m : gmap Z Entry) (c : conf) : conf :=
  mkConf m (gen c) (pcs c) (caches c) (commits c) (bumped c).

(** ** Accesses *)

(** [malloc]: read the generation, then hit the cache or look up. *)
Definition read_generation (t : Z) (cid : CallSiteID) (c : conf) : conf :=
  let cur_gen := gen c in
  let q := mkCall (Get cid) cur_gen (length (bumped c)) in
  let ic := cache_of c t in
  if (cid =? ic_id ic) && (cur_gen =? ic_gen ic) then goto t (Return q (ic_fn ic)) c
  else goto t (First q 0) c.

Definition slot_at (cid i : Z) : Z := Z.land (Z.land cid (TABLE_SIZE - 1) + i) (TABLE_SIZE - 1).

(** [find]: the two reads of an iteration. *)
Definition find_first (t : Z) (q : call) (i : Z) (c : conf) : conf :=
  let k := slot_at (req_id (c_req q)) i in
  if i <? TABLE_SIZE then
    if id_at (table c) k =? req_id (c_req q) then goto t (Found q (Some k)) c else goto t (Second q i) c
  else goto t (Found q None) c.

Definition find_second (t : Z) (q : call) (i : Z) (c : conf) : conf :=
  let k := slot_at (req_id (c_req q)) i in
  if id_at (table c) k =? 0 then goto t (Found q (Some k)) c else goto t (First q (i + 1)) c.

(** A dispatch ends: [malloc] fills its cache. *)
Definition give (t : Z) (q : call) (r : ptr) (c : conf) : conf :=
  match c_req q with
  | Get cid => goto t (Return q r) (set_cache t (mkCache cid r (c_gen q)) c)
  | _ => goto t (Return q r) c
  end.

(** [lookup] and [revert] check the id [find] stopped at; [install] asserts and
    writes it. *)
Definition after_find (t : Z) (q : call) (e : option Z) (c : conf) : conf :=
  match c_req q, e with
  | Install _ _, None => goto t Asserted c
  | Install cid _, Some k => goto t (Access q k) (set_table (<[k := mkEntry (fn (entry (table c) k)) cid]> (table c)) c)
  | (Get _ | Revert _), None => give t q 0 c
  | (Get cid | Revert cid), Some k =>
      if id_at (table c) k =? cid then goto t (Access q k) c else give t q 0 c
  end.

(** [e->fn.store]: the write is committed. *)
Definition commit (t : Z) (q : call) (k : Z) (o : op) (f : ptr) (c : conf) : conf :=
  mkConf (<[k := mkEntry f (id_at (table c) k)]> (table c)) (gen c)
    (<[t := Count q (length (commits c))]> (pcs c)) (caches c) (commits c ++ [o]) (bumped c).

Definition access_fn (t : Z) (q : call) (k : Z) (c : conf) : conf :=
  match c_req q with
  | Get _ => give t q (fn (entry (table c) k)) c
  | Install cid f => commit t q k (OpInstall cid f) f c
  | Revert cid => commit t q k (OpRevert cid) 0 c
  end.

Definition count_write (t : Z) (q : call) (j : nat) (c : conf) : conf :=
  mkConf (table c) (u64 (gen c + 1)) (<[t := Return q 0]> (pcs c)) (caches c) (commits c) (bumped c ++ [j]).

(** Thread [t]'s next access. *)
Definition access (t : Z) (c : conf) : option conf :=
  match pc_of c t with
  | Idle | Asserted => None
  | ReadGen cid => Some (read_generation t cid c)
  | First q i => Some (find_first t q i c)
  | Second q i => Some (find_second t q i c)
  | Found q e => Some (after_find t q e c)
  | Access q k => Some (access_fn t q k c)
  | Count q j => Some (count_write t q j c)
  | Return _ _ => Some (goto t Idle c)
  end.

(** An idle thread makes a call.  Sites are those of [S] (their ids are not 0, which
    marks free entries); only the background thread [bg] installs. *)
Definition invoke (bg : Z) (S : gset CallSiteID) (t : Z) (r : req) (c : conf) : option conf :=
  let q := mkCall r 0 (length (bumped c)) in
  match pc_of c t with
  | Idle =>
      if bool_decide (req_id r ∈ S ∧ req_id r ≠ 0) then
        match r with
        | Get cid => Some (goto t (ReadGen cid) c)
        | Install _ _ => if t =? bg then Some (goto t (First q 0) c) else None
        | Revert _ => Some (goto t (First q 0) c)
        end
      else None
  | _ => None
  end.

Inductive action := Call (t : Z) (r : req) | Next (t : Z).

Definition exec (bg : Z) (S : gset CallSiteID) (a : action) (c : conf) : option conf :=
  match a with Call t r => invoke bg S t r c | Next t => access t c end.

Definition step (bg : Z) (S : gset CallSiteID) (c c' : conf) : Prop := ∃ a, exec bg S a c = Some c'.

Fixpoint exec_all (bg : Z) (S : gset CallSiteID) (l : list action) (c : conf) : option conf :=
  match l with [] => Some c | a :: l => c' ← exec bg S a c; exec_all bg S l c' end.

(** ** What the table held *)

(** What the abstract map holds for [cid] after the first [n] writes. *)
Definition value (c : conf) (n : nat) (cid : CallSiteID) : ptr := arr 0 (spec_run (take n (commits c)) ∅) cid.

(** [r] was the value of [cid] after some number of writes that includes the first
    [b] the generation counted. *)
Definition held_since (c : conf) (b : nat) (cid : CallSiteID) (r : ptr) : Prop :=
  ∃ n, (n <= length (commits c))%nat ∧ (∀ j, j ∈ take b (bumped c) -> (j < n)%nat) ∧ r = value c n cid.

(** ** The invariant *)

Section Invariant.
Context (bg : Z) (S : gset CallSiteID).

Definition installs (q : call) : Prop := match c_req q with Install _ _ => True | _ => False end.
#[local] Instance installs_dec q : Decision (installs q).
Proof. unfold installs. destruct (c_req q); apply _. Defined.
Definition cid_of (q : call) : CallSiteID := req_id (c_req q).

(** A value of the call's site since the call began. *)
Definition seen (c : conf) (q : call) (r : ptr) : Prop := held_since c (c_bumps q) (cid_of q) r.

(** The first [i] slots of the probe do not stop it. *)
Definition scanned (c : conf) (cid i : Z) : Prop := ∀ j, 0 <= j < i -> ¬ stops (table c) cid (probe cid j).

(** Either the scan is what it would be alone, or, when not installing, the site had
    no routine at some moment of the call. *)
Definition or_missed (c : conf) (q : call) (P : Prop) : Prop := P ∨ (¬ installs q ∧ seen c q 0).

Definition call_ok (c : conf) (t : Z) (q : call) : Prop :=
  cid_of q ∈ S ∧ cid_of q ≠ 0 ∧ (installs q -> t = bg) ∧
  (c_bumps q <= length (bumped c))%nat ∧
  (∀ cid, c_req q = Get cid -> c_gen q = u64 (1 + Z.of_nat (c_bumps q))).

(** What is known at each point of a call. *)
Definition pc_ok (c : conf) (t : Z) (p : pc) : Prop :=
  match p with
  | Idle => True
  | ReadGen cid => cid ∈ S ∧ cid ≠ 0
  | First q i => call_ok c t q ∧ 0 <= i <= TABLE_SIZE ∧ or_missed c q (scanned c (cid_of q) i)
  | Second q i => call_ok c t q ∧ 0 <= i < TABLE_SIZE ∧
      or_missed c q (scanned c (cid_of q) i ∧ id_at (table c) (probe (cid_of q) i) ≠ cid_of q)
  | Found q (Some k) => call_ok c t q ∧ (installs q -> found (table c) (cid_of q) k) ∧
      or_missed c q (stops (table c) (cid_of q) k ∧ (id_at (table c) k = 0 -> installs q))
  | Found q None => call_ok c t q ∧ or_missed c q (not_found (table c) (cid_of q))
  | Access q k => call_ok c t q ∧ id_at (table c) k = cid_of q
  | Count q j => call_ok c t q ∧ (j < length (commits c))%nat ∧ (∀ cid, c_req q ≠ Get cid)
  | Return q r => call_ok c t q ∧ (∀ cid, c_req q = Get cid -> seen c q r)
  | Asserted => False
  end.

Definition cache_ok (c : conf) (ic : cache) : Prop :=
  ic_id ic = 0 ∨ ∃ b, (b <= length (bumped c))%nat ∧ ic_gen ic = u64 (1 + Z.of_nat b) ∧
    held_since c b (ic_id ic) (ic_fn ic).

Record inv (c : conf) : Prop := {
  i_table : represents (mkState (table c) (gen c)) (spec_run (commits c) ∅);
  i_ids : ids_in (table c) S;
  i_gen : gen c = u64 (1 + Z.of_nat (length (bumped c)));
  i_bumped : ∀ j, j ∈ bumped c -> (j < length (commits c))%nat;
  i_pcs : ∀ t, pc_ok c t (pc_of c t);
  i_caches : ∀ t, cache_ok c (cache_of c t);
}.

Lemma lockfree_conf0 : inv conf0.
Proof.
  split; try done.
  - exact init_represents.
  - intros k Hk. by destruct (Hk eq_refl).
  - intros j Hj. by apply elem_of_nil in Hj.
  - intros t. cbn. rewrite arr_empty. by left.
Qed.

(** *** What the table holds now *)

Lemma value_now c cid : value c (length (commits c)) cid = arr 0 (spec_run (commits c) ∅) cid.
Proof. unfold value. by rewrite take_ge. Qed.

Lemma holds_fn c k cid : inv c -> cid ≠ 0 -> id_at (table c) k = cid ->
  value c (length (commits c)) cid = fn (entry (table c) k).
Proof.
  intros [[[Hwf _] Hl] _ _ _ _ _] Hc Hk. rewrite value_now, <- Hl by done.
  rewrite (lookup_found _ _ cid k) by (subst; by apply Hwf). by rewrite Hk, Z.eqb_refl.
Qed.

Lemma holds_nothing c k cid : inv c -> cid ≠ 0 -> found (table c) cid k -> id_at (table c) k = 0 ->
  value c (length (commits c)) cid = 0.
Proof.
  intros [[_ Hl] _ _ _ _ _] Hc Hf Hk. rewrite value_now, <- Hl, (lookup_found _ _ cid k) by done.
  rewrite Hk. by destruct (Z.eqb_spec 0 cid).
Qed.

Lemma holds_not_found c cid : inv c -> cid ≠ 0 -> not_found (table c) cid -> value c (length (commits c)) cid = 0.
Proof.
  intros [[_ Hl] _ _ _ _ _] Hc Hn. rewrite value_now, <- Hl by done. apply lookup_absent.
  intros k Hf. destruct (found_not_found _ _ _ Hf Hn).
Qed.

Lemma seen_now c t q r : inv c -> call_ok c t q -> value c (length (commits c)) (cid_of q) = r -> seen c q r.
Proof.
  intros I _ <-. exists (length (commits c)). split_and!; [lia| |done].
  intros j Hj. apply (i_bumped _ I). by eapply elem_of_take in Hj as (? & ?%list_elem_of_lookup_2 & _).
Qed.

Lemma scanned_found c cid i : scanned c cid i -> 0 <= i < TABLE_SIZE -> stops (table c) cid (probe cid i) ->
  found (table c) cid (probe cid i).
Proof. intros Hs Hi Hst. by exists i. Qed.

Lemma scanned_all c cid : scanned c cid TABLE_SIZE -> not_found (table c) cid.
Proof. intros Hs k Hk. destruct (probe_surj cid k Hk) as (i & Hi & <-). by apply Hs. Qed.

(** *** Other threads' accesses *)

(** Ids are written once, and the histories grow; only [bg] writes ids. *)
Record grows (t : Z) (c c' : conf) : Prop := {
  g_ids : ∀ k, id_at (table c) k ≠ 0 -> id_at (table c') k = id_at (table c) k;
  g_bg : t = bg ∨ ∀ k, id_at (table c') k = id_at (table c) k;
  g_commits : commits c `prefix_of` commits c';
  g_bumped : bumped c `prefix_of` bumped c';
}.

Lemma take_prefix {A} (l l' : list A) n : l `prefix_of` l' -> (n <= length l)%nat -> take n l' = take n l.
Proof. intros [k ->] Hn. by rewrite take_app_le. Qed.

Lemma held_since_grows t c c' b cid r :
  grows t c c' -> (b <= length (bumped c))%nat -> held_since c b cid r -> held_since c' b cid r.
Proof.
  intros G Hb (n & Hn & Hj & ->). pose proof (prefix_length _ _ (g_commits _ _ _ G)).
  exists n. split_and!; [lia| |].
  - by rewrite (take_prefix _ _ _ (g_bumped _ _ _ G)) by lia.
  - unfold value. by rewrite (take_prefix _ _ _ (g_commits _ _ _ G)) by lia.
Qed.

Lemma call_ok_grows t c c' t' q : grows t c c' -> call_ok c t' q -> call_ok c' t' q.
Proof.
  intros G (HS & H0 & Hbg & Hb & Hg).
  pose proof (prefix_length _ _ (g_bumped _ _ _ G)).
  split_and!; done || lia.
Qed.

Lemma seen_grows t c c' t' q r : grows t c c' -> call_ok c t' q -> seen c q r -> seen c' q r.
Proof.
  intros G (_ & _ & _ & Hb & _). by apply (held_since_grows t).
Qed.

Lemma scanned_grows t c c' cid i : grows t c c' -> scanned c cid i -> scanned c' cid i.
Proof.
  intros G Hs j Hj. specialize (Hs j Hj). unfold stops in *.
  rewrite (g_ids _ _ _ G) by tauto. tauto.
Qed.

Lemma found_same c c' cid k :
  (∀ k, id_at (table c') k = id_at (table c) k) -> found (table c) cid k -> found (table c') cid k.
Proof.
  intros Hids (j & Hj & Hk & Hs & Hm). exists j. unfold stops in *. split_and!; [lia|lia|done|by rewrite Hids|].
  intros j' Hj'. rewrite Hids. by apply Hm.
Qed.

Lemma not_found_same c c' cid :
  (∀ k, id_at (table c') k = id_at (table c) k) -> not_found (table c) cid -> not_found (table c') cid.
Proof. intros Hids Hn k Hk. unfold stops in *. rewrite Hids. by apply Hn. Qed.

(** A slot that ends a probe stays one, unless the probe is another's. *)
Lemma first_free c t q i : inv c -> call_ok c t q -> 0 <= i < TABLE_SIZE -> scanned c (cid_of q) i ->
  id_at (table c) (probe (cid_of q) i) = 0 -> seen c q 0.
Proof.
  intros I Hq Hi Hs H0. eapply seen_now; [done..|]. eapply holds_nothing; [done|by apply Hq| |done].
  apply scanned_found; [done..|by right].
Qed.

Lemma pc_ok_grows t c c' t' p : inv c -> grows t c c' -> t' ≠ t -> pc_ok c t' p -> pc_ok c' t' p.
Proof.
  intros I G Hne. pose proof (prefix_length _ _ (g_commits _ _ _ G)) as Hlen.
  assert (Hsame : ∀ q, call_ok c t' q -> installs q -> ∀ k, id_at (table c') k = id_at (table c) k).
  { intros q (_ & _ & Hbg & _) Hin. destruct (g_bg _ _ _ G) as [->|]; [|done]. by destruct (Hne (Hbg Hin)). }
  destruct p as [|cid|q i|q i|q [k|]|q k|q j|q r|]; simpl; try done.
  - intros (Hq & Hi & Hm). split_and!; [by eapply call_ok_grows|lia|lia|]. destruct Hm as [Hm|[Hn Hm]].
    + left. by eapply scanned_grows.
    + right. split; [done|]. by eapply seen_grows.
  - intros (Hq & Hi & Hm). split_and!; [by eapply call_ok_grows|lia|lia|]. destruct Hm as [[Hm Hid]|[Hn Hm]].
    + destruct (decide (id_at (table c') (probe (cid_of q) i) = cid_of q)) as [E|E];
        [|left; split; [by eapply scanned_grows|done]].
      right. split; [intros Hin; by rewrite (Hsame q Hq Hin) in E|].
      eapply seen_grows; [done..|]. eapply first_free; [done..|].
      destruct (decide (id_at (table c) (probe (cid_of q) i) = 0)) as [|H0]; [done|].
      by rewrite (g_ids _ _ _ G _ H0) in E.
    + right. split; [done|]. by eapply seen_grows.
  - intros (Hq & Hf & Hm). split_and!; [by eapply call_ok_grows| |].
    { intros Hin. eapply found_same; [by apply (Hsame q)|by apply Hf]. }
    destruct Hm as [[Hst H0]|[Hn Hm]]; [|right; split; [done|by eapply seen_grows]]. left.
    destruct (decide (id_at (table c) k = 0)) as [Ek|Ek].
    + unfold stops. rewrite (Hsame q Hq (H0 Ek)). by split.
    + unfold stops in *. rewrite (g_ids _ _ _ G _ Ek). by split.
  - intros (Hq & Hm). split; [by eapply call_ok_grows|]. destruct Hm as [Hm|[Hn Hm]].
    + destruct (decide (installs q)) as [Hin|Hin].
      * left. eapply not_found_same; [by apply (Hsame q)|done].
      * right. split; [done|]. eapply seen_grows; [done..|]. eapply seen_now; [done..|].
        apply holds_not_found; [done|by apply Hq|done].
    + right. split; [done|]. by eapply seen_grows.
  - intros (Hq & Hid). split; [by eapply call_ok_grows|]. rewrite (g_ids _ _ _ G); [done|]. rewrite Hid. by apply Hq.
  - intros (Hq & Hj & Hg). split; [by eapply call_ok_grows|]. split; [lia|done].
  - intros (Hq & Hr). split; [by eapply call_ok_grows|]. intros cid Hc. eapply seen_grows; [done..|by eapply Hr].
Qed.

Lemma cache_ok_grows t c c' ic : grows t c c' -> cache_ok c ic -> cache_ok c' ic.
Proof.
  intros G [H|(b & Hb & Hg & Hh)]; [by left|right]. exists b.
  pose proof (prefix_length _ _ (g_bumped _ _ _ G)). split_and!; [lia|done|by eapply held_since_grows].
Qed.

(** *** A thread's own accesses *)

(** A step of thread [t] that takes it to [p]. *)
Lemma inv_own c c' t p :
  inv c -> grows t c c' -> pcs c' = <[t := p]> (pcs c) ->
  (∀ t', t' ≠ t -> cache_of c' t' = cache_of c t') ->
  represents (mkState (table c') (gen c')) (spec_run (commits c') ∅) -> ids_in (table c') S ->
  gen c' = u64 (1 + Z.of_nat (length (bumped c'))) -> (∀ j, j ∈ bumped c' -> (j < length (commits c'))%nat) ->
  pc_ok c' t p -> cache_ok c' (cache_of c' t) -> inv c'.
Proof.
  intros I G Hpcs Hcaches Ht Hi Hg Hb Hp Hc. split; try done; intros t'.
  - rewrite Hpcs. destruct (decide (t = t')) as [<-|Hne]; [by rewrite arr_insert_eq|].
    rewrite arr_insert_ne by done. eapply pc_ok_grows; [done|exact G|done|apply (i_pcs _ I)].
  - destruct (decide (t' = t)) as [->|Hne]; [done|]. rewrite Hcaches by done.
    eapply cache_ok_grows; [exact G|apply (i_caches _ I)].
Qed.

Lemma grows_refl t c c' : table c' = table c -> commits c' = commits c -> bumped c' = bumped c -> grows t c c'.
Proof. intros Et Ec Eb. split; rewrite ?Et, ?Ec, ?Eb; auto. Qed.

Lemma lockfree_goto c t p : inv c -> pc_ok c t p -> inv (goto t p c).
Proof.
  intros I Hp. eapply (inv_own c _ t p); try done; try apply I. by apply grows_refl.
Qed.

Lemma inv_give c t q r : inv c -> call_ok c t q -> (¬ installs q -> seen c q r) -> inv (give t q r c).
Proof.
  intros I Hq Hr. unfold give. destruct (c_req q) as [cid|cid f|cid] eqn:Er;
    [|apply lockfree_goto; [done|split; [done|by rewrite Er]]..].
  assert (Hs : seen c q r) by (apply Hr; unfold installs; rewrite Er; tauto).
  eapply (inv_own c _ t (Return q r)); try done; try apply I.
  - by apply grows_refl.
  - intros t' Hne. cbn. by rewrite arr_insert_ne.
  - cbn. rewrite arr_insert_eq. right. exists (c_bumps q). cbn.
    destruct Hq as (_ & _ & _ & Hb & Hg). split; [lia|]. split; [by apply (Hg cid)|].
    unfold seen, cid_of in Hs. rewrite Er in Hs. exact Hs.
Qed.

(** The entry at the end of the call's own probe is written. *)
Lemma represents_write c k cid f o :
  inv c -> cid ≠ 0 -> found (table c) cid k -> o = OpInstall cid f ∨ (o = OpRevert cid ∧ f = 0) ->
  represents (mkState (<[k := mkEntry f cid]> (table c)) (gen c)) (spec_run (commits c ++ [o]) ∅).
Proof.
  intros [[Hwf Hl] _ _ _ _ _] Hc Hf Ho. cbn in Hwf. split; [by apply wf_insert|]. intros cid' Hc'.
  assert (E : spec_run (commits c ++ [o]) ∅ = <[cid := f]> (spec_run (commits c) ∅)).
  { unfold spec_run. rewrite foldl_app. by destruct Ho as [->|[-> ->]]. }
  rewrite E. destruct (decide (cid = cid')) as [<-|Hne].
  - by rewrite lookup_insert_same, arr_insert_eq.
  - rewrite arr_insert_ne by done. rewrite (lookup_insert_other _ _ _ _ _ (gen c)) by done. by apply Hl.
Qed.

Lemma inv_commit c t q k o f :
  inv c -> call_ok c t q -> (∀ cid, c_req q ≠ Get cid) -> id_at (table c) k = cid_of q ->
  o = OpInstall (cid_of q) f ∨ (o = OpRevert (cid_of q) ∧ f = 0) -> inv (commit t q k o f c).
Proof.
  intros I Hq Hng Hid Ho. assert (Hf : found (table c) (cid_of q) k).
  { rewrite <- Hid. destruct I as [[[Hwf _] _] _ _ _ _ _]. cbn in Hwf. apply Hwf. rewrite Hid. by apply Hq. }
  assert (G : grows t c (commit t q k o f c)).
  { assert (Hids : ∀ k', id_at (table (commit t q k o f c)) k' = id_at (table c) k').
    { intros k'. cbn. destruct (decide (k = k')) as [<-|]; [by rewrite arr_insert_eq|by rewrite arr_insert_ne]. }
    split; [intros; apply Hids|by right|by apply prefix_app_r|done]. }
  eapply (inv_own c _ t); [done|exact G|reflexivity|done|..].
  - cbn. rewrite Hid. apply represents_write; [done|by apply Hq|done|done].
  - cbn. apply ids_in_keep, I.
  - apply I.
  - intros j Hj. cbn. rewrite length_app. apply (i_bumped _ I) in Hj. lia.
  - split; [by eapply call_ok_grows|]. split; [|done]. cbn. rewrite length_app. simpl. lia.
  - eapply cache_ok_grows; [exact G|apply (i_caches _ I)].
Qed.

(** [install] writes its id: the abstract map does not change. *)
Lemma inv_write_id c q k :
  inv c -> call_ok c bg q -> found (table c) (cid_of q) k ->
  inv (goto bg (Access q k) (set_table (<[k := mkEntry (fn (entry (table c) k)) (cid_of q)]> (table c)) c)).
Proof.
  intros I Hq Hf. set (c' := goto _ _ _).
  assert (Hids : ∀ k', id_at (table c) k' ≠ 0 -> id_at (table c') k' = id_at (table c) k').
  { intros k' H0. cbn. destruct (decide (k = k')) as [<-|]; [|by rewrite arr_insert_ne].
    rewrite arr_insert_eq. by destruct (found_range _ _ _ Hf) as [_ [?|?]]. }
  assert (G : grows bg c c') by (split; [done|by left|done|done]).
  eapply (inv_own c _ bg); [done|exact G|reflexivity|done|..].
  - destruct I as [[Hwf Hl] _ _ _ _ _]. cbn in Hwf, Hl. split; [apply wf_insert; [done|by apply Hq|done]|].
    intros cid' Hc'. rewrite <- Hl by done. cbn. destruct (decide (cid_of q = cid')) as [<-|Hne].
    + rewrite lookup_insert_same, (lookup_found _ _ _ k) by done. destruct (Z.eqb_spec (id_at (table c) k) (cid_of q)); [done|].
      destruct Hwf as [_ Hfn]. apply Hfn. by destruct (found_range _ _ _ Hf) as [_ [?|?]].
    + by rewrite (lookup_insert_other _ _ _ _ _ (gen c)) by (done || apply Hq).
  - apply ids_in_insert; [apply I|apply Hq].
  - apply I.
  - apply I.
  - split; [by eapply call_ok_grows|]. cbn. by rewrite arr_insert_eq.
  - eapply cache_ok_grows; [exact G|apply (i_caches _ I)].
Qed.

Lemma inv_count c t q j : inv c -> call_ok c t q -> (j < length (commits c))%nat ->
  (∀ cid, c_req q ≠ Get cid) -> inv (count_write t q j c).
Proof.
  intros I Hq Hj Hng. assert (G : grows t c (count_write t q j c)).
  { split; [done|by right|done|by apply prefix_app_r]. }
  eapply (inv_own c _ t); [done|exact G|reflexivity|done|..].
  - apply I.
  - apply I.
  - cbn. rewrite (i_gen _ I), length_app. unfold u64. rewrite wrap_add_l. f_equal. simpl. lia.
  - intros j' [Hj'|Hj']%elem_of_app; [by apply (i_bumped _ I)|]. apply list_elem_of_singleton in Hj' as ->. exact Hj.
  - split; [by eapply call_ok_grows|]. intros cid E. destruct (Hng cid E).
  - eapply cache_ok_grows; [exact G|apply (i_caches _ I)].
Qed.

(** The generation distinguishes fewer than 2^64 writes. *)
Definition unwrapped (c : conf) : Prop := Z.of_nat (length (bumped c)) < 2 ^ 64 - 1.

Lemma lockfree_read c t cid :
  inv c -> unwrapped c -> cid ∈ S -> cid ≠ 0 -> inv (read_generation t cid c).
Proof.
  intros I Hw HS H0. unfold read_generation. set (q := mkCall _ _ _).
  assert (Hq : call_ok c t q).
  { split_and!; try done. intros _ _. apply (i_gen _ I). }
  destruct (_ && _)%bool eqn:E; zb; apply lockfree_goto; try done.
  - split; [done|]. intros _ _. destruct (i_caches _ I t) as [Hid|(b & Hb & Hg & Hh)]; [congruence|].
    assert (b = length (bumped c)) as ->.
    { rewrite (i_gen _ I), Hg in *. unfold unwrapped in Hw. rewrite !u64_small in * by lia. lia. }
    unfold seen, cid_of. cbn. congruence.
  - split; [done|]. split; [unfold TABLE_SIZE; lia|]. left. intros j. lia.
Qed.

(** An install finds an entry. *)
Lemma capacity c q : inv c -> (size S <= 4096)%nat -> cid_of q ∈ S -> not_found (table c) (cid_of q) -> False.
Proof.
  intros I Hsz HS Hn. destruct (install_total (cid_of q) 0 (mkState (table c) (gen c)) S) as (s' & E & _);
    [by destruct (i_table _ I)|done|apply I|done|].
  unfold install in E. cbn in E. destruct (find_spec (table c) (cid_of q)) as [(k & _ & Hf)|[Ef _]].
  - exact (found_not_found _ _ _ Hf Hn).
  - by rewrite Ef in E.
Qed.

Lemma inv_find_first c t q i : inv c -> pc_ok c t (First q i) -> inv (find_first t q i c).
Proof.
  intros I (Hq & Hi & Hm). unfold find_first, slot_at. rewrite land_probe. fold (cid_of q).
  assert (H0 : cid_of q ≠ 0) by apply Hq.
  destruct (i <? TABLE_SIZE) eqn:Ei; zb; [destruct (_ =? _) eqn:E; zb|]; apply lockfree_goto; try done.
  - split_and!; [done| |].
    + intros Hin. destruct Hm as [Hm|[Hn _]]; [|done]. apply scanned_found; [done|lia|by left].
    + left. split; [by left|congruence].
  - split_and!; [done|lia|lia|]. destruct Hm as [Hm|Hm]; [by left|by right].
  - split; [done|]. destruct Hm as [Hm|Hm]; [left|by right]. apply scanned_all. by replace TABLE_SIZE with i by lia.
Qed.

Lemma inv_find_second c t q i : inv c -> pc_ok c t (Second q i) -> inv (find_second t q i c).
Proof.
  intros I (Hq & Hi & Hm). unfold find_second, slot_at. rewrite land_probe. fold (cid_of q).
  destruct (_ =? _) eqn:E; zb; apply lockfree_goto; try done.
  - split_and!; [done| |].
    + intros Hin. destruct Hm as [[Hm _]|[Hn _]]; [|done]. apply scanned_found; [done|lia|by right].
    + destruct (decide (installs q)) as [Hin|Hn]; [left; split; [by right|done]|right]. split; [done|].
      destruct Hm as [[Hm _]|[_ Hm]]; [by eapply first_free|done].
  - split_and!; [done|lia|lia|]. destruct Hm as [[Hm Hne]|Hm]; [left|by right].
    intros j Hj. destruct (decide (j = i)) as [->|]; [|apply Hm; lia]. by intros [?|?].
Qed.

Lemma inv_after_find c t q e :
  inv c -> (size S <= 4096)%nat -> pc_ok c t (Found q e) -> inv (after_find t q e c).
Proof.
  intros I Hsz Hp. assert (Hq : call_ok c t q) by (destruct e; apply Hp).
  destruct (decide (installs q)) as [Hin|Hn]; unfold after_find.
  - destruct (c_req q) as [|cid f|] eqn:Er; [unfold installs in Hin; by rewrite Er in Hin| |unfold installs in Hin; by rewrite Er in Hin].
    assert (cid = cid_of q) as -> by (unfold cid_of; by rewrite Er).
    assert (t = bg) as -> by (by apply Hq). destruct e as [k|].
    + apply inv_write_id; [done|done|by apply Hp].
    + exfalso. destruct Hp as [_ [Hm|[Hm _]]]; [|done]. apply (capacity c q); [done|done|apply Hq|done].
  - assert (Hz : or_missed c q False -> inv (give t q 0 c)).
    { intros [[]|[_ Hm]]. by apply inv_give. }
    assert (E : (match c_req q, e with
      | Install _ _, None => goto t Asserted c
      | Install cid _, Some k => goto t (Access q k) (set_table (<[k := mkEntry (fn (entry (table c) k)) cid]> (table c)) c)
      | (Get _ | Revert _), None => give t q 0 c
      | (Get cid | Revert cid), Some k => if id_at (table c) k =? cid then goto t (Access q k) c else give t q 0 c
      end) = match e with
      | None => give t q 0 c
      | Some k => if id_at (table c) k =? cid_of q then goto t (Access q k) c else give t q 0 c
      end).
    { unfold installs, cid_of in *. by destruct (c_req q), e. }
    rewrite E. destruct e as [k|].
    + destruct Hp as (_ & _ & Hm). destruct (_ =? _) eqn:Ek; zb; [by apply lockfree_goto|]. apply Hz.
      destruct Hm as [[[?|H0] Hst]|Hm]; [done|by destruct (Hn (Hst H0))|by right].
    + destruct Hp as [_ [Hm|Hm]]; apply Hz; [|by right]. right. split; [done|].
      eapply seen_now; [done..|]. apply holds_not_found; [done|apply Hq|done].
Qed.

Lemma inv_access_fn c t q k : inv c -> pc_ok c t (Access q k) -> inv (access_fn t q k c).
Proof.
  intros I [Hq Hid]. unfold access_fn. destruct (c_req q) as [cid|cid f|cid] eqn:Er;
    (assert (cid = cid_of q) as -> by (unfold cid_of; by rewrite Er)).
  - apply inv_give; [done|done|]. intros _. eapply seen_now; [done..|]. apply holds_fn; [done|apply Hq|done].
  - apply inv_commit; [done|done|congruence|done|by left].
  - apply inv_commit; [done|done|congruence|done|by right].
Qed.

Lemma inv_access c t c' : inv c -> unwrapped c -> (size S <= 4096)%nat -> access t c = Some c' -> inv c'.
Proof.
  intros I Hw Hsz E. pose proof (i_pcs _ I t) as Hp. unfold access in E.
  destruct (pc_of c t) as [|cid|q i|q i|q e|q k|q j|q r|]; try done; injection E as <-.
  - by apply lockfree_read; try apply Hp.
  - by apply inv_find_first.
  - by apply inv_find_second.
  - by apply inv_after_find.
  - by apply inv_access_fn.
  - destruct Hp as (? & ? & ?). by apply inv_count.
  - by apply lockfree_goto.
Qed.

Lemma inv_invoke c t r c' : inv c -> invoke bg S t r c = Some c' -> inv c'.
Proof.
  intros I E. unfold invoke in E. destruct (pc_of c t); try done. case_bool_decide as Hr; [|done]. destruct Hr as [HrS Hr0].
  set (q := mkCall _ _ _) in E.
  assert (Hq : (installs q -> t = bg) -> (∀ cid, r ≠ Get cid) -> inv (goto t (First q 0) c)).
  { intros Hbg Hng. apply lockfree_goto; [done|]. split_and!; try done; try (unfold TABLE_SIZE; lia).
    - split_and!; try done. intros cid Er. by destruct (Hng cid).
    - left. intros j. lia. }
  destruct r as [cid|cid f|cid]; [injection E as <-; by apply lockfree_goto|..].
  - destruct (t =? bg) eqn:Et; [|done]. injection E as <-. zb. by apply Hq.
  - injection E as <-. apply Hq; [by intros []|done].
Qed.
End Invariant.

(** Histories only grow, so that an unwrapped state was never wrapped. *)
Lemma bumped_grows bg S c c' : step bg S c c' -> unwrapped c' -> unwrapped c.
Proof.
  intros [[t r|t] E] Hw; simpl in E.
  - unfold invoke in E. repeat case_match; simplify_eq; done.
  - assert (H : (length (bumped c) <= length (bumped c'))%nat); [|unfold unwrapped in *; lia].
    unfold access, read_generation, find_first, find_second, after_find, access_fn, give in E.
    repeat case_match; simplify_eq/=; rewrite ?length_app; lia.
Qed.

Lemma lockfree_inv bg S c : (size S <= 4096)%nat -> rtc (step bg S) conf0 c -> unwrapped c -> inv bg S c.
Proof.
  intros Hsz Hc. revert Hc. apply (reachable_invariant _ (λ c, unwrapped c -> inv bg S c)).
  - intros _. apply lockfree_conf0.
  - intros a b IH Hab Hw. pose proof (bumped_grows _ _ _ _ Hab Hw) as Hwa. destruct Hab as [[t r|t] E].
    + eapply inv_invoke; [by apply IH|exact E].
    + eapply inv_access; [by apply IH|done|done|exact E].
Qed.

(** ** Properties *)

(** C8: dispatch without a lock.  However the accesses of any number of dispatching
    and deoptimizing threads interleave with those of the installing background
    thread, the table always represents the map that the committed writes describe;
    no install fails its assertion; and every routine [malloc] is given, by the
    table or by its inline cache, is one the map held for that very site after some
    writes that include every write finished before the call read the generation. *)
Theorem lockfree_dispatch (bg : Z) (S : gset CallSiteID) (c : conf) :
  (size S <= 4096)%nat -> rtc (step bg S) conf0 c -> unwrapped c ->
  represents (mkState (table c) (gen c)) (spec_run (commits c) ∅) ∧
  ∀ t, pc_of c t ≠ Asserted ∧
    ∀ q cid r, pc_of c t = Return q r -> c_req q = Get cid -> held_since c (c_bumps q) cid r.
Proof.
  intros Hsz Hc Hw. pose proof (lockfree_inv bg S c Hsz Hc Hw) as I. split; [apply I|].
  intros t. pose proof (i_pcs _ _ _ I t) as Hp. split; [intros E; by rewrite E in Hp|].
  intros q cid r E Er. rewrite E in Hp. destruct Hp as [_ Hp]. specialize (Hp cid Er).
  unfold seen, cid_of in Hp. by rewrite Er in Hp.
Qed.

(** How many accesses a call still makes at most. *)
Definition remaining (p : pc) : Z :=
  match p with
  | Idle | Asserted => 0
  | Return _ _ => 1
  | Count _ _ => 2
  | Access _ _ => 3
  | Found _ _ => 4
  | First _ i => 2 * (TABLE_SIZE - i) + 5
  | Second _ i => 2 * (TABLE_SIZE - i) + 4
  | ReadGen _ => 2 * TABLE_SIZE + 6
  end.

Definition actor (a : action) : Z := match a with Call t _ | Next t => t end.

Lemma exec_frame bg S a c c' : exec bg S a c = Some c' -> ∃ p, pcs c' = <[actor a := p]> (pcs c).
Proof.
  destruct a as [t r|t]; simpl; intros E.
  - unfold invoke in E. repeat case_match; simplify_eq; by eexists.
  - unfold access, read_generation, find_first, find_second, after_find, access_fn, give in E.
    repeat case_match; simplify_eq; by eexists.
Qed.

Lemma access_progress bg S c t :
  inv bg S c -> pc_of c t ≠ Idle ->
  0 < remaining (pc_of c t) <= 8198 ∧
  ∃ c', access t c = Some c' ∧ remaining (pc_of c' t) < remaining (pc_of c t).
Proof.
  intros I Hp. pose proof (i_pcs _ _ _ I t) as Hok. unfold access.
  destruct (pc_of c t) as [|cid|q i|q i|q e|q k|q j|q r|] eqn:Ep; try done.
  all: split; [simpl in *; unfold TABLE_SIZE in *; lia|].
  all: eexists; (split; [reflexivity|]).
  all: unfold read_generation, find_first, find_second, after_find, access_fn, give, commit, count_write.
  all: repeat case_match; cbn [pcs goto set_cache set_table]; rewrite arr_insert_eq; simpl in *; unfold TABLE_SIZE in *; lia.
Qed.

(** C17: every call returns.  A call under way can always make its next access, each
    of its accesses brings it closer to its end, which is never more than 8198
    accesses away, and no step of another thread sets it back: the dispatch, the
    installs and the reverts are wait-free. *)
Theorem calls_wait_free (bg : Z) (S : gset CallSiteID) (c : conf) (t : Z) :
  (size S <= 4096)%nat -> rtc (step bg S) conf0 c -> unwrapped c -> pc_of c t ≠ Idle ->
  0 < remaining (pc_of c t) <= 8198 ∧
  (∃ c', access t c = Some c' ∧ remaining (pc_of c' t) < remaining (pc_of c t)) ∧
  (∀ a c', exec bg S a c = Some c' -> actor a ≠ t -> pc_of c' t = pc_of c t).
Proof.
  intros Hsz Hc Hw Hp. destruct (access_progress bg S c t) as [? ?]; [by apply lockfree_inv|done|].
  split_and!; [lia|lia|done|]. intros a c' E Hne. destruct (exec_frame _ _ _ _ _ E) as [p ->]. by rewrite arr_insert_ne.
Qed.

(** ** A race

    Thread 1 dispatches site 5 while it is installed: it reads the entry's id before
    the install writes it and again after, passes the entry and finds nothing; its
    next call gets the routine, and the one after hits the cache. *)

Definition demo_sites : gset CallSiteID := {[5; 4101]}.

Definition raced : list action :=
  [Call 1 (Get 5); Next 1; Next 1;
   Call 0 (Install 5 4096); Next 0; Next 0; Next 0; Next 0;
   Next 1; Next 1; Next 1; Next 1; Next 1;
   Next 0; Next 0].

Definition dispatched : list action :=
  raced ++ [Call 1 (Get 5); Next 1; Next 1; Next 1; Next 1; Next 1; Call 1 (Get 5); Next 1].

Lemma exec_all_reachable bg S l c c' : exec_all bg S l c = Some c' -> rtc (step bg S) c c'.
Proof.
  revert c. induction l as [|a l IH]; intros c E; simpl in E; [injection E as ->; apply rtc_refl|].
  destruct (exec bg S a c) as [c1|] eqn:Ea; [|done]. eapply rtc_l; [by exists a|by apply IH].
Qed.

Example raced_misses : (λ c, (pc_of c 1, gen c, id_at (table c) 5)) <$> exec_all 0 demo_sites (take 12 raced) conf0 =
  Some (Return (mkCall (Get 5) 1 0) 0, 1, 5).
Proof. vm_compute. reflexivity. Qed.

Lemma lockfree_dispatch_witness :
  ∃ c, exec_all 0 demo_sites dispatched conf0 = Some c ∧
    pc_of c 1 = Return (mkCall (Get 5) 2 1) 4096 ∧ held_since c 1 5 4096.
Proof.
  destruct (exec_all 0 demo_sites dispatched conf0) as [c|] eqn:E; [|by vm_compute in E].
  assert (F : (λ c, (pc_of c 1, length (bumped c))) <$> exec_all 0 demo_sites dispatched conf0 =
    Some (Return (mkCall (Get 5) 2 1) 4096, 1%nat)) by (vm_compute; reflexivity).
  rewrite E in F. injection F as Fp Fb. exists c. split_and!; [done|exact Fp|].
  destruct (lockfree_dispatch 0 demo_sites c) as [_ Hd].
  - vm_compute. lia.
  - by eapply exec_all_reachable.
  - unfold unwrapped. rewrite Fb. done.
  - by apply (proj2 (Hd 1) (mkCall (Get 5) 2 1) 5 4096).
Defined.

Lemma calls_wait_free_witness :
  ∃ c, exec_all 0 demo_sites [Call 1 (Get 5)] conf0 = Some c ∧ pc_of c 1 = ReadGen 5 ∧
    ∃ c', access 1 c = Some c' ∧ remaining (pc_of c' 1) < remaining (pc_of c 1).
Proof.
  destruct (exec_all 0 demo_sites [Call 1 (Get 5)] conf0) as [c|] eqn:E; [|by vm_compute in E].
  assert (F : (λ c, (pc_of c 1, length (bumped c))) <$> exec_all 0 demo_sites [Call 1 (Get 5)] conf0 =
    Some (ReadGen 5, 0%nat)) by (vm_compute; reflexivity).
  rewrite E in F. injection F as Fp Fb. exists c. split_and!; [done|exact Fp|].
  destruct (calls_wait_free 0 demo_sites c 1) as (_ & Hd & _).
  - vm_compute. lia.
  - by eapply exec_all_reachable.
  - unfold unwrapped. rewrite Fb. done.
  - by rewrite Fp.
  - exact Hd.
Defined.
