(* ===== verification/Ring.v ===== *)
(** * The trace ring buffers ([src/src/trace/trace.h], [trace.cpp])

    One single-producer single-consumer ring per thread: the allocating thread
    pushes, the background thread pops.  [push] and [pop] are the functions;
    [step] interleaves their atomic accesses, one per constructor, and
    [ring_fifo] is the queue they implement under every interleaving
    (sequentially consistent accesses). *)

From S2P Require Import Prelude Common.

Definition CAPACITY : Z := 1024.

Record RingBuffer := mkRing {
  slots : gmap Z AllocEvent;
  head : Z;
  tail : Z;
}.

Definition ring0 : RingBuffer := mkRing ∅ 0 0.

Definition slot_of (i : Z) : Z := Z.land i (CAPACITY - 1).

(** [push]: the flag says that the buffer was seen empty. *)
Definition push (ev : AllocEvent) (rb : RingBuffer) : bool * RingBuffer :=
  let h := head rb in
  let t := tail rb in
  let was_empty := h =? t in
  if u64 (h - t) >=? CAPACITY then (false, rb)
  else (was_empty, mkRing (<[slot_of h := ev]> (slots rb)) (u64 (h + 1)) t).

Definition pop (rb : RingBuffer) : option AllocEvent * RingBuffer :=
  let t := tail rb in
  let h := head rb in
  if t =? h then (None, rb)
  else (Some (arr event_zero (slots rb) (slot_of t)), mkRing (slots rb) h (u64 (t + 1))).

(** [record_alloc] and [record_free] build the events; the time stamp and the
    thread number are the machine's. *)
Definition alloc_event (cid size p tsc tid : Z) : AllocEvent :=
  mkAllocEvent cid (u32 size) tsc tid p.
Definition free_event (cid p tsc tid : Z) : AllocEvent :=
  mkAllocEvent cid 0 tsc tid p.

(** ** Interleaving *)

Inductive producer :=
  | PIdle
  | PHead (ev : AllocEvent) (h : Z)
  | PTail (ev : AllocEvent) (h t : Z)
  | PWritten (ev : AllocEvent) (h : Z) (was_empty : bool).

Inductive consumer :=
  | CIdle
  | CTail (t : Z)
  | CHead (t h : Z)
  | CRead (t : Z) (out : AllocEvent).

(** The shared ring, the two program counters, what the last call of each side
    returned, and two histories: the events committed and delivered so far. *)
Record conf := mkConf {
  ring : RingBuffer;
  prod : producer;
  cons_ : consumer;
  push_ret : option bool;
  pop_ret : option bool;
  pushed : list AllocEvent;
  popped : list AllocEvent;
}.

Definition conf0 : conf := mkConf ring0 PIdle CIdle None None [] [].

Inductive step : conf -> conf -> Prop :=
  | P_load_head ev rb c pr cr xs ys :
      step (mkConf rb PIdle c pr cr xs ys) (mkConf rb (PHead ev (head rb)) c pr cr xs ys)
  | P_load_tail ev h rb c pr cr xs ys :
      step (mkConf rb (PHead ev h) c pr cr xs ys)
           (mkConf rb (PTail ev h (tail rb)) c pr cr xs ys)
  | P_overflow ev h t rb c pr cr xs ys :
      CAPACITY <= u64 (h - t) ->
      step (mkConf rb (PTail ev h t) c pr cr xs ys)
           (mkConf rb PIdle c (Some false) cr xs ys)
  | P_write ev h t rb c pr cr xs ys :
      u64 (h - t) < CAPACITY ->
      step (mkConf rb (PTail ev h t) c pr cr xs ys)
           (mkConf (mkRing (<[slot_of h := ev]> (slots rb)) (head rb) (tail rb))
                   (PWritten ev h (h =? t)) c pr cr xs ys)
  | P_store_head ev h we rb c pr cr xs ys :
      step (mkConf rb (PWritten ev h we) c pr cr xs ys)
           (mkConf (mkRing (slots rb) (u64 (h + 1)) (tail rb)) PIdle c (Some we) cr (xs ++ [ev]) ys)
  | C_load_tail rb p pr cr xs ys :
      step (mkConf rb p CIdle pr cr xs ys) (mkConf rb p (CTail (tail rb)) pr cr xs ys)
  | C_load_head t rb p pr cr xs ys :
      step (mkConf rb p (CTail t) pr cr xs ys) (mkConf rb p (CHead t (head rb)) pr cr xs ys)
  | C_empty t h rb p pr cr xs ys :
      t = h ->
      step (mkConf rb p (CHead t h) pr cr xs ys) (mkConf rb p CIdle pr (Some false) xs ys)
  | C_read t h rb p pr cr xs ys :
      t ≠ h ->
      step (mkConf rb p (CHead t h) pr cr xs ys)
           (mkConf rb p (CRead t (arr event_zero (slots rb) (slot_of t))) pr cr xs ys)
  | C_store_tail t out rb p pr cr xs ys :
      step (mkConf rb p (CRead t out) pr cr xs ys)
           (mkConf (mkRing (slots rb) (head rb) (u64 (t + 1))) p CIdle pr (Some true) xs (ys ++ [out])).

Abbreviation reachable c := (rtc step conf0 c).

(** ** Index arithmetic: the counters run modulo [2^64], the slots modulo 1024 *)

Definition count (l : list AllocEvent) : Z := Z.of_nat (length l).

Lemma count_app l k : count (l ++ k) = count l + count k.
Proof. unfold count. rewrite length_app. lia. Qed.

Lemma count_nonneg l : 0 <= count l.
Proof. unfold count. lia. Qed.

Lemma slot_of_mod i : slot_of i = i mod 1024.
Proof. apply (land_mask i 10). lia. Qed.

Lemma u64_mod_1024 n : u64 n mod 1024 = n mod 1024.
Proof.
  unfold u64, wrap. change (2 ^ 64) with (1024 * 2 ^ 54).
  rewrite Z.rem_mul_r by lia. by rewrite Z.mul_comm, Z_mod_plus_full, Zmod_mod.
Qed.

Lemma slot_of_u64 n : slot_of (u64 n) = n mod 1024.
Proof. by rewrite slot_of_mod, u64_mod_1024. Qed.

Lemma slot_inj a b : a mod 1024 = b mod 1024 -> Z.abs (a - b) < 1024 -> a = b.
Proof.
  intros E Hd. pose proof (Z.div_mod a 1024). pose proof (Z.div_mod b 1024). lia.
Qed.

Lemma u64_diff a b : 0 <= a - b < 2 ^ 64 -> u64 (u64 a - u64 b) = a - b.
Proof.
  intros H. unfold u64. rewrite wrap_sub_l, wrap_sub_r. by apply wrap_small.
Qed.

Lemma u64_eq a b : 0 <= a - b < 2 ^ 64 -> u64 a = u64 b -> a = b.
Proof.
  intros H E. pose proof (u64_diff a b H) as D. rewrite E, Z.sub_diag in D.
  change (u64 0) with 0 in D. lia.
Qed.

Lemma u64_succ n : u64 (u64 n + 1) = u64 (n + 1).
Proof. apply wrap_add_l. Qed.

(** ** The invariant *)

(** The [i]-th pending event sits in its slot. *)
Definition slots_hold (m : gmap Z AllocEvent) (from : Z) (q : list AllocEvent) : Prop :=
  ∀ i ev, q !! i = Some ev -> arr event_zero m ((from + Z.of_nat i) mod 1024) = ev.

Definition prod_ok (c : conf) (q : list AllocEvent) : Prop :=
  match prod c with
  | PIdle => True
  | PHead ev h => h = head (ring c)
  | PTail ev h t => h = head (ring c) ∧ ∃ n, t = u64 n ∧ n <= count (popped c) ∧
                    n <= count (pushed c) <= n + 1024
  | PWritten ev h we => h = head (ring c) ∧ count q < 1024 ∧
                        arr event_zero (slots (ring c)) (count (pushed c) mod 1024) = ev
  end.

Definition cons_ok (c : conf) (q : list AllocEvent) : Prop :=
  match cons_ c with
  | CIdle => True
  | CTail t => t = tail (ring c)
  | CHead t h => t = tail (ring c) ∧ ∃ n, h = u64 n ∧ count (popped c) <= n <= count (pushed c)
  | CRead t out => t = tail (ring c) ∧ ∃ q', q = out :: q'
  end.

(** The events in the ring are exactly those committed and not delivered. *)
Definition holds (c : conf) (q : list AllocEvent) : Prop :=
  pushed c = popped c ++ q ∧ count q <= 1024 ∧
  head (ring c) = u64 (count (pushed c)) ∧ tail (ring c) = u64 (count (popped c)) ∧
  slots_hold (slots (ring c)) (count (popped c)) q.

Definition inv (c : conf) : Prop := ∃ q, holds c q ∧ prod_ok c q ∧ cons_ok c q.

Lemma slots_hold_write m from q ev :
  slots_hold m from q -> count q < 1024 ->
  slots_hold (<[(from + count q) mod 1024 := ev]> m) from q.
Proof.
  intros H Hq i e Hi. assert (Hlt : (i < length q)%nat) by (by eapply lookup_lt_Some).
  unfold count in *. rewrite arr_insert_ne; [by apply H|].
  intros E%slot_inj; lia.
Qed.

Lemma slots_hold_snoc m from q ev :
  slots_hold m from q -> arr event_zero m ((from + count q) mod 1024) = ev ->
  slots_hold m from (q ++ [ev]).
Proof.
  intros H He i e [Hi|[Hi E]]%lookup_app_Some; [by apply H|].
  apply list_lookup_singleton_Some in E as [E <-].
  replace (Z.of_nat i) with (count q) by (unfold count; lia). done.
Qed.

Lemma slots_hold_tail m from ev q :
  slots_hold m from (ev :: q) -> slots_hold m (from + 1) q.
Proof.
  intros H i e Hi. replace (from + 1 + Z.of_nat i) with (from + Z.of_nat (S i)) by lia.
  by apply H.
Qed.

Lemma inv0 : inv conf0.
Proof. exists []. by split_and!. Qed.

(** ** Every access preserves it *)

Lemma inv_step c c' : inv c -> step c c' -> inv c'.
Proof.
  intros (q & (Ep & Hq & Hh & Ht & Hs) & Hp & Hc) Hst.
  assert (Hn : count (pushed c) = count (popped c) + count q) by (rewrite Ep; apply count_app).
  pose proof (count_nonneg q) as Hq0. pose proof (count_nonneg (popped c)) as Hy0.
  destruct Hst; unfold inv, holds, prod_ok, cons_ok in *; simpl in *.
  - by exists q.
  - exists q. arith. exists (count ys). arith.
  - by exists q.
  - (* the producer writes beyond the pending events *)
    destruct Hp as (-> & n & -> & Hn0 & Hn1).
    assert (Hlt : count q < 1024).
    { rewrite Hh, u64_diff in H by lia. unfold CAPACITY in H. lia. }
    assert (Eslot : slot_of (head rb) = count xs mod 1024) by (by rewrite Hh, slot_of_u64).
    exists q. rewrite Eslot. arith; [rewrite Hn; by apply slots_hold_write|].
    by rewrite arr_insert_eq.
  - (* the event becomes visible *)
    destruct Hp as (-> & Hlt & He). exists (q ++ [ev]).
    assert (Hx : count (xs ++ [ev]) = count xs + 1) by apply count_app.
    rewrite Hx, Hh, u64_succ. arith.
    + rewrite Ep. by rewrite app_assoc.
    + rewrite count_app. change (count [ev]) with 1. lia.
    + apply slots_hold_snoc; [done|]. by rewrite <- Hn.
    + destruct c; simpl in *; try done.
      * destruct Hc as (-> & n & -> & Hb). split; [done|]. exists n. arith.
      * destruct Hc as (-> & q' & ->). split; [done|]. by eexists.
  - exists q. by split_and!.
  - exists q. subst t. arith. exists (count xs). arith.
  - by exists q.
  - (* the consumer reads the oldest pending event *)
    destruct Hc as (-> & n & -> & Hb).
    destruct q as [|e q].
    { exfalso. change (count []) with 0 in Hn. apply H. rewrite Ht. f_equal. lia. }
    exists (e :: q). arith. exists q. f_equal.
    rewrite Ht, slot_of_u64. symmetry. pose proof (Hs 0%nat e eq_refl) as E.
    by rewrite Z.add_0_r in E.
  - (* and then releases its slot *)
    destruct Hc as (-> & q' & ->). exists q'.
    assert (Hy : count (ys ++ [out]) = count ys + 1) by apply count_app.
    assert (Hq' : count (out :: q') = count q' + 1) by (unfold count; simpl; lia).
    rewrite Hy, Ht, u64_succ. arith.
    + rewrite Ep. by rewrite <- app_assoc.
    + by eapply slots_hold_tail.
    + destruct p; simpl in *; try done.
      * destruct Hp as (-> & n & -> & Hb). split; [done|]. exists n. arith.
      * destruct Hp as (-> & Hlt & He). arith.
Qed.

Lemma inv_reachable c : reachable c -> inv c.
Proof. apply reachable_invariant; [exact inv0 | exact inv_step]. Qed.

(** C28: under every interleaving of the two threads the ring is a FIFO queue:
    what was delivered is a prefix of what was committed, at most [CAPACITY]
    events are pending, and the pending ones sit intact in their slots (no slot
    is overwritten before it is read). *)
Theorem ring_fifo c :
  reachable c ->
  ∃ q, pushed c = popped c ++ q ∧ count q <= CAPACITY ∧
       ∀ i ev, q !! i = Some ev ->
         arr event_zero (slots (ring c)) (slot_of (tail (ring c) + Z.of_nat i)) = ev.
Proof.
  intros (q & (Ep & Hq & _ & Ht & Hs) & _)%inv_reachable.
  exists q. split; [exact Ep|]. split; [exact Hq|]. intros i ev Hi.
  rewrite <- (Hs i ev Hi), Ht, slot_of_mod.
  by rewrite <- Zplus_mod_idemp_l, u64_mod_1024, Zplus_mod_idemp_l.
Qed.

(** The functions are the interleaving's uninterrupted runs. *)
Lemma push_run ev rb pr cr xs ys :
  rtc step (mkConf rb PIdle CIdle pr cr xs ys)
    (mkConf (push ev rb).2 PIdle CIdle (Some (push ev rb).1) cr
       (if u64 (head rb - tail rb) >=? CAPACITY then xs else xs ++ [ev]) ys).
Proof.
  unfold push. rewrite Z.geb_leb.
  eapply rtc_l; [apply (P_load_head ev)|]. eapply rtc_l; [apply P_load_tail|].
  destruct (Z.leb_spec CAPACITY (u64 (head rb - tail rb))).
  - by apply rtc_once, P_overflow.
  - eapply rtc_l; [by apply P_write|]. simpl. apply rtc_once, (P_store_head _ _ _ (mkRing _ _ _)).
Qed.

Lemma pop_run rb pr cr xs ys :
  rtc step (mkConf rb PIdle CIdle pr cr xs ys)
    (mkConf (pop rb).2 PIdle CIdle pr (Some (bool_decide (is_Some (pop rb).1))) xs
       (ys ++ option_list (pop rb).1)).
Proof.
  unfold pop.
  eapply rtc_l; [apply C_load_tail|]. eapply rtc_l; [apply C_load_head|].
  destruct (Z.eqb_spec (tail rb) (head rb)); simpl.
  - rewrite app_nil_r. by apply rtc_once, C_empty.
  - eapply rtc_l; [by apply C_read|]. simpl. apply rtc_once, (C_store_tail _ _ rb).
Qed.

(** [bounded_queue]: on an idle ring the two functions are the operations of a
    queue of capacity [CAPACITY] that drops on overflow. *)
Definition queue_push (ev : AllocEvent) (q : list AllocEvent) : bool * list AllocEvent :=
  if CAPACITY <=? count q then (false, q)
  else (match q with [] => true | _ => false end, q ++ [ev]).

Definition queue_pop (q : list AllocEvent) : option AllocEvent * list AllocEvent :=
  match q with [] => (None, []) | ev :: q => (Some ev, q) end.

(** [rb] holds the queue [q], after [n] deliveries. *)
Definition queue_of (rb : RingBuffer) (n : Z) (q : list AllocEvent) : Prop :=
  count q <= CAPACITY ∧ head rb = u64 (n + count q) ∧ tail rb = u64 n ∧ slots_hold (slots rb) n q.

Lemma queue_of_diff rb n q : queue_of rb n q -> u64 (head rb - tail rb) = count q.
Proof.
  intros (Hq & Hh & Ht & Hs). pose proof (count_nonneg q). unfold CAPACITY in *.
  rewrite Hh, Ht, u64_diff by lia. lia.
Qed.

Lemma queue_of_empty rb n q :
  queue_of rb n q -> (head rb =? tail rb) = match q with [] => true | _ => false end.
Proof.
  intros H. pose proof (queue_of_diff rb n q H) as Hd. destruct H as (Hq & Hh & Ht & _). destruct q as [|e q].
  - apply Z.eqb_eq. rewrite Hh, Ht. f_equal. unfold count; simpl. lia.
  - apply Z.eqb_neq. intros E. rewrite E, Z.sub_diag in Hd. discriminate Hd.
Qed.

Lemma pop_refines rb n q :
  queue_of rb n q ->
  (pop rb).1 = (queue_pop q).1 ∧
  queue_of (pop rb).2 (n + if q is [] then 0 else 1) (queue_pop q).2.
Proof.
  intros H. pose proof (queue_of_empty rb n q H) as He. destruct H as (Hq & Hh & Ht & Hs).
  unfold pop. rewrite (Z.eqb_sym (tail rb)), He. destruct q as [|e q]; simpl.
  - split; [done|]. rewrite Z.add_0_r. by split_and!.
  - pose proof (Hs 0%nat e eq_refl) as E0. rewrite Z.add_0_r in E0.
    split; [by rewrite Ht, slot_of_u64, E0|].
    assert (count (e :: q) = count q + 1) as Hc by (unfold count; simpl; lia).
    unfold queue_of, CAPACITY in *; simpl. rewrite Hh, Ht, u64_succ. arith.
    + f_equal. lia.
    + by eapply slots_hold_tail.
Qed.

Lemma push_refines rb n q ev :
  queue_of rb n q ->
  (push ev rb).1 = (queue_push ev q).1 ∧ queue_of (push ev rb).2 n (queue_push ev q).2.
Proof.
  intros H. pose proof (queue_of_diff rb n q H) as Hd. pose proof (queue_of_empty rb n q H) as He.
  destruct H as (Hq & Hh & Ht & Hs). pose proof (count_nonneg q).
  unfold push, queue_push, CAPACITY in *. rewrite Hd, He, Z.geb_leb.
  destruct (Z.leb_spec 1024 (count q)) as [Hfull|Hroom]; simpl; [by split_and!|].
  split; [done|]. unfold queue_of, CAPACITY; simpl.
  rewrite count_app, Hh, u64_succ, slot_of_u64. change (count [ev]) with 1. arith.
  - f_equal. lia.
  - apply slots_hold_snoc; [by apply slots_hold_write|]. by rewrite arr_insert_eq.
Qed.

(** Sequentially, [push] and [pop] refine a bounded FIFO queue, across the
    wrap-around of the 64-bit counters; in particular [push] returns true
    exactly on an empty queue and drops the event exactly on a full one. *)
Theorem ring_refines_queue rb n q ev :
  queue_of rb n q ->
  (push ev rb).1 = (queue_push ev q).1 ∧ queue_of (push ev rb).2 n (queue_push ev q).2 ∧
  (pop rb).1 = (queue_pop q).1 ∧
  queue_of (pop rb).2 (n + if q is [] then 0 else 1) (queue_pop q).2.
Proof.
  intros H. destruct (push_refines rb n q ev H), (pop_refines rb n q H). by split_and!.
Qed.

Definition ev_a : AllocEvent := mkAllocEvent 7 64 0 0 4096.
Definition ev_b : AllocEvent := mkAllocEvent 7 64 0 0 8192.

(** The counters are about to wrap and one slot is left. *)
Definition ring_near_wrap : RingBuffer :=
  mkRing (<[1022 := ev_a]> (<[1023 := ev_b]> ∅)) 0 (2 ^ 64 - 2).

Lemma near_wrap_queue : queue_of ring_near_wrap (2 ^ 64 - 2) [ev_a; ev_b].
Proof.
  split_and!; [by vm_compute..|]. intros [|[|i]] ev; simpl; intros ?; simplify_eq; by vm_compute.
Qed.

Lemma ring0_queue : queue_of ring0 0 [].
Proof. by split_and!. Qed.

Lemma ring_refines_queue_witness :
  queue_of ring_near_wrap (2 ^ 64 - 2) [ev_a; ev_b] ∧
  (push ev_a ring_near_wrap).1 = false ∧ (pop ring_near_wrap).1 = Some ev_a.
Proof.
  pose proof near_wrap_queue as H. split; [exact H|].
  destruct (ring_refines_queue _ _ _ ev_a H) as (H1 & _ & H2 & _). split; [exact H1|exact H2].
Defined.

Lemma ring_fifo_witness :
  reachable (mkConf (push ev_a ring0).2 PIdle CIdle (Some true) None [ev_a] []) ∧
  ∃ q, [ev_a] = [] ++ q ∧ count q <= CAPACITY.
Proof.
  assert (H : reachable (mkConf (push ev_a ring0).2 PIdle CIdle (Some true) None [ev_a] [])).
  { exact (push_run ev_a ring0 None None [] []). }
  split; [exact H|]. destruct (ring_fifo _ H) as (q & E & Hq & _). by exists q.
Defined.

(** The flag can miss the empty to non-empty transition.  There is an
    interleaving in which the consumer's last [pop] found the ring empty, the
    producer's last [push] returned false, and one event is pending: neither
    side wakes the other. *)
Theorem push_flag_misses_transition :
  ∃ c, reachable c ∧ prod c = PIdle ∧ cons_ c = CIdle ∧
       push_ret c = Some false ∧ pop_ret c = Some false ∧
       pushed c = popped c ++ [ev_b].
Proof.
  eexists. split.
  { etrans; [exact (push_run ev_a ring0 None None [] [])|].
    (* the second push reads the counters while [ev_a] is pending *)
    eapply rtc_l; [apply (P_load_head ev_b)|]. eapply rtc_l; [apply P_load_tail|].
    (* the consumer drains the ring and then finds it empty *)
    eapply rtc_l; [apply C_load_tail|]. eapply rtc_l; [apply C_load_head|].
    eapply rtc_l; [apply C_read; by vm_compute|]. eapply rtc_l; [apply C_store_tail|].
    eapply rtc_l; [apply C_load_tail|]. eapply rtc_l; [apply C_load_head|].
    eapply rtc_l; [apply C_empty; by vm_compute|].
    (* the second push completes *)
    eapply rtc_l; [apply P_write; by vm_compute|]. simpl. apply rtc_once, (P_store_head _ _ _ (mkRing _ _ _)). }
  by split_and!.
Qed.
