(* ===== verification/Treiber.v ===== *)
(** * Compare-and-swap lists

    The program shares three linked lists whose head is updated by a
    [compare_exchange_weak] loop: a segment's queue of remotely freed chunks
    ([mpsc_push] and [mpsc_harvest] of [src/src/seg/segment.cpp]), the rings of
    all threads ([get_ring] of [src/src/trace/trace.cpp]) and the registered
    threads ([register_thread] of [src/src/deopt/deopt.cpp]).  One model, at the
    granularity of single accesses, is behind the three: [client_step] are the
    pushers and the users of nodes they hold, [owner_step] the single consumer that
    takes the whole list by an exchange.  The other files use the operations as
    atomic ones; this file is why they may. *)

From S2P Require Import Prelude Common.

(** ** State *)

(** A pusher inside its loop: the link of [node] is still to be stored, or the
    exchange of [cur] for [node] is to be attempted. *)
Inductive pusher :=
  | Loaded (node cur : ptr)
  | Linked (node cur : ptr).

Definition node_of (p : pusher) : ptr := match p with Loaded x _ | Linked x _ => x end.

(** The shared head, the link words, the threads inside a push, the part of the
    last harvest the owner still has, the nodes that are somebody's private
    property; and two histories: the nodes pushed, in the order of the successful
    exchanges, and the nodes the owner took off its harvests. *)
Record conf := mkConf {
  list_head : ptr;
  links : gmap ptr ptr;
  pushers : gmap Z pusher;
  harvested : ptr;
  held : gset ptr;
  pushed : list ptr;
  taken : list ptr;
}.

Definition conf0 (nodes : gset ptr) (m : gmap ptr ptr) : conf := mkConf 0 m ∅ 0 nodes [] [].

(** The loop of [mpsc_push], [get_ring] and [register_thread], and what the holder
    of a node writes into it. *)
Inductive client_step : conf -> conf -> Prop :=
  | P_load t x c :
      x ∈ held c -> pushers c !! t = None ->
      client_step c (mkConf (list_head c) (links c) (<[t := Loaded x (list_head c)]> (pushers c))
        (harvested c) (held c ∖ {[x]}) (pushed c) (taken c))
  | P_link t x cur c :
      pushers c !! t = Some (Loaded x cur) ->
      client_step c (mkConf (list_head c) (<[x := cur]> (links c)) (<[t := Linked x cur]> (pushers c))
        (harvested c) (held c) (pushed c) (taken c))
  | P_exchanged t x c :
      pushers c !! t = Some (Linked x (list_head c)) ->
      client_step c (mkConf x (links c) (delete t (pushers c))
        (harvested c) (held c) (pushed c ++ [x]) (taken c))
  | P_failed t x cur c :
      (* the head has changed, or the weak exchange failed spuriously *)
      pushers c !! t = Some (Linked x cur) ->
      client_step c (mkConf (list_head c) (links c) (<[t := Loaded x (list_head c)]> (pushers c))
        (harvested c) (held c) (pushed c) (taken c))
  | C_write x v c :
      x ∈ held c ->
      client_step c (mkConf (list_head c) (<[x := v]> (links c)) (pushers c)
        (harvested c) (held c) (pushed c) (taken c)).

(** [mpsc_harvest], and the owner taking the nodes of its harvest one by one. *)
Inductive owner_step : conf -> conf -> Prop :=
  | O_harvest c :
      harvested c = 0 ->
      owner_step c (mkConf 0 (links c) (pushers c) (list_head c) (held c) (pushed c) (taken c))
  | O_take c :
      harvested c ≠ 0 ->
      owner_step c (mkConf (list_head c) (links c) (pushers c) (arr 0 (links c) (harvested c))
        ({[harvested c]} ∪ held c) (pushed c) (taken c ++ [harvested c])).

Definition step (c c' : conf) : Prop := client_step c c' ∨ owner_step c c'.

(** ** The invariant *)

(** [bs] are the batches harvested so far, oldest first, each in the order of its
    pushes; [own] the rest of the last one; [stk] the shared list. *)
Record inv_with (c : conf) (bs : list (list ptr)) (own stk : list ptr) : Prop := mkInv {
  i_pushed : pushed c = concat bs ++ reverse stk;
  i_taken : taken c ++ own = concat (reverse <$> bs);
  i_list : chain (links c) (list_head c) stk;
  i_own : chain (links c) (harvested c) own;
  i_nodup : NoDup (stk ++ own);
  i_held x : x ∈ held c -> x ≠ 0 ∧ x ∉ stk ++ own;
  i_hand t p : pushers c !! t = Some p ->
    node_of p ≠ 0 ∧ node_of p ∉ stk ++ own ∧ node_of p ∉ held c;
  i_hands t t' p p' : pushers c !! t = Some p -> pushers c !! t' = Some p' ->
    node_of p = node_of p' -> t = t';
  i_linked t x cur : pushers c !! t = Some (Linked x cur) -> arr 0 (links c) x = cur;
}.

Definition inv (c : conf) : Prop := ∃ bs own stk, inv_with c bs own stk.

Lemma list_inv0 nodes m : 0 ∉ nodes -> inv (conf0 nodes m).
Proof.
  intros H0. exists [], [], []. split; simpl; try done; [constructor|].
  intros x Hx. split; [by intros ->|apply not_elem_of_nil].
Qed.

(** Replacing the pusher of a thread by one in hand of the same node. *)
Lemma pushers_update (P : Z -> pusher -> Prop) t p (m : gmap Z pusher) :
  P t p -> (∀ t' p', t' ≠ t -> m !! t' = Some p' -> P t' p') ->
  ∀ t' p', <[t := p]> m !! t' = Some p' -> P t' p'.
Proof.
  intros Hp Hm t' p' [[-> ->]|[? H]]%lookup_insert_Some; [done|]. by apply Hm.
Qed.

Lemma hands_update c bs own stk t p0 p :
  inv_with c bs own stk -> pushers c !! t = Some p0 -> node_of p = node_of p0 ->
  ∀ t1 t2 p1 p2, <[t := p]> (pushers c) !! t1 = Some p1 -> <[t := p]> (pushers c) !! t2 = Some p2 ->
    node_of p1 = node_of p2 -> t1 = t2.
Proof.
  intros I Hp E t1 t2 p1 p2.
  intros [[<- <-]|[? H1]]%lookup_insert_Some [[<- <-]|[? H2]]%lookup_insert_Some Heq; [done|..].
  - eapply (i_hands _ _ _ _ I); [exact Hp|exact H2|congruence].
  - eapply (i_hands _ _ _ _ I); [exact H1|exact Hp|congruence].
  - by eapply (i_hands _ _ _ _ I).
Qed.

(** Writing a word of a node that is in neither list. *)
Lemma inv_write c bs own stk x v :
  inv_with c bs own stk -> x ∉ stk ++ own ->
  chain (<[x := v]> (links c)) (list_head c) stk ∧ chain (<[x := v]> (links c)) (harvested c) own.
Proof.
  intros I Hx. split; (apply chain_write; [set_solver|]); [apply (i_list _ _ _ _ I)|apply (i_own _ _ _ _ I)].
Qed.

Lemma list_inv_client c bs own stk c' :
  inv_with c bs own stk -> client_step c c' ->
  ∃ new, inv_with c' bs own (new ++ stk) ∧ (∀ x, x ∈ stk ++ own -> arr 0 (links c') x = arr 0 (links c) x).
Proof.
  intros I Hs. pose proof I as [Ip It Il Io In Ih Ihd Ihs Ilk].
  destruct Hs as [t x c Hx Ht|t x cur c Ht|t x c Ht|t x cur c Ht|x v c Hx].
  - (* a node leaves its holder *)
    exists []. split; [|done]. destruct (Ih x Hx) as [Hx0 Hxl]. split; simpl; try done.
    + intros y Hy. apply Ih. set_solver.
    + apply pushers_update; [by split_and!; simpl; [..|set_solver]|].
      intros t' p' _ Hp. destruct (Ihd _ _ Hp) as (? & ? & ?). split_and!; [done..|set_solver].
    + intros t1 t2 p1 p2.
      intros [[<- <-]|[? H1]]%lookup_insert_Some [[<- <-]|[? H2]]%lookup_insert_Some; simpl; intros E; [done|..].
      * destruct (Ihd _ _ H2) as (_ & _ & []). by rewrite <- E.
      * destruct (Ihd _ _ H1) as (_ & _ & []). by rewrite E.
      * by eapply Ihs.
    + intros t' y cur [[_ ?]|[_ H]]%lookup_insert_Some; [done|]. by eapply Ilk.
  - (* its link is stored *)
    destruct (Ihd _ _ Ht) as (Hx0 & Hxl & Hxh). simpl in *. exists [].
    destruct (inv_write _ _ _ _ x cur I Hxl) as [Hl Ho]. split.
    2:{ intros y Hy. simpl. apply arr_insert_ne. intros ->. done. }
    split; simpl; try done.
    + apply pushers_update; [done|]. intros t' p' _. apply Ihd.
    + by eapply hands_update.
    + intros t' y cur' [[<- [= <- <-]]|[Hne H]]%lookup_insert_Some; [apply arr_insert_eq|].
      rewrite arr_insert_ne; [by eapply Ilk|]. intros ->. apply Hne. by eapply Ihs.
  - (* the exchange *)
    destruct (Ihd _ _ Ht) as (Hx0 & Hxl & Hxh). simpl in *. exists [x]. split; [|done].
    pose proof (Ilk _ _ _ Ht) as Hlx. split; simpl; try done.
    + by rewrite Ip, reverse_cons, app_assoc.
    + by rewrite Hlx.
    + by constructor.
    + intros y Hy. destruct (Ih y Hy). split; [done|]. rewrite not_elem_of_cons. split; [|done]. by intros ->.
    + intros t' p' [Hne Hp]%lookup_delete_Some. destruct (Ihd _ _ Hp) as (? & ? & ?).
      split_and!; [done| |done]. rewrite not_elem_of_cons. split; [|done].
      intros E. apply Hne. by eapply Ihs.
    + intros t1 t2 p1 p2 [_ H1]%lookup_delete_Some [_ H2]%lookup_delete_Some. by eapply Ihs.
    + intros t' y cur [_ H]%lookup_delete_Some. by eapply Ilk.
  - (* the exchange fails *)
    exists []. split; [|done]. split; simpl; try done.
    + apply pushers_update; [by apply (Ihd _ _ Ht)|]. intros t' p' _. apply Ihd.
    + by eapply hands_update.
    + intros t' y cur' [[_ ?]|[_ H]]%lookup_insert_Some; [done|]. by eapply Ilk.
  - (* a holder writes its node *)
    destruct (Ih x Hx) as [Hx0 Hxl]. exists [].
    destruct (inv_write _ _ _ _ x v I Hxl) as [Hl Ho]. split.
    2:{ intros y Hy. simpl. apply arr_insert_ne. intros ->. done. }
    split; simpl; try done.
    intros t' y cur' H. rewrite arr_insert_ne; [by eapply Ilk|]. intros ->.
    by destruct (Ihd _ _ H) as (_ & _ & []).
Qed.

Lemma inv_owner c bs own stk c' :
  inv_with c bs own stk -> owner_step c c' -> inv c'.
Proof.
  intros I Hs. destruct I as [Ip It Il Io In Ih Ihd Ihs Ilk]. destruct Hs as [c Hh|c Hh].
  - (* the whole list becomes the owner's *)
    rewrite Hh in Io. apply chain_nil in Io as ->. rewrite app_nil_r in *.
    exists (bs ++ [reverse stk]), stk, []. split; simpl; rewrite ?app_nil_r; try done.
    + by rewrite concat_app; simpl; rewrite app_nil_r.
    + rewrite fmap_app, concat_app. simpl. by rewrite It, reverse_involutive, app_nil_r.
  - (* it takes the first node of its harvest *)
    destruct own as [|x own]; [by simpl in Io|]. destruct Io as (E & Hx & Ho). rewrite E in *.
    exists bs, own, stk. rewrite <- Permutation_middle in In.
    apply NoDup_cons in In as [Hxn In].
    split; simpl; try done.
    + by rewrite <- app_assoc.
    + intros y [->%elem_of_singleton|Hy]%elem_of_union; [done|]. destruct (Ih y Hy). set_solver.
    + intros t p Hp. destruct (Ihd _ _ Hp) as (? & ? & ?). split_and!; [done|set_solver|].
      rewrite not_elem_of_union, not_elem_of_singleton. set_solver.
Qed.

Lemma list_inv_step c c' : inv c -> step c c' -> inv c'.
Proof.
  intros (bs & own & stk & I) [Hc|Ho]; [|by eapply inv_owner].
  destruct (list_inv_client _ _ _ _ _ I Hc) as (new & I' & _). by exists bs, own, (new ++ stk).
Qed.

Lemma list_inv_reachable nodes m c : 0 ∉ nodes -> rtc step (conf0 nodes m) c -> inv c.
Proof. intros H0. apply reachable_invariant; [by apply list_inv0|exact list_inv_step]. Qed.

(** ** What the consumers rely on *)

(** C9: a queue of remotely freed chunks loses and invents nothing.  Whatever the
    interleaving of the pushers' loads, stores and exchanges (failed and spuriously
    failed ones included, and chunks pushed again after they were taken) with the
    owner's harvests: the chunks pushed are those of the harvested batches and of
    the list behind the head; what the owner took, followed by the chain it holds,
    is the batches, each in the reverse order of its pushes; the two chains are
    well linked, disjoint and without repetition. *)
Theorem harvest_exact (nodes : gset ptr) (m : gmap ptr ptr) (c : conf) :
  0 ∉ nodes -> rtc step (conf0 nodes m) c ->
  ∃ bs own stk,
    pushed c = concat bs ++ reverse stk ∧ taken c ++ own = concat (reverse <$> bs) ∧
    chain (links c) (list_head c) stk ∧ chain (links c) (harvested c) own ∧ NoDup (stk ++ own).
Proof.
  intros H0 Hr. destruct (list_inv_reachable _ _ _ H0 Hr) as (bs & own & stk & []). by exists bs, own, stk.
Qed.

(** A list that is only pushed to, the rings' and the threads': the links of the
    nodes in it never change, so a walk from a head read earlier still visits the
    nodes pushed before that read, in the same order. *)
Lemma grow_walk c c' bs own pre stk h :
  inv_with c bs own (pre ++ stk) -> chain (links c) h stk -> rtc client_step c c' ->
  ∃ new, inv_with c' bs own (new ++ pre ++ stk) ∧ chain (links c') h stk.
Proof.
  intros I Hl Hr. revert pre I Hl. induction Hr as [c|c c1 c' Hs Hr IH]; intros pre I Hl; [by exists []|].
  destruct (list_inv_client _ _ _ _ _ I Hs) as (new & I1 & Hw).
  destruct (IH (new ++ pre)) as (n' & I' & ?).
  - by rewrite <- app_assoc.
  - eapply chain_ext; [|exact Hl]. intros x Hx. apply Hw. set_solver.
  - exists (n' ++ new). split; [|done]. by rewrite <- !app_assoc in *.
Qed.

(** The walk of [drain_all] and of the reclaim pass: from the head read in a state
    [c] it visits the nodes pushed before, newest first, whatever is pushed while it
    walks; and all of them are still there at the end, behind the newer ones. *)
Lemma walk_exact nodes m c c' :
  0 ∉ nodes -> rtc client_step (conf0 nodes m) c -> rtc client_step c c' ->
  chain (links c') (list_head c) (reverse (pushed c)) ∧
  ∃ newer, chain (links c') (list_head c') (newer ++ reverse (pushed c)) ∧
           pushed c' = pushed c ++ reverse newer ∧ NoDup (newer ++ reverse (pushed c)).
Proof.
  intros H0 H1 H2.
  assert (I0 : inv_with (conf0 nodes m) [] [] []).
  { split; simpl; try done; [constructor|]. intros x Hx. split; [by intros ->|apply not_elem_of_nil]. }
  destruct (grow_walk _ _ _ _ [] [] 0 I0 eq_refl H1) as (stk & I1 & _).
  rewrite !app_nil_r in I1. pose proof (i_pushed _ _ _ _ I1) as Ep. simpl in Ep.
  destruct (grow_walk _ _ _ _ [] stk (list_head c) I1 (i_list _ _ _ _ I1) H2) as (newer & I2 & Hw).
  rewrite Ep, reverse_involutive. split; [exact Hw|]. exists newer. split_and!.
  - exact (i_list _ _ _ _ I2).
  - pose proof (i_pushed _ _ _ _ I2) as Ep'. simpl in Ep'. by rewrite Ep', reverse_app.
  - pose proof (i_nodup _ _ _ _ I2) as Hn. by rewrite app_nil_r in Hn.
Qed.

(** Undisturbed, a push is the atomic operation the other files take it for. *)
Lemma push_alone t x c :
  x ∈ held c -> pushers c !! t = None ->
  rtc client_step c (mkConf x (<[x := list_head c]> (links c)) (pushers c)
    (harvested c) (held c ∖ {[x]}) (pushed c ++ [x]) (taken c)).
Proof.
  intros Hx Ht. eapply rtc_l; [by apply (P_load t x)|].
  eapply rtc_l; [eapply (P_link t x (list_head c)); apply lookup_insert_eq|].
  eapply rtc_l; [eapply (P_exchanged t x); apply lookup_insert_eq|].
  simpl. rewrite insert_insert_eq, delete_insert_id by done. apply rtc_refl.
Qed.

(** The ABA scenario: thread 1 reads the head 16 and links its chunk 32 to it; the
    owner takes 16, which is freed again over 48; thread 1's exchange succeeds. *)
Definition aba : conf :=
  mkConf 32 (<[16 := 48]> (<[48 := 0]> (<[32 := 16]> (<[16 := 0]> ∅)))) ∅ 0 ∅ [16; 48; 16; 32] [16].

(** Facts about concrete states. *)
Ltac computed :=
  lazymatch goal with
  | |- _ ∈ _ => apply (bool_decide_unpack _); vm_compute; exact I
  | |- _ = _ => vm_compute; reflexivity
  | |- _ ≠ _ => vm_compute; discriminate
  end.

Ltac shown :=
  cbn [conf0 list_head links pushers harvested held pushed taken app].

Lemma aba_reachable : rtc step (conf0 {[16; 32; 48]} ∅) aba.
Proof.
  assert (Hc : ∀ c c', rtc client_step c c' -> rtc step c c').
  { intros c c'. apply rtc_subrel. by left. }
  etrans; [apply Hc, (push_alone 2 16); computed|shown].
  eapply rtc_l; [left; apply (P_load 1 32); computed|shown].
  eapply rtc_l; [left; apply (P_link 1 32 16); computed|shown].
  eapply rtc_l; [right; apply O_harvest; computed|shown].
  eapply rtc_l; [right; apply O_take; computed|shown].
  etrans; [apply Hc, (push_alone 2 48); computed|shown].
  etrans; [apply Hc, (push_alone 2 16); computed|shown].
  eapply rtc_l; [left; apply (P_exchanged 1 32); computed|shown].
  apply reflexive_eq. vm_compute. reflexivity.
Qed.

Lemma harvest_exact_witness :
  ∃ bs own stk, pushed aba = concat bs ++ reverse stk ∧ taken aba ++ own = concat (reverse <$> bs) ∧
    chain (links aba) (list_head aba) stk ∧ stk ≠ [].
Proof.
  destruct (harvest_exact {[16; 32; 48]} ∅ aba) as (bs & own & stk & Hp & Ht & Hl & _);
    [set_solver|exact aba_reachable|].
  exists bs, own, stk. split_and!; [done..|]. intros ->. by simpl in Hl.
Defined.
