(* ===== verification/Recorder.v ===== *)
(** * The recording side of the trace ([src/src/trace/trace.cpp])

    [record_alloc] and [record_free] give the calling thread a number and a ring
    at its first event, push the event and say whether the background thread is
    to be woken; the rings come from the internal arena ([Alloc]), are never
    given back, and are linked newest first in a list that the background thread
    walks.  The first part composes the arena, the thread-local variables, the
    list and the rings ([Ring]) and shows that they implement one bounded queue
    per thread, for as many threads as the arena has room for.  The second part
    interleaves the accesses of [get_ring] in several threads: the lock-free
    insertion in the list is right, the arena below it is not made for it. *)

From S2P Require Import Prelude Common Alloc Ring.

(** [sizeof(RingBuffer)]: 1024 events of 32 bytes and three words. *)
Definition SIZEOF_RING : Z := Ring.CAPACITY * 32 + 3 * 8.
Definition ALIGNOF_RING : Z := 8.

(** [sizeof(Entry) * TABLE_SIZE], what [dispatch::init] takes first. *)
Definition TABLE_BYTES : Z := 16 * 4096.

(** ** The state and the operations *)

(** A thread is an integer; a ring is its address, 0 is [nullptr]. *)
Record recorder := mkRec {
  arena : Alloc.Arena;
  tl_ring : gmap Z Z;
  tl_id : gmap Z Z;
  counter : Z;
  g_ring_head : Z;
  next : gmap Z Z;
  rings : gmap Z Ring.RingBuffer;
}.

Definition set_ring (p : Z) (rb : Ring.RingBuffer) (st : recorder) : recorder :=
  mkRec (arena st) (tl_ring st) (tl_id st) (counter st) (g_ring_head st) (next st)
        (<[p := rb]> (rings st)).

(** The process start: [trace::init], then the table of [dispatch::init]. *)
Definition init (mem : option Z) : res recorder :=
  g ← Alloc.init mem Alloc.g_arena0;
  '(_, g) ← Alloc.alloc TABLE_BYTES 8 g;
  mret (mkRec g ∅ ∅ 0 0 ∅ ∅).

(** [alloc::alloc] with the assertion compiled out, as in a build with
    [NDEBUG], and as it is written. *)
Definition arena_alloc (ndebug : bool) (size align : Z) (g : Alloc.Arena) : res (Z * Alloc.Arena) :=
  if ndebug then
    let aligned := Alloc.align_up (Alloc.cursor g) align in
    Ok (aligned, Alloc.mkArena (Alloc.base g) (u64 (aligned + size)) (Alloc.end_ g))
  else Alloc.alloc size align g.

(** A [thread_local] initialised by the first call of the thread. *)
Definition next_thread_id (t : Z) (st : recorder) : Z * recorder :=
  match tl_id st !! t with
  | Some id => (id, st)
  | None =>
      (counter st,
       mkRec (arena st) (tl_ring st) (<[t := counter st]> (tl_id st)) (u32 (counter st + 1))
             (g_ring_head st) (next st) (rings st))
  end.

Section Build.
Variable ndebug : bool.

(** Without contention the exchange succeeds at once. *)
Definition get_ring (t : Z) (st : recorder) : res (Z * recorder) :=
  if negb (arr 0 (tl_ring st) t =? 0) then Ok (arr 0 (tl_ring st) t, st)
  else
    '(p, g) ← arena_alloc ndebug SIZEOF_RING ALIGNOF_RING (arena st);
    mret (p, mkRec g (<[t := p]> (tl_ring st)) (tl_id st) (counter st) p
                   (<[p := g_ring_head st]> (next st)) (<[p := Ring.ring0]> (rings st))).

(** The flag is whether [notify_if_sleeping] is called. *)
Definition record (t : Z) (ev : Z -> AllocEvent) (st : recorder) : res (bool * recorder) :=
  let '(tid, st) := next_thread_id t st in
  '(p, st) ← get_ring t st;
  let '(wake, rb) := Ring.push (ev tid) (arr Ring.ring0 (rings st) p) in
  mret (wake, set_ring p rb st).

Definition record_alloc (t cid size p tsc : Z) : recorder -> res (bool * recorder) :=
  record t (Ring.alloc_event cid size p tsc).

Definition record_free (t cid p tsc : Z) : recorder -> res (bool * recorder) :=
  record t (Ring.free_event cid p tsc).

(** The background thread: [while (rb->pop(ev))] on one ring, which nobody
    refills meanwhile, and the walk from [ring_head()] along [next]. *)
Fixpoint pop_all (n : nat) (rb : Ring.RingBuffer) : res (list AllocEvent * Ring.RingBuffer) :=
  match n with
  | O => Trap OutOfFuel
  | S n =>
      match Ring.pop rb with
      | (None, rb) => Ok ([], rb)
      | (Some ev, rb) => '(evs, rb) ← pop_all n rb; mret (ev :: evs, rb)
      end
  end.

Fixpoint drain_from (n : nat) (p : Z) (st : recorder) : res (list AllocEvent * recorder) :=
  match n with
  | O => Trap OutOfFuel
  | S n =>
      if p =? 0 then Ok ([], st)
      else
        '(evs, rb) ← pop_all (S (Z.to_nat Ring.CAPACITY)) (arr Ring.ring0 (rings st) p);
        let st := set_ring p rb st in
        '(evs', st) ← drain_from n (arr 0 (next st) p) st;
        mret (evs ++ evs', st)
  end.

(** The arena has no room for more rings than this. *)
Definition MAX_RINGS : nat := Z.to_nat ((Alloc.ARENA_SIZE - TABLE_BYTES) / SIZEOF_RING).

Definition drain (st : recorder) : res (list AllocEvent * recorder) :=
  drain_from (S MAX_RINGS) (g_ring_head st) st.

Inductive op :=
  | RecordAlloc (t cid size p tsc : Z)
  | RecordFree (t cid p tsc : Z)
  | Drain.

Inductive out :=
  | Recorded (wake : bool)
  | Drained (evs : list AllocEvent).

Definition do_op (o : op) (st : recorder) : res (out * recorder) :=
  match o with
  | RecordAlloc t cid size p tsc => '(b, st) ← record_alloc t cid size p tsc st; mret (Recorded b, st)
  | RecordFree t cid p tsc => '(b, st) ← record_free t cid p tsc st; mret (Recorded b, st)
  | Drain => '(evs, st) ← drain st; mret (Drained evs, st)
  end.

Fixpoint run (l : list op) (st : recorder) : res (list out * recorder) :=
  match l with
  | [] => Ok ([], st)
  | o :: l => '(x, st) ← do_op o st; '(xs, st) ← run l st; mret (x :: xs, st)
  end.
End Build.

(** ** What it promises: one bounded queue per thread *)

(** The threads in the order of their first event, each with its pending
    events; the position is the thread's number. *)
Abbreviation spec := (list (Z * list AllocEvent)).

Definition index (t : Z) (s : spec) : option nat := fst <$> list_find (λ e, e.1 = t) s.

Definition spec_record (t : Z) (ev : Z -> AllocEvent) (s : spec) : option (bool * spec) :=
  match index t s with
  | Some i =>
      q ← snd <$> s !! i;
      let '(wake, q) := Ring.queue_push (ev (Z.of_nat i)) q in
      Some (wake, <[i := (t, q)]> s)
  | None =>
      if bool_decide (length s < MAX_RINGS)%nat
      then Some (true, s ++ [(t, [ev (Z.of_nat (length s))])])
      else None
  end.

Definition spec_op (o : op) (s : spec) : option (out * spec) :=
  match o with
  | RecordAlloc t cid size p tsc =>
      '(b, s) ← spec_record t (Ring.alloc_event cid size p tsc) s; Some (Recorded b, s)
  | RecordFree t cid p tsc =>
      '(b, s) ← spec_record t (Ring.free_event cid p tsc) s; Some (Recorded b, s)
  | Drain => Some (Drained (concat (reverse s.*2)), (λ e, (e.1, [])) <$> s)
  end.

Fixpoint spec_run (l : list op) (s : spec) : option (list out * spec) :=
  match l with
  | [] => Some ([], s)
  | o :: l => '(x, s) ← spec_op o s; '(xs, s) ← spec_run l s; Some (x :: xs, s)
  end.

(** ** The representation *)

Section Rep.
Variable start : Z.

Definition ring_at (i : nat) : Z := start + SIZEOF_RING * Z.of_nat i.
Definition ring_addrs (n : nat) : list Z := ring_at <$> seq 0 n.

Record rep (s : spec) (st : recorder) : Prop := mkRep {
  r_arena : Alloc.wf (arena st);
  r_start : Alloc.base (arena st) + TABLE_BYTES = start ∧ start mod ALIGNOF_RING = 0;
  r_cursor : Alloc.cursor (arena st) = ring_at (length s);
  r_nodup : NoDup s.*1;
  r_counter : counter st = Z.of_nat (length s);
  r_known i e : s !! i = Some e ->
    tl_id st !! e.1 = Some (Z.of_nat i) ∧ arr 0 (tl_ring st) e.1 = ring_at i ∧
    ∃ n, Ring.queue_of (arr Ring.ring0 (rings st) (ring_at i)) n e.2;
  r_new t : t ∉ s.*1 -> tl_id st !! t = None ∧ arr 0 (tl_ring st) t = 0;
  r_list : chain (next st) (g_ring_head st) (reverse (ring_addrs (length s)));
}.

Lemma ring_at_inj i j : ring_at i = ring_at j -> i = j.
Proof. unfold ring_at, SIZEOF_RING, Ring.CAPACITY. lia. Qed.

Lemma elem_ring_addrs p n : p ∈ ring_addrs n <-> ∃ i, (i < n)%nat ∧ p = ring_at i.
Proof.
  unfold ring_addrs. rewrite list_elem_of_fmap. setoid_rewrite elem_of_seq.
  split; intros (i & H1 & H2); exists i; split; auto; lia.
Qed.

Lemma ring_addrs_S n : ring_addrs (S n) = ring_addrs n ++ [ring_at n].
Proof. unfold ring_addrs. by rewrite seq_S, fmap_app. Qed.

Lemma ring_addrs_fresh n : ring_at n ∉ reverse (ring_addrs n).
Proof. rewrite elem_of_reverse, elem_ring_addrs. intros (i & ? & ?%ring_at_inj). lia. Qed.

Lemma rep_start s st : rep s st -> 0 < start.
Proof.
  intros R. destruct (r_arena _ _ R) as (Hb & _), (r_start _ _ R) as [? _].
  unfold TABLE_BYTES in *. lia.
Qed.

Lemma ring_at_pos s st i : rep s st -> 0 < ring_at i.
Proof. intros R%rep_start. unfold ring_at, SIZEOF_RING, Ring.CAPACITY. lia. Qed.

Lemma cursor_aligned s st :
  rep s st -> Alloc.align_up (Alloc.cursor (arena st)) ALIGNOF_RING = Alloc.cursor (arena st).
Proof.
  intros R. destruct (r_arena _ _ R) as (Hb & Hc & He & Hlim), (r_start _ _ R) as [Hs Hm].
  unfold ALIGNOF_RING in *.
  destruct (Alloc.align_up_spec (Alloc.cursor (arena st)) 3) as [Ham Hab]; [lia..|].
  change (2 ^ 3) with 8 in *. rewrite (r_cursor _ _ R) in *.
  assert (Hal : ring_at (length s) mod 8 = 0).
  { unfold ring_at, SIZEOF_RING, Ring.CAPACITY in *.
    rewrite Z.add_mod, Hm by lia. rewrite <- Z.mul_mod_idemp_l by lia. done. }
  pose proof (Z.div_mod (ring_at (length s)) 8).
  pose proof (Z.div_mod (Alloc.align_up (ring_at (length s)) 8) 8). lia.
Qed.

(** The arena refuses exactly the ring that [MAX_RINGS] does not count. *)
Lemma ring_alloc s st :
  rep s st ->
  if bool_decide (length s < MAX_RINGS)%nat then
    ∃ g, Alloc.alloc SIZEOF_RING ALIGNOF_RING (arena st) = Ok (ring_at (length s), g) ∧
         Alloc.wf g ∧ Alloc.base g = Alloc.base (arena st) ∧
         Alloc.cursor g = ring_at (S (length s))
  else Alloc.alloc SIZEOF_RING ALIGNOF_RING (arena st) = Trap AssertFailed.
Proof.
  intros R.
  pose proof (Alloc.alloc_spec SIZEOF_RING 3 _ (r_arena _ _ R) ltac:(lia) ltac:(done)) as HA. change (2 ^ 3) with ALIGNOF_RING in HA.
  destruct (r_arena _ _ R) as (Hb & Hc & He & Hlim), (r_start _ _ R) as [Hs Hm].
  pose proof (cursor_aligned _ _ R) as Eal. rewrite (r_cursor _ _ R) in *.
  assert (EM : MAX_RINGS = 125%nat) by done. rewrite EM.
  unfold Alloc.ARENA_SIZE, TABLE_BYTES, ring_at, SIZEOF_RING, Ring.CAPACITY in *.
  case_bool_decide as Hlt; destruct (Alloc.alloc _ _ _) as [[p g]|t] eqn:E.
  - destruct HA as (Hpa & Hp & Hn & Hg & Hbg).
    assert (p = Alloc.align_up (Alloc.cursor (arena st)) ALIGNOF_RING) as ->.
    { unfold Alloc.alloc in E. by case_match; simplify_eq. }
    rewrite (r_cursor _ _ R) in *. unfold ring_at, SIZEOF_RING, Ring.CAPACITY in *.
    rewrite Eal in *. exists g. split_and!; try done; lia.
  - destruct HA as [_ HA]. lia.
  - destruct HA as (Hpa & Hp & Hn & (? & ? & ? & ?) & Hbg). 
    unfold Alloc.ARENA_SIZE in *. lia.
  - by destruct HA as [-> _].
Qed.

(** A ring's queue changes. *)
Lemma rep_set s st i t q q' rb n :
  rep s st -> s !! i = Some (t, q) -> Ring.queue_of rb n q' ->
  rep (<[i := (t, q')]> s) (set_ring (ring_at i) rb st).
Proof.
  intros R Hi Hq. assert (Hlt : (i < length s)%nat) by by eapply lookup_lt_Some.
  assert (E1 : (<[i := (t, q')]> s).*1 = s.*1).
  { rewrite list_fmap_insert. apply list_insert_id. by rewrite list_lookup_fmap, Hi. }
  destruct R. split; simpl; rewrite ?length_insert, ?E1; try done.
  intros j e. destruct (decide (j = i)) as [-> | Hj].
  - rewrite list_lookup_insert_eq by done. intros [= <-].
    destruct (r_known0 _ _ Hi) as (? & ? & _). rewrite arr_insert_eq. split_and!; eauto.
  - rewrite list_lookup_insert_ne by done. intros H. destruct (r_known0 _ _ H) as (? & ? & ?).
    rewrite arr_insert_ne by (by intros ?%ring_at_inj). auto.
Qed.

(** A thread joins: the next number, the next ring, the head of the list. *)
Lemma rep_join s st t g :
  rep s st -> t ∉ s.*1 -> Alloc.wf g -> Alloc.base g = Alloc.base (arena st) ->
  Alloc.cursor g = ring_at (S (length s)) -> Z.of_nat (S (length s)) < 2 ^ 32 ->
  rep (s ++ [(t, [])])
      (mkRec g (<[t := ring_at (length s)]> (tl_ring st)) (<[t := counter st]> (tl_id st))
             (u32 (counter st + 1)) (ring_at (length s))
             (<[ring_at (length s) := g_ring_head st]> (next st))
             (<[ring_at (length s) := Ring.ring0]> (rings st))).
Proof.
  intros R Ht Hg Hb Hc Hlen. pose proof (ring_at_pos s st (length s) R) as Hpos.
  destruct R. split; simpl; rewrite ?length_app, ?fmap_app; simpl; try done.
  - by rewrite Hb.
  - rewrite Hc. f_equal. lia.
  - apply NoDup_app. split_and!; [done | | apply NoDup_singleton].
    intros x Hx ->%list_elem_of_singleton. done.
  - rewrite r_counter0, u32_small; lia.
  - intros i e [Hi | [Hi He]]%lookup_app_Some.
    + destruct (r_known0 _ _ Hi) as (? & ? & ?).
      assert (t ≠ e.1). { intros ->. apply Ht, list_elem_of_fmap. eexists. split; [done|]. by eapply list_elem_of_lookup_2. }
      assert (ring_at (length s) ≠ ring_at i).
      { intros ?%ring_at_inj. apply lookup_lt_Some in Hi. lia. }
      rewrite lookup_insert_ne, !arr_insert_ne by done. auto.
    + apply list_lookup_singleton_Some in He as [E <-]. simpl.
      replace i with (length s) by lia. rewrite lookup_insert_eq, !arr_insert_eq.
      split_and!; [by rewrite r_counter0 | done | exists 0; exact Ring.ring0_queue].
  - intros t' H. rewrite elem_of_app, list_elem_of_singleton in H.
    destruct (r_new0 t') as [H1 H2]; [tauto|].
    rewrite lookup_insert_ne, arr_insert_ne by (intros ->; tauto). done.
  - rewrite Nat.add_1_r, ring_addrs_S, reverse_app.
    apply chain_cons; [lia | apply ring_addrs_fresh | done].
Qed.

Lemma index_Some t s i : index t s = Some i -> ∃ q, s !! i = Some (t, q).
Proof.
  unfold index. intros ([j [t' q]] & E & ->)%fmap_Some.
  apply list_find_Some in E as (E1 & E2 & _). simpl in *. subst. by exists q.
Qed.

Lemma index_None t s : index t s = None -> t ∉ s.*1.
Proof.
  unfold index. rewrite fmap_None, list_find_None, Forall_forall.
  intros H (e & -> & He)%list_elem_of_fmap. by apply (H e).
Qed.

(** One event. *)
Lemma record_refines t ev s st :
  rep s st ->
  match spec_record t ev s with
  | Some (b, s') => ∃ st', record false t ev st = Ok (b, st') ∧ rep s' st'
  | None => record false t ev st = Trap AssertFailed
  end.
Proof.
  intros R. unfold spec_record, record, next_thread_id.
  destruct (index t s) as [i|] eqn:Ei.
  - destruct (index_Some _ _ _ Ei) as (q & Hi). rewrite Hi. simpl.
    destruct (r_known _ _ R _ _ Hi) as (Eid & Er & n & Hq). simpl in Eid, Er, Hq. rewrite Eid.
    pose proof (ring_at_pos s st i R) as Hpos.
    destruct (Ring.push_refines _ _ _ (ev (Z.of_nat i)) Hq) as [E1 E2].
    destruct (Ring.queue_push _ q) as [b q'] eqn:Eq. simpl in E1, E2.
    unfold get_ring. rewrite Er. case_match; zb; [|lia]. simpl.
    destruct (Ring.push _ _) as [b' rb]. simpl in E1, E2. subst b'.
    eexists. split; [done|]. by eapply rep_set.
  - pose proof (index_None _ _ Ei) as Ht. destruct (r_new _ _ R t Ht) as [-> E0].
    pose proof (ring_alloc s st R) as HA. unfold get_ring. simpl. rewrite E0. simpl.
    case_bool_decide as Hlt; [|by rewrite HA].
    destruct HA as (g & -> & Hg & Hb & Hc). simpl. rewrite arr_insert_eq.
    assert (MAX_RINGS = 125%nat) as EM by done.
    destruct (Ring.push_refines _ _ _ (ev (counter st)) Ring.ring0_queue) as [E1 E2].
    change (Ring.queue_push _ []) with (true, [ev (counter st)]) in E1, E2.
    destruct (Ring.push _ _) as [b' rb]. cbn [fst snd] in E1, E2. subst b'.
    eexists. split; [done|]. rewrite <- (r_counter _ _ R).
    pose proof (rep_join s st t g R Ht Hg Hb Hc ltac:(lia)) as R'.
    eapply (rep_set _ _ (length s) t [] _ _ _ R') in E2; [|by apply list_lookup_middle].
    by rewrite insert_app_r_alt, Nat.sub_diag in E2 by lia.
Qed.

(** One ring emptied, whatever it holds. *)
Lemma pop_all_spec n rb k q :
  Ring.queue_of rb k q -> (length q < n)%nat ->
  ∃ rb' k', pop_all n rb = Ok (q, rb') ∧ Ring.queue_of rb' k' [].
Proof.
  revert rb k q. induction n as [|n IH]; intros rb k q Hq Hn; [lia|]. cbn [pop_all].
  destruct (Ring.pop_refines _ _ _ Hq) as [E Hq']. destruct (Ring.pop rb) as [o rb1].
  destruct q as [|ev q]; simpl in E, Hq', Hn; subst o; [by eauto|].
  destruct (IH _ _ _ Hq' ltac:(lia)) as (rb' & k' & -> & H). simpl. eauto.
Qed.

Lemma queue_length rb n q : Ring.queue_of rb n q -> (length q < S (Z.to_nat Ring.CAPACITY))%nat.
Proof. intros (H & _). unfold Ring.count in H. lia. Qed.

(** The first [k] threads have nothing pending any more. *)
Definition emptied (k : nat) (s : spec) : spec :=
  imap (λ i e, if decide (i < k)%nat then (e.1, []) else e) s.

Lemma emptied_lookup k s i : emptied k s !! i = (λ e, if decide (i < k)%nat then (e.1, []) else e) <$> s !! i.
Proof. unfold emptied. by rewrite list_lookup_imap. Qed.

Lemma emptied_0 s : emptied 0 s = s.
Proof.
  apply list_eq. intros i. rewrite emptied_lookup. destruct (s !! i); [|done]. cbn [fmap option_fmap option_map].
  case_decide; [lia|done].
Qed.

Lemma emptied_all s : emptied (length s) s = (λ e, (e.1, [])) <$> s.
Proof.
  apply list_eq. intros i. rewrite emptied_lookup, list_lookup_fmap.
  destruct (s !! i) eqn:E; [|done]. apply lookup_lt_Some in E. cbn [fmap option_fmap option_map]. by case_decide.
Qed.

Lemma emptied_insert k s t q :
  s !! k = Some (t, q) -> emptied k (<[k := (t, [])]> s) = emptied (S k) s.
Proof.
  intros H. apply list_eq. intros i. rewrite !emptied_lookup. destruct (decide (i = k)) as [-> | Hi].
  - rewrite list_lookup_insert_eq, H by (by eapply lookup_lt_Some). cbn [fmap option_fmap option_map].
    by repeat case_decide; try lia.
  - rewrite list_lookup_insert_ne by done. destruct (s !! i); [|done]. cbn [fmap option_fmap option_map].
    by repeat case_decide; try lia.
Qed.

Lemma drain_from_spec k : ∀ s st p n,
  rep s st -> (k <= length s)%nat -> (k < n)%nat ->
  chain (next st) p (reverse (ring_addrs k)) ->
  ∃ st', drain_from n p st = Ok (concat (reverse (take k s.*2)), st') ∧ rep (emptied k s) st'.
Proof.
  induction k as [|k IH]; intros s st p n R Hk Hn Hc; (destruct n as [|n]; [lia|]); cbn [drain_from].
  - simpl in Hc. subst p. exists st. by rewrite emptied_0.
  - rewrite ring_addrs_S, reverse_app in Hc. destruct Hc as (-> & Hp & Hc).
    destruct (lookup_lt_is_Some_2 s k) as [[t q] Hi]; [lia|].
    destruct (r_known _ _ R _ _ Hi) as (_ & _ & m & Hq). simpl in Hq.
    case_match eqn:E; zb; [done|].
    destruct (pop_all_spec _ _ _ _ Hq (queue_length _ _ _ Hq)) as (rb' & k' & -> & Hq').
    cbn [mbind res_bind]. pose proof (rep_set _ _ _ _ _ _ _ _ R Hi Hq') as R1.
    destruct (IH _ _ _ n R1 ltac:(rewrite length_insert; lia) ltac:(lia) Hc) as (st' & E' & R').
    cbn [next set_ring] in E' |- *. rewrite E'. exists st'.
    rewrite (emptied_insert _ _ _ _ Hi) in R'. split; [|done]. cbn [mret res_ret].
    rewrite list_fmap_insert, take_insert_ge by lia.
    by rewrite (take_S_r s.*2 k q), reverse_app by (by rewrite list_lookup_fmap, Hi).
Qed.

Lemma drain_refines s st :
  rep s st -> (length s <= MAX_RINGS)%nat ->
  ∃ st', drain st = Ok (concat (reverse s.*2), st') ∧ rep ((λ e, (e.1, [])) <$> s) st'.
Proof.
  intros R Hm. rewrite <- emptied_all.
  destruct (drain_from_spec (length s) s st (g_ring_head st) (S MAX_RINGS) R) as (st' & E & R');
    [lia | lia | apply (r_list _ _ R) |].
  exists st'. split; [|done]. rewrite take_ge in E by (by rewrite length_fmap). exact E.
Qed.

Lemma spec_op_length o s x s' :
  spec_op o s = Some (x, s') -> (length s <= MAX_RINGS)%nat -> (length s' <= MAX_RINGS)%nat.
Proof.
  assert (H : ∀ t ev b s', spec_record t ev s = Some (b, s') -> (length s <= MAX_RINGS)%nat ->
                           (length s' <= MAX_RINGS)%nat).
  { intros t ev b s1 E Hs. unfold spec_record in E. destruct (index t s) as [i|].
    - destruct (s !! i) as [e|]; [|done]. cbn in E.
      destruct (Ring.queue_push _ _). simplify_eq/=. by rewrite length_insert.
    - case_bool_decide; simplify_eq. rewrite length_app. simpl. lia. }
  destruct o; simpl; intros E Hs.
  1-2: apply bind_Some in E as ([b s1] & E & ?); simplify_eq; eauto.
  simplify_eq. by rewrite length_fmap.
Qed.

Lemma spec_run_length l s : ∀ xs s',
  spec_run l s = Some (xs, s') -> (length s <= MAX_RINGS)%nat -> (length s' <= MAX_RINGS)%nat.
Proof.
  revert s. induction l as [|o l IH]; intros s xs s' E Hs; simpl in E; [by simplify_eq|].
  apply bind_Some in E as ([x s1] & E1 & E). apply bind_Some in E as ([xs1 s2] & E2 & E). simplify_eq.
  eapply IH; [done|]. by eapply spec_op_length.
Qed.

Lemma recorder_op_refines o s st :
  rep s st -> (length s <= MAX_RINGS)%nat ->
  match spec_op o s with
  | Some (x, s') => ∃ st', do_op false o st = Ok (x, st') ∧ rep s' st'
  | None => do_op false o st = Trap AssertFailed
  end.
Proof.
  intros R Hm. destruct o as [t cid size p tsc | t cid p tsc |]; simpl.
  1: pose proof (record_refines t (Ring.alloc_event cid size p tsc) s st R) as H.
  2: pose proof (record_refines t (Ring.free_event cid p tsc) s st R) as H.
  1-2: unfold record_alloc, record_free;
       destruct (spec_record _ _ s) as [[b s']|]; simpl; [|by rewrite H];
       destruct H as (st' & -> & R'); simpl; eauto.
  destruct (drain_refines s st R Hm) as (st' & -> & R'). simpl. eauto.
Qed.

Lemma recorder_run_refines l s st :
  rep s st -> (length s <= MAX_RINGS)%nat ->
  match spec_run l s with
  | Some (xs, s') => ∃ st', run false l st = Ok (xs, st') ∧ rep s' st'
  | None => run false l st = Trap AssertFailed
  end.
Proof.
  revert s st. induction l as [|o l IH]; intros s st R Hm; simpl; [eauto|].
  pose proof (recorder_op_refines o s st R Hm) as H. destruct (spec_op o s) as [[x s1]|] eqn:E; simpl.
  - destruct H as (st1 & -> & R1). simpl. specialize (IH s1 st1 R1 (spec_op_length _ _ _ _ E Hm)).
    destruct (spec_run l s1) as [[xs s']|]; simpl; [|by rewrite IH].
    destruct IH as (st' & -> & R'). simpl. eauto.
  - by rewrite H.
Qed.
End Rep.

Lemma init_rep m :
  0 < m -> m mod 4096 = 0 -> m + Alloc.ARENA_SIZE + 2 ^ 32 < 2 ^ 64 ->
  ∃ st, init (Some m) = Ok st ∧ rep (m + TABLE_BYTES) [] st.
Proof.
  intros Hm Ha Hl. unfold init, Alloc.init. simpl.
  assert (Hwf : Alloc.wf (Alloc.mkArena m m (m + Alloc.ARENA_SIZE))).
  { unfold Alloc.wf, Alloc.ARENA_SIZE in *. simpl. lia. }
  assert (Hm8 : m mod 8 = 0) by (apply Z.mod_divide; [lia|]; apply Z.mod_divide in Ha as [k ->]; [|lia];
    exists (k * 512); lia).
  destruct (Alloc.align_up_spec m 3) as [Ham Hab]; [unfold Alloc.ARENA_SIZE in *; lia..|].
  change (2 ^ 3) with 8 in *.
  assert (Eal : Alloc.align_up m 8 = m) by
    (pose proof (Z.div_mod m 8); pose proof (Z.div_mod (Alloc.align_up m 8) 8); lia).
  unfold Alloc.alloc. cbn [Alloc.cursor Alloc.base Alloc.end_]. rewrite Eal.
  unfold Alloc.ARENA_SIZE, TABLE_BYTES in *. rewrite u64_small by lia.
  destruct (Z.leb_spec (m + 16 * 4096) (m + 4 * 1024 * 1024)); [|lia].
  simpl. eexists. split; [done|]. split; simpl; try done.
  - unfold Alloc.wf, Alloc.ARENA_SIZE in *. simpl in *. lia.
  - split; [done|]. unfold ALIGNOF_RING. rewrite Z.add_mod, Hm8 by lia. done.
  - unfold ring_at. simpl. lia.
  - constructor.
Qed.

(** ** First events at the same time

    The accesses of [get_ring] and of the [alloc] it calls, one per step.  The
    arena's cursor is an ordinary variable; with [serial] the cursor is read and
    written by one thread at a time, which the code does not ensure. *)

Inductive pc :=
  | Start                          (** no ring yet *)
  | Bumping (cur : Z)              (** has read the cursor *)
  | Alloced (p : Z)                (** has written it *)
  | Built (p : Z)                  (** [RingBuffer{}], or a failed exchange *)
  | Loaded (p old_head : Z)
  | Linked (p old_head : Z)        (** [next] is written *)
  | Registered (p : Z).            (** the exchange succeeded *)

Record conf := mkConf {
  c_arena : Alloc.Arena;
  c_head : Z;
  c_next : gmap Z Z;
  c_pcs : gmap Z pc;
}.

Definition at_pc (c : conf) (t : Z) : pc := arr Start (c_pcs c) t.

Section Race.
Variable serial : bool.

Definition bumping (k : pc) : bool := match k with Bumping _ => true | _ => false end.

(** The cursor as an arena of its own, for [Alloc.alloc]. *)
Definition with_cursor (cur : Z) (g : Alloc.Arena) : Alloc.Arena :=
  Alloc.mkArena (Alloc.base g) cur (Alloc.end_ g).

Inductive step : conf -> conf -> Prop :=
  | S_read_cursor t g h nx pcs :
      arr Start pcs t = Start ->
      (serial = true -> ∀ t', bumping (arr Start pcs t') = false) ->
      step (mkConf g h nx pcs) (mkConf g h nx (<[t := Bumping (Alloc.cursor g)]> pcs))
  | S_write_cursor t cur p g g' h nx pcs :
      arr Start pcs t = Bumping cur ->
      Alloc.alloc SIZEOF_RING ALIGNOF_RING (with_cursor cur g) = Ok (p, g') ->
      step (mkConf g h nx pcs) (mkConf g' h nx (<[t := Alloced p]> pcs))
  | S_build t p g h nx pcs :
      arr Start pcs t = Alloced p ->
      step (mkConf g h nx pcs) (mkConf g h (<[p := 0]> nx) (<[t := Built p]> pcs))
  | S_load t p g h nx pcs :
      arr Start pcs t = Built p ->
      step (mkConf g h nx pcs) (mkConf g h nx (<[t := Loaded p h]> pcs))
  | S_link t p old g h nx pcs :
      arr Start pcs t = Loaded p old ->
      step (mkConf g h nx pcs) (mkConf g h (<[p := old]> nx) (<[t := Linked p old]> pcs))
  | S_exchange t p g h nx pcs :
      arr Start pcs t = Linked p h ->
      step (mkConf g h nx pcs) (mkConf g p nx (<[t := Registered p]> pcs))
  (** Another head, or a spurious failure. *)
  | S_retry t p old g h nx pcs :
      arr Start pcs t = Linked p old ->
      step (mkConf g h nx pcs) (mkConf g h nx (<[t := Built p]> pcs)).

(** The ring a thread holds. *)
Definition ring_of (k : pc) : option Z :=
  match k with
  | Start | Bumping _ => None
  | Alloced p | Built p | Loaded p _ | Linked p _ | Registered p => Some p
  end.

Definition rings_apart (p q : Z) : Prop := p + SIZEOF_RING <= q ∨ q + SIZEOF_RING <= p.

(** Every ring lies between the table and the cursor, the rings of two threads
    share no byte, the list is threaded through the registered rings, and a
    thread about to exchange has linked the head it read. *)
Record inv (start : Z) (c : conf) (l : list Z) : Prop := mkInv {
  v_arena : Alloc.wf (c_arena c);
  v_start : 0 < start;
  v_cursor : start <= Alloc.cursor (c_arena c);
  v_bump t cur : at_pc c t = Bumping cur -> cur = Alloc.cursor (c_arena c);
  v_one t t' : bumping (at_pc c t) = true -> bumping (at_pc c t') = true -> t = t';
  v_in t p : ring_of (at_pc c t) = Some p ->
    start <= p ∧ p + SIZEOF_RING <= Alloc.cursor (c_arena c);
  v_apart t t' p p' : t ≠ t' -> ring_of (at_pc c t) = Some p -> ring_of (at_pc c t') = Some p' ->
    rings_apart p p';
  v_list : chain (c_next c) (c_head c) l;
  v_nodup : NoDup l;
  v_reg p : p ∈ l <-> ∃ t, at_pc c t = Registered p;
  v_linked t p old : at_pc c t = Linked p old -> arr 0 (c_next c) p = old;
}.

Lemma pc_insert pcs t k t' :
  arr Start (<[t := k]> pcs) t' = if decide (t' = t) then k else arr Start pcs t'.
Proof. case_decide as H; [by subst; rewrite arr_insert_eq | by rewrite arr_insert_ne by done]. Qed.

Lemma at_pc_insert g h nx pcs t k t' :
  at_pc (mkConf g h nx (<[t := k]> pcs)) t' = if decide (t' = t) then k else arr Start pcs t'.
Proof. apply pc_insert. Qed.

Lemma apart_ne p q : rings_apart p q -> p ≠ q.
Proof. unfold rings_apart, SIZEOF_RING, Ring.CAPACITY. lia. Qed.

(** The ring of a thread on its way is in nobody's list. *)
Lemma own_fresh start c l t p :
  inv start c l -> ring_of (at_pc c t) = Some p -> at_pc c t ≠ Registered p -> p ∉ l.
Proof.
  intros V Hp Hn (t' & H)%(v_reg _ _ _ V). destruct (decide (t = t')) as [-> | Ht]; [done|].
  apply (apart_ne p p); [|done]. apply (v_apart _ _ _ V t t'); [done..|]. by rewrite H.
Qed.

(** A thread on its way writes at most its own link word. *)
Lemma ring_inv_own start l t p k k' g h nx nx' pcs :
  arr Start pcs t = k -> ring_of k = Some p -> ring_of k' = Some p ->
  k ≠ Registered p -> k' ≠ Registered p ->
  (nx' = nx ∨ ∃ v, nx' = <[p := v]> nx) ->
  (∀ old, k' = Linked p old -> arr 0 nx' p = old) ->
  inv start (mkConf g h nx pcs) l -> inv start (mkConf g h nx' (<[t := k']> pcs)) l.
Proof.
  intros Hk Hp Hp' Hn Hn' Hnx Hl V.
  pose proof (own_fresh _ _ _ t p V) as Hfresh. unfold at_pc in Hfresh. simpl in Hfresh.
  rewrite Hk in Hfresh. specialize (Hfresh Hp Hn).
  assert (Hb : bumping k' = false) by by destruct k'.
  assert (Ering : ∀ t', ring_of (at_pc (mkConf g h nx' (<[t := k']> pcs)) t') = ring_of (arr Start pcs t')).
  { intros t'. rewrite at_pc_insert. case_decide; [|done]. by subst; rewrite Hp, Hp'. }
  destruct V; split; try done; simpl in *.
  - intros t' cur. rewrite at_pc_insert. case_decide; [by intros -> | apply v_bump0].
  - intros t1 t2. rewrite !at_pc_insert. repeat case_decide; simpl; [congruence.. | apply v_one0].
  - intros t' q. rewrite Ering. apply v_in0.
  - intros t1 t2 p1 p2. rewrite !Ering. apply v_apart0.
  - destruct Hnx as [-> | [v ->]]; [done|]. by apply chain_write.
  - intros q. rewrite v_reg0. split; intros (t' & H); exists t'; revert H; rewrite at_pc_insert;
      unfold at_pc; simpl; case_decide as E; try done; subst t'.
    + intros H. destruct Hn. rewrite H in Hk. subst k. simpl in Hp. congruence.
    + intros ->. simpl in Hp'. congruence.
  - intros t' q old. rewrite at_pc_insert. case_decide as E.
    + intros ->. simpl in Hp'. simplify_eq. by apply Hl.
    + intros H. specialize (v_linked0 t' q old H). destruct Hnx as [-> | [v ->]]; [done|].
      rewrite arr_insert_ne; [done|]. apply apart_ne, (v_apart0 t t'); unfold at_pc; simpl; [done | |].
      * by rewrite Hk.
      * unfold at_pc in H. simpl in H. by rewrite H.
Qed.

Lemma ring_inv_read start l t g h nx pcs :
  arr Start pcs t = Start -> (∀ t', bumping (arr Start pcs t') = false) ->
  inv start (mkConf g h nx pcs) l ->
  inv start (mkConf g h nx (<[t := Bumping (Alloc.cursor g)]> pcs)) l.
Proof.
  intros Hk Hb V. destruct V; split; try done; unfold at_pc in *; simpl in *.
  - intros t' cur. destruct (decide (t' = t)) as [-> | ].
    + rewrite arr_insert_eq. by intros [= <-].
    + rewrite arr_insert_ne by done. apply v_bump0.
  - intros t1 t2. rewrite (pc_insert pcs t _ t1), (pc_insert pcs t _ t2).
    repeat case_decide; simpl; subst; rewrite ?Hb; done.
  - intros t' p. rewrite (pc_insert pcs t _ t'). case_decide; [done | apply v_in0].
  - intros t1 t2 p1 p2. rewrite (pc_insert pcs t _ t1), (pc_insert pcs t _ t2).
    repeat case_decide; try done. apply v_apart0.
  - intros p. rewrite v_reg0. split; intros (t' & H); exists t'; revert H;
      rewrite (pc_insert pcs t _ t'); case_decide; subst; try done; by rewrite Hk.
  - intros t' p old. rewrite (pc_insert pcs t _ t'). case_decide; [done | apply v_linked0].
Qed.

Lemma ring_inv_write start l t cur p g g' h nx pcs :
  arr Start pcs t = Bumping cur ->
  Alloc.alloc SIZEOF_RING ALIGNOF_RING (with_cursor cur g) = Ok (p, g') ->
  inv start (mkConf g h nx pcs) l -> inv start (mkConf g' h nx (<[t := Alloced p]> pcs)) l.
Proof.
  intros Hk Ha V. pose proof (v_bump _ _ _ V t cur Hk) as ->. simpl in Ha.
  assert (with_cursor (Alloc.cursor g) g = g) as E by by destruct g. rewrite E in Ha.
  pose proof (Alloc.alloc_spec SIZEOF_RING 3 g (v_arena _ _ _ V) ltac:(lia) ltac:(done)) as HA.
  change (2 ^ 3) with ALIGNOF_RING in HA. rewrite Ha in HA.
  destruct HA as (_ & Hp & Hn & Hg & Hb). assert (0 < SIZEOF_RING) by done.
  assert (Hone : ∀ t', bumping (arr Start pcs t') = true -> t' = t).
  { intros t' H'. apply (v_one _ _ _ V); [done|]. unfold at_pc. simpl. by rewrite Hk. }
  destruct V; split; try done; unfold at_pc in *; simpl in *; try lia.
  - intros t' cur'. rewrite (pc_insert pcs t _ t'). case_decide; [done|].
    intros H'. destruct H0. apply Hone. by rewrite H'.
  - intros t1 t2. rewrite (pc_insert pcs t _ t1), (pc_insert pcs t _ t2).
    repeat case_decide; try done. apply v_one0.
  - intros t' q. rewrite (pc_insert pcs t _ t'). case_decide; simpl.
    + intros [= <-]. lia.
    + intros [? ?]%v_in0. lia.
  - intros t1 t2 p1 p2 Hne. rewrite (pc_insert pcs t _ t1), (pc_insert pcs t _ t2).
    repeat case_decide; simpl; subst; try done.
    + intros [= <-] [? ?]%v_in0. right. lia.
    + intros [? ?]%v_in0 [= <-]. left. lia.
    + by apply v_apart0.
  - intros q. rewrite v_reg0. split; intros (t' & H'); exists t'; revert H';
      rewrite (pc_insert pcs t _ t'); case_decide; subst; try done; by rewrite Hk.
  - intros t' q old. rewrite (pc_insert pcs t _ t'). case_decide; [done | apply v_linked0].
Qed.

Lemma ring_inv_exchange start l t p g h nx pcs :
  arr Start pcs t = Linked p h ->
  inv start (mkConf g h nx pcs) l ->
  inv start (mkConf g p nx (<[t := Registered p]> pcs)) (p :: l).
Proof.
  intros Hk V. pose proof (own_fresh _ _ _ t p V) as Hfresh. unfold at_pc in Hfresh. simpl in Hfresh.
  rewrite Hk in Hfresh. specialize (Hfresh eq_refl ltac:(done)).
  assert (Ering : ∀ t', ring_of (at_pc (mkConf g p nx (<[t := Registered p]> pcs)) t')
                        = ring_of (arr Start pcs t')).
  { intros t'. rewrite at_pc_insert. case_decide; [|done]. by subst; rewrite Hk. }
  assert (Hp : start <= p) by (apply (v_in _ _ _ V t); unfold at_pc; simpl; by rewrite Hk).
  destruct V; split; try done; simpl in *.
  - intros t' cur. rewrite at_pc_insert. case_decide; [done | apply v_bump0].
  - intros t1 t2. rewrite !at_pc_insert. repeat case_decide; simpl; [congruence.. | apply v_one0].
  - intros t' q. rewrite Ering. apply v_in0.
  - intros t1 t2 p1 p2. rewrite !Ering. apply v_apart0.
  - split_and!; [done | lia |]. by rewrite (v_linked0 t p h Hk).
  - by constructor.
  - intros q. rewrite elem_of_cons, v_reg0. split.
    + intros [-> | (t' & H)]; [exists t | exists t']; rewrite at_pc_insert; case_decide; try done.
      subst t'. unfold at_pc in H. simpl in H. congruence.
    + intros (t' & H). rewrite at_pc_insert in H. case_decide; [left; congruence | right; by exists t'].
  - intros t' q old. rewrite at_pc_insert. case_decide; [done | apply v_linked0].
Qed.

Lemma ring_inv_step start c c' l :
  serial = true -> inv start c l -> step c c' -> ∃ l', inv start c' l'.
Proof.
  intros Hs V Hst. destruct Hst.
  - exists l. apply ring_inv_read; auto.
  - exists l. by eapply ring_inv_write.
  - exists l. eapply (ring_inv_own _ _ t p (Alloced p) (Built p) g h nx); eauto; done.
  - exists l. eapply (ring_inv_own _ _ t p (Built p) (Loaded p h) g h nx); eauto; done.
  - exists l. eapply (ring_inv_own _ _ t p (Loaded p old) (Linked p old) g h nx); eauto; try done.
    intros ? [= <-]. apply arr_insert_eq.
  - exists (p :: l). by eapply ring_inv_exchange.
  - exists l. eapply (ring_inv_own _ _ t p (Linked p old) (Built p) g h nx); eauto; done.
Qed.
End Race.

(** ** The threads' queues *)

(** C25: from the process start, any sequence of recorded allocations and frees,
    of any threads, and of passes of the background thread behaves as one bounded
    FIFO queue per thread, the [i]-th thread to record anything having number [i],
    and a pass delivering all that is pending, newest thread first.  The 126th
    thread has no room in the arena, whose assertion stops the process, and that
    is the only way to stop it. *)
Theorem recorder_refines_queues m l :
  0 < m -> m mod 4096 = 0 -> m + Alloc.ARENA_SIZE + 2 ^ 32 < 2 ^ 64 ->
  ∃ st0, init (Some m) = Ok st0 ∧
    match spec_run l [] with
    | Some (xs, s) =>
        ∃ st, run false l st0 = Ok (xs, st) ∧ NoDup s.*1 ∧ (length s <= 125)%nat ∧
          (∀ i t q, s !! i = Some (t, q) ->
             tl_id st !! t = Some (Z.of_nat i) ∧
             arr 0 (tl_ring st) t = m + TABLE_BYTES + SIZEOF_RING * Z.of_nat i ∧
             ∃ n, Ring.queue_of (arr Ring.ring0 (rings st) (arr 0 (tl_ring st) t)) n q)
    | None => run false l st0 = Trap AssertFailed
    end.
Proof.
  intros Hm Ha Hl. destruct (init_rep m Hm Ha Hl) as (st0 & E0 & R0).
  exists st0. split; [done|]. assert (Hlen : (length (@nil (Z * list AllocEvent)) <= MAX_RINGS)%nat) by (simpl; lia).
  pose proof (recorder_run_refines _ l [] st0 R0 Hlen) as H. pose proof (spec_run_length l []) as HL.
  destruct (spec_run l []) as [[xs s]|]; [|done]. destruct H as (st & E & R).
  exists st. split_and!; [done | apply (r_nodup _ _ _ R) | exact (HL xs s eq_refl Hlen) |].
  intros i t q Hi. destruct (r_known _ _ _ R i (t, q) Hi) as (H1 & H2 & H3). simpl in *.
  rewrite H2. by split_and!.
Qed.

(** Where the assertion holds, compiling it out changes nothing. *)
Lemma release_alloc size align g x :
  Alloc.alloc size align g = Ok x -> arena_alloc true size align g = Ok x.
Proof. unfold Alloc.alloc, arena_alloc. intros E. by case_match; simplify_eq. Qed.

Lemma release_get_ring t st x : get_ring false t st = Ok x -> get_ring true t st = Ok x.
Proof.
  unfold get_ring. case_match; [done|]. intros E. apply bind_Ok in E as ([p g] & E & E').
  by rewrite (release_alloc _ _ _ _ E).
Qed.

Lemma release_record t ev st x : record false t ev st = Ok x -> record true t ev st = Ok x.
Proof.
  unfold record. destruct (next_thread_id t st) as [tid st1]. intros E.
  apply bind_Ok in E as ([p g] & E & E'). by rewrite (release_get_ring _ _ _ E).
Qed.

Lemma release_op o st x : do_op false o st = Ok x -> do_op true o st = Ok x.
Proof.
  destruct o; simpl; [| |done]; intros E; apply bind_Ok in E as ([b st1] & E & E');
    unfold record_alloc, record_free in *; by rewrite (release_record _ _ _ _ E).
Qed.

Lemma release_run l st x : run false l st = Ok x -> run true l st = Ok x.
Proof.
  revert st x. induction l as [|o l IH]; intros st x E; simpl in *; [done|].
  apply bind_Ok in E as ([y st1] & E1 & E). apply bind_Ok in E as ([ys st2] & E2 & E).
  rewrite (release_op _ _ _ E1). simpl. by rewrite (IH _ _ E2).
Qed.

(** C36: the default build defines [NDEBUG].  Once 125 threads have recorded
    something, the first event of one more gets a ring that starts inside the
    arena's mapping and ends past it; with the assertion the process would have
    stopped. *)
Theorem release_ring_leaves_arena m l xs s t :
  0 < m -> m mod 4096 = 0 -> m + Alloc.ARENA_SIZE + 2 ^ 32 < 2 ^ 64 ->
  spec_run l [] = Some (xs, s) -> length s = 125%nat -> t ∉ s.*1 ->
  ∃ st0 st p st', init (Some m) = Ok st0 ∧ run true l st0 = Ok (xs, st) ∧
    get_ring false t st = Trap AssertFailed ∧ get_ring true t st = Ok (p, st') ∧
    p < m + Alloc.ARENA_SIZE < p + SIZEOF_RING.
Proof.
  intros Hm Ha Hl E Hlen Ht. destruct (init_rep m Hm Ha Hl) as (st0 & E0 & R0).
  pose proof (recorder_run_refines _ l [] st0 R0 ltac:(simpl; lia)) as H. rewrite E in H.
  destruct H as (st & Er & R). destruct (r_new _ _ _ R t Ht) as [_ E1].
  pose proof (ring_alloc _ _ _ R) as HA. rewrite Hlen in HA.
  change (bool_decide _) with false in HA. cbn iota in HA.
  pose proof (r_cursor _ _ _ R) as Hcur. destruct (r_start _ _ _ R) as [Hb _].
  assert (Eal : Alloc.align_up (Alloc.cursor (arena st)) ALIGNOF_RING = Alloc.cursor (arena st)).
  { by eapply cursor_aligned. }
  exists st0, st, (Alloc.cursor (arena st)). eexists. split_and!; [done | by apply release_run | | | |].
  - unfold get_ring. rewrite E1. simpl. by rewrite HA.
  - unfold get_ring. rewrite E1. simpl. by rewrite Eal.
  - rewrite Hcur. unfold ring_at, TABLE_BYTES, SIZEOF_RING, Ring.CAPACITY, Alloc.ARENA_SIZE. lia.
  - rewrite Hcur. unfold ring_at, TABLE_BYTES, SIZEOF_RING, Ring.CAPACITY, Alloc.ARENA_SIZE. lia.
Qed.

(** ** The list of rings *)

(** The arena after [init], no thread with a ring. *)
Definition conf0 (m : Z) : conf :=
  mkConf (Alloc.mkArena m (m + TABLE_BYTES) (m + Alloc.ARENA_SIZE)) 0 ∅ ∅.

Lemma ring_inv0 m :
  0 < m -> m + Alloc.ARENA_SIZE + 2 ^ 32 < 2 ^ 64 -> inv (m + TABLE_BYTES) (conf0 m) [].
Proof.
  intros Hm Hl. unfold conf0, Alloc.ARENA_SIZE, TABLE_BYTES in *.
  split; unfold at_pc; simpl; try done; try lia.
  - unfold Alloc.wf, Alloc.ARENA_SIZE. simpl. lia.
  - constructor.
  - intros p. split; [by intros ?%elem_of_nil | by intros [t ?]].
Qed.

(** A thread alone: [get_ring]'s effect is the uninterrupted run. *)
Lemma register_alone serial t p g g' h nx pcs :
  (∀ t', bumping (arr Start pcs t') = false) -> arr Start pcs t = Start ->
  Alloc.alloc SIZEOF_RING ALIGNOF_RING g = Ok (p, g') ->
  rtc (step serial) (mkConf g h nx pcs)
      (mkConf g' p (<[p := h]> nx) (<[t := Registered p]> pcs)).
Proof.
  intros Hb Hs Ha.
  eapply rtc_l; [by apply (S_read_cursor _ t)|].
  eapply rtc_l; [eapply (S_write_cursor _ t); [apply arr_insert_eq | by destruct g]|].
  eapply rtc_l; [eapply (S_build _ t), arr_insert_eq|].
  eapply rtc_l; [eapply (S_load _ t), arr_insert_eq|].
  eapply rtc_l; [eapply (S_link _ t), arr_insert_eq|].
  eapply rtc_l; [eapply (S_exchange _ t), arr_insert_eq|].
  by rewrite !insert_insert_eq.
Qed.

(** C26: if no two threads are inside [alloc::alloc] at a time, then however their
    first events interleave, the rings of two threads share no byte and the list
    walked from [ring_head()] ends and consists of the registered rings, each
    once: no exchange loses a ring another thread inserted. *)
Theorem registration_keeps_list m c :
  0 < m -> m + Alloc.ARENA_SIZE + 2 ^ 32 < 2 ^ 64 -> rtc (step true) (conf0 m) c ->
  (∃ l, chain (c_next c) (c_head c) l ∧ NoDup l ∧ ∀ p, p ∈ l <-> ∃ t, at_pc c t = Registered p) ∧
  (∀ t t' p p', t ≠ t' -> ring_of (at_pc c t) = Some p -> ring_of (at_pc c t') = Some p' ->
     rings_apart p p').
Proof.
  intros Hm Hl H.
  assert (∃ l, inv (m + TABLE_BYTES) c l) as [l V].
  { eapply (reachable_invariant (step true) (λ c, ∃ l, inv (m + TABLE_BYTES) c l)); [| |exact H].
    - exists []. by apply ring_inv0.
    - intros a b [l V] Hst. by eapply ring_inv_step. }
  split; [exists l; split_and!; apply V | apply (v_apart _ _ _ V)].
Qed.

Lemma chain_self m p : p ≠ 0 -> arr 0 m p = p -> ¬ ∃ l, chain m p l.
Proof.
  intros Hp E [l H]. induction l as [|x l IH]; [done|]. destruct H as (-> & _ & H).
  rewrite E in H. by apply IH.
Qed.

Lemma pop_all_trap n rb t : pop_all n rb = Trap t -> t = OutOfFuel.
Proof.
  revert rb. induction n as [|n IH]; intros rb E; cbn [pop_all] in E; [congruence|].
  destruct (Ring.pop rb) as [[ev|] rb']; [|done].
  destruct (pop_all n rb') as [[evs rb1]|t'] eqn:E'; [done|].
  injection E as <-. by eapply IH.
Qed.

Lemma drain_self n p st :
  arr 0 (next st) p = p -> p ≠ 0 -> drain_from n p st = Trap OutOfFuel.
Proof.
  intros E Hp. revert st E. induction n as [|n IH]; intros st E; [done|]. cbn [drain_from].
  case_match; zb; [done|]. destruct (pop_all _ _) as [[evs rb]|t] eqn:E1; simpl.
  - rewrite E. by rewrite IH.
  - by rewrite (pop_all_trap _ _ _ E1).
Qed.

(** C38: nothing makes it so.  Two threads that read the arena's cursor before
    either has written it get the same ring, which both register and push to; the
    second finds itself at the head of the list and links the ring to itself, so
    that the background thread's walk never ends. *)
Theorem first_events_share_ring :
  ∃ c p, rtc (step false) (conf0 4096) c ∧
    at_pc c 1 = Registered p ∧ at_pc c 2 = Registered p ∧ c_head c = p ∧ arr 0 (c_next c) p = p ∧
    (¬ ∃ l, chain (c_next c) (c_head c) l) ∧
    (∀ n st, next st = c_next c -> drain_from n (c_head c) st = Trap OutOfFuel).
Proof.
  set (p := 4096 + TABLE_BYTES). eexists _, p. split.
  { eapply rtc_l; [by apply (S_read_cursor _ 1)|]. eapply rtc_l; [by apply (S_read_cursor _ 2)|].
    eapply rtc_l; [eapply (S_write_cursor _ 1); [done | by vm_compute]|].
    eapply rtc_l; [eapply (S_write_cursor _ 2); [done | by vm_compute]|].
    eapply rtc_l; [eapply (S_build _ 1); done|]. eapply rtc_l; [eapply (S_load _ 1); done|].
    eapply rtc_l; [eapply (S_link _ 1); done|]. eapply rtc_l; [eapply (S_exchange _ 1); done|].
    eapply rtc_l; [eapply (S_build _ 2); done|]. eapply rtc_l; [eapply (S_load _ 2); done|].
    eapply rtc_l; [eapply (S_link _ 2); done|]. eapply rtc_l; [eapply (S_exchange _ 2); done|].
    reflexivity. }
  split_and!; [done..| |].
  - by apply chain_self.
  - intros n st E. apply drain_self; [by rewrite E | done].
Qed.

(** ** Witnesses *)

Definition demo_ops : list op :=
  [RecordAlloc 10 7 64 4096 1; RecordAlloc 20 7 64 8192 2; RecordFree 20 7 8192 3; Drain; RecordFree 10 7 4096 4].

Lemma recorder_refines_queues_witness :
  ∃ st0, init (Some 4096) = Ok st0 ∧
    match spec_run demo_ops [] with
    | Some (xs, s) => ∃ st, run false demo_ops st0 = Ok (xs, st) ∧ s.*1 = [10; 20] ∧
        xs !! 3%nat = Some (Drained [mkAllocEvent 7 64 2 1 8192; mkAllocEvent 7 0 3 1 8192;
                                     mkAllocEvent 7 64 1 0 4096])
    | None => False
    end.
Proof.
  destruct (recorder_refines_queues 4096 demo_ops) as (st0 & E0 & H); [lia | done | done |].
  exists st0. split; [exact E0|].
  destruct (spec_run demo_ops []) as [[xs s]|] eqn:Es; [|vm_compute in Es; discriminate Es].
  destruct H as (st & E & _). exists st. split; [exact E|].
  vm_compute in Es. injection Es as <- <-. split; reflexivity.
Defined.

(** 125 threads, one allocation each. *)
Definition crowd : list op := (λ t, RecordAlloc t 7 64 4096 t) <$> seqZ 1 125.

Lemma release_ring_leaves_arena_witness :
  ∃ st0 st p st', init (Some 4096) = Ok st0 ∧ get_ring true 126 st = Ok (p, st') ∧
    get_ring false 126 st = Trap AssertFailed ∧
    p < 4096 + Alloc.ARENA_SIZE < p + SIZEOF_RING ∧ ∃ xs, run true crowd st0 = Ok (xs, st).
Proof.
  destruct (spec_run crowd []) as [[xs s]|] eqn:E; [|vm_compute in E; discriminate E].
  assert (El : (λ x, length x.2) <$> spec_run crowd [] = Some 125%nat) by (vm_compute; reflexivity).
  assert (Et : (λ x, bool_decide (126 ∈ x.2.*1)) <$> spec_run crowd [] = Some false)
    by (vm_compute; reflexivity).
  rewrite E in El, Et. injection El as El. injection Et as Et. apply bool_decide_eq_false in Et.
  destruct (release_ring_leaves_arena 4096 crowd xs s 126) as (st0 & st & p & st' & H0 & Hr & Hf & Hg & Hp);
    [lia | done | done | exact E | exact El | exact Et |].
  exists st0, st, p, st'. split_and!; [exact H0 | exact Hg | exact Hf | apply Hp | apply Hp | by exists xs].
Defined.

(** Two threads register one after the other. *)
Lemma registration_keeps_list_witness :
  ∃ c, rtc (step true) (conf0 4096) c ∧ ring_of (at_pc c 1) = Some 69632 ∧
    ring_of (at_pc c 2) = Some 102424 ∧ rings_apart 69632 102424 ∧
    ∃ l, chain (c_next c) (c_head c) l ∧ 69632 ∈ l.
Proof.
  assert (H : ∃ c, rtc (step true) (conf0 4096) c ∧ at_pc c 1 = Registered 69632 ∧
                   at_pc c 2 = Registered 102424).
  { eexists. split.
    - etrans; [apply (register_alone true 1 69632); [done | done | by vm_compute]|].
      apply (register_alone true 2 102424); [| done | by vm_compute].
      intros t'. rewrite pc_insert. by case_decide.
    - split; by vm_compute. }
  destruct H as (c & H & E1 & E2).
  destruct (registration_keeps_list 4096 c ltac:(lia) ltac:(done) H) as [(l & Hl & _ & Hin) Hap].
  exists c. rewrite E1, E2. split_and!; [done..| | exists l; split; [done|]].
  - apply (Hap 1 2); [done | by rewrite E1 | by rewrite E2].
  - apply Hin. by exists 1.
Defined.
