(* ===== verification/Shadow.v ===== *)
(** * The shadow validator ([src/src/shadow/shadow.cpp])

    The debug build records every block the compiled routines hand out in an
    open-addressing table and aborts on a null, misaligned or live block.  Freeing
    removes the entry and puts the rest of its cluster back in place.  The contract
    is a finite map of the live blocks; [shadow_refines] is the refinement. *)

From S2P Require Import Prelude Common.

Definition TABLE_SIZE : Z := 2 ^ 17.

Record Entry := mkEntry { e_ptr : ptr; e_size : Z; alloc_id : CallSiteID; alloc_tid : Z }.
Definition Entry0 : Entry := mkEntry 0 0 0 0.

Abbreviation slot t k := (arr Entry0 t k).
Abbreviation ptr_at t k := (e_ptr (arr Entry0 t k)).

Definition hash_ptr (p : ptr) : Z :=
  let v := Z.lxor p (Z.shiftr p 21) in
  let v := u64 (v * 0xbf58476d1ce4e5b9) in
  let v := Z.lxor v (Z.shiftr v 27) in
  Z.land v (TABLE_SIZE - 1).

Definition next (i : Z) : Z := Z.land (i + 1) (TABLE_SIZE - 1).

(** How the validator ends a call. *)
Inductive verdict :=
  | Accepted
  | NullBlock
  | Misaligned
  | Duplicate (e : Entry)
  | TableFull.

(** The probe loop of both functions: the first slot that is empty or holds [p];
    [n] is [TABLE_SIZE - scanned]. *)
Fixpoint scan (n : nat) (t : gmap Z Entry) (p : ptr) (i : Z) : option Z :=
  match n with
  | O => None
  | S n => if (ptr_at t i =? 0) || (ptr_at t i =? p) then Some i else scan n t p (next i)
  end.

Definition probe (t : gmap Z Entry) (p : ptr) : option Z := scan (Z.to_nat TABLE_SIZE) t p (hash_ptr p).

(** [managed] is [is_managed(of(jit_ptr))]. *)
Definition validate_alloc (managed : bool) (tid : Z) (id : CallSiteID) (size : Z) (jit_ptr : ptr)
    (t : gmap Z Entry) : verdict * gmap Z Entry :=
  if jit_ptr =? 0 then (NullBlock, t)
  else if negb managed then (Accepted, t)
  else if negb (jit_ptr mod 16 =? 0) then (Misaligned, t)
  else
    match probe t jit_ptr with
    | None => (TableFull, t)
    | Some i =>
        if ptr_at t i =? jit_ptr then (Duplicate (slot t i), t)
        else (Accepted, <[i := mkEntry jit_ptr size id tid]> t)
    end.

(** [g_table[k].ptr = nullptr]. *)
Definition clear (k : Z) (t : gmap Z Entry) : gmap Z Entry :=
  let e := slot t k in <[k := mkEntry 0 (e_size e) (alloc_id e) (alloc_tid e)]> t.

Fixpoint free_slot (n : nat) (t : gmap Z Entry) (k : Z) : res Z :=
  match n with
  | O => Trap OutOfFuel
  | S n => if ptr_at t k =? 0 then Ok k else free_slot n t (next k)
  end.

(** The rest of the cluster, from [j] on, is put back entry by entry. *)
Fixpoint repack (n : nat) (t : gmap Z Entry) (j : Z) : res (gmap Z Entry) :=
  match n with
  | O => Trap OutOfFuel
  | S n =>
      if ptr_at t j =? 0 then Ok t
      else
        let e := slot t j in
        let t := clear j t in
        k ← free_slot (Z.to_nat TABLE_SIZE) t (hash_ptr (e_ptr e));
        repack n (<[k := e]> t) (next j)
  end.

Definition validate_free (p : ptr) (t : gmap Z Entry) : res (gmap Z Entry) :=
  if p =? 0 then Ok t
  else
    match probe t p with
    | None => Ok t
    | Some i =>
        if ptr_at t i =? p then repack (Z.to_nat TABLE_SIZE) (clear i t) (next i)
        else Ok t
    end.

(** ** Slots in the order of a probe *)

(** The [q]-th slot after [h]. *)
Definition from (h q : Z) : Z := (h + q) mod TABLE_SIZE.

Lemma TABLE_SIZE_pos : 0 < TABLE_SIZE.
Proof. done. Qed.

Lemma from_range h q : 0 <= from h q < TABLE_SIZE.
Proof. apply Z.mod_pos_bound. done. Qed.

Lemma next_from h q : next (from h q) = from h (q + 1).
Proof.
  unfold next, from, TABLE_SIZE. rewrite land_mask by lia. rewrite Zplus_mod_idemp_l. f_equal. lia.
Qed.

Lemma from_0 h : 0 <= h < TABLE_SIZE -> from h 0 = h.
Proof. intros Hh. unfold from. rewrite Z.add_0_r. by apply Z.mod_small. Qed.

Lemma from_all h : from h TABLE_SIZE = from h 0.
Proof. unfold from. rewrite <- (Z.mul_1_l TABLE_SIZE) at 1. by rewrite Z_mod_plus_full, Z.add_0_r. Qed.

(** Where [k] is, counted from [h]. *)
Definition dist (h k : Z) : Z := (k - h) mod TABLE_SIZE.

Lemma dist_range h k : 0 <= dist h k < TABLE_SIZE.
Proof. apply Z.mod_pos_bound. done. Qed.

Lemma from_dist h k : 0 <= k < TABLE_SIZE -> from h (dist h k) = k.
Proof.
  intros Hk. unfold from, dist. rewrite Zplus_mod_idemp_r.
  replace (h + (k - h)) with k by lia. by apply Z.mod_small.
Qed.

Lemma dist_from h q : 0 <= q < TABLE_SIZE -> dist h (from h q) = q.
Proof.
  intros Hq. unfold from, dist. rewrite Zminus_mod_idemp_l.
  replace (h + q - h) with q by lia. by apply Z.mod_small.
Qed.

Lemma from_inj h q q' : 0 <= q < TABLE_SIZE -> 0 <= q' < TABLE_SIZE -> from h q = from h q' -> q = q'.
Proof. intros Hq Hq' E. by rewrite <- (dist_from h q), E, dist_from. Qed.

Lemma from_from h a j : from (from h a) j = from h (a + j).
Proof. unfold from. rewrite Zplus_mod_idemp_l. f_equal. lia. Qed.

Lemma hash_range p : 0 <= hash_ptr p < TABLE_SIZE.
Proof.
  unfold hash_ptr, TABLE_SIZE. cbv zeta. rewrite land_mask by lia. apply Z.mod_pos_bound. lia.
Qed.

(** ** The representation *)

(** No probe for a stored pointer meets an empty slot before its own. *)
Definition wf (t : gmap Z Entry) : Prop :=
  ∀ k, ptr_at t k ≠ 0 -> 0 <= k < TABLE_SIZE ∧
    ∀ j, 0 <= j < dist (hash_ptr (ptr_at t k)) k -> ptr_at t (from (hash_ptr (ptr_at t k)) j) ≠ 0.

(** The occupied slots hold the entries of [m], each once. *)
Record holds (t : gmap Z Entry) (m : gmap ptr Entry) : Prop := mkHolds {
  h_stored k : ptr_at t k ≠ 0 -> m !! ptr_at t k = Some (slot t k);
  h_found p e : m !! p = Some e -> p ≠ 0 ∧ e_ptr e = p ∧ ∃ k, slot t k = e;
  h_once k k' : ptr_at t k ≠ 0 -> ptr_at t k = ptr_at t k' -> k = k';
}.

Definition rep (t : gmap Z Entry) (m : gmap ptr Entry) : Prop := wf t ∧ holds t m.

Lemma rep_empty : rep ∅ ∅.
Proof. by split; [|split]. Qed.

Lemma ptr_clear_eq k t : ptr_at (clear k t) k = 0.
Proof. unfold clear. by rewrite arr_insert_eq. Qed.

Lemma slot_clear_ne k k' t : k ≠ k' -> slot (clear k t) k' = slot t k'.
Proof. intros. unfold clear. by rewrite arr_insert_ne. Qed.

Lemma ptr_clear k k' t : ptr_at (clear k t) k' ≠ 0 -> k ≠ k' ∧ slot (clear k t) k' = slot t k'.
Proof.
  intros H. destruct (decide (k = k')) as [<-|]; [by rewrite ptr_clear_eq in H|].
  split; [done|by apply slot_clear_ne].
Qed.

Lemma holds_clear t m k :
  holds t m -> ptr_at t k ≠ 0 -> holds (clear k t) (delete (ptr_at t k) m).
Proof.
  intros [Hs Hf Ho] Hk. split.
  - intros k' H. destruct (ptr_clear _ _ _ H) as [Hne E]. rewrite E in *.
    rewrite lookup_delete_ne; [by apply Hs|]. intros E'. by apply Hne, Ho.
  - intros p e [Hne Hp]%lookup_delete_Some. destruct (Hf p e Hp) as (? & ? & k' & E).
    split_and!; [done..|]. exists k'. rewrite slot_clear_ne; [done|]. intros ->. congruence.
  - intros k1 k2 H E. destruct (ptr_clear _ _ _ H) as [_ E1]. rewrite E1 in *.
    assert (H2 : ptr_at (clear k t) k2 ≠ 0) by congruence.
    destruct (ptr_clear _ _ _ H2) as [_ E2]. rewrite E2 in *. by apply Ho.
Qed.

Lemma holds_insert t m k e :
  holds t m -> ptr_at t k = 0 -> e_ptr e ≠ 0 -> m !! e_ptr e = None ->
  holds (<[k := e]> t) (<[e_ptr e := e]> m).
Proof.
  intros [Hs Hf Ho] Hk He Hm.
  assert (Hfresh : ∀ k', ptr_at t k' ≠ 0 -> e_ptr e ≠ ptr_at t k').
  { intros k' H E. rewrite E, (Hs _ H) in Hm. discriminate. }
  split.
  - intros k' H. destruct (decide (k = k')) as [<-|Hne].
    + by rewrite arr_insert_eq, lookup_insert_eq.
    + rewrite arr_insert_ne in * by done. rewrite lookup_insert_ne by auto. auto.
  - intros p e' [[<- <-]|[Hne Hp]]%lookup_insert_Some.
    + split_and!; [done..|]. exists k. by rewrite arr_insert_eq.
    + destruct (Hf p e' Hp) as (? & ? & k' & E). split_and!; [done..|]. exists k'.
      rewrite arr_insert_ne; [done|]. intros ->. congruence.
  - intros k1 k2 H E. destruct (decide (k = k1)) as [<-|H1], (decide (k = k2)) as [<-|H2]; [done|..];
      rewrite ?arr_insert_eq in *; rewrite ?(arr_insert_ne Entry0 t) in * by done.
    + destruct (Hfresh k2); congruence.
    + by destruct (Hfresh k1).
    + by apply Ho.
Qed.

(** ** Probing *)

Definition stops (t : gmap Z Entry) (p k : Z) : Prop := ptr_at t k = 0 ∨ ptr_at t k = p.

Lemma scan_spec n t p h j :
  match scan n t p (from h j) with
  | Some k => ∃ i, j <= i < j + Z.of_nat n ∧ k = from h i ∧ stops t p k ∧
                   ∀ i', j <= i' < i -> ¬ stops t p (from h i')
  | None => ∀ i', j <= i' < j + Z.of_nat n -> ¬ stops t p (from h i')
  end.
Proof.
  revert j. induction n as [|n IH]; intros j; cbn [scan]; [lia|]. rewrite next_from.
  unfold stops in *. destruct (_ || _) eqn:E; zb.
  - exists j. split_and!; auto; lia.
  - specialize (IH (j + 1)).
    assert (Hj : ∀ i', j = i' -> ¬ (ptr_at t (from h i') = 0 ∨ ptr_at t (from h i') = p)).
    { intros ? <-. zb. tauto. }
    destruct (scan _ _ _ _).
    + destruct IH as (i & Hi & -> & Hs & Hm). exists i. split_and!; auto; try lia.
      intros i' Hi'. destruct (decide (j = i')); [auto|]. apply Hm. lia.
    + intros i' Hi'. destruct (decide (j = i')); [auto|]. apply IH. lia.
Qed.

(** The outcomes of a probe: the entry of [p]; the empty slot where it belongs; or
    a table with no room. *)
Lemma probe_spec t m p :
  rep t m -> p ≠ 0 ->
  match probe t p with
  | Some k => (ptr_at t k = p ∧ m !! p = Some (slot t k)) ∨
      (ptr_at t k = 0 ∧ m !! p = None ∧ 0 <= k < TABLE_SIZE ∧
       ∀ j, 0 <= j < dist (hash_ptr p) k -> ptr_at t (from (hash_ptr p) j) ≠ 0)
  | None => m !! p = None ∧ ∀ k, 0 <= k < TABLE_SIZE -> ptr_at t k ≠ 0
  end.
Proof.
  intros [Hw [Hs Hf Ho]] Hp. unfold probe.
  pose proof (scan_spec (Z.to_nat TABLE_SIZE) t p (hash_ptr p) 0) as H.
  rewrite from_0 in H by apply hash_range. rewrite Z2Nat.id in H by done. unfold stops in H.
  (* a stored pointer would stop the probe on its way *)
  assert (Hst : ∀ e, m !! p = Some e -> ∃ d, 0 <= d < TABLE_SIZE ∧
    ptr_at t (from (hash_ptr p) d) = p ∧ ∀ j, 0 <= j < d -> ptr_at t (from (hash_ptr p) j) ≠ 0).
  { intros e He. destruct (Hf p e He) as (_ & E & k & Ek).
    assert (Ekp : ptr_at t k = p) by congruence.
    destruct (Hw k) as [Hk Hd]; [congruence|]. rewrite Ekp in Hd.
    exists (dist (hash_ptr p) k). rewrite from_dist by done. split_and!; [apply dist_range..|done|done]. }
  destruct (scan _ _ _ _) as [k|].
  - destruct H as (i & Hi & -> & Hstop & Hbefore).
    destruct (decide (ptr_at t (from (hash_ptr p) i) = p)) as [E|E].
    + left. split; [done|]. pose proof (Hs (from (hash_ptr p) i)) as Hm. rewrite E in Hm. by apply Hm.
    + right. assert (E0 : ptr_at t (from (hash_ptr p) i) = 0) by (destruct Hstop; congruence).
      split_and!; [done| |apply from_range..|].
      * destruct (m !! p) as [e|] eqn:He; [|done]. destruct (Hst e eq_refl) as (d & Hd & Ed & Hdb).
        destruct (Z.lt_total d i) as [?|[->|?]]; [|congruence|].
        -- destruct (Hbefore d); [lia|by right].
        -- by destruct (Hdb i); [lia|].
      * intros j Hj E'. rewrite dist_from in Hj by lia. destruct (Hbefore j); [lia|by left].
  - split.
    + destruct (m !! p) as [e|] eqn:He; [|done]. destruct (Hst e eq_refl) as (d & Hd & Ed & _).
      destruct (H d); [lia|by right].
    + intros k Hk E. destruct (H (dist (hash_ptr p) k)); [pose proof (dist_range (hash_ptr p) k); lia|].
      left. by rewrite from_dist.
Qed.

(** A table without an empty slot has [TABLE_SIZE] entries. *)
Lemma full_size t m :
  holds t m -> (∀ k, 0 <= k < TABLE_SIZE -> ptr_at t k ≠ 0) -> TABLE_SIZE <= Z.of_nat (size m).
Proof.
  intros [Hs Hf Ho] Hk.
  pose (l := (λ k, ptr_at t k) <$> seqZ 0 TABLE_SIZE).
  assert (Hnd : NoDup l).
  { apply NoDup_fmap_2_strong; [|apply NoDup_seqZ]. intros k k' H%elem_of_seqZ _ E.
    apply Ho; [|done]. apply Hk. lia. }
  assert (Hl : Z.of_nat (length l) = TABLE_SIZE).
  { unfold l. rewrite length_fmap, length_seqZ. apply Z2Nat.id. done. }
  rewrite <- Hl, <- (size_list_to_set (C := gset Z) l) by done.
  transitivity (Z.of_nat (size (dom m))); [|by rewrite (size_dom m)]. apply inj_le, subseteq_size.
  intros x [k [-> H%elem_of_seqZ]]%elem_of_list_to_set%list_elem_of_fmap.
  apply elem_of_dom. exists (slot t k). apply Hs, Hk. lia.
Qed.

Lemma rep_insert t m p k e :
  rep t m -> e_ptr e = p -> p ≠ 0 -> ptr_at t k = 0 -> m !! p = None -> 0 <= k < TABLE_SIZE ->
  (∀ j, 0 <= j < dist (hash_ptr p) k -> ptr_at t (from (hash_ptr p) j) ≠ 0) ->
  rep (<[k := e]> t) (<[p := e]> m).
Proof.
  intros [Hw Hh] <- Hp Hk Hm Hr Hpath. split; [|by apply holds_insert].
  assert (Hkeep : ∀ k', ptr_at t k' ≠ 0 -> ptr_at (<[k := e]> t) k' ≠ 0).
  { intros k' H. destruct (decide (k = k')) as [<-|]; [by rewrite arr_insert_eq|by rewrite arr_insert_ne]. }
  intros k' H. destruct (decide (k = k')) as [<-|Hne].
  - rewrite arr_insert_eq. split; [done|]. auto.
  - rewrite !arr_insert_ne in * by done. destruct (Hw k' H) as [? Hd]. split; [done|]. auto.
Qed.

(** ** Putting a cluster back

    Counted from an empty slot [h], no probe wraps around: an entry at [q] has its
    home at some [1 <= home <= q].  While the loop is at [q], the entries before
    [q] are in order, and those from [q] on are in order as far as the slots from
    [q] on are concerned. *)

Definition home (h : Z) (p : ptr) : Z := dist h (hash_ptr p).

Record packed (h q : Z) (t : gmap Z Entry) : Prop := mkPacked {
  k_hole : ptr_at t (from h 0) = 0;
  k_range k : ptr_at t k ≠ 0 -> 0 <= k < TABLE_SIZE;
  k_home r : 0 <= r < TABLE_SIZE -> ptr_at t (from h r) ≠ 0 ->
    1 <= home h (ptr_at t (from h r)) <= r;
  k_path r s : 0 <= r < TABLE_SIZE -> ptr_at t (from h r) ≠ 0 ->
    home h (ptr_at t (from h r)) <= s <= r -> r < q ∨ q <= s -> ptr_at t (from h s) ≠ 0;
}.

(** Distances from the home, in the two countings. *)
Lemma dist_home h p r :
  0 <= h < TABLE_SIZE -> 0 <= r < TABLE_SIZE ->
  (dist (hash_ptr p) (from h r) = r - home h p ∧ home h p <= r) ∨
  (dist (hash_ptr p) (from h r) = r - home h p + TABLE_SIZE ∧ r < home h p).
Proof.
  intros Hh Hr. pose proof (dist_range h (hash_ptr p)) as Ha. unfold home.
  assert (E : dist (hash_ptr p) (from h r) = (r - dist h (hash_ptr p)) mod TABLE_SIZE).
  { unfold dist, from. rewrite Zminus_mod_idemp_l, Zminus_mod_idemp_r. f_equal. lia. }
  rewrite E. destruct (Z.le_gt_cases (dist h (hash_ptr p)) r); [left|right]; (split; [|lia]).
  - apply Z.mod_small. lia.
  - rewrite <- (Z_mod_plus_full _ 1). apply Z.mod_small. lia.
Qed.

Lemma from_home h p j : 0 <= h < TABLE_SIZE -> from (hash_ptr p) j = from h (home h p + j).
Proof.
  intros Hh. rewrite <- (from_dist h (hash_ptr p)) at 1 by apply hash_range. apply from_from.
Qed.

Lemma wf_packed h q t : 0 <= h < TABLE_SIZE -> ptr_at t h = 0 -> wf t -> packed h q t.
Proof.
  intros Hh H0 Hw.
  assert (Hlin : ∀ r, 0 <= r < TABLE_SIZE -> ptr_at t (from h r) ≠ 0 ->
    let a := home h (ptr_at t (from h r)) in
    a <= r ∧ ∀ s, a <= s <= r -> ptr_at t (from h s) ≠ 0).
  { intros r Hr Hp a. destruct (Hw _ Hp) as [_ Hd].
    destruct (dist_home h (ptr_at t (from h r)) r Hh Hr) as [[E Ha]|[E Ha]]; rewrite E in Hd.
    - split; [done|]. intros s Hs. destruct (decide (s = r)) as [->|]; [done|].
      pose proof (Hd (s - a)) as H. rewrite (from_home h) in H by done.
      replace (home h (ptr_at t (from h r)) + (s - a)) with s in H by (unfold a; lia). apply H. subst a. lia.
    - pose proof (dist_range h (hash_ptr (ptr_at t (from h r)))) as Hrg. fold (home h (ptr_at t (from h r))) in Hrg.
      destruct (decide (r = 0)) as [->|]; [by rewrite from_0 in Hp|].
      destruct (Hd (TABLE_SIZE - home h (ptr_at t (from h r)))); [lia|].
      rewrite (from_home h) by done.
      replace (home h (ptr_at t (from h r)) + (TABLE_SIZE - home h (ptr_at t (from h r)))) with TABLE_SIZE by lia.
      by rewrite from_all, from_0. }
  split.
  - by rewrite from_0.
  - intros k Hk. by apply Hw.
  - intros r Hr Hp. destruct (Hlin r Hr Hp) as [Ha Hs]. split; [|done].
    pose proof (dist_range h (hash_ptr (ptr_at t (from h r)))) as Hrg. fold (home h (ptr_at t (from h r))) in Hrg.
    destruct (decide (home h (ptr_at t (from h r)) = 0)) as [E|]; [|lia].
    destruct (Hs 0); [lia|]. by rewrite from_0.
  - intros r s Hr Hp Hs _. by apply (Hlin r).
Qed.

Lemma packed_wf h q t :
  0 <= h < TABLE_SIZE -> q <= TABLE_SIZE -> ptr_at t (from h q) = 0 -> packed h q t -> wf t.
Proof.
  intros Hh Hq H0 [Hhole Hrange Hhome Hpath] k Hk. pose proof (Hrange k Hk) as Hkr. split; [done|].
  pose proof (dist_range h k) as Hr. pose proof (from_dist h k Hkr) as Ek.
  remember (dist h k) as r eqn:Er. clear Er. subst k. intros j Hj.
  destruct (Hhome r Hr Hk) as [Ha1 Ha2].
  destruct (dist_home h (ptr_at t (from h r)) r Hh Hr) as [[E _]|[_ ?]]; [|lia].
  rewrite E in Hj. rewrite (from_home h) by done. apply (Hpath r); [done|done|lia|].
  destruct (Z.lt_ge_cases r q) as [|Hrq]; [by left|right].
  destruct (Z.le_gt_cases (home h (ptr_at t (from h r))) q) as [Hle|]; [|lia].
  exfalso. apply (Hpath r q); [done|done|lia|lia|done].
Qed.

Lemma free_slot_spec n t h a q :
  a <= q -> ptr_at t (from h q) = 0 -> q - a < Z.of_nat n ->
  ∃ r, free_slot n t (from h a) = Ok (from h r) ∧ a <= r <= q ∧ ptr_at t (from h r) = 0 ∧
       ∀ s, a <= s < r -> ptr_at t (from h s) ≠ 0.
Proof.
  revert a. induction n as [|n IH]; intros a Ha Hq Hn; [lia|]. cbn [free_slot]. rewrite next_from.
  destruct (Z.eqb_spec (ptr_at t (from h a)) 0) as [E|E].
  - exists a. split_and!; [done|lia|lia|done|lia].
  - assert (a ≠ q) by (by intros ->).
    destruct (IH (a + 1)) as (r & -> & Hr & Er & Hb); [lia|done|lia|].
    exists r. split_and!; [done|lia|lia|done|]. intros s Hs.
    destruct (decide (s = a)) as [->|]; [done|]. apply Hb. lia.
Qed.

(** One turn of the loop. *)
Lemma repack_turn h q t m :
  0 <= h < TABLE_SIZE -> 1 <= q < TABLE_SIZE -> packed h q t -> holds t m -> ptr_at t (from h q) ≠ 0 ->
  let e := slot t (from h q) in
  ∃ k, free_slot (Z.to_nat TABLE_SIZE) (clear (from h q) t) (hash_ptr (e_ptr e)) = Ok k ∧
       packed h (q + 1) (<[k := e]> (clear (from h q) t)) ∧ holds (<[k := e]> (clear (from h q) t)) m.
Proof.
  intros Hh Hq [Hhole Hrange Hhome Hpath] Hm Hocc e.
  destruct (Hhome q ltac:(lia) Hocc) as [Ha1 Ha2]. fold e in Ha1, Ha2.
  destruct (free_slot_spec (Z.to_nat TABLE_SIZE) (clear (from h q) t) h (home h (e_ptr e)) q)
    as (r & Hfree & Hr & Er & Hbefore); [done|apply ptr_clear_eq|rewrite Z2Nat.id by done; lia|].
  assert (Eh : from h (home h (e_ptr e)) = hash_ptr (e_ptr e)) by (apply from_dist, hash_range).
  rewrite Eh in Hfree. exists (from h r). split; [exact Hfree|].
  set (t1 := clear (from h q) t) in *. set (t2 := <[from h r := e]> t1).
  assert (Hin : ∀ s s', 0 <= s < TABLE_SIZE -> 0 <= s' < TABLE_SIZE -> s ≠ s' -> from h s ≠ from h s').
  { intros s s' Hs Hs' Hne E. by apply Hne, (from_inj h). }
  assert (H2r : slot t2 (from h r) = e) by apply arr_insert_eq.
  assert (H2 : ∀ k, k ≠ from h r -> k ≠ from h q -> slot t2 k = slot t k).
  { intros k ? ?. unfold t2. rewrite arr_insert_ne by done. by apply slot_clear_ne. }
  assert (H2q : r ≠ q -> ptr_at t2 (from h q) = 0).
  { intros Hne. unfold t2. rewrite arr_insert_ne by (apply Hin; lia). apply ptr_clear_eq. }
  assert (Hkeep : ∀ s, 0 <= s < TABLE_SIZE -> s ≠ q -> ptr_at t (from h s) ≠ 0 -> ptr_at t2 (from h s) ≠ 0).
  { intros s Hs Hne Hp. destruct (decide (s = r)) as [->|]; [by rewrite H2r|]. by rewrite H2 by (apply Hin; lia). }
  split; [split|].
  - rewrite H2 by (apply Hin; lia). done.
  - intros k Hk. destruct (decide (k = from h r)) as [->|]; [apply from_range|].
    destruct (decide (k = from h q)) as [->|]; [apply from_range|]. apply Hrange. by rewrite H2 in Hk.
  - intros r' Hr' Hk. destruct (decide (r' = r)) as [->|Hne]; [rewrite H2r; lia|].
    destruct (decide (r' = q)) as [->|]; [by rewrite H2q in Hk by auto|].
    rewrite H2 in * by (apply Hin; lia). by apply Hhome.
  - intros r' s Hr' Hk Hs Hside. destruct (decide (r' = r)) as [->|Hne].
    + rewrite H2r in Hs. destruct (decide (s = r)) as [->|]; [by rewrite H2r|].
      pose proof (Hbefore s ltac:(lia)) as Hb. destruct (ptr_clear _ _ _ Hb) as [_ E].
      apply Hkeep; [lia|lia|]. by rewrite <- E.
    + destruct (decide (r' = q)) as [->|]; [by rewrite H2q in Hk by auto|].
      rewrite H2 in Hk, Hs by (apply Hin; lia).
      pose proof (Hhome r' Hr' Hk). apply Hkeep; [lia|lia|]. apply (Hpath r' s); [done..|lia].
  - rewrite <- (insert_delete_id m (e_ptr e) e) by (by apply (h_stored _ _ Hm)).
    apply holds_insert; [by apply holds_clear|done|done|apply lookup_delete_eq].
Qed.

(** The loop ends, at the hole at the latest. *)
Lemma repack_spec n h q t m :
  0 <= h < TABLE_SIZE -> 1 <= q <= TABLE_SIZE -> TABLE_SIZE - q < Z.of_nat n ->
  packed h q t -> holds t m ->
  ∃ t', repack n t (from h q) = Ok t' ∧ rep t' m.
Proof.
  intros Hh. revert q t. induction n as [|n IH]; intros q t Hq Hn Hp Hm; [lia|].
  cbn [repack]. rewrite next_from.
  destruct (Z.eqb_spec (ptr_at t (from h q)) 0) as [E|E].
  - exists t. split; [done|]. split; [|done]. by apply (packed_wf h q); [..|lia| |].
  - assert (q ≠ TABLE_SIZE).
    { intros ->. rewrite from_all in E. apply E, (k_hole _ _ _ Hp). }
    destruct (repack_turn h q t m) as (k & Hk & Hp' & Hm'); [done|lia|done..|].
    cbv zeta in *. rewrite Hk. cbn [mbind res_bind]. apply IH; [lia|lia|done|done].
Qed.

(** A deletion. *)
Lemma packed_clear h q t :
  0 <= h < TABLE_SIZE -> 0 <= q < TABLE_SIZE -> packed h q t -> packed h (q + 1) (clear (from h q) t) ∨ q = 0.
Proof.
  intros Hh Hq [Hhole Hrange Hhome Hpath]. destruct (decide (q = 0)) as [|Hq0]; [by right|left].
  assert (Hin : ∀ s, 0 <= s < TABLE_SIZE -> s ≠ q -> slot (clear (from h q) t) (from h s) = slot t (from h s)).
  { intros s Hs Hne. apply slot_clear_ne. intros E. apply Hne. symmetry. by apply (from_inj h). }
  assert (Hneq : ∀ r, ptr_at (clear (from h q) t) (from h r) ≠ 0 -> r ≠ q).
  { intros r Hr ->. by rewrite ptr_clear_eq in Hr. }
  split.
  - rewrite Hin by lia. done.
  - intros k Hk. apply Hrange. by destruct (ptr_clear _ _ _ Hk) as [_ <-].
  - intros r Hr Hk. pose proof (Hneq r Hk). rewrite Hin in * by done. by apply Hhome.
  - intros r s Hr Hk Hs Hside. pose proof (Hneq r Hk). rewrite (Hin r) in * by done.
    pose proof (Hhome r Hr Hk). rewrite Hin by lia. apply (Hpath r s); [done..|lia].
Qed.

Lemma not_full_size t m k :
  rep t m -> 0 <= k < TABLE_SIZE -> ptr_at t k = 0 -> Z.of_nat (size m) < TABLE_SIZE.
Proof.
  intros [Hw [Hs Hf Ho]] Hk E.
  pose (l := (λ k, ptr_at t k) <$> (seqZ 0 k ++ seqZ (k + 1) (TABLE_SIZE - (k + 1)))).
  assert (Hl : Z.of_nat (length l) = TABLE_SIZE - 1).
  { unfold l. rewrite length_fmap, length_app, !length_seqZ. lia. }
  assert (Hsz : (size m <= length l)%nat).
  { transitivity (size (list_to_set (C := gset Z) l)).
    - transitivity (size (dom m)); [by rewrite (size_dom m)|]. apply subseteq_size.
      intros p [e He]%elem_of_dom. destruct (Hf p e He) as (Hp & Ep & k' & Ek').
      apply elem_of_list_to_set, list_elem_of_fmap. exists k'. split; [congruence|].
      destruct (Hw k') as [Hr _]; [congruence|].
      assert (k' ≠ k) by congruence.
      apply elem_of_app. rewrite !elem_of_seqZ. lia.
    - apply size_list_to_set_le. }
  lia.
Qed.

Lemma hole t m :
  holds t m -> Z.of_nat (size m) < TABLE_SIZE -> ∃ h, 0 <= h < TABLE_SIZE ∧ ptr_at t h = 0.
Proof.
  intros Hm Hs. destruct (decide (Exists (λ h, ptr_at t h = 0) (seqZ 0 TABLE_SIZE))) as [H|H].
  - apply Exists_exists in H as (h & Hh%elem_of_seqZ & E). exists h. split; [lia|done].
  - exfalso. enough (TABLE_SIZE <= Z.of_nat (size m)) by lia. apply (full_size t); [done|].
    intros k Hk E. apply H, Exists_exists. exists k. split; [apply elem_of_seqZ; lia|done].
Qed.

Lemma validate_free_spec p t m :
  rep t m -> Z.of_nat (size m) < TABLE_SIZE ->
  ∃ t', validate_free p t = Ok t' ∧ rep t' (delete p m).
Proof.
  intros [Hw Hm] Hs. unfold validate_free. destruct (Z.eqb_spec p 0) as [->|Hp].
  { exists t. split; [done|]. rewrite delete_id; [done|].
    destruct (m !! 0) as [e|] eqn:E; [|done]. by destruct (h_found _ _ Hm 0 e E). }
  pose proof (probe_spec t m p (conj Hw Hm) Hp) as H. destruct (probe t p) as [k|].
  2:{ exists t. destruct H as [H _]. by rewrite delete_id. }
  destruct H as [[E Hk]|(E & Hk & _)]; rewrite E.
  - rewrite Z.eqb_refl. destruct (hole t m Hm Hs) as (h & Hh & H0).
    assert (Hocc : ptr_at t k ≠ 0) by congruence. destruct (Hw k Hocc) as [Hkr _].
    pose proof (wf_packed h (dist h k) t Hh H0 Hw) as Hpk.
    assert (Hd : dist h k ≠ 0).
    { intros Ed. apply Hocc. by rewrite <- (from_dist h k), Ed, from_0. }
    pose proof (dist_range h k). pose proof (holds_clear t m k Hm Hocc) as Hm'. rewrite E in Hm'.
    destruct (packed_clear h (dist h k) t Hh) as [Hp'|]; [done|done| |done].
    rewrite from_dist in Hp' by done.
    assert (En : next k = from h (dist h k + 1)) by (by rewrite <- next_from, from_dist). rewrite En.
    apply (repack_spec _ h); [done|lia|rewrite Z2Nat.id by done; lia|done|done].
  - rewrite (proj2 (Z.eqb_neq 0 p)) by done. exists t. by rewrite delete_id.
Qed.

(** ** The contract *)

Inductive op :=
  | Alloc (managed : bool) (tid : Z) (id : CallSiteID) (size : Z) (p : ptr)
  | Free (p : ptr).

(** The validator's life, up to its first abort. *)
Fixpoint run (ops : list op) (t : gmap Z Entry) : res (verdict * gmap Z Entry) :=
  match ops with
  | [] => Ok (Accepted, t)
  | Alloc m tid id n p :: ops =>
      match validate_alloc m tid id n p t with
      | (Accepted, t) => run ops t
      | r => Ok r
      end
  | Free p :: ops => t ← validate_free p t; run ops t
  end.

(** The same on the map of the live blocks. *)
Definition spec_alloc (managed : bool) (tid : Z) (id : CallSiteID) (size : Z) (p : ptr)
    (m : gmap ptr Entry) : verdict * gmap ptr Entry :=
  if p =? 0 then (NullBlock, m)
  else if negb managed then (Accepted, m)
  else if negb (p mod 16 =? 0) then (Misaligned, m)
  else
    match m !! p with
    | Some e => (Duplicate e, m)
    | None =>
        if TABLE_SIZE <=? Z.of_nat (stdpp.base.size m) then (TableFull, m)
        else (Accepted, <[p := mkEntry p size id tid]> m)
    end.

Fixpoint spec_run (ops : list op) (m : gmap ptr Entry) : verdict * gmap ptr Entry :=
  match ops with
  | [] => (Accepted, m)
  | Alloc mg tid id n p :: ops =>
      match spec_alloc mg tid id n p m with
      | (Accepted, m) => spec_run ops m
      | r => r
      end
  | Free p :: ops => spec_run ops (delete p m)
  end.

(** Nothing is freed while every slot of the table is taken. *)
Fixpoint roomy (ops : list op) (m : gmap ptr Entry) : Prop :=
  match ops with
  | [] => True
  | Alloc mg tid id n p :: ops => roomy ops (spec_alloc mg tid id n p m).2
  | Free p :: ops => Z.of_nat (size m) < TABLE_SIZE ∧ roomy ops (delete p m)
  end.

Lemma validate_alloc_spec mg tid id n p t m :
  rep t m ->
  let r := validate_alloc mg tid id n p t in
  r.1 = (spec_alloc mg tid id n p m).1 ∧ rep r.2 (spec_alloc mg tid id n p m).2.
Proof.
  intros H. unfold validate_alloc, spec_alloc. destruct (Z.eqb_spec p 0) as [|Hp]; [done|].
  destruct mg; [|done]. destruct (p mod 16 =? 0); [|done]. simpl.
  pose proof (probe_spec t m p H Hp) as Hpr. destruct (probe t p) as [k|].
  - destruct Hpr as [[E ->]|(E & Em & Hr & Hpath)]; rewrite E.
    + by rewrite Z.eqb_refl.
    + rewrite Em, (proj2 (Z.eqb_neq 0 p)) by done.
      rewrite (proj2 (Z.leb_gt _ _)) by (by apply (not_full_size t m k)). split; [done|].
      simpl. by apply rep_insert.
  - destruct Hpr as [-> Hfull]. destruct H as [Hw Hm].
    rewrite (proj2 (Z.leb_le _ _)) by (by apply (full_size t)). by split; [|split].
Qed.

(** C29: the validator is exact.  On any sequence of allocations and frees it
    accepts, or aborts at the first null, misaligned or live block (naming the
    entry of the live one) or for want of room, exactly as the finite map of the
    live blocks says; its loops end; and the table it leaves represents that map.
    The probing, and the re-insertion of the cluster behind a freed entry, lose no
    entry and duplicate none. *)
Theorem shadow_refines (ops : list op) (t : gmap Z Entry) (m : gmap ptr Entry) :
  rep t m -> roomy ops m ->
  ∃ t', run ops t = Ok ((spec_run ops m).1, t') ∧ rep t' (spec_run ops m).2.
Proof.
  revert t m. induction ops as [|[mg tid id n p|p] ops IH]; intros t m H Hroom; simpl in *; [by exists t|..].
  - pose proof (validate_alloc_spec mg tid id n p t m H) as Ha.
    destruct (validate_alloc mg tid id n p t) as [v t'], (spec_alloc mg tid id n p m) as [v' m'].
    cbn [fst snd] in Ha. destruct Ha as [-> H']. destruct v'; [by apply IH|by exists t'..].
  - destruct Hroom as [Hs Hroom]. destruct (validate_free_spec p t m H Hs) as (t' & -> & H').
    cbn [mbind res_bind]. by apply IH.
Qed.

(** Three blocks with one home; the first is freed, the others move up, and the
    last is found live in its new place. *)
Definition collisions : list op :=
  [Alloc true 1 7 64 112; Alloc true 1 7 32 38192; Alloc true 2 8 16 87152; Alloc false 1 7 64 13;
   Free 112; Free 0; Alloc true 3 9 16 87152].

Example collisions_home : hash_ptr <$> [112; 38192; 87152] = [96100; 96100; 96100].
Proof. vm_compute. reflexivity. Qed.

Lemma shadow_refines_witness :
  ∃ t', run collisions ∅ = Ok (Duplicate (mkEntry 87152 16 8 2), t').
Proof.
  destruct (shadow_refines collisions ∅ ∅ rep_empty) as (t' & E & _).
  - simpl. repeat split; vm_compute; reflexivity.
  - exists t'. etrans; [exact E|]. reflexivity.
Defined.
