(* ===== verification/Double.v ===== *)
(** * IEEE 754 double precision

    The analysis compares ratios of counters as C++ [double]s.  They are the
    Standard Library's executable binary64 ([spec_float] with precision 53 and
    exponent bound 1024, round to nearest even), with no axiom; this file adds
    the magnitude lemmas the analysis needs: every operation on normal positive
    arguments stays normal and positive, with known exponent bounds. *)

From S2P Require Import Prelude.
From Stdlib Require Import SpecFloat.

Definition double := spec_float.

Definition of_Z (n : Z) : double := binary_normalize 53 1024 n 0 false.
Definition dadd : double -> double -> double := SFadd 53 1024.
Definition dsub : double -> double -> double := SFsub 53 1024.
Definition dmul : double -> double -> double := SFmul 53 1024.
Definition ddiv : double -> double -> double := SFdiv 53 1024.
Definition dsqrt : double -> double := SFsqrt 53 1024.
Definition dltb : double -> double -> bool := SFltb.
Definition dleb : double -> double -> bool := SFleb.
Definition dzero : double := S754_zero false.

(** A decimal literal [p / q] (both exact) is the correctly rounded quotient. *)
Definition literal (p q : Z) : double := ddiv (of_Z p) (of_Z q).

(** [static_cast<uint64_t>]: truncation toward zero.  Out of range (infinite,
    not a number) the conversion is undefined; no use of it gets there. *)
Definition trunc (x : double) : Z :=
  match x with
  | S754_finite s m e => (if s then -1 else 1) * Z.shiftl (Zpos m) e
  | _ => 0
  end.

(** ** Digits and shifts *)

Lemma digits2_log2 p : Zpos (digits2_pos p) = Z.log2 (Zpos p) + 1.
Proof.
  induction p as [p IH|p IH|]; cbn [digits2_pos]; [| |reflexivity].
  - rewrite Pos2Z.inj_succ, IH, (Pos2Z.inj_xI p), Z.log2_succ_double by lia. lia.
  - rewrite Pos2Z.inj_succ, IH, (Pos2Z.inj_xO p), Z.log2_double by lia. lia.
Qed.

(** [digits_are m d]: [m] has exactly [d] binary digits. *)
Definition digits_are (m d : Z) : Prop := 0 < d ∧ 2 ^ (d - 1) <= m < 2 ^ d.

Lemma digits_are_pos m d : digits_are m d -> 0 < m.
Proof. intros [Hd Hm]. assert (0 < 2 ^ (d - 1)) by (apply Z.pow_pos_nonneg; lia). lia. Qed.

Lemma Zdigits2_eq m d : digits_are m d -> Zdigits2 m = d.
Proof.
  intros H. pose proof (digits_are_pos _ _ H) as Hp. destruct H as [Hd Hm].
  destruct m as [|p|p]; try lia. unfold Zdigits2. rewrite digits2_log2.
  rewrite (Z.log2_unique (Zpos p) (d - 1)); [lia|lia|].
  replace (Z.succ (d - 1)) with d by lia. lia.
Qed.

Lemma shr_1_m r : 0 <= shr_m r -> shr_m (shr_1 r) = shr_m r / 2.
Proof.
  destruct r as [m r s]; simpl. destruct m as [|[p|p|]|p]; simpl; intros ?; try reflexivity; try lia.
  - rewrite (Pos2Z.inj_xI p), Z.add_comm, Z.mul_comm, Z_div_plus_full; [reflexivity|lia].
  - rewrite (Pos2Z.inj_xO p), Z.mul_comm, Z_div_mult_full; lia.
Qed.

Lemma iter_pos_iter {A} (f : A -> A) p x : SpecFloat.iter_pos f p x = Pos.iter f x p.
Proof.
  revert x. induction p as [p IH|p IH|]; intros x; simpl; [| |reflexivity].
  - rewrite !IH. rewrite <- !Pos.iter_swap. reflexivity.
  - by rewrite !IH.
Qed.

Lemma iter_shr_m p r :
  0 <= shr_m r -> shr_m (SpecFloat.iter_pos shr_1 p r) = shr_m r / 2 ^ Zpos p.
Proof.
  rewrite iter_pos_iter. intros Hr.
  cut (0 <= shr_m (Pos.iter shr_1 r p) ∧ shr_m (Pos.iter shr_1 r p) = shr_m r / 2 ^ Zpos p); [tauto|].
  induction p as [|p IH] using Pos.peano_ind; simpl.
  - rewrite shr_1_m by done. change (2 ^ 1) with 2. split; [|done]. apply Z.div_pos; lia.
  - rewrite Pos.iter_succ. destruct IH as [Hn E].
    rewrite shr_1_m, E by lia. rewrite Pos2Z.inj_succ, Z.pow_succ_r by lia.
    rewrite (Z.mul_comm 2), <- Z.div_div by lia.
    split; [|done]. apply Z.div_pos; [|lia]. apply Z.div_pos; lia.
Qed.

(** [shr] is a right shift of the mantissa. *)
Lemma shr_spec r e n :
  0 <= shr_m r -> 0 <= n ->
  shr_m (shr r e n).1 = shr_m r / 2 ^ n ∧ (shr r e n).2 = e + n.
Proof.
  intros Hr Hn. destruct n as [|p|p]; [|simpl; split; [by apply iter_shr_m|done]|lia].
  simpl. rewrite Z.div_1_r. lia.
Qed.

Lemma fexp_normal k : -1000 <= k -> fexp 53 1024 k = k - 53.
Proof. unfold fexp, emin. lia. Qed.

Lemma shr_record_of_loc_m m l : shr_m (shr_record_of_loc m l) = m.
Proof. by destruct l as [|[]]. Qed.

(** Dropping the digits beyond [d - n]. *)
Lemma digits_shift m d n :
  digits_are m d -> 0 <= n < d -> digits_are (m / 2 ^ n) (d - n).
Proof.
  intros [Hd [Hl Hu]] Hn. split; [lia|].
  assert (0 < 2 ^ n) by (apply Z.pow_pos_nonneg; lia).
  split.
  - apply Z.div_le_lower_bound; [lia|]. rewrite <- Z.pow_add_r by lia.
    by replace (n + (d - n - 1)) with (d - 1) by lia.
  - apply Z.div_lt_upper_bound; [lia|]. rewrite <- Z.pow_add_r by lia.
    by replace (n + (d - n)) with d by lia.
Qed.

(** ** Normal positive doubles *)

(** [normal x k]: [x] is a positive normal double in [2^(k-1), 2^k). *)
Definition normal (x : double) (k : Z) : Prop :=
  ∃ m, x = S754_finite false m (k - 53) ∧ digits_are (Zpos m) 53.

(** Positive, with magnitude in a range. *)
Definition between (x : double) (lo hi : Z) : Prop := ∃ k, normal x k ∧ lo <= k <= hi.

Lemma between_weaken x lo hi lo' hi' :
  between x lo hi -> lo' <= lo -> hi <= hi' -> between x lo' hi'.
Proof. intros (k & Hx & Hk) ? ?. exists k. split; [done|lia]. Qed.

Lemma round_nearest_even_cases m l :
  round_nearest_even m l = m ∨ round_nearest_even m l = m + 1.
Proof. destruct l as [|[]]; simpl; [| destruct (Z.even m) | |]; lia. Qed.

(** Rounding keeps 53 digits and moves by less than one unit of the last of them;
    [m * 2 ^ j] is the rounded mantissa, before a carry out of it is shifted away. *)
Lemma round_aux_close mx ex lx d :
  digits_are mx d -> 53 <= d -> -1000 <= d + ex <= 1000 ->
  ∃ m j, binary_round_aux 53 1024 false mx ex lx = S754_finite false m (d + ex + j - 53) ∧
    0 <= j <= 1 ∧ digits_are (Zpos m) 53 ∧
    (Zpos m * 2 ^ j - 1) * 2 ^ (d - 53) <= mx < (Zpos m * 2 ^ j + 1) * 2 ^ (d - 53).
Proof.
  intros Hmx Hd Hk. unfold binary_round_aux, shr_fexp.
  rewrite (Zdigits2_eq _ _ Hmx), fexp_normal by lia.
  replace (d + ex - 53 - ex) with (d - 53) by lia.
  pose proof (shr_spec (shr_record_of_loc mx lx) ex (d - 53)) as Hs.
  rewrite shr_record_of_loc_m in Hs. pose proof (digits_are_pos _ _ Hmx) as Hp.
  destruct (shr _ _ _) as [r e'] eqn:Er; simpl in Hs. destruct Hs as [Hr ->]; [lia..|].
  pose proof (digits_shift mx d (d - 53) Hmx ltac:(lia)) as Hm1. rewrite <- Hr in Hm1.
  replace (d - (d - 53)) with 53 in Hm1 by lia.
  set (m2 := round_nearest_even (shr_m r) _).
  assert (Hm2 : digits_are m2 53 ∨ m2 = 2 ^ 53).
  { destruct Hm1 as [_ Hm1]. unfold digits_are.
    destruct (round_nearest_even_cases (shr_m r) (loc_of_shr_record r)) as [E|E];
      fold m2 in E; lia. }
  assert (Hclose : (m2 - 1) * 2 ^ (d - 53) <= mx < (m2 + 1) * 2 ^ (d - 53)).
  { assert (0 < 2 ^ (d - 53)) by (apply Z.pow_pos_nonneg; lia).
    pose proof (Z.div_mod mx (2 ^ (d - 53)) ltac:(lia)). pose proof (Z.mod_pos_bound mx (2 ^ (d - 53)) ltac:(lia)).
    rewrite <- Hr in *.
    destruct (round_nearest_even_cases (shr_m r) (loc_of_shr_record r)) as [E|E]; fold m2 in E; nia. }
  clearbody m2. clear Er Hr Hm1.
  assert (Hd2 : ∃ j, 0 <= j <= 1 ∧ digits_are m2 (53 + j) ∧ digits_are (m2 / 2 ^ j) 53 ∧ m2 / 2 ^ j * 2 ^ j = m2).
  { destruct Hm2 as [H| ->]; [exists 0; rewrite Z.div_1_r, Z.add_0_r, Z.mul_1_r; split_and!; done || lia|].
    exists 1. split; [lia|]. by split_and!. }
  destruct Hd2 as (j & Hj & Hm & Hm' & Em2).
  rewrite (Zdigits2_eq _ _ Hm), fexp_normal by lia.
  replace (53 + j + (ex + (d - 53)) - 53 - (ex + (d - 53))) with j by lia.
  pose proof (shr_spec (shr_record_of_loc m2 loc_Exact) (ex + (d - 53)) j) as Hs2.
  rewrite shr_record_of_loc_m in Hs2. pose proof (digits_are_pos _ _ Hm).
  destruct (shr _ _ _) as [r2 e2]; simpl in Hs2. destruct Hs2 as [Hr2 ->]; [lia..|].
  rewrite Hr2. pose proof (digits_are_pos _ _ Hm') as Hp'.
  destruct (m2 / 2 ^ j) as [|m3|m3] eqn:E3; [lia| |lia].
  rewrite (proj2 (Z.leb_le _ _)) by lia.
  exists m3, j. rewrite Em2. split_and!; try done; try lia. f_equal. lia.
Qed.

Lemma round_aux_normal mx ex lx d k :
  digits_are mx d -> 53 <= d -> k = d + ex -> -1000 <= k <= 1000 ->
  between (binary_round_aux 53 1024 false mx ex lx) k (k + 1).
Proof.
  intros Hmx Hd -> Hk. destruct (round_aux_close mx ex lx d Hmx Hd Hk) as (m & j & -> & Hj & Hm & _).
  exists (d + ex + j). split; [by exists m | lia].
Qed.

(** ** Operations *)

Lemma digits_mul a b d d' :
  digits_are a d -> digits_are b d' ->
  ∃ j, -1 <= j <= 0 ∧ digits_are (a * b) (d + d' + j).
Proof.
  intros [Hd Ha] [Hd' Hb].
  assert (H1 : 2 ^ (d + d' - 2) <= a * b < 2 ^ (d + d')).
  { replace (d + d' - 2) with ((d - 1) + (d' - 1)) by lia.
    rewrite (Z.pow_add_r 2 (d - 1)), (Z.pow_add_r 2 d) by lia.
    replace (2 ^ d) with (2 * 2 ^ (d - 1)) by (rewrite <- Z.pow_succ_r by lia; f_equal; lia).
    replace (2 ^ d') with (2 * 2 ^ (d' - 1)) by (rewrite <- Z.pow_succ_r by lia; f_equal; lia).
    replace (2 ^ d) with (2 * 2 ^ (d - 1)) in Ha by (rewrite <- Z.pow_succ_r by lia; f_equal; lia).
    replace (2 ^ d') with (2 * 2 ^ (d' - 1)) in Hb by (rewrite <- Z.pow_succ_r by lia; f_equal; lia).
    assert (0 < 2 ^ (d - 1)) by (apply Z.pow_pos_nonneg; lia).
    assert (0 < 2 ^ (d' - 1)) by (apply Z.pow_pos_nonneg; lia). nia. }
  destruct (Z_lt_ge_dec (a * b) (2 ^ (d + d' - 1))).
  - exists (-1). split; [lia|]. split; [lia|].
    replace (d + d' + -1 - 1) with (d + d' - 2) by lia.
    replace (d + d' + -1) with (d + d' - 1) by lia. lia.
  - exists 0. split; [lia|]. split; [lia|]. rewrite Z.add_0_r. lia.
Qed.

Lemma dmul_normal x y k l :
  normal x k -> normal y l -> -400 <= k <= 400 -> -400 <= l <= 400 ->
  between (dmul x y) (k + l - 1) (k + l + 1).
Proof.
  intros (m & -> & Hm) (m' & -> & Hm') Hk Hl. unfold dmul, SFmul. simpl xorb.
  destruct (digits_mul _ _ _ _ Hm Hm') as (j & Hj & Hmm).
  change (Zpos m * Zpos m') with (Zpos (m * m')) in Hmm.
  eapply between_weaken; [eapply (round_aux_normal _ _ _ _ (k + l + j) Hmm); lia|lia|lia].
Qed.

(** The quotient of two 53-digit mantissas, the first scaled by [2^53]. *)
Lemma mantissa_quotient m m' :
  digits_are m 53 -> digits_are m' 53 ->
  ∃ j, 0 <= j <= 1 ∧ digits_are (m * 2 ^ 53 / m') (53 + j) ∧ (m' <= m -> j = 1).
Proof.
  intros [_ Hm] [_ Hm']. change (53 - 1) with 52 in *.
  assert (Hb : 2 ^ 52 <= m * 2 ^ 53 / m' < 2 ^ 54).
  { split; [apply Z.div_le_lower_bound|apply Z.div_lt_upper_bound]; lia. }
  destruct (Z_lt_ge_dec (m * 2 ^ 53 / m') (2 ^ 53)).
  - exists 0. split; [lia|]. split; [split; [lia|]; change (53 + 0 - 1) with 52; lia|].
    intros Hle. exfalso. assert (2 ^ 53 <= m * 2 ^ 53 / m'); [|lia].
    apply Z.div_le_lower_bound; lia.
  - exists 1. split; [lia|]. split; [|done]. split; [lia|].
    change (53 + 1 - 1) with 53. change (53 + 1) with 54. lia.
Qed.

Lemma ddiv_finite m m' k l :
  digits_are (Zpos m) 53 -> digits_are (Zpos m') 53 -> -400 <= k <= 400 -> -400 <= l <= 400 ->
  ∃ j, 0 <= j <= 1 ∧ (Zpos m' <= Zpos m -> j = 1) ∧
  between (ddiv (S754_finite false m (k - 53)) (S754_finite false m' (l - 53)))
          (k - l + j) (k - l + j + 1).
Proof.
  intros Hm Hm' Hk Hl. destruct (mantissa_quotient _ _ Hm Hm') as (j & Hj & Hq & Hge).
  exists j. split; [done|]. split; [done|].
  unfold ddiv, SFdiv, SFdiv_core_binary. simpl xorb.
  rewrite (Zdigits2_eq _ _ Hm), (Zdigits2_eq _ _ Hm'), fexp_normal by lia.
  replace (Z.min (53 + (k - 53) - (53 + (l - 53)) - 53) (k - 53 - (l - 53)))
    with (k - l - 53) by lia.
  replace (k - 53 - (l - 53) - (k - l - 53)) with 53 by lia.
  rewrite Z.shiftl_mul_pow2 by lia.
  destruct (Z.div_eucl (Zpos m * 2 ^ 53) (Zpos m')) as [q r] eqn:E.
  assert (Eq : q = Zpos m * 2 ^ 53 / Zpos m') by (unfold Z.div; by rewrite E).
  rewrite <- Eq in Hq.
  eapply (round_aux_normal _ _ _ _ _ Hq); lia.
Qed.

Lemma ddiv_normal x y k l :
  normal x k -> normal y l -> -400 <= k <= 400 -> -400 <= l <= 400 ->
  between (ddiv x y) (k - l) (k - l + 2).
Proof.
  intros (m & -> & Hm) (m' & -> & Hm') Hk Hl.
  destruct (ddiv_finite _ _ _ _ Hm Hm' Hk Hl) as (j & Hj & _ & H).
  eapply between_weaken; [exact H|lia|lia].
Qed.

Lemma dsqrt_normal x k :
  normal x k -> -400 <= k <= 400 -> between (dsqrt x) (Z.div2 (k + 1)) (Z.div2 (k + 1) + 1).
Proof.
  intros (m & -> & Hm) Hk. unfold dsqrt, SFsqrt, SFsqrt_core_binary.
  rewrite (Zdigits2_eq _ _ Hm). rewrite !Z.div2_div.
  replace (53 + (k - 53) + 1) with (k + 1) by lia.
  rewrite fexp_normal by (pose proof (Z.div_mod (k + 1) 2); pose proof (Z.mod_pos_bound (k + 1) 2); lia).
  set (h := (k + 1) / 2).
  assert (Hh : 2 * h <= k + 1 < 2 * h + 2).
  { unfold h. pose proof (Z.div_mod (k + 1) 2). pose proof (Z.mod_pos_bound (k + 1) 2). lia. }
  assert (Hmin : Z.min (h - 53) ((k - 53) / 2) = h - 53).
  { apply Z.min_l. apply Z.div_le_lower_bound; lia. }
  rewrite Hmin. set (s := k - 53 - 2 * (h - 53)).
  assert (Hs : 52 <= s <= 53) by lia.
  assert (Hm' : match s with Z0 => Zpos m | Zpos _ => Z.shiftl (Zpos m) s | Zneg _ => 0 end
                = Zpos m * 2 ^ s).
  { rewrite <- Z.shiftl_mul_pow2 by lia. destruct s; lia || done. }
  assert (Hb : 2 ^ 104 <= Zpos m * 2 ^ s < 2 ^ 106).
  { destruct Hm as [_ Hm]. assert (s = 52 ∨ s = 53) as [-> | ->] by lia; lia. }
  rewrite Hm'. clearbody s. clear Hm' Hmin.
  pose proof (Z.sqrtrem_spec (Zpos m * 2 ^ s)) as Hsq.
  destruct (Z.sqrtrem _) as [q r]. destruct Hsq as [Eq Hr]; [lia|].
  assert (Hq : digits_are q 53).
  { split; [lia|]. change (53 - 1) with 52.
    assert (E104 : 2 ^ 104 = 2 ^ 52 * 2 ^ 52) by done.
    assert (E106 : 2 ^ 106 = 2 ^ 53 * 2 ^ 53) by done. nia. }
  eapply (round_aux_normal _ _ _ _ _ Hq); lia.
Qed.

Lemma shl_align_spec m e e' :
  e' <= e -> Zpos (shl_align m e e').1 = Zpos m * 2 ^ (e - e') ∧ (shl_align m e e').2 = e'.
Proof.
  intros He. unfold shl_align. destruct (e' - e) as [|p|p] eqn:E; simpl; [|lia|].
  - replace (e - e') with 0 by lia. change (2 ^ 0) with 1. lia.
  - split; [|done]. replace (e - e') with (Zpos p) by lia. clear E He.
    induction p as [|p IH] using Pos.peano_ind; [change (2 ^ 1) with 2; simpl; lia|].
    rewrite Pos.iter_succ, Pos2Z.inj_succ, Z.pow_succ_r by lia.
    rewrite (Pos2Z.inj_xO (Pos.iter _ _ _)), IH. lia.
Qed.

(** The rounding of an exact positive integer times a power of two. *)
Lemma binary_normalize_normal n ex d k :
  digits_are n d -> k = d + ex -> -1000 <= k <= 1000 -> (53 <= d -> ex <= k - 53) ->
  between (binary_normalize 53 1024 n ex false) k (k + 1).
Proof.
  intros Hn -> Hk _. pose proof (digits_are_pos _ _ Hn) as Hp.
  destruct n as [|m|m]; [lia| |lia]. unfold binary_normalize, binary_round.
  assert (Ed : Zpos (digits2_pos m) = d) by (rewrite <- (Zdigits2_eq _ _ Hn); done).
  rewrite Ed, fexp_normal by lia.
  destruct (Z_le_gt_dec d 53) as [Hd|Hd].
  - destruct (shl_align_spec m ex (d + ex - 53)) as [E1 E2]; [lia|].
    destruct (shl_align _ _ _) as [mz ez]; simpl in *. subst ez.
    assert (Hmz : digits_are (Zpos mz) 53).
    { split; [lia|]. rewrite E1. replace (ex - (d + ex - 53)) with (53 - d) by lia.
      destruct Hn as [Hd0 [Hl Hu]]. change (53 - 1) with 52.
      assert (0 < 2 ^ (53 - d)) by (apply Z.pow_pos_nonneg; lia).
      replace (2 ^ 52) with (2 ^ (d - 1) * 2 ^ (53 - d)) by (rewrite <- Z.pow_add_r by lia; f_equal; lia).
      replace (2 ^ 53) with (2 ^ d * 2 ^ (53 - d)) by (rewrite <- Z.pow_add_r by lia; f_equal; lia).
      nia. }
    eapply (round_aux_normal _ _ _ _ _ Hmz); lia.
  - unfold shl_align. destruct (d + ex - 53 - ex) eqn:E; [lia| |lia].
    eapply (round_aux_normal _ _ _ _ _ Hn); lia.
Qed.

(** The conversion of a 64-bit integer. *)
Lemma digits_log2 n : 0 < n -> digits_are n (Z.log2 n + 1).
Proof.
  intros Hn. pose proof (Z.log2_spec n Hn). pose proof (Z.log2_nonneg n).
  split; [lia|]. replace (Z.log2 n + 1 - 1) with (Z.log2 n) by lia.
  replace (Z.log2 n + 1) with (Z.succ (Z.log2 n)) by lia. lia.
Qed.

Lemma log2_u64 n : 0 < n < 2 ^ 64 -> 0 <= Z.log2 n <= 63.
Proof.
  intros Hn. split; [apply Z.log2_nonneg|].
  assert (Z.log2 n < 64); [apply Z.log2_lt_pow2; lia|lia].
Qed.

Lemma of_Z_normal n : 0 < n < 2 ^ 64 -> between (of_Z n) (Z.log2 n + 1) (Z.log2 n + 2).
Proof.
  intros Hn. pose proof (log2_u64 n Hn).
  eapply between_weaken; [eapply (binary_normalize_normal n 0 _ (Z.log2 n + 1))|lia|lia];
    [apply digits_log2; lia|lia..].
Qed.

(** Below [2^53] the conversion is exact. *)
Lemma digits_unique m d d' : digits_are m d -> digits_are m d' -> d = d'.
Proof. intros H H'. rewrite <- (Zdigits2_eq _ _ H). by apply Zdigits2_eq. Qed.

Lemma of_Z_exact n :
  0 < n < 2 ^ 53 ->
  ∃ m, of_Z n = S754_finite false m (Z.log2 n + 1 - 53) ∧
       Zpos m = n * 2 ^ (52 - Z.log2 n) ∧ digits_are (Zpos m) 53.
Proof.
  intros Hn. pose proof (digits_log2 n ltac:(lia)) as Hd. pose proof (Z.log2_nonneg n).
  assert (Hl : Z.log2 n < 53) by (apply Z.log2_lt_pow2; lia).
  destruct n as [|p|p]; [lia| |lia].
  pose proof (digits2_log2 p) as Edig. remember (Z.log2 (Zpos p)) as L eqn:EL.
  destruct (shl_align_spec p 0 (L + 1 + 0 - 53)) as [E1 E2]; [lia|].
  replace (0 - (L + 1 + 0 - 53)) with (52 - L) in E1 by lia.
  exists (shl_align p 0 (L + 1 + 0 - 53)).1.
  rewrite E1.
  assert (Hm : digits_are (Zpos p * 2 ^ (52 - L)) 53).
  { split; [lia|]. destruct Hd as [_ Hd]. replace (L + 1 - 1) with (L) in Hd by lia.
    change (53 - 1) with 52.
    assert (0 < 2 ^ (52 - L)) by (apply Z.pow_pos_nonneg; lia).
    replace (2 ^ 52) with (2 ^ L * 2 ^ (52 - L))
      by (rewrite <- Z.pow_add_r by lia; f_equal; lia).
    replace (2 ^ 53) with (2 ^ (L + 1) * 2 ^ (52 - L))
      by (rewrite <- Z.pow_add_r by lia; f_equal; lia). nia. }
  split; [|done]. unfold of_Z, binary_normalize, binary_round.
  rewrite Edig, fexp_normal by lia.
  destruct (shl_align _ _ _) as [mz ez]; simpl in E1, E2 |- *. subst ez. rewrite <- E1 in Hm.
  unfold binary_round_aux, shr_fexp. rewrite (Zdigits2_eq _ _ Hm), fexp_normal by lia.
  replace (53 + (L + 1 + 0 - 53) - 53 - (L + 1 + 0 - 53)) with 0 by lia.
  cbn [shr shr_record_of_loc shr_m loc_of_shr_record round_nearest_even].
  rewrite (Zdigits2_eq _ _ Hm), fexp_normal by lia.
  replace (53 + (L + 1 + 0 - 53) - 53 - (L + 1 + 0 - 53)) with 0 by lia.
  cbn [shr shr_record_of_loc shr_m]. rewrite (proj2 (Z.leb_le _ _)) by lia. f_equal. lia.
Qed.

Lemma dadd_normal x y k l :
  normal x k -> normal y l -> -400 <= k <= 400 -> -400 <= l <= 400 ->
  between (dadd x y) (Z.max k l) (Z.max k l + 2).
Proof.
  intros (m & -> & Hm) (m' & -> & Hm') Hk Hl. unfold dadd, SFadd.
  set (ez := Z.min (k - 53) (l - 53)).
  destruct (shl_align_spec m (k - 53) ez) as [E1 _]; [lia|].
  destruct (shl_align_spec m' (l - 53) ez) as [E2 _]; [lia|].
  unfold cond_Zopp. rewrite E1, E2.
  set (n := Zpos m * 2 ^ (k - 53 - ez) + Zpos m' * 2 ^ (l - 53 - ez)).
  destruct Hm as [_ [Hml Hmu]], Hm' as [_ [Hml' Hmu']]. change (53 - 1) with 52 in *.
  assert (Hp1 : 0 < 2 ^ (k - 53 - ez)) by (apply Z.pow_pos_nonneg; lia).
  assert (Hp2 : 0 < 2 ^ (l - 53 - ez)) by (apply Z.pow_pos_nonneg; lia).
  set (t := Z.max k l - 53 - ez).
  assert (Ht : 2 ^ (k - 53 - ez) <= 2 ^ t ∧ 2 ^ (l - 53 - ez) <= 2 ^ t).
  { split; apply Z.pow_le_mono_r; lia. }
  assert (Hmax : 2 ^ t = 2 ^ (k - 53 - ez) ∨ 2 ^ t = 2 ^ (l - 53 - ez)).
  { unfold t. destruct (Z.max_spec k l) as [[_ ->]|[_ ->]]; auto. }
  assert (Hb : 2 ^ (52 + t) <= n < 2 ^ (54 + t)).
  { rewrite !Z.pow_add_r by lia. unfold n. split; [|nia]. destruct Hmax as [-> | ->]; nia. }
  assert (Hdig : ∃ j, 0 <= j <= 1 ∧ digits_are n (53 + t + j)).
  { destruct (Z_lt_ge_dec n (2 ^ (53 + t))).
    - exists 0. split; [lia|]. split; [lia|].
      replace (53 + t + 0 - 1) with (52 + t) by lia. replace (53 + t + 0) with (53 + t) by lia. lia.
    - exists 1. split; [lia|]. split; [lia|].
      replace (53 + t + 1 - 1) with (53 + t) by lia. replace (53 + t + 1) with (54 + t) by lia. lia. }
  destruct Hdig as (j & Hj & Hd).
  eapply between_weaken; [eapply (binary_normalize_normal n ez _ (Z.max k l + j) Hd)|lia|lia]; lia.
Qed.

(** ** Comparisons *)

Lemma normal_lt x y k l : normal x k -> normal y l -> k < l -> dltb x y = true.
Proof.
  intros (m & -> & _) (m' & -> & _) Hkl. unfold dltb, SFltb, SFcompare.
  by rewrite (proj2 (Z.compare_lt_iff _ _)) by lia.
Qed.

Lemma normal_le x y k l : normal x k -> normal y l -> k < l -> dleb x y = true.
Proof.
  intros (m & -> & _) (m' & -> & _) Hkl. unfold dleb, SFleb, SFcompare.
  by rewrite (proj2 (Z.compare_lt_iff _ _)) by lia.
Qed.

Lemma zero_lt_normal x k : normal x k -> dltb dzero x = true.
Proof. by intros (m & -> & _). Qed.

(** A double minus itself is zero, or not a number; never above zero. *)
Lemma dsub_self x : dsub x x = dzero ∨ dsub x x = S754_nan.
Proof.
  destruct x as [[]|[]| |s m e]; simpl; auto. left.
  unfold dsub, SFsub. by rewrite Z.sub_diag.
Qed.

(** ** Quotients of counters *)

(** The quotient of two counters, the first not smaller, is at least one: it
    lies above every double below one. *)
Lemma ratio_ge_one a b x k :
  0 < b <= a -> a < 2 ^ 53 -> normal x k -> k <= 0 ->
  dleb x (ddiv (of_Z a) (of_Z b)) = true.
Proof.
  intros Hb Ha Hx Hk.
  destruct (of_Z_exact a ltac:(lia)) as (m & Ea & Em & Hm).
  destruct (of_Z_exact b ltac:(lia)) as (m' & Eb & Em' & Hm').
  assert (La : 0 <= Z.log2 a < 53) by (split; [apply Z.log2_nonneg|apply Z.log2_lt_pow2; lia]).
  assert (Lb : 0 <= Z.log2 b < 53) by (split; [apply Z.log2_nonneg|apply Z.log2_lt_pow2; lia]).
  assert (Hlog : Z.log2 b <= Z.log2 a) by (apply Z.log2_le_mono; lia).
  rewrite Ea, Eb.
  destruct (ddiv_finite m m' (Z.log2 a + 1) (Z.log2 b + 1) Hm Hm') as (j & Hj & Hge & (k' & Hy & Hk'));
    [lia..|].
  eapply normal_le; [exact Hx|exact Hy|].
  destruct (Z.eq_dec (Z.log2 a) (Z.log2 b)) as [E|E]; [|lia].
  assert (j = 1); [|lia]. apply Hge. rewrite Em, Em', E. apply Z.mul_le_mono_nonneg_r; [|lia].
  apply Z.pow_nonneg. lia.
Qed.

(** ** Accuracy

    The value of a positive double times [2^1200], an integer. *)
Definition scaled (x : double) : Z :=
  match x with
  | S754_finite false m e => Zpos m * 2 ^ (e + 1200)
  | _ => 0
  end.

Definition ONE : Z := 2 ^ 1200.

(** [x] is within [2^-b] of [a], relatively. *)
Definition close (b a x : Z) : Prop := Z.abs (x - a) * 2 ^ b <= a.

Lemma scaled_of_Z n : 0 < n < 2 ^ 53 -> scaled (of_Z n) = n * ONE ∧ ∃ k, normal (of_Z n) k ∧ 1 <= k <= 53.
Proof.
  intros Hn. destruct (of_Z_exact n Hn) as (m & -> & Em & Hm).
  assert (0 <= Z.log2 n < 53) by (split; [apply Z.log2_nonneg|apply Z.log2_lt_pow2; lia]).
  split.
  - unfold scaled, ONE. rewrite Em, <- Z.mul_assoc, <- Z.pow_add_r by lia. do 2 f_equal. lia.
  - exists (Z.log2 n + 1). split; [by exists m | lia].
Qed.

(** Rounding, as relative accuracy. *)
Lemma round_aux_scaled mx ex lx d :
  digits_are mx d -> 53 <= d -> -1000 <= d + ex <= 1000 -> -1200 <= ex ->
  close 52 (mx * 2 ^ (ex + 1200)) (scaled (binary_round_aux 53 1024 false mx ex lx)).
Proof.
  intros Hmx Hd Hk Hex. destruct (round_aux_close mx ex lx d Hmx Hd Hk) as (m & j & -> & Hj & Hm & Hc).
  unfold scaled, close. replace (d + ex + j - 53 + 1200) with (j + (d - 53) + (ex + 1200)) by lia.
  rewrite !Z.pow_add_r by lia. destruct Hmx as [_ [Hmx _]].
  replace (d - 1) with (52 + (d - 53)) in Hmx by lia. rewrite Z.pow_add_r in Hmx by lia.
  assert (0 < 2 ^ (d - 53)) by (apply Z.pow_pos_nonneg; lia).
  rewrite <- !Z.pow_add_r by lia. rewrite (Z.pow_add_r 2 _ (ex + 1200)), (Z.pow_add_r 2 j) by lia.
  assert (0 < 2 ^ (ex + 1200)) by (apply Z.pow_pos_nonneg; lia).
  set (D := 2 ^ (d - 53)) in *. set (E := 2 ^ (ex + 1200)) in *. set (M := Zpos m * 2 ^ j) in *.
  replace (Zpos m * (2 ^ j * D * E) - mx * E) with ((M * D - mx) * E) by (unfold M; ring).
  rewrite Z.abs_mul, (Z.abs_eq E) by lia.
  assert (Z.abs (M * D - mx) <= D) by nia. clearbody D E M. nia.
Qed.

Lemma close_mul b a x c : 0 <= c -> close b a x -> close b (a * c) (x * c).
Proof.
  unfold close. intros Hc H. rewrite <- Z.mul_sub_distr_r, Z.abs_mul, (Z.abs_eq c) by lia. nia.
Qed.

Lemma dmul_scaled x y k l :
  normal x k -> normal y l -> -400 <= k <= 400 -> -400 <= l <= 400 ->
  close 52 (scaled x * scaled y) (scaled (dmul x y) * ONE).
Proof.
  intros (m & -> & Hm) (m' & -> & Hm') Hk Hl. unfold dmul, SFmul. simpl xorb.
  destruct (digits_mul _ _ _ _ Hm Hm') as (j & Hj & Hmm). change (Zpos m * Zpos m') with (Zpos (m * m')) in Hmm.
  pose proof (round_aux_scaled _ (k - 53 + (l - 53)) loc_Exact _ Hmm ltac:(lia) ltac:(lia) ltac:(lia)) as H.
  apply (close_mul _ _ _ ONE) in H; [|done].
  replace (scaled (S754_finite false m (k - 53)) * scaled (S754_finite false m' (l - 53)))
    with (Zpos (m * m') * 2 ^ (k - 53 + (l - 53) + 1200) * ONE); [exact H|].
  unfold scaled, ONE. rewrite Pos2Z.inj_mul.
  replace (Zpos m * 2 ^ (k - 53 + 1200) * (Zpos m' * 2 ^ (l - 53 + 1200)))
    with (Zpos m * Zpos m' * (2 ^ (k - 53 + 1200) * 2 ^ (l - 53 + 1200))) by ring.
  rewrite <- Z.mul_assoc, <- !Z.pow_add_r by lia. do 2 f_equal. lia.
Qed.

Lemma ddiv_scaled x y k l :
  normal x k -> normal y l -> -400 <= k <= 400 -> -400 <= l <= 400 ->
  close 51 (scaled x * ONE) (scaled (ddiv x y) * scaled y).
Proof.
  intros (m & -> & Hm) (m' & -> & Hm') Hk Hl.
  destruct (mantissa_quotient _ _ Hm Hm') as (j & Hj & Hq & _).
  unfold ddiv, SFdiv, SFdiv_core_binary. simpl xorb.
  rewrite (Zdigits2_eq _ _ Hm), (Zdigits2_eq _ _ Hm'), fexp_normal by lia.
  replace (Z.min (53 + (k - 53) - (53 + (l - 53)) - 53) (k - 53 - (l - 53)))
    with (k - l - 53) by lia.
  replace (k - 53 - (l - 53) - (k - l - 53)) with 53 by lia.
  rewrite Z.shiftl_mul_pow2 by lia.
  destruct (Z.div_eucl (Zpos m * 2 ^ 53) (Zpos m')) as [q r] eqn:E.
  assert (Eq : q = Zpos m * 2 ^ 53 / Zpos m') by (unfold Z.div; by rewrite E).
  pose proof (Z.div_mod (Zpos m * 2 ^ 53) (Zpos m') ltac:(lia)) as Hdm.
  pose proof (Z.mod_pos_bound (Zpos m * 2 ^ 53) (Zpos m') ltac:(lia)) as Hb.
  rewrite <- Eq in Hq, Hdm. clear Eq E.
  match goal with |- close _ _ (scaled (binary_round_aux _ _ _ _ _ ?loc) * _) =>
    pose proof (round_aux_scaled q (k - l - 53) loc _ Hq ltac:(lia) ltac:(lia) ltac:(lia)) as H end.
  set (X := scaled (binary_round_aux _ _ _ _ _ _)) in *. clearbody X.
  unfold scaled at 1 2.
  assert (Hq52 : 2 ^ 52 <= q).
  { destruct Hq as [_ [Hq _]]. assert (2 ^ 52 <= 2 ^ (53 + j - 1)) by (apply Z.pow_le_mono_r; lia). lia. }
  (* everything in units of 2^(k-l-53+1200) * 2^(l-53+1200) *)
  assert (EU : Zpos m * 2 ^ (k - 53 + 1200) * ONE =
               Zpos m * 2 ^ 53 * 2 ^ (k - l - 53 + 1200) * 2 ^ (l - 53 + 1200)).
  { unfold ONE. rewrite <- !Z.mul_assoc, <- !Z.pow_add_r by lia. do 2 f_equal. lia. }
  rewrite EU. rewrite (Z.mul_assoc X). apply close_mul; [apply Z.pow_nonneg; lia|].
  assert (0 < 2 ^ (k - l - 53 + 1200)) by (apply Z.pow_pos_nonneg; lia).
  unfold close in *. set (U := 2 ^ (k - l - 53 + 1200)) in *. clearbody U.
  change (2 ^ 52) with (2 * 2 ^ 51) in *. set (P := 2 ^ 51) in *. assert (0 < P) by done. clearbody P.
  set (N := Zpos m * 2 ^ 53) in *. clearbody N. set (D := Zpos m') in *. assert (0 < D) by done. clearbody D.
  (* |X D - N U| <= |X - q U| D + (N - q D) U *)
  assert (Z.abs (X * D - N * U) <= Z.abs (X - q * U) * D + (N - q * D) * U) by nia.
  assert ((N - q * D) * 2 * P <= q * D) by nia.
  assert (Z.abs (X - q * U) * D * 2 * P <= q * U * D) by nia.
  nia.
Qed.
