(* ===== verification/Histogram.v ===== *)
(** * The sparse size histogram ([src/src/analysis/histogram.h])

    [ExactHistogram] keeps at most [CAP] distinct sizes with their counts.  The
    definitions follow the class's methods; [record_all] says what a histogram
    holds after any sequence of events, and the rest of the file what the
    queries then return. *)

From S2P Require Import Prelude Double.

Definition MAX_SIZE : Z := 4096.
Definition CAP : nat := 64.

Record Mode := mkMode { size : Z; count : Z }.

#[export] Instance Mode_eq_dec : EqDecision Mode.
Proof. solve_decision. Defined.

(** [entries] is the used prefix [entries[0 .. n)]; [n] is its length. *)
Record ExactHistogram := mkHist {
  entries : list Mode;
  overflow : bool;
  total : Z;
}.

#[export] Instance ExactHistogram_eq_dec : EqDecision ExactHistogram.
Proof. solve_decision. Defined.

Definition hist0 : ExactHistogram := mkHist [] false 0.
Definition reset (h : ExactHistogram) : ExactHistogram := hist0.
Definition n_of (h : ExactHistogram) : Z := Z.of_nat (length (entries h)).

(** The scan of [record]: [++entries[i].count] at the first entry of that size. *)
Fixpoint bump (sz : Z) (l : list Mode) : option (list Mode) :=
  match l with
  | [] => None
  | m :: l =>
      if size m =? sz then Some (mkMode (size m) (u32 (count m + 1)) :: l)
      else match bump sz l with Some l' => Some (m :: l') | None => None end
  end.

Definition record (sz : Z) (h : ExactHistogram) : ExactHistogram :=
  if sz >=? MAX_SIZE then h
  else match bump sz (entries h) with
       | Some es => mkHist es (overflow h) (u64 (total h + 1))
       | None =>
           if (length (entries h) <? CAP)%nat
           then mkHist (entries h ++ [mkMode sz 1]) (overflow h) (u64 (total h + 1))
           else mkHist (entries h) true (u64 (total h + 1))
       end.

(** [best] of the loops: an index with its entry, [None] for -1. *)
Definition beats (m : Mode) (best : option (Z * Mode)) : bool :=
  match best with
  | None => true
  | Some (_, b) =>
      (count m >? count b) || ((count m =? count b) && (size m <? size b))
  end.

Fixpoint dominant_loop (l : list Mode) (i : Z) (best : option (Z * Mode)) : option (Z * Mode) :=
  match l with
  | [] => best
  | m :: l => dominant_loop l (i + 1) (if beats m best then Some (i, m) else best)
  end.

Definition dominant_index (h : ExactHistogram) : Z :=
  match dominant_loop (entries h) 0 None with Some (i, _) => i | None => -1 end.

Definition dominant_size (h : ExactHistogram) : Z :=
  match dominant_loop (entries h) 0 None with Some (_, m) => size m | None => 0 end.

Definition is_monomorphic (fraction : double) (h : ExactHistogram) : bool :=
  if total h =? 0 then false
  else match dominant_loop (entries h) 0 None with
       | None => false
       | Some (_, m) => count m >=? trunc (dmul fraction (of_Z (total h)))
       end.

(** One step of the insertion sort: [rout] is [out[0 .. m)] read from its end,
    [out[j - 1].size > e.size] shifts one entry up. *)
Fixpoint shift_insert (e : Mode) (rout : list Mode) : list Mode :=
  match rout with
  | [] => [e]
  | o :: rest => if size o >? size e then o :: shift_insert e rest else e :: o :: rest
  end.

Definition sorted_modes (h : ExactHistogram) (cap : nat) : list Mode :=
  reverse (foldl (λ rout e, shift_insert e rout) [] (take cap (entries h))).

Fixpoint quantile_loop (l : list Mode) (cum target : Z) : option Z :=
  match l with
  | [] => None
  | m :: l =>
      let cum := u64 (cum + count m) in
      if cum >? target then Some (size m) else quantile_loop l cum target
  end.

Definition quantile (p : double) (h : ExactHistogram) : Z :=
  if total h =? 0 then 0 else
  let sorted := sorted_modes h CAP in
  let target := trunc (dmul p (of_Z (total h - 1))) in
  match quantile_loop sorted 0 target with
  | Some s => s
  | None => match last sorted with None => 0 | Some m => size m end
  end.

(** [top_k_modes]: [local] is the array of remaining counts; an entry whose
    local count is 0 is skipped. *)
Fixpoint best_loop (es : list Mode) (local : list Z) (i : nat) (best : option (nat * Mode))
  : option (nat * Mode) :=
  match es, local with
  | m :: es, c :: local =>
      let best' :=
        if c =? 0 then best
        else match best with
             | None => Some (i, mkMode (size m) c)
             | Some (_, b) =>
                 if (c >? count b) || ((c =? count b) && (size m <? size b))
                 then Some (i, mkMode (size m) c) else best
             end in
      best_loop es local (S i) best'
  | _, _ => best
  end.

(** The [while (written < k)] loop; [k] iterations are left. *)
Fixpoint top_loop (k : nat) (es : list Mode) (local : list Z) (cum target : Z) : list Mode :=
  match k with
  | O => []
  | S k =>
      match best_loop es local 0 None with
      | None => []
      | Some (b, m) =>
          let cum := u64 (cum + count m) in
          let local := <[b := 0]> local in
          m :: (if cum >=? target then [] else top_loop k es local cum target)
      end
  end.

Definition top_k_modes (k : nat) (coverage_target : double) (h : ExactHistogram) : list Mode :=
  if (total h =? 0) || (k =? 0)%nat then []
  else top_loop k (entries h) (count <$> entries h) 0
         (trunc (dmul coverage_target (of_Z (total h)))).

#[global] Opaque CAP MAX_SIZE.

(** ** What a histogram holds after a sequence of events *)

(** The sizes recorded: those below [MAX_SIZE]. *)
Definition trackable (l : list Z) : list Z := filter (λ s, s < MAX_SIZE) l.

(** The distinct sizes, in order of first occurrence. *)
Definition add_distinct (acc : list Z) (s : Z) : list Z :=
  if decide (s ∈ acc) then acc else acc ++ [s].
Definition distinct (l : list Z) : list Z := foldl add_distinct [] l.

Definition occ (s : Z) (l : list Z) : Z := Z.of_nat (length (filter (λ x, x = s) l)).

Definition hist_of (l : list Z) : ExactHistogram := foldl (λ h s, record s h) hist0 l.

(** The specification: the first [CAP] distinct sizes with their frequencies. *)
Definition hist_spec (l : list Z) : ExactHistogram :=
  let d := distinct (trackable l) in
  mkHist ((λ s, mkMode s (occ s l)) <$> take CAP d)
         (bool_decide (CAP < length d)%nat)
         (Z.of_nat (length (trackable l))).

Lemma distinct_snoc l s : distinct (l ++ [s]) = add_distinct (distinct l) s.
Proof. unfold distinct. by rewrite foldl_app. Qed.

Lemma elem_of_distinct l s : s ∈ distinct l <-> s ∈ l.
Proof.
  induction l as [|x l IH] using rev_ind; [done|].
  rewrite distinct_snoc. unfold add_distinct. case_decide; set_solver.
Qed.

Lemma NoDup_distinct l : NoDup (distinct l).
Proof.
  induction l as [|x l IH] using rev_ind; [constructor|].
  rewrite distinct_snoc. unfold add_distinct. case_decide; [done|].
  apply NoDup_app. split_and!; [done| |apply NoDup_singleton]. set_solver.
Qed.

Lemma trackable_snoc l s :
  trackable (l ++ [s]) = trackable l ++ (if s >=? MAX_SIZE then [] else [s]).
Proof.
  unfold trackable. rewrite filter_app, Z.geb_leb. f_equal.
  destruct (Z.leb_spec MAX_SIZE s); [rewrite filter_cons_False by lia|rewrite filter_cons_True by lia]; done.
Qed.

Lemma occ_snoc s x l : occ s (l ++ [x]) = occ s l + if decide (x = s) then 1 else 0.
Proof.
  unfold occ. rewrite filter_app, length_app. case_decide.
  - rewrite filter_cons_True by done. simpl. lia.
  - rewrite filter_cons_False by done. simpl. lia.
Qed.

Lemma occ_bound s l : 0 <= occ s l <= Z.of_nat (length l).
Proof. unfold occ. pose proof (length_filter (λ x, x = s) l). lia. Qed.

Lemma occ_zero s l : s ∉ l -> occ s l = 0.
Proof.
  intros Hs. unfold occ. assert (E : filter (λ x, x = s) l = []); [|by rewrite E].
  induction l as [|x l IH]; [done|]. rewrite filter_cons_False by set_solver. set_solver.
Qed.

Lemma occ_filter_lt s l : s < MAX_SIZE -> occ s (trackable l) = occ s l.
Proof.
  intros Hs. unfold occ, trackable. rewrite list_filter_filter. f_equal. f_equal.
  apply list_filter_iff. intros x. split; [tauto|]. intros ->. lia.
Qed.

(** The scan finds a tracked size and leaves the others. *)
Lemma bump_map sz (f : Z -> Z) d :
  NoDup d ->
  bump sz ((λ s, mkMode s (f s)) <$> d) =
  if decide (sz ∈ d)
  then Some ((λ s, mkMode s (if decide (s = sz) then u32 (f s + 1) else f s)) <$> d)
  else None.
Proof.
  induction d as [|x d IH]; intros Hnd; [done|]. inversion_clear Hnd as [|?? Hx Hd].
  csimpl. destruct (Z.eqb_spec x sz) as [->|Hne].
  - rewrite decide_True by set_solver. rewrite decide_True by done. do 2 f_equal.
    apply list_fmap_ext. intros i y Hy%list_elem_of_lookup_2. rewrite decide_False; [done|]. congruence.
  - rewrite IH by done. rewrite (decide_False (P := x = sz)) by done.
    destruct (decide (sz ∈ d)); [rewrite decide_True by set_solver; done|].
    rewrite decide_False by set_solver. done.
Qed.

Lemma trackable_length l : Z.of_nat (length (trackable l)) <= Z.of_nat (length l).
Proof. unfold trackable. pose proof (length_filter (λ s, s < MAX_SIZE) l). lia. Qed.

Lemma hist_of_snoc l s : hist_of (l ++ [s]) = record s (hist_of l).
Proof. unfold hist_of. by rewrite foldl_app. Qed.

Lemma take_app_full {A} n (l k : list A) : (n <= length l)%nat -> take n (l ++ k) = take n l.
Proof. intros. rewrite take_app. replace (n - length l)%nat with 0%nat by lia. by rewrite take_0, app_nil_r. Qed.

Lemma NoDup_take {A} k (l : list A) : NoDup l -> NoDup (take k l).
Proof. rewrite <- (take_drop k l) at 1. intros [H _]%NoDup_app. exact H. Qed.

(** Recording any sequence of events builds the specified table. *)
Lemma record_all l :
  Z.of_nat (length l) < 2 ^ 32 -> hist_of l = hist_spec l.
Proof.
  induction l as [|s l IH] using rev_ind; intros Hlen; [done|].
  rewrite length_app in Hlen. simpl in Hlen.
  rewrite hist_of_snoc, IH by lia. unfold hist_spec. rewrite trackable_snoc.
  unfold record. destruct (Z.geb_spec s MAX_SIZE) as [Hs|Hs].
  { rewrite app_nil_r. f_equal. apply list_fmap_ext.
    intros i x Hx%list_elem_of_lookup_2. f_equal. rewrite occ_snoc, decide_False; [lia|].
    intros ->. apply elem_of_take in Hx as (k & Hx%list_elem_of_lookup_2 & _).
    apply elem_of_distinct, list_elem_of_filter in Hx. lia. }
  cbn [entries overflow total].
  rewrite bump_map by (apply NoDup_take, NoDup_distinct).
  assert (Htot : u64 (Z.of_nat (length (trackable l)) + 1) = Z.of_nat (length (trackable l ++ [s]))).
  { rewrite length_app. simpl. pose proof (trackable_length l).
    rewrite u64_small; [lia|]. pow2. lia. }
  rewrite Htot. rewrite distinct_snoc. unfold add_distinct.
  assert (Hext : ∀ k, s ∉ take k (distinct (trackable l)) ->
    (λ x, mkMode x (occ x (l ++ [s]))) <$> take k (distinct (trackable l)) =
    (λ x, mkMode x (occ x l)) <$> take k (distinct (trackable l))).
  { intros k Hk. apply list_fmap_ext. intros i x Hx%list_elem_of_lookup_2.
    f_equal. rewrite occ_snoc, decide_False; [lia|]. congruence. }
  case_decide as Hin.
  - rewrite (decide_True (P := s ∈ distinct _))
      by (apply elem_of_take in Hin as (? & ?%list_elem_of_lookup_2 & _); done).
    f_equal. apply list_fmap_ext. intros i x _. f_equal. rewrite occ_snoc.
    case_decide; case_decide; try congruence; [|lia].
    rewrite u32_small; [done|]. pose proof (occ_bound x l). lia.
  - rewrite length_fmap, length_take. case_decide as Hd.
    + (* present, but beyond the capacity *)
      assert (Hlong : (CAP < length (distinct (trackable l)))%nat).
      { destruct (decide (length (distinct (trackable l)) <= CAP)%nat); [|lia].
        rewrite take_ge in Hin by done. done. }
      destruct (Nat.ltb_spec (CAP `min` length (distinct (trackable l))) CAP); [lia|].
      rewrite Hext by done. by rewrite bool_decide_true.
    + destruct (Nat.ltb_spec (CAP `min` length (distinct (trackable l))) CAP).
      * specialize (Hext CAP Hin). rewrite take_ge in Hext by lia.
        rewrite (take_ge (distinct (trackable l))) by lia.
        rewrite (take_ge (distinct (trackable l) ++ [s])) by (rewrite length_app; simpl; lia).
        rewrite fmap_app, Hext. csimpl.
        rewrite occ_snoc, decide_True by done. rewrite occ_zero.
        2:{ intros Hx. apply Hd, elem_of_distinct, list_elem_of_filter. done. }
        rewrite !bool_decide_false by (rewrite ?length_app; simpl; lia). done.
      * rewrite take_app_full by lia. rewrite Hext by done.
        rewrite bool_decide_true by (rewrite length_app; simpl; lia). done.
Qed.

(** ** Ranking and sorting *)

(** The order of the dominance scans: higher count first, then lower size. *)
Definition ranks (a b : Mode) : Prop :=
  count b < count a ∨ count a = count b ∧ size a <= size b.

#[export] Instance ranks_dec a b : Decision (ranks a b).
Proof. unfold ranks. apply _. Defined.
#[export] Instance ranks_total : Total ranks.
Proof. intros a b. unfold ranks. lia. Qed.
#[export] Instance ranks_trans : Transitive ranks.
Proof. intros a b c. unfold ranks. lia. Qed.
#[export] Instance ranks_antisymm : AntiSymm eq ranks.
Proof. intros [] []. unfold ranks. simpl. intros. f_equal; lia. Qed.
#[export] Instance ranks_refl : Reflexive ranks.
Proof. intros a. unfold ranks. lia. Qed.

Definition best_of (b : option (Z * Mode)) : option Mode := snd <$> b.

Lemma dominant_loop_spec l i best :
  match dominant_loop l i best with
  | None => l = [] ∧ best = None
  | Some (j, m) =>
      (best = Some (j, m) ∨ (i <= j /\ l !! Z.to_nat (j - i) = Some m)) ∧
      (∀ x, x ∈ l -> ranks m x) ∧ (∀ b, best_of best = Some b -> ranks m b)
  end.
Proof.
  revert i best. induction l as [|x l IH]; intros i best; simpl.
  { destruct best as [[j m]|]; [|done]. split_and!; [by left|set_solver|].
    intros b [= <-]. reflexivity. }
  specialize (IH (i + 1) (if beats x best then Some (i, x) else best)).
  destruct (dominant_loop l (i + 1) _) as [[j m]|] eqn:E.
  2:{ destruct IH as [_ H]. unfold beats in H. destruct best as [[]|]; [|done].
      by destruct (_ || _)%bool. }
  destruct IH as (Hj & Hl & Hb). destruct (beats x best) eqn:Ebeats.
  - specialize (Hb x eq_refl). split_and!.
    + right. destruct Hj as [[= <- <-]|[? Hj]].
      * by rewrite Z.sub_diag.
      * split; [lia|]. replace (Z.to_nat (j - i)) with (S (Z.to_nat (j - (i + 1)))) by lia. done.
    + intros y [->|Hy]%elem_of_cons; auto.
    + intros b Hbb. transitivity x; [done|]. destruct best as [[? b']|]; [|done].
      injection Hbb as <-. unfold beats in Ebeats. zb.
      destruct Ebeats as [Eb|Eb]; zb; unfold ranks; lia.
  - destruct best as [[k b]|]; [|done]. specialize (Hb b eq_refl). split_and!.
    + destruct Hj as [?|[? Hj]]; [by left|right]. split; [lia|].
      replace (Z.to_nat (j - i)) with (S (Z.to_nat (j - (i + 1)))) by lia. done.
    + intros y [->|Hy]%elem_of_cons; [|by auto]. transitivity b; [done|].
      unfold beats in Ebeats. apply orb_false_iff in Ebeats as [E1 E2]. zb.
      unfold ranks. destruct E2; zb; lia.
    + intros ? [= <-]. done.
Qed.

Lemma dominant_loop_hist h :
  match dominant_loop (entries h) 0 None with
  | None => entries h = []
  | Some (j, m) => entries h !! Z.to_nat j = Some m ∧ 0 <= j ∧ ∀ x, x ∈ entries h -> ranks m x
  end.
Proof.
  pose proof (dominant_loop_spec (entries h) 0 None) as H.
  destruct (dominant_loop _ _ _) as [[j m]|]; [|tauto].
  destruct H as ([?|[? H]] & ? & _); [done|]. rewrite Z.sub_0_r in H. done.
Qed.

(** The dominant entry is the head of the ranking. *)
Lemma dominant_ranked h :
  snd <$> dominant_loop (entries h) 0 None = head (merge_sort ranks (entries h)).
Proof.
  pose proof (dominant_loop_hist h) as H.
  pose proof (merge_sort_Permutation ranks (entries h)) as Hp.
  pose proof (StronglySorted_merge_sort ranks (entries h)) as Hs.
  destruct (dominant_loop _ _ _) as [[j m]|]; simpl.
  - destruct H as (Hm%list_elem_of_lookup_2 & _ & Hall).
    destruct (merge_sort ranks (entries h)) as [|x s].
    { rewrite <- Hp in Hm. by apply elem_of_nil in Hm. }
    simpl. f_equal. apply (anti_symm ranks).
    + apply Hall. rewrite <- Hp. set_solver.
    + apply StronglySorted_inv in Hs as [_ Hs]. rewrite <- Hp in Hm.
      apply elem_of_cons in Hm as [->|Hm]; [reflexivity|].
      rewrite Forall_forall in Hs. by apply Hs.
  - rewrite H in Hp |- *. done.
Qed.

(** *** Sorting by size *)

Definition by_size (a b : Mode) : Prop := size a <= size b.
#[export] Instance by_size_dec a b : Decision (by_size a b).
Proof. unfold by_size. apply _. Defined.
#[export] Instance by_size_total : Total by_size.
Proof. intros a b. unfold by_size. lia. Qed.
#[export] Instance by_size_trans : Transitive by_size.
Proof. intros a b c. unfold by_size. lia. Qed.

Lemma shift_insert_perm e rout : shift_insert e rout ≡ₚ e :: rout.
Proof.
  induction rout as [|o rest IH]; [done|]. simpl. case_match; [|done].
  rewrite IH. apply perm_swap.
Qed.

(** [rout] runs downwards. *)
Lemma shift_insert_sorted e rout :
  StronglySorted (flip by_size) rout -> StronglySorted (flip by_size) (shift_insert e rout).
Proof.
  induction rout as [|o rest IH]; simpl; intros Hs; [repeat constructor|].
  apply StronglySorted_inv in Hs as [Hs Ho].
  destruct (Z.gtb_spec (size o) (size e)) as [Hlt|Hge]; constructor.
  - by apply IH.
  - rewrite shift_insert_perm. constructor; [unfold flip, by_size; lia|done].
  - by constructor.
  - constructor; [done|]. eapply Forall_impl; [exact Ho|].
    unfold flip, by_size. intros. lia.
Qed.

Lemma StronglySorted_snoc {A} (R : relation A) l x :
  StronglySorted R l -> Forall (λ y, R y x) l -> StronglySorted R (l ++ [x]).
Proof.
  induction 1 as [|y l Hl IH Hy]; intros Hx; simpl; [repeat constructor|].
  inversion_clear Hx. constructor; [auto|]. apply Forall_app. auto.
Qed.

Lemma StronglySorted_reverse {A} (R : relation A) l :
  StronglySorted (flip R) l -> StronglySorted R (reverse l).
Proof.
  induction 1 as [|x l Hl IH Hx]; [constructor|]. rewrite reverse_cons.
  apply StronglySorted_snoc; [done|]. by rewrite reverse_Permutation.
Qed.

(** [sorted_modes] is a sorted permutation of the entries. *)
Lemma sorted_modes_spec h :
  (length (entries h) <= CAP)%nat ->
  sorted_modes h CAP ≡ₚ entries h ∧ StronglySorted by_size (sorted_modes h CAP).
Proof.
  intros Hcap. unfold sorted_modes. rewrite take_ge by done.
  set (f := λ rout e, shift_insert e rout).
  assert (H : ∀ l acc, StronglySorted (flip by_size) acc ->
    foldl f acc l ≡ₚ l ++ acc ∧ StronglySorted (flip by_size) (foldl f acc l)).
  { induction l as [|x l IH]; intros acc Hacc; [done|]. simpl.
    destruct (IH (f acc x)) as [Hp Hs]; [by apply shift_insert_sorted|].
    split; [|done]. rewrite Hp. unfold f. rewrite shift_insert_perm.
    by rewrite Permutation_middle. }
  destruct (H (entries h) []) as [Hp Hs]; [constructor|].
  rewrite app_nil_r in Hp. split; [by rewrite reverse_Permutation|].
  by apply StronglySorted_reverse.
Qed.

(** *** The multiset a table stands for *)

Definition expand (ms : list Mode) : list Z :=
  ms ≫= λ m, replicate (Z.to_nat (count m)) (size m).

#[export] Instance expand_perm : Proper ((≡ₚ) ==> (≡ₚ)) expand.
Proof. intros l l' H. unfold expand. by rewrite H. Qed.

Definition mass (ms : list Mode) : Z := foldr (λ m s, count m + s) 0 ms.

Lemma length_expand ms :
  Forall (λ m, 0 <= count m) ms -> Z.of_nat (length (expand ms)) = mass ms.
Proof.
  induction 1 as [|m ms Hm _ IH]; [done|]. unfold expand in *. csimpl.
  rewrite length_app, length_replicate. lia.
Qed.

(** The distinct values, each repeated as often as it occurs, are the list. *)
Lemma distinct_expand (l d : list Z) :
  NoDup d -> (∀ x, x ∈ l -> x ∈ d) ->
  expand ((λ s, mkMode s (occ s l)) <$> d) ≡ₚ l.
Proof.
  intros Hnd. induction l as [|x l IH]; intros Hin.
  { clear Hin Hnd. induction d as [|s d IHd]; [done|]. exact IHd. }
  transitivity (x :: expand ((λ s, mkMode s (occ s l)) <$> d));
    [|constructor; apply IH; set_solver].
  assert (Hx : x ∈ d) by set_solver.
  assert (Hocc : ∀ s, occ s (x :: l) = occ s l + if decide (x = s) then 1 else 0).
  { intros s. unfold occ. case_decide; [rewrite filter_cons_True by done|rewrite filter_cons_False by done];
    simpl; lia. }
  clear IH Hin. unfold expand. induction Hnd as [|s d Hs Hnd IH]; [by apply elem_of_nil in Hx|].
  csimpl. rewrite Hocc. case_decide as Hd.
  - subst s. replace (Z.to_nat (occ x l + 1)) with (S (Z.to_nat (occ x l)))
      by (pose proof (occ_bound x l); lia).
    simpl. constructor. f_equiv.
    rewrite (list_fmap_ext (λ s, mkMode s (occ s (x :: l))) (λ s, mkMode s (occ s l))); [done|].
    intros i y Hy%list_elem_of_lookup_2. f_equal. rewrite Hocc, decide_False; [lia|].
    intros ->. done.
  - rewrite IH by set_solver. rewrite Z.add_0_r. by rewrite Permutation_middle.
Qed.

Lemma expand_sorted ms :
  StronglySorted by_size ms -> StronglySorted Z.le (expand ms).
Proof.
  induction 1 as [|m ms Hms IH Hm]; [constructor|]. unfold expand in *. csimpl.
  induction (Z.to_nat (count m)) as [|n IHn]; [done|]. simpl. constructor; [done|].
  apply Forall_app. split.
  - apply Forall_replicate. lia.
  - apply Forall_forall. intros x Hx. apply list_elem_of_bind in Hx as (m' & Hx & Hm').
    apply elem_of_replicate in Hx as [-> _]. rewrite Forall_forall in Hm. by apply Hm.
Qed.

(** The cumulative walk reads the expanded list at the target. *)
Lemma quantile_loop_spec ms cum target :
  Forall (λ m, 0 <= count m) ms -> 0 <= cum <= target -> cum + mass ms < 2 ^ 64 ->
  quantile_loop ms cum target = expand ms !! Z.to_nat (target - cum).
Proof.
  intros Hms. revert cum. induction Hms as [|m ms Hm Hms IH]; intros cum Hcum Hlt; [done|].
  unfold expand in *. csimpl. simpl in Hlt.
  assert (0 <= mass ms) by (rewrite <- length_expand by done; lia).
  rewrite u64_small by lia. destruct (Z.gtb_spec (cum + count m) target).
  - rewrite lookup_app_l by (rewrite length_replicate; lia).
    rewrite lookup_replicate_2 by lia. done.
  - rewrite lookup_app_r by (rewrite length_replicate; lia).
    rewrite length_replicate, IH by lia. f_equal. lia.
Qed.

(** *** The ranked prefix of [top_k_modes] *)

(** The entries whose remaining count is not 0. *)
Definition live (es : list Mode) (local : list Z) : list Mode :=
  filter (λ m, count m ≠ 0) (zip_with (λ m c, mkMode (size m) c) es local).

Lemma live_cons m es c local :
  live (m :: es) (c :: local) =
  (if decide (c = 0) then [] else [mkMode (size m) c]) ++ live es local.
Proof.
  unfold live. simpl. case_decide.
  - by rewrite filter_cons_False by (simpl; lia).
  - by rewrite filter_cons_True by done.
Qed.

Lemma best_loop_spec es local i best :
  match best_loop es local i best with
  | None => best = None ∧ live es local = []
  | Some (j, m) =>
      Forall (ranks m) (live es local) ∧ (∀ b, best = Some b -> ranks m b.2) ∧
      (best = Some (j, m) ∨
       (i <= j)%nat ∧ live es local ≡ₚ m :: live es (<[(j - i)%nat := 0]> local))
  end.
Proof.
  revert local i best. induction es as [|e es IH]; intros [|c local] i best;
    try (simpl; destruct best as [[j m]|]; [|done]; split_and!;
         [constructor|intros ? [= <-]; reflexivity|by left]).
  simpl. set (best' := if c =? 0 then _ else _). specialize (IH local (S i) best').
  destruct (best_loop es local (S i) best') as [[j m]|].
  2:{ destruct IH as [Hn Hl]. subst best'. rewrite live_cons, Hl, app_nil_r.
      destruct (Z.eqb_spec c 0) as [->|].
      - by rewrite decide_True.
      - destruct best as [[]|]; [by destruct (_ || _)%bool|done]. }
  destruct IH as (Hall & Hbest & Hj). rewrite live_cons.
  assert (Hstep : (j = i ∧ m = mkMode (size e) c ∧ c ≠ 0 ∧ best' = Some (j, m)) ∨
    (best = Some (j, m) ∧ best' = best) ∨
    ((S i <= j)%nat ∧ live es local ≡ₚ m :: live es (<[(j - S i)%nat := 0]> local))).
  { destruct Hj as [Hj|Hj]; [|by right; right]. subst best'.
    destruct (Z.eqb_spec c 0); [by right; left|].
    destruct best as [[? b]|]; [|injection Hj as <- <-; by left].
    destruct (_ || _)%bool; [injection Hj as <- <-; by left|by right; left]. }
  assert (Hc : c ≠ 0 -> ranks m (mkMode (size e) c)).
  { intros Hc. subst best'. rewrite (proj2 (Z.eqb_neq c 0) Hc) in Hbest.
    destruct best as [[? b]|]; [|by apply (Hbest (i, _))].
    destruct (_ || _)%bool eqn:E; [by apply (Hbest (i, _))|].
    specialize (Hbest _ eq_refl). simpl in Hbest. transitivity b; [done|].
    apply orb_false_iff in E as [E1 E2]. zb. unfold ranks. simpl.
    destruct E2; zb; lia. }
  split_and!.
  - apply Forall_app. split; [|done]. case_decide; [constructor|]. constructor; auto.
  - intros b ->. subst best'. destruct (Z.eqb_spec c 0); [by apply Hbest|].
    destruct b as [k b]. simpl. destruct (_ || _)%bool eqn:E; [|by apply (Hbest (k, b))].
    specialize (Hbest _ eq_refl). simpl in Hbest. etransitivity; [exact Hbest|].
    apply orb_true_iff in E as [E|E]; zb; unfold ranks; simpl; lia.
  - destruct Hstep as [(-> & -> & Hne & _)|[[-> _]|[Hle Hp]]]; [right|by left|right].
    + split; [lia|]. rewrite Nat.sub_diag. simpl. rewrite live_cons.
      by rewrite decide_False, decide_True.
    + split; [lia|]. replace (j - i)%nat with (S (j - S i)) by lia. simpl.
      rewrite live_cons, Hp. by rewrite Permutation_middle.
Qed.

(** The entries taken from a ranked list: until [k] are written or the
    cumulative count reaches the target. *)
Fixpoint cover (k : nat) (cum target : Z) (l : list Mode) : list Mode :=
  match k, l with
  | S k, m :: l =>
      m :: (if cum + count m >=? target then [] else cover k (cum + count m) target l)
  | _, _ => []
  end.

Lemma mass_perm l l' : l ≡ₚ l' -> mass l = mass l'.
Proof. induction 1; simpl; lia. Qed.

Lemma mass_nonneg l : Forall (λ m, 0 <= count m) l -> 0 <= mass l.
Proof. induction 1; simpl; lia. Qed.

(** The ranked list is the unique sorted permutation. *)
Lemma ranked_unique l l' : l ≡ₚ l' -> StronglySorted ranks l' -> merge_sort ranks l = l'.
Proof.
  intros Hp Hs. apply (StronglySorted_unique ranks); [apply StronglySorted_merge_sort; apply _|done|].
  by rewrite merge_sort_Permutation.
Qed.

Lemma top_loop_spec k es local cum target :
  Forall (λ m, 0 <= count m) (live es local) -> 0 <= cum -> cum + mass (live es local) < 2 ^ 64 ->
  top_loop k es local cum target = cover k cum target (merge_sort ranks (live es local)).
Proof.
  revert local cum. induction k as [|k IH]; intros local cum Hnn Hcum Hlt; [done|].
  simpl. pose proof (best_loop_spec es local 0 None) as Hb.
  destruct (best_loop es local 0 None) as [[j m]|].
  2:{ by destruct Hb as [_ ->]. }
  destruct Hb as (Hall & _ & [?|[_ Hp]]); [done|]. rewrite Nat.sub_0_r in Hp.
  set (local' := <[j := 0]> local) in *.
  rewrite Hp in Hnn, Hall. apply Forall_cons in Hnn as [Hm Hnn], Hall as [_ Hall].
  rewrite (mass_perm _ _ Hp) in Hlt. simpl in Hlt. pose proof (mass_nonneg _ Hnn).
  rewrite u64_small by lia.
  rewrite (ranked_unique _ (m :: merge_sort ranks (live es local'))); simpl.
  - case_match; [done|]. rewrite IH; [done..|lia|lia].
  - by rewrite merge_sort_Permutation.
  - constructor; [apply StronglySorted_merge_sort; apply _|]. by rewrite merge_sort_Permutation.
Qed.

(** *** The table of a window *)

Section Window.
Context (l : list Z) (Hlen : Z.of_nat (length l) < 2 ^ 32).
Context (Hno : overflow (hist_of l) = false).

Lemma window_distinct : (length (distinct (trackable l)) <= CAP)%nat.
Proof.
  rewrite record_all in Hno by done. simpl in Hno.
  apply bool_decide_eq_false in Hno. lia.
Qed.

Lemma window_entries :
  entries (hist_of l) = (λ s, mkMode s (occ s (trackable l))) <$> distinct (trackable l).
Proof.
  rewrite record_all by done. simpl. rewrite take_ge by apply window_distinct.
  apply list_fmap_ext. intros i s Hs%list_elem_of_lookup_2.
  apply elem_of_distinct, list_elem_of_filter in Hs. by rewrite occ_filter_lt by apply Hs.
Qed.

Lemma window_total : total (hist_of l) = Z.of_nat (length (trackable l)).
Proof. by rewrite record_all. Qed.

Lemma window_cap : (length (entries (hist_of l)) <= CAP)%nat.
Proof. rewrite window_entries, length_fmap. apply window_distinct. Qed.

Lemma window_counts m : m ∈ entries (hist_of l) -> 0 < count m.
Proof.
  rewrite window_entries. intros (s & -> & Hs)%list_elem_of_fmap.
  rewrite elem_of_distinct in Hs. simpl. unfold occ.
  destruct (filter (λ x, x = s) (trackable l)) eqn:E; [|simpl; lia].
  exfalso. assert (Hs' : s ∈ filter (λ x, x = s) (trackable l)) by (apply list_elem_of_filter; done).
  rewrite E in Hs'. by apply elem_of_nil in Hs'.
Qed.

Lemma window_nonneg : Forall (λ m, 0 <= count m) (entries (hist_of l)).
Proof. apply Forall_forall. intros m Hm%window_counts. lia. Qed.

Lemma window_expand : expand (entries (hist_of l)) ≡ₚ trackable l.
Proof.
  rewrite window_entries. apply distinct_expand; [apply NoDup_distinct|].
  intros x. apply elem_of_distinct.
Qed.

Lemma window_mass : mass (entries (hist_of l)) = Z.of_nat (length (trackable l)).
Proof. rewrite <- length_expand by apply window_nonneg. by rewrite window_expand. Qed.

Lemma window_live : live (entries (hist_of l)) (count <$> entries (hist_of l)) = entries (hist_of l).
Proof.
  pose proof window_counts as Hc. revert Hc. generalize (entries (hist_of l)).
  induction l0 as [|[s c] es IH]; intros Hc; [done|]. csimpl. rewrite live_cons.
  assert (0 < c) by (apply (Hc (mkMode s c)); set_solver).
  rewrite decide_False by lia. simpl. f_equal. apply IH. intros. apply Hc. set_solver.
Qed.

Lemma window_sorted : expand (sorted_modes (hist_of l) CAP) = merge_sort Z.le (trackable l).
Proof.
  destruct (sorted_modes_spec (hist_of l) window_cap) as [Hp Hs].
  apply (StronglySorted_unique Z.le).
  - by apply expand_sorted.
  - apply StronglySorted_merge_sort; apply _.
  - by rewrite merge_sort_Permutation, Hp, window_expand.
Qed.
End Window.

Lemma window_top_k (l : list Z) (k : nat) (coverage : double) :
  Z.of_nat (length l) < 2 ^ 32 -> overflow (hist_of l) = false ->
  top_k_modes k coverage (hist_of l) =
  cover k 0 (trunc (dmul coverage (of_Z (Z.of_nat (length (trackable l))))))
    (merge_sort ranks ((λ s, mkMode s (occ s (trackable l))) <$> distinct (trackable l))).
Proof.
  intros Hlen Hno. unfold top_k_modes. rewrite window_total by done.
  destruct (Z.eqb_spec (Z.of_nat (length (trackable l))) 0) as [Hz|Hnz].
  { rewrite (nil_length_inv (trackable l)) by lia. by destruct k. }
  destruct k as [|k]; [done|]. cbn [orb Nat.eqb].
  pose proof (window_nonneg l Hlen Hno). pose proof (window_mass l Hlen Hno).
  pose proof (trackable_length l).
  rewrite top_loop_spec; rewrite ?window_live by done; [|done|lia|pow2; lia].
  by rewrite window_entries by done.
Qed.

Lemma occ_perm s l l' : l ≡ₚ l' -> occ s l = occ s l'.
Proof. intros H. unfold occ. by rewrite H. Qed.

Lemma distinct_perm l l' : l ≡ₚ l' -> distinct l ≡ₚ distinct l'.
Proof.
  intros H. apply NoDup_Permutation; [apply NoDup_distinct..|].
  intros x. by rewrite !elem_of_distinct, H.
Qed.

(** Two permuted windows hold the same entries. *)
Lemma window_perm l l' :
  Z.of_nat (length l) < 2 ^ 32 -> overflow (hist_of l) = false -> l ≡ₚ l' ->
  Z.of_nat (length l') < 2 ^ 32 ∧ overflow (hist_of l') = false ∧
  total (hist_of l') = total (hist_of l) ∧ entries (hist_of l') ≡ₚ entries (hist_of l).
Proof.
  intros Hlen Hno Hp. assert (Hlen' : Z.of_nat (length l') < 2 ^ 32) by by rewrite <- Hp.
  assert (Ht : trackable l ≡ₚ trackable l') by (unfold trackable; by rewrite Hp).
  assert (Hno' : overflow (hist_of l') = false).
  { pose proof (window_distinct l Hlen Hno) as Hd. rewrite record_all by done. simpl.
    apply bool_decide_eq_false. rewrite <- (distinct_perm _ _ Ht). lia. }
  split_and!; [done..| |].
  - rewrite !window_total by done. by rewrite Ht.
  - rewrite !window_entries by done. rewrite (distinct_perm _ _ Ht).
    apply Permutation_refl'. apply list_fmap_ext. intros. f_equal. by apply occ_perm.
Qed.

Lemma window_sorted_perm l l' :
  Z.of_nat (length l) < 2 ^ 32 -> overflow (hist_of l) = false -> l ≡ₚ l' ->
  sorted_modes (hist_of l') CAP = sorted_modes (hist_of l) CAP.
Proof.
  intros Hlen Hno Hp. destruct (window_perm l l' Hlen Hno Hp) as (Hlen' & Hno' & _ & He).
  destruct (sorted_modes_spec _ (window_cap l Hlen Hno)) as [Hp1 Hs1].
  destruct (sorted_modes_spec _ (window_cap l' Hlen' Hno')) as [Hp2 Hs2].
  apply (StronglySorted_unique_strong by_size); [|done..|by rewrite Hp2, Hp1].
  intros m1 m2. rewrite Hp2, Hp1, He, !window_entries by done.
  intros (s1 & -> & _)%list_elem_of_fmap (s2 & -> & _)%list_elem_of_fmap.
  unfold by_size. simpl. intros. by replace s2 with s1 by lia.
Qed.

(** ** Properties *)

(** A window that sees at most [CAP] distinct sizes answers quantile queries
    exactly: [quantile p] is the order statistic at index
    [(uint64_t)(p * (total - 1))] of all the recorded sizes in ascending order
    (the largest size when the index is past the end, 0 when nothing was
    recorded). *)
Theorem quantile_order_statistic (l : list Z) (p : double) :
  Z.of_nat (length l) < 2 ^ 32 -> overflow (hist_of l) = false ->
  0 <= trunc (dmul p (of_Z (Z.of_nat (length (trackable l)) - 1))) ->
  let sorted := merge_sort Z.le (trackable l) in
  quantile p (hist_of l) =
  default (default 0 (last sorted))
    (sorted !! Z.to_nat (trunc (dmul p (of_Z (Z.of_nat (length (trackable l)) - 1))))).
Proof.
  intros Hlen Hno Htarget sorted. unfold quantile. rewrite window_total by done.
  destruct (Z.eqb_spec (Z.of_nat (length (trackable l))) 0) as [Hz|Hnz].
  { subst sorted. by rewrite (nil_length_inv (trackable l)) by lia. }
  destruct (sorted_modes_spec _ (window_cap l Hlen Hno)) as [Hp Hs].
  rewrite quantile_loop_spec; [|rewrite Hp; by apply window_nonneg|lia|].
  2:{ rewrite (mass_perm _ _ Hp), window_mass by done.
      pose proof (trackable_length l). pow2. lia. }
  rewrite Z.sub_0_r, window_sorted by done. fold sorted.
  destruct (sorted !! _); [done|]. simpl.
  unfold sorted. rewrite <- window_sorted by done.
  assert (Hc : ∀ m, m ∈ sorted_modes (hist_of l) CAP -> 0 < count m).
  { intros m. rewrite Hp. by apply window_counts. }
  destruct (sorted_modes (hist_of l) CAP) as [|m ms] using rev_ind; [done|].
  rewrite last_snoc. unfold expand. rewrite bind_app. csimpl. rewrite app_nil_r.
  specialize (Hc m). assert (0 < count m) by (apply Hc; set_solver).
  destruct (Z.to_nat (count m)) as [|n] eqn:E; [lia|].
  rewrite replicate_S_end, app_assoc, last_snoc. done.
Qed.

Lemma quantile_order_statistic_witness :
  quantile (literal 1 2) (hist_of [16; 16; 32; 5000; 8]) = 16.
Proof.
  etransitivity.
  - apply (quantile_order_statistic [16; 16; 32; 5000; 8] (literal 1 2));
      [done|done|vm_compute; discriminate].
  - vm_compute. reflexivity.
Defined.

(** The dominant size of a window is a most frequent recorded size, and the
    smallest such. *)
Theorem dominant_size_most_frequent (l : list Z) (s : Z) :
  Z.of_nat (length l) < 2 ^ 32 -> overflow (hist_of l) = false ->
  s ∈ trackable l ->
  let d := dominant_size (hist_of l) in
  d ∈ trackable l ∧ occ s (trackable l) <= occ d (trackable l) ∧
  (occ s (trackable l) = occ d (trackable l) -> d <= s).
Proof.
  intros Hlen Hno Hs. unfold dominant_size.
  pose proof (dominant_loop_hist (hist_of l)) as H.
  assert (Hin : mkMode s (occ s (trackable l)) ∈ entries (hist_of l)).
  { rewrite window_entries by done. apply list_elem_of_fmap. exists s.
    by rewrite elem_of_distinct. }
  destruct (dominant_loop _ _ _) as [[j m]|]; [|by rewrite H in Hin; apply elem_of_nil in Hin].
  destruct H as (Hm%list_elem_of_lookup_2 & _ & Hall). specialize (Hall _ Hin).
  rewrite window_entries in Hm by done. apply list_elem_of_fmap in Hm as (d & -> & Hd).
  rewrite elem_of_distinct in Hd. simpl. unfold ranks in Hall. simpl in Hall.
  split_and!; [done|lia|lia].
Qed.

Lemma dominant_size_most_frequent_witness :
  dominant_size (hist_of [64; 16; 16; 64; 8]) = 16 ∧
  occ 8 [64; 16; 16; 64; 8] <= occ 16 [64; 16; 16; 64; 8].
Proof.
  split; [vm_compute; reflexivity|].
  refine (proj1 (proj2 (dominant_size_most_frequent [64; 16; 16; 64; 8] 8 _ _ _)));
    [done|done|apply list_elem_of_filter; split; [done|set_solver]].
Defined.

(** [top_k_modes] returns the ranked distinct sizes with their frequencies,
    by falling frequency and rising size, cut where [k] are written or their
    cumulative frequency reaches [(uint64_t)(coverage * total)]. *)
Theorem top_k_modes_ranked_prefix (l : list Z) (k : nat) (coverage : double) :
  Z.of_nat (length l) < 2 ^ 32 -> overflow (hist_of l) = false ->
  top_k_modes k coverage (hist_of l) =
  cover k 0 (trunc (dmul coverage (of_Z (Z.of_nat (length (trackable l))))))
    (merge_sort ranks ((λ s, mkMode s (occ s (trackable l))) <$> distinct (trackable l))).
Proof. apply window_top_k. Qed.

Lemma top_k_modes_ranked_prefix_witness :
  top_k_modes 4 (literal 3 5) (hist_of [32; 16; 8; 8; 16; 64; 8]) = [mkMode 8 3; mkMode 16 2].
Proof.
  rewrite top_k_modes_ranked_prefix; [vm_compute; reflexivity|done|done].
Defined.

(** The events of a window may arrive in any order (the ring interleaves
    threads): two windows that are permutations of one another, with at most
    [CAP] distinct sizes, sort to the same modes, and so agree on every query. *)
Theorem window_order_irrelevant (l l' : list Z) :
  Z.of_nat (length l) < 2 ^ 32 -> overflow (hist_of l) = false -> l ≡ₚ l' ->
  overflow (hist_of l') = false ∧
  total (hist_of l') = total (hist_of l) ∧
  sorted_modes (hist_of l') CAP = sorted_modes (hist_of l) CAP ∧
  dominant_size (hist_of l') = dominant_size (hist_of l) ∧
  (∀ k c, top_k_modes k c (hist_of l') = top_k_modes k c (hist_of l)).
Proof.
  intros Hlen Hno Hp. destruct (window_perm l l' Hlen Hno Hp) as (Hlen' & Hno' & Htot & He).
  assert (Hr : merge_sort ranks (entries (hist_of l')) = merge_sort ranks (entries (hist_of l))).
  { apply ranked_unique; [by rewrite merge_sort_Permutation|apply StronglySorted_merge_sort; apply _]. }
  split_and!; [done..| | |].
  - by apply window_sorted_perm.
  - unfold dominant_size. pose proof (dominant_ranked (hist_of l')) as H'.
    rewrite Hr, <- dominant_ranked in H'.
    by destruct (dominant_loop (entries (hist_of l')) _ _) as [[]|],
      (dominant_loop (entries (hist_of l)) _ _) as [[]|]; simplify_eq/=.
  - intros k c. rewrite !window_top_k by done. rewrite <- !window_entries by done. rewrite Hr.
    by rewrite <- !window_total, Htot by done.
Qed.

Lemma window_order_irrelevant_witness :
  sorted_modes (hist_of [8; 16; 8]) CAP = sorted_modes (hist_of [16; 8; 8]) CAP.
Proof.
  apply (window_order_irrelevant [16; 8; 8] [8; 16; 8]); [done|done|apply perm_swap].
Defined.
