(* ===== verification/Ks.v ===== *)
(** * The two-sample Kolmogorov-Smirnov test ([src/src/analysis/ks_test.h])

    [ks_stable] walks the two sorted histograms in double precision.  The test
    is symmetric, and never rejects two windows that hold the same sizes. *)

From S2P Require Import Prelude Double Histogram.
From Stdlib Require Import SpecFloat.

(** [while (i < na && sa[i].size == size) { cum_a += sa[i].count / n_a; ++i; }] *)
Fixpoint advance (sz : Z) (n : double) (l : list Mode) (cum : double) : list Mode * double :=
  match l with
  | m :: l' =>
      if size m =? sz then advance sz n l' (dadd cum (ddiv (of_Z (count m)) n)) else (l, cum)
  | [] => (l, cum)
  end.

(** The next size of the merge, [None] when both lists are exhausted. *)
Definition next_size (sa sb : list Mode) : option Z :=
  match sa, sb with
  | [], [] => None
  | [], b :: _ => Some (size b)
  | a :: _, [] => Some (size a)
  | a :: _, b :: _ => Some (if size a <? size b then size a else size b)
  end.

(** [d = cum_a > cum_b ? cum_a - cum_b : cum_b - cum_a] and
    [if (d > max_d) max_d = d]. *)
Definition gap (cum_a cum_b : double) : double :=
  if dltb cum_b cum_a then dsub cum_a cum_b else dsub cum_b cum_a.
Definition raise (max_d d : double) : double := if dltb max_d d then d else max_d.

(** The merge walk; every iteration consumes an entry, so [fuel] is the number
    of entries. *)
Fixpoint ks_loop (fuel : nat) (n_a n_b : double) (sa sb : list Mode) (cum_a cum_b max_d : double)
  : double :=
  match fuel, next_size sa sb with
  | S fuel, Some sz =>
      let (sa, cum_a) := advance sz n_a sa cum_a in
      let (sb, cum_b) := advance sz n_b sb cum_b in
      ks_loop fuel n_a n_b sa sb cum_a cum_b (raise max_d (gap cum_a cum_b))
  | _, _ => max_d
  end.

Definition max_gap (a b : ExactHistogram) : double :=
  let sa := sorted_modes a CAP in
  let sb := sorted_modes b CAP in
  ks_loop (length sa + length sb) (of_Z (total a)) (of_Z (total b)) sa sb dzero dzero dzero.

Definition c_alpha (alpha : double) : double :=
  if dleb alpha (literal 1 100) then literal 16276 10000
  else if dleb alpha (literal 5 100) then literal 13581 10000
  else literal 12239 10000.

Definition critical (alpha n_a n_b : double) : double :=
  dmul (c_alpha alpha) (dsqrt (ddiv (dadd n_a n_b) (dmul n_a n_b))).

Definition ks_stable (a b : ExactHistogram) (alpha : double) : bool :=
  if (total a =? 0) || (total b =? 0) then false
  else if overflow a || overflow b then false
  else dltb (max_gap a b) (critical alpha (of_Z (total a)) (of_Z (total b))).

(** ** The fuel is enough: a walk that ends has consumed both lists *)

Lemma advance_length sz n l cum : (length (advance sz n l cum).1 <= length l)%nat.
Proof.
  revert cum. induction l as [|m l IH]; intros cum; simpl; [lia|].
  case_match; simpl; [etrans; [apply IH|lia]|lia].
Qed.

Lemma advance_head sz n m l cum :
  size m = sz -> (length (advance sz n (m :: l) cum).1 <= length l)%nat.
Proof. intros <-. simpl. rewrite Z.eqb_refl. apply advance_length. Qed.

Lemma next_size_progress sz n n' sa sb cum cum' :
  next_size sa sb = Some sz ->
  (length (advance sz n sa cum).1 + length (advance sz n' sb cum').1 < length sa + length sb)%nat.
Proof.
  pose proof (advance_length sz n sa cum). pose proof (advance_length sz n' sb cum').
  destruct sa as [|a sa], sb as [|b sb]; simpl next_size; intros E; simplify_eq.
  - pose proof (advance_head (size b) n' b sb cum' eq_refl). simpl length in *. lia.
  - pose proof (advance_head (size a) n a sa cum eq_refl). simpl length in *. lia.
  - destruct (size a <? size b).
    + pose proof (advance_head (size a) n a sa cum eq_refl). simpl length in *. lia.
    + pose proof (advance_head (size b) n' b sb cum' eq_refl). simpl length in *. lia.
Qed.

(** Any fuel at least the number of entries gives the same walk. *)
Lemma ks_loop_fuel f f' n_a n_b sa sb ca cb d :
  (length sa + length sb <= f)%nat -> (length sa + length sb <= f')%nat ->
  ks_loop f n_a n_b sa sb ca cb d = ks_loop f' n_a n_b sa sb ca cb d.
Proof.
  revert f' sa sb ca cb d. induction f as [|f IH]; intros f' sa sb ca cb d Hf Hf'.
  { destruct sa, sb; simpl in Hf; try lia. by destruct f'. }
  destruct (next_size sa sb) as [sz|] eqn:E; [|simpl; rewrite E; by destruct f'; simpl; rewrite ?E].
  pose proof (next_size_progress sz n_a n_b sa sb ca cb E) as Hp.
  destruct f' as [|f']; [destruct sa, sb; simpl in *; (done || lia)|]. simpl. rewrite E.
  destruct (advance sz n_a sa ca) as [sa' ca'], (advance sz n_b sb cb) as [sb' cb'].
  simpl in Hp. apply IH; lia.
Qed.

(** ** Symmetry *)

Lemma compare_swap a b : SFcompare b a = option_map CompOpp (SFcompare a b).
Proof.
  destruct a as [[]|[]| |[] m e], b as [[]|[]| |[] m' e']; simpl; try done;
    rewrite (Z.compare_antisym e e'); destruct (e ?= e') eqn:E; simpl; try done;
    change (Pos.compare_cont Eq m' m) with (m' ?= m)%positive;
    change (Pos.compare_cont Eq m m') with (m ?= m')%positive;
    rewrite (Pos.compare_antisym m m'); by destruct (m ?= m')%positive.
Qed.

Lemma compare_eq a b :
  SFcompare a b = Some Eq ->
  a = b ∨ ∃ s s', a = S754_zero s ∧ b = S754_zero s'.
Proof.
  destruct a as [s|[]| |[] m e], b as [s'|[]| |[] m' e']; simpl; try done; try (right; by eauto);
    try (by left); destruct (Z.compare_spec e e'); try done; subst;
    change (Pos.compare_cont Eq m m') with (m ?= m')%positive;
    destruct (Pos.compare_spec m m'); simpl; try done; subst; by left.
Qed.

Lemma compare_none a b :
  SFcompare a b = None -> a = S754_nan ∨ b = S754_nan.
Proof.
  destruct a as [[]|[]| |[] m e], b as [[]|[]| |[] m' e']; simpl; try done; auto;
    by destruct (e ?= e'); try destruct (Pos.compare_cont _ _ _).
Qed.

Lemma dsub_nan a b : a = S754_nan ∨ b = S754_nan -> dsub a b = S754_nan.
Proof. intros [->| ->]; [by destruct b as [[]|[]| |]|by destruct a as [[]|[]| |]]. Qed.

(** The running maximum is never negative; a zero gap of either sign leaves it. *)
Lemma raise_nonneg d g : dltb d dzero = false -> dltb (raise d g) dzero = false.
Proof.
  intros Hd. unfold raise. destruct (dltb d g) eqn:E; [|done].
  destruct d as [[]|[]| |[]], g as [[]|[]| |[]]; done.
Qed.

Lemma raise_gap_comm d a b :
  dltb d dzero = false -> raise d (gap a b) = raise d (gap b a).
Proof.
  intros Hd.
  unfold gap, dltb, SFltb. rewrite (compare_swap a b).
  destruct (SFcompare a b) as [[]|] eqn:E; simpl; try done.
  - apply compare_eq in E as [->|(s & s' & -> & ->)]; [done|].
    unfold raise. destruct s, s', d as [[]|[]| |[]]; done.
  - apply compare_none in E. by rewrite !dsub_nan by tauto.
Qed.

Lemma next_size_comm sa sb : next_size sa sb = next_size sb sa.
Proof.
  destruct sa as [|a sa], sb as [|b sb]; simpl; try done. f_equal.
  destruct (Z.ltb_spec (size a) (size b)), (Z.ltb_spec (size b) (size a)); lia.
Qed.

Lemma ks_loop_comm f n_a n_b sa sb ca cb d :
  dltb d dzero = false ->
  ks_loop f n_a n_b sa sb ca cb d = ks_loop f n_b n_a sb sa cb ca d.
Proof.
  revert sa sb ca cb d. induction f as [|f IH]; intros sa sb ca cb d Hd; [done|]. simpl.
  rewrite next_size_comm. destruct (next_size sb sa) as [sz|]; [|done].
  destruct (advance sz n_a sa ca), (advance sz n_b sb cb).
  by rewrite IH, raise_gap_comm by (try apply raise_nonneg; done).
Qed.

Lemma dmul_comm a b : dmul a b = dmul b a.
Proof.
  destruct a as [[]|[]| |[] m e], b as [[]|[]| |[] m' e']; try done;
    unfold dmul, SFmul; by rewrite Pos.mul_comm, Z.add_comm.
Qed.

Lemma dadd_comm a b : dadd a b = dadd b a.
Proof.
  destruct a as [[]|[]| |[] m e], b as [[]|[]| |[] m' e']; try done;
    unfold dadd, SFadd; rewrite Z.min_comm; f_equal; apply Z.add_comm.
Qed.

(** ** Reflexivity *)

Lemma raise_self a : raise dzero (gap a a) = dzero.
Proof.
  assert (gap a a = dzero ∨ gap a a = S754_nan) as [-> | ->]; [|done..].
  unfold gap. destruct (dltb a a); apply dsub_self.
Qed.

Lemma ks_loop_self f n s c : ks_loop f n n s s c c dzero = dzero.
Proof.
  revert s c. induction f as [|f IH]; intros; [done|]. simpl.
  destruct (next_size s s) as [sz|]; [|done].
  destruct (advance sz n s c). by rewrite raise_self, IH.
Qed.

Lemma literal_critical alpha : between (c_alpha alpha) 1 1.
Proof.
  unfold c_alpha. destruct (dleb alpha _); [|destruct (dleb alpha _)];
    (eexists; split; [|split; reflexivity]);
    (eexists; split; [vm_compute; reflexivity|]); unfold digits_are; lia.
Qed.

(** The critical value is a positive double. *)
Lemma critical_positive alpha n m :
  0 < n < 2 ^ 64 -> 0 < m < 2 ^ 64 -> dltb dzero (critical alpha (of_Z n) (of_Z m)) = true.
Proof.
  intros Hn Hm. pose proof (log2_u64 n Hn). pose proof (log2_u64 m Hm).
  destruct (of_Z_normal n Hn) as (k & Hk & ?), (of_Z_normal m Hm) as (l & Hl & ?).
  destruct (dadd_normal _ _ _ _ Hk Hl) as (s & Hs & ?); [lia..|].
  destruct (dmul_normal _ _ _ _ Hk Hl) as (p & Hp & ?); [lia..|].
  destruct (ddiv_normal _ _ _ _ Hs Hp) as (q & Hq & ?); [lia..|].
  destruct (dsqrt_normal _ _ Hq) as (r & Hr & Hrr); [lia|].
  destruct (literal_critical alpha) as (c & Hc & ?). rewrite Z.div2_div in Hrr.
  destruct (dmul_normal _ _ _ _ Hc Hr) as (x & Hx & _).
  - lia.
  - pose proof (Z.div_mod (q + 1) 2). pose proof (Z.mod_pos_bound (q + 1) 2). lia.
  - by eapply zero_lt_normal.
Qed.


(** A reordered window: the gap is zero and the critical value is positive. *)
Lemma permuted_windows_stable (l l' : list Z) (alpha : double) :
  Z.of_nat (length l) < 2 ^ 32 -> overflow (hist_of l) = false ->
  trackable l ≠ [] -> l ≡ₚ l' ->
  ks_stable (hist_of l) (hist_of l') alpha = true.
Proof.
  intros Hlen Hno Hne Hp.
  destruct (window_perm l l' Hlen Hno Hp) as (Hlen' & Hno' & Htot & _).
  assert (Hpos : 0 < total (hist_of l) < 2 ^ 64).
  { rewrite window_total by done. pose proof (trackable_length l).
    destruct (trackable l); [done|]. simpl length in *. pow2. lia. }
  unfold ks_stable. rewrite Htot, Hno, Hno', (proj2 (Z.eqb_neq _ 0)) by lia. simpl orb. cbv iota.
  unfold max_gap. rewrite Htot, (window_sorted_perm l l') by done.
  rewrite ks_loop_self. by apply critical_positive.
Qed.

(** ** Properties *)

(** The test does not depend on which window is the first. *)
Theorem ks_stable_symmetric (a b : ExactHistogram) (alpha : double) :
  ks_stable a b alpha = ks_stable b a alpha.
Proof.
  unfold ks_stable, max_gap, critical.
  rewrite (orb_comm (total a =? 0)), (orb_comm (overflow a)).
  do 2 (case_match; [done|]). rewrite ks_loop_comm by done. rewrite Nat.add_comm.
  by rewrite (dadd_comm (of_Z (total a))), (dmul_comm (of_Z (total a))).
Qed.

(** A window is never told apart from a reordering of itself: at every
    significance level, the test finishes with a gap of zero below a positive
    critical value. *)
Theorem ks_permuted_windows_stable (l l' : list Z) (alpha : double) :
  Z.of_nat (length l) < 2 ^ 32 -> overflow (hist_of l) = false ->
  trackable l ≠ [] -> l ≡ₚ l' ->
  ks_stable (hist_of l) (hist_of l') alpha = true.
Proof. apply permuted_windows_stable. Qed.
Lemma ks_permuted_windows_stable_witness :
  ks_stable (hist_of [8; 16; 8]) (hist_of [8; 8; 16]) (literal 5 100) = true.
Proof.
  apply (ks_permuted_windows_stable [8; 16; 8] [8; 8; 16]); [done|done|done|].
  constructor. apply perm_swap.
Defined.
