(* ===== verification/X86.v ===== *)
(** * The x86-64 subset the emitter targets

    A byte-level decoder and an interpreter for the instructions the JIT writes.
    The machine has the eight legacy registers, the two flags the branches read,
    a byte-addressed memory and an [fs] base; the code page is a list of bytes
    mapped read-execute, so no store reaches it.  A [call] leaves the page: its
    effect is a parameter [callee], constrained by the calling convention
    ([SysV]) where a theorem needs it. *)

From S2P Require Import Prelude.
From S2P Require Export Bytes.

(** Sign extension of a [w]-bit value to 64 bits. *)
Definition sext (w v : Z) : Z := u64 (if v <? 2 ^ (w - 1) then v else v - 2 ^ w).

(** ** Memory *)

Abbreviation memory := (gmap Z Z) (only parsing).

Definition load64 (m : memory) (a : Z) : Z :=
  le_combine ((λ k, arr 0 m (u64 (a + Z.of_nat k))) <$> seq 0 8).

Definition store_bytes (m : memory) (a : Z) (l : list Z) : memory :=
  foldl (λ m kb, <[u64 (a + Z.of_nat kb.1) := kb.2]> m) m (zip (seq 0 (length l)) l).

Definition store64 (m : memory) (a v : Z) : memory := store_bytes m a (le_bytes 8 v).

(** ** Instructions *)

Inductive reg := RAX | RCX | RDX | RBX | RSP | RBP | RSI | RDI.
Inductive cond := AE | EQ | NE.
Inductive operand :=
  | FsAbs (disp : Z)   (** [fs:[disp32]] *)
  | Ind (r : reg).     (** [[r]] *)

Inductive instr :=
  | CmpRI (r : reg) (imm : Z)
  | AddRI (r : reg) (imm : Z)
  | SubRI (r : reg) (imm : Z)
  | CmpRM (r : reg) (a : operand)
  | MovRM (r : reg) (a : operand)
  | MovMR (a : operand) (r : reg)
  | Lea (r b : reg) (disp : Z)
  | TestRR (a b : reg)
  | MovRI (r : reg) (imm : Z)
  | Push (r : reg)
  | Pop (r : reg)
  | Ret
  | Jcc (c : cond) (rel : Z)
  | CallR (r : reg)
  | JmpR (r : reg).

#[export] Instance reg_eq_dec : EqDecision reg.
Proof. solve_decision. Defined.
#[export] Instance operand_eq_dec : EqDecision operand.
Proof. solve_decision. Defined.
#[export] Instance cond_eq_dec : EqDecision cond.
Proof. solve_decision. Defined.
#[export] Instance instr_eq_dec : EqDecision instr.
Proof. solve_decision. Defined.

(** ** Decoding *)

Definition reg_of (n : Z) : reg :=
  match n with
  | 0 => RAX | 1 => RCX | 2 => RDX | 3 => RBX
  | 4 => RSP | 5 => RBP | 6 => RSI | _ => RDI
  end.

(** The fields of a ModRM byte. *)
Definition mod_ (b : Z) : Z := b / 64.
Definition reg_ (b : Z) : Z := b / 8 mod 8.
Definition rm_ (b : Z) : Z := b mod 8.

(** A memory operand after the opcode: an absolute 32-bit displacement in the
    [fs] segment (mod 0, rm 4, SIB 0x25), or a bare register (mod 0) without a
    segment prefix.  The operand, the [reg] field and the bytes consumed. *)
Definition decode_mem (fs : bool) (bs : list Z) : option (operand * reg * nat) :=
  match fs, bs with
  | true, m :: s :: d0 :: d1 :: d2 :: d3 :: _ =>
      if (mod_ m =? 0) && (rm_ m =? 4) && (s =? 0x25)
      then Some (FsAbs (sext 32 (le_combine [d0; d1; d2; d3])), reg_of (reg_ m), 6%nat)
      else None
  | false, m :: _ =>
      if (mod_ m =? 0) && negb (rm_ m =? 4) && negb (rm_ m =? 5)
      then Some (Ind (reg_of (rm_ m)), reg_of (reg_ m), 1%nat)
      else None
  | _, _ => None
  end.

(** The instructions with a REX.W prefix, after it. *)
Definition decode_w (fs : bool) (bs : list Z) : option (instr * nat) :=
  match bs with
  | 0x81 :: m :: d0 :: d1 :: d2 :: d3 :: _ =>
      if (mod_ m =? 3) && (reg_ m =? 7)
      then Some (CmpRI (reg_of (rm_ m)) (sext 32 (le_combine [d0; d1; d2; d3])), 6%nat)
      else None
  | 0x83 :: m :: d0 :: _ =>
      if mod_ m =? 3
      then match reg_ m with
           | 0 => Some (AddRI (reg_of (rm_ m)) (sext 8 d0), 3%nat)
           | 5 => Some (SubRI (reg_of (rm_ m)) (sext 8 d0), 3%nat)
           | 7 => Some (CmpRI (reg_of (rm_ m)) (sext 8 d0), 3%nat)
           | _ => None
           end
      else None
  | 0x8B :: bs =>
      match decode_mem fs bs with Some (a, r, n) => Some (MovRM r a, S n) | None => None end
  | 0x89 :: bs =>
      match decode_mem fs bs with Some (a, r, n) => Some (MovMR a r, S n) | None => None end
  | 0x3B :: bs =>
      match decode_mem fs bs with Some (a, r, n) => Some (CmpRM r a, S n) | None => None end
  | 0x85 :: m :: _ =>
      if mod_ m =? 3 then Some (TestRR (reg_of (rm_ m)) (reg_of (reg_ m)), 2%nat) else None
  | 0x8D :: m :: d0 :: bs =>
      if rm_ m =? 4 then None else
      match mod_ m, bs with
      | 1, _ => Some (Lea (reg_of (reg_ m)) (reg_of (rm_ m)) (sext 8 d0), 3%nat)
      | 2, d1 :: d2 :: d3 :: _ =>
          Some (Lea (reg_of (reg_ m)) (reg_of (rm_ m)) (sext 32 (le_combine [d0; d1; d2; d3])), 6%nat)
      | _, _ => None
      end
  | op :: d0 :: d1 :: d2 :: d3 :: d4 :: d5 :: d6 :: d7 :: _ =>
      if op / 8 =? 0x17
      then Some (MovRI (reg_of (op mod 8)) (le_combine [d0; d1; d2; d3; d4; d5; d6; d7]), 9%nat)
      else None
  | _ => None
  end.

(** The instructions without a prefix. *)
Definition decode_n (bs : list Z) : option (instr * nat) :=
  match bs with
  | 0xC3 :: _ => Some (Ret, 1%nat)
  | 0x73 :: d :: _ => Some (Jcc AE (sext 8 d), 2%nat)
  | 0x74 :: d :: _ => Some (Jcc EQ (sext 8 d), 2%nat)
  | 0x75 :: d :: _ => Some (Jcc NE (sext 8 d), 2%nat)
  | 0xFF :: m :: _ =>
      if mod_ m =? 3
      then match reg_ m with
           | 2 => Some (CallR (reg_of (rm_ m)), 2%nat)
           | 4 => Some (JmpR (reg_of (rm_ m)), 2%nat)
           | _ => None
           end
      else None
  | op :: bs =>
      if op / 8 =? 0x0A then Some (Push (reg_of (op mod 8)), 1%nat)
      else if op / 8 =? 0x0B then Some (Pop (reg_of (op mod 8)), 1%nat)
      else if op / 8 =? 0x17 then
        match bs with
        | d0 :: d1 :: d2 :: d3 :: _ =>
            Some (MovRI (reg_of (op mod 8)) (le_combine [d0; d1; d2; d3]), 5%nat)
        | _ => None
        end
      else None
  | [] => None
  end.

Definition add_length (n : nat) (r : option (instr * nat)) : option (instr * nat) :=
  match r with Some (i, k) => Some (i, (n + k)%nat) | None => None end.

(** [0x64] selects the [fs] segment, [0x48] is REX.W. *)
Definition decode (bs : list Z) : option (instr * nat) :=
  match bs with
  | 0x64 :: 0x48 :: bs => add_length 2 (decode_w true bs)
  | 0x48 :: bs => add_length 1 (decode_w false bs)
  | _ => decode_n bs
  end.

(** ** Execution *)

Record cpu := mkCpu {
  rax : Z; rcx : Z; rdx : Z; rbx : Z; rsp : Z; rbp : Z; rsi : Z; rdi : Z;
  zf : bool; cf : bool;
  mem : memory;
}.

Definition get (r : reg) (c : cpu) : Z :=
  match r with
  | RAX => rax c | RCX => rcx c | RDX => rdx c | RBX => rbx c
  | RSP => rsp c | RBP => rbp c | RSI => rsi c | RDI => rdi c
  end.

Definition set (r : reg) (v : Z) (c : cpu) : cpu :=
  let 'mkCpu a cc d b s bp si di z f m := c in
  match r with
  | RAX => mkCpu v cc d b s bp si di z f m
  | RCX => mkCpu a v d b s bp si di z f m
  | RDX => mkCpu a cc v b s bp si di z f m
  | RBX => mkCpu a cc d v s bp si di z f m
  | RSP => mkCpu a cc d b v bp si di z f m
  | RBP => mkCpu a cc d b s v si di z f m
  | RSI => mkCpu a cc d b s bp v di z f m
  | RDI => mkCpu a cc d b s bp si v z f m
  end.

Definition set_flags (z f : bool) (c : cpu) : cpu :=
  let 'mkCpu a cc d b s bp si di _ _ m := c in mkCpu a cc d b s bp si di z f m.
Definition set_mem (m : memory) (c : cpu) : cpu :=
  let 'mkCpu a cc d b s bp si di z f _ := c in mkCpu a cc d b s bp si di z f m.

(** The flags of [a - b]. *)
Definition compare (a b : Z) (c : cpu) : cpu := set_flags (a =? b) (a <? b) c.

Section Machine.
Context (fs_base : Z) (callee : Z -> cpu -> cpu).
(** The page: its address and bytes. *)
Context (page : Z) (code : list Z).

Definition address (a : operand) (c : cpu) : Z :=
  match a with
  | FsAbs d => u64 (fs_base + d)
  | Ind r => get r c
  end.

Definition holds (cc : cond) (c : cpu) : bool :=
  match cc with AE => negb (cf c) | EQ => zf c | NE => negb (zf c) end.

Definition push64 (v : Z) (c : cpu) : cpu :=
  let sp := u64 (rsp c - 8) in
  set RSP sp (set_mem (store64 (mem c) sp v) c).

(** A call the page makes: target, the three argument registers, and the stack
    pointer at the [call] instruction. *)
Record call := mkCall {
  target : Z; arg0 : Z; arg1 : Z; arg2 : Z; call_rsp : Z;
}.

(** What one instruction at offset [pc], ending at [next], does. *)
Inductive effect :=
  | Goto (pc : Z) (c : cpu)
  | Called (k : call) (pc : Z) (c : cpu)
  | Return (addr : Z) (c : cpu)
  | Leave (target : Z) (c : cpu).

(** A [call] pushes the return address, runs the callee, and execution resumes
    at the address the callee returned to. *)
Definition exec (i : instr) (next : Z) (c : cpu) : effect :=
  match i with
  | CmpRI r imm => Goto next (compare (get r c) imm c)
  | AddRI r imm =>
      let v := u64 (get r c + imm) in
      Goto next (set r v (set_flags (v =? 0) (v <? get r c) c))
  | SubRI r imm =>
      let v := u64 (get r c - imm) in
      Goto next (set r v (set_flags (v =? 0) (get r c <? imm) c))
  | CmpRM r a => Goto next (compare (get r c) (load64 (mem c) (address a c)) c)
  | MovRM r a => Goto next (set r (load64 (mem c) (address a c)) c)
  | MovMR a r => Goto next (set_mem (store64 (mem c) (address a c) (get r c)) c)
  | Lea r b d => Goto next (set r (u64 (get b c + d)) c)
  | TestRR a b => Goto next (set_flags (Z.land (get a c) (get b c) =? 0) false c)
  | MovRI r imm => Goto next (set r imm c)
  | Push r => Goto next (push64 (get r c) c)
  | Pop r =>
      let v := load64 (mem c) (rsp c) in
      Goto next (set r v (set RSP (u64 (rsp c + 8)) c))
  | Ret => Return (load64 (mem c) (rsp c)) (set RSP (u64 (rsp c + 8)) c)
  | Jcc cc rel => Goto (if holds cc c then u64 (next + rel) else next) c
  | CallR r =>
      let t := get r c in
      let k := mkCall t (rdi c) (rsi c) (rdx c) (rsp c) in
      Called k next (callee t (push64 (u64 (page + next)) c))
  | JmpR r => Leave (get r c) c
  end.
(** How a run of the page ends. *)
Inductive ending :=
  | Returned (addr : Z) (c : cpu)
  | TailCalled (target : Z) (c : cpu)
  | Undefined
  | Exhausted.

(** Execution from offset [pc]: the calls made, in order, and the ending. *)
Fixpoint run (fuel : nat) (pc : Z) (c : cpu) : list call * ending :=
  match fuel with
  | O => ([], Exhausted)
  | S fuel =>
      match decode (drop (Z.to_nat pc) code) with
      | None => ([], Undefined)
      | Some (i, n) =>
          match exec i (pc + Z.of_nat n) c with
          | Goto pc c => run fuel pc c
          | Called k pc c => let (t, e) := run fuel pc c in (k :: t, e)
          | Return a c => ([], Returned a c)
          | Leave t c => ([], TailCalled t c)
          end
      end
  end.
End Machine.

(** The System V contract of the functions a page calls, as far as the page
    relies on it: a callee entered with the return address on top of the stack
    comes back with the stack pointer above it, and leaves the caller's frame,
    the 16 bytes above the return address, as it was. *)
Class SysV (callee : Z -> cpu -> cpu) : Prop := {
  sysv_rsp t c : rsp (callee t c) = u64 (rsp c + 8);
  sysv_frame t c d :
    d = 8 ∨ d = 16 -> load64 (mem (callee t c)) (u64 (rsp c + d)) = load64 (mem c) (u64 (rsp c + d));
}.

(** ** Words in memory *)

(** The eight bytes of a word at [a]. *)
Definition in_word (a x : Z) : Prop := ∃ k, 0 <= k < 8 ∧ x = u64 (a + k).

Definition words_apart (a b : Z) : Prop := ∀ x, in_word a x -> in_word b x -> False.

Lemma store_bytes_snoc m a l v :
  store_bytes m a (l ++ [v]) = <[u64 (a + Z.of_nat (length l)) := v]> (store_bytes m a l).
Proof.
  unfold store_bytes. rewrite length_app, seq_app, zip_with_app by (by rewrite length_seq).
  rewrite foldl_app. done.
Qed.

Lemma u64_offset_inj a i j :
  0 <= i < 2 ^ 64 -> 0 <= j < 2 ^ 64 -> u64 (a + i) = u64 (a + j) -> i = j.
Proof.
  intros Hi Hj E. assert (H : u64 (u64 (a + i) - a) = u64 (u64 (a + j) - a)) by by rewrite E.
  unfold u64 in H. rewrite !wrap_sub_l in H.
  replace (a + i - a) with i in H by lia. replace (a + j - a) with j in H by lia.
  by rewrite !wrap_small in H.
Qed.

Lemma store_bytes_in m a l k :
  (length l <= 8)%nat -> (k < length l)%nat ->
  arr 0 (store_bytes m a l) (u64 (a + Z.of_nat k)) = nth k l 0.
Proof.
  induction l as [|v l IH] using rev_ind; intros Hl Hk; [simpl in Hk; lia|].
  rewrite length_app in Hl, Hk. simpl in Hl, Hk. rewrite store_bytes_snoc.
  destruct (decide (k = length l)) as [->|Hne].
  - rewrite arr_insert_eq, app_nth2, Nat.sub_diag by lia. done.
  - rewrite arr_insert_ne.
    + rewrite app_nth1 by lia. apply IH; lia.
    + intros E. apply Hne. apply u64_offset_inj in E; pow2; lia.
Qed.

Lemma store_bytes_out m a l x :
  (∀ k, (k < length l)%nat -> x ≠ u64 (a + Z.of_nat k)) ->
  arr 0 (store_bytes m a l) x = arr 0 m x.
Proof.
  induction l as [|v l IH] using rev_ind; intros Hx; [done|].
  rewrite length_app in Hx. simpl in Hx. rewrite store_bytes_snoc.
  rewrite arr_insert_ne by (intros E; eapply (Hx (length l)); [lia|by rewrite E]).
  apply IH. intros k Hk. apply Hx. lia.
Qed.

Lemma load64_store64_same m a v : load64 (store64 m a v) a = u64 v.
Proof.
  unfold load64, store64.
  rewrite (list_fmap_ext _ (λ k, nth k (le_bytes 8 v) 0)).
  - change (le_combine (le_bytes 8 v) = u64 v). apply le_combine_bytes.
  - intros i k Hk. apply lookup_seq in Hk as [-> Hk]. apply store_bytes_in; simpl; lia.
Qed.

Lemma load64_ext m m' a :
  (∀ x, in_word a x -> arr 0 m x = arr 0 m' x) -> load64 m a = load64 m' a.
Proof.
  intros H. unfold load64. f_equal. apply list_fmap_ext.
  intros i k Hk. apply lookup_seq in Hk as [-> Hk]. apply H. exists (Z.of_nat (0 + i)). lia.
Qed.

Lemma load64_store64_other m a b v :
  words_apart a b -> load64 (store64 m a v) b = load64 m b.
Proof.
  intros Hab. apply load64_ext. intros x Hx. apply store_bytes_out. intros k Hk ->.
  apply (Hab (u64 (a + Z.of_nat k))); [|done]. exists (Z.of_nat k).
  unfold le_bytes in Hk. rewrite length_fmap, length_seq in Hk. lia.
Qed.

Lemma words_apart_sym a b : words_apart a b -> words_apart b a.
Proof. intros H x Ha Hb. by apply (H x). Qed.

(** Two words that do not wrap and do not overlap. *)
Lemma words_apart_intro a b :
  0 <= a <= 2 ^ 64 - 8 -> 0 <= b <= 2 ^ 64 - 8 -> a + 8 <= b ∨ b + 8 <= a -> words_apart a b.
Proof.
  intros Ha Hb Hab x (i & Hi & ->) (j & Hj & E). pow2.
  rewrite !u64_small in E by (pow2; lia). lia.
Qed.

Lemma load64_bound m a : (∀ x, 0 <= arr 0 m x < 256) -> 0 <= load64 m a < 2 ^ 64.
Proof.
  intros Hm. unfold load64.
  assert (H : ∀ l, Forall (λ b, 0 <= b < 256) l -> 0 <= le_combine l < 256 ^ Z.of_nat (length l)).
  { induction 1 as [|b l Hb Hl IH]; [done|]. cbn [le_combine length].
    rewrite Nat2Z.inj_succ, Z.pow_succ_r by lia. lia. }
  apply H. apply Forall_fmap, Forall_forall. intros k _. apply Hm.
Qed.
