(* ===== verification/Emitter.v ===== *)
(** * The code emitter ([src/src/codegen/emitter.cpp])

    Each [emit_*] writes one allocation routine into a code page.  The page
    under construction is the list of bytes written so far: the cursor [p] is
    its length, an address kept for later patching is an index into it, and the
    result is the bytes written, [[]] where the source returns 0. *)

From S2P Require Import Prelude Common X86.

(** ** Writing *)

Definition w8 (p : list Z) (v : Z) : list Z := p ++ [v].
Definition w32 (p : list Z) (v : Z) : list Z :=
  p ++ [byte 0 v; byte 1 v; byte 2 v; byte 3 v].
Definition w64 (p : list Z) (v : Z) : list Z :=
  p ++ [byte 0 v; byte 1 v; byte 2 v; byte 3 v; byte 4 v; byte 5 v; byte 6 v; byte 7 v].

Declare Scope emit_scope.
Delimit Scope emit_scope with emit.
Notation "p <8- v" := (w8 p v) (at level 50, left associativity, v at level 49) : emit_scope.
Notation "p <32- v" := (w32 p v) (at level 50, left associativity, v at level 49) : emit_scope.
Notation "p <64- v" := (w64 p v) (at level 50, left associativity, v at level 49) : emit_scope.
#[local] Open Scope emit_scope.

(** [*at = (uint8_t)(label - (at + 1))]: a rel8 displacement to the cursor. *)
Definition patch (p : list Z) (at_ : nat) : list Z :=
  <[at_ := u8 (Z.of_nat (length p) - (Z.of_nat at_ + 1))]> p.

(** [mov edx, <reason>]. *)
Definition w_reason (p : list Z) (r : DeoptReason) : list Z :=
  p <8- 0xBA <32- reason_value r.

(** [lea rcx, [rax + dominant_size]] in its two encodings. *)
Definition lea_rcx (p : list Z) (dominant_size : Z) : list Z :=
  if dominant_size <? 128
  then p <8- 0x48 <8- 0x8D <8- 0x48 <8- u8 dominant_size
  else p <8- 0x48 <8- 0x8D <8- 0x88 <32- dominant_size.

(** ** The routines *)

Definition emit_bump_alloc (buf buf_size tls_ptr_offset tls_end_offset slot_index
    dominant_size call_site_id deopt_handler slow_init_fn real_malloc : Z) : list Z :=
  if (buf =? 0) || (buf_size <? 200) then [] else
  let p := [] in
  (* cmp rdi, dominant_size *)
  let p := p <8- 0x48 <8- 0x81 <8- 0xFF <32- dominant_size in
  (* jne .deopt *)
  let p := p <8- 0x75 in
  let jne_deopt1_offset := length p in
  let p := p <8- 0x00 in
  (* mov rax, fs:[tls_ptr_offset] *)
  let p := p <8- 0x64 <8- 0x48 <8- 0x8B <8- 0x04 <8- 0x25 <32- tls_ptr_offset in
  let p := lea_rcx p dominant_size in
  (* cmp rcx, fs:[tls_end_offset] *)
  let p := p <8- 0x64 <8- 0x48 <8- 0x3B <8- 0x0C <8- 0x25 <32- tls_end_offset in
  (* jae .slow *)
  let p := p <8- 0x73 in
  let jae_slow_offset := length p in
  let p := p <8- 0x00 in
  (* mov fs:[tls_ptr_offset], rcx *)
  let p := p <8- 0x64 <8- 0x48 <8- 0x89 <8- 0x0C <8- 0x25 <32- tls_ptr_offset in
  (* ret *)
  let p := p <8- 0xC3 in
  (* .slow *)
  let p := patch p jae_slow_offset in
  (* cmp rax, 0 *)
  let p := p <8- 0x48 <8- 0x83 <8- 0xF8 <8- 0x00 in
  (* jne .deopt *)
  let p := p <8- 0x75 in
  let jne_deopt2_offset := length p in
  let p := p <8- 0x00 in
  (* .init: sub rsp, 8 *)
  let p := p <8- 0x48 <8- 0x83 <8- 0xEC <8- 0x08 in
  (* mov edi, slot_index; mov esi, dominant_size *)
  let p := p <8- 0xBF <32- slot_index in
  let p := p <8- 0xBE <32- dominant_size in
  (* movabs rax, slow_init_fn; call rax *)
  let p := p <8- 0x48 <8- 0xB8 <64- slow_init_fn in
  let p := p <8- 0xFF <8- 0xD0 in
  (* add rsp, 8; ret *)
  let p := p <8- 0x48 <8- 0x83 <8- 0xC4 <8- 0x08 in
  let p := p <8- 0xC3 in
  (* .deopt *)
  let p := patch p jne_deopt1_offset in
  let p := patch p jne_deopt2_offset in
  (* push rdi; mov edi, call_site_id; movabs rsi, buf; mov edx, reason *)
  let p := p <8- 0x57 in
  let p := p <8- 0xBF <32- call_site_id in
  let p := p <8- 0x48 <8- 0xBE <64- buf in
  let p := w_reason p RegionExhaust in
  (* movabs rax, deopt_handler; call rax; pop rdi *)
  let p := p <8- 0x48 <8- 0xB8 <64- deopt_handler in
  let p := p <8- 0xFF <8- 0xD0 in
  let p := p <8- 0x5F in
  (* movabs rax, real_malloc; jmp rax *)
  let p := p <8- 0x48 <8- 0xB8 <64- real_malloc in
  let p := p <8- 0xFF <8- 0xE0 in
  p.

Definition emit_freelist_alloc (buf buf_size tls_head_offset slot_index
    dominant_size call_site_id deopt_handler refill_fn real_malloc : Z) : list Z :=
  if (buf =? 0) || (buf_size <? 200) then [] else
  let p := [] in
  let p := p <8- 0x48 <8- 0x81 <8- 0xFF <32- dominant_size in
  let p := p <8- 0x75 in
  let jne_deopt_off := length p in
  let p := p <8- 0x00 in
  (* mov rax, fs:[tls_head_offset] *)
  let p := p <8- 0x64 <8- 0x48 <8- 0x8B <8- 0x04 <8- 0x25 <32- tls_head_offset in
  (* test rax, rax; jz .refill *)
  let p := p <8- 0x48 <8- 0x85 <8- 0xC0 in
  let p := p <8- 0x74 in
  let jz_refill_off := length p in
  let p := p <8- 0x00 in
  (* mov rcx, [rax] *)
  let p := p <8- 0x48 <8- 0x8B <8- 0x08 in
  (* mov fs:[tls_head_offset], rcx; ret *)
  let p := p <8- 0x64 <8- 0x48 <8- 0x89 <8- 0x0C <8- 0x25 <32- tls_head_offset in
  let p := p <8- 0xC3 in
  (* .refill *)
  let p := patch p jz_refill_off in
  let p := p <8- 0x48 <8- 0x83 <8- 0xEC <8- 0x08 in
  let p := p <8- 0xBF <32- slot_index in
  let p := p <8- 0xBE <32- dominant_size in
  let p := p <8- 0x48 <8- 0xB8 <64- refill_fn in
  let p := p <8- 0xFF <8- 0xD0 in
  let p := p <8- 0x48 <8- 0x83 <8- 0xC4 <8- 0x08 in
  let p := p <8- 0xC3 in
  (* .deopt *)
  let p := patch p jne_deopt_off in
  let p := p <8- 0x57 in
  let p := p <8- 0xBF <32- call_site_id in
  let p := p <8- 0x48 <8- 0xBE <64- buf in
  let p := w_reason p SizeDrift in
  let p := p <8- 0x48 <8- 0xB8 <64- deopt_handler in
  let p := p <8- 0xFF <8- 0xD0 in
  let p := p <8- 0x5F in
  let p := p <8- 0x48 <8- 0xB8 <64- real_malloc in
  let p := p <8- 0xFF <8- 0xE0 in
  p.

Definition emit_epoch_arena (buf buf_size tls_ptr_offset tls_end_offset slot_index
    dominant_size call_site_id deopt_handler reset_alloc_fn real_malloc : Z) : list Z :=
  if (buf =? 0) || (buf_size <? 200) then [] else
  let p := [] in
  let p := p <8- 0x48 <8- 0x81 <8- 0xFF <32- dominant_size in
  let p := p <8- 0x75 in
  let jne_deopt_off := length p in
  let p := p <8- 0x00 in
  let p := p <8- 0x64 <8- 0x48 <8- 0x8B <8- 0x04 <8- 0x25 <32- tls_ptr_offset in
  let p := lea_rcx p dominant_size in
  let p := p <8- 0x64 <8- 0x48 <8- 0x3B <8- 0x0C <8- 0x25 <32- tls_end_offset in
  (* jae .reset *)
  let p := p <8- 0x73 in
  let jae_reset_off := length p in
  let p := p <8- 0x00 in
  let p := p <8- 0x64 <8- 0x48 <8- 0x89 <8- 0x0C <8- 0x25 <32- tls_ptr_offset in
  let p := p <8- 0xC3 in
  (* .reset *)
  let p := patch p jae_reset_off in
  let p := p <8- 0x48 <8- 0x83 <8- 0xEC <8- 0x08 in
  let p := p <8- 0xBF <32- slot_index in
  let p := p <8- 0xBE <32- dominant_size in
  let p := p <8- 0x48 <8- 0xB8 <64- reset_alloc_fn in
  let p := p <8- 0xFF <8- 0xD0 in
  let p := p <8- 0x48 <8- 0x83 <8- 0xC4 <8- 0x08 in
  let p := p <8- 0xC3 in
  (* .deopt *)
  let p := patch p jne_deopt_off in
  let p := p <8- 0x57 in
  let p := p <8- 0xBF <32- call_site_id in
  let p := p <8- 0x48 <8- 0xBE <64- buf in
  let p := w_reason p SizeDrift in
  let p := p <8- 0x48 <8- 0xB8 <64- deopt_handler in
  let p := p <8- 0xFF <8- 0xD0 in
  let p := p <8- 0x5F in
  let p := p <8- 0x48 <8- 0xB8 <64- real_malloc in
  let p := p <8- 0xFF <8- 0xE0 in
  p.

(** One iteration of the class loop: the bytes, or [None] when [.skip_i] is out
    of reach of a rel8 displacement. *)
Definition emit_class (p : list Z) (i : nat) (tls_heads_base_offset slot_index
    class_size refill_fn : Z) : option (list Z) :=
  let head_off := u32 (tls_heads_base_offset + u32 (Z.of_nat i * 8)) in
  (* cmp rdi, class_sizes[i]; jne .skip_i *)
  let p := p <8- 0x48 <8- 0x81 <8- 0xFF <32- class_size in
  let p := p <8- 0x75 in
  let jne_skip := length p in
  let p := p <8- 0x00 in
  (* mov rax, fs:[heads + i*8]; test rax, rax; jz .refill_i *)
  let p := p <8- 0x64 <8- 0x48 <8- 0x8B <8- 0x04 <8- 0x25 <32- head_off in
  let p := p <8- 0x48 <8- 0x85 <8- 0xC0 in
  let p := p <8- 0x74 in
  let jz_refill := length p in
  let p := p <8- 0x00 in
  (* mov rcx, [rax]; mov fs:[heads + i*8], rcx; ret *)
  let p := p <8- 0x48 <8- 0x8B <8- 0x08 in
  let p := p <8- 0x64 <8- 0x48 <8- 0x89 <8- 0x0C <8- 0x25 <32- head_off in
  let p := p <8- 0xC3 in
  (* .refill_i *)
  let p := patch p jz_refill in
  let p := p <8- 0x48 <8- 0x83 <8- 0xEC <8- 0x08 in
  let p := p <8- 0xBF <32- slot_index in
  let p := p <8- 0xBE <32- class_size in
  let p := p <8- 0xBA <32- Z.of_nat i in
  let p := p <8- 0x48 <8- 0xB8 <64- refill_fn in
  let p := p <8- 0xFF <8- 0xD0 in
  let p := p <8- 0x48 <8- 0x83 <8- 0xC4 <8- 0x08 in
  let p := p <8- 0xC3 in
  (* .skip_i *)
  let disp := Z.of_nat (length p) - (Z.of_nat jne_skip + 1) in
  if (disp <? -128) || (disp >? 127) then None
  else Some (<[jne_skip := u8 disp]> p).

Fixpoint emit_classes (p : list Z) (i : nat) (tls_heads_base_offset slot_index : Z)
    (class_sizes : list Z) (refill_fn : Z) : option (list Z) :=
  match class_sizes with
  | [] => Some p
  | c :: cs =>
      match emit_class p i tls_heads_base_offset slot_index c refill_fn with
      | None => None
      | Some p => emit_classes p (S i) tls_heads_base_offset slot_index cs refill_fn
      end
  end.

(** [class_sizes] is the first [class_count] sizes. *)
Definition emit_multi_freelist_alloc (buf buf_size tls_heads_base_offset slot_index : Z)
    (class_sizes : list Z) (call_site_id deopt_handler refill_fn real_malloc : Z) : list Z :=
  if (buf =? 0) || (buf_size <? 512) then [] else
  if (length class_sizes =? 0)%nat || (4 <? length class_sizes)%nat then [] else
  match emit_classes [] 0 tls_heads_base_offset slot_index class_sizes refill_fn with
  | None => []
  | Some p =>
      (* .deopt *)
      let p := p <8- 0x57 in
      let p := p <8- 0xBF <32- call_site_id in
      let p := p <8- 0x48 <8- 0xBE <64- buf in
      let p := w_reason p SizeDrift in
      let p := p <8- 0x48 <8- 0xB8 <64- deopt_handler in
      let p := p <8- 0xFF <8- 0xD0 in
      let p := p <8- 0x5F in
      let p := p <8- 0x48 <8- 0xB8 <64- real_malloc in
      let p := p <8- 0xFF <8- 0xE0 in
      p
  end.

Definition emit_pc_alloc (buf buf_size tls_ptr_offset tls_end_offset slot_index
    dominant_size call_site_id deopt_handler refill_fn real_malloc : Z) : list Z :=
  if (buf =? 0) || (buf_size <? 200) then [] else
  let p := [] in
  let p := p <8- 0x48 <8- 0x81 <8- 0xFF <32- dominant_size in
  let p := p <8- 0x75 in
  let jne_deopt := length p in
  let p := p <8- 0x00 in
  let p := p <8- 0x64 <8- 0x48 <8- 0x8B <8- 0x04 <8- 0x25 <32- tls_ptr_offset in
  let p := lea_rcx p dominant_size in
  let p := p <8- 0x64 <8- 0x48 <8- 0x3B <8- 0x0C <8- 0x25 <32- tls_end_offset in
  (* jae .refill *)
  let p := p <8- 0x73 in
  let jae_refill := length p in
  let p := p <8- 0x00 in
  let p := p <8- 0x64 <8- 0x48 <8- 0x89 <8- 0x0C <8- 0x25 <32- tls_ptr_offset in
  let p := p <8- 0xC3 in
  (* .refill *)
  let p := patch p jae_refill in
  let p := p <8- 0x48 <8- 0x83 <8- 0xEC <8- 0x08 in
  let p := p <8- 0xBF <32- slot_index in
  let p := p <8- 0xBE <32- dominant_size in
  let p := p <8- 0x48 <8- 0xB8 <64- refill_fn in
  let p := p <8- 0xFF <8- 0xD0 in
  let p := p <8- 0x48 <8- 0x83 <8- 0xC4 <8- 0x08 in
  let p := p <8- 0xC3 in
  (* .deopt *)
  let p := patch p jne_deopt in
  let p := p <8- 0x57 in
  let p := p <8- 0xBF <32- call_site_id in
  let p := p <8- 0x48 <8- 0xBE <64- buf in
  let p := w_reason p SizeDrift in
  let p := p <8- 0x48 <8- 0xB8 <64- deopt_handler in
  let p := p <8- 0xFF <8- 0xD0 in
  let p := p <8- 0x5F in
  let p := p <8- 0x48 <8- 0xB8 <64- real_malloc in
  let p := p <8- 0xFF <8- 0xE0 in
  p.
