(* ===== verification/Jit.v ===== *)
(** * What the emitted routines do

    Each routine of [Emitter] is decoded back ([*_code]): its bytes are exactly
    the program of the layout comments.  The execution theorems then give every
    path of every routine on the machine of [X86]: the result, the memory left,
    the calls made with their arguments and the stack alignment, and the tail
    call of a deoptimisation. *)

From S2P Require Import Prelude Common X86 Emitter.

(** ** Programs and where they sit in a page *)

Definition program := list (instr * nat).

Fixpoint code_at (code : list Z) (pc : Z) (prog : program) : Prop :=
  match prog with
  | [] => True
  | (i, n) :: prog =>
      decode (drop (Z.to_nat pc) code) = Some (i, n) ∧ code_at code (pc + Z.of_nat n) prog
  end.

Definition bytes_of (prog : program) : Z := foldr (λ i s, Z.of_nat (snd i) + s) 0 prog.

Lemma bytes_of_nonneg prog : 0 <= bytes_of prog.
Proof. induction prog; simpl; lia. Qed.

Lemma code_at_app code pc p q :
  code_at code pc (p ++ q) <-> code_at code pc p ∧ code_at code (pc + bytes_of p) q.
Proof.
  revert pc. induction p as [|[i n] p IH]; intros pc; simpl.
  - rewrite Z.add_0_r. tauto.
  - rewrite IH, <- Z.add_assoc. tauto.
Qed.

(** ** The pieces of the routines *)

(** The wrong-size guard. *)
Definition guard (size rel : Z) : program := [(CmpRI RDI size, 7%nat); (Jcc NE rel, 2%nat)].

(** The bump fast path, up to its [jae]. *)
Definition bump_path (ptr_off end_off size : Z) : program :=
  [(MovRM RAX (FsAbs (sext 32 ptr_off)), 9%nat);
   (Lea RCX RAX size, if size <? 128 then 4%nat else 7%nat);
   (CmpRM RCX (FsAbs (sext 32 end_off)), 9%nat);
   (Jcc AE 10, 2%nat);
   (MovMR (FsAbs (sext 32 ptr_off)) RCX, 9%nat);
   (Ret, 1%nat)].

(** The pop of a free list. *)
Definition pop_path (head_off : Z) : program :=
  [(MovRM RAX (FsAbs (sext 32 head_off)), 9%nat);
   (TestRR RAX RAX, 3%nat);
   (Jcc EQ 13, 2%nat);
   (MovRM RCX (Ind RAX), 3%nat);
   (MovMR (FsAbs (sext 32 head_off)) RCX, 9%nat);
   (Ret, 1%nat)].

(** The aligned call of a slow-path function of two or three arguments. *)
Definition slow_path (slot size : Z) (third : program) (f : Z) : program :=
  [(SubRI RSP 8, 4%nat); (MovRI RDI slot, 5%nat); (MovRI RSI size, 5%nat)] ++ third ++
  [(MovRI RAX f, 10%nat); (CallR RAX, 2%nat); (AddRI RSP 8, 4%nat); (Ret, 1%nat)].

(** The deopt epilogue. *)
Definition deopt_path (site page : Z) (r : DeoptReason) (handler malloc : Z) : program :=
  [(Push RDI, 1%nat); (MovRI RDI site, 5%nat); (MovRI RSI page, 10%nat);
   (MovRI RDX (reason_value r), 5%nat); (MovRI RAX handler, 10%nat); (CallR RAX, 2%nat);
   (Pop RDI, 1%nat); (MovRI RAX malloc, 10%nat); (JmpR RAX, 2%nat)].

(** ** Decoding the emitted bytes *)

Lemma le4 v : 0 <= v < 2 ^ 32 -> le_combine [byte 0 v; byte 1 v; byte 2 v; byte 3 v] = v.
Proof. exact (le_combine_32 v). Qed.
Lemma le8 v :
  0 <= v < 2 ^ 64 ->
  le_combine [byte 0 v; byte 1 v; byte 2 v; byte 3 v; byte 4 v; byte 5 v; byte 6 v; byte 7 v] = v.
Proof. exact (le_combine_64 v). Qed.

Lemma sext_small w v : 1 <= w <= 64 -> 0 <= v < 2 ^ (w - 1) -> sext w v = v.
Proof.
  intros Hw Hv. unfold sext. destruct (Z.ltb_spec v (2 ^ (w - 1))); [|lia].
  apply u64_small. pose proof (Z.pow_le_mono_r 2 (w - 1) 64). lia.
Qed.

#[global] Opaque byte le_combine sext.

(** Computes the page, reads every instruction back, and rejoins the bytes of
    the immediates. *)
Ltac decode_page :=
  lazy -[byte le_combine sext decode drop u8];
  repeat match goal with |- _ ∧ _ => split end; try exact I;
  lazy -[byte le_combine sext]; rewrite ?le4, ?le8 by (pow2; lia);
  rewrite ?(sext_small 32), ?(sext_small 8) by (pow2; lia); reflexivity.

Lemma bump_code (buf buf_size po eo slot size site h f m : Z) :
  0 < buf < 2 ^ 64 -> 200 <= buf_size -> fits 32 po -> fits 32 eo -> fits 32 slot ->
  0 <= size < 2 ^ 31 -> fits 32 site -> fits 64 h -> fits 64 f -> fits 64 m ->
  code_at (emit_bump_alloc buf buf_size po eo slot size site h f m) 0
    (guard size (if size <? 128 then 71 else 74) ++ bump_path po eo size ++
     [(CmpRI RAX 0, 4%nat); (Jcc NE 31, 2%nat)] ++ slow_path slot size [] f ++
     deopt_path site buf RegionExhaust h m).
Proof.
  intros. unfold emit_bump_alloc, lea_rcx, bump_path. rewrite (proj2 (Z.eqb_neq buf 0)) by lia.
  rewrite (proj2 (Z.ltb_ge buf_size 200)) by lia. cbn [orb].
  destruct (Z.ltb_spec size 128).
  - rewrite u8_small by (pow2; lia).
    decode_page.
  - decode_page.
Qed.

Lemma freelist_code (buf buf_size ho slot size site h f m : Z) :
  0 < buf < 2 ^ 64 -> 200 <= buf_size -> fits 32 ho -> fits 32 slot ->
  0 <= size < 2 ^ 31 -> fits 32 site -> fits 64 h -> fits 64 f -> fits 64 m ->
  code_at (emit_freelist_alloc buf buf_size ho slot size site h f m) 0
    (guard size 58 ++ pop_path ho ++ slow_path slot size [] f ++
     deopt_path site buf SizeDrift h m).
Proof.
  intros. unfold emit_freelist_alloc. rewrite (proj2 (Z.eqb_neq buf 0)) by lia.
  rewrite (proj2 (Z.ltb_ge buf_size 200)) by lia. cbn [orb]. decode_page.
Qed.

Lemma epoch_code (buf buf_size po eo slot size site h f m : Z) :
  0 < buf < 2 ^ 64 -> 200 <= buf_size -> fits 32 po -> fits 32 eo -> fits 32 slot ->
  0 <= size < 2 ^ 31 -> fits 32 site -> fits 64 h -> fits 64 f -> fits 64 m ->
  code_at (emit_epoch_arena buf buf_size po eo slot size site h f m) 0
    (guard size (if size <? 128 then 65 else 68) ++ bump_path po eo size ++
     slow_path slot size [] f ++ deopt_path site buf SizeDrift h m).
Proof.
  intros. unfold emit_epoch_arena, lea_rcx, bump_path. rewrite (proj2 (Z.eqb_neq buf 0)) by lia.
  rewrite (proj2 (Z.ltb_ge buf_size 200)) by lia. cbn [orb].
  destruct (Z.ltb_spec size 128); [rewrite u8_small by (pow2; lia)|]; decode_page.
Qed.

Lemma pc_code (buf buf_size po eo slot size site h f m : Z) :
  0 < buf < 2 ^ 64 -> 200 <= buf_size -> fits 32 po -> fits 32 eo -> fits 32 slot ->
  0 <= size < 2 ^ 31 -> fits 32 site -> fits 64 h -> fits 64 f -> fits 64 m ->
  code_at (emit_pc_alloc buf buf_size po eo slot size site h f m) 0
    (guard size (if size <? 128 then 65 else 68) ++ bump_path po eo size ++
     slow_path slot size [] f ++ deopt_path site buf SizeDrift h m).
Proof.
  intros. unfold emit_pc_alloc, lea_rcx, bump_path. rewrite (proj2 (Z.eqb_neq buf 0)) by lia.
  rewrite (proj2 (Z.ltb_ge buf_size 200)) by lia. cbn [orb].
  destruct (Z.ltb_spec size 128); [rewrite u8_small by (pow2; lia)|]; decode_page.
Qed.

(** *** The class ladder *)

(** The program of one class. *)
Definition class_path (base slot size i f : Z) : program :=
  guard size 63 ++ pop_path (u32 (base + u32 (i * 8))) ++
  slow_path slot size [(MovRI RDX i, 5%nat)] f.

(** Writing after a prefix. *)
Lemma w8_app p q v : w8 (p ++ q) v = p ++ w8 q v.
Proof. unfold w8. by rewrite app_assoc. Qed.
Lemma w32_app p q v : w32 (p ++ q) v = p ++ w32 q v.
Proof. unfold w32. by rewrite app_assoc. Qed.
Lemma w64_app p q v : w64 (p ++ q) v = p ++ w64 q v.
Proof. unfold w64. by rewrite app_assoc. Qed.
Lemma displacement_app (p q : list Z) k :
  Z.of_nat (length p + length q) - (Z.of_nat (length p + k) + 1) =
  Z.of_nat (length q) - (Z.of_nat k + 1).
Proof. lia. Qed.
Lemma patch_app p q k : patch (p ++ q) (length p + k) = p ++ patch q k.
Proof. unfold patch. by rewrite length_app, displacement_app, insert_app_r. Qed.

(** A class is emitted at the cursor, whatever was written before. *)
Lemma emit_class_prefix p q i base slot size f :
  emit_class (p ++ q) i base slot size f = (λ b, p ++ b) <$> emit_class q i base slot size f.
Proof.
  unfold emit_class.
  repeat first [rewrite w8_app | rewrite w32_app | rewrite w64_app | rewrite length_app
               | rewrite patch_app].
  rewrite displacement_app, insert_app_r. case_match; done.
Qed.

Lemma code_at_shift p c pc prog :
  0 <= pc -> code_at (p ++ c) (Z.of_nat (length p) + pc) prog <-> code_at c pc prog.
Proof.
  revert pc. induction prog as [|[i n] prog IH]; intros pc Hpc; [done|]. simpl.
  replace (Z.to_nat (Z.of_nat (length p) + pc)) with (length p + Z.to_nat pc)%nat by lia.
  rewrite drop_app_add, <- Z.add_assoc, IH by lia. done.
Qed.

Lemma class_code (i : nat) base slot size f :
  (i < 4)%nat -> fits 32 slot -> 0 <= size < 2 ^ 31 -> fits 64 f ->
  ∃ b, emit_class [] i base slot size f = Some b ∧ length b = 72%nat ∧
       ∀ rest, code_at (b ++ rest) 0 (class_path base slot size (Z.of_nat i) f).
Proof.
  intros Hi Hslot Hsize Hf. unfold emit_class, class_path.
  assert (Hho : fits 32 (u32 (base + u32 (Z.of_nat i * 8)))) by apply u32_bound.
  assert (Hi' : 0 <= Z.of_nat i < 2 ^ 32) by (pow2; lia).
  revert Hho. generalize (u32 (base + u32 (Z.of_nat i * 8))). intros ho Hho.
  revert Hi'. generalize (Z.of_nat i). clear i Hi. intros i Hi. eexists. split; [reflexivity|]. split; [reflexivity|].
  intros rest. decode_page.
Qed.

(** The programs of the classes from index [i] on. *)
Fixpoint ladder (base slot : Z) (sizes : list Z) (i : nat) (f : Z) : program :=
  match sizes with
  | [] => []
  | c :: cs => class_path base slot c (Z.of_nat i) f ++ ladder base slot cs (S i) f
  end.

Lemma classes_code p sizes i base slot f :
  (i + length sizes <= 4)%nat -> fits 32 slot -> Forall (λ c, 0 <= c < 2 ^ 31) sizes -> fits 64 f ->
  ∃ b, emit_classes p i base slot sizes f = Some (p ++ b) ∧
       length b = (72 * length sizes)%nat ∧
       ∀ rest, code_at (b ++ rest) 0 (ladder base slot sizes i f).
Proof.
  revert p i. induction sizes as [|c cs IH]; intros p i Hi Hslot Hsizes Hf.
  { exists []. by rewrite app_nil_r. }
  simpl in Hi. apply Forall_cons in Hsizes as [Hc Hcs].
  destruct (class_code i base slot c f) as (b & Hb & Hlen & Hcode); [lia|done..|].
  destruct (IH (p ++ b) (S i)) as (b' & Hb' & Hlen' & Hcode'); [lia|done..|].
  exists (b ++ b'). cbn [emit_classes ladder].
  rewrite <- (app_nil_r p) at 1. rewrite emit_class_prefix, Hb. cbn [fmap option_fmap option_map].
  rewrite Hb', <- app_assoc. split; [done|]. split; [rewrite length_app; simpl; lia|].
  intros rest. rewrite <- app_assoc, code_at_app. split; [apply Hcode|].
  change (bytes_of (class_path base slot c (Z.of_nat i) f)) with 72.
  replace (0 + 72) with (Z.of_nat (length b) + 0) by lia.
  apply code_at_shift; [lia|]. apply Hcode'.
Qed.

Lemma bytes_of_app p q : bytes_of (p ++ q) = bytes_of p + bytes_of q.
Proof. induction p; simpl; lia. Qed.

Lemma bytes_of_ladder base slot sizes i f :
  bytes_of (ladder base slot sizes i f) = 72 * Z.of_nat (length sizes).
Proof.
  revert i. induction sizes as [|c cs IH]; intros i; [done|]. cbn [ladder length].
  rewrite bytes_of_app, IH.
  change (bytes_of (class_path base slot c (Z.of_nat i) f)) with 72. lia.
Qed.

Lemma multi_code (buf buf_size base slot : Z) (sizes : list Z) (site h f m : Z) :
  0 < buf < 2 ^ 64 -> 512 <= buf_size -> (1 <= length sizes <= 4)%nat -> fits 32 slot ->
  Forall (λ c, 0 <= c < 2 ^ 31) sizes -> fits 32 site -> fits 64 h -> fits 64 f -> fits 64 m ->
  let page := emit_multi_freelist_alloc buf buf_size base slot sizes site h f m in
  code_at page 0 (ladder base slot sizes 0 f ++ deopt_path site buf SizeDrift h m) ∧
  length page = (72 * length sizes + 46)%nat.
Proof.
  intros Hbuf Hsize Hn Hslot Hsizes Hsite Hh Hf Hm. unfold emit_multi_freelist_alloc.
  rewrite (proj2 (Z.eqb_neq buf 0)), (proj2 (Z.ltb_ge buf_size 512)) by lia. cbn [orb].
  rewrite (proj2 (Nat.eqb_neq _ 0)), (proj2 (Nat.ltb_ge 4 _)) by lia. cbn [orb].
  destruct (classes_code [] sizes 0 base slot f) as (b & Hb & Hlen & Hcode); [lia|done..|].
  rewrite Hb. cbn [app]. unfold w_reason. rewrite <- (app_nil_r b).
  rewrite !w8_app, !w32_app, !w8_app, !w64_app, !w8_app, !w32_app, !w8_app, !w64_app, !w8_app,
    !w64_app, !w8_app. split; [|rewrite length_app; simpl; lia].
  rewrite code_at_app. split; [apply Hcode|].
  assert (Hbytes : bytes_of (ladder base slot sizes 0 f) = Z.of_nat (length b))
    by (rewrite Hlen, bytes_of_ladder; lia).
  replace (0 + bytes_of (ladder base slot sizes 0 f)) with (Z.of_nat (length b) + 0) by lia.
  apply code_at_shift; [lia|]. decode_page.
Qed.

(** ** Running the pieces *)

Section Run.
Context (fs_base : Z) (callee : Z -> cpu -> cpu) (page : Z) (code : list Z).
Context {ABI : SysV callee}.

Abbreviation run := (run fs_base callee page code).
Abbreviation exec := (exec fs_base callee page).

(** The address of a thread-local word at an [fs] displacement. *)
Definition tls (off : Z) : Z := u64 (fs_base + sext 32 off).

Lemma run_S fuel pc c i n prog :
  code_at code pc ((i, n) :: prog) ->
  run (S fuel) pc c =
  match exec i (pc + Z.of_nat n) c with
  | Goto pc c => run fuel pc c
  | Called k pc c => let (t, e) := run fuel pc c in (k :: t, e)
  | Return a c => ([], Returned a c)
  | Leave t c => ([], TailCalled t c)
  end.
Proof. intros [H _]. simpl. by rewrite H. Qed.

(** One instruction of a known program. *)
Ltac xstep H :=
  rewrite (run_S _ _ _ _ _ _ H);
  cbn [X86.exec get set set_flags set_mem push64 compare holds rax rcx rdx rbx rsp rbp rsi rdi
       zf cf mem address] in *;
  destruct H as [_ H].

(** The state at the entry of a routine: the stack pointer is 8 modulo 16, as
    after a [call], with room for two words below. *)
Definition entry (c : cpu) : Prop :=
  16 <= rsp c <= 2 ^ 64 - 16 ∧ rsp c mod 16 = 8 ∧ fits 64 (rdi c).

Lemma stack_apart c k : entry c -> k = 8 ∨ k = 16 -> words_apart (u64 (rsp c - k)) (rsp c).
Proof.
  intros (Hsp & _) Hk. rewrite u64_small by (pow2; lia).
  apply words_apart_intro; pow2; lia.
Qed.

(** *** The ways a routine ends *)

(** Served on the fast path: no call, [p] in [rax], the memory [m]. *)
Definition serves (r : list call * ending) (c : cpu) (p : Z) (m : gmap Z Z) : Prop :=
  ∃ c', r = ([], Returned (load64 (mem c) (rsp c)) c') ∧
        rax c' = p ∧ rsp c' = rsp c + 8 ∧ mem c' = m.

(** Served by a slow-path function: one call of [f] with the given arguments,
    the stack 16-byte aligned, entered on the caller's memory below the frame;
    [f]'s result and memory are the routine's. *)
Definition defers (r : list call * ending) (c : cpu) (f a0 a1 a2 : Z) : Prop :=
  ∃ ci c', r = ([mkCall f a0 a1 a2 (rsp c - 8)], Returned (load64 (mem c) (rsp c)) c') ∧
    rdi ci = a0 ∧ rsi ci = a1 ∧ rdx ci = a2 ∧
    (∃ ra, mem ci = store64 (mem c) (rsp c - 16) ra) ∧
    rax c' = rax (callee f ci) ∧ mem c' = mem (callee f ci) ∧ rsp c' = rsp c + 8 ∧
    (rsp c - 8) mod 16 = 0.

(** Deoptimised: the handler is called with the site, the page and the reason on
    an aligned stack, then [malloc] is tail-called with the requested size, the
    stack as at the entry and the return address in place. *)
Definition deopts (r : list call * ending) (c : cpu) (h site : Z) (why : DeoptReason) (malloc : Z)
  : Prop :=
  ∃ c', r = ([mkCall h site page (reason_value why) (rsp c - 8)], TailCalled malloc c') ∧
    rdi c' = rdi c ∧ rsp c' = rsp c ∧ load64 (mem c') (rsp c') = load64 (mem c) (rsp c) ∧
    (rsp c - 8) mod 16 = 0.

(** A callee entered with the stack pointer at [sp - 16]. *)
Lemma callee_frame t ci sp :
  rsp ci = sp - 8 - 8 -> 16 <= sp <= 2 ^ 64 - 16 ->
  rsp (callee t ci) = sp - 8 ∧
  load64 (mem (callee t ci)) (sp - 8) = load64 (mem ci) (sp - 8) ∧
  load64 (mem (callee t ci)) sp = load64 (mem ci) sp.
Proof.
  intros E Hsp. pose proof (sysv_frame t ci 8 (or_introl eq_refl)) as H8.
  pose proof (sysv_frame t ci 16 (or_intror eq_refl)) as H16.
  rewrite E in H8, H16. rewrite u64_small in H8 by (pow2; lia). rewrite u64_small in H16 by (pow2; lia).
  replace (sp - 8 - 8 + 8) with (sp - 8) in H8 by lia.
  replace (sp - 8 - 8 + 16) with sp in H16 by lia.
  rewrite sysv_rsp, E, u64_small by (pow2; lia). split; [lia|done].
Qed.

Lemma deopt_runs fuel pc c site r h m :
  entry c -> code_at code pc (deopt_path site page r h m) ->
  deopts (run (9 + fuel) pc c) c h site r m.
Proof.
  intros He Hc. pose proof He as (Hsp & Hal & Hdi).
  destruct c as [ax cx dx bx sp bp si di z f mm]. cbn [rsp rdi] in *.
  cbn [Nat.add]. unfold deopt_path in Hc. do 6 xstep Hc.
  rewrite (u64_small (sp - 8)), (u64_small (sp - 8 - 8)) by (pow2; lia).
  match goal with |- context [callee h ?ci] => set (ci0 := ci) end.
  destruct (callee_frame h ci0 sp) as (Esp & E8 & E16); [cbn; lia|pow2; lia|].
  destruct (callee h ci0) as [ax' cx' dx' bx' sp' bp' si' di' z' f' mm'].
  subst ci0. cbn [rsp mem] in Esp, E8, E16. subst sp'.
  rewrite load64_store64_other, load64_store64_same, (u64_small di) in E8
    by (first [done | apply words_apart_intro; pow2; lia]).
  rewrite !load64_store64_other in E16 by (apply words_apart_intro; pow2; lia).
  do 3 xstep Hc. rewrite E8. eexists. split; [reflexivity|]. cbn [rdi rsp mem].
  rewrite u64_small by (pow2; lia).
  replace (sp - 8 + 8) with sp by lia. split_and!; [done..|].
  rewrite Zminus_mod, Hal. done.
Qed.

(** The stack-realigned call, with or without a third argument. *)
Lemma slow_tail_runs fuel pc c f a0 a1 sp :
  16 <= sp <= 2 ^ 64 - 16 -> sp mod 16 = 8 ->
  rsp c = sp - 8 -> rdi c = a0 -> rsi c = a1 ->
  code_at code pc [(MovRI RAX f, 10%nat); (CallR RAX, 2%nat); (AddRI RSP 8, 4%nat); (Ret, 1%nat)] ->
  ∃ ci c', run (4 + fuel) pc c =
      ([mkCall f a0 a1 (rdx c) (sp - 8)], Returned (load64 (mem c) sp) c') ∧
    rdi ci = a0 ∧ rsi ci = a1 ∧ rdx ci = rdx c ∧
    (∃ ra, mem ci = store64 (mem c) (sp - 16) ra) ∧
    rax c' = rax (callee f ci) ∧ mem c' = mem (callee f ci) ∧ rsp c' = sp + 8 ∧
    (sp - 8) mod 16 = 0.
Proof.
  intros Hsp Hal E <- <- Hc. destruct c as [ax cx dx bx sp0 bp si di z fl mm].
  cbn [rsp rdi rsi rdx mem] in *. subst sp0. cbn [Nat.add]. do 2 xstep Hc.
  rewrite (u64_small (sp - 8 - 8)) by (pow2; lia).
  match goal with |- context [callee f ?ci] => set (ci0 := ci) end.
  destruct (callee_frame f ci0 sp) as (Esp & _ & E16); [cbn; lia|pow2; lia|].
  exists ci0. destruct (callee f ci0) as [ax' cx' dx' bx' sp' bp' si' di' z' f' mm'] eqn:Eci.
  cbn [rsp mem rax] in Esp, E16. subst sp'.
  assert (Hmem : mem ci0 = store64 mm (sp - 16) (u64 (page + (pc + Z.of_nat 10 + Z.of_nat 2)))).
  { subst ci0. cbn [mem]. f_equal; lia. }
  rewrite Hmem in E16. rewrite load64_store64_other in E16 by (apply words_apart_intro; pow2; lia).
  do 2 xstep Hc. rewrite (u64_small (sp - 8 + 8)) by (pow2; lia).
  replace (sp - 8 + 8) with sp by lia. rewrite E16, (u64_small (sp + 8)) by (pow2; lia).
  eexists. split; [reflexivity|]. cbn [rax rsp mem]. subst ci0. cbn [rdi rsi rdx].
  split_and!; try done; [by eauto|]. rewrite Zminus_mod, Hal. done.
Qed.

Lemma slow2_runs fuel pc c slot size f :
  entry c -> code_at code pc (slow_path slot size [] f) ->
  defers (run (7 + fuel) pc c) c f slot size (rdx c).
Proof.
  intros (Hsp & Hal & _) Hc. destruct c as [ax cx dx bx sp bp si di z fl mm].
  cbn [rsp] in *. unfold slow_path in Hc. cbn [app] in Hc. change (7 + fuel)%nat with (3 + (4 + fuel))%nat.
  cbn [Nat.add]. do 3 xstep Hc. rewrite (u64_small (sp - 8)) by (pow2; lia).
  refine (slow_tail_runs _ _ _ f slot size sp Hsp Hal _ _ _ Hc); reflexivity.
Qed.

Lemma slow3_runs fuel pc c slot size i f :
  entry c -> code_at code pc (slow_path slot size [(MovRI RDX i, 5%nat)] f) ->
  defers (run (8 + fuel) pc c) c f slot size i.
Proof.
  intros (Hsp & Hal & _) Hc. destruct c as [ax cx dx bx sp bp si di z fl mm].
  cbn [rsp] in *. unfold slow_path in Hc. cbn [app] in Hc. change (8 + fuel)%nat with (4 + (4 + fuel))%nat.
  cbn [Nat.add]. do 4 xstep Hc. rewrite (u64_small (sp - 8)) by (pow2; lia).
  refine (slow_tail_runs _ _ _ f slot size sp Hsp Hal _ _ _ Hc); reflexivity.
Qed.

(** The registers a routine may overwrite before it decides. *)
Definition scratched (c c' : cpu) : Prop :=
  rdi c' = rdi c ∧ rsp c' = rsp c ∧ mem c' = mem c ∧ rdx c' = rdx c.

Lemma entry_scratched c c' : scratched c c' -> entry c -> entry c'.
Proof. unfold entry. intros (-> & -> & _). done. Qed.
Lemma defers_scratched r c c' f a0 a1 a2 :
  scratched c c' -> defers r c' f a0 a1 a2 -> defers r c f a0 a1 a2.
Proof. unfold defers. by intros (_ & -> & -> & _). Qed.
Lemma deopts_scratched r c c' h site why m :
  scratched c c' -> deopts r c' h site why m -> deopts r c h site why m.
Proof. unfold deopts. by intros (-> & -> & -> & _). Qed.
Lemma serves_scratched r c c' p m : scratched c c' -> serves r c' p m -> serves r c p m.
Proof. unfold serves. by intros (_ & -> & -> & _). Qed.
Lemma scratched_trans c c' c'' : scratched c c' -> scratched c' c'' -> scratched c c''.
Proof. unfold scratched. intuition congruence. Qed.

Lemma guard_runs fuel pc c size rel :
  code_at code pc (guard size rel) ->
  ∃ c', scratched c c' ∧
    run (2 + fuel) pc c = run fuel (if rdi c =? size then pc + 9 else u64 (pc + 9 + rel)) c'.
Proof.
  intros Hc. destruct c as [ax cx dx bx sp bp si di z fl mm]. unfold guard in Hc.
  cbn [Nat.add]. do 2 xstep Hc. eexists. split; [|].
  2:{ replace (pc + Z.of_nat 7 + Z.of_nat 2) with (pc + 9) by lia. cbn [rdi]. apply f_equal2; [by destruct (di =? size)|reflexivity]. }
  done.
Qed.

(** The bump fast path serves when the advanced pointer is below the end, and
    otherwise falls into the slow path with the pointer in [rax]. *)
Lemma bump_runs fuel pc c po eo size :
  entry c -> words_apart (tls po) (rsp c) -> pc + 64 < 2 ^ 64 -> 0 <= pc ->
  code_at code pc (bump_path po eo size) ->
  let p := load64 (mem c) (tls po) in
  let next := u64 (p + size) in
  if next <? load64 (mem c) (tls eo)
  then serves (run (6 + fuel) pc c) c p (store64 (mem c) (tls po) next)
  else ∃ c', scratched c c' ∧ rax c' = p ∧
         run (6 + fuel) pc c = run (2 + fuel) (pc + bytes_of (bump_path po eo size)) c'.
Proof.
  intros (Hsp & _) Hap Hpc Hpc0 Hc p next. destruct c as [ax cx dx bx sp bp si di z fl mm].
  cbn [rsp mem] in *. unfold bump_path in Hc. cbn [Nat.add]. do 3 xstep Hc.
  rewrite (run_S _ _ _ _ _ _ Hc). cbn [X86.exec holds cf set_flags compare]. destruct Hc as [_ Hc].
  fold (tls po) (tls eo) p next. destruct (next <? load64 mm (tls eo)) eqn:E; cbn [negb].
  - do 2 xstep Hc. fold (tls po) p next. rewrite load64_store64_other, (u64_small (sp + 8)) by (first [done | pow2; lia]).
    eexists. split; [reflexivity|]. done.
  - eexists. split; [|split; [|f_equal]]; [done|done|].
    unfold bytes_of, bump_path. cbn [foldr snd]. case_match; rewrite u64_small by (pow2; lia); lia.
Qed.

(** The pop takes the head of a non-empty list, and otherwise falls into the
    refill path. *)
Lemma pop_runs fuel pc c ho :
  entry c -> words_apart (tls ho) (rsp c) -> pc + 64 < 2 ^ 64 -> 0 <= pc ->
  code_at code pc (pop_path ho) ->
  let p := load64 (mem c) (tls ho) in
  if p =? 0
  then ∃ c', scratched c c' ∧
         run (6 + fuel) pc c = run (3 + fuel) (pc + bytes_of (pop_path ho)) c'
  else serves (run (6 + fuel) pc c) c p (store64 (mem c) (tls ho) (load64 (mem c) p)).
Proof.
  intros (Hsp & _) Hap Hpc Hpc0 Hc p. destruct c as [ax cx dx bx sp bp si di z fl mm].
  cbn [rsp mem] in *. unfold pop_path in Hc. cbn [Nat.add]. do 2 xstep Hc.
  rewrite (run_S _ _ _ _ _ _ Hc). cbn [X86.exec holds zf set_flags]. destruct Hc as [_ Hc].
  fold (tls ho) p. rewrite Z.land_diag. destruct (p =? 0) eqn:E.
  - eexists. split; [|f_equal]; [done|].
    unfold bytes_of, pop_path. cbn [foldr snd]. rewrite u64_small by (pow2; lia). lia.
  - do 3 xstep Hc. fold (tls ho) p. rewrite load64_store64_other, (u64_small (sp + 8)) by (first [done | pow2; lia]).
    eexists. split; [reflexivity|]. done.
Qed.
Lemma run_cmp_rax fuel pc c rel :
  code_at code pc [(CmpRI RAX 0, 4%nat); (Jcc NE rel, 2%nat)] ->
  ∃ c', scratched c c' ∧
    run (2 + fuel) pc c =
    run fuel (if rax c =? 0 then pc + 6 else u64 (pc + 6 + rel)) c'.
Proof.
  intros Hc. destruct c as [ax cx dx bx sp bp si di z fl mm]. cbn [Nat.add].
  do 2 xstep Hc. eexists. split; [|].
  2:{ replace (pc + Z.of_nat 4 + Z.of_nat 2) with (pc + 6) by lia.
      cbn [rax]. apply f_equal2; [by destruct (ax =? 0)|reflexivity]. }
  done.
Qed.

End Run.

(** ** The routines *)

(** The operands of a routine are in their C++ types; a size is below the
    histogram's bound. *)
Record operands (buf slot size site h f m : Z) : Prop := {
  op_buf : 0 < buf < 2 ^ 64;
  op_slot : fits 32 slot;
  op_size : 0 <= size < 2 ^ 31;
  op_site : fits 32 site;
  op_handler : fits 64 h;
  op_slow : fits 64 f;
  op_malloc : fits 64 m;
}.

Section Routines.
Context (fs_base : Z) (callee : Z -> cpu -> cpu) {ABI : SysV callee}.
Context (buf buf_size po eo slot size site h f m : Z) (Hops : operands buf slot size site h f m).
Context (Hroom : 200 <= buf_size) (Hpo : fits 32 po) (Heo : fits 32 eo).
Context (c : cpu) (He : entry c) (Hap : words_apart (tls fs_base po) (rsp c)).

(** The shape the bump, arena and producer routines share: guard, bump path, a
    slow path that starts after it. *)
Lemma bump_prefix code rel rest fuel :
  code_at code 0 (guard size rel ++ bump_path po eo size ++ rest) ->
  let p := load64 (mem c) (tls fs_base po) in
  let next := u64 (p + size) in
  let after := 9 + bytes_of (bump_path po eo size) in
  let r := run fs_base callee buf code (8 + fuel) 0 c in
  code_at code after rest ∧
  if rdi c =? size
  then if next <? load64 (mem c) (tls fs_base eo)
       then serves r c p (store64 (mem c) (tls fs_base po) next)
       else ∃ c', scratched c c' ∧ rax c' = p ∧ r = run fs_base callee buf code (2 + fuel) after c'
  else ∃ c', scratched c c' ∧ r = run fs_base callee buf code (6 + fuel) (u64 (9 + rel)) c'.
Proof.
  intros Hc p next after r. rewrite !code_at_app in Hc. destruct Hc as (Hg & Hb & Hrest).
  split; [exact Hrest|].
  destruct (guard_runs fs_base callee buf code (6 + fuel) 0 c size rel Hg) as (c1 & Hs1 & E1).
  change (r = run fs_base callee buf code (6 + fuel)
    (if rdi c =? size then 9 else u64 (9 + rel)) c1) in E1. clearbody r.
  destruct (rdi c =? size); [|by exists c1].
  pose proof Hs1 as (_ & Esp & Em & _).
  assert (Hbr : if next <? load64 (mem c) (tls fs_base eo)
    then serves r c1 p (store64 (mem c) (tls fs_base po) next)
    else ∃ c', scratched c1 c' ∧ rax c' = p ∧ r = run fs_base callee buf code (2 + fuel) after c').
  { rewrite E1. pose proof (bump_runs fs_base callee buf code fuel (0 + 9) c1 po eo size) as H.
    rewrite Em, Esp in H. apply H; [by eapply entry_scratched|done|pow2; lia|lia|exact Hb]. }
  destruct (next <? _); [by eapply serves_scratched|].
  destruct Hbr as (c2 & Hs2 & Eax & Er). exists c2. split; [by eapply scratched_trans|done].
Qed.

(** Refilling routines: on an exhausted region the slow path always runs. *)
Lemma refilling_runs code :
  code_at code 0 (guard size (if size <? 128 then 65 else 68) ++ bump_path po eo size ++
    slow_path slot size [] f ++ deopt_path site buf SizeDrift h m) ->
  let p := load64 (mem c) (tls fs_base po) in
  let next := u64 (p + size) in
  let r := run fs_base callee buf code 40 0 c in
  if rdi c =? size
  then if next <? load64 (mem c) (tls fs_base eo)
       then serves r c p (store64 (mem c) (tls fs_base po) next)
       else defers callee r c f slot size (rdx c)
  else deopts buf r c h site SizeDrift m.
Proof.
  intros Hc p next r. destruct (bump_prefix _ _ _ 32 Hc) as [Hrest H].
  fold p next in H. change (8 + 32)%nat with 40%nat in H. fold r in H. clearbody r.
  rewrite code_at_app in Hrest. destruct Hrest as [Hslow Hdeopt].
  destruct (rdi c =? size).
  - destruct (next <? _); [exact H|]. destruct H as (c' & Hs & _ & ->).
    eapply defers_scratched; [exact Hs|]. pose proof Hs as (_ & _ & _ & <-).
    apply (slow2_runs _ _ _ _ 27); [by eapply entry_scratched|exact Hslow].
  - destruct H as (c' & Hs & ->). eapply deopts_scratched; [exact Hs|].
    apply (deopt_runs _ _ _ _ 29); [by eapply entry_scratched|].
    replace (u64 _) with (9 + bytes_of (bump_path po eo size) + bytes_of (slow_path slot size [] f));
      [exact Hdeopt|]. unfold bump_path. by destruct (size <? 128).
Qed.

Lemma refilling_alloc_runs code :
  code ∈ [emit_epoch_arena buf buf_size po eo slot size site h f m;
          emit_pc_alloc buf buf_size po eo slot size site h f m] ->
  let p := load64 (mem c) (tls fs_base po) in
  let next := u64 (p + size) in
  let r := run fs_base callee buf code 40 0 c in
  if rdi c =? size
  then if next <? load64 (mem c) (tls fs_base eo)
       then serves r c p (store64 (mem c) (tls fs_base po) next)
       else defers callee r c f slot size (rdx c)
  else deopts buf r c h site SizeDrift m.
Proof.
  intros Hcode. pose proof Hops as []. apply refilling_runs.
  apply list_elem_of_In in Hcode as [<-|[<-|[]]]; [by apply epoch_code|by apply pc_code].
Qed.

Lemma bump_alloc_runs :
  let code := emit_bump_alloc buf buf_size po eo slot size site h f m in
  let p := load64 (mem c) (tls fs_base po) in
  let next := u64 (p + size) in
  let r := run fs_base callee buf code 40 0 c in
  if rdi c =? size
  then if next <? load64 (mem c) (tls fs_base eo)
       then serves r c p (store64 (mem c) (tls fs_base po) next)
       else if p =? 0 then defers callee r c f slot size (rdx c)
       else deopts buf r c h site RegionExhaust m
  else deopts buf r c h site RegionExhaust m.
Proof.
  intros code p next r. destruct Hops.
  pose proof (bump_code buf buf_size po eo slot size site h f m) as Hc.
  fold code in Hc. specialize (Hc ltac:(done) ltac:(done) ltac:(done) ltac:(done) ltac:(done)
    ltac:(done) ltac:(done) ltac:(done) ltac:(done) ltac:(done)).
  destruct (bump_prefix code _ _ 32 Hc) as [Hrest H].
  fold p next in H. change (8 + 32)%nat with 40%nat in H. fold r in H. clearbody r code.
  rewrite !code_at_app in Hrest. destruct Hrest as (Hcmp & Hslow & Hdeopt).
  set (after := 9 + bytes_of (bump_path po eo size)) in *.
  change (bytes_of [(CmpRI RAX 0, 4%nat); (Jcc NE 31, 2%nat)]) with 6 in *.
  change (bytes_of (slow_path slot size [] f)) with 31 in *.
  destruct (rdi c =? size).
  - destruct (next <? _); [exact H|]. destruct H as (c' & Hs & Hax & ->).
    destruct (run_cmp_rax fs_base callee buf code 32 after c' 31 Hcmp) as (c2 & Hs2 & ->).
    pose proof (scratched_trans _ _ _ Hs Hs2) as Hs3. rewrite Hax.
    destruct (p =? 0).
    + eapply defers_scratched; [exact Hs3|]. pose proof Hs3 as (_ & _ & _ & <-).
      apply (slow2_runs _ _ _ _ 25); [by eapply entry_scratched|exact Hslow].
    + eapply deopts_scratched; [exact Hs3|].
      apply (deopt_runs _ _ _ _ 23); [by eapply entry_scratched|].
      replace (u64 (after + 6 + 31)) with (after + 6 + 31); [exact Hdeopt|].
      subst after. unfold bump_path. by destruct (size <? 128).
  - destruct H as (c' & Hs & ->). eapply deopts_scratched; [exact Hs|].
    apply (deopt_runs _ _ _ _ 29); [by eapply entry_scratched|].
    replace (u64 _) with (after + 6 + 31); [exact Hdeopt|].
    subst after. unfold bump_path. by destruct (size <? 128).
Qed.
End Routines.

Section FreeListRoutines.
Context (fs_base : Z) (callee : Z -> cpu -> cpu) {ABI : SysV callee}.
Context (buf buf_size slot site h f m : Z) (c : cpu) (He : entry c).

(** A guarded pop with its refill, at [pc]: what it does on its size, and where
    it goes on another one. *)
Lemma guarded_pop_runs code pc ho size rel third fuel c0 (refill : Z) :
  0 <= pc < 2 ^ 32 -> scratched c c0 -> words_apart (tls fs_base ho) (rsp c) ->
  (third = [] ∧ refill = rdx c ∨ third = [(MovRI RDX refill, 5%nat)]) ->
  code_at code pc (guard size rel ++ pop_path ho ++ slow_path slot size third f) ->
  let p := load64 (mem c) (tls fs_base ho) in
  let r := run fs_base callee buf code (13 + fuel) pc c0 in
  if rdi c =? size
  then if p =? 0 then defers callee r c f slot size refill
       else serves r c p (store64 (mem c) (tls fs_base ho) (load64 (mem c) p))
  else ∃ c', scratched c c' ∧ r = run fs_base callee buf code (11 + fuel) (u64 (pc + 9 + rel)) c'.
Proof.
  intros Hpc Hs0 Hap Hthird Hc p r. rewrite !code_at_app in Hc. destruct Hc as (Hg & Hpop & Hslow).
  destruct (guard_runs fs_base callee buf code (11 + fuel) pc c0 size rel Hg) as (c1 & Hs1 & E1).
  change (r = run fs_base callee buf code (11 + fuel)
    (if rdi c0 =? size then pc + 9 else u64 (pc + 9 + rel)) c1) in E1. clearbody r.
  pose proof (scratched_trans _ _ _ Hs0 Hs1) as Hs. pose proof Hs as (Edi & Esp & Em & Edx).
  replace (rdi c0) with (rdi c) in E1 by (symmetry; apply Hs0).
  destruct (rdi c =? size); [|by exists c1].
  pose proof (pop_runs fs_base callee buf code (5 + fuel) (pc + 9) c1 ho) as H.
  rewrite Em, Esp in H. cbn zeta in H. fold p in H.
  specialize (H ltac:(by eapply entry_scratched) Hap ltac:(pow2; lia) ltac:(lia) Hpop).
  rewrite E1. change (6 + (5 + fuel))%nat with (11 + fuel)%nat in H. destruct (p =? 0).
  - destruct H as (c2 & Hs2 & ->). pose proof (scratched_trans _ _ _ Hs Hs2) as Hs3.
    eapply defers_scratched; [exact Hs3|].
    destruct Hthird as [[-> ->]| ->].
    + pose proof Hs3 as (_ & _ & _ & <-).
      apply (slow2_runs _ _ _ _ (1 + fuel)); [by eapply entry_scratched|exact Hslow].
    + apply (slow3_runs _ _ _ _ fuel); [by eapply entry_scratched|exact Hslow].
  - by eapply serves_scratched.
Qed.

Lemma freelist_alloc_runs ho size :
  operands buf slot size site h f m -> 200 <= buf_size -> fits 32 ho ->
  words_apart (tls fs_base ho) (rsp c) ->
  let code := emit_freelist_alloc buf buf_size ho slot size site h f m in
  let p := load64 (mem c) (tls fs_base ho) in
  let r := run fs_base callee buf code 40 0 c in
  if rdi c =? size
  then if p =? 0 then defers callee r c f slot size (rdx c)
       else serves r c p (store64 (mem c) (tls fs_base ho) (load64 (mem c) p))
  else deopts buf r c h site SizeDrift m.
Proof.
  intros [] Hroom Hho Hap code p r.
  pose proof (freelist_code buf buf_size ho slot size site h f m) as Hc. fold code in Hc.
  specialize (Hc ltac:(done) ltac:(done) ltac:(done) ltac:(done) ltac:(done)
    ltac:(done) ltac:(done) ltac:(done) ltac:(done)).
  rewrite !app_assoc, code_at_app in Hc. destruct Hc as [Hc Hdeopt]. rewrite <- !app_assoc in Hc.
  pose proof (guarded_pop_runs code 0 ho size 58 [] 27 c (rdx c)) as H.
  cbn zeta in H. fold p in H. change (13 + 27)%nat with 40%nat in H. fold r in H. clearbody r code.
  specialize (H ltac:(pow2; lia) ltac:(done) Hap ltac:(by left) Hc).
  destruct (rdi c =? size); [exact H|]. destruct H as (c' & Hs & ->).
  eapply deopts_scratched; [exact Hs|].
  apply (deopt_runs _ _ _ _ 29); [by eapply entry_scratched|exact Hdeopt].
Qed.

(** The first class of a size. *)
Fixpoint class_of (sizes : list Z) (s : Z) (i : nat) : option nat :=
  match sizes with
  | [] => None
  | c :: cs => if s =? c then Some i else class_of cs s (S i)
  end.

(** The displacement of [heads[i]]. *)
Definition head_off (base : Z) (i : nat) : Z := u32 (base + u32 (Z.of_nat i * 8)).

Lemma ladder_runs code pc base sizes i fuel c0 :
  0 <= pc -> pc + 72 * Z.of_nat (length sizes) < 2 ^ 32 -> scratched c c0 ->
  (∀ k, (k < i + length sizes)%nat -> words_apart (tls fs_base (head_off base k)) (rsp c)) ->
  code_at code pc (ladder base slot sizes i f) ->
  let r := run fs_base callee buf code (2 * length sizes + (11 + fuel)) pc c0 in
  match class_of sizes (rdi c) i with
  | Some k =>
      let p := load64 (mem c) (tls fs_base (head_off base k)) in
      if p =? 0 then defers callee r c f slot (rdi c) (Z.of_nat k)
      else serves r c p (store64 (mem c) (tls fs_base (head_off base k)) (load64 (mem c) p))
  | None =>
      ∃ c', scratched c c' ∧
        r = run fs_base callee buf code (11 + fuel) (pc + 72 * Z.of_nat (length sizes)) c'
  end.
Proof.
  revert pc i c0. induction sizes as [|s cs IH]; intros pc i c0 Hpc Hlt Hs Hap Hc r.
  { exists c0. split; [done|]. subst r. simpl length. f_equal; lia. }
  cbn [ladder length] in *. rewrite code_at_app in Hc. destruct Hc as [Hc Hrest].
  change (bytes_of (class_path base slot s (Z.of_nat i) f)) with 72 in Hrest.
  pose proof (guarded_pop_runs code pc (head_off base i) s 63 _
    (2 * length cs + fuel) c0 (Z.of_nat i) ltac:(pow2; lia) Hs ltac:(apply Hap; lia)
    ltac:(by right) Hc) as H.
  replace (13 + (2 * length cs + fuel))%nat with (2 * S (length cs) + (11 + fuel))%nat in H by lia.
  fold r in H. cbn [class_of]. destruct (Z.eqb_spec (rdi c) s) as [->|Hne]; [exact H|].
  clearbody r. destruct H as (c' & Hs' & ->).
  replace (11 + (2 * length cs + fuel))%nat with (2 * length cs + (11 + fuel))%nat by lia.
  rewrite (u64_small (pc + 9 + 63)) by (pow2; lia).
  specialize (IH (pc + 72) (S i) c' ltac:(lia) ltac:(lia) Hs').
  replace (pc + 9 + 63) with (pc + 72) by lia.
  specialize (IH ltac:(intros k Hk; apply Hap; lia) Hrest). cbn zeta in IH.
  destruct (class_of cs (rdi c) (S i)); [exact IH|]. destruct IH as (c'' & Hs'' & ->).
  exists c''. split; [done|]. f_equal. lia.
Qed.

Lemma multi_alloc_runs base sizes :
  operands buf slot 0 site h f m -> Forall (λ s, 0 <= s < 2 ^ 31) sizes ->
  (1 <= length sizes <= 4)%nat -> 512 <= buf_size ->
  (∀ k, (k < length sizes)%nat -> words_apart (tls fs_base (head_off base k)) (rsp c)) ->
  let code := emit_multi_freelist_alloc buf buf_size base slot sizes site h f m in
  let r := run fs_base callee buf code 40 0 c in
  match class_of sizes (rdi c) 0 with
  | Some k =>
      let p := load64 (mem c) (tls fs_base (head_off base k)) in
      if p =? 0 then defers callee r c f slot (rdi c) (Z.of_nat k)
      else serves r c p (store64 (mem c) (tls fs_base (head_off base k)) (load64 (mem c) p))
  | None => deopts buf r c h site SizeDrift m
  end.
Proof.
  intros [] Hsizes Hn Hroom Hap code r.
  destruct (multi_code buf buf_size base slot sizes site h f m) as [Hc _]; [done..|].
  fold code in Hc. rewrite code_at_app in Hc. destruct Hc as [Hc Hdeopt].
  pose proof (ladder_runs code 0 base sizes 0 (29 - 2 * length sizes) c ltac:(lia)
    ltac:(pow2; lia) ltac:(done) Hap Hc) as H.
  replace (2 * length sizes + (11 + (29 - 2 * length sizes)))%nat with 40%nat in H by lia.
  fold r in H. cbn zeta in H. destruct (class_of sizes (rdi c) 0); [exact H|].
  clearbody r code. destruct H as (c' & Hs & ->). eapply deopts_scratched; [exact Hs|].
  replace (11 + (29 - 2 * length sizes))%nat with (9 + (31 - 2 * length sizes))%nat by lia.
  apply (deopt_runs _ _ _ _ (31 - 2 * length sizes)); [by eapply entry_scratched|].
  by rewrite bytes_of_ladder in Hdeopt.
Qed.
End FreeListRoutines.

(** ** Properties *)

(** The length of a page whose bytes are known up to the immediates. *)
Ltac page_length :=
  match goal with |- context [length ?l] =>
    let n := eval lazy -[byte u8] in (length l) in
    replace (length l) with n by (lazy -[byte u8]; reflexivity)
  end.

Lemma class_bytes i base slot size f :
  ∃ b, emit_class [] i base slot size f = Some b ∧ length b = 72%nat.
Proof.
  unfold emit_class. generalize (u32 (base + u32 (Z.of_nat i * 8))). intros ho.
  generalize (Z.of_nat i). intros k. eexists. split; reflexivity.
Qed.

Lemma emit_classes_length p sizes i base slot f :
  ∃ b, emit_classes p i base slot sizes f = Some (p ++ b) ∧ length b = (72 * length sizes)%nat.
Proof.
  revert p i. induction sizes as [|c cs IH]; intros p i; cbn [emit_classes length].
  { exists []. by rewrite app_nil_r. }
  destruct (class_bytes i base slot c f) as (b & Hb & Hlen).
  pose proof (emit_class_prefix p [] i base slot c f) as E.
  rewrite app_nil_r, Hb in E. rewrite E. cbn [fmap option_fmap option_map].
  destruct (IH (p ++ b) (S i)) as (b' & -> & Hlen'). exists (b ++ b').
  rewrite app_assoc. split; [done|]. rewrite length_app. lia.
Qed.

(** A page large enough is always written. *)
Lemma w8_nonempty p v : w8 p v ≠ [].
Proof. unfold w8. by destruct p. Qed.

Lemma emitted_nonempty (buf buf_size o1 o2 slot size site h f m : Z) (sizes : list Z) :
  buf ≠ 0 -> 512 <= buf_size -> (1 <= length sizes <= 4)%nat ->
  emit_bump_alloc buf buf_size o1 o2 slot size site h f m ≠ [] ∧
  emit_freelist_alloc buf buf_size o1 slot size site h f m ≠ [] ∧
  emit_epoch_arena buf buf_size o1 o2 slot size site h f m ≠ [] ∧
  emit_pc_alloc buf buf_size o1 o2 slot size site h f m ≠ [] ∧
  emit_multi_freelist_alloc buf buf_size o1 slot sizes site h f m ≠ [].
Proof.
  intros Hb Hs Hn.
  unfold emit_bump_alloc, emit_freelist_alloc, emit_epoch_arena, emit_pc_alloc, emit_multi_freelist_alloc.
  rewrite (proj2 (Z.eqb_neq buf 0)), !(proj2 (Z.ltb_ge buf_size _)) by lia.
  rewrite (proj2 (Nat.eqb_neq _ _)), (proj2 (Nat.ltb_ge _ _)) by lia.
  destruct (emit_classes_length [] sizes 0 o1 slot f) as (b & -> & _).
  simpl orb. cbv iota zeta. split_and!; apply w8_nonempty.
Qed.

(** C37: no routine overruns its code page buffer, and each refuses, writing
    nothing, a null or short buffer: the bytes written fit in [buf_size] for
    every operand. *)
Theorem emitted_within_buffer (buf buf_size o1 o2 slot size site h f m : Z) (sizes : list Z) :
  let fits_in code := code = [] ∨ buf ≠ 0 ∧ 0 < Z.of_nat (length code) <= buf_size in
  fits_in (emit_bump_alloc buf buf_size o1 o2 slot size site h f m) ∧
  fits_in (emit_freelist_alloc buf buf_size o1 slot size site h f m) ∧
  fits_in (emit_epoch_arena buf buf_size o1 o2 slot size site h f m) ∧
  fits_in (emit_pc_alloc buf buf_size o1 o2 slot size site h f m) ∧
  fits_in (emit_multi_freelist_alloc buf buf_size o1 slot sizes site h f m).
Proof.
  intros fits_in.
  assert (Hif : ∀ (b : bool) code, (b = false -> fits_in code) -> fits_in (if b then [] else code)).
  { intros [] code H; [by left|by apply H]. }
  split_and!; apply Hif; intros [Hb%Z.eqb_neq Hs%Z.ltb_ge]%orb_false_iff;
    [right; split; [done|]; unfold lea_rcx; try destruct (size <? 128); page_length; lia..|].
  apply Hif. intros [Hn0%Nat.eqb_neq Hn4%Nat.ltb_ge]%orb_false_iff.
  destruct (emit_classes_length [] sizes 0 o1 slot f) as (b & -> & Hlen).
  right. split; [done|]. cbn [app]. unfold w_reason. rewrite <- (app_nil_r b).
  rewrite !w8_app, !w32_app, !w8_app, !w64_app, !w8_app, !w32_app, !w8_app, !w64_app, !w8_app,
    !w64_app, !w8_app, length_app, Hlen. simpl length. lia.
Qed.

(** The bump routine, on every path.  With the site's size it serves the
    thread's bump pointer while the advanced pointer is below the region end,
    and advances it; on a slot never initialised it calls the initialiser with
    the slot and size on an aligned stack and returns its result; on an exhausted
    region or another size it reports the deopt to the handler and tail-calls
    [malloc] with the requested size. *)
Theorem bump_routine_correct (fs_base : Z) (callee : Z -> cpu -> cpu) (c : cpu)
    (buf buf_size po eo slot size site h f m : Z) :
  SysV callee -> operands buf slot size site h f m -> 200 <= buf_size ->
  fits 32 po -> fits 32 eo -> entry c -> words_apart (tls fs_base po) (rsp c) ->
  let code := emit_bump_alloc buf buf_size po eo slot size site h f m in
  let p := load64 (mem c) (tls fs_base po) in
  let next := u64 (p + size) in
  let r := run fs_base callee buf code 40 0 c in
  if rdi c =? size
  then if next <? load64 (mem c) (tls fs_base eo)
       then serves r c p (store64 (mem c) (tls fs_base po) next)
       else if p =? 0 then defers callee r c f slot size (rdx c)
       else deopts buf r c h site RegionExhaust m
  else deopts buf r c h site RegionExhaust m.
Proof. intros. by apply bump_alloc_runs. Qed.

(** A callee that returns 4096, for the witnesses. *)
Definition stub (t : Z) (c : cpu) : cpu := set RSP (u64 (rsp c + 8)) (set RAX 4096 c).

#[export] Instance stub_sysv : SysV stub.
Proof. split; intros t []; done. Qed.

(** A thread whose bump slot is at [fs:0], with 64 bytes left. *)
Definition thread0 (size : Z) : cpu :=
  mkCpu 0 0 0 0 32760 0 0 size false false
    (store64 (store64 (store64 ∅ 32760 777) 65536 1048576) 65544 1048641).

Lemma operands0 : operands 16384 3 64 99 500 600 700.
Proof. split; pow2; lia. Qed.
Lemma entry0 size : fits 64 size -> entry (thread0 size).
Proof. intros. split_and!; simpl; done. Qed.
Lemma apart0 : words_apart (tls 65536 0) (rsp (thread0 64)).
Proof. apply words_apart_intro; vm_compute; intuition discriminate. Qed.

Lemma bump_routine_correct_witness :
  serves (run 65536 stub 16384 (emit_bump_alloc 16384 4096 0 8 3 64 99 500 600 700) 40 0 (thread0 64))
    (thread0 64) 1048576 (store64 (mem (thread0 64)) 65536 1048640) ∧
  deopts 16384 (run 65536 stub 16384 (emit_bump_alloc 16384 4096 0 8 3 64 99 500 600 700) 40 0 (thread0 65))
    (thread0 65) 500 99 RegionExhaust 700.
Proof.
  split;
    [refine (bump_routine_correct 65536 stub (thread0 64) 16384 4096 0 8 3 64 99 500 600 700
       stub_sysv operands0 _ _ _ (entry0 64 _) apart0)
    |refine (bump_routine_correct 65536 stub (thread0 65) 16384 4096 0 8 3 64 99 500 600 700
       stub_sysv operands0 _ _ _ (entry0 65 _) apart0)];
    pow2; lia.
Defined.

(** The epoch-arena and producer-consumer routines, on every path: as the
    bump routine, but an exhausted region always goes to the slow-path function,
    so the only deoptimisation is a request of another size. *)
Theorem refilling_routines_correct (fs_base : Z) (callee : Z -> cpu -> cpu) (c : cpu)
    (buf buf_size po eo slot size site h f m : Z) (code : list Z) :
  SysV callee -> operands buf slot size site h f m -> 200 <= buf_size ->
  fits 32 po -> fits 32 eo -> entry c -> words_apart (tls fs_base po) (rsp c) ->
  code ∈ [emit_epoch_arena buf buf_size po eo slot size site h f m;
          emit_pc_alloc buf buf_size po eo slot size site h f m] ->
  let p := load64 (mem c) (tls fs_base po) in
  let next := u64 (p + size) in
  let r := run fs_base callee buf code 40 0 c in
  if rdi c =? size
  then if next <? load64 (mem c) (tls fs_base eo)
       then serves r c p (store64 (mem c) (tls fs_base po) next)
       else defers callee r c f slot size (rdx c)
  else deopts buf r c h site SizeDrift m.
Proof.
  intros. by apply refilling_alloc_runs with (buf_size := buf_size).
Qed.

Lemma refilling_routines_correct_witness :
  defers stub (run 65536 stub 16384 (emit_pc_alloc 16384 4096 0 8 3 72 99 500 600 700) 40 0 (thread0 72))
    (thread0 72) 600 3 72 0.
Proof.
  refine (refilling_routines_correct 65536 stub (thread0 72) 16384 4096 0 8 3 72 99 500 600 700 _
    stub_sysv _ _ _ _ (entry0 72 _) apart0 _);
    [split; pow2; lia|lia|pow2; lia|pow2; lia|pow2; lia|].
  apply elem_of_cons. right. apply list_elem_of_singleton. reflexivity.
Defined.

(** The free-list routine, on every path: it pops the thread's list by
    loading the link of the head, refills through an aligned call when the list
    is empty, and deoptimises only on another size. *)
Theorem freelist_routine_correct (fs_base : Z) (callee : Z -> cpu -> cpu) (c : cpu)
    (buf buf_size ho slot size site h f m : Z) :
  SysV callee -> operands buf slot size site h f m -> 200 <= buf_size ->
  fits 32 ho -> entry c -> words_apart (tls fs_base ho) (rsp c) ->
  let code := emit_freelist_alloc buf buf_size ho slot size site h f m in
  let p := load64 (mem c) (tls fs_base ho) in
  let r := run fs_base callee buf code 40 0 c in
  if rdi c =? size
  then if p =? 0 then defers callee r c f slot size (rdx c)
       else serves r c p (store64 (mem c) (tls fs_base ho) (load64 (mem c) p))
  else deopts buf r c h site SizeDrift m.
Proof. intros. by apply freelist_alloc_runs. Qed.

Lemma freelist_routine_correct_witness :
  serves (run 65536 stub 16384 (emit_freelist_alloc 16384 4096 0 3 64 99 500 600 700) 40 0 (thread0 64))
    (thread0 64) 1048576 (store64 (mem (thread0 64)) 65536 0).
Proof.
  refine (freelist_routine_correct 65536 stub (thread0 64) 16384 4096 0 3 64 99 500 600 700
    stub_sysv operands0 _ _ (entry0 64 _) apart0); pow2; lia.
Defined.

(** The multi-size routine, on every path: the ladder finds the first class
    of the requested size, pops that class's list at [heads[k]], refills class
    [k] with the class index as third argument when it is empty, and deoptimises
    when no class has the size. *)
Theorem multi_routine_correct (fs_base : Z) (callee : Z -> cpu -> cpu) (c : cpu)
    (buf buf_size base slot site h f m : Z) (sizes : list Z) :
  SysV callee -> operands buf slot 0 site h f m -> Forall (λ s, 0 <= s < 2 ^ 31) sizes ->
  (1 <= length sizes <= 4)%nat -> 512 <= buf_size -> entry c ->
  (∀ k, (k < length sizes)%nat -> words_apart (tls fs_base (head_off base k)) (rsp c)) ->
  let code := emit_multi_freelist_alloc buf buf_size base slot sizes site h f m in
  let r := run fs_base callee buf code 40 0 c in
  match class_of sizes (rdi c) 0 with
  | Some k =>
      let p := load64 (mem c) (tls fs_base (head_off base k)) in
      if p =? 0 then defers callee r c f slot (rdi c) (Z.of_nat k)
      else serves r c p (store64 (mem c) (tls fs_base (head_off base k)) (load64 (mem c) p))
  | None => deopts buf r c h site SizeDrift m
  end.
Proof. intros. by apply multi_alloc_runs. Qed.

Lemma multi_routine_correct_witness :
  defers stub (run 65536 stub 16384 (emit_multi_freelist_alloc 16384 4096 8 3 [32; 64] 99 500 600 700)
    40 0 (thread0 64)) (thread0 64) 600 3 64 1.
Proof.
  refine (multi_routine_correct 65536 stub (thread0 64) 16384 4096 8 3 99 500 600 700 [32; 64]
    stub_sysv _ _ _ _ (entry0 64 _) _);
    [split; pow2; lia|repeat constructor; pow2; lia|simpl; lia|lia|pow2; lia|].
  intros k Hk. apply words_apart_intro;
    (destruct k as [|[|k]]; [vm_compute; intuition discriminate..|simpl in Hk; lia]).
Defined.
