(* ===== verification/Segment.v ===== *)
(** * Segments ([src/src/seg/segment.h], [segment.cpp])

    A segment is a 2 MiB-aligned region whose first 64 bytes are its header.
    The world holds the headers of the mapped segments, the link words the free
    lists thread through chunks, the pagemap and the registry index.  [mmap]'s
    result is a parameter; the regions it gives and [munmap] takes back are the
    system calls recorded by [aligned_mmap_2mib]. *)

From S2P Require Import Prelude Common.

Definition SEGMENT_SHIFT : Z := 21.
Definition SEGMENT_SIZE : Z := 2 ^ 21.
Definition SEGMENT_MASK : Z := Z.lnot (SEGMENT_SIZE - 1).
Definition HEADER_SIZE : Z := 64.

Record SegmentHeader := mkHeader {
  strategy : Strategy;
  retired : bool;
  class_idx : Z;
  decommitted : bool;
  slot_index : Z;
  alloc_site : CallSiteID;
  owner_tid : Z;
  live_chunks : Z;
  chunk_size : Z;
  retire_epoch : Z;
  remote_head : ptr;
  bump_ptr : ptr;
  bump_limit : ptr;
  next_in_site : ptr;
}.

(** Field updates. *)
Definition with_class (c : Z) (h : SegmentHeader) : SegmentHeader :=
  let 'mkHeader s r _ d sl al ow li cs re rh bp bl nx := h in mkHeader s r c d sl al ow li cs re rh bp bl nx.
Definition with_decommitted (h : SegmentHeader) : SegmentHeader :=
  let 'mkHeader s r c _ sl al ow li cs re rh bp bl nx := h in mkHeader s r c true sl al ow li cs re rh bp bl nx.
Definition with_retired (live : Z) (h : SegmentHeader) : SegmentHeader :=
  let 'mkHeader s _ c d sl al ow _ cs re rh bp bl nx := h in mkHeader s true c d sl al ow live cs re rh bp bl nx.
Definition with_live (live : Z) (h : SegmentHeader) : SegmentHeader :=
  let 'mkHeader s r c d sl al ow _ cs re rh bp bl nx := h in mkHeader s r c d sl al ow live cs re rh bp bl nx.
Definition with_remote (p : ptr) (h : SegmentHeader) : SegmentHeader :=
  let 'mkHeader s r c d sl al ow li cs re _ bp bl nx := h in mkHeader s r c d sl al ow li cs re p bp bl nx.
Definition with_bump (p : ptr) (h : SegmentHeader) : SegmentHeader :=
  let 'mkHeader s r c d sl al ow li cs re rh _ bl nx := h in mkHeader s r c d sl al ow li cs re rh p bl nx.
Definition with_next (p : ptr) (h : SegmentHeader) : SegmentHeader :=
  let 'mkHeader s r c d sl al ow li cs re rh bp bl _ := h in mkHeader s r c d sl al ow li cs re rh bp bl p.

Definition chunks_in_segment (h : SegmentHeader) : Z :=
  if chunk_size h =? 0 then 0 else u32 ((SEGMENT_SIZE - HEADER_SIZE) / chunk_size h).

Definition payload_start (s : ptr) : ptr := s + HEADER_SIZE.
Definition segment_end (s : ptr) : ptr := s + SEGMENT_SIZE.
Definition seg_of (p : ptr) : ptr := Z.land p SEGMENT_MASK.

(** ** The world *)

Record world := mkWorld {
  segs : gmap Z SegmentHeader;   (** headers of the mapped segments *)
  words : gmap Z Z;              (** the first word of a chunk, by address *)
  pagemap : gmap Z Z;            (** 64-bit words of the pagemap *)
  index : list Z;                (** [g_index[0 .. g_index_count)] *)
}.

Definition set_segs (m : gmap Z SegmentHeader) (w : world) : world :=
  mkWorld m (words w) (pagemap w) (index w).
Definition set_words (m : gmap Z Z) (w : world) : world :=
  mkWorld (segs w) m (pagemap w) (index w).
Definition set_pagemap (m : gmap Z Z) (w : world) : world :=
  mkWorld (segs w) (words w) m (index w).
Definition set_index (l : list Z) (w : world) : world :=
  mkWorld (segs w) (words w) (pagemap w) l.

Definition world0 : world := mkWorld ∅ ∅ ∅ [].

(** A header access; outside the mapped segments it faults. *)
Definition header (s : ptr) (w : world) : res SegmentHeader := of_option Unmapped (segs w !! s).
Definition update (s : ptr) (h : SegmentHeader) (w : world) : world := set_segs (<[s := h]> (segs w)) w.

(** The word at a chunk. *)
Definition read_word (p : ptr) (w : world) : Z := arr 0 (words w) p.
Definition write_word (p : ptr) (v : Z) (w : world) : world := set_words (<[p := v]> (words w)) w.

(** ** The pagemap *)

Definition PM_SLOTS : Z := 2 ^ (48 - SEGMENT_SHIFT).

Definition pagemap_mark (seg : ptr) (on : bool) (w : world) : world :=
  let bit := Z.shiftr seg SEGMENT_SHIFT in
  if bit >=? PM_SLOTS then w else
  let mask := Z.shiftl 1 (Z.land bit 63) in
  let k := Z.shiftr bit 6 in
  let old := arr 0 (pagemap w) k in
  set_pagemap (<[k := if on then Z.lor old mask else Z.land old (Z.lnot mask)]> (pagemap w)) w.

Definition is_managed (seg : ptr) (w : world) : bool :=
  if seg =? 0 then false else
  let bit := Z.shiftr seg SEGMENT_SHIFT in
  if bit >=? PM_SLOTS then false else
  Z.land (Z.shiftr (arr 0 (pagemap w) (Z.shiftr bit 6)) (Z.land bit 63)) 1 =? 1.

(** ** The registry *)

Definition MAX_SEGMENTS : Z := 4096.

Definition register_segment (seg : ptr) (w : world) : world :=
  let w := pagemap_mark seg true w in
  if Z.of_nat (length (index w)) <? MAX_SEGMENTS
  then set_index (index w ++ [seg]) w else w.

(** The scan of [unregister_segment]: the last entry replaces the first match. *)
Fixpoint swap_remove (seg : ptr) (l : list Z) : list Z :=
  match l with
  | [] => []
  | x :: l' =>
      if x =? seg
      then match last l' with
           | None => []
           | Some y => y :: removelast l'
           end
      else x :: swap_remove seg l'
  end.

Definition unregister_segment (seg : ptr) (w : world) : world :=
  let w := pagemap_mark seg false w in
  set_index (swap_remove seg (index w)) w.

Definition segment_count (w : world) : Z := Z.of_nat (length (index w)).

(** ** Mapping a segment *)

Inductive advice := HugePage | NoHugePage.
Inductive syscall :=
  | Munmap (addr len : Z)
  | Madvise (addr len : Z) (a : advice).

(** [raw] is [mmap]'s result, [None] for [MAP_FAILED]. *)
Definition aligned_mmap_2mib (raw : option Z) (huge : bool) : option Z * list syscall :=
  match raw with
  | None => (None, [])
  | Some lo =>
      let hi := lo + SEGMENT_SIZE * 2 in
      let aligned_lo := Z.land (u64 (lo + SEGMENT_SIZE - 1)) SEGMENT_MASK in
      let aligned_hi := aligned_lo + SEGMENT_SIZE in
      (Some aligned_lo,
       (if aligned_lo =? lo then [] else [Munmap lo (aligned_lo - lo)]) ++
       (if hi =? aligned_hi then [] else [Munmap aligned_hi (hi - aligned_hi)]) ++
       [Madvise aligned_lo SEGMENT_SIZE (if huge then HugePage else NoHugePage)])
  end.

Inductive ThpMode := ThpAlways | ThpNever | ThpAuto.

(** [TBJIT_THP]. *)
Definition thp_mode (env : option string) : ThpMode :=
  match env with
  | Some e =>
      if String.eqb e "never" then ThpNever
      else if String.eqb e "always" then ThpAlways else ThpAuto
  | None => ThpAuto
  end.

(** [g_thp_pred] is [None] until a predicate is registered. *)
Definition want_hugepage (m : ThpMode) (pred : option (CallSiteID -> bool)) (site : CallSiteID) : bool :=
  match m with
  | ThpNever => false
  | ThpAuto => match pred with Some f => f site | None => true end
  | ThpAlways => true
  end.

(** A fresh anonymous mapping reads as zero. *)
Definition in_segment (s a : Z) : bool := (s <=? a) && (a <? s + SEGMENT_SIZE).
Definition zero_segment (s : ptr) (m : gmap Z Z) : gmap Z Z :=
  filter (λ kv, in_segment s kv.1 = false) m.

Definition fresh_header (st : Strategy) (slot site size tid : Z) (s : ptr) : SegmentHeader :=
  mkHeader st false 0 false slot site tid 0 size 0 0 (payload_start s) (segment_end s) 0.

(** [None] is a null result. *)
Definition alloc_segment (raw : option Z) (tid : Z) (st : Strategy) (slot site size : Z) (w : world)
  : option ptr * world :=
  match (aligned_mmap_2mib raw true).1 with
  | None => (None, w)
  | Some s =>
      let w := set_words (zero_segment s (words w)) w in
      let w := update s (fresh_header st slot site size tid s) w in
      (Some s, register_segment s w)
  end.

(** [munmap(seg, SEGMENT_SIZE)]: later accesses fault. *)
Definition unmap (s : ptr) (w : world) : world :=
  mkWorld (delete s (segs w)) (zero_segment s (words w)) (pagemap w) (index w).

Definition free_segment (s : ptr) (w : world) : world :=
  if s =? 0 then w else unmap s (unregister_segment s w).

(** ** The remote-free queue, one operation at a time *)

Definition mpsc_push (s chunk : ptr) (w : world) : res world :=
  h ← header s w;
  mret (update s (with_remote chunk h) (write_word chunk (remote_head h) w)).

Definition mpsc_harvest (s : ptr) (w : world) : res (ptr * world) :=
  h ← header s w;
  mret (remote_head h, update s (with_remote 0 h) w).

(** ** The reaper *)

Inductive ReapMode := Conservative | Eager | Madvised.

#[export] Instance ReapMode_eq_dec : EqDecision ReapMode.
Proof. solve_decision. Defined.

(** [TBJIT_REAP_MODE]. *)
Definition reap_mode (env : option string) : ReapMode :=
  match env with
  | Some e =>
      if String.eqb e "eager" then Eager
      else if String.eqb e "madvise" then Madvised else Conservative
  | None => Conservative
  end.

(** [decommit_segment], with the page size [ps]: the payload beyond the first
    page reads as zero again. *)
Definition decommit_segment (ps : Z) (s : ptr) (w : world) : res world :=
  if (ps <=? 0) || (ps >=? SEGMENT_SIZE) then mret w else
  h ← header s w;
  mret (update s (with_decommitted h)
    (set_words (filter (λ kv, (s + ps <=? kv.1) && (kv.1 <? s + SEGMENT_SIZE) = false) (words w)) w)).

(** The eligibility test of the sweep; [pred] is [None] for a null callback. *)
Definition eligible (mode : ReapMode) (pred : option (CallSiteID -> bool)) (h : SegmentHeader) : bool :=
  retired h && (live_chunks h =? 0) &&
  negb (bool_decide (mode = Conservative) &&
        match pred with Some f => negb (f (alloc_site h)) | None => false end) &&
  negb (bool_decide (mode = Madvised) && decommitted h).

Fixpoint sweep_scan (mode : ReapMode) (pred : option (CallSiteID -> bool)) (l : list ptr) (w : world)
  : res (list ptr) :=
  match l with
  | [] => mret []
  | s :: l =>
      if s =? 0 then sweep_scan mode pred l w else
      h ← header s w;
      rest ← sweep_scan mode pred l w;
      mret (if eligible mode pred h then s :: rest else rest)
  end.

Fixpoint sweep_apply (mode : ReapMode) (ps : Z) (l : list ptr) (w : world) : res world :=
  match l with
  | [] => mret w
  | s :: l =>
      w ← (if bool_decide (mode = Madvised) then decommit_segment ps s w else mret (free_segment s w));
      sweep_apply mode ps l w
  end.

Definition reaper_sweep (mode : ReapMode) (pred : option (CallSiteID -> bool)) (ps : Z) (w : world)
  : res (Z * world) :=
  l ← sweep_scan mode pred (index w) w;
  w ← sweep_apply mode ps l w;
  mret (Z.of_nat (length l), w).

(** ** Addresses *)

(** A segment address: aligned, and in the user half of the address space. *)
Definition seg_addr (s : ptr) : Prop := 0 < s < 2 ^ 47 ∧ s mod SEGMENT_SIZE = 0.

Lemma seg_of_mod p : seg_of p = p - p mod SEGMENT_SIZE.
Proof. unfold seg_of, SEGMENT_MASK, SEGMENT_SIZE. by rewrite land_lnot_mask. Qed.

(** Every address of a segment leads back to its header. *)
Lemma seg_of_inside s p : s mod SEGMENT_SIZE = 0 -> s <= p < s + SEGMENT_SIZE -> seg_of p = s.
Proof.
  intros Hs Hp. rewrite seg_of_mod. unfold SEGMENT_SIZE in *.
  pose proof (Z.div_mod s (2 ^ 21) ltac:(lia)) as Es. rewrite Hs in Es.
  assert (p / 2 ^ 21 = s / 2 ^ 21).
  { symmetry. apply Z.div_unique with (p - s); lia. }
  pose proof (Z.div_mod p (2 ^ 21) ltac:(lia)). lia.
Qed.

Lemma seg_of_range p : 0 <= p -> seg_of p <= p < seg_of p + SEGMENT_SIZE.
Proof.
  intros Hp. rewrite seg_of_mod. unfold SEGMENT_SIZE.
  pose proof (Z.mod_pos_bound p (2 ^ 21) ltac:(lia)). lia.
Qed.

(** The bit of a segment in the pagemap. *)
Definition pm_bit (s : ptr) : Z := Z.shiftr s SEGMENT_SHIFT.

Lemma pm_bit_inj s t : seg_addr s -> seg_addr t -> pm_bit s = pm_bit t -> s = t.
Proof.
  unfold seg_addr, pm_bit, SEGMENT_SHIFT, SEGMENT_SIZE. rewrite !Z.shiftr_div_pow2 by lia.
  intros [_ Hs] [_ Ht] E.
  pose proof (Z.div_mod s (2 ^ 21) ltac:(lia)). pose proof (Z.div_mod t (2 ^ 21) ltac:(lia)). lia.
Qed.

Lemma pm_bit_bound s : seg_addr s -> 0 <= pm_bit s < PM_SLOTS.
Proof.
  intros [Hs _]. unfold pm_bit, PM_SLOTS, SEGMENT_SHIFT. rewrite Z.shiftr_div_pow2 by lia.
  change (2 ^ (48 - 21)) with (2 ^ 27). pow2.
  split; [apply Z.div_pos; lia|apply Z.div_lt_upper_bound; lia].
Qed.

Definition marked (w : world) (b : Z) : bool :=
  Z.testbit (arr 0 (pagemap w) (Z.shiftr b 6)) (Z.land b 63).

Lemma land_63 b : Z.land b 63 = b mod 64.
Proof. exact (land_mask b 6 ltac:(lia)). Qed.

Lemma bit_position b : 0 <= Z.land b 63.
Proof. rewrite land_63. pose proof (Z.mod_pos_bound b 64). lia. Qed.

Lemma is_managed_marked s w : seg_addr s -> is_managed s w = marked w (pm_bit s).
Proof.
  intros Hs. pose proof (pm_bit_bound s Hs) as Hb. destruct Hs as [Hs _].
  unfold is_managed. rewrite (proj2 (Z.eqb_neq s 0)) by lia. fold (pm_bit s).
  rewrite Z.geb_leb, (proj2 (Z.leb_gt _ _)) by lia. unfold marked.
  rewrite Z.land_comm. change 1 with (Z.ones 1) at 1. rewrite Z.land_comm, Z.land_ones by lia.
  rewrite Z.testbit_eqb, Z.shiftr_div_pow2 by apply bit_position. done.
Qed.

Lemma testbit_one b i : 0 <= b -> 0 <= i -> Z.testbit (Z.shiftl 1 b) i = (i =? b).
Proof.
  intros Hb Hi. rewrite Z.shiftl_1_l, Z.pow2_bits_eqb by done. apply Z.eqb_sym.
Qed.

Lemma marked_mark s on w b :
  seg_addr s -> 0 <= b ->
  marked (pagemap_mark s on w) b = if b =? pm_bit s then on else marked w b.
Proof.
  intros Hs Hb. pose proof (pm_bit_bound s Hs) as Hsb. unfold pagemap_mark. fold (pm_bit s).
  rewrite Z.geb_leb, (proj2 (Z.leb_gt _ _)) by lia. unfold marked. cbn [pagemap set_pagemap].
  pose proof (bit_position b). pose proof (bit_position (pm_bit s)).
  destruct (decide (Z.shiftr (pm_bit s) 6 = Z.shiftr b 6)) as [E|Hne].
  - rewrite E, arr_insert_eq.
    assert (Hbit : (Z.land b 63 =? Z.land (pm_bit s) 63) = (b =? pm_bit s)).
    { rewrite !land_63. rewrite !Z.shiftr_div_pow2 in E by lia. change (2 ^ 6) with 64 in E.
      pose proof (Z.div_mod b 64 ltac:(lia)). pose proof (Z.div_mod (pm_bit s) 64 ltac:(lia)).
      destruct (Z.eqb_spec (b mod 64) (pm_bit s mod 64)), (Z.eqb_spec b (pm_bit s)); congruence || lia. }
    destruct on; rewrite ?Z.lor_spec, ?Z.land_spec, ?Z.lnot_spec by done;
      rewrite testbit_one, Hbit by done; destruct (b =? pm_bit s); btauto.
  - rewrite arr_insert_ne by done. destruct (Z.eqb_spec b (pm_bit s)) as [->|]; done.
Qed.

Lemma is_managed_mark s t on w :
  seg_addr s -> seg_addr t ->
  is_managed t (pagemap_mark s on w) = if decide (t = s) then on else is_managed t w.
Proof.
  intros Hs Ht. rewrite !is_managed_marked by done.
  rewrite marked_mark by (done || apply pm_bit_bound; done).
  destruct (Z.eqb_spec (pm_bit t) (pm_bit s)) as [E|Hne]; case_decide as Hd; try done.
  - by apply pm_bit_inj in E.
  - by subst.
Qed.

(** Only the pagemap changes. *)
Lemma pagemap_mark_frame s on w :
  segs (pagemap_mark s on w) = segs w ∧ words (pagemap_mark s on w) = words w ∧
  index (pagemap_mark s on w) = index w.
Proof. unfold pagemap_mark. by case_match. Qed.

(** ** The registry *)

Lemma swap_remove_perm s l : s ∈ l -> l ≡ₚ s :: swap_remove s l.
Proof.
  induction l as [|x l IH]; intros Hs; [by apply elem_of_nil in Hs|]. simpl.
  destruct (Z.eqb_spec x s) as [->|Hne].
  - destruct (last l) as [y|] eqn:E.
    + apply last_Some in E as [k ->]. rewrite removelast_last.
      by rewrite <- Permutation_cons_append.
    + apply last_None in E. by subst.
  - apply elem_of_cons in Hs as [->|Hs]; [done|]. rewrite (IH Hs) at 1. apply perm_swap.
Qed.

Lemma swap_remove_absent s l : s ∉ l -> swap_remove s l = l.
Proof.
  induction l as [|x l IH]; intros Hs; [done|]. simpl.
  rewrite (proj2 (Z.eqb_neq x s)) by set_solver. f_equal. apply IH. set_solver.
Qed.

Lemma swap_remove_elem s l t :
  NoDup l -> t ∈ swap_remove s l <-> t ∈ l ∧ t ≠ s.
Proof.
  intros Hnd. destruct (decide (s ∈ l)) as [Hs|Hs].
  - pose proof (swap_remove_perm s l Hs) as Hp. rewrite Hp in Hnd.
    apply NoDup_cons in Hnd as [Hn _].
    assert (Ht : t ∈ l <-> t ∈ s :: swap_remove s l) by (split; intros Ht; [by rewrite <- Hp|by rewrite Hp]).
    rewrite Ht, elem_of_cons. split; [|naive_solver]. intros Hin. split; [by right|]. by intros ->.
  - rewrite swap_remove_absent by done. set_solver.
Qed.

Lemma swap_remove_NoDup s l : NoDup l -> NoDup (swap_remove s l).
Proof.
  intros Hnd. destruct (decide (s ∈ l)) as [Hs|Hs].
  - rewrite (swap_remove_perm s l Hs) in Hnd. by apply NoDup_cons in Hnd as [_ ?].
  - by rewrite swap_remove_absent.
Qed.

(** The registry stands for a set of segments: the pagemap answers membership
    exactly, and the index lists members, each once. *)
Definition registered (w : world) (S : gset Z) : Prop :=
  (∀ s, s ∈ S -> seg_addr s) ∧
  (∀ s, seg_addr s -> is_managed s w = bool_decide (s ∈ S)) ∧
  NoDup (index w) ∧ (∀ s, s ∈ index w -> s ∈ S) ∧
  Z.of_nat (length (index w)) <= MAX_SEGMENTS.

Lemma registered_world0 : registered world0 ∅.
Proof.
  split_and!; [set_solver| |apply NoDup_nil_2|set_solver|done].
  intros s Hs. rewrite is_managed_marked by done. rewrite bool_decide_false by set_solver.
  apply Z.testbit_0_l.
Qed.

Lemma registered_frame w w' S :
  pagemap w' = pagemap w -> index w' = index w -> registered w S -> registered w' S.
Proof.
  unfold registered, is_managed. intros -> ->. done.
Qed.

Lemma index_register s w :
  index (register_segment s w) =
  if Z.of_nat (length (index w)) <? MAX_SEGMENTS then index w ++ [s] else index w.
Proof.
  unfold register_segment. destruct (pagemap_mark_frame s true w) as (_ & _ & E).
  rewrite <- E. by case_match.
Qed.

Lemma is_managed_register s t w :
  seg_addr s -> seg_addr t ->
  is_managed t (register_segment s w) = if decide (t = s) then true else is_managed t w.
Proof.
  intros Hs Ht. rewrite <- is_managed_mark by done. unfold register_segment. by case_match.
Qed.

Lemma registered_register s w S :
  seg_addr s -> s ∉ S -> registered w S -> registered (register_segment s w) ({[s]} ∪ S).
Proof.
  intros Hs Hn (Ha & Hm & Hnd & Hi & Hlen). split_and!.
  - set_solver.
  - intros t Ht. rewrite is_managed_register, Hm by done.
    case_decide; repeat case_bool_decide; set_solver.
  - rewrite index_register. case_match; [|done]. apply NoDup_app. split_and!; [done| |apply NoDup_singleton].
    intros t Ht ->%list_elem_of_singleton. auto.
  - rewrite index_register. intros t. case_match; set_solver.
  - rewrite index_register. case_match; zb; [rewrite length_app; simpl; lia|done].
Qed.

Lemma is_managed_unregister s t w :
  seg_addr s -> seg_addr t ->
  is_managed t (unregister_segment s w) = if decide (t = s) then false else is_managed t w.
Proof. intros Hs Ht. by rewrite <- is_managed_mark. Qed.

Lemma index_unregister s w : index (unregister_segment s w) = swap_remove s (index w).
Proof. unfold unregister_segment. cbn. by destruct (pagemap_mark_frame s false w) as (_ & _ & ->). Qed.

Lemma swap_remove_length s l : (length (swap_remove s l) <= length l)%nat.
Proof.
  destruct (decide (s ∈ l)) as [Hs|Hs]; [|by rewrite swap_remove_absent].
  rewrite (swap_remove_perm s l Hs) at 2. simpl. lia.
Qed.

Lemma registered_unregister s w S :
  seg_addr s -> registered w S -> registered (unregister_segment s w) (S ∖ {[s]}).
Proof.
  intros Hs (Ha & Hm & Hnd & Hi & Hlen). split_and!.
  - set_solver.
  - intros t Ht. rewrite is_managed_unregister, Hm by done.
    case_decide; repeat case_bool_decide; set_solver.
  - rewrite index_unregister. by apply swap_remove_NoDup.
  - rewrite index_unregister. intros t [Ht Hne]%swap_remove_elem; [|done]. set_solver.
  - rewrite index_unregister. pose proof (swap_remove_length s (index w)). lia.
Qed.

(** The registry's calls, and the set they stand for. *)
Inductive registry_op := Register (s : ptr) | Unregister (s : ptr).

Definition registry_step (o : registry_op) (w : world) : world :=
  match o with Register s => register_segment s w | Unregister s => unregister_segment s w end.

Definition registry_spec (o : registry_op) (S : gset Z) : gset Z :=
  match o with Register s => {[s]} ∪ S | Unregister s => S ∖ {[s]} end.

(** A segment registered is newly mapped; both calls are on segment addresses. *)
Fixpoint registry_ok (ops : list registry_op) (S : gset Z) : Prop :=
  match ops with
  | [] => True
  | o :: ops =>
      match o with Register s => seg_addr s ∧ s ∉ S | Unregister s => seg_addr s end ∧
      registry_ok ops (registry_spec o S)
  end.

Lemma registry_run ops w S :
  registered w S -> registry_ok ops S ->
  registered (foldl (λ w o, registry_step o w) w ops) (foldl (λ S o, registry_spec o S) S ops).
Proof.
  revert w S. induction ops as [|[s|s] ops IH]; intros w S Hw; [done| |]; intros [Ho Hops]; simpl.
  - destruct Ho as [Ha Hn]. apply IH; [by apply registered_register|done].
  - apply IH; [by apply registered_unregister|done].
Qed.

(** The reaper's index: what was registered while it had room and is registered
    still. *)
Definition index_spec (o : registry_op) (J : gset Z) : gset Z :=
  match o with
  | Register s => if Z.of_nat (base.size J) <? MAX_SEGMENTS then {[s]} ∪ J else J
  | Unregister s => J ∖ {[s]}
  end.

Definition lists (l : list Z) (J : gset Z) : Prop := NoDup l ∧ ∀ s, s ∈ l <-> s ∈ J.

Lemma lists_perm l J : lists l J -> l ≡ₚ elements J.
Proof.
  intros [Hnd Hl]. apply NoDup_Permutation; [done|apply NoDup_elements|]. intros s. by rewrite Hl, elem_of_elements.
Qed.

Lemma lists_size l J : lists l J -> length l = base.size J.
Proof. intros H. by rewrite (Permutation_length (lists_perm l J H)). Qed.

Lemma index_step o w J :
  match o with Register s => s ∉ J | Unregister _ => True end ->
  lists (index w) J -> lists (index (registry_step o w)) (index_spec o J).
Proof.
  intros Ho Hl. pose proof (lists_size _ _ Hl) as Hsz. destruct Hl as [Hnd Hl]. destruct o as [s|s]; cbn [registry_step index_spec].
  - rewrite index_register, Hsz. destruct (_ <? _); [|done]. split.
    + apply NoDup_app. split_and!; [done| |apply NoDup_singleton].
      intros t Ht ->%list_elem_of_singleton. by apply Ho, Hl.
    + intros t. rewrite elem_of_app, list_elem_of_singleton, Hl. set_solver.
  - rewrite index_unregister. split; [by apply swap_remove_NoDup|]. intros t. rewrite swap_remove_elem by done.
    rewrite Hl. set_solver.
Qed.

Lemma index_sub o J S : J ⊆ S -> index_spec o J ⊆ registry_spec o S.
Proof.
  intros H. destruct o as [s|s]; cbn [index_spec registry_spec].
  - destruct (_ <? _); [|clear - H]; set_solver.
  - clear - H. set_solver.
Qed.

Lemma index_all o S : Z.of_nat (base.size (registry_spec o S)) <= MAX_SEGMENTS ->
  match o with Register s => s ∉ S | Unregister _ => True end -> index_spec o S = registry_spec o S.
Proof.
  intros Hs Ho. destruct o as [s|s]; [|done]. cbn [registry_spec index_spec] in *.
  assert (Hd : {[s]} ## S) by (clear - Ho; set_solver).
  rewrite (size_union _ _ Hd), size_singleton in Hs.
  destruct (Z.ltb_spec (Z.of_nat (base.size S)) MAX_SEGMENTS); [done|lia].
Qed.

(** The registered set after the calls, and the indexed one. *)
Definition registered_set (ops : list registry_op) : gset Z := foldl (λ S o, registry_spec o S) ∅ ops.
Definition indexed_set (ops : list registry_op) : gset Z := foldl (λ J o, index_spec o J) ∅ ops.

Lemma registry_ok_snoc ops o S :
  registry_ok (ops ++ [o]) S <-> registry_ok ops S ∧ registry_ok [o] (foldl (λ S o, registry_spec o S) S ops).
Proof. revert S. induction ops as [|o' ops IH]; intros S; simpl; [tauto|]. rewrite IH. simpl. tauto. Qed.

Lemma index_run ops :
  registry_ok ops ∅ ->
  lists (index (foldl (λ w o, registry_step o w) world0 ops)) (indexed_set ops) ∧
  indexed_set ops ⊆ registered_set ops ∧
  ((∀ k, Z.of_nat (base.size (registered_set (take k ops))) <= MAX_SEGMENTS) -> indexed_set ops = registered_set ops).
Proof.
  induction ops as [|o ops IH] using rev_ind; intros Hops.
  { split_and!; [|done|done]. split; [apply NoDup_nil_2|]. intros s. cbn. set_solver. }
  apply registry_ok_snoc in Hops as [Hops Ho]. destruct (IH Hops) as (Hl & Hsub & Hall). clear IH.
  fold (registered_set ops) in Ho.
  assert (Ho' : match o with Register s => s ∉ registered_set ops | Unregister _ => True end).
  { destruct o; [|done]. by destruct Ho as [[_ ?] _]. }
  unfold registered_set, indexed_set. rewrite !foldl_app. cbn [foldl].
  fold (registered_set ops) (indexed_set ops). split_and!.
  - apply index_step; [|done]. destruct o; [|done]. set_solver.
  - by apply index_sub.
  - intros Hk. rewrite Hall.
    + apply index_all; [|done]. specialize (Hk (S (length ops))). rewrite take_ge in Hk by (rewrite length_app; simpl; lia).
      unfold registered_set in Hk. rewrite foldl_app in Hk. exact Hk.
    + intros k. destruct (decide (k <= length ops)%nat); [specialize (Hk k); by rewrite take_app_le in Hk|].
      specialize (Hk (length ops)). rewrite take_app_length in Hk. by rewrite take_ge by lia.
Qed.

(** ** The address space *)

(** The effect of the system calls on which addresses are mapped. *)
Definition vm_step (c : syscall) (vm : Z -> bool) : Z -> bool :=
  match c with
  | Munmap a len => λ x, vm x && negb ((a <=? x) && (x <? a + len))
  | Madvise _ _ _ => vm
  end.

(** [mmap] of [len] bytes at [lo]. *)
Definition vm_map (lo len : Z) (vm : Z -> bool) : Z -> bool :=
  λ x, vm x || ((lo <=? x) && (x <? lo + len)).

Lemma align_segment lo :
  0 < lo -> lo + 2 * SEGMENT_SIZE <= 2 ^ 47 ->
  let a := Z.land (u64 (lo + SEGMENT_SIZE - 1)) SEGMENT_MASK in
  seg_addr a ∧ lo <= a ∧ a + SEGMENT_SIZE <= lo + 2 * SEGMENT_SIZE.
Proof.
  intros Hlo Hhi a. unfold SEGMENT_SIZE in Hhi. subst a.
  rewrite u64_small by (unfold SEGMENT_SIZE; pow2; lia).
  fold (seg_of (lo + SEGMENT_SIZE - 1)). rewrite seg_of_mod. unfold seg_addr, SEGMENT_SIZE.
  pose proof (Z.mod_pos_bound (lo + 2 ^ 21 - 1) (2 ^ 21) ltac:(lia)).
  rewrite Zminus_mod_idemp_r, Z.sub_diag. pow2. split; [split; [lia|done]|lia].
Qed.

(** ** Properties *)

(** C35: over any sequence of registrations of newly mapped segments and of
    unregistrations, the pagemap test answers exactly whether a segment is
    registered, for every segment address, and the reaper's index lists, each once,
    exactly the registered segments that were registered while it held fewer than
    [MAX_SEGMENTS] (another one is in the pagemap only, and no sweep sees it): the
    very set of the registered ones as long as there are never more than that. *)
Theorem registry_refines_set (ops : list registry_op) :
  registry_ok ops ∅ ->
  let w := foldl (λ w o, registry_step o w) world0 ops in
  (∀ s, seg_addr s -> is_managed s w = bool_decide (s ∈ registered_set ops)) ∧
  index w ≡ₚ elements (indexed_set ops) ∧ indexed_set ops ⊆ registered_set ops ∧
  Z.of_nat (length (index w)) <= MAX_SEGMENTS ∧
  ((∀ k, Z.of_nat (base.size (registered_set (take k ops))) <= MAX_SEGMENTS) -> index w ≡ₚ elements (registered_set ops)).
Proof.
  intros Hops w. destruct (registry_run ops world0 ∅ registered_world0 Hops) as (_ & Hm & _ & _ & Hlen).
  destruct (index_run ops Hops) as (Hl & Hsub & Hall). split_and!; [exact Hm|by apply lists_perm|done|exact Hlen|].
  intros Hk. rewrite <- (Hall Hk). by apply lists_perm.
Qed.

Lemma registry_refines_set_witness :
  let w := foldl (λ w o, registry_step o w) world0
    [Register 2097152; Register 4194304; Unregister 2097152] in
  is_managed 4194304 w = true ∧ is_managed 2097152 w = false ∧ index w ≡ₚ [4194304].
Proof.
  set (ops := [Register 2097152; Register 4194304; Unregister 2097152]).
  assert (Hops : registry_ok ops ∅).
  { unfold ops, registry_ok, seg_addr, registry_spec. pow2. split_and!; (lia || reflexivity || set_solver). }
  destruct (registry_refines_set ops Hops) as (H & _ & _ & _ & Hi).
  split; [|split]; [rewrite (H 4194304)|rewrite (H 2097152)|];
    [reflexivity|split; [pow2; lia|reflexivity]|reflexivity|split; [pow2; lia|reflexivity]|].
  apply Hi. intros k. destruct (decide (k < 3)%nat) as [Hk|Hk].
  - destruct k as [|[|[|k]]]; [..|lia]; apply Z.leb_le; vm_compute; reflexivity.
  - rewrite take_ge by (simpl; lia). apply Z.leb_le. vm_compute. reflexivity.
Defined.

(** Mapping a segment keeps exactly one aligned segment of the
    over-allocated region: the result is a 2 MiB-aligned address, and after the
    trims the address space is the old one plus that segment, with nothing
    leaked and nothing else unmapped. *)
Theorem aligned_mmap_exact (lo : Z) (huge : bool) (vm : Z -> bool) (x : Z) :
  0 < lo -> lo + 2 * SEGMENT_SIZE <= 2 ^ 47 ->
  (∀ y, lo <= y < lo + 2 * SEGMENT_SIZE -> vm y = false) ->
  let (r, calls) := aligned_mmap_2mib (Some lo) huge in
  let vm' := foldl (λ vm c, vm_step c vm) (vm_map lo (SEGMENT_SIZE * 2) vm) calls in
  ∃ a, r = Some a ∧ seg_addr a ∧ lo <= a ∧
       vm' x = (vm x || in_segment a x).
Proof.
  intros Hlo Hhi Hfree. unfold aligned_mmap_2mib.
  destruct (align_segment lo Hlo Hhi) as (Ha & Hla & Hah). cbn zeta in *.
  set (a := Z.land _ _) in *. exists a. split; [done|]. split; [done|]. split; [done|].
  specialize (Hfree x). unfold in_segment, vm_map.
  destruct (Z.eqb_spec a lo), (Z.eqb_spec (lo + SEGMENT_SIZE * 2) (a + SEGMENT_SIZE));
    cbn [foldl app vm_step]; destruct (vm x) eqn:E;
    repeat match goal with |- context [?p <=? ?q] => destruct (Z.leb_spec p q)
    | |- context [?p <? ?q] => destruct (Z.ltb_spec p q) end; simpl; try done; try lia;
    exfalso; discriminate Hfree || (assert (true = false) by (apply Hfree; lia); done).
Qed.

Lemma aligned_mmap_exact_witness :
  let (r, calls) := aligned_mmap_2mib (Some 4096) true in
  r = Some 2097152 ∧
  foldl (λ vm c, vm_step c vm) (vm_map 4096 (SEGMENT_SIZE * 2) (λ _, false)) calls 4096 = false.
Proof.
  destruct (aligned_mmap_exact 4096 true (λ _, false) 4096) as (a & Ha & _ & _ & Hx);
    [lia|vm_compute; discriminate|done|].
  split; [reflexivity|]. rewrite Hx. injection Ha as <-. reflexivity.
Defined.
