(* ===== verification/SlowInit.v ===== *)
(** * Thread-local slots and the slow paths
      ([src/src/codegen/tls.h], [tls.cpp], [slow_init.cpp])

    The routines' slow paths and [free_managed].  A thread's slots are keyed by
    the thread and the slot index.  [tid] is the calling thread, [raw] the
    result of the [mmap] a new segment makes. *)

From S2P Require Import Prelude Common Segment.

Definition MAX_COMPILED_SITES : Z := 4096.
Definition MULTI_MAX_CLASSES : Z := 4.
Definition POINTER_SIZE : Z := 8.

Record BumpSlot := mkBump { b_ptr : ptr; b_end : ptr }.
Record FreeListSlot := mkFreeList { f_head : ptr; f_segs : ptr }.
Record MultiFreeListSlot := mkMulti { m_heads : gmap Z ptr; m_segs : gmap Z ptr }.
Record ArenaSlot := mkArenaSlot { a_ptr : ptr; a_end : ptr; a_base : ptr }.

Record machine := mkMachine {
  heap : world;
  tl_bumps : gmap (Z * Z) BumpSlot;
  tl_freelists : gmap (Z * Z) FreeListSlot;
  tl_multi_freelists : gmap (Z * Z) MultiFreeListSlot;
  tl_arenas : gmap (Z * Z) ArenaSlot;
  g_slot_to_site : gmap Z CallSiteID;
}.

(** A thread's slot, zero-initialised. *)
Definition slot {A} (d : A) (m : gmap (Z * Z) A) (k : Z * Z) : A := default d (m !! k).
Definition bump0 : BumpSlot := mkBump 0 0.
Definition freelist0 : FreeListSlot := mkFreeList 0 0.
Definition multi0 : MultiFreeListSlot := mkMulti ∅ ∅.
Definition arena0 : ArenaSlot := mkArenaSlot 0 0 0.

Definition set_heap (w : world) (st : machine) : machine :=
  mkMachine w (tl_bumps st) (tl_freelists st) (tl_multi_freelists st) (tl_arenas st) (g_slot_to_site st).
Definition set_bump (k : Z * Z) (b : BumpSlot) (st : machine) : machine :=
  mkMachine (heap st) (<[k := b]> (tl_bumps st)) (tl_freelists st) (tl_multi_freelists st)
    (tl_arenas st) (g_slot_to_site st).
Definition set_freelist (k : Z * Z) (f : FreeListSlot) (st : machine) : machine :=
  mkMachine (heap st) (tl_bumps st) (<[k := f]> (tl_freelists st)) (tl_multi_freelists st)
    (tl_arenas st) (g_slot_to_site st).
Definition set_multi (k : Z * Z) (m : MultiFreeListSlot) (st : machine) : machine :=
  mkMachine (heap st) (tl_bumps st) (tl_freelists st) (<[k := m]> (tl_multi_freelists st))
    (tl_arenas st) (g_slot_to_site st).
Definition set_arena (k : Z * Z) (a : ArenaSlot) (st : machine) : machine :=
  mkMachine (heap st) (tl_bumps st) (tl_freelists st) (tl_multi_freelists st)
    (<[k := a]> (tl_arenas st)) (g_slot_to_site st).

(** [seg::alloc_segment] followed by the [assert]. *)
Definition new_segment (raw : option Z) (tid : Z) (str : Strategy) (index size : Z) (st : machine)
  : res (ptr * machine) :=
  match alloc_segment raw tid str index (arr 0 (g_slot_to_site st) index) size (heap st) with
  | (Some s, w) => Ok (s, set_heap w st)
  | (None, _) => Trap AssertFailed
  end.

(** [s->field = ...]. *)
Definition modify (s : ptr) (f : SegmentHeader -> SegmentHeader) (st : machine) : res machine :=
  h ← header s (heap st);
  mret (set_heap (update s (f h) (heap st)) st).

(** The common tail of the three bump initialisers. *)
Definition install_bump (tid index size s : Z) (st : machine) : res (ptr * machine) :=
  let base := payload_start s in
  let st := set_bump (tid, index) (mkBump (base + size) (segment_end s)) st in
  st ← modify s (with_bump (base + size)) st;
  mret (base, st).

Definition bump_slow_init (raw : option Z) (tid index size : Z) (st : machine) : res (ptr * machine) :=
  '(s, st) ← new_segment raw tid BumpAlloc index size st;
  install_bump tid index size s st.

Definition paired_slow_init (raw : option Z) (tid index size : Z) (st : machine) : res (ptr * machine) :=
  '(s, st) ← new_segment raw tid PairedStack index size st;
  install_bump tid index size s st.

(** The walk that counts the harvested chain. *)
Fixpoint count_chain (fuel : nat) (chain drained : Z) (w : world) : res Z :=
  if chain =? 0 then mret drained else
  match fuel with
  | O => Trap OutOfFuel
  | S fuel => count_chain fuel (read_word chain w) (u32 (drained + 1)) w
  end.

(** [pc_refill]: retire the current segment, then install a fresh one. *)
Definition pc_retire (active : ptr) (st : machine) : res machine :=
  h ← header active (heap st);
  if bool_decide (strategy h = ProducerConsumer) then
    let served := u32 ((bump_ptr h - payload_start active) / chunk_size h) in
    '(chain, w) ← mpsc_harvest active (heap st);
    drained ← count_chain (Z.to_nat (chunks_in_segment h) + 1) chain 0 w;
    let outstanding := if served >? drained then served - drained else 0 in
    modify active (with_retired outstanding) (set_heap w st)
  else mret st.

Definition pc_refill (raw : option Z) (tid index size : Z) (st : machine) : res (ptr * machine) :=
  let b := slot bump0 (tl_bumps st) (tid, index) in
  st ← (if b_end b =? 0 then mret st
        else let active := seg_of (b_end b - 1) in
             if is_managed active (heap st) then pc_retire active st else mret st);
  '(s, st) ← new_segment raw tid ProducerConsumer index size st;
  install_bump tid index size s st.

(** The flag, and the state. *)
Definition paired_lifo_rewind (tid s p : Z) (st : machine) : res (bool * machine) :=
  h ← header s (heap st);
  let b := slot bump0 (tl_bumps st) (tid, slot_index h) in
  let rewound := b_ptr b - chunk_size h in
  if rewound =? p
  then st ← modify s (with_bump rewound) (set_bump (tid, slot_index h) (mkBump rewound (b_end b)) st);
       mret (true, st)
  else mret (false, st).

(** [live_chunks.fetch_sub(1)]. *)
Definition drop_live (h : SegmentHeader) : SegmentHeader := with_live (u32 (live_chunks h - 1)) h.

Definition push_remote (s p : ptr) (st : machine) : res machine :=
  w ← mpsc_push s p (heap st);
  mret (set_heap w st).

Definition free_managed (tid s p : Z) (st : machine) : res machine :=
  h ← header s (heap st);
  match strategy h with
  | BumpAlloc | EpochArena => mret st
  | ProducerConsumer =>
      if retired h then modify s drop_live st else push_remote s p st
  | PairedStack =>
      if owner_tid h =? tid
      then '(_, st) ← paired_lifo_rewind tid s p st; mret st
      else mret st
  | ThreadLocalFreeList =>
      if retired h then modify s drop_live st
      else if owner_tid h =? tid then
        let k := (tid, slot_index h) in
        let f := slot freelist0 (tl_freelists st) k in
        let st := set_heap (write_word p (f_head f) (heap st)) st in
        mret (set_freelist k (mkFreeList p (f_segs f)) st)
      else push_remote s p st
  | MultiSizeFreeList =>
      if retired h then modify s drop_live st
      else if owner_tid h =? tid then
        let k := (tid, slot_index h) in
        let m := slot multi0 (tl_multi_freelists st) k in
        let st := set_heap (write_word p (arr 0 (m_heads m) (class_idx h)) (heap st)) st in
        mret (set_multi k (mkMulti (<[class_idx h := p]> (m_heads m)) (m_segs m)) st)
      else push_remote s p st
  | Generic => mret st
  end.

(** [for (p = base; p + obj_size <= end; p += obj_size) { *p = head; head = p; }] *)
Fixpoint chop (fuel : nat) (p end_ obj_size head : Z) (w : world) : res (ptr * world) :=
  match fuel with
  | O => Trap OutOfFuel
  | S fuel =>
      if p + obj_size <=? end_
      then chop fuel (p + obj_size) end_ obj_size p (write_word p head w)
      else mret (head, w)
  end.

(** A payload holds at most [payload / obj_size] chunks. *)
Definition chop_fuel (obj_size : Z) : nat :=
  Z.to_nat ((SEGMENT_SIZE - HEADER_SIZE) / obj_size) + 1.

(** The free list of a fresh segment: its first chunk is handed out. *)
Definition chop_segment (s obj_size : Z) (st : machine) : res (ptr * ptr * machine) :=
  '(head, w) ← chop (chop_fuel obj_size) (payload_start s) (segment_end s) obj_size 0 (heap st);
  mret (head, read_word head w, set_heap w st).

Definition retire_full (active : ptr) (st : machine) : res machine :=
  modify active (λ h, with_retired (chunks_in_segment h) h) st.

Definition freelist_refill (raw : option Z) (tid index obj_size : Z) (st : machine) : res (ptr * machine) :=
  if obj_size <? POINTER_SIZE then Trap AssertFailed else
  let k := (tid, index) in
  let f := slot freelist0 (tl_freelists st) k in
  '(harvested, st) ←
    (if f_segs f =? 0 then mret (0, st)
     else '(h, w) ← mpsc_harvest (f_segs f) (heap st); mret (h, set_heap w st));
  if negb (harvested =? 0)
  then mret (harvested, set_freelist k (mkFreeList (read_word harvested (heap st)) (f_segs f)) st)
  else
    st ← (if f_segs f =? 0 then mret st else retire_full (f_segs f) st);
    '(s, st) ← new_segment raw tid ThreadLocalFreeList index obj_size st;
    st ← modify s (with_next (f_segs f)) st;
    '(chunk, head, st) ← chop_segment s obj_size st;
    mret (chunk, set_freelist k (mkFreeList head s) st).

Definition multi_refill (raw : option Z) (tid index obj_size class_idx : Z) (st : machine)
  : res (ptr * machine) :=
  if obj_size <? POINTER_SIZE then Trap AssertFailed else
  if class_idx >=? MULTI_MAX_CLASSES then Trap AssertFailed else
  let k := (tid, index) in
  let m := slot multi0 (tl_multi_freelists st) k in
  let active := arr 0 (m_segs m) class_idx in
  '(harvested, st) ←
    (if active =? 0 then mret (0, st)
     else '(h, w) ← mpsc_harvest active (heap st); mret (h, set_heap w st));
  if negb (harvested =? 0)
  then mret (harvested,
    set_multi k (mkMulti (<[class_idx := read_word harvested (heap st)]> (m_heads m)) (m_segs m)) st)
  else
    st ← (if active =? 0 then mret st else retire_full active st);
    '(s, st) ← new_segment raw tid MultiSizeFreeList index obj_size st;
    st ← modify s (λ h, with_next active (with_class (u8 class_idx) h)) st;
    '(chunk, head, st) ← chop_segment s obj_size st;
    mret (chunk,
      set_multi k (mkMulti (<[class_idx := head]> (m_heads m)) (<[class_idx := s]> (m_segs m))) st).

Definition arena_slow_init (raw : option Z) (tid index size : Z) (st : machine) : res (ptr * machine) :=
  '(s, st) ← new_segment raw tid EpochArena index size st;
  let base := payload_start s in
  mret (base, set_arena (tid, index) (mkArenaSlot (base + size) (segment_end s) base) st).

Definition arena_reset_alloc (raw : option Z) (tid index size : Z) (st : machine) : res (ptr * machine) :=
  let a := slot arena0 (tl_arenas st) (tid, index) in
  if a_base a =? 0 then arena_slow_init raw tid index size st
  else mret (a_base a, set_arena (tid, index) (mkArenaSlot (a_base a + size) (a_end a) (a_base a)) st).

(** [alloc_slot_index]: the counter's [fetch_add] and the overflow test. *)
Definition alloc_slot_index (g_next_index : Z) : Z * Z :=
  let idx := g_next_index in
  ((if idx <? MAX_COMPILED_SITES then idx else MAX_COMPILED_SITES), u32 (g_next_index + 1)).

(** The emitted fast paths, on the slots (see [Jit]): [None] goes to the slow path. *)
Definition jit_bump (tid index size : Z) (st : machine) : option (ptr * machine) :=
  let b := slot bump0 (tl_bumps st) (tid, index) in
  let next := u64 (b_ptr b + size) in
  if next <? b_end b
  then Some (b_ptr b, set_bump (tid, index) (mkBump next (b_end b)) st)
  else None.

Definition jit_pop (tid index : Z) (st : machine) : option (ptr * machine) :=
  let f := slot freelist0 (tl_freelists st) (tid, index) in
  if f_head f =? 0 then None
  else Some (f_head f,
             set_freelist (tid, index) (mkFreeList (read_word (f_head f) (heap st)) (f_segs f)) st).

(** The multi-size fast path on class [class_idx]. *)
Definition jit_multi_pop (tid index class_idx : Z) (st : machine) : option (ptr * machine) :=
  let m := slot multi0 (tl_multi_freelists st) (tid, index) in
  let p := arr 0 (m_heads m) class_idx in
  if p =? 0 then None
  else Some (p, set_multi (tid, index) (mkMulti (<[class_idx := read_word p (heap st)]> (m_heads m)) (m_segs m)) st).

(** The arena's, which advances [tl_arenas[index].ptr]. *)
Definition jit_arena (tid index size : Z) (st : machine) : option (ptr * machine) :=
  let a := slot arena0 (tl_arenas st) (tid, index) in
  let next := u64 (a_ptr a + size) in
  if next <? a_end a
  then Some (a_ptr a, set_arena (tid, index) (mkArenaSlot next (a_end a) (a_base a)) st)
  else None.
