(* ===== verification/Chunks.v ===== *)
(** * The chunks of a segment

    The geometry of a segment's payload, cut into chunks of one size; the free list
    a fresh segment is chopped into; and what mapping, unmapping and sweeping
    segments do to the world.  Shared by [Heap] and its clients. *)

From S2P Require Import Prelude Common Segment SlowInit.

(** ** Geometry *)

Definition chunk_count (sz : Z) : nat := Z.to_nat ((SEGMENT_SIZE - HEADER_SIZE) / sz).
Definition chunk (s sz : Z) (i : nat) : Z := payload_start s + Z.of_nat i * sz.
(** The first [n] chunks, and all of them. *)
Definition chunks_to (s sz : Z) (n : nat) : list Z := chunk s sz <$> seq 0 n.
Definition chunk_list (s sz : Z) : list Z := chunks_to s sz (chunk_count sz).

(** The sizes a routine is compiled for. *)
Definition size_ok (sz : Z) : Prop := 0 < sz < 4096.

Lemma chunk_count_spec sz : size_ok sz ->
  ∀ i, (i < chunk_count sz)%nat <-> HEADER_SIZE + Z.of_nat i * sz + sz <= SEGMENT_SIZE.
Proof.
  unfold size_ok, chunk_count, HEADER_SIZE, SEGMENT_SIZE. intros Hsz i.
  pose proof (Z.div_mod (2 ^ 21 - 64) sz ltac:(lia)).
  pose proof (Z.mod_pos_bound (2 ^ 21 - 64) sz ltac:(lia)).
  assert (0 <= (2 ^ 21 - 64) / sz) by (apply Z.div_pos; lia). split; intros Hi; nia.
Qed.

Lemma chunk_count_pos sz : size_ok sz -> (1 <= chunk_count sz)%nat.
Proof.
  intros Hsz. apply (chunk_count_spec sz Hsz 0). unfold size_ok, HEADER_SIZE, SEGMENT_SIZE in *. lia.
Qed.

Lemma chunk_in_segment s sz i :
  size_ok sz -> (i < chunk_count sz)%nat ->
  s + HEADER_SIZE <= chunk s sz i ∧ chunk s sz i + sz <= s + SEGMENT_SIZE.
Proof.
  intros Hsz Hi. apply (chunk_count_spec sz Hsz) in Hi. unfold chunk, payload_start.
  unfold size_ok in Hsz. nia.
Qed.

Lemma elem_of_chunks_to s sz n p : p ∈ chunks_to s sz n <-> ∃ i, (i < n)%nat ∧ p = chunk s sz i.
Proof.
  unfold chunks_to. rewrite list_elem_of_fmap. split.
  - intros (i & -> & Hi%elem_of_seq). exists i. split; [lia|done].
  - intros (i & Hi & ->). exists i. split; [done|]. apply elem_of_seq. lia.
Qed.

Lemma elem_of_chunk_list s sz p : p ∈ chunk_list s sz <-> ∃ i, (i < chunk_count sz)%nat ∧ p = chunk s sz i.
Proof. apply elem_of_chunks_to. Qed.

Lemma chunks_to_S s sz n : chunks_to s sz (S n) = chunks_to s sz n ++ [chunk s sz n].
Proof. unfold chunks_to. by rewrite seq_S, fmap_app. Qed.

Lemma chunks_to_mono s sz n n' : (n <= n')%nat -> chunks_to s sz n ⊆+ chunks_to s sz n'.
Proof.
  intros Hn. replace n' with (n + (n' - n))%nat by lia. unfold chunks_to. rewrite seq_app.
  apply fmap_submseteq. by apply submseteq_inserts_r.
Qed.

Lemma chunk_seg_of s sz p : seg_addr s -> size_ok sz -> p ∈ chunk_list s sz -> seg_of p = s ∧ p ≠ 0.
Proof.
  intros [Hs Ha] Hsz (i & Hi & ->)%elem_of_chunk_list.
  pose proof (chunk_in_segment s sz i Hsz Hi). unfold HEADER_SIZE, size_ok in *.
  split; [apply seg_of_inside; [done|lia]|lia].
Qed.

Lemma chunk_list_NoDup s sz : size_ok sz -> NoDup (chunk_list s sz).
Proof.
  intros Hsz. apply NoDup_fmap_2_strong; [|apply NoDup_seq].
  intros i j _ _. unfold chunk, size_ok in *. nia.
Qed.

Lemma length_chunk_list s sz : length (chunk_list s sz) = chunk_count sz.
Proof. unfold chunk_list, chunks_to. by rewrite length_fmap, length_seq. Qed.

(** Two chunks of one segment do not overlap. *)
Lemma chunks_disjoint s sz p q :
  size_ok sz -> p ∈ chunk_list s sz -> q ∈ chunk_list s sz -> p ≠ q -> p + sz <= q ∨ q + sz <= p.
Proof.
  intros Hsz (i & _ & ->)%elem_of_chunk_list (j & _ & ->)%elem_of_chunk_list Hne.
  unfold chunk, size_ok in *. assert (i ≠ j) by congruence. nia.
Qed.

(** ** Chopping a segment *)

Lemma chop_spec s sz n fuel l h w :
  size_ok sz -> (n <= chunk_count sz)%nat -> (chunk_count sz - n < fuel)%nat ->
  chain (words w) h l -> (∀ i, (n <= i)%nat -> chunk s sz i ∉ l) -> 0 < s ->
  ∃ h' m, chop fuel (chunk s sz n) (segment_end s) sz h w = Ok (h', set_words m w) ∧
    chain m h' (reverse (chunk s sz <$> seq n (chunk_count sz - n)) ++ l) ∧
    (∀ x, x ∉ chunk_list s sz -> arr 0 m x = arr 0 (words w) x).
Proof.
  intros Hsz. revert n l h w. induction fuel as [|fuel IH]; intros n l h w Hn Hf Hl Hnl Hs; [lia|].
  cbn [chop]. assert (Hcond : (chunk s sz n + sz <=? segment_end s) = bool_decide (n < chunk_count sz)%nat).
  { pose proof (chunk_count_spec sz Hsz n). unfold chunk, segment_end, payload_start.
    case_bool_decide; destruct (Z.leb_spec (s + HEADER_SIZE + Z.of_nat n * sz + sz) (s + SEGMENT_SIZE));
      try done; exfalso; lia. }
  rewrite Hcond. case_bool_decide as Hlt.
  - replace (chunk s sz n + sz) with (chunk s sz (S n)) by (unfold chunk; lia).
    assert (Hn0 : chunk s sz n ≠ 0).
    { unfold chunk, payload_start, HEADER_SIZE, size_ok in *. lia. }
    destruct (IH (S n) (chunk s sz n :: l) (chunk s sz n) (write_word (chunk s sz n) h w))
      as (h' & m & Heq & Hc & Hx); [lia|lia| | |done|].
    + cbn [write_word set_words words]. apply chain_cons; [done|by apply Hnl|done].
    + intros i Hi [E|Hin]%elem_of_cons; [|by apply (Hnl i); [lia|]].
      unfold chunk, size_ok in *. nia.
    + exists h', m. rewrite Heq. split; [done|]. split.
      * replace (chunk_count sz - n)%nat with (S (chunk_count sz - S n)) by lia.
        cbn [seq fmap list_fmap]. rewrite reverse_cons, <- app_assoc. exact Hc.
      * intros x Hne. rewrite Hx by done. cbn [write_word set_words words].
        apply arr_insert_ne. intros <-. apply Hne, elem_of_chunk_list. by exists n.
  - exists h, (words w). replace (chunk_count sz - n)%nat with 0%nat by lia.
    split; [by destruct w|]. done.
Qed.

Lemma chop_segment_spec s sz st :
  size_ok sz -> seg_addr s ->
  ∃ p l m, chop_segment s sz st =
      Ok (p, arr 0 m p, set_heap (set_words m (heap st)) st) ∧
    p :: l ≡ₚ chunk_list s sz ∧ chain m (arr 0 m p) l ∧
    (∀ x, x ∉ chunk_list s sz -> arr 0 m x = arr 0 (words (heap st)) x).
Proof.
  intros Hsz Hs. unfold chop_segment.
  assert (E0 : payload_start s = chunk s sz 0) by (unfold chunk; lia). rewrite E0.
  destruct (chop_spec s sz 0 (chop_fuel sz) [] 0 (heap st)) as (h & m & -> & Hc & Hx);
    [done|lia|unfold chop_fuel, chunk_count; lia|done|intros; apply not_elem_of_nil|apply Hs|].
  rewrite Nat.sub_0_r, app_nil_r in Hc. change (chunk s sz <$> _) with (chunk_list s sz) in Hc.
  pose proof (chunk_count_pos sz Hsz) as Hpos. rewrite <- (length_chunk_list s) in Hpos.
  destruct (reverse (chunk_list s sz)) as [|p l] eqn:E.
  { apply (f_equal length) in E. rewrite length_reverse in E. simpl in E. lia. }
  destruct Hc as (-> & Hp & Hl). exists p, l, m. split; [done|].
  split; [rewrite <- E; apply reverse_Permutation|done].
Qed.

Lemma chunks_in_segment_count h : size_ok (chunk_size h) -> chunks_in_segment h = Z.of_nat (chunk_count (chunk_size h)).
Proof.
  unfold size_ok, chunks_in_segment, chunk_count, SEGMENT_SIZE, HEADER_SIZE. intros Hsz.
  rewrite (proj2 (Z.eqb_neq _ 0)) by lia.
  assert (0 <= (2 ^ 21 - 64) / chunk_size h <= 2 ^ 21).
  { split; [apply Z.div_pos; lia|]. apply Z.div_le_upper_bound; nia. }
  rewrite u32_small by lia. rewrite Z2Nat.id; lia.
Qed.

(** ** Mapping a segment *)

(** [mmap] returns a region of user memory clear of the mapped segments. *)
Definition fresh_raw (raw : option Z) (w : world) : Prop :=
  match raw with
  | None => True
  | Some lo =>
      0 < lo ∧ lo + 2 * SEGMENT_SIZE <= 2 ^ 47 ∧
      ∀ s, is_Some (segs w !! s) -> s + SEGMENT_SIZE <= lo ∨ lo + 2 * SEGMENT_SIZE <= s
  end.

Lemma outside_segment s x : seg_addr s -> seg_of x ≠ s -> in_segment s x = false.
Proof.
  intros [_ Ha] Hx. unfold in_segment. apply andb_false_iff.
  destruct (Z.leb_spec s x); [right|by left]. destruct (Z.ltb_spec x (s + SEGMENT_SIZE)); [|done].
  exfalso. apply Hx, seg_of_inside; [done|lia].
Qed.

Lemma zero_segment_other s m x :
  seg_addr s -> seg_of x ≠ s -> arr 0 (zero_segment s m) x = arr 0 m x.
Proof.
  intros Ha Hx. unfold arr, zero_segment. f_equal. pose proof (outside_segment s x Ha Hx).
  destruct (m !! x) eqn:E; [by apply map_lookup_filter_Some_2|].
  apply map_lookup_filter_None_2. by left.
Qed.

(** A new segment lies clear of the mapped ones. *)
Lemma new_segment_spec lo tid str idx sz m :
  fresh_raw (Some lo) (heap m) -> registered (heap m) (dom (segs (heap m))) ->
  ∃ s w, new_segment (Some lo) tid str idx sz m = Ok (s, set_heap w m) ∧
    seg_addr s ∧ segs (heap m) !! s = None ∧
    segs w = <[s := fresh_header str idx (arr 0 (g_slot_to_site m) idx) sz tid s]> (segs (heap m)) ∧
    registered w (dom (segs w)) ∧
    (∀ x, seg_of x ≠ s -> arr 0 (words w) x = arr 0 (words (heap m)) x).
Proof.
  intros (Hlo & Hhi & Hclear) Hreg. unfold new_segment, alloc_segment, aligned_mmap_2mib. cbn [fst].
  destruct (align_segment lo Hlo Hhi) as (Ha & Hla & Hah). cbn zeta in *.
  set (s := Z.land _ _) in *.
  set (w0 := update s _ _). exists s, (register_segment s w0).
  assert (Hnone : segs (heap m) !! s = None).
  { apply eq_None_not_Some. intros Hs%Hclear. unfold SEGMENT_SIZE in *. lia. }
  assert (Esegs : segs (register_segment s w0) = segs w0).
  { unfold register_segment. cbv zeta. destruct (pagemap_mark_frame s true w0) as (<- & _ & _). by case_match. }
  assert (Ewords : words (register_segment s w0) = words w0).
  { unfold register_segment. cbv zeta. destruct (pagemap_mark_frame s true w0) as (_ & <- & _). by case_match. }
  rewrite Esegs, Ewords. split_and!; [done..| |].
  - subst w0. cbn [update set_segs set_words segs]. rewrite dom_insert_L.
    apply registered_register; [done|by apply not_elem_of_dom|].
    eapply registered_frame; [..|exact Hreg]; done.
  - intros x Hx. by apply zero_segment_other.
Qed.

(** ** Unmapping and sweeping *)

Lemma free_segment_spec s w :
  seg_addr s -> registered w (dom (segs w)) ->
  segs (free_segment s w) = delete s (segs w) ∧
  registered (free_segment s w) (dom (segs (free_segment s w))) ∧
  (∀ x, seg_of x ≠ s -> arr 0 (words (free_segment s w)) x = arr 0 (words w) x).
Proof.
  intros Ha Hreg. unfold free_segment. rewrite (proj2 (Z.eqb_neq s 0)) by (destruct Ha; lia).
  destruct (pagemap_mark_frame s false w) as (Es & Ew & Ei).
  assert (Esegs : segs (unmap s (unregister_segment s w)) = delete s (segs w)).
  { unfold unregister_segment. cbn. by rewrite Es. }
  split; [done|]. split.
  - rewrite Esegs, dom_delete_L. eapply registered_frame; [done..|].
    by apply registered_unregister.
  - intros x Hx. cbn [unmap words]. rewrite zero_segment_other by done.
    unfold unregister_segment. cbn. by rewrite Ew.
Qed.

Lemma sweep_scan_spec mode pred l w :
  (∀ s, s ∈ l -> s ≠ 0 ∧ is_Some (segs w !! s)) ->
  ∃ l', sweep_scan mode pred l w = Ok l' ∧ l' `sublist_of` l ∧
    ∀ s, s ∈ l' <-> s ∈ l ∧ ∃ h, segs w !! s = Some h ∧ eligible mode pred h = true.
Proof.
  induction l as [|s l IH]; intros Hl.
  { exists []. split; [done|]. split; [done|]. intros t. set_solver. }
  destruct IH as (l' & El & Hsub & Hin); [intros; apply Hl; set_solver|].
  destruct (Hl s) as (Hs0 & h & Hh); [set_solver|]. cbn [sweep_scan].
  rewrite (proj2 (Z.eqb_neq s 0)) by done. unfold header. rewrite Hh. cbn [of_option mbind res_bind].
  rewrite El. cbn [mbind res_bind mret res_ret]. destruct (eligible mode pred h) eqn:E.
  - exists (s :: l'). split; [done|]. split; [by apply sublist_skip|].
    intros t. rewrite !elem_of_cons, Hin. naive_solver.
  - exists l'. split; [done|]. split; [by apply sublist_cons|].
    intros t. rewrite elem_of_cons, Hin. split; [naive_solver|].
    intros [[->|Ht] (g & Hg & Eg)]; [congruence|]. naive_solver.
Qed.

Lemma words_decommit ps s w x :
  seg_addr s -> seg_of x ≠ s -> 0 < ps ->
  arr 0 (filter (λ kv : Z * Z, (s + ps <=? kv.1) && (kv.1 <? s + SEGMENT_SIZE) = false) (words w)) x =
  arr 0 (words w) x.
Proof.
  intros Ha Hx Hps. pose proof (outside_segment s x Ha Hx) as Ho. unfold in_segment in Ho.
  assert (Hf : (s + ps <=? x) && (x <? s + SEGMENT_SIZE) = false).
  { apply andb_false_iff. apply andb_false_iff in Ho as [Ho|Ho]; [left|by right].
    zb. apply Z.leb_gt. lia. }
  unfold arr. f_equal. destruct (words w !! x) eqn:E; [by apply map_lookup_filter_Some_2|].
  apply map_lookup_filter_None_2. by left.
Qed.
