(* ===== verification/Retire.v ===== *)
(** * The retirement of a segment, access by access

    [Heap] runs [free_managed] and the refills one at a time.  Here is one segment
    of a free-list site with their accesses interleaved: the owner thread allocating,
    refilling and retiring it ([freelist_refill], [multi_refill] of
    [src/src/codegen/slow_init.cpp]), any threads freeing its chunks
    ([free_managed]), and the reaper ([reaper_sweep] of [src/src/seg/segment.cpp]).
    The owner's list is private to it and a push or harvest of the remote queue takes
    effect in one access ([Treiber]); what interleaves are the reads and writes of
    the header's [retired], [live_chunks] and [remote_head].

    The segment is never unmapped under a thread that may still touch it; but a free
    that reads [retired] before the owner sets it and pushes after the owner's last
    harvest strands its chunk: the segment is then never unmapped. *)

From S2P Require Import Prelude Common Segment Chunks.

Section Segment.
(** The segment's address and chunk size, and the thread that owns it. *)
Context (base size owner : Z) (Hsize : size_ok size).

Definition chunks : list ptr := chunk_list base size.

(** ** State *)

(** The next access of a thread: inside [free_managed] with the block it frees, or
    inside the owner's refill. *)
Inductive pc :=
  | ReadRetired (p : ptr)     (* [if (s->retired)] *)
  | Decrement (p : ptr)       (* [live_chunks.fetch_sub] *)
  | ReadOwner (p : ptr)       (* [s->owner_tid == my_tid] *)
  | PushLocal (p : ptr)       (* onto [tl_freelists] *)
  | PushRemote (p : ptr)      (* [mpsc_push] *)
  | Harvest                   (* [mpsc_harvest] *)
  | StoreLive                 (* [live_chunks.store] *)
  | SetRetired.               (* [active->retired = true] *)

(** [reaper_sweep] on this segment: about to read [retired], about to read
    [live_chunks], in the [eligible] array, or unmapped. *)
Inductive reaper := ReadFlag | ReadLive | Eligible | Released.

Record conf := mkConf {
  retired : bool;
  live_chunks : Z;
  local : list ptr;           (* the owner's free list *)
  remote : list ptr;          (* the remote queue, newest first *)
  held : list ptr;            (* the blocks the program holds *)
  pcs : gmap Z pc;            (* the threads inside an operation *)
  reaping : reaper;
  freed : list ptr;           (* history: the blocks [live_chunks] was decremented for *)
}.

(** The segment has just been mapped and chopped. *)
Definition conf0 : conf := mkConf false 0 (reverse chunks) [] [] ∅ ReadFlag [].

(** ** Accesses *)

Definition at_pc (t : Z) (p : pc) (c : conf) : conf :=
  mkConf (retired c) (live_chunks c) (local c) (remote c) (held c) (<[t := p]> (pcs c)) (reaping c) (freed c).

(** The operation of thread [t] ends, with new values of the shared state. *)
Definition ends (t : Z) (retired : bool) (live : Z) (local remote held freed : list ptr) (c : conf) : conf :=
  mkConf retired live local remote held (delete t (pcs c)) (reaping c) freed.

Definition access (t : Z) (p : pc) (c : conf) : conf :=
  match p with
  | ReadRetired x => at_pc t (if retired c then Decrement x else ReadOwner x) c
  | Decrement x => ends t (retired c) (u32 (live_chunks c - 1)) (local c) (remote c) (held c) (x :: freed c) c
  | ReadOwner x => at_pc t (if t =? owner then PushLocal x else PushRemote x) c
  | PushLocal x => ends t (retired c) (live_chunks c) (x :: local c) (remote c) (held c) (freed c) c
  | PushRemote x => ends t (retired c) (live_chunks c) (local c) (x :: remote c) (held c) (freed c) c
  | Harvest =>
      match remote c with
      | [] => at_pc t StoreLive c
      | x :: l => ends t (retired c) (live_chunks c) l [] (x :: held c) (freed c) c
      end
  | StoreLive =>
      mkConf (retired c) (Z.of_nat (length chunks)) (local c) (remote c) (held c)
        (<[t := SetRetired]> (pcs c)) (reaping c) (freed c)
  | SetRetired => ends t true (live_chunks c) (local c) (remote c) (held c) (freed c) c
  end.

Definition with_reaping (r : reaper) (c : conf) : conf :=
  mkConf (retired c) (live_chunks c) (local c) (remote c) (held c) (pcs c) r (freed c).

(** A sweep may also pass the segment by: its site is not tagged for reaping. *)
Definition sweep (take_it : bool) (c : conf) : conf :=
  match reaping c with
  | ReadFlag => if retired c then with_reaping ReadLive c else c
  | ReadLive =>
      if live_chunks c =? 0
      then with_reaping (if take_it then Eligible else ReadFlag) c
      else with_reaping ReadFlag c
  | Eligible => with_reaping Released c
  | Released => c
  end.

(** The owner allocates from its list, or refills when the list of the active
    segment is empty; a thread frees a block; a thread makes its next access; the
    reaper makes its next access. *)
Inductive action := Alloc | Refill | Free (t : Z) (p : ptr) | Next (t : Z) | Sweep (take_it : bool).

Definition exec (a : action) (c : conf) : option conf :=
  match a with
  | Alloc =>
      match pcs c !! owner, local c with
      | None, x :: l =>
          Some (mkConf (retired c) (live_chunks c) l (remote c) (x :: held c) (pcs c) (reaping c) (freed c))
      | _, _ => None
      end
  | Refill =>
      match pcs c !! owner, local c, retired c with
      | None, [], false => Some (at_pc owner Harvest c)
      | _, _, _ => None
      end
  | Free t p =>
      match pcs c !! t with
      | None =>
          if bool_decide (p ∈ held c)
          then Some (mkConf (retired c) (live_chunks c) (local c) (remote c) (filter (λ q, q ≠ p) (held c))
                 (<[t := ReadRetired p]> (pcs c)) (reaping c) (freed c))
          else None
      | Some _ => None
      end
  | Next t => p ← pcs c !! t; Some (access t p c)
  | Sweep b => Some (sweep b c)
  end.

Definition step (c c' : conf) : Prop := ∃ a, exec a c = Some c'.

Fixpoint exec_all (l : list action) (c : conf) : option conf :=
  match l with [] => Some c | a :: l => c' ← exec a c; exec_all l c' end.

(** The blocks of frees under way. *)
Definition hand (p : pc) : list ptr :=
  match p with
  | ReadRetired x | Decrement x | ReadOwner x | PushLocal x | PushRemote x => [x]
  | _ => []
  end.

Definition inflight (m : gmap Z pc) : list ptr := map_to_list m ≫= λ tp, hand tp.2.

Lemma inflight_start m t p : m !! t = None -> inflight (<[t := p]> m) ≡ₚ hand p ++ inflight m.
Proof. intros H. unfold inflight. by rewrite map_to_list_insert. Qed.

Lemma inflight_end m t p : m !! t = Some p -> inflight m ≡ₚ hand p ++ inflight (delete t m).
Proof. intros H. rewrite <- (insert_delete_id m t p H) at 1. apply inflight_start, lookup_delete_eq. Qed.

Lemma inflight_next m t p p' : m !! t = Some p -> hand p' = hand p -> inflight (<[t := p']> m) ≡ₚ inflight m.
Proof.
  intros H E. rewrite (inflight_end m t p H), <- insert_delete_eq, inflight_start by apply lookup_delete_eq.
  by rewrite E.
Qed.

(** ** The invariant *)

Definition count : Z := Z.of_nat (length chunks).

Definition pc_ok (c : conf) (t : Z) (p : pc) : Prop :=
  match p with
  | ReadRetired _ => True
  | Decrement _ => retired c = true
  | ReadOwner _ => t = owner -> retired c = false
  | PushLocal _ => t = owner ∧ retired c = false
  | PushRemote _ => t ≠ owner
  | Harvest | StoreLive => t = owner ∧ retired c = false ∧ local c = []
  | SetRetired => t = owner ∧ retired c = false ∧ local c = [] ∧ live_chunks c = count
  end.

Record inv (c : conf) : Prop := {
  i_places : local c ++ remote c ++ held c ++ inflight (pcs c) ++ freed c ≡ₚ chunks;
  i_active : retired c = false -> freed c = [];
  i_retired : retired c = true -> local c = [] ∧ live_chunks c = count - Z.of_nat (length (freed c));
  i_pcs t p : pcs c !! t = Some p -> pc_ok c t p;
  i_reaping : match reaping c with
    | ReadFlag => True
    | ReadLive => retired c = true
    | Eligible | Released => retired c = true ∧ live_chunks c = 0
    end;
}.

Lemma count_bound : 0 < count < 2 ^ 32.
Proof.
  unfold count, chunks. rewrite length_chunk_list. pose proof (chunk_count_pos size Hsize) as H1.
  unfold chunk_count, size_ok, HEADER_SIZE, SEGMENT_SIZE in *. split; [lia|].
  rewrite Z2Nat.id by (apply Z.div_pos; lia). apply Z.div_lt_upper_bound; lia.
Qed.

Lemma count_places c : inv c ->
  Z.of_nat (length (local c ++ remote c ++ held c ++ inflight (pcs c))) = count - Z.of_nat (length (freed c)).
Proof.
  intros I. unfold count. rewrite <- (Permutation_length (i_places _ I)), !length_app. lia.
Qed.

(** What a retired segment's [live_chunks] counts. *)
Lemma live_exact c : inv c -> retired c = true ->
  live_chunks c = Z.of_nat (length (remote c ++ held c ++ inflight (pcs c))).
Proof.
  intros I Hr. destruct (i_retired _ I Hr) as [Hl ->]. rewrite <- count_places by done. by rewrite Hl.
Qed.

Lemma inv_conf : inv conf0.
Proof.
  split; simpl; try done. unfold inflight. rewrite map_to_list_empty. simpl. rewrite app_nil_r. apply reverse_Permutation.
Qed.

Lemma remove_held (p : ptr) (l : list ptr) : NoDup l -> p ∈ l -> l ≡ₚ p :: filter (λ q, q ≠ p) l.
Proof.
  intros Hnd Hp. apply NoDup_Permutation; [done| |].
  - apply NoDup_cons. split; [|by apply NoDup_filter]. by intros [[] _]%list_elem_of_filter.
  - intros q. rewrite elem_of_cons, list_elem_of_filter. destruct (decide (q = p)); naive_solver.
Qed.

Lemma retire_places c : inv c -> NoDup (local c ++ remote c ++ held c ++ inflight (pcs c) ++ freed c).
Proof. intros I. rewrite (i_places _ I). by apply chunk_list_NoDup. Qed.

(** A thread's step within its operation. *)
Lemma inv_at_pc c t p p' : inv c -> pcs c !! t = Some p -> hand p' = hand p -> pc_ok c t p' -> inv (at_pc t p' c).
Proof.
  intros I Ht Eh Hp. split; simpl; try apply I.
  - rewrite (inflight_next _ _ _ _ Ht Eh). apply I.
  - intros t' q [[<- <-]|[_ Hq]]%lookup_insert_Some; [done|]. by apply (i_pcs _ I) in Hq.
Qed.

(** A thread's program point stays right when the owner's state does not change, or
    when the thread is not the owner. *)
Lemma pc_ok_other c c' t p :
  (retired c' = retired c ∧ local c' = local c ∧ (retired c = false -> live_chunks c' = live_chunks c)) ∨
    (t ≠ owner ∧ (retired c = true -> retired c' = true)) ->
  pc_ok c t p -> pc_ok c' t p.
Proof.
  intros [(Er & El & Ev)|[Hne Hr]].
  - destruct p; simpl; rewrite ?Er, ?El; try done. intros (? & H & ? & ?). rewrite Ev by done. done.
  - destruct p; simpl; try done; naive_solver.
Qed.

(** The end of an operation that moves chunks between the lists. *)
Lemma inv_ends c t p r live l rem h f :
  inv c -> pcs c !! t = Some p ->
  (l ++ rem ++ h ++ inflight (delete t (pcs c)) ++ f ≡ₚ local c ++ remote c ++ held c ++ inflight (pcs c) ++ freed c) ->
  (r = false -> f = []) -> (r = true -> l = [] ∧ live = count - Z.of_nat (length f)) ->
  (r = retired c ∧ l = local c ∧ (retired c = false -> live = live_chunks c) ∨ t = owner ∧ (retired c = true -> r = true)) ->
  match reaping c with ReadFlag => True | ReadLive => r = true | _ => r = true ∧ live = 0 end ->
  inv (ends t r live l rem h f c).
Proof.
  intros I Ht Hpl Hf Hr Hown Hre. split; simpl; try done.
  - rewrite Hpl. apply I.
  - intros t' q [Hne Hq]%lookup_delete_Some. eapply pc_ok_other; [|by apply (i_pcs _ I)].
    simpl. destruct Hown as [?|[-> ?]]; [by left|right]. by split.
Qed.

(** A thread that is in a free of a block: the segment is not about to be unmapped. *)
Lemma reaping_early c : inv c -> (∃ x, x ∈ remote c ++ held c ++ inflight (pcs c)) ∨ retired c = false ->
  match reaping c with ReadFlag => True | ReadLive => retired c = true | _ => False end.
Proof.
  intros I H. pose proof (i_reaping _ I) as Hre.
  assert (Hno : ¬ (retired c = true ∧ live_chunks c = 0)).
  { intros [Hr Hl]. destruct H as [[x Hx]|H]; [|congruence]. rewrite (live_exact c I Hr) in Hl.
    destruct (remote c ++ _) as [|y l]; [by apply elem_of_nil in Hx|done]. }
  by destruct (reaping c); [..|destruct (Hno Hre)|destruct (Hno Hre)].
Qed.

Lemma inflight_hand m t p x : m !! t = Some p -> hand p = [x] -> inflight m ≡ₚ x :: inflight (delete t m).
Proof. intros H E. by rewrite (inflight_end _ _ _ H), E. Qed.

Ltac early I :=
  let H := fresh in
  match goal with |- match reaping ?c with _ => _ end =>
    assert (H : match reaping c with ReadFlag => True | ReadLive => retired c = true | _ => False end);
    [apply (reaping_early c I)|destruct (reaping c); naive_solver]
  end.

Lemma inv_decrement c t x : inv c -> pcs c !! t = Some (Decrement x) -> inv (access t (Decrement x) c).
Proof.
  intros I Ht. pose proof (i_pcs _ I _ _ Ht) as Hr. simpl in Hr.
  pose proof (inflight_hand _ _ _ x Ht eq_refl) as Hin. destruct (i_retired _ I Hr) as [Hl Hv].
  pose proof (count_places c I) as Hc. rewrite Hin, Hl in Hc. simpl in Hc. rewrite !length_app in Hc. simpl in Hc.
  pose proof count_bound.
  eapply inv_ends; [done|exact Ht|..].
  - rewrite Hin. solve_Permutation.
  - congruence.
  - intros _. split; [done|]. rewrite u32_small by lia. simpl. lia.
  - left. split_and!; [done|done|congruence].
  - early I. left. exists x. rewrite Hin. set_solver.
Qed.

Lemma inv_push c t x p (own : bool) :
  inv c -> pcs c !! t = Some p -> p = (if own then PushLocal x else PushRemote x) -> inv (access t p c).
Proof.
  intros I Ht ->. pose proof (i_pcs _ I _ _ Ht) as Hp. destruct own; simpl in *.
  - pose proof (inflight_hand _ _ _ x Ht eq_refl) as Hin. destruct Hp as [-> Hr]. eapply inv_ends; [done|exact Ht|..].
    + rewrite Hin. solve_Permutation.
    + apply I.
    + congruence.
    + right. by split.
    + early I. by right.
  - pose proof (inflight_hand _ _ _ x Ht eq_refl) as Hin. eapply inv_ends; [done|exact Ht|..].
    + rewrite Hin. solve_Permutation.
    + apply I.
    + apply I.
    + by left.
    + early I. left. exists x. rewrite Hin. set_solver.
Qed.

Lemma inv_refill c t p :
  inv c -> pcs c !! t = Some p -> p = Harvest ∨ p = StoreLive ∨ p = SetRetired -> inv (access t p c).
Proof.
  intros I Ht Hp. pose proof (i_pcs _ I _ _ Ht) as Hok. pose proof (inflight_end _ _ _ Ht) as Hin.
  destruct Hp as [-> | [-> | ->]]; simpl in Hok, Hin; destruct Hok as (-> & Hr & Hl); simpl.
  - destruct (remote c) as [|x l] eqn:Er; [by eapply inv_at_pc|].
    eapply inv_ends; [done|exact Ht|..].
    + rewrite Hin, Er, Hl. solve_Permutation.
    + apply I.
    + congruence.
    + right. split; [done|congruence].
    + early I. by right.
  - split; simpl; try apply I.
    + rewrite (inflight_next _ _ _ _ Ht) by done. apply I.
    + congruence.
    + intros t' q [[<- <-]|[Hne Hq]]%lookup_insert_Some; [by split_and!|].
      eapply pc_ok_other; [|by apply (i_pcs _ I)]. by right.
    + early I. by right.
  - destruct Hl as [Hl Hv]. eapply inv_ends; [done|exact Ht|..].
    + by rewrite Hin.
    + done.
    + intros _. rewrite (i_active _ I Hr). split; [done|]. simpl. lia.
    + right. by split.
    + early I. by right.
Qed.

Lemma retire_access c t p : inv c -> pcs c !! t = Some p -> inv (access t p c).
Proof.
  intros I Ht. pose proof (i_pcs _ I _ _ Ht) as Hp.
  destruct p as [x|x|x|x|x| | |]; simpl in Hp.
  - simpl. destruct (retired c) eqn:Er; (eapply inv_at_pc; [done|exact Ht|done|simpl; auto]).
  - by apply inv_decrement.
  - simpl. destruct (Z.eqb_spec t owner); (eapply inv_at_pc; [done|exact Ht|done|]); simpl; auto.
  - by apply (inv_push c t x _ true).
  - by apply (inv_push c t x _ false).
  - apply inv_refill; auto.
  - apply inv_refill; auto.
  - apply inv_refill; auto.
Qed.

Lemma retire_sweep c b : inv c -> inv (sweep b c).
Proof.
  intros I. pose proof (i_reaping _ I) as Hre. unfold sweep.
  destruct (reaping c) eqn:E; repeat case_match; try done; zb; (split; simpl; [apply I..|auto]).
Qed.

Lemma inv_alloc c x l : inv c -> pcs c !! owner = None -> local c = x :: l ->
  inv (mkConf (retired c) (live_chunks c) l (remote c) (x :: held c) (pcs c) (reaping c) (freed c)).
Proof.
  intros I Ho El. assert (Hr : retired c = false).
  { destruct (retired c) eqn:Er; [|done]. destruct (i_retired _ I Er) as [H _]. by rewrite El in H. }
  split; simpl; try apply I.
  - rewrite <- (i_places _ I), El. solve_Permutation.
  - congruence.
  - intros t p Hp. eapply pc_ok_other; [|by apply (i_pcs _ I)]. right. split; [congruence|done].
Qed.

Lemma inv_free c t p : inv c -> pcs c !! t = None -> p ∈ held c ->
  inv (mkConf (retired c) (live_chunks c) (local c) (remote c) (filter (λ q, q ≠ p) (held c))
    (<[t := ReadRetired p]> (pcs c)) (reaping c) (freed c)).
Proof.
  intros I Ht Hp. split; simpl; try apply I.
  - rewrite inflight_start by done. simpl.
    assert (Hnd : NoDup (held c)) by (pose proof (retire_places c I) as H; by rewrite !NoDup_app in H; apply H).
    rewrite <- (i_places _ I). rewrite (remove_held p (held c)) at 2 by done. solve_Permutation.
  - intros t' q [[<- <-]|[_ Hq]]%lookup_insert_Some; [done|]. by apply (i_pcs _ I) in Hq.
Qed.

Lemma retire_inv c : rtc step conf0 c -> inv c.
Proof.
  apply reachable_invariant; [apply inv_conf|]. intros c1 c2 I [[| |t p|t|b] E]; simpl in E.
  - destruct (pcs c1 !! owner) eqn:Eo; [done|]. destruct (local c1) as [|x l] eqn:El; [done|].
    injection E as <-. by apply inv_alloc.
  - destruct (pcs c1 !! owner) eqn:Eo; [done|]. destruct (local c1) as [|x l] eqn:El; [|done].
    destruct (retired c1) eqn:Er; [done|]. injection E as <-. split; simpl; try apply I.
    + rewrite inflight_start by done. apply I.
    + intros t p [[<- <-]|[_ Hq]]%lookup_insert_Some; [done|by apply (i_pcs _ I) in Hq].
  - destruct (pcs c1 !! t) eqn:Et; [done|]. case_bool_decide; [|done]. injection E as <-. by apply inv_free.
  - destruct (pcs c1 !! t) as [p|] eqn:Et; [|done]. injection E as <-. by apply retire_access.
  - injection E as <-. by apply retire_sweep.
Qed.

Lemma released_quiet c : inv c -> reaping c = Released -> held c = [] ∧ pcs c = ∅.
Proof.
  intros I Hr. pose proof (i_reaping _ I) as Hre. rewrite Hr in Hre. destruct Hre as [Hret Hl].
  rewrite (live_exact c I Hret) in Hl.
  destruct (remote c ++ held c ++ inflight (pcs c)) as [|] eqn:E; [|done].
  apply app_nil in E as [_ [Eh Ei]%app_nil]. split; [done|]. apply map_empty. intros t.
  destruct (pcs c !! t) as [p|] eqn:Et; [|done]. pose proof (inflight_end _ _ _ Et) as Hin. rewrite Ei in Hin.
  apply Permutation_nil_l, eq_sym, app_nil in Hin as [Hh _].
  pose proof (i_pcs _ I _ _ Et) as Hp. destruct p; simpl in Hh, Hp; try done; naive_solver congruence.
Qed.

(** A chunk pushed on a retired segment stays there. *)
Lemma stranded_step c c' p :
  inv c -> retired c = true -> p ∈ remote c -> step c c' -> retired c' = true ∧ p ∈ remote c'.
Proof.
  intros I Hr Hp [[| |t x|t|b] E]; simpl in E; try (repeat case_match; by simplify_eq/=).
  - destruct (pcs c !! t) as [q|] eqn:Et; [|done]. injection E as <-. pose proof (i_pcs _ I _ _ Et) as Hq.
    destruct q; simpl in *; try (destruct Hq as (_ & ? & _)); try congruence; rewrite ?Hr; (split; [done|set_solver]).
  - injection E as <-. unfold sweep. repeat case_match; done.
Qed.
End Segment.

(** ** Properties *)

(** C7: retirement is safe.  However the owner's allocations, refills and
    retirement, any threads' frees and the reaper interleave, access by access, no
    chunk is ever in two places; once the segment is retired, [live_chunks] is
    exactly the number of its chunks that are held, inside a free, or in the remote
    queue; and when the reaper has unmapped it, nobody holds a block of it and no
    thread is inside an operation that may touch it. *)
Theorem retirement_safe (base size owner : Z) (c : conf) :
  size_ok size -> rtc (step base size owner) (conf0 base size) c ->
  local c ++ remote c ++ held c ++ inflight (pcs c) ⊆+ chunk_list base size ∧
  (retired c = true -> live_chunks c = Z.of_nat (length (remote c ++ held c ++ inflight (pcs c)))) ∧
  (reaping c = Released -> held c = [] ∧ pcs c = ∅).
Proof.
  intros Hsz Hc. pose proof (retire_inv base size owner Hsz c Hc) as I. split_and!.
  - rewrite <- (i_places _ _ _ _ I), !app_assoc. by apply submseteq_inserts_r.
  - by apply (live_exact base size owner).
  - by apply (released_quiet base size owner).
Qed.

(** C39: a stranded chunk.  A free that reads [retired] before the owner sets it, and
    pushes after the owner found the remote queue empty, leaves its chunk in the
    queue of a retired segment, which nobody harvests.  From then on, whatever
    happens, the chunk stays there and the segment is never unmapped, although the
    header's comment has [live_chunks] account for every chunk freed into a retired
    segment. *)
Theorem stranded_never_reaped (base size owner : Z) (c c' : conf) (p : ptr) :
  size_ok size -> rtc (step base size owner) (conf0 base size) c -> retired c = true -> p ∈ remote c ->
  rtc (step base size owner) c c' -> p ∈ remote c' ∧ p ∉ held c' ∧ reaping c' ≠ Released.
Proof.
  intros Hsz Hc Hr Hp Hs.
  assert (H : inv base size owner c' ∧ retired c' = true ∧ p ∈ remote c').
  { split; [apply retire_inv; [done|by etrans]|]. revert Hc Hr Hp.
    induction Hs as [c|c c1 c' H1 Hs IH]; intros Hc Hr Hp; [done|].
    destruct (stranded_step base size owner Hsz c c1 p) as [Hr1 Hp1]; [by apply retire_inv|done..|].
    apply IH; [by eapply rtc_r|done..]. }
  destruct H as (I & Hr' & Hp'). split_and!; [done| |].
  - intros Hh. pose proof (retire_places base size owner Hsz c' I) as Hnd.
    rewrite !NoDup_app in Hnd. set_solver.
  - intros E. pose proof (i_reaping _ _ _ _ I) as H. rewrite E in H. destruct H as [_ H].
    rewrite (live_exact base size owner c' I Hr'), length_app in H.
    destruct (remote c'); [by apply elem_of_nil in Hp'|simpl in H; lia].
Qed.

(** ** A segment of 512 chunks, owned by thread 1 *)

Lemma exec_all_steps base size owner l c c' :
  exec_all base size owner l c = Some c' -> rtc (step base size owner) c c'.
Proof.
  revert c. induction l as [|a l IH]; intros c E; simpl in E; [injection E as ->; apply rtc_refl|].
  destruct (exec base size owner a c) as [c1|] eqn:Ea; [|done]. eapply rtc_l; [by exists a|by apply IH].
Qed.

Definition demo_base : Z := 3 * 2 ^ 21.
Definition demo_size : Z := 4088.
Definition demo_chunks : list ptr := reverse (chunk_list demo_base demo_size).
Definition demo_first : ptr := hd 0 demo_chunks.

(** Thread 2 frees block [p]; the owner refills in vain and retires the segment. *)
Definition free_it (p : ptr) : list action := [Free 2 p; Next 2; Next 2].
Definition retire : list action := [Refill; Next 1; Next 1; Next 1].
Definition sweeps : list action := [Sweep true; Sweep true; Sweep true].

Definition all_taken : list action := replicate (length demo_chunks) Alloc.

(** Every block is freed after the retirement. *)
Definition reaped : list action := all_taken ++ retire ++ (demo_chunks ≫= free_it) ++ sweeps.

(** The first block is being freed while the segment is retired. *)
Definition stranded : list action :=
  all_taken ++ free_it demo_first ++ retire ++ [Next 2] ++ (tail demo_chunks ≫= free_it) ++ sweeps.

Definition demo_run (l : list action) : option conf := exec_all demo_base demo_size 1 l (conf0 demo_base demo_size).

Lemma demo_size_ok : size_ok demo_size.
Proof. split; reflexivity. Qed.

Lemma retirement_safe_witness :
  ∃ c, demo_run reaped = Some c ∧ reaping c = Released ∧ held c = [] ∧ pcs c = ∅.
Proof.
  destruct (demo_run reaped) as [c|] eqn:E; [|by vm_compute in E].
  assert (F : reaping <$> demo_run reaped = Some Released) by (vm_compute; reflexivity).
  rewrite E in F. injection F as F. exists c. split_and!; [done|exact F| |];
    apply (retirement_safe demo_base demo_size 1 c); try exact demo_size_ok; try exact F; by eapply exec_all_steps.
Defined.

Lemma stranded_never_reaped_witness :
  ∃ c, demo_run stranded = Some c ∧ held c = [] ∧ live_chunks c = 1 ∧
    ∀ c', rtc (step demo_base demo_size 1) c c' -> demo_first ∈ remote c' ∧ reaping c' ≠ Released.
Proof.
  destruct (demo_run stranded) as [c|] eqn:E; [|by vm_compute in E].
  assert (F : (λ c, (retired c, remote c, held c, live_chunks c)) <$> demo_run stranded =
    Some (true, [demo_first], [], 1)) by (vm_compute; reflexivity).
  rewrite E in F. injection F as Fr Fq Fh Fl. exists c. split_and!; [done|exact Fh|exact Fl|].
  intros c' Hs. destruct (stranded_never_reaped demo_base demo_size 1 c c' demo_first) as (? & _ & ?).
  - exact demo_size_ok.
  - by eapply exec_all_steps.
  - exact Fr.
  - rewrite Fq. by left.
  - exact Hs.
  - by split.
Defined.
