(* ===== verification/Heap.v ===== *)
(** * The segment heap

    All the memory the compiled routines serve, in one protocol: any threads run
    routines of any slots, free blocks of any segment, write into the blocks they
    hold, and exit; the reaper sweeps in between.  The state is [SlowInit]'s machine
    with the blocks the program holds.  A slot is compiled for one specification
    ([plan]); [routine] is what its code does ([Codegen] proves it of the bytes).

    The invariant accounts for every chunk of every segment: a chunk of a list
    segment is held, on its owner's list or in the remote queue; a chunk of a
    region is held or has been given up, and lies below the region's cursor.
    [inv_touch] is the one lemma that preserves it: an operation changes one
    segment and the slot of its owner.  Segments whose owner has exited stay
    as they are, and a new thread may be given the id of an exited one.

    A slot for [ProducerConsumer] is not among the plans: the sweep may unmap a
    segment of it with blocks in use ([Bump.pc_retire_undercounts]).  A block is
    the program's until it is freed or, in an arena, until the arena is reset.

    An operation is one step here; [Retire] has the accesses of the frees and the
    retirement of a segment interleaved, [Treiber] those of the remote queue. *)

From S2P Require Import Prelude Common Segment SlowInit Chunks.
From S2P Require Jit.

(** ** What a slot is compiled for

    Every strategy but [ProducerConsumer], whose segments keep no such account:
    [Bump.pc_retire_undercounts]. *)

Inductive plan :=
  | PlanList (size : Z)
  | PlanClasses (sizes : list Z)
  | PlanRegion (paired : bool) (size : Z)
  | PlanArena (size : Z).

(** What [compile] accepts (see [Codegen.accepts]). *)
Definition plan_ok (p : plan) : Prop :=
  match p with
  | PlanList sz => POINTER_SIZE <= sz < 4096
  | PlanClasses l => Forall (λ sz, POINTER_SIZE <= sz < 4096) l ∧ (length l <= 4)%nat
  | PlanRegion _ sz | PlanArena sz => 0 < sz < 4096
  end.

(** The result of a routine: a block, or a deopt and then libc's [malloc]. *)
Inductive outcome := Block (p : ptr) (m : machine) | Deopted (why : DeoptReason).

Definition block_of (r : ptr * machine) : outcome := Block r.1 r.2.

(** The fast path, or else the slow one. *)
Definition or_slow (fast : option (ptr * machine)) (slow : res (ptr * machine)) : res outcome :=
  match fast with
  | Some r => Ok (block_of r)
  | None => r ← slow; Ok (block_of r)
  end.

(** The blocks of a segment the program holds; the part of a list in it. *)
Definition held (s : Z) (U : list Z) : list Z := filter (λ p, seg_of p = s) U.

Arguments held _ _ : simpl never.

Lemma held_elem s U p : p ∈ held s U <-> seg_of p = s ∧ p ∈ U.
Proof. unfold held. by rewrite list_elem_of_filter. Qed.

#[export] Instance held_perm s : Proper ((≡ₚ) ==> (≡ₚ)) (held s).
Proof. intros U U' H. unfold held. by rewrite H. Qed.

Lemma held_cons s p U : held s (p :: U) = if decide (seg_of p = s) then p :: held s U else held s U.
Proof. unfold held. by rewrite filter_cons. Qed.

Lemma held_cons_eq s p U : seg_of p = s -> held s (p :: U) = p :: held s U.
Proof. intros. by rewrite held_cons, decide_True. Qed.

Lemma held_cons_ne s p U : seg_of p ≠ s -> held s (p :: U) = held s U.
Proof. intros. by rewrite held_cons, decide_False. Qed.

Lemma held_all s l : (∀ q, q ∈ l -> seg_of q = s) -> held s l = l.
Proof.
  induction l as [|q l IH]; intros H; [done|]. rewrite held_cons_eq by (apply H; set_solver).
  f_equal. apply IH. set_solver.
Qed.

Section Heap.
Context (plan_of : Z -> plan).

(** The routine of slot [idx] called by [tid] with size [n]. *)
Definition routine (raw : option Z) (tid idx n : Z) (m : machine) : res outcome :=
  match plan_of idx with
  | PlanList sz =>
      if n =? sz then or_slow (jit_pop tid idx m) (freelist_refill raw tid idx sz m)
      else Ok (Deopted SizeDrift)
  | PlanClasses l =>
      match Jit.class_of l n 0 with
      | Some c =>
          or_slow (jit_multi_pop tid idx (Z.of_nat c) m) (multi_refill raw tid idx n (Z.of_nat c) m)
      | None => Ok (Deopted SizeDrift)
      end
  | PlanRegion paired sz =>
      if n =? sz then
        match jit_bump tid idx sz m with
        | Some r => Ok (block_of r)
        | None =>
            if b_ptr (slot bump0 (tl_bumps m) (tid, idx)) =? 0
            then r ← (if paired then paired_slow_init else bump_slow_init) raw tid idx sz m;
                 Ok (block_of r)
            else Ok (Deopted RegionExhaust)
        end
      else Ok (Deopted RegionExhaust)
  | PlanArena sz =>
      if n =? sz then or_slow (jit_arena tid idx sz m) (arena_reset_alloc raw tid idx sz m)
      else Ok (Deopted SizeDrift)
  end.

(** A thread ends: its thread-local slots are gone, what they led to stays. *)
Definition exit_thread (tid : Z) (m : machine) : machine :=
  let keep {A} (s : gmap (Z * Z) A) := filter (λ kv, kv.1.1 ≠ tid) s in
  mkMachine (heap m) (keep (tl_bumps m)) (keep (tl_freelists m)) (keep (tl_multi_freelists m))
    (keep (tl_arenas m)) (g_slot_to_site m).

(** The state and the blocks the program holds. *)
Record conf := mkConf { st : machine; user : list Z }.

Definition conf0 : conf := mkConf (mkMachine world0 ∅ ∅ ∅ ∅ ∅) [].

(** The segment a routine resets: an arena's, when its region is used up. *)
Definition reset_seg (tid idx n : Z) (m : machine) : option ptr :=
  match plan_of idx with
  | PlanArena sz =>
      let base := a_base (slot arena0 (tl_arenas m) (tid, idx)) in
      match jit_arena tid idx sz m with
      | None => if (n =? sz) && negb (base =? 0) then Some (seg_of base) else None
      | Some _ => None
      end
  | _ => None
  end.

(** A reset checks nothing: by the contract at [arena_reset_alloc] in [slow_init.h]
    the arena's blocks end there, freed or not, and are handed out anew.  The
    program's blocks that do not end. *)
Definition survivors (tid idx n : Z) (m : machine) (U : list Z) : list Z :=
  match reset_seg tid idx n m with
  | Some s => filter (λ p, seg_of p ≠ s) U
  | None => U
  end.

Inductive step : conf -> conf -> Prop :=
  | S_routine raw tid idx n m U p m' :
      fresh_raw raw (heap m) -> routine raw tid idx n m = Ok (Block p m') ->
      step (mkConf m U) (mkConf m' (p :: survivors tid idx n m U))
  | S_free tid m U p U' m' :
      U ≡ₚ p :: U' -> free_managed tid (seg_of p) p m = Ok m' ->
      step (mkConf m U) (mkConf m' U')
  | S_write m U p v :
      p ∈ U -> step (mkConf m U) (mkConf (set_heap (write_word p v (heap m)) m) U)
  | S_reap mode pred ps m U n w :
      reaper_sweep mode pred ps (heap m) = Ok (n, w) ->
      step (mkConf m U) (mkConf (set_heap w m) U)
  | S_exit tid m U : step (mkConf m U) (mkConf (exit_thread tid m) U).

(** ** Slots and segments *)

(** A slot of a thread: index, and class for a multi-size slot. *)
Definition key : Type := Z * Z * option Z.

(** What a slot holds: list head, list segment, region cursor, end and base. *)
Record view := mkView { v_head : ptr; v_seg : ptr; v_ptr : ptr; v_end : ptr; v_base : ptr }.
Definition view0 : view := mkView 0 0 0 0 0.

(** Another list head. *)
Definition relink (p : ptr) (v : view) : view := mkView p (v_seg v) (v_ptr v) (v_end v) (v_base v).

Definition view_of (m : machine) (k : key) : view :=
  let '(tid, idx, cls) := k in
  match cls with
  | Some c =>
      let s := slot multi0 (tl_multi_freelists m) (tid, idx) in
      mkView (arr 0 (m_heads s) c) (arr 0 (m_segs s) c) 0 0 0
  | None =>
      let f := slot freelist0 (tl_freelists m) (tid, idx) in
      match plan_of idx with
      | PlanArena _ =>
          let a := slot arena0 (tl_arenas m) (tid, idx) in
          mkView (f_head f) (f_segs f) (a_ptr a) (a_end a) (a_base a)
      | _ =>
          let b := slot bump0 (tl_bumps m) (tid, idx) in
          mkView (f_head f) (f_segs f) (b_ptr b) (b_end b) 0
      end
  end.

(** The slot a segment belongs to. *)
Definition key_of (h : SegmentHeader) : key :=
  (owner_tid h, slot_index h,
   if decide (strategy h = MultiSizeFreeList) then Some (class_idx h) else None).

(** The header agrees with what its slot was compiled for. *)
Definition planned (h : SegmentHeader) : Prop :=
  match plan_of (slot_index h), strategy h with
  | PlanList sz, ThreadLocalFreeList | PlanRegion false sz, BumpAlloc | PlanRegion true sz, PairedStack
  | PlanArena sz, EpochArena => chunk_size h = sz
  | PlanClasses l, MultiSizeFreeList =>
      0 <= class_idx h ∧ l !! Z.to_nat (class_idx h) = Some (chunk_size h)
  | _, _ => False
  end.

(** List segments keep their chunks on lists; the others are regions. *)
Definition listed (h : SegmentHeader) : bool :=
  match strategy h with ThreadLocalFreeList | MultiSizeFreeList => true | _ => false end.

(** ** The invariant *)

(** A list segment: [L] is its owner's list, [R] its remote queue. *)
Definition places (U L R : list Z) (s : Z) : list Z := held s U ++ held s L ++ R.

Record list_ok (m : machine) (U L R : list Z) (s : Z) (h : SegmentHeader) : Prop := {
  l_remote : chain (words (heap m)) (remote_head h) R;
  l_active : retired h = false ->
    places U L R s ⊆+ chunk_list s (chunk_size h) ∧
    (v_seg (view_of m (key_of h)) = s -> places U L R s ≡ₚ chunk_list s (chunk_size h));
  l_retired : retired h = true ->
    R = [] ∧ held s U ⊆+ chunk_list s (chunk_size h) ∧
    live_chunks h = Z.of_nat (length (held s U));
}.

(** The first [n] chunks of a region have been handed out; the slot's cursor, if
    it is on this region, stands behind them. *)
Definition region_ok (m : machine) (U : list Z) (s : Z) (h : SegmentHeader) : Prop :=
  retired h = false ∧
  ∃ n : nat, (n <= chunk_count (chunk_size h))%nat ∧
    held s U ⊆+ chunks_to s (chunk_size h) n ∧
    (v_end (view_of m (key_of h)) = segment_end s ->
     v_ptr (view_of m (key_of h)) = chunk s (chunk_size h) n).

Definition segment_ok (m : machine) (U L R : list Z) (s : Z) (h : SegmentHeader) : Prop :=
  seg_addr s ∧ planned h ∧
  if listed h then list_ok m U L R s h else region_ok m U s h.

(** One slot, with the list [l] it holds. *)
Record slot_ok (m : machine) (l : list Z) (k : key) : Prop := {
  s_chain : chain (words (heap m)) (v_head (view_of m k)) l;
  s_list p : p ∈ l -> ∃ h, segs (heap m) !! seg_of p = Some h ∧ listed h = true ∧
    retired h = false ∧ key_of h = k;
  s_seg : v_seg (view_of m k) ≠ 0 -> ∃ h, segs (heap m) !! v_seg (view_of m k) = Some h ∧
    listed h = true ∧ retired h = false ∧ key_of h = k;
  s_region : v_end (view_of m k) ≠ 0 -> ∃ s h, v_end (view_of m k) = segment_end s ∧
    segs (heap m) !! s = Some h ∧ listed h = false ∧ key_of h = k;
  s_fresh : v_end (view_of m k) = 0 <-> v_ptr (view_of m k) = 0;
  s_base : ∀ sz, plan_of k.1.2 = PlanArena sz -> k.2 = None ->
    v_base (view_of m k) = if v_end (view_of m k) =? 0 then 0
                           else v_end (view_of m k) - SEGMENT_SIZE + HEADER_SIZE;
}.

Record inv_with (m : machine) (U : list Z) (L : key -> list Z) (R : Z -> list Z) : Prop := {
  inv_segs s h : segs (heap m) !! s = Some h -> segment_ok m U (L (key_of h)) (R s) s h;
  inv_slots k : slot_ok m (L k) k;
  inv_user p : p ∈ U -> is_Some (segs (heap m) !! seg_of p);
  inv_registry : registered (heap m) (dom (segs (heap m)));
}.

Definition inv (c : conf) : Prop := ∃ L R, inv_with (st c) (user c) L R.

Lemma view_conf0 k : view_of (st conf0) k = view0.
Proof. destruct k as [[t i] [c|]]; [done|]. cbn. by destruct (plan_of i). Qed.

Lemma slot_ok_fresh m k : view_of m k = view0 -> slot_ok m [] k.
Proof. intros E. split; rewrite ?E; try done. intros p Hp. by apply elem_of_nil in Hp. Qed.

Lemma inv_conf0 : inv conf0.
Proof.
  exists (λ _, []), (λ _, []). split; cbn [st user].
  - intros s h Hh. cbn in Hh. by rewrite lookup_empty in Hh.
  - intros k. apply slot_ok_fresh, view_conf0.
  - intros p Hp. by apply elem_of_nil in Hp.
  - cbn. rewrite dom_empty_L. apply registered_world0.
Qed.

(** ** Where the chunks are *)

Context (Hplan : ∀ idx, plan_ok (plan_of idx)).

Lemma planned_size h : planned h -> size_ok (chunk_size h).
Proof.
  unfold planned, size_ok. specialize (Hplan (slot_index h)).
  destruct (plan_of (slot_index h)) as [sz|l|[] sz|sz], (strategy h); try done; simpl in Hplan;
    unfold POINTER_SIZE in Hplan; try lia.
  destruct Hplan as [Hl _]. intros [_ E]. rewrite Forall_lookup in Hl. apply Hl in E. lia.
Qed.

Lemma segment_frame m m' U U' l l' r t g :
  segment_ok m U l r t g ->
  held t U' ≡ₚ held t U -> held t l' ≡ₚ held t l ->
  (∀ x, x ∈ r -> listed g = true -> arr 0 (words (heap m')) x = arr 0 (words (heap m)) x) ->
  (v_seg (view_of m' (key_of g)) = t -> v_seg (view_of m (key_of g)) = t) ->
  (v_end (view_of m' (key_of g)) = segment_end t ->
   v_end (view_of m (key_of g)) = segment_end t ∧ v_ptr (view_of m' (key_of g)) = v_ptr (view_of m (key_of g))) ->
  segment_ok m' U' l' r t g.
Proof.
  intros (Ha & Hp & H) HU Hl Hw Hs He. split; [done|]. split; [done|]. destruct (listed g) eqn:El.
  - destruct H as [Hc Hact Hret]. split.
    + eapply chain_ext; [|exact Hc]. auto.
    + unfold places in *. rewrite HU, Hl. intros Hr. destruct (Hact Hr). auto.
    + rewrite HU. exact Hret.
  - destruct H as (Hr & n & Hn & Hh & Hv). split; [done|]. exists n. rewrite HU. split_and!; [done..|].
    intros E. destruct (He E) as [E' ->]. auto.
Qed.

Lemma slot_frame m m' l k :
  slot_ok m l k -> view_of m' k = view_of m k ->
  (∀ x, x ∈ l -> arr 0 (words (heap m')) x = arr 0 (words (heap m)) x) ->
  (∀ t h, segs (heap m) !! t = Some h -> key_of h = k -> (listed h = true -> retired h = false) ->
     segs (heap m') !! t = Some h) ->
  slot_ok m' l k.
Proof.
  intros [Hc Hl Hs Hr Hf Hb] Ev Hw Hseg. split; rewrite ?Ev; try done.
  - by eapply chain_ext.
  - intros p Hp. destruct (Hl p Hp) as (h & ? & ? & ? & ?). eauto 7.
  - intros Hne. destruct (Hs Hne) as (h & ? & ? & ? & ?). eauto 7.
  - intros Hne. destruct (Hr Hne) as (s & h & ? & ? & El & ?). exists s, h. split_and!; try done.
    apply Hseg; [done..|]. by rewrite El.
Qed.

(** A slot while a segment's header changes and its own list and cursor move. *)
Lemma slot_update m m' s h h' k l l' :
  slot_ok m l k -> segs (heap m) !! s = Some h -> segs (heap m') = <[s := h']> (segs (heap m)) ->
  key_of h' = key_of h -> listed h' = listed h -> (listed h = true -> retired h' = retired h) ->
  let v := view_of m k in let v' := view_of m' k in
  v_seg v' = v_seg v -> v_end v' = v_end v -> v_base v' = v_base v -> (v_end v = 0 <-> v_ptr v' = 0) ->
  chain (words (heap m')) (v_head v') l' ->
  (∀ p, p ∈ l' -> p ∈ l ∨ seg_of p = s ∧ listed h = true ∧ retired h = false ∧ key_of h = k) ->
  slot_ok m' l' k.
Proof.
  intros [_ Hl Hs Hr _ Hb] Hh Hsegs Ek El Er v v' Es Ee Eb Ef Hc Hin. subst v v'.
  assert (Hold : ∀ t g, segs (heap m) !! t = Some g -> ∃ g', segs (heap m') !! t = Some g' ∧
    listed g' = listed g ∧ (listed g = true -> retired g' = retired g) ∧ key_of g' = key_of g).
  { intros t g Hg. rewrite Hsegs. destruct (decide (t = s)) as [->|Hn].
    - rewrite lookup_insert_eq. exists h'. assert (g = h) as -> by congruence. auto.
    - rewrite lookup_insert_ne by done. eauto 7. }
  split; rewrite ?Es, ?Ee, ?Eb; try done.
  - intros p Hp. destruct (Hin p Hp) as [Hp'|(-> & Hp')].
    + destruct (Hl p Hp') as (g & Hg & ? & ? & ?). destruct (Hold _ g Hg) as (g' & ? & ? & Hrg & ?).
      exists g'. rewrite Hrg by done. split_and!; congruence.
    + exists h'. rewrite Hsegs, lookup_insert_eq, El, Er, Ek by tauto. tauto.
  - intros Hne. destruct (Hs Hne) as (g & Hg & ? & ? & ?). destruct (Hold _ g Hg) as (g' & ? & ? & Hrg & ?).
    exists g'. rewrite Hrg by done. split_and!; congruence.
  - intros Hne. destruct (Hr Hne) as (t & g & ? & Hg & ? & ?). destruct (Hold _ g Hg) as (g' & ? & ? & _ & ?).
    exists t, g'. split_and!; congruence.
Qed.

Section Facts.
Context (m : machine) (U : list Z) (L : key -> list Z) (R : Z -> list Z).
Context (I : inv_with m U L R).

Lemma seg_facts s h : segs (heap m) !! s = Some h -> seg_addr s ∧ planned h ∧ size_ok (chunk_size h).
Proof. intros Hh. destruct (inv_segs _ _ _ _ I s h Hh) as (Ha & Hp & _). auto using planned_size. Qed.

Lemma seg_list s h : segs (heap m) !! s = Some h -> listed h = true -> list_ok m U (L (key_of h)) (R s) s h.
Proof. intros Hh Hl. destruct (inv_segs _ _ _ _ I s h Hh) as (_ & _ & H). by rewrite Hl in H. Qed.

Lemma seg_region s h : segs (heap m) !! s = Some h -> listed h = false -> region_ok m U s h.
Proof. intros Hh Hl. destruct (inv_segs _ _ _ _ I s h Hh) as (_ & _ & H). by rewrite Hl in H. Qed.

(** What the program holds of a segment are distinct chunks of it. *)
Lemma held_chunks s h : segs (heap m) !! s = Some h -> held s U ⊆+ chunk_list s (chunk_size h).
Proof.
  intros Hh. destruct (listed h) eqn:Hl.
  - destruct (seg_list s h Hh Hl) as [_ Ha Hr]. destruct (retired h); [by apply Hr|].
    etrans; [|by apply Ha]. apply submseteq_inserts_r. done.
  - destruct (seg_region s h Hh Hl) as (_ & n & Hn & Hsub & _). etrans; [exact Hsub|].
    by apply chunks_to_mono.
Qed.

Lemma chunk_here s h p :
  segs (heap m) !! s = Some h -> p ∈ chunk_list s (chunk_size h) -> seg_of p = s ∧ p ≠ 0.
Proof. intros Hh. destruct (seg_facts s h Hh) as (? & _ & ?). by apply chunk_seg_of. Qed.

(** A held block is a chunk of its segment. *)
Lemma user_chunk p h :
  p ∈ U -> segs (heap m) !! seg_of p = Some h -> p ∈ chunk_list (seg_of p) (chunk_size h).
Proof. intros Hp Hh. eapply elem_of_submseteq; [|by apply held_chunks]. by apply held_elem. Qed.

(** Three places, no chunk in two of them. *)
Lemma places_NoDup s h :
  segs (heap m) !! s = Some h -> listed h = true -> retired h = false ->
  NoDup (places U (L (key_of h)) (R s) s).
Proof.
  intros Hh Hl Hr. destruct (seg_list s h Hh Hl) as [_ Ha _]. destruct (Ha Hr) as [Hsub _].
  eapply submseteq_NoDup; [exact Hsub|]. apply chunk_list_NoDup. by apply (seg_facts s).
Qed.

Lemma remote_elem s h p :
  segs (heap m) !! s = Some h -> listed h = true -> p ∈ R s ->
  retired h = false ∧ p ∈ chunk_list s (chunk_size h) ∧ seg_of p = s.
Proof.
  intros Hh Hl Hp. destruct (seg_list s h Hh Hl) as [_ Ha Hr].
  destruct (retired h); [destruct Hr as [E _]; [done|]; rewrite E in Hp; by apply elem_of_nil in Hp|].
  assert (Hc : p ∈ chunk_list s (chunk_size h)).
  { eapply elem_of_submseteq; [|by apply Ha]. unfold places. set_solver. }
  split_and!; [done..|]. by apply (chunk_here _ h).
Qed.

Lemma list_elem k p : p ∈ L k -> ∃ h, segs (heap m) !! seg_of p = Some h ∧ listed h = true ∧
  retired h = false ∧ key_of h = k ∧ p ∈ held (seg_of p) (L k).
Proof.
  intros Hp. destruct (s_list _ _ _ (inv_slots _ _ _ _ I k) p Hp) as (h & ? & ? & ? & ?).
  exists h. split_and!; [done..|]. by apply held_elem.
Qed.

Lemma user_not_listed p :
  p ∈ U -> (∀ k, p ∉ L k) ∧ (∀ s h, segs (heap m) !! s = Some h -> listed h = true -> p ∉ R s).
Proof.
  intros Hp. split.
  - intros k Hin. destruct (list_elem k p Hin) as (h & Hh & Hl & Hr & Hk & Hheld).
    pose proof (places_NoDup _ h Hh Hl Hr) as Hnd. rewrite Hk in Hnd.
    apply NoDup_app in Hnd as (_ & Hd & _). apply (Hd p); [by apply held_elem|set_solver].
  - intros s h Hh Hl Hin. destruct (remote_elem s h p Hh Hl Hin) as (Hr & _ & Es).
    pose proof (places_NoDup s h Hh Hl Hr) as Hnd.
    apply NoDup_app in Hnd as (_ & Hd & _). apply (Hd p); [by apply held_elem|set_solver].
Qed.

Lemma held_new s : segs (heap m) !! s = None -> held s U = [].
Proof.
  intros Hs. destruct (held s U) as [|p l] eqn:E; [done|].
  assert (Hp : p ∈ held s U) by (rewrite E; set_solver).
  apply held_elem in Hp as [Es Hp]. apply (inv_user _ _ _ _ I) in Hp. rewrite Es, Hs in Hp.
  by destruct Hp.
Qed.

(** ** Preservation *)

(** An operation on segment [s] and on the slot [k] of its owner. *)
Record touches (s : Z) (k : key) (m' : machine) (U' : list Z) (L' : key -> list Z)
    (R' : Z -> list Z) : Prop := {
  t_slots k' : k' ≠ k -> view_of m' k' = view_of m k' ∧ L' k' = L k';
  t_seg t : t ≠ s -> t ≠ 0 -> v_seg (view_of m' k) = t -> v_seg (view_of m k) = t;
  t_region t : t ≠ s -> t ≠ 0 -> v_end (view_of m' k) = segment_end t ->
    v_end (view_of m k) = segment_end t ∧ v_ptr (view_of m' k) = v_ptr (view_of m k);
  t_held t : t ≠ s -> held t U' ≡ₚ held t U;
  t_list t : t ≠ s -> held t (L' k) ≡ₚ held t (L k);
  t_remote t : t ≠ s -> R' t = R t;
  t_words x : seg_of x ≠ s -> arr 0 (words (heap m')) x = arr 0 (words (heap m)) x;
}.

Lemma inv_touch s h' m' U' L' R' :
  (∀ h, segs (heap m) !! s = Some h -> key_of h = key_of h') ->
  segs (heap m') = <[s := h']> (segs (heap m)) ->
  registered (heap m') (dom (segs (heap m'))) ->
  touches s (key_of h') m' U' L' R' ->
  segment_ok m' U' (L' (key_of h')) (R' s) s h' -> slot_ok m' (L' (key_of h')) (key_of h') ->
  inv_with m' U' L' R'.
Proof.
  intros Hkey Hsegs Hreg [Hk Hs Hr HU HL HR Hw] Hseg Hslot. split.
  - intros t g. rewrite Hsegs. intros [[<- <-]|[Hne Hg]]%lookup_insert_Some; [done|].
    destruct (seg_facts t g Hg) as ([Ht0 _] & _). rewrite HR by done.
    eapply segment_frame; [by apply (inv_segs _ _ _ _ I)|by apply HU| | | |].
    + destruct (decide (key_of g = key_of h')) as [->|Hn]; [by apply HL|by destruct (Hk _ Hn) as [_ ->]].
    + intros x Hx Hl. apply Hw. destruct (remote_elem t g x Hg Hl Hx) as (_ & _ & ->). done.
    + destruct (decide (key_of g = key_of h')) as [->|Hn]; [apply Hs; [done|lia]|by destruct (Hk _ Hn) as [-> _]].
    + destruct (decide (key_of g = key_of h')) as [->|Hn]; [apply Hr; [done|lia]|by destruct (Hk _ Hn) as [-> _]].
  - intros k. destruct (decide (k = key_of h')) as [->|Hn]; [done|]. destruct (Hk k Hn) as [Ev ->].
    assert (Hother : ∀ t h, segs (heap m) !! t = Some h -> key_of h = k -> t ≠ s).
    { intros t h Hh Ek ->. apply Hkey in Hh. congruence. }
    eapply slot_frame; [apply (inv_slots _ _ _ _ I)|done| |].
    + intros x Hx. apply Hw. destruct (list_elem k x Hx) as (h & Hh & _ & _ & Ek & _). by eapply Hother.
    + intros t h Hh Ek _. rewrite Hsegs, lookup_insert_ne; [done|]. apply not_eq_sym. by eapply Hother.
  - intros p Hp. rewrite Hsegs. apply lookup_insert_is_Some.
    destruct (decide (s = seg_of p)) as [|Hn]; [by left|right]. split; [done|].
    apply (inv_user _ _ _ _ I). assert (Hin : p ∈ held (seg_of p) U') by by apply held_elem.
    rewrite HU in Hin by congruence. by apply held_elem in Hin as [_ ?].
  - exact Hreg.
Qed.

(** The common case: the segment is mapped, and stays registered. *)
Lemma registered_touch s h h' w' :
  segs (heap m) !! s = Some h -> segs w' = <[s := h']> (segs (heap m)) ->
  pagemap w' = pagemap (heap m) -> index w' = index (heap m) -> registered w' (dom (segs w')).
Proof.
  intros Hs Hsegs Hp Hi. rewrite Hsegs, dom_insert_L.
  assert (Hd : s ∈ dom (segs (heap m))) by (apply elem_of_dom; eauto).
  replace ({[s]} ∪ dom (segs (heap m))) with (dom (segs (heap m))) by set_solver.
  eapply registered_frame; [done..|apply (inv_registry _ _ _ _ I)].
Qed.

(** Nothing but words changes, and those are on no list. *)
Lemma inv_words m' :
  segs (heap m') = segs (heap m) -> pagemap (heap m') = pagemap (heap m) ->
  index (heap m') = index (heap m) -> (∀ k, view_of m' k = view_of m k) ->
  (∀ x k, x ∈ L k -> arr 0 (words (heap m')) x = arr 0 (words (heap m)) x) ->
  (∀ x s h, segs (heap m) !! s = Some h -> listed h = true -> x ∈ R s ->
     arr 0 (words (heap m')) x = arr 0 (words (heap m)) x) ->
  inv_with m' U L R.
Proof.
  intros Hs Hp Hi Hv HL HR. split.
  - rewrite Hs. intros s h Hh. eapply segment_frame; [by apply (inv_segs _ _ _ _ I)|done|done| |by rewrite Hv..].
    intros x Hx Hl. by apply (HR x s h).
  - intros k. eapply slot_frame; [apply (inv_slots _ _ _ _ I)|done|by intros; apply (HL _ k)|]. by rewrite Hs.
  - rewrite Hs. apply (inv_user _ _ _ _ I).
  - rewrite Hs. eapply registered_frame; [done..|apply (inv_registry _ _ _ _ I)].
Qed.

(** A retired list segment none of whose chunks is held can go. *)
Lemma inv_drop s h m' :
  segs (heap m) !! s = Some h -> retired h = true -> live_chunks h = 0 ->
  segs (heap m') = delete s (segs (heap m)) -> (∀ k, view_of m' k = view_of m k) ->
  registered (heap m') (dom (segs (heap m'))) ->
  (∀ x, seg_of x ≠ s -> arr 0 (words (heap m')) x = arr 0 (words (heap m)) x) ->
  inv_with m' U L R.
Proof.
  intros Hs Hr Hlive Hsegs Hv Hreg Hw.
  assert (Hl : listed h = true).
  { destruct (listed h) eqn:Hl; [done|]. destruct (seg_region s h Hs Hl) as [E _]. congruence. }
  destruct (l_retired _ _ _ _ _ _ (seg_list s h Hs Hl) Hr) as (_ & _ & Hn).
  assert (Hnone : held s U = []) by (apply nil_length_inv; lia).
  split.
  - rewrite Hsegs. intros t g [Hne Hg]%lookup_delete_Some.
    eapply segment_frame; [by apply (inv_segs _ _ _ _ I)|done|done| |by rewrite Hv..].
    intros x Hx Hlg. apply Hw. destruct (remote_elem t g x Hg Hlg Hx) as (_ & _ & ->). done.
  - intros k. eapply slot_frame; [apply (inv_slots _ _ _ _ I)|done| |].
    + intros x Hx. apply Hw. destruct (list_elem k x Hx) as (g & Hg & _ & Hrg & _). congruence.
    + intros t g Hg _ Hrg. rewrite Hsegs, lookup_delete_ne; [done|]. intros ->.
      rewrite Hs in Hg. injection Hg as <-. specialize (Hrg Hl). congruence.
  - intros p Hp. rewrite Hsegs. destruct (decide (seg_of p = s)) as [E|Hns].
    + assert (Hin : p ∈ held s U) by by apply held_elem. rewrite Hnone in Hin. by apply elem_of_nil in Hin.
    + rewrite lookup_delete_ne by done. by apply (inv_user _ _ _ _ I).
  - exact Hreg.
Qed.

(** The blocks of a segment that keeps no account of them are forgotten. *)
Lemma inv_forget s :
  (∀ h, segs (heap m) !! s = Some h -> listed h = false) -> inv_with m (filter (λ p, seg_of p ≠ s) U) L R.
Proof.
  intros Hs. split.
  - intros t g Hg. destruct (decide (t = s)) as [->|Hne].
    + destruct (inv_segs _ _ _ _ I s g Hg) as (Ha & Hp & H). split; [done|]. split; [done|].
      rewrite (Hs g Hg) in *. destruct H as (Hr & n & Hn & _ & Hv). split; [done|]. exists n. split_and!; [done| |done].
      replace (held s _) with (@nil Z); [apply submseteq_nil_l|]. symmetry.
      apply elem_of_nil_inv. intros q [Eq [Hq _]%list_elem_of_filter]%held_elem. done.
    + eapply segment_frame; [by apply (inv_segs _ _ _ _ I)| |done|done|done|done].
      unfold held. rewrite list_filter_filter.
      erewrite list_filter_iff; [done|]. intros q. cbn. split; [tauto|]. intros ->. done.
  - apply (inv_slots _ _ _ _ I).
  - intros p [_ Hp]%list_elem_of_filter. by apply (inv_user _ _ _ _ I).
  - apply (inv_registry _ _ _ _ I).
Qed.

(** *** Chunks of one segment change places *)

(** Between the program, the owner's list and the remote queue. *)
Lemma inv_move s h k rh hd m' U' l' r' :
  segs (heap m) !! s = Some h -> key_of h = k -> listed h = true -> retired h = false ->
  segs (heap m') = <[s := with_remote rh h]> (segs (heap m)) ->
  pagemap (heap m') = pagemap (heap m) -> index (heap m') = index (heap m) ->
  (∀ k', k' ≠ k -> view_of m' k' = view_of m k') ->
  view_of m' k = relink hd (view_of m k) ->
  chain (words (heap m')) hd l' -> chain (words (heap m')) rh r' ->
  places U' l' r' s ≡ₚ places U (L k) (R s) s ->
  (∀ t, t ≠ s -> held t U' ≡ₚ held t U) -> (∀ t, t ≠ s -> held t l' ≡ₚ held t (L k)) ->
  (∀ x, seg_of x ≠ s -> arr 0 (words (heap m')) x = arr 0 (words (heap m)) x) ->
  inv_with m' U' (λ k', if decide (k' = k) then l' else L k') (λ t, if decide (t = s) then r' else R t).
Proof.
  intros Hs Hkey Hl Hr Hsegs Hp Hi Hk Hv Hlk Hrs Hperm HU HL Hw.
  destruct (inv_segs _ _ _ _ I s h Hs) as (Ha & Hpl & Hlist). rewrite Hl in Hlist.
  destruct Hlist as [_ Hact _]. rewrite Hkey in Hact. set (h' := with_remote rh h) in *.
  assert (Ek : key_of h' = k) by (rewrite <- Hkey; by destruct h). assert (El : listed h' = listed h) by by destruct h.
  assert (Er : retired h' = retired h) by by destruct h. assert (Ec : chunk_size h' = chunk_size h) by by destruct h.
  apply (inv_touch s h'); rewrite ?Ek, ?decide_True by done; [congruence|exact Hsegs| | | |].
  - by eapply registered_touch.
  - split; rewrite ?decide_True by done.
    + intros k' Hn. by rewrite Hk, decide_False.
    + by rewrite Hv.
    + by rewrite Hv.
    + done.
    + done.
    + intros t Ht. by rewrite decide_False.
    + done.
  - split; [done|]. split; [by destruct h|]. rewrite El, Hl. split; rewrite ?Ek, ?Ec, ?Er.
    + by destruct h.
    + rewrite Hperm, Hv. intros _. by apply Hact.
    + congruence.
  - apply (slot_update m m' s h h' k (L k)); rewrite ?Hv; try done; [apply (inv_slots _ _ _ _ I)|congruence| |].
    + apply (s_fresh _ _ _ (inv_slots _ _ _ _ I k)).
    + intros p Hp'. destruct (decide (seg_of p = s)) as [|Hn]; [by right|left].
      apply (held_elem (seg_of p)). rewrite <- HL by done. by apply held_elem.
Qed.

(** *** Retired segments *)

(** The header of a retired segment changes, with the blocks it counts. *)
Lemma inv_retired s h h' m' U' :
  segs (heap m) !! s = Some h -> listed h = true -> retired h = true ->
  retired h' = true -> planned h' -> listed h' = true -> chunk_size h' = chunk_size h ->
  key_of h' = key_of h -> remote_head h' = remote_head h ->
  (∀ t, t ≠ s -> held t U' ≡ₚ held t U) -> held s U' ⊆+ held s U ->
  live_chunks h' = Z.of_nat (length (held s U')) ->
  segs (heap m') = <[s := h']> (segs (heap m)) ->
  pagemap (heap m') = pagemap (heap m) -> index (heap m') = index (heap m) ->
  (∀ k, view_of m' k = view_of m k) ->
  (∀ x, seg_of x ≠ s -> arr 0 (words (heap m')) x = arr 0 (words (heap m)) x) ->
  inv_with m' U' L R.
Proof.
  intros Hs Hl Hr Hr' Hpl Hl' Ec Ek Erem HU Hsub Hlive Hsegs Hp Hi Hv Hw.
  destruct (l_retired _ _ _ _ _ _ (seg_list s h Hs Hl) Hr) as (HR & Hsub' & _).
  pose proof (l_remote _ _ _ _ _ _ (seg_list s h Hs Hl)) as Hrem.
  apply (inv_touch s h'); rewrite ?Ek; [congruence|exact Hsegs| | | |].
  - by eapply registered_touch.
  - split; rewrite ?Hv; auto.
  - split; [by apply (seg_facts s h)|]. split; [done|]. rewrite Hl'. split; [|congruence|].
    + rewrite HR in *. by rewrite Erem.
    + intros _. rewrite Ec, HR. split_and!; [done|by etrans|done].
  - pose proof (inv_slots _ _ _ _ I (key_of h)) as S.
    apply (slot_update m m' s h h' _ (L (key_of h))); rewrite ?Hv; try done; [congruence|congruence|apply S| |by left].
    eapply chain_ext; [|apply S]. intros x Hx. apply Hw. intros <-.
    destruct (list_elem _ x Hx) as (g & Hg & _ & Hrg & _). congruence.
Qed.

(** *** Regions *)

(** A region's header changes; its owner's cursor, if it is on it, moves to [n]. *)
Lemma inv_region s h h' k m' U' n p :
  segs (heap m) !! s = Some h -> listed h = false -> key_of h = k ->
  retired h' = false -> planned h' -> listed h' = false -> chunk_size h' = chunk_size h -> key_of h' = k ->
  (n <= chunk_count (chunk_size h))%nat -> held s U' ⊆+ chunks_to s (chunk_size h) n ->
  (∀ t, t ≠ s -> held t U' ≡ₚ held t U) ->
  segs (heap m') = <[s := h']> (segs (heap m)) ->
  pagemap (heap m') = pagemap (heap m) -> index (heap m') = index (heap m) ->
  words (heap m') = words (heap m) ->
  (∀ k', k' ≠ k -> view_of m' k' = view_of m k') ->
  (let v := view_of m k in view_of m' k = mkView (v_head v) (v_seg v) p (v_end v) (v_base v)) ->
  (if decide (v_end (view_of m k) = segment_end s) then p = chunk s (chunk_size h) n else p = v_ptr (view_of m k)) ->
  inv_with m' U' L R.
Proof.
  intros Hs Hl Ekh Hr' Hpl Hl' Ec Ek Hn Hsub HU Hsegs Hp Hi Hw Hk Hv Hptr. cbv zeta in Hv.
  pose proof (inv_slots _ _ _ _ I k) as S. destruct (seg_facts s h Hs) as (Ha & _ & Hsz).
  apply (inv_touch s h'); rewrite ?Ek; [congruence|exact Hsegs| | | |].
  - by eapply registered_touch.
  - split; rewrite ?Hw; auto; rewrite Hv; [done|]. cbn. intros t Ht Ht0 E. split; [done|].
    rewrite decide_False in Hptr; [done|]. rewrite E. unfold segment_end. lia.
  - split; [done|]. split; [done|]. rewrite Hl'. split; [done|]. exists n. rewrite Ec, Ek, Hv. split_and!; [done..|].
    cbn. intros E. by rewrite decide_True in Hptr.
  - apply (slot_update m m' s h h' k (L k)); rewrite ?Hv, ?Hw; try done; [congruence..| |apply S|by left].
    cbn. case_decide as E; [|subst p; apply S]. rewrite E, Hptr.
    destruct Ha as [? _]. unfold segment_end, chunk, payload_start, HEADER_SIZE, size_ok in *.
    unfold SEGMENT_SIZE. split; nia.
Qed.

(** *** A drained list and its segment part *)

(** The slot of a drained list segment leaves it; with nothing on its list and in
    its queue, every chunk of it is held, and it is retired with their number. *)
Lemma inv_retire s h k m' :
  segs (heap m) !! s = Some h -> listed h = true -> retired h = false -> key_of h = k ->
  v_seg (view_of m k) = s -> L k = [] -> R s = [] ->
  heap m' = update s (with_retired (chunks_in_segment h) (with_remote 0 h)) (heap m) ->
  (∀ k', k' ≠ k -> view_of m' k' = view_of m k') ->
  (let v := view_of m k in view_of m' k = mkView 0 0 (v_ptr v) (v_end v) (v_base v)) ->
  inv_with m' U L R.
Proof.
  intros Hs Hl Hr Ekh Eseg EL ER Hheap Hk Hv. cbv zeta in Hv. set (h' := with_retired _ _) in *.
  assert (Ek : key_of h' = k) by (rewrite <- Ekh; by destruct h).
  destruct (seg_facts s h Hs) as (Ha & Hpl & Hsz).
  destruct (l_active _ _ _ _ _ _ (seg_list s h Hs Hl) Hr) as [_ Hperm].
  rewrite Ekh, EL, ER in Hperm. specialize (Hperm Eseg). unfold places in Hperm. rewrite !app_nil_r in Hperm.
  assert (Hsegs : segs (heap m') = <[s := h']> (segs (heap m))) by by rewrite Hheap.
  apply (inv_touch s h'); rewrite ?Ek; [congruence|exact Hsegs| | | |].
  - eapply registered_touch; [done|exact Hsegs|by rewrite Hheap..].
  - split; rewrite ?Hheap; auto; rewrite Hv; cbn; [congruence|done].
  - split; [done|]. split; [by destruct h|]. replace (listed h') with (listed h) by by destruct h.
    rewrite Hl, ER. split; [by destruct h|by destruct h|]. intros _.
    replace (chunk_size h') with (chunk_size h) by by destruct h. rewrite Hperm.
    split_and!; [done|done|]. rewrite length_chunk_list, <- chunks_in_segment_count by done. by destruct h.
  - rewrite EL. destruct (inv_slots _ _ _ _ I k) as [_ _ _ Hsr Hf Hb].
    split; rewrite ?Hv; cbn; try done; [intros p Hp; by apply elem_of_nil in Hp|].
    intros Hne. destruct (Hsr Hne) as (t & g & ? & Hg & Hlg & ?). exists t, g. split_and!; try done.
    rewrite Hsegs, lookup_insert_ne; [done|]. intros <-. congruence.
Qed.

(** *** Fresh segments *)

(** A segment is mapped: nothing refers to it. *)
Lemma fresh_unused s k : segs (heap m) !! s = None -> ∀ q, q ∈ L k -> seg_of q ≠ s.
Proof. intros Hs q Hq E. destruct (list_elem k q Hq) as (g & Hg & _). congruence. Qed.

(** A drained list slot gets a segment: one chunk is handed out, the others are
    its list. *)
Lemma inv_fresh_list s h k hd m' p l :
  segs (heap m) !! s = None -> seg_addr s -> planned h -> retired h = false -> key_of h = k ->
  listed h = true -> remote_head h = 0 -> p :: l ≡ₚ chunk_list s (chunk_size h) ->
  v_seg (view_of m k) = 0 -> L k = [] ->
  segs (heap m') = <[s := h]> (segs (heap m)) -> registered (heap m') (dom (segs (heap m'))) ->
  (∀ k', k' ≠ k -> view_of m' k' = view_of m k') ->
  (let v := view_of m k in view_of m' k = mkView hd s (v_ptr v) (v_end v) (v_base v)) ->
  chain (words (heap m')) hd l ->
  (∀ x, seg_of x ≠ s -> arr 0 (words (heap m')) x = arr 0 (words (heap m)) x) ->
  inv_with m' (p :: U) (λ k', if decide (k' = k) then l else L k') (λ t, if decide (t = s) then [] else R t).
Proof.
  intros Hs Ha Hpl Hr Ek Hl Hrem Hperm Hseg HL Hsegs Hreg Hk Hv Hc Hw. cbv zeta in Hv.
  pose proof (planned_size h Hpl) as Hsz.
  assert (Hin : ∀ q, q ∈ p :: l -> seg_of q = s).
  { intros q Hq. apply (chunk_seg_of s (chunk_size h)); [done..|]. by rewrite <- Hperm. }
  assert (Hall : held s l = l) by (apply held_all; set_solver).
  apply (inv_touch s h); rewrite ?Ek, ?decide_True by done; [congruence|exact Hsegs|exact Hreg| | |].
  - split; rewrite ?decide_True by done; rewrite ?Hv; cbn; try done.
    + intros k' Hn. by rewrite Hk, decide_False.
    + intros t Ht. rewrite held_cons_ne; [done|]. rewrite Hin by set_solver. done.
    + intros t Ht. rewrite HL. replace (held t l) with (@nil Z); [done|]. symmetry.
      apply elem_of_nil_inv. intros q [Eq Hq]%held_elem. apply Ht. rewrite <- Eq, Hin by set_solver. done.
    + intros t Ht. by rewrite decide_False.
  - split; [done|]. split; [done|]. rewrite Hl. split; [done| |congruence]. intros _.
    assert (E : places (p :: U) l [] s ≡ₚ chunk_list s (chunk_size h)); [|by rewrite E].
    unfold places. rewrite held_cons_eq, held_new, Hall, app_nil_r by (done || apply Hin; set_solver). done.
  - destruct (inv_slots _ _ _ _ I k) as [_ _ _ Hsr Hf Hb]. split; rewrite ?Hv; cbn; try done.
    + intros q Hq. exists h. rewrite Hin, Hsegs, lookup_insert_eq by set_solver. done.
    + intros _. exists h. by rewrite Hsegs, lookup_insert_eq.
    + intros Hne. destruct (Hsr Hne) as (t & g & ? & Hg & ? & ?). exists t, g. split_and!; try done.
      rewrite Hsegs, lookup_insert_ne; [done|congruence].
Qed.

(** A region slot without one gets a region, whose first chunk is handed out. *)
Lemma inv_fresh_region s h k b m' :
  segs (heap m) !! s = None -> seg_addr s -> planned h -> retired h = false -> key_of h = k ->
  listed h = false -> v_end (view_of m k) = 0 ->
  segs (heap m') = <[s := h]> (segs (heap m)) -> registered (heap m') (dom (segs (heap m'))) ->
  (∀ k', k' ≠ k -> view_of m' k' = view_of m k') ->
  (let v := view_of m k in
   view_of m' k = mkView (v_head v) (v_seg v) (payload_start s + chunk_size h) (segment_end s) b) ->
  (∀ sz, plan_of k.1.2 = PlanArena sz -> k.2 = None -> b = payload_start s) ->
  (∀ x, seg_of x ≠ s -> arr 0 (words (heap m')) x = arr 0 (words (heap m)) x) ->
  inv_with m' (payload_start s :: U) L R.
Proof.
  intros Hs Ha Hpl Hr Ek Hl Hend Hsegs Hreg Hk Hv Hb Hw. cbv zeta in Hv.
  pose proof (planned_size h Hpl) as Hsz. pose proof (chunk_count_pos _ Hsz) as Hpos.
  assert (E0 : payload_start s = chunk s (chunk_size h) 0) by (unfold chunk; lia).
  assert (Ep : seg_of (payload_start s) = s).
  { apply (chunk_seg_of s (chunk_size h)); [done..|]. apply elem_of_chunk_list. eauto with lia. }
  assert (Hold : ∀ t g, segs (heap m) !! t = Some g -> segs (heap m') !! t = Some g).
  { intros t g Hg. rewrite Hsegs, lookup_insert_ne; [done|congruence]. }
  apply (inv_touch s h); rewrite ?Ek; [congruence|exact Hsegs|exact Hreg| | |].
  - split; rewrite ?Hv; cbn; auto.
    + intros t Ht Ht0. unfold segment_end. lia.
    + intros t Ht. by rewrite held_cons_ne by congruence.
  - split; [done|]. split; [done|]. rewrite Hl. split; [done|]. exists 1%nat.
    rewrite Ek, Hv, held_cons_eq, held_new by done. split; [lia|]. cbn. rewrite E0. split; [done|].
    intros _. unfold chunk. lia.
  - destruct (inv_slots _ _ _ _ I k) as [Sc Sl Ss Sr Sf Sb]. destruct Ha as [? _]. split; rewrite ?Hv; cbn.
    + eapply chain_ext; [|done]. intros q Hq. by apply Hw, (fresh_unused s k).
    + intros q Hq. destruct (Sl q Hq) as (g & Hg & ?). eauto.
    + intros Hne. destruct (Ss Hne) as (g & Hg & ?). eauto.
    + intros _. exists s, h. by rewrite Hsegs, lookup_insert_eq.
    + unfold segment_end, payload_start, HEADER_SIZE, size_ok, SEGMENT_SIZE in *. lia.
    + intros sz Hsz' Hk2. rewrite (Hb sz Hsz' Hk2). unfold segment_end, payload_start.
      rewrite (proj2 (Z.eqb_neq _ 0)) by (unfold SEGMENT_SIZE; lia). lia.
Qed.
End Facts.
End Heap.
