(* ===== verification/HeapOps.v ===== *)
(** * The operations of the segment heap

    Every operation of [Heap]'s protocol succeeds in a state that satisfies the
    invariant, and keeps it.  The two free-list strategies are one generic list,
    popped and refilled ([list_pop], [list_refill]); the region strategies one
    cursor. *)

From S2P Require Import Prelude Common Segment SlowInit Chunks Heap.
From S2P Require Jit.

(** The class of a size is the position of the size. *)
Lemma class_of_lookup l n i :
  match Jit.class_of l n i with Some c => (i <= c)%nat ∧ l !! (c - i)%nat = Some n | None => True end.
Proof.
  revert i. induction l as [|s l IH]; intros i; simpl; [done|]. destruct (Z.eqb_spec n s) as [->|].
  - split; [lia|]. by rewrite Nat.sub_diag.
  - specialize (IH (S i)). destruct (Jit.class_of l n (S i)) as [c|]; [|done]. destruct IH as [Hc E].
    split; [lia|]. replace (c - i)%nat with (S (c - S i)) by lia. done.
Qed.

Section Operations.
Context (plan_of : Z -> plan) (Hplan : ∀ idx, plan_ok (plan_of idx)).
Abbreviation view_of := (view_of plan_of).
Abbreviation inv_with := (inv_with plan_of).
Abbreviation planned := (planned plan_of).

(** A block of a segment of slot [k]. *)
Definition of_slot (m : machine) (k : key) (p : ptr) : Prop :=
  ∃ h, segs (heap m) !! seg_of p = Some h ∧ key_of h = k.

(** ** The slots of a thread *)

(** Same thread-local slots. *)
Definition same_slots (m m' : machine) : Prop :=
  tl_bumps m' = tl_bumps m ∧ tl_freelists m' = tl_freelists m ∧
  tl_multi_freelists m' = tl_multi_freelists m ∧ tl_arenas m' = tl_arenas m.

Lemma view_same m m' k : same_slots m m' -> view_of m' k = view_of m k.
Proof. intros (E1 & E2 & E3 & E4). destruct k as [[t i] c]. unfold Heap.view_of. by rewrite E1, E2, E3, E4. Qed.

(** The list of slot [k] of [from] with another head, or head and segment. *)
Definition with_head (from : machine) (k : key) (p : ptr) (m : machine) : machine :=
  match k.2 with
  | None => set_freelist k.1 (mkFreeList p (f_segs (slot freelist0 (tl_freelists from) k.1))) m
  | Some c =>
      let s := slot multi0 (tl_multi_freelists from) k.1 in
      set_multi k.1 (mkMulti (<[c := p]> (m_heads s)) (m_segs s)) m
  end.

Definition with_list (from : machine) (k : key) (p s : ptr) (m : machine) : machine :=
  match k.2 with
  | None => set_freelist k.1 (mkFreeList p s) m
  | Some c =>
      let v := slot multi0 (tl_multi_freelists from) k.1 in
      set_multi k.1 (mkMulti (<[c := p]> (m_heads v)) (<[c := s]> (m_segs v))) m
  end.

Lemma slot_insert_eq {A} (d : A) s k a : slot d (<[k := a]> s) k = a.
Proof. unfold slot. by rewrite lookup_insert_eq. Qed.

Lemma slot_insert_ne {A} (d : A) s k j a : j ≠ k -> slot d (<[k := a]> s) j = slot d s j.
Proof. intros. unfold slot. by rewrite lookup_insert_ne. Qed.

(** [on_slots] computes a view after a write to one slot. *)
Ltac on_slots :=
  repeat first
    [ progress cbn [Heap.view_of tl_bumps tl_freelists tl_multi_freelists tl_arenas set_bump set_freelist
        set_multi set_arena set_heap relink v_head v_seg v_ptr v_end v_base f_head f_segs m_heads m_segs
        b_ptr b_end a_ptr a_end a_base fst snd]
    | rewrite slot_insert_eq | rewrite arr_insert_eq
    | rewrite slot_insert_ne by congruence | rewrite arr_insert_ne by congruence ].

Lemma view_with_head from k p m k' : same_slots from m ->
  view_of (with_head from k p m) k' = if decide (k' = k) then relink p (view_of from k) else view_of from k'.
Proof.
  intros (E1 & E2 & E3 & E4). destruct k as [[t i] c], k' as [[t' i'] c']. unfold with_head.
  destruct (decide ((t', i') = (t, i))) as [[= -> ->]|Hne].
  all: destruct c as [c|], c' as [c'|]; case_decide as Hd; simplify_eq; on_slots; rewrite ?E1, ?E2, ?E3, ?E4;
    try (destruct (plan_of _)); on_slots; done.
Qed.

Lemma view_with_list from k p s m k' : same_slots from m ->
  view_of (with_list from k p s m) k' =
  if decide (k' = k) then (let v := view_of from k in mkView p s (v_ptr v) (v_end v) (v_base v)) else view_of from k'.
Proof.
  intros (E1 & E2 & E3 & E4). destruct k as [[t i] c], k' as [[t' i'] c']. unfold with_list.
  destruct (decide ((t', i') = (t, i))) as [[= -> ->]|Hne].
  all: destruct c as [c|], c' as [c'|]; case_decide as Hd; simplify_eq; on_slots; rewrite ?E1, ?E2, ?E3, ?E4;
    try (destruct (plan_of _)); on_slots; done.
Qed.

Lemma heap_with_head from k p m : heap (with_head from k p m) = heap m.
Proof. unfold with_head. by destruct k.2. Qed.

Lemma heap_with_list from k p s m : heap (with_list from k p s m) = heap m.
Proof. unfold with_list. by destruct k.2. Qed.

(** ** The two list strategies as one *)

Definition list_pop (k : key) (m : machine) : option (ptr * machine) :=
  let p := v_head (view_of m k) in
  if p =? 0 then None else Some (p, with_head m k (read_word p (heap m)) m).

Definition list_refill (raw : option Z) (k : key) (str : Strategy) (sz : Z)
    (mark : ptr -> SegmentHeader -> SegmentHeader) (m : machine) : res (ptr * machine) :=
  let active := v_seg (view_of m k) in
  '(harvested, st) ←
    (if active =? 0 then mret (0, m)
     else '(h, w) ← mpsc_harvest active (heap m); mret (h, set_heap w m));
  if negb (harvested =? 0)
  then mret (harvested, with_head m k (read_word harvested (heap st)) st)
  else
    st ← (if active =? 0 then mret st else retire_full active st);
    '(s, st) ← new_segment raw k.1.1 str k.1.2 sz st;
    st ← modify s (mark active) st;
    '(chunk, head, st) ← chop_segment s sz st;
    mret (chunk, with_list m k head s st).

Lemma jit_pop_list t i m : jit_pop t i m = list_pop (t, i, None) m.
Proof. unfold jit_pop, list_pop. cbn. by destruct (plan_of i). Qed.

Lemma jit_multi_pop_list t i c m : jit_multi_pop t i c m = list_pop (t, i, Some c) m.
Proof. done. Qed.

Lemma freelist_refill_list raw t i sz m : POINTER_SIZE <= sz ->
  freelist_refill raw t i sz m = list_refill raw (t, i, None) ThreadLocalFreeList sz with_next m.
Proof.
  intros Hsz. unfold freelist_refill, list_refill. rewrite (proj2 (Z.ltb_ge _ _)) by done.
  cbn. by destruct (plan_of i).
Qed.

Definition with_class_next (c : Z) (active : ptr) (h : SegmentHeader) : SegmentHeader :=
  with_next active (with_class (u8 c) h).

Lemma multi_refill_list raw t i sz c m : POINTER_SIZE <= sz -> c < MULTI_MAX_CLASSES ->
  multi_refill raw t i sz c m = list_refill raw (t, i, Some c) MultiSizeFreeList sz (with_class_next c) m.
Proof.
  intros Hsz Hc. unfold multi_refill, list_refill.
  rewrite (proj2 (Z.ltb_ge _ _)), Z.geb_leb, (proj2 (Z.leb_gt _ _)) by done. done.
Qed.

Section Preserves.
Context (m : machine) (U : list Z) (L : key -> list Z) (R : Z -> list Z).
Context (I : inv_with m U L R).

(** ** Lists *)

Lemma pop_ok k p m' : list_pop k m = Some (p, m') -> of_slot m' k p ∧ ∃ L' R', inv_with m' (p :: U) L' R'.
Proof.
  unfold list_pop. destruct (Z.eqb_spec (v_head (view_of m k)) 0) as [|Hne]; [done|].
  intros [= <- <-]. pose proof (s_chain _ _ _ _ (inv_slots _ _ _ _ _ I k)) as Hc.
  destruct (L k) as [|p rest] eqn:EL; [by rewrite Hc in Hne|]. destruct Hc as (Ep & Hp & Hrest).
  rewrite Ep. clear Hne.
  destruct (list_elem plan_of m U L R I k p ltac:(rewrite EL; set_solver)) as (h & Hh & Hl & Hr & Hk & _).
  split; [exists h; by rewrite heap_with_head|].
  exists (λ k', if decide (k' = k) then rest else L k'), (λ t, if decide (t = seg_of p) then R (seg_of p) else R t).
  apply (inv_move plan_of Hplan m U L R I (seg_of p) h k (remote_head h) (read_word p (heap m)));
    rewrite ?heap_with_head; try done.
  - rewrite insert_id; [done|]. by destruct h.
  - intros k' Hk'. by rewrite view_with_head, decide_False.
  - by rewrite view_with_head, decide_True.
  - apply (l_remote _ _ _ _ _ _ _ (seg_list plan_of m U L R I _ h Hh Hl)).
  - rewrite EL. unfold places. rewrite !held_cons_eq by done. cbn. by rewrite <- Permutation_middle.
  - intros t Ht. by rewrite held_cons_ne.
  - intros t Ht. by rewrite EL, held_cons_ne.
Qed.

(** A freed block of an active list segment goes to the owner's list. *)
Lemma free_list_ok s h p U' k :
  segs (heap m) !! s = Some h -> listed h = true -> retired h = false -> key_of h = k ->
  seg_of p = s -> p ≠ 0 -> U ≡ₚ p :: U' ->
  ∃ L' R', inv_with (with_head m k p (set_heap (write_word p (v_head (view_of m k)) (heap m)) m)) U' L' R'.
Proof.
  intros Hh Hl Hr Hk Es Hp0 HU. assert (Hp : p ∈ U) by (rewrite HU; set_solver).
  pose proof (user_not_listed plan_of Hplan m U L R I p Hp) as [HpL HpR].
  pose proof (seg_list plan_of m U L R I s h Hh Hl) as Hls.
  exists (λ k', if decide (k' = k) then p :: L k else L k'), (λ t, if decide (t = s) then R s else R t).
  apply (inv_move plan_of Hplan m U L R I s h k (remote_head h) p); rewrite ?heap_with_head; try done.
  - cbn. rewrite insert_id; [done|]. by destruct h.
  - intros k' Hk'. by rewrite view_with_head, decide_False.
  - by rewrite view_with_head, decide_True.
  - apply chain_cons; [done|apply HpL|]. apply (inv_slots _ _ _ _ _ I).
  - apply chain_write; [by eapply HpR|apply Hls].
  - unfold places. rewrite HU, !held_cons_eq by done. cbn. by rewrite <- Permutation_middle.
  - intros t Ht. by rewrite HU, held_cons_ne by congruence.
  - intros t Ht. by rewrite held_cons_ne by congruence.
  - intros x Hx. apply arr_insert_ne. congruence.
Qed.

(** From another thread it goes to the remote queue. *)
Lemma free_remote_ok s h p U' :
  segs (heap m) !! s = Some h -> listed h = true -> retired h = false ->
  seg_of p = s -> p ≠ 0 -> U ≡ₚ p :: U' ->
  ∃ m' L' R', push_remote s p m = Ok m' ∧ inv_with m' U' L' R'.
Proof.
  intros Hh Hl Hr Es Hp0 HU. assert (Hp : p ∈ U) by (rewrite HU; set_solver).
  pose proof (user_not_listed plan_of Hplan m U L R I p Hp) as [HpL HpR].
  pose proof (seg_list plan_of m U L R I s h Hh Hl) as Hls.
  unfold push_remote, mpsc_push, header. rewrite Hh. cbn [of_option mbind res_bind mret res_ret].
  eexists _, (λ k', if decide (k' = key_of h) then L (key_of h) else L k'),
    (λ t, if decide (t = s) then p :: R s else R t). split; [done|].
  apply (inv_move plan_of Hplan m U L R I s h (key_of h) p (v_head (view_of m (key_of h)))); try done; cbn [heap set_heap].
  - rewrite (view_same m) by done. by destruct (view_of m _).
  - apply chain_write; [apply HpL|]. apply (inv_slots _ _ _ _ _ I).
  - apply chain_cons; [done|by eapply HpR|apply Hls].
  - unfold places. rewrite HU, !held_cons_eq by done. cbn.
    by rewrite <- !Permutation_middle.
  - intros t Ht. by rewrite HU, held_cons_ne by congruence.
  - intros x Hx. apply arr_insert_ne. congruence.
Qed.

(** A block of a retired segment is only counted. *)
Lemma free_retired_ok s h p U' :
  segs (heap m) !! s = Some h -> listed h = true -> retired h = true -> seg_of p = s -> U ≡ₚ p :: U' ->
  ∃ m' L' R', modify s drop_live m = Ok m' ∧ inv_with m' U' L' R'.
Proof.
  intros Hh Hl Hr Es HU. unfold modify, header. rewrite Hh. cbn [of_option mbind res_bind mret res_ret].
  eexists _, L, R. split; [done|].
  destruct (l_retired _ _ _ _ _ _ _ (seg_list plan_of m U L R I s h Hh Hl) Hr) as (_ & Hsub & Hlive).
  destruct (seg_facts plan_of Hplan m U L R I s h Hh) as (_ & Hpl & Hsz).
  assert (E : held s U ≡ₚ p :: held s U') by (rewrite HU; by rewrite held_cons_eq).
  assert (Hcount : 0 <= live_chunks h - 1 < 2 ^ 32).
  { pose proof (chunks_in_segment_count h Hsz). apply submseteq_length in Hsub. rewrite length_chunk_list in Hsub.
    assert (0 <= chunks_in_segment h < 2 ^ 32).
    { unfold chunks_in_segment. case_match; [pow2; lia|apply u32_bound]. }
    rewrite Hlive. rewrite E in *. simpl in *. lia. }
  eapply (inv_retired plan_of Hplan m U L R I s h (drop_live h)); try done; try by destruct h.
  - intros t Ht. by rewrite HU, held_cons_ne by congruence.
  - rewrite E. by apply submseteq_cons.
  - transitivity (u32 (live_chunks h - 1)); [by destruct h|]. rewrite u32_small by done.
    rewrite Hlive, E. simpl. lia.
Qed.

(** ** Regions *)

(** The size of a slot's region is the one its plan says. *)
Definition region_size (p : plan) : Z :=
  match p with PlanRegion _ sz | PlanArena sz => sz | _ => 0 end.

Lemma region_planned h : planned h -> listed h = false -> chunk_size h = region_size (plan_of (slot_index h)).
Proof.
  unfold Heap.planned, listed. destruct (plan_of (slot_index h)) as [sz|l|[] sz|sz], (strategy h);
    intros E H; first [discriminate H|exact E|destruct E].
Qed.

(** A cursor that is not fresh stands in a region of its slot, behind the blocks
    that are held of it. *)
Lemma cursor_at k : v_end (view_of m k) ≠ 0 -> ∃ s h n,
  v_end (view_of m k) = segment_end s ∧ segs (heap m) !! s = Some h ∧ listed h = false ∧ key_of h = k ∧
  seg_addr s ∧ size_ok (chunk_size h) ∧ chunk_size h = region_size (plan_of k.1.2) ∧
  (n <= chunk_count (chunk_size h))%nat ∧ held s U ⊆+ chunks_to s (chunk_size h) n ∧
  v_ptr (view_of m k) = chunk s (chunk_size h) n.
Proof.
  intros Hne. destruct (s_region _ _ _ _ (inv_slots _ _ _ _ _ I k) Hne) as (s & h & Ee & Hh & Hl & Hk).
  destruct (seg_region plan_of m U L R I s h Hh Hl) as (_ & n & Hn & Hsub & Hv).
  destruct (seg_facts plan_of Hplan m U L R I s h Hh) as (Ha & Hpl & Hsz).
  exists s, h, n. split_and!; try done.
  - rewrite (region_planned h Hpl Hl). by rewrite <- Hk.
  - rewrite <- Hk in *. by apply Hv.
Qed.

(** The program gives up a block of a region. *)
Lemma drop_region_ok s h p U' :
  segs (heap m) !! s = Some h -> listed h = false -> seg_of p = s -> U ≡ₚ p :: U' -> inv_with m U' L R.
Proof.
  intros Hh Hl Es HU. destruct (seg_region plan_of m U L R I s h Hh Hl) as (Hr & n & Hn & Hsub & Hv).
  destruct (seg_facts plan_of Hplan m U L R I s h Hh) as (_ & Hpl & _).
  apply (inv_region plan_of Hplan m U L R I s h h (key_of h) m U' n (v_ptr (view_of m (key_of h)))); try done.
  - etrans; [|exact Hsub]. rewrite HU, held_cons_eq by done. by apply submseteq_cons.
  - intros t Ht. by rewrite HU, held_cons_ne by congruence.
  - by rewrite insert_id.
  - cbv zeta. by destruct (view_of m (key_of h)).
  - case_decide; auto.
Qed.

(** Where the slot's block before the cursor is. *)
Lemma before_cursor s h p n s' :
  size_ok (chunk_size h) -> seg_addr s -> seg_addr s' -> p ∈ chunk_list s (chunk_size h) ->
  (n <= chunk_count (chunk_size h))%nat -> chunk s' (chunk_size h) n - chunk_size h = p ->
  s' = s ∧ ∃ i, n = S i ∧ p = chunk s (chunk_size h) i.
Proof.
  intros Hsz [_ Ha] [_ Ha'] (i & Hi & ->)%elem_of_chunk_list Hn E.
  pose proof (chunk_in_segment s _ i Hsz Hi) as [Hlo Hhi]. unfold chunk, payload_start, HEADER_SIZE, size_ok in *.
  destruct n as [|j].
  - exfalso. apply Z.mod_divide in Ha as [a ->]; [|done]. apply Z.mod_divide in Ha' as [b ->]; [|done].
    unfold SEGMENT_SIZE in *. pow2. nia.
  - pose proof (chunk_in_segment s' _ j Hsz ltac:(lia)) as [Hlo' Hhi'].
    unfold chunk, payload_start, HEADER_SIZE in Hlo', Hhi'.
    assert (s' = s) as ->; [|split; [done|exists j; split; [done|nia]]].
    rewrite <- (seg_of_inside s' (s' + 64 + Z.of_nat j * chunk_size h)), <- (seg_of_inside s (s + 64 + Z.of_nat i * chunk_size h)) by (done || lia).
    f_equal. nia.
Qed.

Lemma rewind_ok s h p U' tid :
  segs (heap m) !! s = Some h -> strategy h = PairedStack -> owner_tid h = tid -> seg_of p = s -> U ≡ₚ p :: U' ->
  ∃ b m' L' R', paired_lifo_rewind tid s p m = Ok (b, m') ∧ inv_with m' U' L' R'.
Proof.
  intros Hh Hst Ht Es HU. assert (Hl : listed h = false) by (unfold listed; by rewrite Hst).
  destruct (seg_facts plan_of Hplan m U L R I s h Hh) as (Ha & Hpl & Hsz).
  assert (Hp : p ∈ chunk_list s (chunk_size h)).
  { subst s. apply (user_chunk plan_of m U L R I p h); [|done]. rewrite HU. set_solver. }
  set (k := key_of h). assert (Ek : k = (tid, slot_index h, None)).
  { subst k. unfold key_of. rewrite decide_False by congruence. congruence. }
  assert (Eplan : plan_of (slot_index h) = PlanRegion true (chunk_size h)).
  { unfold Heap.planned in Hpl. rewrite Hst in Hpl. destruct (plan_of (slot_index h)) as [| |[]|]; first [by destruct Hpl|by rewrite Hpl]. }
  set (b := slot bump0 (tl_bumps m) (tid, slot_index h)).
  assert (Ev : ∀ b', view_of (set_bump (tid, slot_index h) b' m) k =
    (let v := view_of m k in mkView (v_head v) (v_seg v) (b_ptr b') (b_end b') (v_base v))).
  { intros b'. rewrite Ek. unfold Heap.view_of. rewrite Eplan. on_slots. done. }
  assert (Evp : v_ptr (view_of m k) = b_ptr b ∧ v_end (view_of m k) = b_end b).
  { rewrite Ek. unfold Heap.view_of. by rewrite Eplan. }
  destruct Evp as [Evp Eve]. unfold paired_lifo_rewind, header. rewrite Hh. cbn [of_option mbind res_bind].
  fold b. destruct (Z.eqb_spec (b_ptr b - chunk_size h) p) as [E|Hne].
  2:{ exists false, m, L, R. split; [done|]. by eapply drop_region_ok. }
  destruct (decide (v_end (view_of m k) = 0)) as [E0|E0].
  { exfalso. apply (s_fresh _ _ _ _ (inv_slots _ _ _ _ _ I k)) in E0. rewrite Evp in E0.
    apply elem_of_chunk_list in Hp as (i & _ & ->). destruct Ha as [? _].
    unfold chunk, payload_start, HEADER_SIZE, size_ok in *. nia. }
  destruct (cursor_at k E0) as (s' & h' & n & Ee & Hh' & _ & Hk' & Ha' & _ & Esz & Hn & Hsub & Hptr).
  rewrite Ek in Esz. cbn in Esz. rewrite Eplan in Esz. cbn in Esz. rewrite Esz in *.
  rewrite Evp in Hptr. rewrite Hptr in E.
  destruct (before_cursor s h p n s' Hsz Ha Ha' Hp Hn E) as (-> & i & -> & Ei).
  unfold modify, header. cbn [heap set_bump]. rewrite Hh. cbn [of_option mbind res_bind mret res_ret].
  eexists true, _, L, R. split; [done|].
  apply (inv_region plan_of Hplan m U L R I s h (with_bump (b_ptr b - chunk_size h) h) k _ U' i (b_ptr b - chunk_size h));
    try done; try by destruct h; cbn [heap set_heap].
  - destruct (seg_region plan_of m U L R I s h Hh Hl) as [Hr _]. by destruct h.
  - lia.
  - rewrite chunks_to_S, HU, held_cons_eq, Permutation_app_comm in Hsub by done. rewrite <- Ei in Hsub.
    by apply (submseteq_app_inv_l _ _ [p]) in Hsub.
  - intros t Hne. by rewrite HU, held_cons_ne by congruence.
  - intros k' Hk''. transitivity (view_of (set_bump (tid, slot_index h) (mkBump (b_ptr b - chunk_size h) (b_end b)) m) k');
      [by apply view_same|]. rewrite Ek in Hk''. destruct k' as [[t' i'] [c'|]]; [done|]. on_slots. done.
  - cbv zeta. transitivity (view_of (set_bump (tid, slot_index h) (mkBump (b_ptr b - chunk_size h) (b_end b)) m) k);
      [by apply view_same|]. rewrite Ev. cbv zeta. cbn [b_ptr b_end]. by rewrite Eve. 
  - rewrite decide_True by done. rewrite Hptr. unfold chunk. lia.
Qed.

(** ** [free_managed] *)

(** A held block is found managed, and freeing it from any thread succeeds. *)
Lemma heap_free_ok tid p U' : U ≡ₚ p :: U' ->
  is_managed (seg_of p) (heap m) = true ∧
  ∃ m' L' R', free_managed tid (seg_of p) p m = Ok m' ∧ inv_with m' U' L' R'.
Proof.
  intros HU. assert (Hp : p ∈ U) by (rewrite HU; set_solver).
  destruct (inv_user _ _ _ _ _ I p Hp) as [h Hh].
  destruct (seg_facts plan_of Hplan m U L R I _ h Hh) as (Ha & Hpl & Hsz). split.
  { destruct (inv_registry _ _ _ _ _ I) as (_ & Hm & _). rewrite Hm by done.
    apply bool_decide_eq_true, elem_of_dom. eauto. }
  pose proof (chunk_here plan_of Hplan m U L R I _ h p Hh (user_chunk plan_of m U L R I p h Hp Hh)) as [_ Hp0].
  assert (Hdrop : listed h = false -> ∃ m' L' R', Ok m = Ok m' ∧ inv_with m' U' L' R').
  { intros Hl. exists m, L, R. split; [done|]. by eapply drop_region_ok. }
  assert (Hretired : listed h = true -> retired h = true -> ∃ m' L' R', modify (seg_of p) drop_live m = Ok m' ∧ inv_with m' U' L' R')
    by (intros; by eapply free_retired_ok).
  assert (Hremote : listed h = true -> retired h = false -> ∃ m' L' R', push_remote (seg_of p) p m = Ok m' ∧ inv_with m' U' L' R')
    by (intros; by eapply free_remote_ok).
  assert (Hlist : ∀ k, listed h = true -> retired h = false -> key_of h = k -> ∃ L' R',
    inv_with (with_head m k p (set_heap (write_word p (v_head (view_of m k)) (heap m)) m)) U' L' R')
    by (intros; by eapply free_list_ok).
  unfold listed, key_of in *. unfold free_managed, header. rewrite Hh. cbn [of_option mbind res_bind mret res_ret].
  unfold Heap.planned in Hpl. destruct (plan_of (slot_index h)) as [sz|l|[] sz|sz] eqn:Eplan, (strategy h) eqn:Hst;
    try (by destruct Hpl); try by apply Hdrop.
  - destruct (retired h); [by apply Hretired|]. destruct (Z.eqb_spec (owner_tid h) tid) as [<-|]; [|by apply Hremote].
    rewrite decide_False in Hlist by done. destruct (Hlist _ eq_refl eq_refl eq_refl) as (L' & R' & I').
    eexists _, L', R'. split; [done|]. unfold Heap.view_of in I'. rewrite Eplan in I'. exact I'.
  - destruct (retired h); [by apply Hretired|]. destruct (Z.eqb_spec (owner_tid h) tid) as [<-|]; [|by apply Hremote].
    rewrite decide_True in Hlist by done. destruct (Hlist _ eq_refl eq_refl eq_refl) as (L' & R' & I').
    eexists _, L', R'. split; [done|exact I'].
  - destruct (Z.eqb_spec (owner_tid h) tid) as [Ht|]; [|by apply Hdrop].
    destruct (rewind_ok _ h p U' tid Hh Hst Ht eq_refl HU) as (b & m' & L' & R' & -> & I'). cbn. eauto.
Qed.
End Preserves.

(** ** Refilling a list *)

(** The header a refill gives a fresh segment. *)
Definition list_header (k : key) (str : Strategy) (sz : Z) (f : SegmentHeader -> SegmentHeader) : Prop :=
  size_ok sz ∧ ∀ site s, let h := f (fresh_header str k.1.2 site sz k.1.1 s) in
    planned h ∧ listed h = true ∧ retired h = false ∧ key_of h = k ∧ remote_head h = 0 ∧ chunk_size h = sz.

(** The second half: a fresh segment is mapped and chopped.  [m1] is the state
    with the drained segment retired, if there was one; [st1] the machine at that
    point, which still has the slots of [m]. *)
Lemma refill_tail m m1 st1 U L R lo k str sz f :
  inv_with m1 U L R -> L k = [] -> v_seg (view_of m1 k) = 0 -> list_header k str sz f ->
  fresh_raw (Some lo) (heap m1) -> heap st1 = heap m1 -> same_slots m st1 ->
  (∀ k', k' ≠ k -> view_of m k' = view_of m1 k') ->
  (let v := view_of m1 k in ∃ hd s, view_of m k = mkView hd s (v_ptr v) (v_end v) (v_base v)) ->
  ∃ p m', ('(s, st) ← new_segment (Some lo) k.1.1 str k.1.2 sz st1;
           st ← modify s f st;
           '(chunk, head, st) ← chop_segment s sz st;
           mret (chunk, with_list m k head s st)) = Ok (p, m') ∧
    of_slot m' k p ∧ ∃ L' R', inv_with m' (p :: U) L' R'.
Proof.
  intros I HL Hseg [Hsz Hf] Hraw Hheap Hslots Hk Hv. cbv zeta in Hv. destruct Hv as (hd0 & s0 & Hv).
  destruct (new_segment_spec lo k.1.1 str k.1.2 sz st1) as (s & w & -> & Ha & Hnone & Esegs & Hreg & Hw);
    [by rewrite Hheap|rewrite Hheap; apply (inv_registry _ _ _ _ _ I)|]. rewrite Hheap in Hnone, Esegs, Hw.
  cbn [mbind res_bind]. unfold modify, header. cbn [heap set_heap]. rewrite Esegs, lookup_insert_eq.
  cbn [of_option mbind res_bind mret res_ret].
  specialize (Hf (arr 0 (g_slot_to_site st1) k.1.2) s). set (h := f _) in *. set (m3 := set_heap _ _).
  destruct Hf as (Hpl & Hl & Hr & Hkey & Hrem & Ecs).
  destruct (chop_segment_spec s sz m3 Hsz Ha) as (p & l & mm & -> & Hperm & Hc & Hmm).
  cbn [mbind res_bind mret res_ret]. eexists p, _. split; [done|].
  assert (Eh : segs (heap m3) = <[s := h]> (segs (heap m1))).
  { subst m3. cbn [heap set_heap update set_segs segs]. by rewrite Esegs, insert_insert_eq. }
  assert (Hsame : same_slots m (set_heap (set_words mm (heap m3)) m3)) by done.
  split.
  { exists h. assert (Hp : p ∈ chunk_list s sz) by (rewrite <- Hperm; set_solver).
    destruct (chunk_seg_of s sz p Ha Hsz Hp) as [-> _]. rewrite heap_with_list. cbn [heap set_heap set_words segs].
    by rewrite Eh, lookup_insert_eq. }
  exists (λ k', if decide (k' = k) then l else L k'), (λ t, if decide (t = s) then [] else R t).
  apply (inv_fresh_list plan_of Hplan m1 U L R I s h k (arr 0 mm p)); rewrite ?heap_with_list, ?Ecs; try done;
    cbn [heap set_heap set_words words segs pagemap index].
  - rewrite Eh. subst m3. rewrite Esegs in Hreg. cbn [heap set_heap update set_segs]. rewrite dom_insert_L in *.
    eapply registered_frame; [..|exact Hreg]; done.
  - intros k' Hk'. rewrite view_with_list, decide_False by done. by apply Hk.
  - rewrite view_with_list, decide_True by done. by rewrite Hv.
  - intros x Hx. rewrite Hmm.
    + subst m3. cbn [heap set_heap update set_segs words]. by apply Hw.
    + intros Hin. apply Hx. by apply (chunk_seg_of s sz).
Qed.

(** Slot [k] without its list segment. *)
Definition forget (k : key) (m : machine) : machine := with_list m k 0 0 m.

Lemma fresh_raw_dom raw w w' : dom (segs w') = dom (segs w) -> fresh_raw raw w -> fresh_raw raw w'.
Proof.
  intros Hd. destruct raw as [lo|]; [|done]. intros (H1 & H2 & H3). split_and!; [done..|].
  intros s Hs. apply H3, elem_of_dom. rewrite <- Hd. by apply elem_of_dom.
Qed.

(** A refill of an empty list succeeds, unless it needs a segment and [mmap] fails. *)
Lemma refill_ok m U L R raw k str sz mark :
  inv_with m U L R -> v_head (view_of m k) = 0 -> fresh_raw raw (heap m) ->
  list_header k str sz (mark (v_seg (view_of m k))) ->
  (raw = None ∧ list_refill raw k str sz mark m = Trap AssertFailed) ∨
  ∃ p m', list_refill raw k str sz mark m = Ok (p, m') ∧ of_slot m' k p ∧ ∃ L' R', inv_with m' (p :: U) L' R'.
Proof.
  intros I E0 Hraw Hf. pose proof (inv_slots _ _ _ _ _ I k) as [Hc _ Hs _ _ _].
  assert (HL : L k = []) by (apply (chain_nil (words (heap m))); by rewrite <- E0).
  unfold list_refill. set (a := v_seg (view_of m k)) in *.
  destruct (Z.eqb_spec a 0) as [Ea|Ea].
  { cbn [mbind res_bind mret res_ret negb Z.eqb]. destruct raw as [lo|]; [right|by left].
    apply (refill_tail m m m U L R lo k); try done. cbv zeta.
    exists (v_head (view_of m k)), a. by destruct (view_of m k) eqn:E. }
  destruct (Hs Ea) as (h & Hh & Hl & Hr & Hk).
  pose proof (l_remote _ _ _ _ _ _ _ (seg_list plan_of m U L R I a h Hh Hl)) as Hrem.
  unfold mpsc_harvest, header. rewrite Hh. cbn [of_option mbind res_bind mret res_ret].
  destruct (R a) as [|c rest] eqn:ER.
  - (* drained: retire it and map a new segment *)
    simpl in Hrem. rewrite Hrem. cbn [Z.eqb negb].
    unfold retire_full, modify, header. cbn [heap set_heap update set_segs segs].
    rewrite lookup_insert_eq. cbn [of_option mbind res_bind mret res_ret].
    destruct raw as [lo|]; [right|by left].
    set (m1 := set_heap (update a (with_retired (chunks_in_segment h) (with_remote 0 h)) (heap m)) (forget k m)).
    assert (I1 : inv_with m1 U L R).
    { apply (inv_retire plan_of Hplan m U L R I a h k); try done.
      - intros k' Hk'. rewrite (view_same (forget k m)) by done. unfold forget.
        by rewrite view_with_list, decide_False.
      - cbv zeta. rewrite (view_same (forget k m)) by done. unfold forget. by rewrite view_with_list, decide_True. }
    assert (Ev : ∀ k', view_of m1 k' = view_of (forget k m) k') by (intros k'; by apply view_same).
    apply (refill_tail m m1 _ U L R lo k); try done; unfold forget in Ev.
    + by rewrite Ev, view_with_list, decide_True.
    + eapply fresh_raw_dom; [|exact Hraw]. subst m1. cbn. rewrite dom_insert_L.
      assert (a ∈ dom (segs (heap m))) by (apply elem_of_dom; eauto). set_solver.
    + subst m1. unfold update, set_segs. cbn [heap set_heap segs words pagemap index].
      rewrite insert_insert_eq. by destruct h.
    + intros k' Hk'. by rewrite Ev, view_with_list, decide_False.
    + cbv zeta. exists (v_head (view_of m k)), a. rewrite Ev, view_with_list, decide_True by done.
      subst a. by destruct (view_of m k).
  - (* foreign frees to reuse *)
    destruct Hrem as (-> & Hc0 & Hrest). rewrite (proj2 (Z.eqb_neq _ _)) by done. cbn [negb].
    right. eexists c, _. split; [done|].
    assert (Hca : seg_of c = a).
    { eapply (remote_elem plan_of Hplan m U L R I a h); [done|done|]. rewrite ER. set_solver. }
    split.
    { exists (with_remote 0 h). rewrite heap_with_head, Hca. cbn [heap set_heap update set_segs segs].
      rewrite lookup_insert_eq. split; [done|]. rewrite <- Hk. by destruct h. }
    exists (λ k', if decide (k' = k) then rest else L k'), (λ t, if decide (t = a) then [] else R t).
    apply (inv_move plan_of Hplan m U L R I a h k 0 (read_word c (heap m))); rewrite ?heap_with_head; try done.
    + intros k' Hk'. by rewrite view_with_head, decide_False.
    + by rewrite view_with_head, decide_True.
    + rewrite ER, HL. unfold places. rewrite held_cons_eq, app_nil_r by done. change (held a []) with (@nil Z).
      rewrite (held_all a rest); [cbn; by rewrite <- Permutation_middle|].
      intros q Hq. eapply (remote_elem plan_of Hplan m U L R I a h); [done|done|]. rewrite ER. set_solver.
    + intros t Ht. by rewrite held_cons_ne by congruence.
    + intros t Ht. rewrite HL. apply Permutation_nil_r, elem_of_nil_inv. intros q [Eq Hq]%held_elem.
      apply Ht. rewrite <- Eq. eapply (remote_elem plan_of Hplan m U L R I a h); [done|done|]. rewrite ER. set_solver.
Qed.

(** ** Region routines *)

Section Regions.
Context (m : machine) (U : list Z) (L : key -> list Z) (R : Z -> list Z).
Context (I : inv_with m U L R).

(** The fast path: the cursor advances by the size of the slot's blocks. *)
Lemma cursor_advance_ok k m' : let v := view_of m k in let sz := region_size (plan_of k.1.2) in
  u64 (v_ptr v + sz) < v_end v -> heap m' = heap m ->
  (∀ k', k' ≠ k -> view_of m' k' = view_of m k') ->
  view_of m' k = mkView (v_head v) (v_seg v) (u64 (v_ptr v + sz)) (v_end v) (v_base v) ->
  of_slot m' k (v_ptr v) ∧ inv_with m' (v_ptr v :: U) L R.
Proof.
  intros v sz Hlt Hheap Hk Hv. pose proof (u64_bound (v_ptr v + sz)) as Hb.
  destruct (cursor_at m U L R I k ltac:(fold v; lia)) as (s & h & n & Ee & Hh & Hl & Ek & Ha & Hsz & Esz & Hn & Hsub & Hptr).
  fold v in Ee, Hptr. fold sz in Esz. subst sz. rewrite <- Esz in *. rewrite Hptr in Hlt, Hb, Hv.
  pose proof (chunk_count_spec _ Hsz n) as Hcnt.
  assert (Hbig : 0 <= chunk s (chunk_size h) n + chunk_size h < 2 ^ 63).
  { unfold chunk, payload_start, HEADER_SIZE, size_ok in *. destruct Ha as [Ha _].
    assert (Z.of_nat n * chunk_size h <= SEGMENT_SIZE).
    { destruct n as [|j]; [unfold SEGMENT_SIZE; lia|]. destruct (chunk_count_spec _ Hsz j) as [Hj _].
      unfold HEADER_SIZE in Hj. specialize (Hj ltac:(lia)). lia. }
    unfold SEGMENT_SIZE in *. pow2. lia. }
  assert (En : u64 (chunk s (chunk_size h) n + chunk_size h) = chunk s (chunk_size h) (S n)).
  { rewrite u64_small by (pow2; lia). unfold chunk. lia. }
  rewrite En in *. rewrite Ee in Hlt.
  assert (Hcn : (n < chunk_count (chunk_size h))%nat).
  { apply Hcnt. unfold chunk, segment_end, payload_start, HEADER_SIZE in *. lia. }
  assert (Hin : chunk s (chunk_size h) n ∈ chunk_list s (chunk_size h)) by (apply elem_of_chunk_list; eauto).
  destruct (chunk_seg_of _ _ _ Ha Hsz Hin) as [Es _].
  destruct (seg_region plan_of m U L R I s h Hh Hl) as [Hr _].
  destruct (seg_facts plan_of Hplan m U L R I s h Hh) as (_ & Hpl & _).
  split; [exists h; by rewrite Hptr, Es, Hheap|]. rewrite Hptr.
  apply (inv_region plan_of Hplan m U L R I s h h k m' _ (S n) (chunk s (chunk_size h) (S n))); rewrite ?Hheap; try done.
  - rewrite held_cons_eq, chunks_to_S by done. rewrite <- (Permutation_app_comm [_]). by apply submseteq_skip.
  - intros t Ht. by rewrite held_cons_ne by congruence.
  - by rewrite insert_id.
  - fold v. by rewrite decide_True.
Qed.

(** [alloc_segment] for a region slot whose cursor is fresh. *)
Lemma region_init_ok lo t i str sz m' s w f b :
  let k := (t, i, None) in
  fresh_raw (Some lo) (heap m) -> v_end (view_of m k) = 0 ->
  new_segment (Some lo) t str i sz m = Ok (s, set_heap w m) ->
  (∀ h, strategy (f h) = strategy h ∧ retired (f h) = retired h ∧ owner_tid (f h) = owner_tid h ∧
     slot_index (f h) = slot_index h ∧ chunk_size (f h) = chunk_size h) ->
  match plan_of i with
  | PlanRegion paired sz' => sz' = sz ∧ str = (if paired then PairedStack else BumpAlloc)
  | PlanArena sz' => sz' = sz ∧ str = EpochArena ∧ b = payload_start s
  | _ => False
  end ->
  heap m' = update s (f (fresh_header str i (arr 0 (g_slot_to_site m) i) sz t s)) w ->
  (∀ k', k' ≠ k -> view_of m' k' = view_of m k') ->
  (let v := view_of m k in
   view_of m' k = mkView (v_head v) (v_seg v) (payload_start s + sz) (segment_end s) b) ->
  of_slot m' k (payload_start s) ∧ inv_with m' (payload_start s :: U) L R.
Proof.
  intros k Hraw Hend Hnew Hf Hp Hheap Hk Hv.
  destruct (new_segment_spec lo t str i sz m Hraw (inv_registry _ _ _ _ _ I))
    as (s' & w' & E & Ha & Hnone & Esegs & Hreg & Hw). rewrite E in Hnew.
  assert (s' = s ∧ heap (set_heap w' m) = heap (set_heap w m)) as [-> Ew] by (split; congruence).
  cbn in Ew. subst w'. set (h0 := fresh_header _ _ _ _ _ _) in *.
  destruct (Hf h0) as (Est & Er & Eo & Esl & Ec). set (h := f h0) in *. cbn in Est, Er, Eo, Esl, Ec.
  assert (Hkind : Heap.planned plan_of h ∧ listed h = false ∧ key_of h = k ∧
    ∀ sz', plan_of i = PlanArena sz' -> b = payload_start s).
  { unfold Heap.planned, listed, key_of. rewrite Esl, Est, Ec, Eo.
    destruct (plan_of i) as [| |[] sz'|sz']; try done; destruct Hp as (-> & Hp); [by subst str..|by destruct Hp as [-> ?]]. }
  destruct Hkind as (Hpl & Hl & Ek & Hb). rewrite <- Ec in Hv.
  assert (Esegs' : segs (heap m') = <[s := h]> (segs (heap m))).
  { rewrite Hheap. cbn [update set_segs segs]. by rewrite Esegs, insert_insert_eq. }
  split.
  { exists h. pose proof (planned_size plan_of Hplan h Hpl) as Hsz. rewrite (seg_of_inside s), Esegs', lookup_insert_eq; [done|apply Ha|].
    unfold payload_start, HEADER_SIZE, SEGMENT_SIZE. lia. }
  apply (inv_fresh_region plan_of Hplan m U L R I s h k b); try done.
  - rewrite Esegs', dom_insert_L. rewrite Esegs, dom_insert_L in Hreg. rewrite Hheap.
    eapply registered_frame; [..|exact Hreg]; done.
  - intros sz' Hsz' _. by eapply Hb.
  - intros x Hx. rewrite Hheap. by apply Hw.
Qed.

Lemma view_set_bump t i b k' paired sz : plan_of i = PlanRegion paired sz ->
  view_of (set_bump (t, i) b m) k' =
  if decide (k' = (t, i, None)) then (let v := view_of m k' in mkView (v_head v) (v_seg v) (b_ptr b) (b_end b) (v_base v))
  else view_of m k'.
Proof.
  intros Hp. case_decide as Hd; [subst k'; unfold Heap.view_of; rewrite Hp; by on_slots|].
  destruct k' as [[t' i'] [c|]]; [done|]. by on_slots.
Qed.

Lemma view_set_arena t i a k' sz : plan_of i = PlanArena sz ->
  view_of (set_arena (t, i) a m) k' =
  if decide (k' = (t, i, None)) then (let v := view_of m k' in mkView (v_head v) (v_seg v) (a_ptr a) (a_end a) (a_base a))
  else view_of m k'.
Proof.
  intros Hp. case_decide as Hd; [subst k'; unfold Heap.view_of; rewrite Hp; by on_slots|].
  destruct k' as [[t' i'] [c|]]; [done|]. by on_slots.
Qed.

Lemma bump_ok t i paired sz p m' : plan_of i = PlanRegion paired sz ->
  jit_bump t i sz m = Some (p, m') -> of_slot m' (t, i, None) p ∧ inv_with m' (p :: U) L R.
Proof.
  intros Hp. unfold jit_bump. set (b := slot bump0 _ _). destruct (Z.ltb_spec (u64 (b_ptr b + sz)) (b_end b)) as [Hlt|]; [|done].
  intros [= <- <-]. pose proof (cursor_advance_ok (t, i, None) (set_bump (t, i) (mkBump (u64 (b_ptr b + sz)) (b_end b)) m)) as H.
  cbn [fst snd region_size] in H. rewrite Hp in H. cbn [region_size] in H.
  assert (Ev : v_ptr (view_of m (t, i, None)) = b_ptr b ∧ v_end (view_of m (t, i, None)) = b_end b)
    by (unfold Heap.view_of; by rewrite Hp).
  destruct Ev as [Ep Ee]. rewrite Ep, Ee in H. apply H; [done|done| |].
  - intros k' Hk'. by erewrite view_set_bump, decide_False by done.
  - by erewrite view_set_bump, decide_True by done.
Qed.

Lemma bump_init_ok t i raw paired sz : plan_of i = PlanRegion paired sz -> fresh_raw raw (heap m) ->
  b_ptr (slot bump0 (tl_bumps m) (t, i)) = 0 ->
  let init := (if paired then paired_slow_init else bump_slow_init) raw t i sz m in
  (raw = None ∧ init = Trap AssertFailed) ∨ 
  ∃ p m', init = Ok (p, m') ∧ of_slot m' (t, i, None) p ∧ inv_with m' (p :: U) L R.
Proof.
  intros Hp Hraw H0. destruct raw as [lo|]; [right|left; split; [done|by destruct paired]].
  assert (Hend : v_end (view_of m (t, i, None)) = 0).
  { apply (s_fresh _ _ _ _ (inv_slots _ _ _ _ _ I (t, i, None))). unfold Heap.view_of. by rewrite Hp. }
  set (str := if paired then PairedStack else BumpAlloc).
  destruct (new_segment_spec lo t str i sz m Hraw (inv_registry _ _ _ _ _ I)) as (s & w & E & _ & _ & Esegs & _).
  replace ((if paired then paired_slow_init else bump_slow_init) (Some lo) t i sz m)
    with ('(s, st) ← new_segment (Some lo) t str i sz m; install_bump t i sz s st) by by destruct paired.
  rewrite E. cbn [mbind res_bind]. unfold install_bump, modify, header. cbn [heap set_heap set_bump].
  rewrite Esegs, lookup_insert_eq. cbn [of_option mbind res_bind mret res_ret]. eexists _, _. split; [done|].
  eapply (region_init_ok lo t i str sz _ s w (with_bump (payload_start s + sz)) (v_base (view_of m (t, i, None))));
    try done; cbn [heap set_heap].
  - intros h. by destruct h.
  - by rewrite Hp.
  - intros k' Hk'. transitivity (view_of (set_bump (t, i) (mkBump (payload_start s + sz) (segment_end s)) m) k');
      [by apply view_same|]. by erewrite view_set_bump, decide_False by done.
  - transitivity (view_of (set_bump (t, i) (mkBump (payload_start s + sz) (segment_end s)) m) (t, i, None));
      [by apply view_same|]. by erewrite view_set_bump, decide_True by done.
Qed.

Lemma arena_ok t i sz p m' : plan_of i = PlanArena sz ->
  jit_arena t i sz m = Some (p, m') -> of_slot m' (t, i, None) p ∧ inv_with m' (p :: U) L R.
Proof.
  intros Hp. unfold jit_arena. set (a := slot arena0 _ _). destruct (Z.ltb_spec (u64 (a_ptr a + sz)) (a_end a)) as [Hlt|]; [|done].
  intros [= <- <-].
  pose proof (cursor_advance_ok (t, i, None) (set_arena (t, i) (mkArenaSlot (u64 (a_ptr a + sz)) (a_end a) (a_base a)) m)) as H.
  cbn [fst snd region_size] in H. rewrite Hp in H. cbn [region_size] in H.
  assert (Ev : v_ptr (view_of m (t, i, None)) = a_ptr a ∧ v_end (view_of m (t, i, None)) = a_end a ∧
    v_base (view_of m (t, i, None)) = a_base a) by (unfold Heap.view_of; by rewrite Hp).
  destruct Ev as (Ep & Ee & Eb). rewrite Ep, Ee in H. apply H; [done|done| |].
  - intros k' Hk'. by erewrite view_set_arena, decide_False by done.
  - erewrite view_set_arena, decide_True by done. cbv zeta. cbn [a_ptr a_end a_base]. by rewrite <- Ee, <- Eb.
Qed.

(** An arena's base is the first chunk of its region. *)
Lemma arena_base_region t i sz h : plan_of i = PlanArena sz ->
  let base := a_base (slot arena0 (tl_arenas m) (t, i)) in
  base ≠ 0 -> segs (heap m) !! seg_of base = Some h -> listed h = false.
Proof.
  intros Hp. cbv zeta. set (k := (t, i, None) : key). set (a := slot arena0 (tl_arenas m) (t, i)).
  assert (Ev : v_end (view_of m k) = a_end a ∧ v_base (view_of m k) = a_base a)
    by (subst k; unfold Heap.view_of; by rewrite Hp).
  destruct Ev as (Ee & Eb). pose proof (s_base _ _ _ _ (inv_slots _ _ _ _ _ I k) sz Hp eq_refl) as Hbase.
  rewrite Eb, Ee in Hbase. intros Hne. destruct (Z.eqb_spec (a_end a) 0) as [E0|E0]; [done|].
  destruct (cursor_at m U L R I k ltac:(by rewrite Ee)) as (s & g & n & Es & Hg & Hl & _ & Ha & Hsz & _).
  assert (Ebase : a_base a = chunk s (chunk_size g) 0)
    by (rewrite Hbase, <- Ee, Es; unfold segment_end, chunk, payload_start; lia).
  assert (Hseg : seg_of (a_base a) = s).
  { apply (chunk_seg_of s (chunk_size g)); [done..|]. rewrite Ebase. apply elem_of_chunk_list.
    pose proof (chunk_count_pos _ Hsz). eauto with lia. }
  rewrite Hseg, Hg. by intros [= <-].
Qed.

(** The reset of a region none of whose blocks is held. *)
Lemma arena_reset_ok t i raw sz : plan_of i = PlanArena sz -> fresh_raw raw (heap m) ->
  (∀ p, p ∈ U -> seg_of p ≠ seg_of (a_base (slot arena0 (tl_arenas m) (t, i)))) ->
  (raw = None ∧ arena_reset_alloc raw t i sz m = Trap AssertFailed) ∨
  ∃ p m', arena_reset_alloc raw t i sz m = Ok (p, m') ∧ of_slot m' (t, i, None) p ∧ inv_with m' (p :: U) L R.
Proof.
  intros Hp Hraw Hquiet. set (k := (t, i, None) : key). unfold arena_reset_alloc.
  set (a := slot arena0 (tl_arenas m) (t, i)) in *.
  assert (Ev : v_ptr (view_of m k) = a_ptr a ∧ v_end (view_of m k) = a_end a ∧ v_base (view_of m k) = a_base a)
    by (subst k; unfold Heap.view_of; by rewrite Hp).
  destruct Ev as (Ep & Ee & Eb). pose proof (inv_slots _ _ _ _ _ I k) as S.
  pose proof (s_base _ _ _ _ S sz Hp eq_refl) as Hbase. rewrite Eb, Ee in Hbase.
  destruct (Z.eqb_spec (a_end a) 0) as [E0|E0].
  - rewrite Hbase. cbn [Z.eqb]. unfold arena_slow_init. destruct raw as [lo|]; [right|left; by split].
    destruct (new_segment_spec lo t EpochArena i sz m Hraw (inv_registry _ _ _ _ _ I)) as (s & w & E & _ & _ & Esegs & _).
    rewrite E. cbn [mbind res_bind mret res_ret]. eexists _, _. split; [done|].
    eapply (region_init_ok lo t i EpochArena sz _ s w id (payload_start s)); try done.
    + fold k. by rewrite Ee.
    + by rewrite Hp.
    + cbn [heap set_arena set_heap]. unfold update, set_segs. rewrite Esegs. unfold id. rewrite insert_insert_eq.
      rewrite <- Esegs. by destruct w.
    + intros k' Hk'. set (a' := mkArenaSlot _ _ _).
      transitivity (view_of (set_arena (t, i) a' m) k'); [by apply view_same|].
      by erewrite view_set_arena, decide_False by done.
    + set (a' := mkArenaSlot _ _ _).
      transitivity (view_of (set_arena (t, i) a' m) (t, i, None)); [by apply view_same|].
      by erewrite view_set_arena, decide_True by done.
  - destruct (cursor_at m U L R I k ltac:(by rewrite Ee)) as (s & h & n & Es & Hh & Hl & Ek & Ha & Hsz & Ecs & Hn & Hsub & Hptr).
    rewrite Ee in Es. cbn in Ecs. rewrite Hp in Ecs. cbn in Ecs.
    assert (Ebase : a_base a = payload_start s) by (rewrite Hbase, Es; unfold segment_end, payload_start; lia).
    rewrite Ebase. rewrite (proj2 (Z.eqb_neq _ 0)) by (destruct Ha; unfold payload_start, HEADER_SIZE; lia).
    right. eexists _, _. split; [done|].
    assert (E0' : payload_start s = chunk s (chunk_size h) 0) by (unfold chunk; lia).
    pose proof (chunk_count_pos _ Hsz) as Hpos.
    assert (Hseg : seg_of (payload_start s) = s).
    { apply (chunk_seg_of s (chunk_size h)); [done..|]. apply elem_of_chunk_list. eauto with lia. }
    rewrite Ebase, Hseg in Hquiet.
    assert (Hnone : held s U = []).
    { apply elem_of_nil_inv. intros q [Eq Hq]%held_elem. by apply (Hquiet q). }
    destruct (seg_region plan_of m U L R I s h Hh Hl) as [Hr _].
    destruct (seg_facts plan_of Hplan m U L R I s h Hh) as (_ & Hpl & _).
    split; [exists h; by rewrite Hseg|].
    eapply (inv_region plan_of Hplan m U L R I s h h k _ _ 1 (payload_start s + sz)); try done.
    + rewrite held_cons_eq, Hnone by done. unfold chunks_to. cbn. by rewrite E0'.
    + intros q Hq. by rewrite held_cons_ne by congruence.
    + by rewrite insert_id.
    + intros k' Hk'. by erewrite view_set_arena, decide_False by done.
    + erewrite view_set_arena, decide_True by done. cbv zeta. cbn [a_ptr a_end a_base]. rewrite <- Ebase, <- Eb.
      by rewrite <- Ee.
    + rewrite Ee, Es, decide_True by done. rewrite E0', <- Ecs. unfold chunk. lia.
Qed.
End Regions.

(** ** Threads end *)

Lemma slot_filter {A} (d : A) (s : gmap (Z * Z) A) tid k :
  slot d (filter (λ kv, kv.1.1 ≠ tid) s) k = if decide (k.1 = tid) then d else slot d s k.
Proof.
  unfold slot. case_decide as Hk.
  - rewrite map_lookup_filter_None_2; [done|]. right. intros a _ Hn. by apply Hn.
  - destruct (s !! k) as [a|] eqn:E; [by rewrite (map_lookup_filter_Some_2 _ _ _ a)|].
    rewrite map_lookup_filter_None_2; [done|by left].
Qed.

Lemma view_exit tid m k : view_of (exit_thread tid m) k = if decide (k.1.1 = tid) then view0 else view_of m k.
Proof.
  destruct k as [[t i] [c|]]; unfold Heap.view_of, exit_thread; cbn [tl_bumps tl_freelists tl_multi_freelists tl_arenas fst];
    rewrite !slot_filter; cbn [fst]; case_decide; try done. by destruct (plan_of i).
Qed.

(** A thread's lists are lost with it; its segments stay, with every block in
    place. *)
Lemma exit_ok m U L R tid : inv_with m U L R ->
  inv_with (exit_thread tid m) U (λ k, if decide (k.1.1 = tid) then [] else L k) R.
Proof.
  intros I. assert (Eh : heap (exit_thread tid m) = heap m) by done. split; rewrite ?Eh.
  - intros s h Hh. destruct (inv_segs _ _ _ _ _ I s h Hh) as (Ha & Hpl & H). split; [done|]. split; [done|].
    destruct (listed h).
    + destruct H as [Hc Hact Hret]. split; [done| |done]. rewrite view_exit. intros Hr. destruct (Hact Hr) as [Hsub Hperm].
      case_decide; [|done]. split; [|cbn; destruct Ha; lia]. etrans; [|exact Hsub].
      unfold places. apply submseteq_skips_l. by apply submseteq_inserts_l.
    + destruct H as (Hr & n & Hn & Hsub & Hv). split; [done|]. exists n. split_and!; [done..|].
      rewrite view_exit. case_decide; [|done]. unfold segment_end. cbn. destruct Ha. unfold SEGMENT_SIZE. lia.
  - intros k. destruct (decide (k.1.1 = tid)) as [E|E].
    + apply slot_ok_fresh. by rewrite view_exit, decide_True.
    + eapply slot_frame; [apply (inv_slots _ _ _ _ _ I)|by rewrite view_exit, decide_False|done|done].
  - apply (inv_user _ _ _ _ _ I).
  - apply (inv_registry _ _ _ _ _ I).
Qed.

(** ** The reaper *)

Lemma set_heap_set_heap w w' m : set_heap w (set_heap w' m) = set_heap w m.
Proof. by destruct m. Qed.

(** Reclaiming segments none of whose chunks is held. *)
Lemma sweep_apply_ok mode ps l m U L R :
  inv_with m U L R -> NoDup l ->
  (∀ s, s ∈ l -> ∃ h, segs (heap m) !! s = Some h ∧ retired h = true ∧ live_chunks h = 0) ->
  ∃ w, sweep_apply mode ps l (heap m) = Ok w ∧ inv_with (set_heap w m) U L R.
Proof.
  revert m. induction l as [|s l IH]; intros m I Hnd Hl.
  { exists (heap m). split; [done|]. by destruct m. }
  apply NoDup_cons in Hnd as [Hsl Hnd].
  destruct (Hl s) as (h & Hh & Hr & Hlive); [set_solver|].
  destruct (seg_facts plan_of Hplan m U L R I s h Hh) as (Ha & Hpl & _).
  assert (Hlh : listed h = true).
  { destruct (listed h) eqn:E; [done|]. destruct (seg_region plan_of m U L R I s h Hh E). congruence. }
  assert (Hstep : ∃ w1,
    (if bool_decide (mode = Madvised) then decommit_segment ps s (heap m)
     else mret (free_segment s (heap m))) = Ok w1 ∧ inv_with (set_heap w1 m) U L R ∧
    ∀ t, t ≠ s -> segs w1 !! t = segs (heap m) !! t).
  { case_bool_decide.
    - unfold decommit_segment. destruct ((ps <=? 0) || (ps >=? SEGMENT_SIZE)) eqn:Eps.
      { exists (heap m). split; [done|]. split; [by destruct m|done]. }
      unfold header. rewrite Hh. cbn [of_option mbind res_bind mret res_ret].
      eexists. split; [done|]. split.
      + apply orb_false_iff in Eps as [Eps _]. zb.
        destruct (l_retired _ _ _ _ _ _ _ (seg_list plan_of m U L R I s h Hh Hlh) Hr) as (_ & _ & Hls).
        apply (inv_retired plan_of Hplan m U L R I s h (with_decommitted h)); try done; try by destruct h.
        intros x Hx. cbn. by apply words_decommit.
      + intros t Ht. cbn. by rewrite lookup_insert_ne.
    - exists (free_segment s (heap m)). split; [done|].
      destruct (free_segment_spec s (heap m) Ha (inv_registry _ _ _ _ _ I)) as (Es & Hreg & Hw). split.
      + by apply (inv_drop plan_of Hplan m U L R I s h).
      + intros t Ht. by rewrite Es, lookup_delete_ne. }
  destruct Hstep as (w1 & E1 & I1 & Hother). cbn [sweep_apply]. rewrite E1. cbn [mbind res_bind].
  destruct (IH (set_heap w1 m) I1 Hnd) as (w & Ew & Iw).
  - intros t Ht. cbn [heap set_heap]. rewrite Hother by (intros ->; done). apply Hl. set_solver.
  - exists w. split; [exact Ew|]. by rewrite set_heap_set_heap in Iw.
Qed.

Lemma reap_ok mode pred ps m U L R :
  inv_with m U L R ->
  ∃ n w, reaper_sweep mode pred ps (heap m) = Ok (n, w) ∧ inv_with (set_heap w m) U L R.
Proof.
  intros I. destruct (inv_registry _ _ _ _ _ I) as (Haddr & _ & Hnd & Hidx & _).
  destruct (sweep_scan_spec mode pred (index (heap m)) (heap m)) as (l & El & Hsub & Hin).
  { intros s Hs%Hidx. split; [destruct (Haddr s Hs) as [? _]; lia|by apply elem_of_dom]. }
  unfold reaper_sweep. rewrite El. cbn [mbind res_bind].
  destruct (sweep_apply_ok mode ps l m U L R I) as (w & Ew & Iw).
  - eapply sublist_NoDup; [exact Hnd|exact Hsub].
  - intros s [_ (h & Hh & Eh)]%Hin. exists h. unfold eligible in Eh. zb. done.
  - rewrite Ew. cbn [mbind res_bind mret res_ret]. eauto.
Qed.

(** ** Routines *)

(** A block of [n] bytes, from a segment of the thread's slot. *)
Definition served (tid idx n : Z) (m : machine) (p : ptr) : Prop :=
  ∃ h, segs (heap m) !! seg_of p = Some h ∧ owner_tid h = tid ∧ slot_index h = idx ∧ chunk_size h = n.

(** The blocks of the list or region [c] of slot [idx] have [n] bytes. *)
Definition holds_size (idx : Z) (c : option Z) (n : Z) : Prop :=
  match plan_of idx, c with
  | PlanList sz, None | PlanRegion _ sz, None | PlanArena sz, None => sz = n
  | PlanClasses l, Some c => l !! Z.to_nat c = Some n
  | _, _ => False
  end.

Lemma of_slot_served m U L R tid idx c n p :
  inv_with m U L R -> holds_size idx c n -> of_slot m (tid, idx, c) p -> served tid idx n m p.
Proof.
  intros I Hn (h & Hh & Ek). destruct (seg_facts plan_of Hplan m U L R I _ h Hh) as (_ & Hpl & _).
  exists h. unfold key_of in Ek. injection Ek as Eo Ei Ec. split_and!; [done..|].
  unfold Heap.planned in Hpl. rewrite Ei in Hpl. unfold holds_size in Hn.
  destruct (plan_of idx) as [sz|l|[] sz|sz], (strategy h); cbn in Ec; subst c; try done; try congruence.
  destruct Hpl as [_ Hpl]. congruence.
Qed.

(** What a routine may do, from a state with blocks [U]. *)
Definition may_serve (raw : option Z) (tid idx n : Z) (U : list Z) (r : res outcome) : Prop :=
  (raw = None ∧ r = Trap AssertFailed) ∨ (∃ why, r = Ok (Deopted why)) ∨
  ∃ p m' L' R', r = Ok (Block p m') ∧ served tid idx n m' p ∧ inv_with m' (p :: U) L' R'.

Lemma may_serve_block raw tid idx n U c p m' :
  holds_size idx c n -> of_slot m' (tid, idx, c) p ∧ (∃ L' R', inv_with m' (p :: U) L' R') ->
  may_serve raw tid idx n U (Ok (Block p m')).
Proof.
  intros Hn (Hp & L' & R' & I'). right; right. exists p, m', L', R'. split_and!; [done| |done].
  by eapply of_slot_served.
Qed.

Lemma may_serve_slow raw tid idx n U c (slow : res (ptr * machine)) :
  holds_size idx c n ->
  (raw = None ∧ slow = Trap AssertFailed) ∨
  (∃ p m', slow = Ok (p, m') ∧ of_slot m' (tid, idx, c) p ∧ ∃ L' R', inv_with m' (p :: U) L' R') ->
  may_serve raw tid idx n U (r ← slow; Ok (block_of r)).
Proof.
  intros Hn [[-> ->]|(p & m' & -> & H)]; [by left|]. by eapply may_serve_block.
Qed.

Lemma may_serve_list m U L R raw tid idx n c str mark :
  inv_with m U L R -> fresh_raw raw (heap m) -> holds_size idx c n ->
  list_header (tid, idx, c) str n (mark (v_seg (view_of m (tid, idx, c)))) ->
  may_serve raw tid idx n U
    (or_slow (list_pop (tid, idx, c) m) (list_refill raw (tid, idx, c) str n mark m)).
Proof.
  intros I Hraw Hn Hf. unfold or_slow. destruct (list_pop _ m) as [[p m']|] eqn:E.
  - apply (may_serve_block _ _ _ _ _ c); [done|]. by apply (pop_ok m U L R I).
  - apply (may_serve_slow _ _ _ _ _ c); [done|]. apply (refill_ok m U L R); [done| |done..].
    unfold list_pop in E. by destruct (Z.eqb_spec (v_head (view_of m (tid, idx, c))) 0).
Qed.

(** A routine serves a block of the size asked for, or deopts; the only fault is the
    [assert] that a segment could be mapped. *)
Lemma routine_ok m U L R raw tid idx n :
  inv_with m U L R -> fresh_raw raw (heap m) ->
  may_serve raw tid idx n (survivors plan_of tid idx n m U) (routine plan_of raw tid idx n m).
Proof.
  intros I Hraw. unfold routine, survivors, reset_seg. pose proof (Hplan idx) as Hp.
  assert (Hdeopt : ∀ U' why, may_serve raw tid idx n U' (Ok (Deopted why))) by (intros U' why; right; left; eauto).
  assert (Hn : ∀ c, match plan_of idx, c with
    | PlanList sz, None | PlanRegion _ sz, None | PlanArena sz, None => sz = n
    | PlanClasses l, Some c => l !! Z.to_nat c = Some n | _, _ => False end -> holds_size idx c n) by done.
  destruct (plan_of idx) as [sz|l|paired sz|sz] eqn:Eplan; cbn [plan_ok] in Hp.
  - destruct (Z.eqb_spec n sz) as [->|]; [|done]. rewrite jit_pop_list, freelist_refill_list by lia.
    apply (may_serve_list m U L R); [done..|by apply Hn|].
    split; [unfold size_ok, POINTER_SIZE in *; lia|]. intros site s. unfold Heap.planned. cbn. rewrite Eplan. done.
  - pose proof (class_of_lookup l n 0) as Hc. destruct (Jit.class_of l n 0) as [c|]; [|done].
    destruct Hc as [_ Hc]. rewrite Nat.sub_0_r in Hc. destruct Hp as [Hl Hlen].
    pose proof (lookup_lt_Some _ _ _ Hc) as Hlt. rewrite Forall_lookup in Hl. specialize (Hl c n Hc). cbn in Hl.
    rewrite jit_multi_pop_list, multi_refill_list by (unfold MULTI_MAX_CLASSES; lia).
    apply (may_serve_list m U L R); [done..|apply Hn; by rewrite Nat2Z.id|].
    split; [unfold size_ok, POINTER_SIZE in *; lia|]. intros site s. unfold Heap.planned. cbn. rewrite Eplan.
    rewrite u8_small by (pow2; lia). rewrite Nat2Z.id. split_and!; done || lia.
  - destruct (Z.eqb_spec n sz) as [->|]; [|done]. destruct (jit_bump tid idx sz m) as [[p m']|] eqn:E.
    + apply (may_serve_block _ _ _ _ _ None); [by apply Hn|].
      destruct (bump_ok m U L R I tid idx paired sz p m' Eplan E). eauto.
    + destruct (Z.eqb_spec (b_ptr (slot bump0 (tl_bumps m) (tid, idx))) 0) as [E0|]; [|done].
      apply (may_serve_slow _ _ _ _ _ None); [by apply Hn|].
      destruct (bump_init_ok m U L R I tid idx raw paired sz Eplan Hraw E0) as [?|(p & m' & ? & ? & ?)]; [by left|right; eauto 8].
  - destruct (Z.eqb_spec n sz) as [->|]; [|done]. unfold or_slow. destruct (jit_arena tid idx sz m) as [[p m']|] eqn:E.
    + apply (may_serve_block _ _ _ _ _ None); [by apply Hn|].
      destruct (arena_ok m U L R I tid idx sz p m' Eplan E). eauto.
    + apply (may_serve_slow _ _ _ _ _ None); [by apply Hn|]. cbn [negb andb].
      set (base := a_base _). assert (Hend : ∀ U', inv_with m U' L R -> (∀ p, p ∈ U' -> seg_of p ≠ seg_of base) ->
        raw = None ∧ arena_reset_alloc raw tid idx sz m = Trap AssertFailed ∨
        ∃ p m', arena_reset_alloc raw tid idx sz m = Ok (p, m') ∧ of_slot m' (tid, idx, None) p ∧
          ∃ L' R', inv_with m' (p :: U') L' R').
      { intros U' I' Hquiet.
        destruct (arena_reset_ok m U' L R I' tid idx raw sz Eplan Hraw Hquiet) as [?|(p & m' & ? & ? & ?)]; [by left|right; eauto 8]. }
      destruct (Z.eqb_spec base 0) as [E0|Hne]; cbn [negb]; apply Hend; try done.
      * intros p Hp' Es. destruct (inv_user _ _ _ _ _ I p Hp') as [h Hh]. rewrite Es, E0 in Hh.
        destruct (seg_facts plan_of Hplan m U L R I _ h Hh) as ([H0 _] & _). unfold seg_of in H0. rewrite Z.land_0_l in H0. lia.
      * apply (inv_forget plan_of m U L R I). intros h Hh. by eapply (arena_base_region m U L R I).
      * intros p [? _]%list_elem_of_filter. done.
Qed.

(** ** Every reachable state *)

Lemma heap_inv_step c c' : Heap.inv plan_of c -> step plan_of c c' -> Heap.inv plan_of c'.
Proof.
  intros (L & R & I) Hstep. destruct Hstep as [raw tid idx n m U p m' Hraw H|
    tid m U p U' m' HU H|m U p v Hp|mode pred ps m U n w H|tid m U]; unfold Heap.inv; cbn [st user] in *.
  - destruct (routine_ok m U L R raw tid idx n I Hraw) as [[_ E]|[(why & E)|(p' & m'' & L' & R' & E & _ & I')]];
      rewrite E in H; [done..|]. injection H as <- <-. eauto.
  - destruct (heap_free_ok m U L R I tid p U' HU) as (_ & m'' & L' & R' & E & I'). rewrite E in H. injection H as <-. eauto.
  - exists L, R. pose proof (user_not_listed plan_of Hplan m U L R I p Hp) as [HpL HpR].
    apply (inv_words plan_of m U L R I); try done.
    + intros x k Hx. cbn. apply arr_insert_ne. intros <-. by apply (HpL k).
    + intros x s h Hh Hl Hx. cbn. apply arr_insert_ne. intros <-. by eapply (HpR s h).
  - destruct (reap_ok mode pred ps m U L R I) as (n' & w' & E & Iw). rewrite E in H.
    injection H as <- <-. by exists L, R.
  - eexists _, R. by apply exit_ok.
Qed.

Lemma heap_inv_reachable c : rtc (step plan_of) conf0 c -> Heap.inv plan_of c.
Proof. apply reachable_invariant; [apply inv_conf0|apply heap_inv_step]. Qed.
End Operations.
