(* ===== verification/HeapSafe.v ===== *)
(** * What the segment heap promises

    Memory safety, progress and the reclamation of segments, in every reachable
    state of [Heap]'s protocol. *)

From S2P Require Import Prelude Common Segment SlowInit Chunks Heap HeapOps.

Lemma NoDup_held U : (∀ s, NoDup (held s U)) -> NoDup U.
Proof.
  induction U as [|p U IH]; intros H; [apply NoDup_nil_2|]. apply NoDup_cons. split.
  - intros Hp. specialize (H (seg_of p)). rewrite held_cons_eq in H by done.
    apply NoDup_cons in H as [H _]. by apply H, held_elem.
  - apply IH. intros s. specialize (H s). rewrite held_cons in H. case_decide; [|done].
    by apply NoDup_cons in H as [_ H].
Qed.

(** Two blocks share an address. *)
Definition overlap (p szp q szq : Z) : Prop := p < q + szq ∧ q < p + szp.

Section Safety.
Context (plan_of : Z -> plan) (Hplan : ∀ idx, plan_ok (plan_of idx)).
Context (m : machine) (U : list Z) (L : key -> list Z) (R : Z -> list Z).
Context (I : inv_with plan_of m U L R).

Lemma blocks_NoDup : NoDup U.
Proof.
  apply NoDup_held. intros s. destruct (segs (heap m) !! s) as [h|] eqn:Hh.
  - eapply submseteq_NoDup; [by eapply held_chunks|]. apply chunk_list_NoDup. by eapply seg_facts.
  - rewrite (held_new plan_of Hplan m U L R I s Hh). apply NoDup_nil_2.
Qed.

Lemma block_bounds p h :
  p ∈ U -> segs (heap m) !! seg_of p = Some h ->
  seg_of p + HEADER_SIZE <= p ∧ p + chunk_size h <= seg_of p + SEGMENT_SIZE.
Proof.
  intros Hp Hh. pose proof (user_chunk plan_of m U L R I p h Hp Hh) as Hin.
  destruct (seg_facts plan_of Hplan m U L R I _ h Hh) as (_ & _ & Hsz).
  apply elem_of_chunk_list in Hin as (i & Hi & E).
  pose proof (chunk_in_segment (seg_of p) (chunk_size h) i Hsz Hi). rewrite <- E in *. done.
Qed.

Lemma blocks_apart p h q g :
  p ∈ U -> segs (heap m) !! seg_of p = Some h -> q ∈ U -> q ≠ p ->
  segs (heap m) !! seg_of q = Some g -> ¬ overlap p (chunk_size h) q (chunk_size g).
Proof.
  intros Hp Hh Hq Hne Hg [H1 H2].
  pose proof (block_bounds p h Hp Hh). pose proof (block_bounds q g Hq Hg).
  destruct (seg_facts plan_of Hplan m U L R I _ h Hh) as ([_ Ha] & _ & Hsz).
  destruct (seg_facts plan_of Hplan m U L R I _ g Hg) as ([_ Hb] & _ & _).
  destruct (decide (seg_of p = seg_of q)) as [E|Hn].
  - pose proof (user_chunk plan_of m U L R I p h Hp Hh) as Hcp.
    pose proof (user_chunk plan_of m U L R I q g Hq Hg) as Hcq.
    rewrite <- E in Hg, Hcq. rewrite Hh in Hg. injection Hg as <-.
    pose proof (chunks_disjoint _ _ p q Hsz Hcp Hcq). lia.
  - apply Z.mod_divide in Ha as [x Ex]; [|done]. apply Z.mod_divide in Hb as [y Ey]; [|done].
    unfold SEGMENT_SIZE, HEADER_SIZE in *. assert (x ≠ y) by congruence. nia.
Qed.

(** A held block is not ahead of any region's cursor. *)
Lemma cursor_past p h k :
  p ∈ U -> segs (heap m) !! seg_of p = Some h ->
  let v := view_of plan_of m k in p + chunk_size h <= v_ptr v ∨ v_end v <= p.
Proof.
  intros Hp Hh v. pose proof (block_bounds p h Hp Hh) as Hb.
  destruct (seg_facts plan_of Hplan m U L R I _ h Hh) as ([Ha Hma] & _ & Hsz).
  destruct (Z.eqb_spec (v_end v) 0) as [E0|Hne]; [right; unfold HEADER_SIZE in *; lia|].
  destruct (cursor_at plan_of Hplan m U L R I k Hne) as (s & g & n & Es & Hg & _ & _ & [_ Has] & Hsz' & _ & Hn & Hsub & Hptr).
  fold v in Es, Hptr. destruct (decide (seg_of p = s)) as [E|Hs].
  - left. assert (Hin : p ∈ held s U) by by apply held_elem.
    apply (elem_of_submseteq _ _ _ Hin), elem_of_chunks_to in Hsub as (i & Hi & Ei).
    assert (g = h) as -> by congruence. unfold chunk, size_ok in *. nia.
  - apply Z.mod_divide in Hma as [x Ex]; [|done]. apply Z.mod_divide in Has as [y Ey]; [|done].
    assert (x ≠ y) by congruence. rewrite Hptr, Es.
    unfold segment_end, chunk, payload_start, SEGMENT_SIZE, HEADER_SIZE, size_ok in *. nia.
Qed.
End Safety.

Lemma routine_reason plan_of raw tid idx n m why :
  routine plan_of raw tid idx n m = Ok (Deopted why) -> why = SizeDrift ∨ why = RegionExhaust.
Proof.
  unfold routine, or_slow, block_of. intros H.
  repeat (case_match; simplify_eq; auto; try (apply bind_Ok in H as (? & _ & H); simplify_eq)).
Qed.

(** ** Properties *)

(** C1: memory safety of the segment heap.  For slots compiled for any strategy but
    [ProducerConsumer] (whose reclamation is unsafe: [Bump.pc_retire_undercounts]),
    whatever the threads, the order and the thread of the frees, what the program
    writes into its blocks, the sweeps in between and whichever threads have ended:
    in every reachable state each block the program holds lies in the payload of a
    mapped segment that the pagemap knows, is handed out once at a time, overlaps no
    other held block, and is on no thread's list, in no segment's remote queue and
    not ahead of any region's cursor.  The program holds a block from the routine's
    return until it frees it or, in an arena, until the arena is reset, which ends
    the arena's blocks whether freed or not.  Each operation is one step. *)
Theorem heap_memory_safe (plan_of : Z -> plan) (c : conf) :
  (∀ idx, plan_ok (plan_of idx)) -> rtc (step plan_of) conf0 c ->
  NoDup (user c) ∧
  ∀ p, p ∈ user c -> ∃ h, segs (heap (st c)) !! seg_of p = Some h ∧
    is_managed (seg_of p) (heap (st c)) = true ∧
    seg_of p + HEADER_SIZE <= p ∧ p + chunk_size h <= seg_of p + SEGMENT_SIZE ∧
    (∀ k, let v := view_of plan_of (st c) k in
       (∃ l, chain (words (heap (st c))) (v_head v) l ∧ p ∉ l) ∧
       (p + chunk_size h <= v_ptr v ∨ v_end v <= p)) ∧
    (∀ s g, segs (heap (st c)) !! s = Some g -> listed g = true ->
       ∃ r, chain (words (heap (st c))) (remote_head g) r ∧ p ∉ r) ∧
    ∀ q g, q ∈ user c -> q ≠ p -> segs (heap (st c)) !! seg_of q = Some g ->
      ¬ overlap p (chunk_size h) q (chunk_size g).
Proof.
  intros Hplan Hc. destruct (heap_inv_reachable plan_of Hplan c Hc) as (L & R & I).
  split; [by eapply blocks_NoDup|]. intros p Hp. destruct (inv_user _ _ _ _ _ I p Hp) as [h Hh]. exists h.
  pose proof (block_bounds plan_of Hplan _ _ L R I p h Hp Hh) as [Hlo Hhi].
  destruct (elem_of_Permutation (user c) p) as [Hperm _]. destruct (Hperm Hp) as [U' HU].
  destruct (user_not_listed plan_of Hplan _ _ L R I p Hp) as [HL HR].
  split_and!; try done.
  - by apply (heap_free_ok plan_of Hplan _ _ L R I 0 p U').
  - intros k v. split; [exists (L k); split; [apply (inv_slots _ _ _ _ _ I)|done]|by eapply cursor_past].
  - intros s g Hg Hl. exists (R s). split; [apply (seg_list _ _ _ _ _ I s g Hg Hl)|by eapply HR].
  - intros q g Hq Hne Hg. by eapply blocks_apart.
Qed.

(** Four slots: a free list, two classes, a paired region, an arena. *)
Definition demo_plan (idx : Z) : plan :=
  if idx =? 0 then PlanList 4000
  else if idx =? 1 then PlanClasses [2000; 4000]
  else if idx =? 2 then PlanRegion true 4000 else PlanArena 4000.

Lemma demo_plan_ok idx : plan_ok (demo_plan idx).
Proof.
  unfold demo_plan. repeat case_match; cbn; unfold POINTER_SIZE; try lia.
  split; [repeat constructor; lia|lia].
Qed.

(** A routine's block is added to the program's; [lo] is where a segment may be
    mapped. *)
Definition serve (lo tid idx n : Z) (c : conf) : conf :=
  match routine demo_plan (Some lo) tid idx n (st c) with
  | Ok (Block p m) => mkConf m (p :: survivors demo_plan tid idx n (st c) (user c))
  | _ => c
  end.

Definition region_free (lo : Z) (w : world) : bool :=
  (0 <? lo) && (lo + 2 * SEGMENT_SIZE <=? 2 ^ 47) &&
  bool_decide (set_Forall (λ s, s + SEGMENT_SIZE <= lo ∨ lo + 2 * SEGMENT_SIZE <= s) (dom (segs w))).

Lemma region_free_fresh lo w : region_free lo w = true -> fresh_raw (Some lo) w.
Proof.
  unfold region_free. intros H. zb. apply bool_decide_eq_true in H0. split_and!; [lia|lia|].
  intros s Hs. apply H0. by apply elem_of_dom.
Qed.

Lemma serve_reachable lo tid idx n c :
  rtc (step demo_plan) conf0 c -> region_free lo (heap (st c)) = true ->
  rtc (step demo_plan) conf0 (serve lo tid idx n c).
Proof.
  intros Hc Hlo. unfold serve. destruct (routine demo_plan (Some lo) tid idx n (st c)) as [[p m|]|] eqn:E; try done.
  eapply rtc_r; [exact Hc|]. destruct c as [m0 U]. apply (S_routine _ (Some lo) tid idx n); [by apply region_free_fresh|exact E].
Qed.

Definition release (tid p : Z) (U' : list Z) (c : conf) : conf :=
  match free_managed tid (seg_of p) p (st c) with Ok m => mkConf m U' | Trap _ => c end.

Lemma release_reachable tid p U' c :
  rtc (step demo_plan) conf0 c -> user c ≡ₚ p :: U' -> rtc (step demo_plan) conf0 (release tid p U' c).
Proof.
  intros Hc HU. unfold release. destruct (free_managed tid (seg_of p) p (st c)) as [m|] eqn:E; [|done].
  eapply rtc_r; [exact Hc|]. destruct c as [m0 U]. by apply (S_free _ tid m0 U p).
Qed.

(** Thread 1 takes a block of each kind; thread 2 frees the free-list one, and
    thread 1 ends. *)
Definition demo_3 : conf :=
  serve 67108864 1 2 4000 (serve 33554432 1 1 2000 (serve 4096 1 0 4000 conf0)).
Definition demo : conf :=
  let c := release 2 4189216 [67108928; 35648496] demo_3 in mkConf (exit_thread 1 (st c)) (user c).

Lemma demo_user : user demo_3 = [67108928; 35648496; 4189216] ∧ user demo = [67108928; 35648496].
Proof. vm_compute. split; reflexivity. Qed.

Lemma perm3 {A} (a b c : A) : [a; b; c] ≡ₚ [c; a; b].
Proof. by rewrite (Permutation_app_comm [a; b] [c]). Qed.

Lemma demo_3_reachable : rtc (step demo_plan) conf0 demo_3.
Proof.
  unfold demo_3. apply serve_reachable; [apply serve_reachable; [apply serve_reachable; [done|]|]|];
    vm_compute; reflexivity.
Qed.

Lemma demo_reachable : rtc (step demo_plan) conf0 demo.
Proof.
  eapply rtc_r; [|apply S_exit].
  assert (H : rtc (step demo_plan) conf0 (release 2 4189216 [67108928; 35648496] demo_3)).
  { apply release_reachable; [exact demo_3_reachable|]. rewrite (proj1 demo_user). apply perm3. }
  by destruct (release 2 4189216 [67108928; 35648496] demo_3).
Qed.

Lemma heap_memory_safe_witness :
  user demo = [67108928; 35648496] ∧ NoDup (user demo) ∧
  is_managed (seg_of 35648496) (heap (st demo)) = true.
Proof.
  destruct (heap_memory_safe demo_plan demo demo_plan_ok demo_reachable) as [Hnd H].
  assert (E : user demo = [67108928; 35648496]) by exact (proj2 demo_user).
  split; [exact E|]. split; [exact Hnd|].
  destruct (H 35648496) as (h & _ & Hm & _); [rewrite E; apply elem_of_cons; right; apply list_elem_of_singleton; reflexivity|].
  exact Hm.
Defined.

(** C10: nothing in the heap faults, and a routine does its job.  For slots of any
    strategy but [ProducerConsumer], in every reachable state: any held block, freed
    from any thread, is found managed and goes back; the reaper, in any mode and with
    any predicate, succeeds; and a routine returns a block of exactly the size asked
    for, from a segment of the thread's own slot, that is none of the program's (but
    for the blocks of an arena that the routine has just reset), or deopts, or trips
    the [assert] that a segment could be mapped, and that only when [mmap] failed. *)
Theorem heap_progress (plan_of : Z -> plan) (c : conf) (tid idx n : Z) (raw : option Z)
    (mode : ReapMode) (pred : option (CallSiteID -> bool)) (ps : Z) :
  (∀ idx, plan_ok (plan_of idx)) -> rtc (step plan_of) conf0 c ->
  fresh_raw raw (heap (st c)) ->
  (∀ p, p ∈ user c -> is_managed (seg_of p) (heap (st c)) = true ∧
     res_ok (free_managed tid (seg_of p) p (st c))) ∧
  res_ok (reaper_sweep mode pred ps (heap (st c))) ∧
  match routine plan_of raw tid idx n (st c) with
  | Ok (Block p m) => p ∉ survivors plan_of tid idx n (st c) (user c) ∧ served tid idx n m p
  | Ok (Deopted why) => why = SizeDrift ∨ why = RegionExhaust
  | Trap t => t = AssertFailed ∧ raw = None
  end.
Proof.
  intros Hplan Hc Hraw. destruct (heap_inv_reachable plan_of Hplan c Hc) as (L & R & I). split_and!.
  - intros p Hp. destruct (elem_of_Permutation (user c) p) as [Hperm _]. destruct (Hperm Hp) as [U' HU].
    destruct (heap_free_ok plan_of Hplan _ _ L R I tid p U' HU) as (Hm & m' & _ & _ & E & _). split; [done|by exists m'].
  - destruct (reap_ok plan_of Hplan mode pred ps _ _ L R I) as (k & w & -> & _). by eexists.
  - destruct c as [m U]. cbn [st user] in *. pose proof (routine_ok plan_of Hplan m U L R raw tid idx n I Hraw) as H.
    destruct H as [[-> ->]|[(why & E)|(p & m' & L' & R' & -> & Hs & I')]]; [done| |].
    + rewrite E. by eapply routine_reason.
    + split; [|done]. pose proof (blocks_NoDup plan_of Hplan _ _ _ _ I') as Hnd. by apply NoDup_cons in Hnd as [? _].
Qed.

Lemma heap_progress_witness :
  res_ok (free_managed 2 (seg_of 35648496) 35648496 (st demo)) ∧
  res_ok (reaper_sweep Eager None 4096 (heap (st demo))) ∧
  match routine demo_plan (Some 134217728) 3 0 4000 (st demo) with
  | Ok (Block p m) => p ∉ user demo ∧ served 3 0 4000 m p
  | _ => False
  end.
Proof.
  assert (Hraw : fresh_raw (Some 134217728) (heap (st demo))) by (apply region_free_fresh; vm_compute; reflexivity).
  destruct (heap_progress demo_plan demo 2 0 4000 None Eager None 4096 demo_plan_ok demo_reachable I) as (Hfree & Hreap & _).
  destruct (heap_progress demo_plan demo 3 0 4000 (Some 134217728) Eager None 4096 demo_plan_ok demo_reachable Hraw) as (_ & _ & Hr).
  assert (E : user demo = [67108928; 35648496]) by exact (proj2 demo_user).
  split; [apply Hfree; rewrite E; apply elem_of_cons; right; apply list_elem_of_singleton; reflexivity|].
  split; [exact Hreap|].
  assert (Hb : match routine demo_plan (Some 134217728) 3 0 4000 (st demo) with Ok (Block _ _) => true | _ => false end = true)
    by (vm_compute; reflexivity).
  destruct (routine demo_plan (Some 134217728) 3 0 4000 (st demo)) as [[p m|]|]; [exact Hr|discriminate Hb|discriminate Hb].
Defined.

(** C11: a segment is reclaimed only when the program holds none of its blocks,
    and then it can be.  With every operation one step, for segments of any strategy
    but [ProducerConsumer], in every reachable state a retired segment's
    [live_chunks] is the number of its blocks the program holds, so the sweep's
    test [retired && live_chunks == 0] is exactly "retired and unused".  An active
    list segment's blocks are held, on its owner's list or on the remote queue, and
    as long as its owner's slot is on it every one of its [chunks_in_segment] is:
    none is lost before its thread ends.  (The accesses of a free and of the
    retirement interleave in [Retire]: there a free that straddles the retirement
    may leave its chunk counted for good, [Retire.stranded_never_reaped].) *)
Theorem retired_accounting (plan_of : Z -> plan) (c : conf) (s : ptr) (h : SegmentHeader) :
  (∀ idx, plan_ok (plan_of idx)) -> rtc (step plan_of) conf0 c ->
  segs (heap (st c)) !! s = Some h ->
  let v := view_of plan_of (st c) (key_of h) in
  if retired h
  then live_chunks h = Z.of_nat (length (held s (user c))) ∧
       (eligible Eager None h = true <-> held s (user c) = [])
  else eligible Eager None h = false ∧
       (listed h = true ->
        ∃ l r, chain (words (heap (st c))) (v_head v) l ∧
          chain (words (heap (st c))) (remote_head h) r ∧
          let n := Z.of_nat (length (held s (user c)) + length (held s l) + length r) in
          n <= chunks_in_segment h ∧ (v_seg v = s -> n = chunks_in_segment h)).
Proof.
  intros Hplan Hc Hs v. destruct (heap_inv_reachable plan_of Hplan c Hc) as (L & R & I).
  destruct (seg_facts plan_of Hplan _ _ L R I s h Hs) as (_ & _ & Hsz). destruct (retired h) eqn:Hr.
  - destruct (listed h) eqn:Hl; [|by destruct (seg_region plan_of _ _ L R I s h Hs Hl); congruence].
    destruct (l_retired _ _ _ _ _ _ _ (seg_list plan_of _ _ L R I s h Hs Hl) Hr) as (_ & _ & Hlive). split; [done|].
    unfold eligible. rewrite Hr, Hlive. cbn. rewrite !andb_true_r, Z.eqb_eq.
    destruct (held s (user c)); [done|]. split; [simpl; lia|done].
  - split; [unfold eligible; by rewrite Hr|]. intros Hl.
    destruct (seg_list plan_of _ _ L R I s h Hs Hl) as [Hrem Hact _]. destruct (Hact Hr) as [Hsub Hperm].
    exists (L (key_of h)), (R s). split; [apply (inv_slots _ _ _ _ _ I)|]. split; [done|]. cbv zeta.
    rewrite chunks_in_segment_count, <- (length_chunk_list s) by done.
    apply submseteq_length in Hsub. unfold places in *. rewrite !length_app in Hsub. split; [lia|].
    intros Hv. apply Hperm in Hv. apply Permutation_length in Hv. rewrite !length_app in Hv. lia.
Qed.

Lemma retired_accounting_witness :
  ∃ h, segs (heap (st demo)) !! 2097152 = Some h ∧ eligible Eager None h = false.
Proof.
  assert (Hs : is_Some (segs (heap (st demo)) !! 2097152)) by (vm_compute; eauto).
  destruct (segs (heap (st demo)) !! 2097152) as [h|] eqn:E; [|destruct Hs; discriminate].
  exists h. split; [reflexivity|].
  pose proof (retired_accounting demo_plan demo 2097152 h demo_plan_ok demo_reachable E) as H.
  destruct (retired h) eqn:Er; [|exact (proj1 H)].
  exfalso. revert E Er. vm_compute. intros [= <-]. discriminate.
Defined.
