(* ===== verification/Bump.v ===== *)
(** * The bump slots: runs of the fast path, LIFO rewinds, retirement

    [BumpAlloc], [PairedStack] and [ProducerConsumer] share the thread-local
    bump slot the routines advance.  This file says which blocks a region gives
    out, that a LIFO free gives its block back, and what [pc_refill] counts when
    it retires a region. *)

From S2P Require Import Prelude Common Segment SlowInit Chunks Heap.

(** [n] allocations on the fast path. *)
Fixpoint bumps (n : nat) (tid index size : Z) (m : machine) : option (list ptr * machine) :=
  match n with
  | O => Some ([], m)
  | S n =>
      match jit_bump tid index size m with
      | None => None
      | Some (p, m) =>
          match bumps n tid index size m with
          | None => None
          | Some (l, m) => Some (p :: l, m)
          end
      end
  end.

(** A slot whose region is segment [s], with [i] blocks out. *)
Definition bump_at (m : machine) (k : Z * Z) (s size i : Z) : Prop :=
  slot bump0 (tl_bumps m) k = mkBump (payload_start s + i * size) (segment_end s).

Lemma slot_set_bump k b m : slot bump0 (tl_bumps (set_bump k b m)) k = b.
Proof. unfold slot. cbn. by rewrite lookup_insert_eq. Qed.

Lemma jit_bump_at m tid index s size i :
  seg_addr s -> 0 < size < 4096 -> 0 <= i -> HEADER_SIZE + i * size <= SEGMENT_SIZE ->
  bump_at m (tid, index) s size i ->
  if HEADER_SIZE + (i + 1) * size <? SEGMENT_SIZE
  then ∃ m', jit_bump tid index size m = Some (payload_start s + i * size, m') ∧
         bump_at m' (tid, index) s size (i + 1) ∧ heap m' = heap m
  else jit_bump tid index size m = None.
Proof.
  intros [Hs _] Hsize Hi Hfit Hat. unfold bump_at in Hat. unfold jit_bump. rewrite Hat. cbn [b_ptr b_end].
  unfold payload_start, segment_end, HEADER_SIZE, SEGMENT_SIZE in *.
  rewrite u64_small by (pow2; lia).
  destruct (Z.ltb_spec (64 + (i + 1) * size) (2 ^ 21)), (Z.ltb_spec (s + 64 + i * size + size) (s + 2 ^ 21));
    try lia; [|done].
  eexists. split; [done|]. split; [|done]. unfold bump_at. rewrite slot_set_bump.
  unfold payload_start, segment_end, HEADER_SIZE, SEGMENT_SIZE. f_equal; lia.
Qed.

(** The blocks from index [i] on. *)
Definition blocks (s size i : Z) (n : nat) : list Z :=
  (λ j, payload_start s + (i + Z.of_nat j) * size) <$> seq 0 n.

Lemma bumps_at n m tid index s size i :
  seg_addr s -> 0 < size < 4096 -> 0 <= i -> HEADER_SIZE + i * size <= SEGMENT_SIZE ->
  bump_at m (tid, index) s size i ->
  if (n =? 0)%nat || (HEADER_SIZE + (i + Z.of_nat n) * size <? SEGMENT_SIZE)
  then ∃ m', bumps n tid index size m = Some (blocks s size i n, m') ∧
         bump_at m' (tid, index) s size (i + Z.of_nat n) ∧ heap m' = heap m
  else bumps n tid index size m = None.
Proof.
  intros Hs Hsize. revert m i. induction n as [|n IH]; intros m i Hi Hfit Hat.
  { exists m. rewrite Z.add_0_r. done. }
  cbn [Nat.eqb orb bumps]. pose proof (jit_bump_at m tid index s size i Hs Hsize Hi Hfit Hat) as H.
  destruct (Z.ltb_spec (HEADER_SIZE + (i + 1) * size) SEGMENT_SIZE) as [Hlt|Hge].
  - destruct H as (m1 & -> & Hat1 & Hh1).
    specialize (IH m1 (i + 1) ltac:(lia) ltac:(lia) Hat1).
    replace (i + Z.of_nat (S n)) with (i + 1 + Z.of_nat n) by lia.
    destruct (Nat.eqb_spec n 0) as [->|Hn0]; cbn [orb] in IH.
    + rewrite Z.add_0_r in *. rewrite (proj2 (Z.ltb_lt _ _)) by done. cbn [bumps].
      exists m1. split; [|done]. unfold blocks. cbn. by rewrite Z.add_0_r.
    + destruct (HEADER_SIZE + (i + 1 + Z.of_nat n) * size <? SEGMENT_SIZE); [|by rewrite IH].
      destruct IH as (m2 & -> & Hat2 & Hh2). exists m2. rewrite Hh2, Hh1. split; [|done].
      do 2 f_equal. unfold blocks. cbn [seq fmap list_fmap]. f_equal; [by rewrite Z.add_0_r|].
      rewrite <- fmap_S_seq, <- list_fmap_compose. apply list_fmap_ext. intros j x _. cbn. f_equal. lia.
  - rewrite H. destruct (Z.ltb_spec (HEADER_SIZE + (i + Z.of_nat (S n)) * size) SEGMENT_SIZE); [|done].
    exfalso. nia.
Qed.

(** The initialisers install the region with one block out. *)
Lemma install_bump_spec tid index size s m h :
  segs (heap m) !! s = Some h ->
  ∃ m', install_bump tid index size s m = Ok (payload_start s, m') ∧
    bump_at m' (tid, index) s size 1 ∧
    segs (heap m') = <[s := with_bump (payload_start s + size) h]> (segs (heap m)).
Proof.
  intros Hh. unfold install_bump, modify, header. cbn [heap set_bump].
  rewrite Hh. cbn [of_option mbind res_bind mret res_ret]. eexists. split; [done|].
  split; [|done]. unfold bump_at. unfold slot. cbn. rewrite lookup_insert_eq.
  cbn. f_equal. lia.
Qed.

(** ** Properties *)

(** What a bump region gives out.  From the initialiser of a [BumpAlloc] slot
    on, the region's blocks are handed out consecutively from the payload start,
    [n] more of them exactly while they end below the region's end; the next
    request then leaves the fast path. *)
Theorem bump_region_blocks (lo tid index size : Z) (n : nat) (m : machine) :
  0 < size < 4096 -> fresh_raw (Some lo) (heap m) ->
  registered (heap m) (dom (segs (heap m))) ->
  ∃ s m', bump_slow_init (Some lo) tid index size m = Ok (payload_start s, m') ∧ seg_addr s ∧
    if (n =? 0)%nat || (HEADER_SIZE + (1 + Z.of_nat n) * size <? SEGMENT_SIZE)
    then ∃ m'', bumps n tid index size m' = Some (blocks s size 1 n, m'')
    else bumps n tid index size m' = None.
Proof.
  intros Hsize Hraw Hreg.
  destruct (new_segment_spec lo tid BumpAlloc index size m Hraw Hreg) as (s & w & E & Ha & _ & Es & _).
  unfold bump_slow_init. rewrite E. cbn [mbind res_bind].
  destruct (install_bump_spec tid index size s (set_heap w m)
    (fresh_header BumpAlloc index (arr 0 (g_slot_to_site m) index) size tid s)) as (m' & -> & Hat & _).
  { cbn [heap set_heap]. by rewrite Es, lookup_insert_eq. }
  exists s, m'. split; [done|]. split; [done|].
  pose proof (bumps_at n m' tid index s size 1 Ha Hsize ltac:(lia)) as H.
  specialize (H ltac:(unfold HEADER_SIZE, SEGMENT_SIZE; lia) Hat).
  case_match; [|done]. destruct H as (m'' & ? & _). eauto.
Qed.

Lemma bump_region_blocks_witness :
  ∃ s m', bump_slow_init (Some 4096) 1 0 64 (st conf0) = Ok (payload_start s, m') ∧
    ∃ m'', bumps 2 1 0 64 m' = Some (blocks s 64 1 2, m'').
Proof.
  assert (Hraw : fresh_raw (Some 4096) (heap (st conf0))).
  { split_and!; [lia|unfold SEGMENT_SIZE; pow2; lia|]. intros s Hs. exfalso. revert Hs.
    cbn [conf0 st heap world0 segs]. rewrite lookup_empty. intros [? Hx]. discriminate. }
  destruct (bump_region_blocks 4096 1 0 64 2 (st conf0) ltac:(lia) Hraw registered_world0)
    as (s & m' & E & _ & H).
  exists s, m'. split; [exact E|]. exact H.
Defined.

(** A [PairedStack] block freed by its owner in LIFO order is given back: the
    free rewinds the slot, so the next allocation returns the same address. *)
Theorem paired_rewind_reuses (tid index size s p : Z) (h : SegmentHeader) (m m1 : machine) :
  segs (heap m) !! s = Some h -> strategy h = PairedStack -> owner_tid h = tid ->
  slot_index h = index -> chunk_size h = size -> 0 <= size ->
  0 <= b_ptr (slot bump0 (tl_bumps m) (tid, index)) < 2 ^ 63 -> size < 4096 ->
  jit_bump tid index size m = Some (p, m1) ->
  ∃ m2, free_managed tid s p m1 = Ok m2 ∧
    slot bump0 (tl_bumps m2) (tid, index) = slot bump0 (tl_bumps m) (tid, index) ∧
    fst <$> jit_bump tid index size m2 = Some p.
Proof.
  intros Hh Hst Hown Hidx Hcs Hsz Hptr Hmax Hb. pose proof Hb as Hb'. unfold jit_bump in Hb.
  set (b := slot bump0 (tl_bumps m) (tid, index)) in *.
  destruct (u64 (b_ptr b + size) <? b_end b) eqn:E; [|done]. injection Hb as <- <-.
  unfold free_managed, header. cbn [heap set_bump]. rewrite Hh. cbn [of_option mbind res_bind].
  rewrite Hst, Hown, Z.eqb_refl. unfold paired_lifo_rewind, header. cbn [heap set_bump]. rewrite Hh.
  cbn [of_option mbind res_bind]. rewrite Hidx, slot_set_bump, Hcs. cbn [b_ptr b_end].
  rewrite u64_small by (pow2; lia). replace (b_ptr b + size - size) with (b_ptr b) by lia.
  rewrite Z.eqb_refl. unfold modify, header. cbn [heap set_bump]. rewrite Hh.
  cbn [of_option mbind res_bind mret res_ret]. eexists. split; [done|].
  assert (Eb : slot bump0 (tl_bumps (set_heap (update s (with_bump (b_ptr b) h) (heap m))
    (set_bump (tid, index) (mkBump (b_ptr b) (b_end b))
      (set_bump (tid, index) (mkBump (b_ptr b + size) (b_end b)) m)))) (tid, index) = b).
  { unfold slot. cbn. rewrite lookup_insert_eq. cbn. by destruct b. }
  split; [exact Eb|]. unfold jit_bump. cbn [heap set_heap tl_bumps set_bump] in Eb |- *.
  rewrite Eb, E. done.
Qed.

(** A paired slot with one block out. *)
Definition paired_demo : machine :=
  match paired_slow_init (Some 4096) 1 0 64 (st conf0) with Ok (_, m) => m | Trap _ => st conf0 end.

Lemma paired_rewind_reuses_witness :
  ∃ p m1 m2, jit_bump 1 0 64 paired_demo = Some (p, m1) ∧ free_managed 1 2097152 p m1 = Ok m2 ∧
    fst <$> jit_bump 1 0 64 m2 = Some p.
Proof.
  set (h := fresh_header PairedStack 0 0 64 1 2097152).
  assert (Hs : segs (heap paired_demo) !! 2097152 = Some (with_bump (2097152 + 64 + 64) h))
    by (vm_compute; reflexivity).
  assert (Hp : is_Some (fst <$> jit_bump 1 0 64 paired_demo)) by (exists 2097280; vm_compute; reflexivity).
  destruct (jit_bump 1 0 64 paired_demo) as [[p m1]|] eqn:E; [|destruct Hp; discriminate].
  destruct (paired_rewind_reuses 1 0 64 2097152 p _ paired_demo m1 Hs eq_refl eq_refl eq_refl eq_refl
    ltac:(lia) ltac:(vm_compute; split; [discriminate|reflexivity]) ltac:(lia) E) as (m2 & Hf & _ & Hj).
  exists p, m1, m2. split; [reflexivity|]. split; [exact Hf|exact Hj].
Defined.

(** ** Retiring a producer-consumer region *)

(** One thread takes a producer-consumer region of 4000-byte blocks, bumps it to
    exhaustion, refills, frees one block, and the reaper runs: the blocks taken,
    the live count the retirement stored, whether the region is still mapped
    after the sweep, and the live count after two frees without a sweep. *)
Definition pc_demo : res (nat * Z * bool * Z) :=
  '(p0, m) ← pc_refill (Some 4096) 1 0 4000 (st conf0);
  '(l, m) ← of_option Unmapped (bumps 523 1 0 4000 m);
  match jit_bump 1 0 4000 m with
  | Some _ => Trap AssertFailed
  | None =>
      '(_, m) ← pc_refill (Some 16777216) 1 0 4000 m;
      h ← header (seg_of p0) (heap m);
      m1 ← free_managed 1 (seg_of p0) p0 m;
      '(_, w) ← reaper_sweep Eager None 4096 (heap m1);
      m2 ← free_managed 1 (seg_of p0) (p0 + 4000) m1;
      h2 ← header (seg_of p0) (heap m2);
      mret (S (length l), live_chunks h, is_managed (seg_of p0) w, live_chunks h2)
  end.

(** [pc_refill] undercounts.  It derives the chunks served from
    [seg->bump_ptr], which only the initialiser writes (the routine advances the
    thread's slot), so a region with 524 blocks in the program's hands is retired
    with [live_chunks] 1: after one free the reaper unmaps it under the other
    523, and a second free before the sweep wraps the counter to 2^32 - 1. *)
Theorem pc_retire_undercounts : pc_demo = Ok (524%nat, 1, false, 2 ^ 32 - 1).
Proof. vm_compute. reflexivity. Qed.

Definition bump_slow_init_demo : option (ptr * machine) :=
  match bump_slow_init (Some 4096) 1 0 24 (st conf0) with Ok r => Some r | Trap _ => None end.

(** The bump paths do not round sizes up: a routine compiled for 24 bytes
    returns addresses that are not 16-byte aligned, which [malloc] guarantees
    (the internal arena's default is [alignof(max_align_t)]). *)
Theorem bump_blocks_misaligned :
  (λ p, p mod 16) <$> blocks 2097152 24 0 4 = [0; 8; 0; 8] ∧
  ∃ m', bump_slow_init (Some 4096) 1 0 24 (st conf0) = Ok (payload_start 2097152, m') ∧
    fst <$> jit_bump 1 0 24 m' = Some (payload_start 2097152 + 24).
Proof.
  split; [reflexivity|].
  assert (Hp : (fst <$> bump_slow_init_demo) = Some (payload_start 2097152)) by (vm_compute; reflexivity).
  assert (Hq : (bump_slow_init_demo ≫= λ pm, fst <$> jit_bump 1 0 24 pm.2) = Some (payload_start 2097152 + 24))
    by (vm_compute; reflexivity).
  unfold bump_slow_init_demo in *. destruct (bump_slow_init (Some 4096) 1 0 24 (st conf0)) as [[p m']|];
    [|discriminate]. injection Hp as ->. exists m'. split; [reflexivity|exact Hq].
Qed.
