(* ===== verification/Analysis.v ===== *)
(** * The online analysis ([src/src/analysis/analysis.h], [analysis.cpp])

    The background thread learns one summary per allocating call site from the
    event stream, decides when the site is stable and which strategy suits it,
    and watches for drift.  The summaries are the used prefix of the array.  What
    the analysis asks of the rest of the system is the interface [Backend]; the
    environment's knobs are a [Knobs] record. *)

From S2P Require Import Prelude Common Double Histogram Ks.

Inductive Phase := PreSpec | Compiled | Deopt.
Inductive LifetimeTag := Unknown | Reap | Hold.

#[export] Instance Phase_eq_dec : EqDecision Phase.
Proof. solve_decision. Defined.
#[export] Instance LifetimeTag_eq_dec : EqDecision LifetimeTag.
Proof. solve_decision. Defined.

Definition MAX_CALL_SITES : Z := 4096.
Definition STABLE_WINDOWS_DEFAULT : Z := 10.
Definition WINDOW_SIZE_DEFAULT : Z := 1000.
Definition KS_ALPHA_DEFAULT : double := literal 5 100.
Definition DEOPT_BLACKLIST_LIMIT_DEFAULT : Z := 3.
Definition LIFETIME_REAP_RATIO : double := literal 50 100.
Definition LIFETIME_HOLD_RATIO : double := literal 10 100.
Definition PC_TID_CONCENTRATION : double := literal 95 100.
Definition MULTI_CLASS_COVERAGE : double := literal 90 100.
Definition MULTI_CLASS_MAX : nat := 4.
Definition PAIRED_PAIR_RATIO : double := literal 95 100.
Definition PAIRED_LIFO_RATIO : double := literal 95 100.
Definition LIFO_DEPTH : nat := 16.

(** The picker's configuration; [forced] is the strategy override, read from the
    environment once, at its first use. *)
Record Knobs := mkKnobs {
  g_stable_windows : Z;
  g_window_size : Z;
  g_ks_alpha : double;
  g_deopt_blacklist_limit : Z;
  g_trace_only : bool;
  g_oracle_mode : bool;
  forced : Strategy;
}.

(** What [strtoul] and [strtod] read from the variables; [None] when unset. *)
Record Env := mkEnv {
  env_stable_windows : option Z;
  env_window_size : option Z;
  env_ks_alpha : option double;
  env_deopt_limit : option Z;
  env_trace_only : bool;
}.

Definition positive_or (d : Z) (v : option Z) : Z :=
  match v with Some n => if u32 n >? 0 then u32 n else d | None => d end.

Definition strategy_override (v : option string) : Strategy :=
  match v with
  | None => Generic
  | Some v =>
      if String.eqb v "bump" then BumpAlloc
      else if String.eqb v "freelist" then ThreadLocalFreeList
      else if String.eqb v "arena" then EpochArena else Generic
  end.

(** The knobs [init] leaves; it does not touch the oracle mode nor the cached
    strategy override. *)
Definition init (e : Env) (K : Knobs) : Knobs :=
  mkKnobs (positive_or STABLE_WINDOWS_DEFAULT (env_stable_windows e))
    (positive_or WINDOW_SIZE_DEFAULT (env_window_size e))
    (match env_ks_alpha e with
     | Some a => if dltb dzero a && dltb a (of_Z 1) then a else KS_ALPHA_DEFAULT
     | None => KS_ALPHA_DEFAULT
     end)
    (positive_or DEOPT_BLACKLIST_LIMIT_DEFAULT (env_deopt_limit e))
    (env_trace_only e) (g_oracle_mode K) (forced K).

Definition set_oracle_mode (on : bool) (K : Knobs) : Knobs :=
  mkKnobs (g_stable_windows K) (g_window_size K) (g_ks_alpha K) (g_deopt_blacklist_limit K) (g_trace_only K) on (forced K).

(** ** Per-site state *)

Record SizeWindow := mkWindow { hist : ExactHistogram; w_count : Z }.
Definition window_reset : SizeWindow := mkWindow hist0 0.
Definition full (K : Knobs) (w : SizeWindow) : bool := w_count w >=? g_window_size K.
Definition window_record (sz : Z) (w : SizeWindow) : SizeWindow :=
  mkWindow (Histogram.record sz (hist w)) (u32 (w_count w + 1)).

Record ThreadDist := mkDist { top_tid : Z; top_count : Z; d_total : Z }.
Definition dist0 : ThreadDist := mkDist 0 0 0.

(** Boyer-Moore majority vote over the thread ids. *)
Definition dist_record (tid : Z) (d : ThreadDist) : ThreadDist :=
  let t := u32 (d_total d + 1) in
  if (top_count d =? 0) || (tid =? top_tid d) then mkDist tid (u32 (top_count d + 1)) t
  else let c := u32 (top_count d - 1) in
       if c =? 0 then mkDist tid 1 t else mkDist (top_tid d) c t.

Record PairCandidate := mkPair { free_site : CallSiteID; pair_count : Z; lifo_count : Z }.

Record CallSiteSummary := mkSummary {
  s_id : CallSiteID;
  s_phase : Phase;
  event_count : Z;
  free_count : Z;
  stable_windows : Z;
  deopt_count : Z;
  blacklisted : bool;
  deopt_reason : DeoptReason;
  lifetime : LifetimeTag;
  first_compile_events : Z;
  alloc_dist : ThreadDist;
  free_dist : ThreadDist;
  window0 : SizeWindow;
  window1 : SizeWindow;
  active : Z;
  classes : list Mode;
  lifo_stack : list ptr;
  top_pair : PairCandidate;
  baseline : ExactHistogram;
  post_window : SizeWindow;
  candidate : Strategy;
  code_page : ptr;
}.

(** Field updates. *)
Definition set_s_phase (v : Phase) (s : CallSiteSummary) : CallSiteSummary :=
  let 'mkSummary x0 _ x2 x3 x4 x5 x6 x7 x8 x9 x10 x11 x12 x13 x14 x15 x16 x17 x18 x19 x20 x21 := s in
  mkSummary x0 v x2 x3 x4 x5 x6 x7 x8 x9 x10 x11 x12 x13 x14 x15 x16 x17 x18 x19 x20 x21.
Definition set_event_count (v : Z) (s : CallSiteSummary) : CallSiteSummary :=
  let 'mkSummary x0 x1 _ x3 x4 x5 x6 x7 x8 x9 x10 x11 x12 x13 x14 x15 x16 x17 x18 x19 x20 x21 := s in
  mkSummary x0 x1 v x3 x4 x5 x6 x7 x8 x9 x10 x11 x12 x13 x14 x15 x16 x17 x18 x19 x20 x21.
Definition set_free_count (v : Z) (s : CallSiteSummary) : CallSiteSummary :=
  let 'mkSummary x0 x1 x2 _ x4 x5 x6 x7 x8 x9 x10 x11 x12 x13 x14 x15 x16 x17 x18 x19 x20 x21 := s in
  mkSummary x0 x1 x2 v x4 x5 x6 x7 x8 x9 x10 x11 x12 x13 x14 x15 x16 x17 x18 x19 x20 x21.
Definition set_stable_windows (v : Z) (s : CallSiteSummary) : CallSiteSummary :=
  let 'mkSummary x0 x1 x2 x3 _ x5 x6 x7 x8 x9 x10 x11 x12 x13 x14 x15 x16 x17 x18 x19 x20 x21 := s in
  mkSummary x0 x1 x2 x3 v x5 x6 x7 x8 x9 x10 x11 x12 x13 x14 x15 x16 x17 x18 x19 x20 x21.
Definition set_deopt_count (v : Z) (s : CallSiteSummary) : CallSiteSummary :=
  let 'mkSummary x0 x1 x2 x3 x4 _ x6 x7 x8 x9 x10 x11 x12 x13 x14 x15 x16 x17 x18 x19 x20 x21 := s in
  mkSummary x0 x1 x2 x3 x4 v x6 x7 x8 x9 x10 x11 x12 x13 x14 x15 x16 x17 x18 x19 x20 x21.
Definition set_blacklisted (v : bool) (s : CallSiteSummary) : CallSiteSummary :=
  let 'mkSummary x0 x1 x2 x3 x4 x5 _ x7 x8 x9 x10 x11 x12 x13 x14 x15 x16 x17 x18 x19 x20 x21 := s in
  mkSummary x0 x1 x2 x3 x4 x5 v x7 x8 x9 x10 x11 x12 x13 x14 x15 x16 x17 x18 x19 x20 x21.
Definition set_deopt_reason (v : DeoptReason) (s : CallSiteSummary) : CallSiteSummary :=
  let 'mkSummary x0 x1 x2 x3 x4 x5 x6 _ x8 x9 x10 x11 x12 x13 x14 x15 x16 x17 x18 x19 x20 x21 := s in
  mkSummary x0 x1 x2 x3 x4 x5 x6 v x8 x9 x10 x11 x12 x13 x14 x15 x16 x17 x18 x19 x20 x21.
Definition set_lifetime (v : LifetimeTag) (s : CallSiteSummary) : CallSiteSummary :=
  let 'mkSummary x0 x1 x2 x3 x4 x5 x6 x7 _ x9 x10 x11 x12 x13 x14 x15 x16 x17 x18 x19 x20 x21 := s in
  mkSummary x0 x1 x2 x3 x4 x5 x6 x7 v x9 x10 x11 x12 x13 x14 x15 x16 x17 x18 x19 x20 x21.
Definition set_first_compile_events (v : Z) (s : CallSiteSummary) : CallSiteSummary :=
  let 'mkSummary x0 x1 x2 x3 x4 x5 x6 x7 x8 _ x10 x11 x12 x13 x14 x15 x16 x17 x18 x19 x20 x21 := s in
  mkSummary x0 x1 x2 x3 x4 x5 x6 x7 x8 v x10 x11 x12 x13 x14 x15 x16 x17 x18 x19 x20 x21.
Definition set_alloc_dist (v : ThreadDist) (s : CallSiteSummary) : CallSiteSummary :=
  let 'mkSummary x0 x1 x2 x3 x4 x5 x6 x7 x8 x9 _ x11 x12 x13 x14 x15 x16 x17 x18 x19 x20 x21 := s in
  mkSummary x0 x1 x2 x3 x4 x5 x6 x7 x8 x9 v x11 x12 x13 x14 x15 x16 x17 x18 x19 x20 x21.
Definition set_free_dist (v : ThreadDist) (s : CallSiteSummary) : CallSiteSummary :=
  let 'mkSummary x0 x1 x2 x3 x4 x5 x6 x7 x8 x9 x10 _ x12 x13 x14 x15 x16 x17 x18 x19 x20 x21 := s in
  mkSummary x0 x1 x2 x3 x4 x5 x6 x7 x8 x9 x10 v x12 x13 x14 x15 x16 x17 x18 x19 x20 x21.
Definition set_window0 (v : SizeWindow) (s : CallSiteSummary) : CallSiteSummary :=
  let 'mkSummary x0 x1 x2 x3 x4 x5 x6 x7 x8 x9 x10 x11 _ x13 x14 x15 x16 x17 x18 x19 x20 x21 := s in
  mkSummary x0 x1 x2 x3 x4 x5 x6 x7 x8 x9 x10 x11 v x13 x14 x15 x16 x17 x18 x19 x20 x21.
Definition set_window1 (v : SizeWindow) (s : CallSiteSummary) : CallSiteSummary :=
  let 'mkSummary x0 x1 x2 x3 x4 x5 x6 x7 x8 x9 x10 x11 x12 _ x14 x15 x16 x17 x18 x19 x20 x21 := s in
  mkSummary x0 x1 x2 x3 x4 x5 x6 x7 x8 x9 x10 x11 x12 v x14 x15 x16 x17 x18 x19 x20 x21.
Definition set_active (v : Z) (s : CallSiteSummary) : CallSiteSummary :=
  let 'mkSummary x0 x1 x2 x3 x4 x5 x6 x7 x8 x9 x10 x11 x12 x13 _ x15 x16 x17 x18 x19 x20 x21 := s in
  mkSummary x0 x1 x2 x3 x4 x5 x6 x7 x8 x9 x10 x11 x12 x13 v x15 x16 x17 x18 x19 x20 x21.
Definition set_classes (v : list Mode) (s : CallSiteSummary) : CallSiteSummary :=
  let 'mkSummary x0 x1 x2 x3 x4 x5 x6 x7 x8 x9 x10 x11 x12 x13 x14 _ x16 x17 x18 x19 x20 x21 := s in
  mkSummary x0 x1 x2 x3 x4 x5 x6 x7 x8 x9 x10 x11 x12 x13 x14 v x16 x17 x18 x19 x20 x21.
Definition set_lifo_stack (v : list ptr) (s : CallSiteSummary) : CallSiteSummary :=
  let 'mkSummary x0 x1 x2 x3 x4 x5 x6 x7 x8 x9 x10 x11 x12 x13 x14 x15 _ x17 x18 x19 x20 x21 := s in
  mkSummary x0 x1 x2 x3 x4 x5 x6 x7 x8 x9 x10 x11 x12 x13 x14 x15 v x17 x18 x19 x20 x21.
Definition set_top_pair (v : PairCandidate) (s : CallSiteSummary) : CallSiteSummary :=
  let 'mkSummary x0 x1 x2 x3 x4 x5 x6 x7 x8 x9 x10 x11 x12 x13 x14 x15 x16 _ x18 x19 x20 x21 := s in
  mkSummary x0 x1 x2 x3 x4 x5 x6 x7 x8 x9 x10 x11 x12 x13 x14 x15 x16 v x18 x19 x20 x21.
Definition set_baseline (v : ExactHistogram) (s : CallSiteSummary) : CallSiteSummary :=
  let 'mkSummary x0 x1 x2 x3 x4 x5 x6 x7 x8 x9 x10 x11 x12 x13 x14 x15 x16 x17 _ x19 x20 x21 := s in
  mkSummary x0 x1 x2 x3 x4 x5 x6 x7 x8 x9 x10 x11 x12 x13 x14 x15 x16 x17 v x19 x20 x21.
Definition set_post_window (v : SizeWindow) (s : CallSiteSummary) : CallSiteSummary :=
  let 'mkSummary x0 x1 x2 x3 x4 x5 x6 x7 x8 x9 x10 x11 x12 x13 x14 x15 x16 x17 x18 _ x20 x21 := s in
  mkSummary x0 x1 x2 x3 x4 x5 x6 x7 x8 x9 x10 x11 x12 x13 x14 x15 x16 x17 x18 v x20 x21.
Definition set_candidate (v : Strategy) (s : CallSiteSummary) : CallSiteSummary :=
  let 'mkSummary x0 x1 x2 x3 x4 x5 x6 x7 x8 x9 x10 x11 x12 x13 x14 x15 x16 x17 x18 x19 _ x21 := s in
  mkSummary x0 x1 x2 x3 x4 x5 x6 x7 x8 x9 x10 x11 x12 x13 x14 x15 x16 x17 x18 x19 v x21.
Definition set_code_page (v : ptr) (s : CallSiteSummary) : CallSiteSummary :=
  let 'mkSummary x0 x1 x2 x3 x4 x5 x6 x7 x8 x9 x10 x11 x12 x13 x14 x15 x16 x17 x18 x19 x20 _ := s in
  mkSummary x0 x1 x2 x3 x4 x5 x6 x7 x8 x9 x10 x11 x12 x13 x14 x15 x16 x17 x18 x19 x20 v.

Definition summary0 (id : CallSiteID) : CallSiteSummary :=
  mkSummary id PreSpec 0 0 0 0 false NoReason Unknown 0 dist0 dist0 window_reset window_reset 0
    [] [] (mkPair 0 0 0) hist0 window_reset Generic 0.

(** [reset_state]: the used prefix is cleared. *)
Definition reset_state (g_summaries : list CallSiteSummary) : list CallSiteSummary := [].

(** [windows[k]], [k] 0 or 1. *)
Definition window (k : Z) (s : CallSiteSummary) : SizeWindow := if k =? 0 then window0 s else window1 s.
Definition set_window (k : Z) (w : SizeWindow) (s : CallSiteSummary) : CallSiteSummary :=
  if k =? 0 then set_window0 w s else set_window1 w s.

(** [active = 1 - active; windows[active].reset()]. *)
Definition flip_window (s : CallSiteSummary) : CallSiteSummary :=
  let a := u8 (1 - active s) in set_window a window_reset (set_active a s).

(** ** The rest of the system *)

(** [codegen::RoutineSpec]. *)
Record RoutineSpec := mkSpec {
  spec_id : CallSiteID;
  spec_strategy : Strategy;
  spec_size : Z;
  spec_class_sizes : list Z;
}.

(** What the analysis calls: the segment lookup of the pointer an event frees, and
    the compiler (a null result is 0).  Segments come and go and the compiler does
    not answer a specification twice alike, so an answer may depend on the event, or
    on the site's event count when the routine is asked for. *)
Class Backend := {
  managed : AllocEvent -> bool;
  site_of : AllocEvent -> CallSiteID;
  compile : Z -> RoutineSpec -> ptr;
}.

(** No lookup of the address finds a segment. *)
Definition unmanaged {B : Backend} (p : ptr) : Prop := ∀ ev, ev_ptr ev = p -> managed ev = false.

(** ** Deciding *)

Definition ratio (a b : Z) : double := ddiv (of_Z a) (of_Z b).

Definition lifetime_of (s : CallSiteSummary) : LifetimeTag :=
  if event_count s >? 0 then
    let r := ratio (free_count s) (event_count s) in
    if dleb LIFETIME_REAP_RATIO r then Reap
    else if dltb r LIFETIME_HOLD_RATIO then Hold else Unknown
  else lifetime s.

Definition concentrated (d : ThreadDist) : bool :=
  (d_total d >? 0) && dleb PC_TID_CONCENTRATION (ratio (top_count d) (d_total d)).

Definition pc_pattern (s : CallSiteSummary) : bool :=
  concentrated (alloc_dist s) && concentrated (free_dist s) &&
  negb (top_tid (alloc_dist s) =? top_tid (free_dist s)).

Definition paired_pattern (s : CallSiteSummary) : bool :=
  if (event_count s >? 0) && (pair_count (top_pair s) >? 0) then
    dleb PAIRED_PAIR_RATIO (ratio (pair_count (top_pair s)) (event_count s)) &&
    dleb PAIRED_LIFO_RATIO (ratio (lifo_count (top_pair s)) (pair_count (top_pair s)))
  else false.

(** The strategy picked for a stable site, after its lifetime and classes. *)
Definition pick (K : Knobs) (s : CallSiteSummary) : Strategy :=
  let h := hist (window (active s) s) in
  if negb (bool_decide (forced K = Generic)) then forced K
  else if paired_pattern s then PairedStack
  else if pc_pattern s then ProducerConsumer
  else if is_monomorphic (literal 95 100) h then
    if negb (bool_decide (lifetime s = Hold)) && (dominant_size h >=? 8)
    then ThreadLocalFreeList else BumpAlloc
  else if (2 <=? length (classes s))%nat then MultiSizeFreeList
  else ThreadLocalFreeList.

(** The summary with everything the specialization learns. *)
Definition learn (K : Knobs) (s : CallSiteSummary) : CallSiteSummary :=
  let s := set_baseline (hist (window (active s) s)) s in
  let s := set_lifetime (lifetime_of s) s in
  let s := set_classes (top_k_modes MULTI_CLASS_MAX MULTI_CLASS_COVERAGE (hist (window (active s) s))) s in
  let s := set_candidate (pick K s) s in
  let s := set_s_phase Compiled s in
  if first_compile_events s =? 0 then set_first_compile_events (event_count s) s else s.

Definition spec_of (s : CallSiteSummary) : RoutineSpec :=
  mkSpec (s_id s) (candidate s) (dominant_size (hist (window (active s) s)))
    (if bool_decide (candidate s = MultiSizeFreeList) then size <$> classes s else []).

(** A full PreSpec window: the new summary, and the routine to install. *)
Definition advance_prespec {B : Backend} (K : Knobs) (s : CallSiteSummary)
  : CallSiteSummary * option (CallSiteID * ptr) :=
  let prev := window (u8 (1 - active s)) s in
  let stable := (w_count prev >? 0) && ks_stable (hist (window (active s) s)) (hist prev) (g_ks_alpha K) in
  if stable then
    let s := set_stable_windows (u32 (stable_windows s + 1)) s in
    if stable_windows s >=? g_stable_windows K then
      if blacklisted s || g_trace_only K
      then (flip_window (set_stable_windows 0 s), None)
      else
        let s := learn K s in
        let routine := compile (event_count s) (spec_of s) in
        if routine =? 0 then (s, None)
        else (set_code_page routine s, Some (s_id s, routine))
    else (flip_window s, None)
  else (flip_window (set_stable_windows 0 s), None).

Definition check_postspec (K : Knobs) (s : CallSiteSummary) : CallSiteSummary :=
  if g_oracle_mode K then set_post_window window_reset s
  else
    let s :=
      if negb (ks_stable (hist (post_window s)) (baseline s) (g_ks_alpha K)) then
        let s := set_s_phase Deopt s in
        let s := set_deopt_reason SizeDrift s in
        let s := set_stable_windows 0 s in
        set_active 0 (set_window1 window_reset (set_window0 window_reset s))
      else s in
    set_post_window window_reset s.

(** ** Events *)

(** The ring of the last [LIFO_DEPTH] outstanding pointers. *)
Definition lifo_push (p : ptr) (l : list ptr) : list ptr :=
  if (length l <? LIFO_DEPTH)%nat then l ++ [p] else drop 1 l ++ [p].

Definition lifo_top (s : CallSiteSummary) (p : ptr) : bool :=
  match last (lifo_stack s) with Some q => q =? p | None => false end.

(** What every allocation event updates first. *)
Definition observe_alloc (ev : AllocEvent) (s : CallSiteSummary) : CallSiteSummary :=
  let s := set_event_count (u64 (event_count s + 1)) s in
  let s := set_alloc_dist (dist_record (ev_thread_id ev) (alloc_dist s)) s in
  let s := if ev_ptr ev =? 0 then s else set_lifo_stack (lifo_push (ev_ptr ev) (lifo_stack s)) s in
  if bool_decide (s_phase s = Deopt) then set_s_phase PreSpec s else s.

(** An allocation event, on its site's summary. *)
Definition on_alloc {B : Backend} (K : Knobs) (ev : AllocEvent) (s : CallSiteSummary)
  : CallSiteSummary * option (CallSiteID * ptr) :=
  let s := observe_alloc ev s in
  if bool_decide (s_phase s = PreSpec) then
    let s := set_window (active s) (window_record (ev_size ev) (window (active s) s)) s in
    if full K (window (active s) s) then advance_prespec K s else (s, None)
  else
    let s := set_post_window (window_record (ev_size ev) (post_window s)) s in
    (if full K (post_window s) then check_postspec K s else s, None).

(** Boyer-Moore majority over the freeing sites. *)
Definition pair_record (site : CallSiteID) (p : PairCandidate) : PairCandidate :=
  if (pair_count p =? 0) || (free_site p =? site)
  then mkPair site (u32 (pair_count p + 1)) (lifo_count p)
  else let c := u32 (pair_count p - 1) in
       if c =? 0 then mkPair site 1 0 else mkPair (free_site p) c (lifo_count p).

(** A free event, on the allocating site's summary. *)
Definition on_free (seg_managed : bool) (ev : AllocEvent) (s : CallSiteSummary) : CallSiteSummary :=
  let s := set_free_count (u64 (free_count s + 1)) s in
  let s := set_free_dist (dist_record (ev_thread_id ev) (free_dist s)) s in
  if seg_managed then s else
  let s := set_top_pair (pair_record (ev_call_site ev) (top_pair s)) s in
  if lifo_top s (ev_ptr ev) then
    let s := set_lifo_stack (removelast (lifo_stack s)) s in
    if free_site (top_pair s) =? ev_call_site ev
    then set_top_pair (mkPair (free_site (top_pair s)) (pair_count (top_pair s))
           (u32 (lifo_count (top_pair s) + 1))) s
    else s
  else s.

(** ** The table of summaries *)

Fixpoint find_index (f : CallSiteSummary -> bool) (l : list CallSiteSummary) (i : nat) : option nat :=
  match l with
  | [] => None
  | s :: l => if f s then Some i else find_index f l (S i)
  end.

Definition find_site (id : CallSiteID) (l : list CallSiteSummary) : option nat :=
  find_index (λ s, s_id s =? id) l 0.

(** [find_or_create]: the index, and the table. *)
Definition find_or_create (id : CallSiteID) (l : list CallSiteSummary) : option nat * list CallSiteSummary :=
  match find_site id l with
  | Some i => (Some i, l)
  | None =>
      if Z.of_nat (length l) >=? MAX_CALL_SITES then (None, l)
      else (Some (length l), l ++ [summary0 id])
  end.

(** [process_event]: the table, and the routine to install. *)
Definition process_event {B : Backend} (K : Knobs) (ev : AllocEvent) (l : list CallSiteSummary)
  : list CallSiteSummary * option (CallSiteID * ptr) :=
  if ev_size ev =? 0 then
    if ev_ptr ev =? 0 then (l, None) else
    let seg_managed := managed ev in
    let (target, l) :=
      if seg_managed then find_or_create (site_of ev) l
      else (find_index (λ s, lifo_top s (ev_ptr ev)) l 0, l) in
    match target with
    | None => (l, None)
    | Some i => (alter (on_free seg_managed ev) i l, None)
    end
  else if ev_size ev >=? MAX_SIZE then (l, None)
  else
    let (target, l) := find_or_create (ev_call_site ev) l in
    match target with
    | None => (l, None)
    | Some i =>
        match l !! i with
        | None => (l, None)
        | Some s => let (s, inst) := on_alloc K ev s in (<[i := s]> l, inst)
        end
    end.

(** [reset_call_site]: a deopt reported by the compiled routine. *)
Definition reset_summary (K : Knobs) (reason : DeoptReason) (s : CallSiteSummary) : CallSiteSummary :=
  let s := set_deopt_count (u32 (deopt_count s + 1)) s in
  let s := if deopt_count s >=? g_deopt_blacklist_limit K then set_blacklisted true s else s in
  let s := if negb (bool_decide (reason = Other)) || bool_decide (deopt_reason s = NoReason)
           then set_deopt_reason reason s else s in
  let s := set_s_phase Deopt s in
  let s := set_code_page 0 s in
  let s := set_stable_windows 0 s in
  set_active 0 (set_window1 window_reset (set_window0 window_reset s)).

Definition reset_call_site (K : Knobs) (id : CallSiteID) (reason : DeoptReason) (l : list CallSiteSummary)
  : list CallSiteSummary :=
  match find_site id l with
  | Some i => alter (reset_summary K reason) i l
  | None => l
  end.

(** ** Queries *)

Definition query {A} (f : CallSiteSummary -> A) (d : A) (id : CallSiteID) (l : list CallSiteSummary) : A :=
  match find_site id l with
  | Some i => match l !! i with Some s => f s | None => d end
  | None => d
  end.

Definition get_phase := query s_phase PreSpec.
Definition get_candidate_strategy := query candidate Generic.
Definition get_lifetime_tag := query lifetime Unknown.
Definition get_deopt_reason := query deopt_reason NoReason.
Definition reap_predicate (id : CallSiteID) (l : list CallSiteSummary) : bool :=
  query (λ s, bool_decide (lifetime s = Reap)) false id l.
Definition thp_wants_huge (id : CallSiteID) (l : list CallSiteSummary) : bool :=
  bool_decide (get_lifetime_tag id l = Hold).

(** [capturable]: total and captured events. *)
Definition capturable (l : list CallSiteSummary) : Z * Z :=
  foldl (λ r s, (u64 (r.1 + event_count s),
                 if bool_decide (s_phase s = Compiled) then u64 (r.2 + event_count s) else r.2))
        (0, 0) l.

(** ** The background thread's work as a sequence

    The thread processes the drained events and applies the resets of the
    compiled routines that deoptimized, one at a time. *)

Inductive op :=
  | Event (ev : AllocEvent)
  | Reset (id : CallSiteID) (reason : DeoptReason).

Definition apply_op {B : Backend} (K : Knobs) (o : op) (l : list CallSiteSummary)
  : list CallSiteSummary * option (CallSiteID * ptr) :=
  match o with
  | Event ev => process_event K ev l
  | Reset id reason => (reset_call_site K id reason l, None)
  end.

(** The final table, and the routines installed, in order. *)
Fixpoint run_ops {B : Backend} (K : Knobs) (ops : list op) (l : list CallSiteSummary)
  : list CallSiteSummary * list (CallSiteID * ptr) :=
  match ops with
  | [] => (l, [])
  | o :: ops =>
      let (l, i) := apply_op K o l in
      let (l, rest) := run_ops K ops l in (l, option_list i ++ rest)
  end.

(** A concrete backend: nothing is segment-managed, and the compiler places every
    routine at the same address. *)
Definition plain_backend : Backend :=
  {| managed _ := false; site_of _ := 0; compile _ _ := 4096 |}.

(** [fields] computes field accesses and updates, and nothing else. *)
Ltac fields :=
  cbn [s_id s_phase event_count free_count stable_windows deopt_count blacklisted deopt_reason
       lifetime first_compile_events alloc_dist free_dist window0 window1 active classes lifo_stack
       top_pair baseline post_window candidate code_page
       set_s_phase set_event_count set_free_count set_stable_windows set_deopt_count
       set_blacklisted set_deopt_reason set_lifetime set_first_compile_events set_alloc_dist
       set_free_dist set_window0 set_window1 set_active set_classes set_lifo_stack set_top_pair
       set_baseline set_post_window set_candidate set_code_page
       hist w_count free_site pair_count lifo_count fst snd].

Ltac summary s :=
  destruct s as [id_ ph_ ec_ fc_ sw_ dc_ bl_ dr_ lt_ fe_ ad_ fd_ w0_ w1_ ac_ cl_ ls_ tp_ bs_ pw_ ca_ cp_].

(** ** Lifting a property of one summary to the table *)

Lemma find_index_Some f l i j :
  find_index f l i = Some j -> ∃ s, (i <= j)%nat ∧ l !! (j - i)%nat = Some s ∧ f s = true.
Proof.
  revert i. induction l as [|s l IH]; intros i; simpl; [done|].
  destruct (f s) eqn:E; intros H; simplify_eq.
  - exists s. rewrite Nat.sub_diag. split_and!; [lia|done|done].
  - apply IH in H as (s' & ? & Hl & ?). exists s'.
    replace (j - i)%nat with (S (j - S i)) by lia. split_and!; [lia|done|done].
Qed.

Lemma find_index_None f l i : find_index f l i = None -> Forall (λ s, f s = false) l.
Proof. revert i. induction l as [|s l IH]; intros i; simpl; [by constructor|]. case_match; [done|]. eauto. Qed.

Lemma find_site_Some id l i :
  find_site id l = Some i -> ∃ s, l !! i = Some s ∧ s_id s = id.
Proof.
  intros (s & _ & Hl & E)%find_index_Some. exists s. rewrite Nat.sub_0_r in Hl. zb. done.
Qed.

Lemma find_site_None id l : find_site id l = None -> id ∉ s_id <$> l.
Proof.
  intros H%find_index_None. intros (s & -> & Hs)%list_elem_of_fmap.
  rewrite Forall_forall in H. specialize (H s Hs). simpl in H. zb. done.
Qed.

Lemma find_or_create_spec id l :
  match find_or_create id l with
  | (Some i, l') => (∃ s, l' !! i = Some s ∧ s_id s = id) ∧
      (l' = l ∨ l' = l ++ [summary0 id] ∧ id ∉ s_id <$> l ∧ Z.of_nat (length l) < MAX_CALL_SITES)
  | (None, l') => l' = l
  end.
Proof.
  unfold find_or_create. destruct (find_site id l) as [i|] eqn:E.
  - split; [by apply find_site_Some|by left].
  - destruct (_ >=? _) eqn:Hc; [done|]. zb. split; [|by eauto using find_site_None].
    exists (summary0 id). split; [|done]. by apply list_lookup_middle.
Qed.

Section table.
  Context {B : Backend} (K : Knobs) (Q : AllocEvent -> Prop) (P : nat -> CallSiteSummary -> Prop).
  Hypothesis P_new : ∀ id, P 0 (summary0 id).
  Hypothesis P_mono : ∀ n s, P n s -> P (S n) s.
  Hypothesis P_alloc : ∀ n ev s, Q ev -> ev_size ev ≠ 0 -> ev_size ev < MAX_SIZE ->
    P n s -> P (S n) (on_alloc K ev s).1.
  Hypothesis P_free : ∀ n m ev s,
    (m = false -> lifo_top s (ev_ptr ev) = true) -> P n s -> P (S n) (on_free m ev s).
  Hypothesis P_reset : ∀ n r s, P n s -> P (S n) (reset_summary K r s).

Lemma table_new n id : P n (summary0 id).
Proof. induction n; auto. Qed.

Lemma table_created n id l : Forall (P n) l -> Forall (P n) (find_or_create id l).2.
Proof.
  intros Hl. pose proof (find_or_create_spec id l) as H.
  destruct (find_or_create id l) as [[i|] l']; simpl; [|by subst].
  destruct H as [_ [->|(-> & _)]]; [done|]. apply Forall_app. auto using table_new.
Qed.

Lemma Forall_alter_at (P0 P1 : CallSiteSummary -> Prop) (f : CallSiteSummary -> CallSiteSummary) i l :
  Forall P0 l -> (∀ s, P0 s -> P1 s) -> (∀ s, l !! i = Some s -> P0 s -> P1 (f s)) -> Forall P1 (alter f i l).
Proof.
  intros Hl HQ Hf. apply Forall_lookup. intros j s Hj.
  destruct (decide (i = j)) as [<-|Hne].
  - rewrite list_lookup_alter_eq in Hj. apply fmap_Some in Hj as (s' & Hs' & ->).
    apply Hf; [done|]. by eapply Forall_lookup_1.
  - rewrite list_lookup_alter_ne in Hj by done. apply HQ. by eapply Forall_lookup_1.
Qed.

(** The events among the operations satisfy [Q]. *)
Definition op_ok (o : op) : Prop := match o with Event ev => Q ev | Reset _ _ => True end.

Lemma table_step n o l : op_ok o -> Forall (P n) l -> Forall (P (S n)) (apply_op K o l).1.
Proof.
  intros Ho Hl. assert (Hl' : ∀ l, Forall (P n) l -> Forall (P (S n)) l)
    by (intros ? H; by eapply Forall_impl; [exact H|auto]).
  destruct o as [ev|id r]; simpl; [unfold process_event|unfold reset_call_site].
  - destruct (Z.eqb_spec (ev_size ev) 0) as [|Hz].
    + destruct (ev_ptr ev =? 0); [simpl; auto|].
      destruct (managed ev) eqn:Em.
      * pose proof (table_created n (site_of ev) l Hl) as Hc.
        destruct (find_or_create (site_of ev) l) as [[i|] l']; simpl in *; [|auto].
        eapply Forall_alter_at; [exact Hc|auto|]. intros. by apply P_free.
      * destruct (find_index _ l 0) as [i|] eqn:E; simpl; [|auto].
        eapply Forall_alter_at; [exact Hl|auto|]. intros s Hs HP. apply P_free; [|done].
        apply find_index_Some in E as (s' & _ & Hs' & E). rewrite Nat.sub_0_r in Hs'. congruence.
    + destruct (ev_size ev >=? MAX_SIZE) eqn:Em; [simpl; auto|]. zb.
      pose proof (table_created n (ev_call_site ev) l Hl) as Hc.
      destruct (find_or_create (ev_call_site ev) l) as [[i|] l']; simpl in *; [|auto].
      destruct (l' !! i) as [s|] eqn:Ei; simpl; [|auto].
      pose proof (P_alloc n ev s Ho Hz Em (Forall_lookup_1 _ _ _ _ Hc Ei)) as Ha.
      destruct (on_alloc K ev s) as [s' inst]. simpl in *. apply Forall_insert; auto.
  - destruct (find_site id l) as [i|]; [|auto].
    eapply Forall_alter_at; [exact Hl|auto|auto].
Qed.

Lemma table_run n ops l :
  Forall op_ok ops -> Forall (P n) l -> Forall (P (n + length ops)%nat) (run_ops K ops l).1.
Proof.
  intros Ho. revert n l. induction Ho as [|o ops Ho _ IH]; intros n l Hl; simpl; [by rewrite Nat.add_0_r|].
  pose proof (table_step n o l Ho Hl) as Hs. destruct (apply_op K o l) as [l' i]. simpl in Hs.
  specialize (IH _ _ Hs). destruct (run_ops K ops l') as [l'' rest]. simpl in *.
  by rewrite Nat.add_succ_r.
Qed.
End table.

(** ** What the decisions leave alone *)

Definition identity (s : CallSiteSummary) :=
  (s_id s, free_count s, deopt_count s, blacklisted s, free_dist s, top_pair s).
Definition frame (s : CallSiteSummary) :=
  (identity s, event_count s, alloc_dist s, lifo_stack s).

Lemma frame_flip s : frame (flip_window s) = frame s.
Proof. unfold flip_window, set_window. by case_match; destruct s. Qed.

Lemma frame_stable v s : frame (set_stable_windows v s) = frame s.
Proof. by destruct s. Qed.

Lemma frame_set_window k w s : frame (set_window k w s) = frame s.
Proof. unfold set_window. by case_match; destruct s. Qed.

Lemma frame_learn K s : frame (learn K s) = frame s.
Proof. unfold learn. by case_match; destruct s. Qed.

Lemma event_count_learn K s : event_count (learn K s) = event_count s.
Proof. exact (f_equal (λ x, x.1.1.2) (frame_learn K s)). Qed.

Lemma frame_code_page v s : frame (set_code_page v s) = frame s.
Proof. by destruct s. Qed.

Lemma observe_spec ev s :
  frame (observe_alloc ev s) =
  (identity s, u64 (event_count s + 1), dist_record (ev_thread_id ev) (alloc_dist s),
   if ev_ptr ev =? 0 then lifo_stack s else lifo_push (ev_ptr ev) (lifo_stack s)).
Proof. unfold observe_alloc. summary s; fields. by repeat case_match. Qed.

Create Rewrite HintDb frame.
#[export] Hint Rewrite frame_flip frame_stable frame_set_window frame_learn frame_code_page : frame.

Lemma frame_advance {B : Backend} K s : frame (advance_prespec K s).1 = frame s.
Proof. unfold advance_prespec. repeat case_match; simpl; by autorewrite with frame. Qed.

Lemma frame_check K s : frame (check_postspec K s) = frame s.
Proof. unfold check_postspec. destruct (g_oracle_mode K); [by destruct s|]. by case_match; destruct s. Qed.

Lemma frame_alloc {B : Backend} K ev s :
  frame (on_alloc K ev s).1 =
  (identity s, u64 (event_count s + 1), dist_record (ev_thread_id ev) (alloc_dist s),
   if ev_ptr ev =? 0 then lifo_stack s else lifo_push (ev_ptr ev) (lifo_stack s)).
Proof.
  unfold on_alloc. rewrite <- observe_spec. generalize (observe_alloc ev s). clear s. intros s.
  case_match.
  - case_match; [rewrite frame_advance|]; apply frame_set_window.
  - simpl. case_match; [rewrite frame_check|]; by destruct s.
Qed.

Lemma identity_alloc {B : Backend} K ev s : identity (on_alloc K ev s).1 = identity s.
Proof. exact (f_equal (λ x, x.1.1.1) (frame_alloc K ev s)). Qed.

Lemma last_lifo_push p l : last (lifo_push p l) = Some p.
Proof. unfold lifo_push. case_match; apply last_snoc. Qed.

(** No frees: the ratio is zero, below the hold threshold. *)
Lemma lifetime_no_frees s :
  0 < event_count s < 2 ^ 64 -> free_count s = 0 -> lifetime_of s = Hold.
Proof.
  intros Hn Hf. unfold lifetime_of, ratio. rewrite Hf, Z.gtb_ltb, (proj2 (Z.ltb_lt _ _)) by lia.
  destruct (of_Z_normal _ Hn) as (k & (m & -> & _) & _). by vm_compute.
Qed.

(** ** One site through an operation

    The table keeps a site's summary at its index; an operation either leaves it
    or acts on it in one of three ways. *)

Lemma find_index_prefix id (l l' : list CallSiteSummary) i j :
  s_id <$> l `prefix_of` s_id <$> l' ->
  find_index (λ s, s_id s =? id) l i = Some j -> find_index (λ s, s_id s =? id) l' i = Some j.
Proof.
  revert l' i. induction l as [|s l IH]; intros l' i Hp; simpl; [done|].
  destruct l' as [|s' l']; csimpl in *; [by apply prefix_nil_not in Hp|].
  pose proof (prefix_cons_inv_1 _ _ _ _ Hp) as ->. apply prefix_cons_inv_2 in Hp.
  case_match; [done|]. by apply IH.
Qed.

Lemma ids_alter (f : CallSiteSummary -> CallSiteSummary) (i : nat) (l : list CallSiteSummary) :
  (∀ s, s_id (f s) = s_id s) -> s_id <$> alter f i l = s_id <$> l.
Proof.
  intros Hf. revert i. induction l as [|s l IH]; intros [|i]; csimpl; [done..|by rewrite Hf|].
  f_equal. apply IH.
Qed.

Lemma s_id_free m ev s : s_id (on_free m ev s) = s_id s.
Proof. summary s. unfold on_free, lifo_top. fields. by repeat (case_match; fields). Qed.

Lemma s_id_reset K r s : s_id (reset_summary K r s) = s_id s.
Proof. summary s. unfold reset_summary. fields. by repeat (case_match; fields). Qed.

Lemma s_id_alloc {B : Backend} K ev s : s_id (on_alloc K ev s).1 = s_id s.
Proof. exact (f_equal (λ x, x.1.1.1.1.1) (identity_alloc K ev s)). Qed.

Lemma ids_insert s s' (l : list CallSiteSummary) i :
  l !! i = Some s -> s_id s' = s_id s -> s_id <$> <[i := s']> l = s_id <$> l.
Proof.
  intros Hi E. rewrite list_fmap_insert, E. apply list_insert_id. by rewrite list_lookup_fmap, Hi.
Qed.

Lemma ids_created id l : s_id <$> l `prefix_of` s_id <$> (find_or_create id l).2.
Proof.
  pose proof (find_or_create_spec id l) as H.
  destruct (find_or_create id l) as [[i|] l']; simpl; [|by subst].
  destruct H as [_ [->|(-> & _)]]; [done|]. rewrite fmap_app. by eexists.
Qed.

Lemma ids_step {B : Backend} K o l : s_id <$> l `prefix_of` s_id <$> (apply_op K o l).1.
Proof.
  destruct o as [ev|id r]; simpl; [unfold process_event|unfold reset_call_site].
  - destruct (ev_size ev =? 0).
    + destruct (ev_ptr ev =? 0); [done|]. destruct (managed ev).
      * pose proof (ids_created (site_of ev) l) as Hc.
        destruct (find_or_create (site_of ev) l) as [[i|] l']; simpl in *; [|done].
        by rewrite ids_alter by apply s_id_free.
      * case_match; simpl; [|done]. by rewrite ids_alter by apply s_id_free.
    + case_match; [done|].
      pose proof (ids_created (ev_call_site ev) l) as Hc.
      destruct (find_or_create (ev_call_site ev) l) as [[i|] l']; simpl in *; [|done].
      destruct (l' !! i) as [s|] eqn:Ei; [|done]. pose proof (s_id_alloc K ev s) as E.
      destruct (on_alloc K ev s) as [s' inst]. simpl in *. by erewrite ids_insert by done.
  - case_match; [|done]. by rewrite ids_alter by apply s_id_reset.
Qed.

Inductive site_step {B : Backend} (K : Knobs) (o : op) (s : CallSiteSummary)
  : CallSiteSummary -> option (CallSiteID * ptr) -> Prop :=
  | st_same i : (∀ r, o ≠ Reset (s_id s) r) -> (∀ r, i ≠ Some (s_id s, r)) -> site_step K o s s i
  | st_alloc ev : o = Event ev -> ev_call_site ev = s_id s -> ev_size ev < MAX_SIZE ->
      site_step K o s (on_alloc K ev s).1 (on_alloc K ev s).2
  | st_free ev m : o = Event ev -> site_step K o s (on_free m ev s) None
  | st_reset r : o = Reset (s_id s) r -> site_step K o s (reset_summary K r s) None.

Lemma install_id {B : Backend} K s r : (advance_prespec K s).2 = Some r -> r.1 = s_id s.
Proof.
  unfold advance_prespec. repeat case_match; simpl; intros; simplify_eq; simpl; try done.
  pose proof (f_equal (λ x, x.1.1.1.1.1.1.1.1) (frame_learn K (set_stable_windows (u32 (stable_windows s + 1)) s))) as E.
  simpl in E. rewrite E. by destruct s.
Qed.

Lemma on_alloc_install_id {B : Backend} K ev s r : (on_alloc K ev s).2 = Some r -> r.1 = s_id s.
Proof.
  unfold on_alloc. intros H. repeat case_match; simplify_eq/=. apply install_id in H. rewrite H.
  transitivity (s_id (observe_alloc ev s)).
  - exact (f_equal (λ x, x.1.1.1.1.1.1.1.1) (frame_set_window _ _ (observe_alloc ev s))).
  - exact (f_equal (λ x, x.1.1.1.1.1.1.1.1) (observe_spec ev s)).
Qed.

Lemma created_lookup id l i s :
  l !! i = Some s -> (find_or_create id l).2 !! i = Some s.
Proof.
  intros Hi. pose proof (find_or_create_spec id l) as H.
  destruct (find_or_create id l) as [[j|] l']; simpl; [|by subst].
  destruct H as [_ [->|(-> & _)]]; [done|]. by apply lookup_app_l_Some.
Qed.

Lemma created_index id l i s :
  find_site (s_id s) l = Some i -> id = s_id s -> (find_or_create id l).1 = Some i.
Proof. unfold find_or_create. by intros H ->; rewrite H. Qed.

(** Altering the summary at an index, seen at another. *)
Lemma alter_cases (f : CallSiteSummary -> CallSiteSummary) (i j : nat) (l : list CallSiteSummary) s :
  l !! i = Some s ->
  alter f j l !! i = Some (f s) ∧ i = j ∨ alter f j l !! i = Some s ∧ i ≠ j.
Proof.
  intros Hi. destruct (decide (i = j)) as [<-|Hne].
  - left. by rewrite list_lookup_alter_eq, Hi.
  - right. by rewrite list_lookup_alter_ne by done.
Qed.

Lemma step_site {B : Backend} K o l i s :
  find_site (s_id s) l = Some i -> l !! i = Some s ->
  ∃ s', find_site (s_id s) (apply_op K o l).1 = Some i ∧ (apply_op K o l).1 !! i = Some s' ∧
    site_step K o s s' (apply_op K o l).2.
Proof.
  intros Hf Hi. pose proof (find_index_prefix _ _ _ _ _ (ids_step K o l) Hf) as Hf'.
  enough (∃ s', (apply_op K o l).1 !! i = Some s' ∧ site_step K o s s' (apply_op K o l).2)
    as (s' & ? & ?) by eauto.
  clear Hf'. assert (Hs : ∀ ev j, site_step K (Event ev) s s None) by (by constructor).
  destruct o as [ev|id r]; simpl; [unfold process_event|unfold reset_call_site].
  - destruct (ev_size ev =? 0).
    + destruct (ev_ptr ev =? 0); [by eauto using 0%nat|]. destruct (managed ev).
      * pose proof (created_lookup (site_of ev) l i s Hi) as Hc.
        destruct (find_or_create (site_of ev) l) as [[j|] l']; simpl in *; [|by eauto using 0%nat].
        destruct (alter_cases (on_free true ev) i j _ _ Hc) as [[E _]|[E _]];
          eexists; (split; [exact E|]); [by apply st_free|by apply st_same].
      * destruct (find_index _ l 0) as [j|]; simpl; [|by eauto using 0%nat].
        destruct (alter_cases (on_free false ev) i j _ _ Hi) as [[E _]|[E _]];
          eexists; (split; [exact E|]); [by apply st_free|by apply st_same].
    + destruct (ev_size ev >=? MAX_SIZE) eqn:Em; zb; [by eauto using 0%nat|].
      pose proof (created_lookup (ev_call_site ev) l i s Hi) as Hc.
      pose proof (find_or_create_spec (ev_call_site ev) l) as Hspec.
      pose proof (created_index (ev_call_site ev) l i s Hf) as Hix.
      destruct (find_or_create (ev_call_site ev) l) as [[j|] l']; simpl in *; [|by eauto using 0%nat].
      destruct Hspec as [(s1 & Hj & Hid) _]. rewrite Hj.
      pose proof (on_alloc_install_id K ev s1) as Hin.
      destruct (on_alloc K ev s1) as [s2 inst] eqn:E. simpl in *.
      destruct (decide (i = j)) as [<-|Hne].
      * assert (s1 = s) as -> by congruence. exists s2. split.
        -- apply list_lookup_insert_eq. by eapply lookup_lt_Some.
        -- pose proof (st_alloc K (Event ev) s ev eq_refl) as H. rewrite E in H. by apply H.
      * exists s. split; [by rewrite list_lookup_insert_ne by done|].
        apply st_same; [done|]. intros r ->. specialize (Hin _ eq_refl). simpl in Hin.
        apply Hne. assert (ev_call_site ev = s_id s) as Heq by congruence.
        specialize (Hix Heq). by simplify_eq.
  - destruct (find_site id l) as [j|] eqn:E.
    + destruct (alter_cases (reset_summary K r) i j _ _ Hi) as [[El ->]|[El Hne]];
        eexists; (split; [exact El|]).
      * apply find_site_Some in E as (s1 & ? & <-). assert (s1 = s) as -> by congruence. by apply st_reset.
      * apply st_same; [|done]. intros r' [= -> ->]. by simplify_eq.
    + exists s. split; [done|]. apply st_same; [|done]. intros r' [= -> ->]. by simplify_eq.
Qed.
