(* ===== verification/Evidence.v ===== *)
(** * What the analysis learns from the events

    The votes over thread ids and freeing sites ([ThreadDist::record], the
    [top_pair] update of [process_event]) and the LIFO evidence, over any
    sequence of events. *)

From S2P Require Import Prelude Common Double Histogram Ks Analysis.

(** ** The vote over thread ids *)

Definition dist_of (tids : list Z) : ThreadDist := foldl (λ d t, dist_record t d) dist0 tids.

(** The count leans towards the leader by at least its surplus [2 occ - n]; away
    from the leader no id has a surplus. *)
Definition vote_ok (tids : list Z) (d : ThreadDist) : Prop :=
  let n := Z.of_nat (length tids) in
  d_total d = n ∧ 0 <= top_count d <= occ (top_tid d) tids ∧
  (top_count d = 0 -> tids = []) ∧
  ∀ x, 2 * occ x tids - n <=
       if decide (x = top_tid d) then top_count d else 1 - top_count d.

Lemma occ_single x t : occ x [t] = if decide (t = x) then 1 else 0.
Proof. apply (occ_snoc x t []). Qed.

Lemma dist_record_vote tid tids d :
  Z.of_nat (length tids) + 1 < 2 ^ 32 ->
  vote_ok tids d -> vote_ok (tids ++ [tid]) (dist_record tid d).
Proof.
  intros Hlen (Ht & Hc & H0 & Hx). pose proof (occ_bound (top_tid d) tids) as Hb.
  unfold dist_record. rewrite (u32_small (d_total d + 1)), (u32_small (top_count d + 1)) by lia.
  assert (Hocc : ∀ x, occ x (tids ++ [tid]) = occ x tids + if decide (tid = x) then 1 else 0)
    by (intros; apply occ_snoc).
  assert (Hl : Z.of_nat (length (tids ++ [tid])) = Z.of_nat (length tids) + 1)
    by (rewrite length_app; simpl; lia).
  assert (Hne : tids ++ [tid] ≠ []) by (by destruct tids).
  destruct (top_count d =? 0) eqn:E0; zb; simpl orb.
  { specialize (H0 E0). subst tids. unfold vote_ok. rewrite E0, Ht. simpl.
    pose proof (occ_single tid tid) as Hs. split_and!; try done; try (case_decide; [lia|done]).
    - intros x. rewrite occ_single. repeat case_decide; subst; try done; lia. }
  rewrite (u32_small (top_count d - 1)) by lia.
  destruct (tid =? top_tid d) eqn:Et; zb.
  { subst tid. unfold vote_ok. simpl. rewrite Hl, Ht. split_and!; [lia| | | |].
    - lia.
    - rewrite Hocc. case_decide; [lia|done].
    - lia.
    - intros x. rewrite Hocc. specialize (Hx x). repeat case_decide; subst; try done; lia. }
  destruct (top_count d - 1 =? 0) eqn:E1; zb; unfold vote_ok; simpl; rewrite Hl, Ht.
  - split_and!; [lia..| |lia|].
    + rewrite Hocc. case_decide; [|done]. pose proof (occ_bound tid tids). lia.
    + intros x. rewrite Hocc. specialize (Hx x). repeat case_decide; subst; try done; lia.
  - split_and!; [lia..| |lia|].
    + rewrite Hocc. case_decide; [congruence|lia].
    + intros x. rewrite Hocc. specialize (Hx x). repeat case_decide; subst; try done; lia.
Qed.

Lemma dist_of_vote tids :
  Z.of_nat (length tids) < 2 ^ 32 -> vote_ok tids (dist_of tids).
Proof.
  induction tids as [|t tids IH] using rev_ind; intros Hlen.
  - unfold vote_ok. simpl. split_and!; try done.
    intros x. unfold occ. simpl. case_decide; lia.
  - rewrite length_app in Hlen. simpl in Hlen. unfold dist_of. rewrite foldl_app. simpl.
    apply dist_record_vote; [lia|]. apply IH. lia.
Qed.

(** The constant-space vote is sound and finds every majority.  Over any
    sequence of fewer than 2^32 thread ids, the count it keeps never exceeds the
    leader's true frequency, so a site judged concentrated really is; and a thread
    behind more than half of the events is the leader, with a count of at least
    its surplus over the others. *)
Theorem thread_vote_majority (tids : list Z) (x : Z) :
  Z.of_nat (length tids) < 2 ^ 32 ->
  let d := dist_of tids in
  let n := Z.of_nat (length tids) in
  d_total d = n ∧ 0 <= top_count d <= occ (top_tid d) tids ∧
  (n < 2 * occ x tids -> top_tid d = x ∧ 2 * occ x tids - n <= top_count d).
Proof.
  intros Hlen. destruct (dist_of_vote tids Hlen) as (Ht & Hc & H0 & Hx).
  split_and!; try done; try lia. intros Hm. specialize (Hx x).
  case_decide; [subst; split; [done|lia]|].
  assert (top_count (dist_of tids) = 0) by lia.
  rewrite H0 in Hm by done. unfold occ in Hm. simpl in Hm. lia.
Qed.
Lemma thread_vote_majority_witness :
  top_tid (dist_of [7; 3; 7; 7; 5]) = 7 ∧ 1 <= top_count (dist_of [7; 3; 7; 7; 5]) <= 3.
Proof.
  destruct (thread_vote_majority [7; 3; 7; 7; 5] 7) as (_ & Hb & Hm); [done|].
  destruct (Hm eq_refl) as [E Hs]. rewrite E in Hb. split; [done|split; [exact Hs|apply Hb]].
Defined.

(** ** The LIFO evidence *)

Definition lifo_ok (n : nat) (s : CallSiteSummary) : Prop :=
  Z.of_nat n < 2 ^ 32 ->
  0 <= pair_count (top_pair s) <= lifo_count (top_pair s) ∧
  lifo_count (top_pair s) <= Z.of_nat n ∧
  (pair_count (top_pair s) = 0 -> lifo_count (top_pair s) = 0).

Lemma literal_normal : ∃ k, normal PAIRED_LIFO_RATIO k ∧ k <= 0.
Proof.
  exists 0. split; [|done]. eexists. split; [vm_compute; reflexivity|]. unfold digits_are. lia.
Qed.

Lemma lifo_ok_ext n s s' : top_pair s' = top_pair s -> lifo_ok n s -> lifo_ok (S n) s'.
Proof. unfold lifo_ok. intros ->. lia. Qed.

(** A free seen by the analysis matches the top of its site's stack, so it counts
    as a pair and as a LIFO free together. *)
Lemma lifo_ok_free n m ev s :
  (m = false -> lifo_top s (ev_ptr ev) = true) -> lifo_ok n s -> lifo_ok (S n) (on_free m ev s).
Proof.
  unfold lifo_ok, on_free. intros Hm Hs Hn. specialize (Hs ltac:(lia)). summary s. cbn [top_pair] in Hs.
  destruct m; [fields; lia|]. specialize (Hm eq_refl).
  unfold lifo_top in *. cbn [lifo_stack] in Hm. fields. rewrite Hm.
  destruct tp_ as [f p c]. cbn [pair_count lifo_count] in Hs.
  unfold pair_record. fields. rewrite (u32_small (p + 1)) by lia.
  destruct ((p =? 0) || (f =? ev_call_site ev))%bool eqn:E; fields.
  { rewrite Z.eqb_refl. fields. rewrite u32_small by lia. lia. }
  zb. rewrite (u32_small (p - 1)) by lia. destruct (p - 1 =? 0) eqn:E1; zb; fields.
  - rewrite Z.eqb_refl. fields. rewrite u32_small by lia. lia.
  - rewrite (proj2 (Z.eqb_neq f _)) by done. fields. lia.
Qed.

Lemma run_ops_lifo {B : Backend} K ops :
  Z.of_nat (length ops) < 2 ^ 32 -> Forall (lifo_ok (length ops)) (run_ops K ops []).1.
Proof.
  intros Hn. apply (table_run K (λ _, True) lifo_ok) with (n := 0%nat);
    [| | | | |by apply Forall_true; intros []|constructor].
  - intros id _. simpl. lia.
  - intros n s. by apply lifo_ok_ext.
  - intros n ev s _ _ _. apply lifo_ok_ext. exact (f_equal snd (identity_alloc K ev s)).
  - apply lifo_ok_free.
  - intros n r s. apply lifo_ok_ext. unfold reset_summary. summary s; fields. by repeat case_match.
Qed.

(** The LIFO half of the paired-stack test decides nothing.  After any
    sequence of fewer than 2^32 events and resets, every summary counts at least
    as many LIFO frees as pairs, so the ratio passes the 0.95 threshold whatever
    the frees looked like: only frees of the newest block are ever counted, and a
    site is judged paired by how many of those one freeing site makes. *)
Theorem paired_lifo_check_vacuous {B : Backend} (K : Knobs) (ops : list op) (s : CallSiteSummary) :
  Z.of_nat (length ops) < 2 ^ 32 -> s ∈ (run_ops K ops []).1 ->
  pair_count (top_pair s) <= lifo_count (top_pair s) ∧
  paired_pattern s =
    (event_count s >? 0) && (pair_count (top_pair s) >? 0) &&
    dleb PAIRED_PAIR_RATIO (ratio (pair_count (top_pair s)) (event_count s)).
Proof.
  intros Hn Hs. pose proof (run_ops_lifo K ops Hn) as H. rewrite Forall_forall in H.
  destruct (H s Hs Hn) as (Hp & Hl & _). split; [lia|].
  unfold paired_pattern. destruct (_ && _)%bool eqn:E; [|done]. zb.
  assert (Hr : dleb PAIRED_LIFO_RATIO (ratio (lifo_count (top_pair s)) (pair_count (top_pair s))) = true).
  { destruct literal_normal as (k & Hk & ?).
    eapply ratio_ge_one; [lia|pow2; lia|exact Hk|done]. }
  by rewrite Hr, andb_true_r.
Qed.

Definition plain_knobs : Knobs := mkKnobs 10 1000 KS_ALPHA_DEFAULT 3 false false Generic.

(** Site 1 allocates, site 2 frees in reverse order. *)
Definition nested_ops : list op :=
  [Event (mkAllocEvent 1 64 0 7 100); Event (mkAllocEvent 1 64 0 7 200);
   Event (mkAllocEvent 2 0 0 7 200); Event (mkAllocEvent 2 0 0 7 100)].

Lemma paired_lifo_check_vacuous_witness :
  match (@run_ops plain_backend plain_knobs nested_ops []).1 with
  | [s] => top_pair s = mkPair 2 2 2 ∧ free_count s = 2 ∧ paired_pattern s = true
  | _ => False
  end.
Proof.
  assert (H : ∀ s, s ∈ (@run_ops plain_backend plain_knobs nested_ops []).1 -> _)
    by (intros s; exact (@paired_lifo_check_vacuous plain_backend plain_knobs nested_ops s eq_refl)).
  destruct (@run_ops plain_backend plain_knobs nested_ops []) as [[|s [|]] rest] eqn:E;
    try (by vm_compute in E).
  destruct (H s ltac:(constructor)) as [_ Hp]. simpl. rewrite Hp.
  vm_compute in E. simplify_eq. split_and!; vm_compute; reflexivity.
Defined.

(** ** Frees in the order of allocation *)

(** A queue of depth two: each allocation is followed by the free of the block
    before it. *)
Definition alloc_op (a t sz : Z) (p : ptr) : op := Event (mkAllocEvent a sz 0 t p).
Definition free_op (f t : Z) (p : ptr) : op := Event (mkAllocEvent f 0 0 t p).
Fixpoint queue_ops (a f t sz : Z) (p : ptr) (ps : list ptr) : list op :=
  match ps with
  | [] => []
  | q :: ps => alloc_op a t sz q :: free_op f t p :: queue_ops a f t sz q ps
  end.

(** What the analysis remembers of a site whose newest block is [p]. *)
Definition unseen (a : CallSiteID) (p : ptr) (n : Z) (s : CallSiteSummary) : Prop :=
  identity s = (a, 0, 0, false, dist0, mkPair 0 0 0) ∧ last (lifo_stack s) = Some p ∧
  event_count s = n.

Section queue.
  Context {B : Backend} (K : Knobs) (a f t sz : Z).
  Hypothesis Hsz : 0 < sz < MAX_SIZE.

Lemma alloc_only_site p s n :
  p ≠ 0 -> identity s = (a, 0, 0, false, dist0, mkPair 0 0 0) -> event_count s = n ->
  0 <= n -> n + 1 < 2 ^ 64 ->
  ∃ s' i, apply_op K (alloc_op a t sz p) [s] = ([s'], i) ∧ unseen a p (n + 1) s'.
Proof.
  intros Hp Hid Hn H0 Hlt. unfold alloc_op, apply_op, process_event. simpl.
  rewrite (proj2 (Z.eqb_neq sz 0)), Z.geb_leb, (proj2 (Z.leb_gt _ _)) by lia.
  unfold find_or_create, find_site. simpl.
  assert (s_id s = a) as -> by (by injection Hid). rewrite Z.eqb_refl. simpl.
  pose proof (frame_alloc K (mkAllocEvent a sz 0 t p) s) as E.
  destruct (on_alloc K _ s) as [s' i]. exists s', i. split; [done|]. simpl in E.
  rewrite (proj2 (Z.eqb_neq p 0)), Hn, u64_small, Hid in E by lia.
  unfold frame in E. apply pair_eq in E as [[[E1 E2]%pair_eq E3]%pair_eq E4].
  split_and!; [done| |done].
  rewrite E4. apply last_lifo_push.
Qed.

Lemma free_unseen p q s n :
  p ≠ 0 -> unmanaged p -> p ≠ q -> unseen a q n s ->
  apply_op K (free_op f t p) [s] = ([s], None).
Proof.
  intros Hp Hm Hne (_ & Hl & _). unfold free_op, apply_op, process_event. simpl.
  rewrite (proj2 (Z.eqb_neq p 0)), Hm by done. unfold lifo_top. rewrite Hl.
  by rewrite (proj2 (Z.eqb_neq q p)) by done.
Qed.

Lemma queue_unseen p ps s n :
  NoDup (p :: ps) -> Forall (λ q, q ≠ 0 ∧ unmanaged q) (p :: ps) ->
  0 <= n -> n + Z.of_nat (length ps) < 2 ^ 64 -> unseen a p n s ->
  ∃ s' rest q, run_ops K (queue_ops a f t sz p ps) [s] = ([s'], rest) ∧
    unseen a q (n + Z.of_nat (length ps)) s'.
Proof.
  revert p s n. induction ps as [|q ps IH]; intros p s n Hnd Hps H0 Hlt Hs.
  { exists s, [], p. simpl. rewrite Z.add_0_r. done. }
  apply NoDup_cons in Hnd as [Hin Hnd]. apply Forall_cons in Hps as [[Hp Hm] Hps].
  assert (q ≠ 0) by (by apply Forall_cons in Hps as [[? _] _]). simpl length in *.
  destruct (alloc_only_site q s n) as (s1 & i & E1 & H1); try done; try lia; try apply Hs.
  destruct (IH q s1 (n + 1)) as (s2 & rest & r & E2 & H2); try done; try lia.
  exists s2, (option_list i ++ rest), r. cbn [queue_ops run_ops]. rewrite E1.
  rewrite (free_unseen p q s1 (n + 1)) by (done || set_solver). rewrite E2. simpl.
  by replace (n + Z.of_nat (S (length ps))) with (n + 1 + Z.of_nat (length ps)) by lia.
Qed.
End queue.

(** Frees of blocks not yet specialized are only seen when they undo the
    newest allocation.  A site that uses its blocks as a queue of depth two, every
    block but the last freed, ends with a free count of zero: it is taken for a
    site that holds its memory (which selects the bump allocator that the picker
    means to keep from churning sites). *)
Theorem queue_frees_unseen {B : Backend} (K : Knobs) (a f t sz : Z) (p : ptr) (ps : list ptr) :
  0 < sz < MAX_SIZE -> NoDup (p :: ps) -> Forall (λ q, q ≠ 0 ∧ unmanaged q) (p :: ps) ->
  Z.of_nat (length (p :: ps)) < 2 ^ 64 ->
  ∃ s rest, run_ops K (alloc_op a t sz p :: queue_ops a f t sz p ps) [] = ([s], rest) ∧
    s_id s = a ∧ event_count s = Z.of_nat (length (p :: ps)) ∧ free_count s = 0 ∧
    lifetime_of s = Hold.
Proof.
  intros Hsz Hnd Hps Hlt. simpl length in *.
  destruct (alloc_only_site K a t sz Hsz p (summary0 a) 0) as (s1 & i & E1 & H1); try done.
  { by apply Forall_cons in Hps as [[? _] _]. }
  destruct (queue_unseen K a f t sz Hsz p ps s1 1) as (s & rest & q & E2 & Hid & _ & Hn); try done; [lia|].
  exists s, (option_list i ++ rest). cbn [run_ops].
  assert (apply_op K (alloc_op a t sz p) [] = apply_op K (alloc_op a t sz p) [summary0 a]) as ->.
  { unfold alloc_op, apply_op, process_event. simpl.
    rewrite (proj2 (Z.eqb_neq sz 0)), Z.geb_leb, (proj2 (Z.leb_gt _ _)) by lia.
    unfold find_or_create, find_site. simpl. by rewrite Z.eqb_refl. }
  rewrite E1, E2. injection Hid as Hi Hf _ _ _ _. split_and!; try done; [lia|].
  apply lifetime_no_frees; [lia|done].
Qed.
Lemma queue_frees_unseen_witness :
  ∃ s rest, @run_ops plain_backend plain_knobs
      (alloc_op 1 7 64 100 :: queue_ops 1 2 7 64 100 [200; 300; 400]) [] = ([s], rest) ∧
    free_count s = 0 ∧ lifetime_of s = Hold.
Proof.
  destruct (@queue_frees_unseen plain_backend plain_knobs 1 2 7 64 100 [200; 300; 400])
    as (s & rest & E & _ & _ & Hf & Hl); [by vm_compute| |by repeat constructor|done|eauto].
  repeat (constructor; [set_solver|]). constructor.
Defined.
