(* ===== verification/Picker.v ===== *)
(** * When a site is specialized

    The stability loop ([advance_prespec], [check_postspec]) and the blacklist
    ([reset_call_site]) over sequences of events and resets. *)

From S2P Require Import Prelude Common Double Histogram Ks Analysis.

(** ** A site followed through a run *)

Section follow.
  Context {B : Backend} (K : Knobs) (id : CallSiteID).
  Context (P : list op -> CallSiteSummary -> Prop).
  Hypothesis P_step : ∀ h o s s' i,
    s_id s = id -> P h s -> site_step K o s s' i -> P (h ++ [o]) s'.

Lemma s_id_step o s s' i : site_step K o s s' i -> s_id s' = s_id s.
Proof. intros []; auto using s_id_alloc, s_id_free, s_id_reset. Qed.

Lemma follow_run h ops l i s :
  find_site id l = Some i -> l !! i = Some s -> P h s ->
  ∃ s', find_site id (run_ops K ops l).1 = Some i ∧ (run_ops K ops l).1 !! i = Some s' ∧
    s_id s' = id ∧ P (h ++ ops) s'.
Proof.
  revert h l s. induction ops as [|o ops IH]; intros h l s Hf Hi HP.
  - exists s. rewrite app_nil_r. split_and!; try done.
    apply find_site_Some in Hf as (? & ? & <-). congruence.
  - assert (Hid : s_id s = id) by (apply find_site_Some in Hf as (? & ? & <-); congruence).
    rewrite <- Hid in Hf. destruct (step_site K o l i s Hf Hi) as (s1 & Hf1 & Hi1 & Hs).
    rewrite Hid in Hf1. specialize (IH (h ++ [o]) _ s1 Hf1 Hi1 (P_step _ _ _ _ _ Hid HP Hs)).
    simpl. destruct (apply_op K o l) as [l1 i1]. simpl in *.
    destruct (run_ops K ops l1) as [l2 rest]. simpl in *. by rewrite <- app_assoc in IH.
Qed.

(** If no state in [P] installs a routine, the run installs none for the site. *)
Lemma follow_installs h ops l i s r :
  (∀ h o s s' j, s_id s = id -> P h s -> site_step K o s s' j -> j ≠ Some (id, r)) ->
  find_site id l = Some i -> l !! i = Some s -> P h s -> (id, r) ∉ (run_ops K ops l).2.
Proof.
  intros Hno. revert h l s. induction ops as [|o ops IH]; intros h l s Hf Hi HP; [by apply not_elem_of_nil|].
  assert (Hid : s_id s = id) by (apply find_site_Some in Hf as (? & ? & <-); congruence).
  rewrite <- Hid in Hf. destruct (step_site K o l i s Hf Hi) as (s1 & Hf1 & Hi1 & Hs).
  rewrite Hid in Hf1. specialize (IH (h ++ [o]) _ s1 Hf1 Hi1 (P_step _ _ _ _ _ Hid HP Hs)).
  specialize (Hno _ _ _ _ _ Hid HP Hs). simpl.
  destruct (apply_op K o l) as [l1 i1]. simpl in *.
  destruct (run_ops K ops l1) as [l2 rest]. simpl in *.
  rewrite elem_of_app. intros [H|H]; [|done]. destruct i1; simpl in H; [|by apply not_elem_of_nil in H].
  apply list_elem_of_singleton in H. congruence.
Qed.
End follow.

(** ** The blacklist *)

Definition blocked (s : CallSiteSummary) : Prop := blacklisted s = true ∧ s_phase s ≠ Compiled.

Lemma observe_phase ev s :
  s_phase (observe_alloc ev s) = if decide (s_phase s = Deopt) then PreSpec else s_phase s.
Proof. unfold observe_alloc. summary s. destruct ph_; fields; by repeat (case_match; fields). Qed.

Lemma set_window_phase k w s : s_phase (set_window k w s) = s_phase s.
Proof. unfold set_window. case_match; by summary s. Qed.

Lemma flip_phase s : s_phase (flip_window s) = s_phase s.
Proof. unfold flip_window. rewrite set_window_phase. by summary s. Qed.

Lemma blacklisted_frame s s' : identity s' = identity s -> blacklisted s' = blacklisted s.
Proof. intros E. exact (f_equal (λ x, x.1.1.2) E). Qed.

(** Neither a blacklisted site nor a trace-only run compiles a full window. *)
Lemma advance_blocked {B : Backend} K s :
  blacklisted s = true ∨ g_trace_only K = true ->
  s_phase (advance_prespec K s).1 = s_phase s ∧ (advance_prespec K s).2 = None.
Proof.
  intros Hb. unfold advance_prespec.
  assert (Hb' : ∀ v, blacklisted (set_stable_windows v s) || g_trace_only K = true)
    by (intros; summary s; simpl in *; destruct Hb as [-> | ->]; btauto).
  repeat case_match; simpl; rewrite ?flip_phase; try (split; [by summary s|done]).
  all: exfalso; eapply eq_true_false_abs; [apply Hb'|done].
Qed.

Lemma on_alloc_blocked {B : Backend} K ev s :
  blacklisted s = true ∨ g_trace_only K = true -> s_phase s ≠ Compiled ->
  s_phase (on_alloc K ev s).1 ≠ Compiled ∧ (on_alloc K ev s).2 = None.
Proof.
  intros Hb Hph. unfold on_alloc. pose proof (observe_phase ev s) as Ho.
  pose proof (f_equal (λ x, x.1.1.1) (observe_spec ev s)) as Hid. simpl in Hid.
  assert (E : s_phase (observe_alloc ev s) = PreSpec) by (rewrite Ho; destruct (s_phase s); done).
  rewrite <- (blacklisted_frame _ _ Hid) in Hb. clear Hid Ho Hph. revert Hb E.
  generalize (observe_alloc ev s). clear s. intros s Hb E. rewrite E, bool_decide_true by done.
  set (s1 := set_window _ _ _). assert (E1 : s_phase s1 = PreSpec) by (subst s1; by rewrite set_window_phase).
  assert (Hb1 : blacklisted s1 = true ∨ g_trace_only K = true).
  { subst s1. rewrite (blacklisted_frame s); [done|]. exact (f_equal (λ x, x.1.1.1) (frame_set_window _ _ s)). }
  case_match; [|simpl; by rewrite E1].
  destruct (advance_blocked K s1 Hb1) as [-> ->]. by rewrite E1.
Qed.

Lemma free_keeps m ev s :
  s_phase (on_free m ev s) = s_phase s ∧ blacklisted (on_free m ev s) = blacklisted s ∧
  deopt_count (on_free m ev s) = deopt_count s.
Proof. summary s. unfold on_free, lifo_top. fields. by repeat (case_match; fields). Qed.

Lemma reset_spec K r s :
  s_phase (reset_summary K r s) = Deopt ∧
  deopt_count (reset_summary K r s) = u32 (deopt_count s + 1) ∧
  blacklisted (reset_summary K r s) =
    (u32 (deopt_count s + 1) >=? g_deopt_blacklist_limit K) || blacklisted s.
Proof. summary s. unfold reset_summary. fields. by repeat (case_match; fields). Qed.

Lemma blocked_step {B : Backend} K o s s' i :
  blocked s -> site_step K o s s' i -> blocked s' ∧ ∀ r, i ≠ Some (s_id s, r).
Proof.
  intros [Hb Hph] [j Hj|ev|ev m|r]; unfold blocked.
  - done.
  - destruct (on_alloc_blocked K ev s (or_introl Hb) Hph) as [? ->].
    by rewrite (blacklisted_frame s) by apply identity_alloc.
  - by destruct (free_keeps m ev s) as (-> & -> & _).
  - destruct (reset_spec K r s) as (-> & _ & ->). by rewrite Hb, orb_true_r.
Qed.

(** The deoptimizations of a site reported in a history. *)
Definition is_reset (id : CallSiteID) (o : op) : bool :=
  match o with Reset x _ => x =? id | Event _ => false end.
Definition resets (id : CallSiteID) (ops : list op) : Z :=
  Z.of_nat (length (filter (λ o, is_reset id o = true) ops)).

Lemma resets_snoc id h o : resets id (h ++ [o]) = resets id h + if is_reset id o then 1 else 0.
Proof.
  unfold resets. rewrite filter_app, length_app, filter_cons. repeat case_match; simpl; try done; lia.
Qed.

Definition counted (K : Knobs) (id : CallSiteID) (h : list op) (s : CallSiteSummary) : Prop :=
  deopt_count s = u32 (resets id h) ∧
  (g_deopt_blacklist_limit K <= resets id h < 2 ^ 32 -> blocked s).

Lemma counted_step {B : Backend} K id h o s s' i :
  0 < g_deopt_blacklist_limit K -> s_id s = id ->
  counted K id h s -> site_step K o s s' i -> counted K id (h ++ [o]) s'.
Proof.
  intros HL Hid [Hd Hb] Hs. unfold counted. rewrite resets_snoc.
  assert (Hkeep : is_reset id o = false -> deopt_count s' = deopt_count s ->
    deopt_count s' = u32 (resets id h + 0) ∧
    (g_deopt_blacklist_limit K <= resets id h + 0 < 2 ^ 32 -> blocked s')).
  { intros _ ->. rewrite Z.add_0_r. split; [done|]. intros H. by eapply blocked_step; [apply Hb|]. }
  inversion Hs as [j Hj|ev Ho|ev m Ho|r Ho]; subst.
  - assert (is_reset (s_id s') o = false) as E; [|rewrite E in *; auto].
    destruct o as [|x r]; simpl; [done|]. apply Z.eqb_neq. intros ->. by eapply Hj.
  - apply Hkeep; [done|]. exact (f_equal (λ x, x.1.1.1.2) (identity_alloc K ev s)).
  - apply Hkeep; [done|]. apply free_keeps.
  - simpl. rewrite Z.eqb_refl. destruct (reset_spec K r s) as (Hp & Hc & Hbl).
    unfold blocked. rewrite Hp, Hc, Hbl, Hd. unfold u32 at 1 2 4.
    rewrite !wrap_add_l. split; [done|]. intros Hn. split; [|done].
    unfold resets in *. rewrite wrap_small by (unfold fits; lia).
    rewrite Z.geb_leb, (proj2 (Z.leb_le _ _)) by lia. done.
Qed.

(** C15: the blacklist stops recompilation for good.  Once the deoptimizations
    reported for a site reach the limit, whatever the events and resets before,
    between and after them, no later operation compiles the site again: it is never
    in phase [Compiled], and no routine is installed for it.  (Fewer than 2^32
    reports, so that their counter does not wrap.) *)
Theorem blacklist_ends_compilation {B : Backend} (K : Knobs) (id : CallSiteID) (i : nat)
    (s : CallSiteSummary) (l : list CallSiteSummary) (ops ops' : list op) :
  0 < g_deopt_blacklist_limit K ->
  find_site id l = Some i -> l !! i = Some s -> deopt_count s = 0 ->
  g_deopt_blacklist_limit K <= resets id ops < 2 ^ 32 ->
  let l1 := (run_ops K ops l).1 in
  (∀ r, (id, r) ∉ (run_ops K ops' l1).2) ∧ get_phase id (run_ops K ops' l1).1 ≠ Compiled.
Proof.
  intros HL Hf Hi H0 Hn l1.
  destruct (follow_run K id (counted K id)) with (h := @nil op) (ops := ops) (l := l) (i := i) (s := s)
    as (s1 & Hf1 & Hi1 & Hid1 & Hd & Hb); try done.
  { intros h o s1 s' j Hid1 Hc Hs. by eapply counted_step. }
  { split; [by rewrite H0|]. unfold resets. simpl. lia. }
  specialize (Hb Hn). fold l1 in Hf1, Hi1. split.
  - intros r. eapply (follow_installs K id (λ _ s, blocked s)) with (h := []); [| |exact Hf1|exact Hi1|done].
    + intros h o x s' j Hid Hx Hs. by destruct (blocked_step K o x s' j Hx Hs).
    + intros h o x s' j Hid Hx Hs. destruct (blocked_step K o x s' j Hx Hs) as [_ E]. rewrite <- Hid. apply E.
  - destruct (follow_run K id (λ _ s, blocked s)) with (h := @nil op) (ops := ops') (l := l1) (i := i) (s := s1)
      as (s2 & Hf2 & Hi2 & _ & _ & Hp); try done.
    + intros h o x s' j Hid Hx Hs. by destruct (blocked_step K o x s' j Hx Hs).
    + unfold get_phase, query. by rewrite Hf2, Hi2.
Qed.

(** One window of two events, one stable window, a limit of one deoptimization. *)
Definition small_knobs : Knobs := mkKnobs 1 2 KS_ALPHA_DEFAULT 1 false false Generic.
Definition events (id : CallSiteID) (sizes : list Z) : list op :=
  (λ sz, Event (mkAllocEvent id sz 0 7 0)) <$> sizes.

Lemma blacklist_ends_compilation_witness :
  (∀ r, (1, r) ∉ (@run_ops plain_backend small_knobs (events 1 [8; 8; 8; 8; 8; 8])
     (@run_ops plain_backend small_knobs (events 1 [8; 8; 8; 8] ++ [Reset 1 RegionExhaust]) [summary0 1]).1).2) ∧
  (@run_ops plain_backend small_knobs (events 1 [8; 8; 8; 8] ++ [Reset 1 RegionExhaust]) [summary0 1]).2
    = [(1, 4096)].
Proof.
  split; [|vm_compute; reflexivity].
  apply (@blacklist_ends_compilation plain_backend small_knobs 1 0 (summary0 1) [summary0 1]
    (events 1 [8; 8; 8; 8] ++ [Reset 1 RegionExhaust]) (events 1 [8; 8; 8; 8; 8; 8]));
    [done|reflexivity|done|done|vm_compute; split; congruence].
Defined.

(** The drift test, which also deoptimizes, does not count: a site that
    alternates between two sizes (in windows of four) is compiled again and again
    under a limit of one deoptimization, and none is ever counted. *)
Definition drift_knobs : Knobs := mkKnobs 1 4 KS_ALPHA_DEFAULT 1 false false Generic.
Definition drifting : list op :=
  events 1 ((replicate 8 8 ++ replicate 4 16) ++ (replicate 8 16 ++ replicate 4 8) ++
            (replicate 8 8 ++ replicate 4 16) ++ replicate 8 16).

(** Drift bypasses the blacklist.  With a limit of one deoptimization, a site
    whose size drifts three times is compiled four times; its deoptimization count
    is still zero and it is not blacklisted. *)
Example drift_never_blacklisted :
  let r := @run_ops plain_backend drift_knobs drifting [] in
  r.2 = [(1, 4096); (1, 4096); (1, 4096); (1, 4096)] ∧
  (λ s, (deopt_count s, blacklisted s)) <$> r.1 = [(0, false)].
Proof. vm_compute. by split. Qed.

(** ** A site with a stationary size distribution *)

Definition window_of (l : list Z) : SizeWindow := mkWindow (hist_of l) (Z.of_nat (length l)).

Lemma window_of_snoc l sz :
  Z.of_nat (length l) + 1 < 2 ^ 32 -> window_record sz (window_of l) = window_of (l ++ [sz]).
Proof.
  intros Hl. unfold window_record, window_of. simpl. rewrite hist_of_snoc, u32_small, length_app by lia.
  f_equal. simpl. lia.
Qed.

(** A site in its [k]-th stable window: the previous window held [prev], the
    current one [l]; [n] allocations and no frees so far. *)
Record filling (id : CallSiteID) (k : Z) (prev l : list Z) (n : Z) (s : CallSiteSummary) : Prop := {
  f_phase : s_phase s = PreSpec;
  f_active : active s = 0 ∨ active s = 1;
  f_stable : stable_windows s = k;
  f_current : window (active s) s = window_of l;
  f_previous : window (1 - active s) s = window_of prev;
  f_identity : identity s = (id, 0, 0, false, dist0, mkPair 0 0 0);
  f_count : event_count s = n;
}.

Lemma filling_new id : filling id 0 [] [] 0 (summary0 id).
Proof. constructor; auto. Qed.

Lemma filling_observe id k prev l n ev s :
  0 <= n -> n + 1 < 2 ^ 64 ->
  filling id k prev l n s -> filling id k prev l (n + 1) (observe_alloc ev s).
Proof.
  intros H0 Hn [Hp Ha Hs Hc Hpr Hi He].
  assert (E : s_phase (observe_alloc ev s) = PreSpec) by (rewrite observe_phase, Hp; by case_decide).
  assert (active (observe_alloc ev s) = active s ∧ stable_windows (observe_alloc ev s) = stable_windows s ∧
          ∀ k, window k (observe_alloc ev s) = window k s) as (Ea & Es & Ew).
  { unfold observe_alloc, window. summary s. fields.
    destruct (ev_ptr ev =? 0); fields; case_match; fields; done. }
  pose proof (observe_spec ev s) as Ho. rewrite He, u64_small, Hi in Ho by lia.
  constructor; rewrite ?Ea, ?Es, ?Ew; try done.
  - exact (f_equal (λ x, x.1.1.1) Ho).
  - exact (f_equal (λ x, x.1.1.2) Ho).
Qed.

Lemma set_window_spec w s :
  active s = 0 ∨ active s = 1 ->
  let s' := set_window (active s) w s in
  s_phase s' = s_phase s ∧ active s' = active s ∧ stable_windows s' = stable_windows s ∧
  window (active s') s' = w ∧ window (1 - active s') s' = window (1 - active s) s ∧
  identity s' = identity s ∧ event_count s' = event_count s.
Proof. summary s. unfold set_window, window. fields. by intros [-> | ->]; fields. Qed.

Lemma filling_record id k prev l n sz s :
  Z.of_nat (length l) + 1 < 2 ^ 32 -> filling id k prev l n s ->
  filling id k prev (l ++ [sz]) n (set_window (active s) (window_record sz (window (active s) s)) s).
Proof.
  intros Hl [Hp Ha Hs Hc Hpr Hi He].
  destruct (set_window_spec (window_record sz (window (active s) s)) s Ha) as (E1 & E2 & E3 & E4 & E5 & E6 & E7).
  constructor; try congruence. by rewrite E4, Hc, window_of_snoc.
Qed.

(** One event: the window grows, and is handed to the stability test when full. *)
Lemma filling_event {B : Backend} K id k prev l n ev s :
  filling id k prev l n s -> 0 <= n -> n + 1 < 2 ^ 64 -> Z.of_nat (length l) + 1 < 2 ^ 32 ->
  ∃ s', filling id k prev (l ++ [ev_size ev]) (n + 1) s' ∧
    on_alloc K ev s = if Z.of_nat (length l) + 1 >=? g_window_size K then advance_prespec K s' else (s', None).
Proof.
  intros Hs H0 Hn Hl. pose proof (filling_observe id k prev l n ev s H0 Hn Hs) as Ho.
  unfold on_alloc. revert Ho. generalize (observe_alloc ev s). clear s Hs. intros s Ho.
  pose proof (filling_record _ _ _ _ _ (ev_size ev) s Hl Ho) as Hr. eexists. split; [exact Hr|].
  rewrite (f_phase _ _ _ _ _ _ Ho), bool_decide_true by done. unfold full.
  rewrite (f_current _ _ _ _ _ _ Hr). unfold window_of at 1. simpl. rewrite length_app. simpl.
  by replace (Z.of_nat (length l + 1)) with (Z.of_nat (length l) + 1) by lia.
Qed.

Lemma flip_spec s :
  active s = 0 ∨ active s = 1 ->
  let s' := flip_window s in
  s_phase s' = s_phase s ∧ active s' = 1 - active s ∧ stable_windows s' = stable_windows s ∧
  window (active s') s' = window_of [] ∧ window (1 - active s') s' = window (active s) s ∧
  identity s' = identity s ∧ event_count s' = event_count s.
Proof. summary s. unfold flip_window, set_window, window. fields. by intros [-> | ->]; fields. Qed.

Lemma stable_spec v s :
  let s' := set_stable_windows v s in
  s_phase s' = s_phase s ∧ active s' = active s ∧ stable_windows s' = v ∧
  (∀ k, window k s' = window k s) ∧ identity s' = identity s ∧ event_count s' = event_count s.
Proof. by summary s. Qed.

Lemma filling_stable id k k' prev l n s :
  filling id k prev l n s -> filling id k' prev l n (set_stable_windows k' s).
Proof.
  intros [Hp Ha Hs Hc Hpr Hi He].
  destruct (stable_spec k' s) as (E1 & E2 & E3 & E4 & E5 & E6).
  constructor; rewrite ?E2, ?E4; congruence.
Qed.

Lemma filling_flip id k prev l n s :
  filling id k prev l n s -> filling id k l [] n (flip_window s).
Proof.
  intros [Hp Ha Hs Hc Hpr Hi He]. destruct (flip_spec s Ha) as (E1 & E2 & E3 & E4 & E5 & E6 & E7).
  constructor; try congruence. rewrite E2. lia.
Qed.

(** A full window against a stable one that does not end the wait. *)
Lemma advance_wait {B : Backend} K id k prev l n s :
  filling id k prev l n s -> prev ≠ [] -> 0 <= k -> k + 1 < g_stable_windows K -> k + 1 < 2 ^ 32 ->
  ks_stable (hist_of l) (hist_of prev) (g_ks_alpha K) = true ->
  ∃ s', advance_prespec K s = (s', None) ∧ filling id (k + 1) l [] n s'.
Proof.
  intros Hs Hne Hk HT Hlt Hks.
  unfold advance_prespec.
  assert (E : window (u8 (1 - active s)) s = window_of prev).
  { rewrite u8_small; [apply Hs|]. destruct (f_active _ _ _ _ _ _ Hs) as [-> | ->]; pow2; lia. }
  rewrite E, (f_current _ _ _ _ _ _ Hs), (f_stable _ _ _ _ _ _ Hs). unfold window_of. cbn [hist w_count].
  rewrite Hks, andb_true_r, Z.gtb_ltb, (proj2 (Z.ltb_lt _ _)) by (destruct prev; [done|simpl; lia]).
  destruct (stable_spec (u32 (k + 1)) s) as (_ & _ & -> & _).
  rewrite u32_small by lia. rewrite Z.geb_leb, (proj2 (Z.leb_gt _ _)) by lia.
  eexists. split; [done|]. eapply filling_flip, filling_stable, Hs.
Qed.

(** The first full window. *)
Lemma advance_first {B : Backend} K id k l n s :
  filling id k [] l n s -> ∃ s', advance_prespec K s = (s', None) ∧ filling id 0 l [] n s'.
Proof.
  intros Hs. unfold advance_prespec.
  assert (E : window (u8 (1 - active s)) s = window_of []).
  { rewrite u8_small; [apply Hs|]. destruct (f_active _ _ _ _ _ _ Hs) as [-> | ->]; pow2; lia. }
  rewrite E. cbn [w_count window_of length]. simpl.
  eexists. split; [done|]. eapply filling_flip, filling_stable, Hs.
Qed.

(** What the specialization of a site without frees selects. *)
Definition expected_strategy (K : Knobs) (l : list Z) : Strategy :=
  if negb (bool_decide (forced K = Generic)) then forced K
  else if is_monomorphic (literal 95 100) (hist_of l) then BumpAlloc
  else if (2 <=? length (top_k_modes MULTI_CLASS_MAX MULTI_CLASS_COVERAGE (hist_of l)))%nat
  then MultiSizeFreeList else ThreadLocalFreeList.

Definition expected_spec (K : Knobs) (id : CallSiteID) (l : list Z) : RoutineSpec :=
  let strategy := expected_strategy K l in
  mkSpec id strategy (dominant_size (hist_of l))
    (if bool_decide (strategy = MultiSizeFreeList)
     then size <$> top_k_modes MULTI_CLASS_MAX MULTI_CLASS_COVERAGE (hist_of l) else []).

(** What [learn] leaves for a site that never saw a free. *)
Lemma learn_filling K id k prev l n s :
  filling id k prev l n s -> 0 < n < 2 ^ 64 ->
  s_id (learn K s) = id ∧ s_phase (learn K s) = Compiled ∧
  candidate (learn K s) = expected_strategy K l ∧ lifetime (learn K s) = Hold ∧
  spec_of (learn K s) = expected_spec K id l.
Proof.
  intros Hs Hn. pose proof (f_identity _ _ _ _ _ _ Hs) as Hi. pose proof (f_count _ _ _ _ _ _ Hs) as Hc.
  pose proof (f_current _ _ _ _ _ _ Hs) as Hw. clear Hs k prev. summary s.
  unfold identity in Hi. cbn [s_id free_count deopt_count blacklisted free_dist top_pair] in Hi.
  cbn [event_count active] in Hc, Hw. simplify_eq.
  set (s0 := mkSummary _ _ _ _ _ _ _ _ _ _ _ _ _ _ _ _ _ _ _ _ _ _) in *.
  unfold learn.
  set (s1 := set_baseline (hist (window (active s0) s0)) s0).
  assert (Hl : lifetime_of s1 = Hold) by (apply lifetime_no_frees; [exact Hn|done]). rewrite Hl.
  assert (Hw' : window ac_ s0 = window_of l) by exact Hw.
  set (s2 := set_classes _ _).
  assert (Hcl : classes s2 = top_k_modes MULTI_CLASS_MAX MULTI_CLASS_COVERAGE (hist_of l))
    by (change (classes s2) with
          (top_k_modes MULTI_CLASS_MAX MULTI_CLASS_COVERAGE (hist (window ac_ s0))); by rewrite Hw').
  assert (E : pick K s2 = expected_strategy K l).
  { unfold pick, expected_strategy, paired_pattern, pc_pattern. rewrite andb_false_r. cbn [s2].
    change (active s2) with ac_. change (window ac_ s2) with (window ac_ s0). rewrite Hw'.
    cbn [hist window_of]. change (concentrated (free_dist s2)) with false.
    rewrite andb_false_r. cbn [andb]. change (lifetime s2) with Hold.
    by rewrite Hcl. }
  rewrite E. unfold spec_of, expected_spec.
  assert (Hsp : ∀ (b : bool) (x y : CallSiteSummary) (Q : CallSiteSummary -> Prop), Q x -> Q y -> Q (if b then x else y))
    by (by intros [] ).
  apply Hsp; change (window _ _) with (window ac_ s0); rewrite Hw'; split_and!; try done.
  all: rewrite <- Hcl; reflexivity.
Qed.

Lemma advance_compile {B : Backend} K id k prev l n s :
  filling id k prev l n s -> prev ≠ [] -> 0 <= k -> g_stable_windows K <= k + 1 -> k + 1 < 2 ^ 32 ->
  ks_stable (hist_of l) (hist_of prev) (g_ks_alpha K) = true -> g_trace_only K = false -> 0 < n < 2 ^ 64 ->
  let r := compile n (expected_spec K id l) in
  ∃ s', advance_prespec K s = (s', if r =? 0 then None else Some (id, r)) ∧
    s_id s' = id ∧ s_phase s' = Compiled ∧ candidate s' = expected_strategy K l ∧ lifetime s' = Hold.
Proof.
  intros Hs Hne Hk HT Hlt Hks Htr Hn r. unfold advance_prespec.
  assert (E : window (u8 (1 - active s)) s = window_of prev).
  { rewrite u8_small; [apply Hs|]. destruct (f_active _ _ _ _ _ _ Hs) as [-> | ->]; pow2; lia. }
  rewrite E, (f_current _ _ _ _ _ _ Hs), (f_stable _ _ _ _ _ _ Hs). unfold window_of. cbn [hist w_count].
  rewrite Hks, andb_true_r, Z.gtb_ltb, (proj2 (Z.ltb_lt _ _)) by (destruct prev; [done|simpl; lia]).
  rewrite u32_small by lia.
  destruct (stable_spec (k + 1) s) as (_ & _ & -> & _ & Hid & _).
  rewrite Z.geb_leb, (proj2 (Z.leb_le _ _)) by lia.
  apply (filling_stable _ _ (k + 1)) in Hs.
  assert (blacklisted (set_stable_windows (k + 1) s) = false) as ->.
  { exact (f_equal (λ x, x.1.1.2) (f_identity _ _ _ _ _ _ Hs)). }
  rewrite Htr. destruct (learn_filling K id _ _ _ _ _ Hs Hn) as (Hi & Hp & Hc & Hl & Hsp).
  cbv zeta. simpl orb. cbv iota. rewrite Hsp, event_count_learn, (f_count _ _ _ _ _ _ Hs). fold r. destruct (r =? 0); eexists; (split; [by rewrite ?Hi|]); [done|].
  rewrite <- Hi, <- Hp, <- Hc, <- Hl. by destruct (learn K _).
Qed.

(** Events at a table that holds just their site. *)
Lemma event_at {B : Backend} K ev s l :
  0 < ev_size ev < MAX_SIZE -> s_id s = ev_call_site ev -> (l = [s] ∨ l = [] ∧ s = summary0 (ev_call_site ev)) ->
  apply_op K (Event ev) l = ([(on_alloc K ev s).1], (on_alloc K ev s).2).
Proof.
  intros Hsz Hid Hl. simpl. unfold process_event.
  rewrite (proj2 (Z.eqb_neq _ _)), Z.geb_leb, (proj2 (Z.leb_gt _ _)) by lia.
  assert ((find_or_create (ev_call_site ev) l) = (Some 0%nat, [s])) as ->.
  { destruct Hl as [->|[-> ->]]; unfold find_or_create, find_site; simpl; [|done].
    by rewrite Hid, Z.eqb_refl. }
  simpl. by destruct (on_alloc K ev s).
Qed.

Lemma run_ops_snoc {B : Backend} K ops o l :
  run_ops K (ops ++ [o]) l =
  let '(l1, is1) := run_ops K ops l in
  let (l2, i2) := apply_op K o l1 in (l2, is1 ++ option_list i2).
Proof.
  revert l. induction ops as [|o' ops IH]; intros l; simpl.
  - destruct (apply_op K o l). by rewrite app_nil_r.
  - destruct (apply_op K o' l) as [l1 i1]. rewrite IH. destruct (run_ops K ops l1) as [l2 is2].
    destruct (apply_op K o l2) as [l3 i3]. by rewrite app_assoc.
Qed.

Section stationary.
  Context {B : Backend} (K : Knobs) (id : CallSiteID) (evs : list AllocEvent) (W T : nat).
Let szs : list Z := ev_size <$> evs.
  (** The sizes of the [j]-th window of [W] events. *)
Let win (j : nat) : list Z := take W (drop (j * W) szs).

  Hypothesis HW : g_window_size K = Z.of_nat W ∧ (0 < W)%nat ∧ Z.of_nat W < 2 ^ 32.
  Hypothesis HT : g_stable_windows K = Z.of_nat T ∧ (0 < T)%nat ∧ Z.of_nat T < 2 ^ 32.
  Hypothesis Hlen : length evs = ((T + 1) * W)%nat.
  Hypothesis Hid : Forall (λ ev, ev_call_site ev = id ∧ 0 < ev_size ev < MAX_SIZE) evs.
  (** The stability test accepts each window against the one before. *)
  Hypothesis Hstab : ∀ j, (j < T)%nat ->
    ks_stable (hist_of (win (S j))) (hist_of (win j)) (g_ks_alpha K) = true.

Lemma win_nonempty j : (j <= T)%nat -> win j ≠ [].
Proof.
  intros Hj E. destruct HW as (_ & Hpos & _). apply (f_equal length) in E.
  unfold win, szs in E. rewrite length_take, length_drop, length_fmap, Hlen in E. simpl in E. nia.
Qed.

(** The table after the first [p] events, [p = j * W + r]. *)
Lemma stationary_prefix p j r :
  p = (j * W + r)%nat -> (r < W)%nat -> (j <= T)%nat ->
  ∃ s l, run_ops K (Event <$> take p evs) [] = (l, []) ∧ (l = [s] ∨ l = [] ∧ s = summary0 id) ∧
    filling id (Z.of_nat (pred j)) (if decide (j = 0%nat) then [] else win (pred j))
      (take r (win j)) (Z.of_nat p) s.
Proof.
  destruct HW as (EW & Hpos & HW'), HT as (ET & HTpos & HT').
  revert j r. induction p as [|p IH]; intros j r Hp Hr Hj.
  { assert (j = 0 ∧ r = 0)%nat as [-> ->] by nia. exists (summary0 id), [].
    split_and!; [done|by right|]. rewrite decide_True by done. simpl. rewrite take_0. apply filling_new. }
  assert (Hpl : (p < length evs)%nat) by nia.
  destruct (lookup_lt_is_Some_2 evs p Hpl) as [ev Hev].
  pose proof (Forall_lookup_1 _ _ _ _ Hid Hev) as [Hs Hz].
  assert (HP : Z.of_nat p + 1 < 2 ^ 64) by (revert HW' HT'; pow2; nia).
  rewrite (take_S_r _ _ _ Hev), fmap_app. cbn [fmap list_fmap]. rewrite run_ops_snoc.
  assert (Hgrow : ∀ j r, p = (j * W + r)%nat -> (r < W)%nat -> take (S r) (win j) = take r (win j) ++ [ev_size ev]).
  { intros j' r' -> Hr'. apply take_S_r. unfold win. rewrite lookup_take_lt by done.
    rewrite lookup_drop. unfold szs. by rewrite list_lookup_fmap, Hev. }
  assert (Hlw : ∀ j r, p = (j * W + r)%nat -> (r < W)%nat -> length (take r (win j)) = r).
  { intros j' r' -> Hr'. unfold win, szs. rewrite !length_take, length_drop, length_fmap. lia. }
  destruct r as [|r].
  - destruct j as [|j]; [lia|].
    destruct (IH j (pred W)) as (s & l & E & Hl & Hf); [lia..|]. rewrite E.
    assert (Hi : s_id s = ev_call_site ev) by (rewrite Hs; exact (f_equal (λ x, x.1.1.1.1.1) (f_identity _ _ _ _ _ _ Hf))).
    rewrite (event_at K ev s l) by (try done; by rewrite Hs).
    specialize (Hgrow j (pred W)). specialize (Hlw j (pred W)).
    destruct (filling_event K id _ _ _ _ ev s Hf) as (s1 & Hf1 & ->); [lia..|rewrite Hlw; lia|].
    rewrite <- Hgrow in Hf1 by lia. rewrite Hlw by lia.
    rewrite EW, Z.geb_leb, (proj2 (Z.leb_le _ _)) by lia.
    replace (take (S (pred W)) (win j)) with (win j) in Hf1 by (unfold win; rewrite take_take; f_equal; lia).
    replace (Z.of_nat p + 1) with (Z.of_nat (S p)) in Hf1 by lia.
    rewrite (decide_False (P := S j = 0%nat)) by done. simpl pred. rewrite take_0.
    destruct (decide (j = 0%nat)) as [->|Hj0].
    + destruct (advance_first K id _ _ _ s1 Hf1) as (s2 & -> & Hf2). exists s2, [s2]. simpl. auto.
    + destruct (advance_wait K id _ _ _ _ s1 Hf1) as (s2 & -> & Hf2); [apply win_nonempty; lia|lia|lia|lia| |].
      { destruct j as [|j]; [done|]. apply Hstab. lia. }
      exists s2, [s2]. simpl. split_and!; auto.
      by replace (Z.of_nat j) with (Z.of_nat (pred j) + 1) by lia.
  - destruct (IH j r) as (s & l & E & Hl & Hf); [lia..|]. rewrite E.
    assert (Hi : s_id s = ev_call_site ev) by (rewrite Hs; exact (f_equal (λ x, x.1.1.1.1.1) (f_identity _ _ _ _ _ _ Hf))).
    rewrite (event_at K ev s l) by (try done; by rewrite Hs).
    specialize (Hgrow j r). specialize (Hlw j r).
    destruct (filling_event K id _ _ _ _ ev s Hf) as (s1 & Hf1 & ->); [lia..|rewrite Hlw; lia|].
    rewrite <- Hgrow in Hf1 by lia. rewrite Hlw by lia.
    rewrite EW, Z.geb_leb, (proj2 (Z.leb_gt _ _)) by lia.
    replace (Z.of_nat p + 1) with (Z.of_nat (S p)) in Hf1 by lia.
    exists s1, [s1]. simpl. auto.
Qed.

Lemma stationary_before p : (p < length evs)%nat -> (run_ops K (Event <$> take p evs) []).2 = [].
Proof.
  intros Hp. destruct HW as (EW & Hpos & HW').
  destruct (stationary_prefix p (p / W)%nat (p mod W)%nat) as (s & l & -> & _); [| | |done].
  - rewrite Nat.mul_comm. apply Nat.div_mod. lia.
  - apply Nat.mod_upper_bound. lia.
  - enough (p / W < T + 1)%nat by lia. apply Nat.Div0.div_lt_upper_bound. lia.
Qed.

Lemma stationary_end :
  g_trace_only K = false ->
  let r := compile (Z.of_nat (length evs)) (expected_spec K id (win T)) in
  ∃ s, run_ops K (Event <$> evs) [] = ([s], if r =? 0 then [] else [(id, r)]) ∧
    s_id s = id ∧ s_phase s = Compiled ∧ candidate s = expected_strategy K (win T) ∧ lifetime s = Hold.
Proof.
  intros Htr r. destruct HW as (EW & Hpos & HW'), HT as (ET & HTpos & HT').
  destruct (lookup_lt_is_Some_2 evs (pred (length evs))) as [ev Hev]; [nia|].
  pose proof (Forall_lookup_1 _ _ _ _ Hid Hev) as [Hs Hz].
  destruct (stationary_prefix (T * W + pred W) T (pred W)) as (s & l & E & Hl & Hf); [lia..|].
  replace (pred (length evs)) with (T * W + pred W)%nat in Hev by lia.
  assert (evs = take (S (T * W + pred W)) evs) as Hevs by (by rewrite take_ge by lia).
  rewrite Hevs, (take_S_r _ _ _ Hev), fmap_app. cbn [fmap list_fmap]. rewrite run_ops_snoc, E.
  assert (Hi : s_id s = ev_call_site ev) by (rewrite Hs; exact (f_equal (λ x, x.1.1.1.1.1) (f_identity _ _ _ _ _ _ Hf))).
  rewrite (event_at K ev s l) by (try done; by rewrite Hs).
  assert (Hlw : length (take (pred W) (win T)) = pred W).
  { unfold win, szs. rewrite !length_take, length_drop, length_fmap. lia. }
  assert (Hp : Z.of_nat (T * W + pred W) + 1 < 2 ^ 64) by (revert HW' HT'; pow2; nia).
  destruct (filling_event K id _ _ _ _ ev s Hf) as (s1 & Hf1 & ->); [lia..|rewrite Hlw; lia|].
  rewrite Hlw, EW, Z.geb_leb, (proj2 (Z.leb_le _ _)) by lia.
  assert (Hgrow : take (pred W) (win T) ++ [ev_size ev] = win T).
  { rewrite <- take_S_r; [unfold win; rewrite take_take; f_equal; lia|]. unfold win.
    rewrite lookup_take_lt, lookup_drop by lia. unfold szs. by rewrite list_lookup_fmap, Hev. }
  rewrite Hgrow, decide_False in Hf1 by lia.
  destruct (advance_compile K id _ _ _ _ s1 Hf1) as (s2 & -> & H2); [apply win_nonempty; lia|lia..| |done|lia|].
  { destruct T as [|T']; [lia|]. apply Hstab. lia. }
  exists s2. split; [|done]. replace (Z.of_nat (T * W + pred W) + 1) with (Z.of_nat (length evs)) by lia.
  fold r. simpl. by destruct (r =? 0).
Qed.
End stationary.

(** Windows that hold the same sizes, in any order, are stable. *)
Lemma permuted_stable (base w w' : list Z) (W : nat) a :
  Z.of_nat W < 2 ^ 32 -> (0 < W)%nat -> length base = W -> overflow (hist_of base) = false ->
  Forall (λ x, x < MAX_SIZE) w -> base ≡ₚ w -> base ≡ₚ w' ->
  ks_stable (hist_of w) (hist_of w') a = true.
Proof.
  intros HW Hpos Hl Ho HF Hw Hw'.
  destruct (window_perm base w) as (Hl' & Ho' & _); auto; [by rewrite Hl|].
  apply permuted_windows_stable; [done|done| |by rewrite <- Hw].
  destruct w as [|x w]; [apply Permutation_length in Hw; simpl in Hw; lia|].
  unfold trackable. rewrite filter_cons_True; [done|]. by inversion HF.
Qed.

(** C13: a site whose windows stay alike is specialized at the earliest possible
    moment, and only then.  A run of allocations of one site, none of whose blocks is
    seen to be freed and no other site's events between them, fills [T + 1] windows
    of [W] events (any window size and threshold below 2^32), and the stability test
    accepts each window against the one before.  The first [T] windows and all but
    the last event of the next one install nothing; that last event, unless the
    process only traces, makes the site [Compiled], tags it as holding its memory,
    picks the strategy its last window calls for (or the forced one) and installs
    what [compile] returns for exactly that window's dominant size or size classes,
    if it is not null. *)
Theorem stationary_site_compiles {B : Backend} (K : Knobs) (id : CallSiteID)
    (evs : list AllocEvent) (W T : nat) :
  let win j := take W (drop (j * W) (ev_size <$> evs)) in
  g_window_size K = Z.of_nat W ∧ (0 < W)%nat ∧ Z.of_nat W < 2 ^ 32 ->
  g_stable_windows K = Z.of_nat T ∧ (0 < T)%nat ∧ Z.of_nat T < 2 ^ 32 ->
  g_trace_only K = false ->
  length evs = ((T + 1) * W)%nat ->
  Forall (λ ev, ev_call_site ev = id ∧ 0 < ev_size ev < MAX_SIZE) evs ->
  (∀ j, (j < T)%nat -> ks_stable (hist_of (win (S j))) (hist_of (win j)) (g_ks_alpha K) = true) ->
  (∀ p, (p < length evs)%nat -> (run_ops K (Event <$> take p evs) []).2 = []) ∧
  let r := compile (Z.of_nat (length evs)) (expected_spec K id (win T)) in
  ∃ s, run_ops K (Event <$> evs) [] = ([s], if r =? 0 then [] else [(id, r)]) ∧
    s_id s = id ∧ s_phase s = Compiled ∧ candidate s = expected_strategy K (win T) ∧ lifetime s = Hold.
Proof.
  intros win HW HT Htr Hlen Hid Hstab.
  split; [by apply (stationary_before K id evs W T) | by apply (stationary_end K id evs W T)].
Qed.

(** Windows of four 16-byte and 8-byte allocations, in changing order and number. *)
Definition mixed_events : list AllocEvent :=
  (λ sz, mkAllocEvent 1 sz 0 7 0) <$> [8; 16; 8; 16; 8; 8; 16; 8; 16; 8; 8; 16].

Lemma stationary_site_compiles_witness :
  (@run_ops plain_backend (mkKnobs 2 4 KS_ALPHA_DEFAULT 3 false false Generic)
     (Event <$> mixed_events) []).2 = [(1, 4096)] ∧
  expected_strategy (mkKnobs 2 4 KS_ALPHA_DEFAULT 3 false false Generic) [16; 8; 8; 16] = MultiSizeFreeList.
Proof.
  split; [|vm_compute; reflexivity].
  destruct (@stationary_site_compiles plain_backend (mkKnobs 2 4 KS_ALPHA_DEFAULT 3 false false Generic)
    1 mixed_events 4 2) as [_ (s & -> & _)].
  - split_and!; [done|lia|done].
  - split_and!; [done|lia|done].
  - done.
  - done.
  - repeat (constructor; [split; [reflexivity|split; vm_compute; reflexivity]|]). constructor.
  - intros [|[|j]] Hj; [vm_compute; reflexivity|vm_compute; reflexivity|exfalso; lia].
  - reflexivity.
Defined.
