(* ===== verification/Workloads.v ===== *)
(** * The benchmark programs as event streams ([src/bench/])

    Each program under [src/bench/] is a loop of [malloc] and [free] calls; what it
    does to the analysis is its stream of allocation and free events, for any
    addresses [malloc] returns.  The first part of the file is about sites whose
    blocks are freed in nested order; the second models the programs of one thread
    and shows which strategy the analysis picks for them. *)

From S2P Require Import Prelude Common Double Histogram Ks Analysis Evidence Picker.

(** ** What frees touch *)

(** The summary without what only frees and pointers write. *)
Definition erase (s : CallSiteSummary) : CallSiteSummary :=
  set_lifo_stack [] (set_top_pair (mkPair 0 0 0) (set_free_dist dist0 (set_free_count 0 s))).

(** And that part. *)
Definition fpart (s : CallSiteSummary) : Z * ThreadDist * PairCandidate * list ptr :=
  (free_count s, free_dist s, top_pair s, lifo_stack s).

Lemma erase_recorded w s : erase (set_window (active s) w s) = set_window (active s) w (erase s).
Proof. summary s. unfold erase, fpart, set_window. fields. by case_match. Qed.

Lemma fpart_recorded k w s : fpart (set_window k w s) = fpart s.
Proof. summary s. unfold erase, fpart, set_window. fields. by case_match. Qed.

Lemma erase_flip s : erase (flip_window s) = flip_window (erase s).
Proof. summary s. unfold erase, fpart, flip_window, set_window. fields. by case_match. Qed.

Lemma fpart_flip s : fpart (flip_window s) = fpart s.
Proof. summary s. unfold erase, fpart, flip_window, set_window. fields. by case_match. Qed.

Lemma erase_stable v s : erase (set_stable_windows v s) = set_stable_windows v (erase s).
Proof. by summary s. Qed.

Lemma fpart_stable v s : fpart (set_stable_windows v s) = fpart s.
Proof. by summary s. Qed.

Lemma erase_observe ev s : erase (observe_alloc ev s) = erase (observe_alloc ev (erase s)).
Proof. summary s. unfold erase, fpart, observe_alloc. fields. destruct (ev_ptr ev =? 0); fields; case_match; reflexivity. Qed.

Lemma fpart_observe ev s :
  fpart (observe_alloc ev s) =
  (free_count s, free_dist s, top_pair s,
   if ev_ptr ev =? 0 then lifo_stack s else lifo_push (ev_ptr ev) (lifo_stack s)).
Proof. summary s. unfold erase, fpart, observe_alloc. fields. destruct (ev_ptr ev =? 0); fields; case_match; reflexivity. Qed.

(** ** A waiting site *)

(** The window is stable against the previous one; enough have been; the site may
    be compiled. *)
Definition stable_window (K : Knobs) (s : CallSiteSummary) : bool :=
  let prev := window (u8 (1 - active s)) s in
  (w_count prev >? 0) && ks_stable (hist (window (active s) s)) (hist prev) (g_ks_alpha K).

Definition specializes (K : Knobs) (s : CallSiteSummary) : bool :=
  stable_window K s && (u32 (stable_windows s + 1) >=? g_stable_windows K)
  && negb (blacklisted s || g_trace_only K).

(** The windows go on. *)
Definition wait (K : Knobs) (s : CallSiteSummary) : CallSiteSummary :=
  if stable_window K s then
    let n := u32 (stable_windows s + 1) in
    if n >=? g_stable_windows K then flip_window (set_stable_windows 0 s)
    else flip_window (set_stable_windows n s)
  else flip_window (set_stable_windows 0 s).

(** [advance_prespec] past the tests. *)
Definition specialize {B : Backend} (K : Knobs) (s : CallSiteSummary)
  : CallSiteSummary * option (CallSiteID * ptr) :=
  let s := learn K (set_stable_windows (u32 (stable_windows s + 1)) s) in
  let routine := compile (event_count s) (spec_of s) in
  if routine =? 0 then (s, None) else (set_code_page routine s, Some (s_id s, routine)).

Lemma advance_split {B : Backend} K s :
  advance_prespec K s = if specializes K s then specialize K s else (wait K s, None).
Proof.
  unfold advance_prespec, specializes, wait, specialize, stable_window.
  destruct (_ && ks_stable _ _ _); [|done].
  destruct (stable_spec (u32 (stable_windows s + 1)) s) as (_ & _ & -> & _). cbn [andb].
  destruct (_ >=? _); [|done].
  replace (blacklisted (set_stable_windows (u32 (stable_windows s + 1)) s)) with (blacklisted s)
    by by summary s.
  destruct (blacklisted s || g_trace_only K); [|done]. cbn [negb andb]. by summary s.
Qed.

Lemma reads_erase K s :
  stable_window K (erase s) = stable_window K s ∧ stable_windows (erase s) = stable_windows s ∧
  specializes K (erase s) = specializes K s.
Proof. by summary s. Qed.

Lemma erase_wait K s : erase (wait K s) = wait K (erase s).
Proof.
  destruct (reads_erase K s) as (E1 & E2 & _). unfold wait. rewrite E1, E2.
  by repeat case_match; rewrite erase_flip, erase_stable.
Qed.

Lemma fpart_wait K s : fpart (wait K s) = fpart s.
Proof. unfold wait. by repeat case_match; rewrite fpart_flip, fpart_stable. Qed.

Lemma specialize_phase {B : Backend} K s : s_phase (specialize K s).1 = Compiled.
Proof.
  unfold specialize, learn. summary s. fields. by repeat (case_match; fields).
Qed.

(** The summary of a site that is not compiled, its window extended. *)
Definition extend (ev : AllocEvent) (s : CallSiteSummary) : CallSiteSummary :=
  let s := observe_alloc ev s in
  set_window (active s) (window_record (ev_size ev) (window (active s) s)) s.

Lemma on_alloc_extend {B : Backend} K ev s :
  s_phase s = PreSpec ->
  on_alloc K ev s =
    let s := extend ev s in
    if full K (window (active s) s) then advance_prespec K s else (s, None).
Proof.
  intros Hp. unfold on_alloc, extend. rewrite observe_phase, Hp, decide_False by done.
  by rewrite bool_decide_true.
Qed.

Lemma erase_extend ev s s0 : erase s = erase s0 -> erase (extend ev s) = erase (extend ev s0).
Proof.
  intros E. unfold extend. rewrite (erase_recorded _ (observe_alloc ev s)), (erase_recorded _ (observe_alloc ev s0)).
  assert (Eo : erase (observe_alloc ev s) = erase (observe_alloc ev s0)).
  { by rewrite (erase_observe ev s), (erase_observe ev s0), E. }
  assert (∀ x, active (erase x) = active x ∧ ∀ k, window k (erase x) = window k x) as Hr by (by intros x; summary x).
  destruct (Hr (observe_alloc ev s)) as [<- <-], (Hr (observe_alloc ev s0)) as [<- <-]. by rewrite Eo.
Qed.

Lemma fpart_extend ev s :
  fpart (extend ev s) =
  (free_count s, free_dist s, top_pair s,
   if ev_ptr ev =? 0 then lifo_stack s else lifo_push (ev_ptr ev) (lifo_stack s)).
Proof. unfold extend. by rewrite fpart_recorded, fpart_observe. Qed.

(** Two sites that differ in their frees only take the same steps until one is
    compiled. *)
Lemma on_alloc_simulates {B : Backend} K ev s s0 :
  s_phase s0 = PreSpec -> s_phase (on_alloc K ev s0).1 = PreSpec -> erase s = erase s0 ->
  erase (on_alloc K ev s).1 = erase (on_alloc K ev s0).1 ∧ (on_alloc K ev s).2 = None ∧
  fpart (on_alloc K ev s).1 = fpart (extend ev s).
Proof.
  intros Hp0 Hp1 E.
  assert (Hp : s_phase s = PreSpec).
  { transitivity (s_phase (erase s)); [by summary s|]. rewrite E. rewrite <- Hp0. by summary s0. }
  rewrite (on_alloc_extend K ev s Hp). rewrite (on_alloc_extend K ev s0 Hp0) in Hp1 |- *. cbv zeta in *.
  pose proof (erase_extend ev s s0 E) as Ex. revert Ex Hp1. generalize (extend ev s) (extend ev s0).
  clear s s0 E Hp Hp0. intros s s0 E Hp.
  assert (full K (window (active s) s) = full K (window (active s0) s0)) as ->.
  { transitivity (full K (window (active (erase s)) (erase s))); [by summary s|]. rewrite E. by summary s0. }
  destruct (full K _); [|done]. rewrite advance_split in Hp |- *. rewrite advance_split.
  assert (specializes K s = specializes K s0) as ->.
  { destruct (reads_erase K s) as (_ & _ & <-), (reads_erase K s0) as (_ & _ & <-). by rewrite E. }
  destruct (specializes K s0); [by rewrite specialize_phase in Hp|].
  simpl. rewrite !erase_wait, E. by rewrite fpart_wait.
Qed.

(** ** Nested streams *)

(** The live blocks (newest last), the allocations and the number of frees of a
    stream in which every free is of the newest live block, at most [LIFO_DEPTH]
    blocks are live and no address is null. *)
Definition nest1 (st : option (list ptr * list AllocEvent * nat)) (o : op)
  : option (list ptr * list AllocEvent * nat) :=
  match st, o with
  | Some (live, al, m), Event ev =>
      if ev_size ev =? 0 then
        if negb (ev_ptr ev =? 0) && bool_decide (last live = Some (ev_ptr ev))
        then Some (removelast live, al, S m) else None
      else if negb (ev_ptr ev =? 0) && (length live <? LIFO_DEPTH)%nat
           then Some (live ++ [ev_ptr ev], al ++ [ev], m) else None
  | _, _ => None
  end.

Definition nest (ops : list op) : option (list ptr * list AllocEvent * nat) :=
  foldl nest1 (Some ([], [], 0%nat)) ops.

Lemma nest_snoc ops o : nest (ops ++ [o]) = nest1 (nest ops) o.
Proof. unfold nest. by rewrite foldl_app. Qed.

(** The frees are all of site [f] and outside the segments. *)
Definition freed_by {B : Backend} (f : CallSiteID) (o : op) : Prop :=
  match o with
  | Event ev => ev_size ev = 0 -> ev_call_site ev = f ∧ managed ev = false
  | Reset _ _ => True
  end.

(** The pair evidence after [m] frees, all matched. *)
Definition pairs (f : CallSiteID) (m : nat) : PairCandidate :=
  if decide (m = 0%nat) then mkPair 0 0 0 else mkPair f (Z.of_nat m) (Z.of_nat m).

Definition evidence (f : CallSiteID) (live : list ptr) (m : nat) (s : CallSiteSummary) : Prop :=
  free_count s = Z.of_nat m ∧ top_pair s = pairs f m ∧ lifo_stack s = live.

Lemma evidence_free {B : Backend} f live m s ev :
  evidence f live m s -> ev_call_site ev = f -> last live = Some (ev_ptr ev) -> Z.of_nat m + 1 < 2 ^ 32 ->
  evidence f (removelast live) (S m) (on_free false ev s) ∧ erase (on_free false ev s) = erase s.
Proof.
  intros (Hc & Hp & Hl) Hf Hlast Hm. unfold on_free, evidence, erase, pairs in *. summary s. fields.
  cbn [free_count top_pair lifo_stack] in *. subst.
  assert (Er : pair_record (ev_call_site ev)
      (if decide (m = 0%nat) then mkPair 0 0 0 else mkPair (ev_call_site ev) (Z.of_nat m) (Z.of_nat m))
      = mkPair (ev_call_site ev) (Z.of_nat (S m)) (Z.of_nat m)).
  { unfold pair_record. case_decide as E; fields; [by subst|].
    rewrite Z.eqb_refl, orb_true_r, u32_small by lia. f_equal. lia. }
  rewrite Er. unfold lifo_top. fields. rewrite Hlast, Z.eqb_refl. fields. rewrite Z.eqb_refl. fields.
  rewrite u64_small, u32_small by (pow2; lia). split_and!; try done; try lia.
  rewrite decide_False by lia. f_equal; lia.
Qed.

(** A site with frees beside the same site without. *)
Section nested.
  Context {B : Backend} (K : Knobs) (id f : CallSiteID) (evs : list AllocEvent) (W T : nat).
Let szs : list Z := ev_size <$> evs.
Let win (j : nat) : list Z := take W (drop (j * W) szs).

  Hypothesis HW : g_window_size K = Z.of_nat W ∧ (0 < W)%nat ∧ Z.of_nat W < 2 ^ 32.
  Hypothesis HT : g_stable_windows K = Z.of_nat T ∧ (0 < T)%nat ∧ Z.of_nat T < 2 ^ 32.
  Hypothesis Hlen : length evs = ((T + 1) * W)%nat.
  Hypothesis Hid : Forall (λ ev, ev_call_site ev = id ∧ 0 < ev_size ev < MAX_SIZE) evs.
  Hypothesis Hstab : ∀ j, (j < T)%nat ->
    ks_stable (hist_of (win (S j))) (hist_of (win j)) (g_ks_alpha K) = true.
  Hypothesis Hsmall : Z.of_nat (length evs) < 2 ^ 32.

(** The summary of the site, [summary0] before its first event. *)
Definition the_site (l : list CallSiteSummary) (s : CallSiteSummary) : Prop :=
  l = [s] ∨ l = [] ∧ s = summary0 id.

Lemma prefix_filling p :
  (p < length evs)%nat ->
  ∃ s0 l0 k prev, run_ops K (Event <$> take p evs) [] = (l0, []) ∧ the_site l0 s0 ∧
    filling id k prev (take (p mod W) (win (p / W))) (Z.of_nat p) s0.
Proof.
  intros Hp. destruct HW as (EW & Hpos & HW').
  destruct (stationary_prefix K id evs W T HW HT Hlen Hid Hstab p (p / W)%nat (p mod W)%nat)
    as (s & l & E & Hl & Hf).
  - rewrite Nat.mul_comm. apply Nat.div_mod. lia.
  - apply Nat.mod_upper_bound. lia.
  - enough (p / W < T + 1)%nat by lia. apply Nat.Div0.div_lt_upper_bound. lia.
  - eauto 10.
Qed.

Definition follows (ops : list op) (live : list ptr) (p m : nat) : Prop :=
  ∃ l s s0 l0, run_ops K ops [] = (l, []) ∧ the_site l s ∧ (p ≠ 0%nat -> l = [s]) ∧
    run_ops K (Event <$> take p evs) [] = (l0, []) ∧ the_site l0 s0 ∧
    erase s = erase s0 ∧ evidence f live m s.

Lemma nest_prefix ops o live al m :
  nest (ops ++ [o]) = Some (live, al, m) ->
  ∃ live' al' m', nest ops = Some (live', al', m') ∧ (length al' <= length al)%nat ∧
    (m' <= m)%nat ∧ al' `prefix_of` al.
Proof.
  rewrite nest_snoc. destruct (nest ops) as [[[live' al'] m']|]; [|by destruct o].
  destruct o as [ev|]; [|done]. cbn [nest1]. intros H. eexists _, _, _. split; [done|].
  case_match; case_match; simplify_eq.
  - split_and!; [lia..|done].
  - rewrite length_app. split_and!; [simpl; lia | lia | by eexists].
Qed.

Lemma nest_frees ops live al m : nest ops = Some (live, al, m) -> (length live + m = length al)%nat.
Proof.
  revert live al m. induction ops as [|o ops IH] using rev_ind; intros live al m H.
  { by cbn in H; simplify_eq. }
  rewrite nest_snoc in H. destruct (nest ops) as [[[live' al'] m']|]; [|by destruct o].
  specialize (IH _ _ _ eq_refl). destruct o as [ev|]; [|done]. cbn [nest1] in H.
  case_match; case_match eqn:E; simplify_eq.
  - apply andb_true_iff in E as [_ E]. apply bool_decide_eq_true in E.
    destruct live' as [|q live' _] using rev_ind; [done|].
    rewrite removelast_last. rewrite length_app in IH. simpl in IH. lia.
  - rewrite !length_app. simpl. lia.
Qed.

Lemma the_site_unique l s s' : the_site l s -> the_site l s' -> s = s'.
Proof. intros [-> | [-> ->]] [E | [E ->]]; by simplify_eq. Qed.

(** The bare run, one allocation further. *)
Lemma bare_step p ev s0 l0 :
  evs !! p = Some ev -> (S p < length evs)%nat ->
  run_ops K (Event <$> take p evs) [] = (l0, []) -> the_site l0 s0 ->
  s_phase s0 = PreSpec ∧ s_id s0 = id ∧ s_phase (on_alloc K ev s0).1 = PreSpec ∧
  run_ops K (Event <$> take (S p) evs) [] = ([(on_alloc K ev s0).1], []).
Proof.
  intros Hev Hp Er Hs. pose proof (Forall_lookup_1 _ _ _ _ Hid Hev) as [Hc Hz].
  destruct (prefix_filling p ltac:(lia)) as (s0' & l0' & k & prev & Er' & Hs' & Hf).
  rewrite Er in Er'. simplify_eq. pose proof (the_site_unique _ _ _ Hs Hs') as <-.
  assert (Hi : s_id s0 = id) by exact (f_equal (λ x, x.1.1.1.1.1) (f_identity _ _ _ _ _ _ Hf)).
  destruct (prefix_filling (S p) Hp) as (s1 & l1 & k1 & prev1 & Er1 & Hs1 & Hf1).
  pose proof Er1 as Er2.
  rewrite (take_S_r _ _ _ Hev), fmap_app in Er2. cbn [fmap list_fmap] in Er2.
  rewrite run_ops_snoc, Er, (event_at K ev s0 l0') in Er2; [|done|congruence|by rewrite Hc].
  injection Er2 as E1 E2. subst l1. destruct Hs1 as [[= Es] | [? _]]; [|done].
  split_and!; [apply Hf | done | rewrite Es; apply Hf1 | done].
Qed.

Lemma nested_follows ops live al m :
  nest ops = Some (live, al, m) -> Forall (freed_by f) ops ->
  al `prefix_of` evs -> (length al < length evs)%nat -> follows ops live (length al) m.
Proof.
  revert live al m. induction ops as [|o ops IH] using rev_ind; intros live al m Hn Hf Hpre Hlt.
  { cbn in Hn. simplify_eq. exists [], (summary0 id), (summary0 id), []. simpl.
    split_and!; try done; by right. }
  destruct (nest_prefix _ _ _ _ _ Hn) as (live' & al' & m' & Hn' & Hl & Hm & Hpre').
  apply Forall_app in Hf as [Hf Hfo]. inversion_clear Hfo as [|?? Ho _].
  pose proof (nest_frees _ _ _ _ Hn') as Hcnt.
  destruct (IH _ _ _ Hn' Hf) as (l & s & s0 & l0 & Er & Hs & Hne & Er0 & Hs0 & Ee & Hev).
  { by transitivity al. } { lia. }
  rewrite nest_snoc, Hn' in Hn. destruct o as [ev|]; [|done]. cbn [nest1] in Hn.
  unfold follows. rewrite run_ops_snoc, Er. destruct (ev_size ev =? 0) eqn:Ez.
  - (* a free of the newest block *)
    case_match eqn:Ec; [|done]. injection Hn as <- <- <-. apply andb_true_iff in Ec as [Hnz Hlast].
    apply bool_decide_eq_true in Hlast. zb. destruct (Ho Ez) as [Hsite Hman].
    assert (Hp : length al' ≠ 0%nat).
    { intros E0. destruct live'; [done|]. simpl in Hcnt. lia. }
    rewrite (Hne Hp). cbn [apply_op]. unfold process_event. rewrite (proj2 (Z.eqb_eq _ _) Ez).
    rewrite (proj2 (Z.eqb_neq _ _)) by done. rewrite Hman. cbn [find_index].
    destruct (evidence_free _ _ _ _ ev Hev Hsite Hlast ltac:(lia)) as [Hev' Ee'].
    assert (lifo_top s (ev_ptr ev) = true) as ->.
    { unfold lifo_top. destruct Hev as (_ & _ & ->). rewrite Hlast. by rewrite Z.eqb_refl. }
    simpl. exists [on_free false ev s], (on_free false ev s), s0, l0.
    split_and!; try done; [by left | by rewrite Ee'].
  - (* an allocation *)
    case_match eqn:Ec; [|done]. injection Hn as <- <- <-. apply andb_true_iff in Ec as [Hnz Hroom]. zb.
    destruct Hpre as [rest Hrest]. rewrite length_app in Hlt. simpl in Hlt.
    assert (Hlook : evs !! length al' = Some ev).
    { rewrite Hrest, <- app_assoc. by apply list_lookup_middle. }
    pose proof (Forall_lookup_1 _ _ _ _ Hid Hlook) as [Hc Hz].
    destruct (bare_step _ _ _ _ Hlook ltac:(lia) Er0 Hs0) as (Hp0 & Hi0 & Hp1 & Er1).
    assert (Hi : s_id s = id).
    { rewrite <- Hi0. transitivity (s_id (erase s)); [by summary s|]. rewrite Ee. by summary s0. }
    rewrite (event_at K ev s l); [|done|congruence|by rewrite Hc].
    destruct (on_alloc_simulates K ev s s0 Hp0 Hp1 Ee) as (Ee' & -> & Hfp).
    rewrite fpart_extend, (proj2 (Z.eqb_neq _ _)) in Hfp by done.
    exists [(on_alloc K ev s).1], (on_alloc K ev s).1, (on_alloc K ev s0).1, [(on_alloc K ev s0).1].
    rewrite length_app. cbn [length]. rewrite Nat.add_1_r.
    split_and!; try done; try by left.
    destruct Hev as (E1 & E2 & E3). unfold fpart in Hfp. simplify_eq. unfold evidence.
    split_and!; try congruence. unfold lifo_push in *. rewrite Hroom in *. congruence.
Qed.

(** ** The specialization *)

Lemma specializes_filling k prev l n s :
  filling id k prev l n s -> prev ≠ [] -> 0 <= k -> g_stable_windows K <= k + 1 -> k + 1 < 2 ^ 32 ->
  ks_stable (hist_of l) (hist_of prev) (g_ks_alpha K) = true -> g_trace_only K = false ->
  specializes K s = true.
Proof.
  intros Hs Hne Hk HT1 Hlt Hks Htr. unfold specializes, stable_window.
  assert (E : window (u8 (1 - active s)) s = window_of prev).
  { rewrite u8_small; [apply Hs|]. destruct (f_active _ _ _ _ _ _ Hs) as [-> | ->]; pow2; lia. }
  rewrite E, (f_current _ _ _ _ _ _ Hs), (f_stable _ _ _ _ _ _ Hs). unfold window_of. cbn [hist w_count].
  rewrite Hks, andb_true_r, Z.gtb_ltb, (proj2 (Z.ltb_lt _ _)) by (destruct prev; [done|simpl; lia]).
  rewrite u32_small, Z.geb_leb, (proj2 (Z.leb_le _ _)) by lia.
  assert (blacklisted s = false) as -> by exact (f_equal (λ x, x.1.1.2) (f_identity _ _ _ _ _ _ Hs)).
  by rewrite Htr.
Qed.

(** The share of the allocations whose block was seen freed. *)
Definition mostly_freed (m n : Z) : Prop :=
  dleb PAIRED_PAIR_RATIO (ratio m n) = true ∧ dleb LIFETIME_REAP_RATIO (ratio m n) = true.

Lemma specialize_nested k prev l n live m s :
  filling id k prev l n (erase s) -> evidence f live m s -> forced K = Generic ->
  (0 < m)%nat -> Z.of_nat m < 2 ^ 32 -> 0 < n -> mostly_freed (Z.of_nat m) n ->
  let r := compile n (mkSpec id PairedStack (dominant_size (hist_of l)) []) in
  ∃ s', specialize K s = (s', if r =? 0 then None else Some (id, r)) ∧
    s_id s' = id ∧ s_phase s' = Compiled ∧ candidate s' = PairedStack ∧ lifetime s' = Reap.
Proof.
  intros Hs (Hfc & Htp & _) Hfo Hm Hm32 Hn [Hpair Hreap] r. unfold specialize.
  assert (s_id s = id ∧ event_count s = n ∧ window (active s) s = window_of l) as (Hi & Hc & Hw).
  { rewrite <- (f_count _ _ _ _ _ _ Hs), <- (f_current _ _ _ _ _ _ Hs). split; [|by summary s].
    transitivity (s_id (erase s)); [by summary s|].
    exact (f_equal (λ x, x.1.1.1.1.1) (f_identity _ _ _ _ _ _ Hs)). }
  clear Hs k prev. summary s. cbn [s_id event_count active free_count top_pair lifo_stack] in *. subst.
  set (s0 := mkSummary _ _ _ _ _ _ _ _ _ _ _ _ _ _ _ _ _ _ _ _ _ _) in *.
  unfold learn. set (s1 := set_stable_windows _ s0).
  set (s2 := set_baseline (hist (window (active s1) s1)) s1).
  assert (Hl : lifetime_of s2 = Reap).
  { unfold lifetime_of. change (event_count s2) with n. change (free_count s2) with (Z.of_nat m).
    rewrite Z.gtb_ltb, (proj2 (Z.ltb_lt _ _)) by lia. by rewrite Hreap. }
  rewrite Hl. set (s3 := set_classes _ (set_lifetime Reap s2)).
  assert (Hp : pick K s3 = PairedStack).
  { unfold pick. rewrite Hfo. assert (paired_pattern s3 = true) as ->; [|done].
    unfold paired_pattern. change (event_count s3) with n. change (top_pair s3) with (pairs f m).
    unfold pairs. rewrite decide_False by lia. cbn [pair_count lifo_count].
    rewrite !Z.gtb_ltb, !(proj2 (Z.ltb_lt _ _)) by lia. cbn [andb]. rewrite Hpair. cbn [andb].
    destruct literal_normal as (k & Hk & Hk0).
    eapply ratio_ge_one; [lia | pow2; lia | exact Hk | exact Hk0]. }
  rewrite Hp.
  assert (Hh : hist (window ac_ s0) = hist_of l) by by rewrite Hw.
  assert (Hsp : ∀ (b : bool) (x y : CallSiteSummary) (Q : CallSiteSummary -> Prop), Q x -> Q y -> Q (if b then x else y))
    by (by intros [] ).
  set (s4 := if first_compile_events _ =? 0 then set_first_compile_events _ _ else _).
  assert (event_count s4 = n ∧ spec_of s4 = mkSpec id PairedStack (dominant_size (hist_of l)) [] ∧ s_id s4 = id ∧
          s_phase s4 = Compiled ∧ candidate s4 = PairedStack ∧ lifetime s4 = Reap) as (-> & -> & Ei & Ep & Ec & El).
  { unfold s4. apply Hsp; (split_and!; [reflexivity| |reflexivity..]); rewrite <- Hh; reflexivity. }
  fold r. clearbody s4 r. clear - Ei Ep Ec El. destruct (r =? 0); eexists; (split; [by rewrite ?Ei|]); [done|].
  rewrite <- Ei, <- Ep, <- Ec, <- El. by destruct s4.
Qed.

Lemma filling_extend k prev l n ev s :
  0 <= n -> n + 1 < 2 ^ 64 -> Z.of_nat (length l) + 1 < 2 ^ 32 ->
  filling id k prev l n s -> filling id k prev (l ++ [ev_size ev]) (n + 1) (extend ev s).
Proof. intros. unfold extend. apply filling_record; [done|]. by apply filling_observe. Qed.

(** The last allocation of the last window. *)
Lemma nested_end ops ev live al m :
  nest ops = Some (live, al, m) -> Forall (freed_by f) ops -> evs = al ++ [ev] ->
  g_trace_only K = false -> forced K = Generic -> (0 < m)%nat ->
  mostly_freed (Z.of_nat m) (Z.of_nat (length evs)) ->
  let r := compile (Z.of_nat (length evs)) (mkSpec id PairedStack (dominant_size (hist_of (win T))) []) in
  ∃ s, run_ops K (ops ++ [Event ev]) [] = ([s], if r =? 0 then [] else [(id, r)]) ∧
    s_id s = id ∧ s_phase s = Compiled ∧ candidate s = PairedStack ∧ lifetime s = Reap.
Proof.
  intros Hn Hf Eevs Htr Hfo Hm Hr r. destruct HW as (EW & Hpos & HW'), HT as (ET & HTpos & HT').
  assert (Hlal : length evs = S (length al)) by (rewrite Eevs, length_app; simpl; lia).
  assert (Hlook : evs !! length al = Some ev) by (rewrite Eevs; by apply list_lookup_middle).
  pose proof (Forall_lookup_1 _ _ _ _ Hid Hlook) as [Hc Hz].
  pose proof (nest_frees _ _ _ _ Hn) as Hcnt.
  destruct (nested_follows ops live al m Hn Hf) as (l & s & s0 & l0 & Er & Hs & _ & Er0 & Hs0 & Ee & Hev);
    [rewrite Eevs; by eexists | lia |].
  assert (Hal : length al = (T * W + pred W)%nat) by nia.
  destruct (stationary_prefix K id evs W T HW HT Hlen Hid Hstab (length al) T (pred W))
    as (s0' & l0' & Er0' & Hs0' & Hfill); [lia..|].
  rewrite Er0 in Er0'. injection Er0' as <-. pose proof (the_site_unique _ _ _ Hs0 Hs0') as <-.
  assert (Hlw : length (take (pred W) (win T)) = pred W).
  { unfold win, szs. rewrite !length_take, length_drop, length_fmap. lia. }
  assert (Hgrow : take (pred W) (win T) ++ [ev_size ev] = win T).
  { rewrite <- take_S_r; [unfold win; rewrite take_take; f_equal; lia|]. unfold win.
    rewrite lookup_take_lt, lookup_drop by lia. unfold szs.
    rewrite list_lookup_fmap. replace (T * W + pred W)%nat with (length al) by lia. by rewrite Hlook. }
  assert (Hpre : s_phase s0 = PreSpec) by apply Hfill.
  assert (Hp : s_phase s = PreSpec).
  { transitivity (s_phase (erase s)); [by summary s|]. rewrite Ee, <- Hpre. by summary s0. }
  assert (Hi : s_id s = id).
  { transitivity (s_id (erase s)); [by summary s|]. rewrite Ee. transitivity (s_id s0); [by summary s0|].
    exact (f_equal (λ x, x.1.1.1.1.1) (f_identity _ _ _ _ _ _ Hfill)). }
  rewrite run_ops_snoc, Er, (event_at K ev s l); [|done|congruence|by rewrite Hc].
  rewrite (on_alloc_extend K ev s Hp). cbv zeta.
  change (take W (drop (T * W) (ev_size <$> evs))) with (win T) in Hfill.
  apply (filling_extend _ _ _ _ ev) in Hfill; [|lia|pow2; lia|rewrite Hlw; lia].
  rewrite Hgrow in Hfill.
  assert (Hfe : filling id (Z.of_nat (pred T)) (if decide (T = 0%nat) then [] else win (pred T)) (win T)
                  (Z.of_nat (length al) + 1) (erase (extend ev s))).
  { rewrite (erase_extend ev s s0 Ee). destruct Hfill as [F1 F2 F3 F4 F5 F6 F7].
    revert F1 F2 F3 F4 F5 F6 F7. generalize (extend ev s0). intros x F1 F2 F3 F4 F5 F6 F7.
    constructor; try (by summary x). rewrite <- F6. summary x. unfold identity in F6. fields.
    cbn [s_id free_count deopt_count blacklisted free_dist top_pair] in F6. by simplify_eq. }
  assert (Hfull : full K (window (active (extend ev s)) (extend ev s)) = true).
  { transitivity (full K (window (active (erase (extend ev s))) (erase (extend ev s)))).
    { generalize (extend ev s). intros x. by summary x. }
    rewrite (f_current _ _ _ _ _ _ Hfe). unfold full, window_of. cbn [w_count].
    rewrite EW, Z.geb_leb. apply Z.leb_le. rewrite <- Hgrow, length_app, Hlw. simpl. lia. }
  rewrite Hfull, advance_split.
  assert (specializes K (extend ev s) = true) as ->.
  { destruct (reads_erase K (extend ev s)) as (_ & _ & <-). rewrite decide_False in Hfe by lia.
    eapply (specializes_filling _ _ _ _ _ Hfe); [apply win_nonempty with (K := K) (T := T); try done; lia|lia..| |done].
    destruct T as [|T']; [lia|]. apply Hstab. lia. }
  assert (Hev' : evidence f (lifo_stack (extend ev s)) m (extend ev s)).
  { pose proof (fpart_extend ev s) as Hfp. unfold fpart in Hfp.
    injection Hfp as E1 E2 E3 _. destruct Hev as (H1 & H2 & _). by split_and!; [congruence..|]. }
  replace (Z.of_nat (length al) + 1) with (Z.of_nat (length evs)) in Hfe by lia.
  destruct (specialize_nested _ _ _ _ _ _ _ Hfe Hev' Hfo Hm) as (s' & -> & H'); [lia|lia|done|].
  exists s'. fold r. split; [by destruct (r =? 0)|done].
Qed.
End nested.

(** C14: frees in nested order make a site a paired one.  The events are one site's
    allocations and, in between, frees of its blocks at one other place, which lie
    outside the segments: each free is of the newest live block and at most 16 are
    live, from whatever threads.  The stability test accepts each of the [T + 1]
    windows of [W] allocations against the one before; no strategy is forced and the
    process does not only trace; by the last allocation the frees seen are, to the
    analysis's rounding, at least 95 percent of the allocations ([mostly_freed]).
    Then nothing is installed before the last allocation of the last window, and
    that one compiles the site as [PairedStack], for its last window's dominant size
    however many sizes it has, and tags it for reaping. *)
Theorem nested_site_compiles {B : Backend} (K : Knobs) (id f : CallSiteID) (ops : list op)
    (ev : AllocEvent) (live : list ptr) (al : list AllocEvent) (m W T : nat) :
  let evs := al ++ [ev] in
  let win j := take W (drop (j * W) (ev_size <$> evs)) in
  g_window_size K = Z.of_nat W ∧ (0 < W)%nat ∧ Z.of_nat W < 2 ^ 32 ->
  g_stable_windows K = Z.of_nat T ∧ (0 < T)%nat ∧ Z.of_nat T < 2 ^ 32 ->
  g_trace_only K = false -> forced K = Generic ->
  nest ops = Some (live, al, m) -> Forall (freed_by f) ops ->
  length evs = ((T + 1) * W)%nat -> Z.of_nat (length evs) < 2 ^ 32 ->
  Forall (λ ev, ev_call_site ev = id ∧ 0 < ev_size ev < MAX_SIZE) evs ->
  (∀ j, (j < T)%nat -> ks_stable (hist_of (win (S j))) (hist_of (win j)) (g_ks_alpha K) = true) ->
  (0 < m)%nat -> mostly_freed (Z.of_nat m) (Z.of_nat (length evs)) ->
  (run_ops K ops []).2 = [] ∧
  let r := compile (Z.of_nat (length evs)) (mkSpec id PairedStack (dominant_size (hist_of (win T))) []) in
  ∃ s, run_ops K (ops ++ [Event ev]) [] = ([s], if r =? 0 then [] else [(id, r)]) ∧
    s_id s = id ∧ s_phase s = Compiled ∧ candidate s = PairedStack ∧ lifetime s = Reap.
Proof.
  intros evs win HW HT Htr Hfo Hn Hf Hlen Hsmall Hid Hstab Hm Hr. split.
  - destruct (nested_follows K id f evs W T HW HT Hlen Hid Hstab Hsmall ops live al m Hn Hf)
      as (l & s & s0 & l0 & -> & _); [by eexists | | done].
    unfold evs. rewrite length_app. simpl. lia.
  - by apply (nested_end K id f evs W T HW HT Hlen Hid Hstab Hsmall ops ev live al m).
Qed.

(** ** The programs *)

(** What a program calls; [Free k] is of the block of the [k]-th [malloc], from 0.
    [malloc] does not fail: the programs exit when it does. *)
Inductive call :=
  | Malloc (size : Z)
  | Free (k : nat).

Fixpoint mallocs (l : list call) : nat :=
  match l with
  | [] => 0
  | Malloc _ :: l => S (mallocs l)
  | Free _ :: l => mallocs l
  end.

Definition SIZE : Z := 48.

(** One iteration of each program's loop, the [i]-th. *)
Definition monomorphic_body (i : nat) : list call := [Malloc SIZE; Free i].

Definition bimodal_body (i : nat) : list call :=
  [Malloc (default 0 ([32; 96] !! Z.to_nat (Z.land (Z.of_nat i) 1))); Free i].

Definition mixed_body (i : nat) : list call :=
  [Malloc (default 0 ([32; 64; 128] !! (i mod 3)%nat)); Free i].

(** [run_one_burst]. *)
Definition pulse_burst (b : nat) : list call :=
  flat_map (λ i, [Malloc SIZE; Free (b * 200 + i)]) (seq 0 200).

(** [one_cycle]. *)
Definition lifo_cycle (c : nat) : list call :=
  replicate 8 (Malloc SIZE) ++ ((λ d, Free (c * 8 + d)) <$> reverse (seq 0 8)).

Definition arena_cycle (c : nat) : list call :=
  replicate 200 (Malloc SIZE) ++ ((λ i, Free (c * 200 + i)) <$> seq 0 200).

Definition hold_body (i : nat) : list call := [Malloc SIZE].

Definition loop (body : nat -> list call) (n : nat) : list call := flat_map body (seq 0 n).

(** The programs of one thread ([producer_consumer] is [Handoff]'s: the events of
    its two threads reach the analysis ring by ring, not in the order of the calls).
    The warm-up and the measured loop of [lifo] and [pulse] share their
    call sites; those of the other programs are apart. *)
Inductive program := Monomorphic | Bimodal | Mixed | Pulse | Lifo | Arena | Hold_.

Definition body (p : program) : nat -> list call :=
  match p with
  | Monomorphic => monomorphic_body
  | Bimodal => bimodal_body
  | Mixed => mixed_body
  | Pulse => pulse_burst
  | Lifo => lifo_cycle
  | Arena => arena_cycle
  | Hold_ => hold_body
  end.

Definition iterations (p : program) : list Z :=
  match p with
  | Monomorphic | Bimodal => [30000; 1000000]
  | Mixed => [30000; 600000]
  | Pulse => [50 + 5000]
  | Lifo => [4000 + 100000]
  | Arena => [100; 5000]
  | Hold_ => [30000; 500000]
  end.

(** The calls one site of the program makes, and is paired with. *)
Definition site_calls (p : program) (n : Z) : list call := loop (body p) (Z.to_nat n).

(** ** Their events *)

Section Stream.
  (** The malloc's site and thread, the free's, the addresses [malloc] returns
      and the time stamps. *)
  Context {B : Backend} (site f tid ftid : Z) (addr stamp fstamp : nat -> Z).
  Hypothesis Haddr : ∀ i, addr i ≠ 0 ∧ unmanaged (addr i).

Definition alloc_at (n : nat) (sz : Z) : AllocEvent := mkAllocEvent site sz (stamp n) tid (addr n).
Definition free_at (k : nat) : AllocEvent := mkAllocEvent f 0 (fstamp k) ftid (addr k).

Fixpoint calls_events (n : nat) (l : list call) : list op :=
  match l with
  | [] => []
  | Malloc sz :: l => Event (alloc_at n sz) :: calls_events (S n) l
  | Free k :: l => Event (free_at k) :: calls_events n l
  end.

Lemma mallocs_app l l' : mallocs (l ++ l') = (mallocs l + mallocs l')%nat.
Proof. induction l as [|[] l IH]; simpl; rewrite ?IH; done. Qed.

Lemma events_app n l l' : calls_events n (l ++ l') = calls_events n l ++ calls_events (n + mallocs l) l'.
Proof.
  revert n. induction l as [|[sz|k] l IH]; intros n; simpl; [by rewrite Nat.add_0_r| |].
  - by rewrite IH, <- Nat.add_succ_comm.
  - by rewrite IH.
Qed.

(** All sizes positive: no [malloc] looks like a free. *)
Definition sized (l : list call) : Prop := Forall (λ c, match c with Malloc sz => 0 < sz | Free _ => True end) l.

Lemma events_freed n l : sized l -> Forall (freed_by f) (calls_events n l).
Proof.
  intros H. revert n. induction H as [|[sz|k] l H Hl IH]; intros n; simpl; constructor; auto.
  - simpl. lia.
  - simpl. intros _. split; [done|by apply (proj2 (Haddr k))].
Qed.

Definition allocs_from (n : nat) (szs : list Z) : list AllocEvent := imap (λ i sz, alloc_at (n + i) sz) szs.

Lemma allocs_from_cons n sz szs : allocs_from n (sz :: szs) = alloc_at n sz :: allocs_from (S n) szs.
Proof.
  unfold allocs_from. simpl. rewrite Nat.add_0_r. f_equal. apply imap_ext. intros i x _. simpl.
  f_equal. lia.
Qed.

(** Some allocations in a row. *)
Lemma nest_mallocs n szs live al m :
  Forall (λ sz, 0 < sz) szs -> (length live + length szs <= LIFO_DEPTH)%nat ->
  foldl nest1 (Some (live, al, m)) (calls_events n (Malloc <$> szs)) =
  Some (live ++ (addr <$> seq n (length szs)), al ++ allocs_from n szs, m).
Proof.
  intros H. revert n live al. induction H as [|sz szs H Hs IH]; intros n live al Hl; simpl.
  { by rewrite !app_nil_r. }
  rewrite (proj2 (Z.eqb_neq _ _)) by lia. rewrite (proj2 (Z.eqb_neq (addr n) 0)) by apply Haddr.
  simpl in Hl. rewrite (proj2 (Nat.ltb_lt _ _)) by lia. simpl.
  rewrite IH by (rewrite length_app; simpl; lia). rewrite <- !app_assoc. simpl.
  by rewrite allocs_from_cons.
Qed.

(** Their frees, newest first. *)
Lemma nest_frees_back n k (ks : nat -> nat) live al m c :
  (∀ i, (i < k)%nat -> ks i = (n + i)%nat) ->
  foldl nest1 (Some (live ++ (addr <$> seq n k), al, m)) (calls_events c ((λ d, Free (ks d)) <$> reverse (seq 0 k))) =
  Some (live, al, (m + k)%nat).
Proof.
  revert m c. induction k as [|k IH]; intros m c Hk.
  { simpl. by rewrite app_nil_r, Nat.add_0_r. }
  rewrite !seq_S, reverse_app, fmap_app, app_assoc. cbn [reverse rev_append app fmap list_fmap].
  change (reverse [(0 + k)%nat]) with [k]. simpl. rewrite (Hk k) by lia.
  rewrite (proj2 (Z.eqb_neq (addr (n + k)) 0)) by apply Haddr.
  rewrite last_snoc, bool_decide_true by done. simpl. rewrite removelast_last, IH by (intros; apply Hk; lia).
  f_equal. f_equal. lia.
Qed.

(** A loop whose [i]-th iteration allocates blocks of sizes [szs i], [k] of them, and
    frees them newest first. *)
Definition rounds (bd : nat -> list call) (szs : nat -> list Z) (k : nat) : Prop :=
  ∀ i, length (szs i) = k ∧ Forall (λ sz, 0 < sz) (szs i) ∧ ∃ ks,
    bd i = (Malloc <$> szs i) ++ ((λ d, Free (ks d)) <$> reverse (seq 0 k)) ∧
    ∀ d, (d < k)%nat -> ks d = (i * k + d)%nat.

Lemma mallocs_all szs : mallocs (Malloc <$> szs) = length szs.
Proof. induction szs as [|sz szs IH]; [done|]. simpl. f_equal. exact IH. Qed.

Lemma mallocs_frees {A} (ks : A -> nat) l : mallocs ((λ d, Free (ks d)) <$> l) = 0%nat.
Proof. by induction l. Qed.

Lemma loop_S bd n : loop bd (S n) = loop bd n ++ bd n.
Proof. unfold loop. rewrite seq_S, flat_map_app. simpl. by rewrite app_nil_r. Qed.

Lemma rounds_mallocs bd szs k n : rounds bd szs k -> mallocs (loop bd n) = (n * k)%nat.
Proof.
  intros H. induction n as [|n IH]; [done|]. rewrite loop_S, mallocs_app, IH.
  destruct (H n) as (Hk & _ & ks & -> & _). rewrite mallocs_app, mallocs_all, mallocs_frees. lia.
Qed.

Lemma allocs_from_app n a b : allocs_from n (a ++ b) = allocs_from n a ++ allocs_from (n + length a) b.
Proof.
  unfold allocs_from. rewrite imap_app. f_equal. apply imap_ext. intros i x _. simpl. f_equal. lia.
Qed.

Definition round_sizes (szs : nat -> list Z) (n : nat) : list Z := flat_map szs (seq 0 n).

Lemma round_sizes_S szs n : round_sizes szs (S n) = round_sizes szs n ++ szs n.
Proof. unfold round_sizes. rewrite seq_S, flat_map_app. simpl. by rewrite app_nil_r. Qed.

Lemma round_sizes_length bd szs k n : rounds bd szs k -> length (round_sizes szs n) = (n * k)%nat.
Proof.
  intros H. induction n as [|n IH]; [done|]. rewrite round_sizes_S, length_app, IH.
  destruct (H n) as (-> & _). lia.
Qed.

Lemma nest_rounds bd szs k n :
  rounds bd szs k -> (k <= LIFO_DEPTH)%nat ->
  nest (calls_events 0 (loop bd n)) = Some ([], allocs_from 0 (round_sizes szs n), (n * k)%nat).
Proof.
  intros H Hk. unfold nest. induction n as [|n IH]; [done|].
  rewrite loop_S, events_app, foldl_app, IH, (rounds_mallocs _ _ _ _ H). clear IH.
  destruct (H n) as (Hlen & Hpos & ks & -> & Hks). rewrite events_app, foldl_app. simpl plus.
  rewrite nest_mallocs, Hlen by (try done; simpl; lia).
  rewrite nest_frees_back by done. rewrite round_sizes_S, allocs_from_app.
  rewrite (round_sizes_length _ _ _ _ H). f_equal. f_equal. lia.
Qed.

(** Whole iterations, and some of the allocations of the next one. *)
Lemma nest_rounds_part bd szs k n part :
  rounds bd szs k -> (length part <= LIFO_DEPTH)%nat -> (k <= LIFO_DEPTH)%nat -> Forall (λ sz, 0 < sz) part ->
  nest (calls_events 0 (loop bd n ++ (Malloc <$> part))) =
  Some (addr <$> seq (n * k) (length part), allocs_from 0 (round_sizes szs n ++ part), (n * k)%nat).
Proof.
  intros H Hp Hk Hpos. unfold nest.
  rewrite events_app, foldl_app. pose proof (nest_rounds bd szs k n H Hk) as E. unfold nest in E. rewrite E.
  rewrite (rounds_mallocs _ _ _ _ H). simpl plus. rewrite nest_mallocs by (try done; simpl; lia).
  by rewrite allocs_from_app, (round_sizes_length _ _ _ _ H).
Qed.

Lemma sizes_of_allocs n szs : ev_size <$> allocs_from n szs = szs.
Proof.
  revert n. induction szs as [|sz szs IH]; intros n; [done|]. rewrite allocs_from_cons. simpl.
  by rewrite IH.
Qed.

Lemma sized_rounds bd szs k n : rounds bd szs k -> sized (loop bd n).
Proof.
  intros H. induction n as [|n IH]; [by constructor|]. rewrite loop_S. apply Forall_app. split; [done|].
  destruct (H n) as (_ & Hpos & ks & -> & _). apply Forall_app. split.
  - by apply Forall_fmap.
  - apply Forall_fmap. by apply Forall_true.
Qed.

(** The calls up to the [n]-th [malloc]. *)
Fixpoint upto (n : nat) (l : list call) : list call :=
  match n, l with
  | O, _ | _, [] => []
  | S n', Malloc sz :: l => Malloc sz :: upto n' l
  | _, Free k :: l => Free k :: upto n l
  end.

Lemma upto_app n l l' : (mallocs l < n)%nat -> upto n (l ++ l') = l ++ upto (n - mallocs l) l'.
Proof.
  revert n. induction l as [|[sz|k] l IH]; intros n H; simpl; [by rewrite Nat.sub_0_r|..].
  - simpl in H. destruct n as [|n]; [lia|]. by rewrite IH by lia.
  - simpl in H. destruct n as [|n]; [lia|]. by rewrite IH by lia.
Qed.

Lemma loop_split bd n m : (n <= m)%nat -> ∃ l, loop bd m = loop bd n ++ l ∧ (n < m -> ∃ l', l = bd n ++ l')%nat.
Proof.
  intros H. exists (flat_map bd (seq n (m - n))). split.
  - unfold loop. rewrite <- flat_map_app. f_equal.
    replace (seq n (m - n)) with (seq (0 + n) (m - n)) by done. rewrite <- seq_app. f_equal. lia.
  - intros Hlt. destruct (m - n)%nat eqn:E; [lia|]. simpl. by eexists.
Qed.

Lemma upto_mallocs j szs l : (j <= length szs)%nat -> upto j ((Malloc <$> szs) ++ l) = Malloc <$> take j szs.
Proof.
  revert j. induction szs as [|sz szs IH]; intros j Hj; simpl in Hj.
  - by replace j with 0%nat by lia; destruct l as [|[] ?].
  - destruct j as [|j]; [done|]. simpl. f_equal. apply IH. lia.
Qed.

(** The complete iterations before the [N]-th allocation. *)
Definition complete (N k : nat) : nat := (pred N / k)%nat.

Lemma complete_spec N k :
  (0 < N)%nat -> (0 < k)%nat -> (complete N k * k < N <= complete N k * k + k)%nat.
Proof.
  intros HN Hk. unfold complete. pose proof (Nat.div_mod (pred N) k ltac:(lia)).
  pose proof (Nat.mod_upper_bound (pred N) k ltac:(lia)). lia.
Qed.

Lemma upto_rounds bd szs k N M :
  rounds bd szs k -> (0 < k)%nat -> (0 < N)%nat -> (complete N k < M)%nat ->
  upto N (loop bd M) =
  loop bd (complete N k) ++ (Malloc <$> take (N - complete N k * k) (szs (complete N k))).
Proof.
  intros H Hk HN HM. pose proof (complete_spec N k HN Hk) as Hc.
  destruct (loop_split bd (complete N k) M) as (l & -> & Hl); [lia|]. destruct (Hl HM) as (l' & ->).
  rewrite upto_app by (rewrite (rounds_mallocs _ _ _ _ H); lia). f_equal.
  rewrite (rounds_mallocs _ _ _ _ H).
  destruct (H (complete N k)) as (Hlen & _ & ks & -> & _). rewrite <- app_assoc.
  apply upto_mallocs. lia.
Qed.

(** The sizes of the first [N] allocations. *)
Definition first_sizes (szs : nat -> list Z) (N k : nat) : list Z :=
  take N (round_sizes szs (S (complete N k))).

Lemma first_sizes_split bd szs k N :
  rounds bd szs k -> (0 < k)%nat -> (0 < N)%nat ->
  first_sizes szs N k =
  round_sizes szs (complete N k) ++ take (N - complete N k * k) (szs (complete N k)).
Proof.
  intros H Hk HN. pose proof (complete_spec N k HN Hk) as Hc. unfold first_sizes.
  rewrite round_sizes_S, take_app, (round_sizes_length _ _ _ _ H), take_ge; [done|].
  rewrite (round_sizes_length _ _ _ _ H). lia.
Qed.

(** [W] allocations per window, [T + 1] windows. *)
Definition window_sizes (W : nat) (szs : list Z) (j : nat) : list Z := take W (drop (j * W) szs).

Definition windows_accepted (K : Knobs) (W T : nat) (szs : list Z) : bool :=
  forallb (λ j, ks_stable (hist_of (window_sizes W szs (S j))) (hist_of (window_sizes W szs j)) (g_ks_alpha K))
    (seq 0 T).

Definition sizes_recorded (szs : list Z) : bool := forallb (λ sz, (0 <? sz) && (sz <? MAX_SIZE)) szs.

(** The first compilation of a site whose blocks are freed newest first. *)
Lemma rounds_compile K bd szs k W T M :
  let N := ((T + 1) * W)%nat in
  let S := first_sizes szs N k in
  let m := (complete N k * k)%nat in
  rounds bd szs k -> (0 < k <= LIFO_DEPTH)%nat -> (complete N k < M)%nat ->
  g_window_size K = Z.of_nat W ∧ (0 < W)%nat ∧ Z.of_nat W < 2 ^ 32 ->
  g_stable_windows K = Z.of_nat T ∧ (0 < T)%nat ∧ Z.of_nat T < 2 ^ 32 ->
  g_trace_only K = false -> forced K = Generic -> Z.of_nat N < 2 ^ 32 -> (0 < m)%nat ->
  mostly_freed (Z.of_nat m) (Z.of_nat N) ->
  windows_accepted K W T S = true -> sizes_recorded S = true ->
  let r := compile (Z.of_nat N) (mkSpec site PairedStack (dominant_size (hist_of (window_sizes W S T))) []) in
  ∃ s, run_ops K (calls_events 0 (upto N (loop bd M))) [] = ([s], if r =? 0 then [] else [(site, r)]) ∧
    s_id s = site ∧ s_phase s = Compiled ∧ candidate s = PairedStack ∧ lifetime s = Reap.
Proof.
  intros N Sz m H Hk HM HW HT Htr Hfo HN32 Hm Hr Hwin Hsz r.
  assert (HN : (0 < N)%nat) by (unfold N; nia).
  pose proof (complete_spec N k HN ltac:(lia)) as Hc. destruct (H (complete N k)) as (Hlen & Hpos & _).
  set (part := take (N - complete N k * k) (szs (complete N k))).
  assert (Hpl : length part = (N - complete N k * k)%nat) by (unfold part; rewrite length_take; lia).
  assert (Hpp : Forall (λ sz, 0 < sz) part) by by apply Forall_take.
  assert (ES : Sz = round_sizes szs (complete N k) ++ part) by (apply (first_sizes_split bd); [done|lia|done]).
  assert (HSl : length Sz = N) by (rewrite ES, length_app, (round_sizes_length _ _ _ _ H); lia).
  rewrite (upto_rounds _ szs k) by (try done; lia). fold part.
  destruct part as [|sz part' _] eqn:Epart using rev_ind; [simpl in Hpl; lia|]. clear Epart.
  rewrite length_app in Hpl. simpl in Hpl.
  rewrite fmap_app, app_assoc, events_app. cbn [fmap list_fmap calls_events].
  set (ops := calls_events 0 (loop bd (complete N k) ++ (Malloc <$> part'))).
  assert (Ecnt : (0 + mallocs (loop bd (complete N k) ++ (Malloc <$> part')) = length (round_sizes szs (complete N k) ++ part'))%nat).
  { rewrite mallocs_app, (rounds_mallocs _ _ _ _ H), mallocs_all, length_app, (round_sizes_length _ _ _ _ H). lia. }
  rewrite Ecnt.
  apply Forall_app in Hpp as [Hpp' _].
  pose proof (nest_rounds_part bd szs k (complete N k) part' H ltac:(lia) ltac:(lia) Hpp') as Hn. fold ops in Hn.
  assert (Eal : allocs_from 0 Sz = allocs_from 0 (round_sizes szs (complete N k) ++ part') ++
                [alloc_at (length (round_sizes szs (complete N k) ++ part')) sz]).
  { rewrite ES, app_assoc, allocs_from_app. f_equal. rewrite allocs_from_cons. done. }
  assert (Esz : ev_size <$> allocs_from 0 Sz = Sz) by apply sizes_of_allocs.
  assert (EL : length (allocs_from 0 Sz) = N) by (unfold allocs_from; by rewrite length_imap).
  pose proof (nested_end K site f (allocs_from 0 Sz) W T HW HT EL) as Hend. rewrite Esz, EL in Hend.
  eapply Hend; [| |done|exact Hn| |exact Eal|done..].
  - apply Forall_forall. intros e He.
    assert (He' : ev_size e ∈ Sz) by (rewrite <- Esz; by apply list_elem_of_fmap_2).
    unfold sizes_recorded in Hsz. rewrite forallb_forall in Hsz.
    apply list_elem_of_In, Hsz, andb_true_iff in He' as [H1 H2].
    apply Z.ltb_lt in H1, H2. split; [|done].
    unfold allocs_from in He. apply list_elem_of_lookup in He as [i Hi].
    rewrite list_lookup_imap in Hi. apply fmap_Some in Hi as (? & _ & ->). done.
  - intros j Hj. unfold windows_accepted in Hwin. rewrite forallb_forall in Hwin.
    apply (Hwin j), in_seq. lia.
  - apply events_freed, Forall_app. split; [by eapply sized_rounds | by apply Forall_fmap].
Qed.

(** ** What is picked for the programs *)

(** One allocation and its free per iteration. *)
Lemma rounds_one bd (sz : nat -> Z) :
  (∀ i, bd i = [Malloc (sz i); Free i] ∧ 0 < sz i) -> rounds bd (λ i, [sz i]) 1.
Proof.
  intros H i. destruct (H i) as [-> Hs]. split; [done|]. split; [by constructor|].
  exists (λ d, i). split; [done|]. lia.
Qed.

Lemma monomorphic_rounds : rounds monomorphic_body (λ _, [SIZE]) 1.
Proof. by apply (rounds_one _ (λ _, SIZE)). Qed.

Lemma bimodal_rounds :
  rounds bimodal_body (λ i, [default 0 ([32; 96] !! Z.to_nat (Z.land (Z.of_nat i) 1))]) 1.
Proof.
  apply (rounds_one _ (λ i, default 0 ([32; 96] !! Z.to_nat (Z.land (Z.of_nat i) 1)))).
  intros i. split; [done|]. rewrite (land_mask _ 1) by lia. change (2 ^ 1) with 2.
  pose proof (Z.mod_pos_bound (Z.of_nat i) 2). assert (Z.of_nat i mod 2 = 0 ∨ Z.of_nat i mod 2 = 1) as [-> | ->] by lia; done.
Qed.

Lemma mixed_rounds : rounds mixed_body (λ i, [default 0 ([32; 64; 128] !! (i mod 3)%nat)]) 1.
Proof.
  apply (rounds_one _ (λ i, default 0 ([32; 64; 128] !! (i mod 3)%nat))). intros i. split; [done|].
  pose proof (Nat.mod_upper_bound i 3 ltac:(lia)) as H.
  destruct (i mod 3)%nat as [|[|[|?]]]; try done; lia.
Qed.

Lemma lifo_rounds : rounds lifo_cycle (λ _, replicate 8 SIZE) 8.
Proof.
  intros c. split; [done|]. split; [by apply Forall_replicate|]. by exists (λ d, c * 8 + d)%nat.
Qed.

Lemma burst_shift s o k :
  flat_map (λ i, [Malloc SIZE; Free (s + i)]) (seq o k) = flat_map monomorphic_body (seq (s + o) k).
Proof.
  revert o. induction k as [|k IH]; intros o; [done|]. cbn [seq flat_map app]. rewrite IH.
  by rewrite Nat.add_succ_r.
Qed.

Lemma pulse_loop n : loop pulse_burst n = loop monomorphic_body (n * 200).
Proof.
  induction n as [|n IH]; [done|]. rewrite loop_S, IH. unfold loop, pulse_burst.
  rewrite Nat.mul_succ_l, seq_app, flat_map_app, burst_shift. by rewrite Nat.add_0_r.
Qed.

(** The allocations after which a stable site is compiled, with the default knobs. *)
Definition FIRST_COMPILE : nat := ((10 + 1) * Z.to_nat 1000)%nat.

(** The dominant size of the last window. *)
Definition learned_size (p : program) : Z :=
  match p with
  | Bimodal => 32
  | Mixed => 64
  | _ => SIZE
  end.

(** A program's site from the lemmas about its rounds. *)
Lemma program_compiles bd szs k M d :
  rounds bd szs k -> (0 < k <= LIFO_DEPTH)%nat -> (complete FIRST_COMPILE k < M)%nat ->
  (0 < complete FIRST_COMPILE k * k)%nat ->
  mostly_freed (Z.of_nat (complete FIRST_COMPILE k * k)) (Z.of_nat FIRST_COMPILE) ->
  windows_accepted plain_knobs (Z.to_nat 1000) 10 (first_sizes szs FIRST_COMPILE k) = true ->
  sizes_recorded (first_sizes szs FIRST_COMPILE k) = true ->
  dominant_size (hist_of (window_sizes (Z.to_nat 1000) (first_sizes szs FIRST_COMPILE k) 10)) = d ->
  let r := compile (Z.of_nat FIRST_COMPILE) (mkSpec site PairedStack d []) in
  ∃ s, run_ops plain_knobs (calls_events 0 (upto FIRST_COMPILE (loop bd M))) [] =
      ([s], if r =? 0 then [] else [(site, r)]) ∧
    s_id s = site ∧ s_phase s = Compiled ∧ candidate s = PairedStack ∧ lifetime s = Reap.
Proof.
  intros H Hk HM Hm Hr Hw Hs <-.
  apply (rounds_compile plain_knobs bd szs k (Z.to_nat 1000) 10 M H Hk HM); try done; try lia.
  all: split_and!; lia || done.
Qed.

(** *** The sizes of a site that repeats a pattern *)

Lemma round_sizes_one (g : nat -> Z) n : round_sizes (λ i, [g i]) n = g <$> seq 0 n.
Proof.
  induction n as [|n IH]; [done|]. rewrite round_sizes_S, IH, seq_S, fmap_app. done.
Qed.

Lemma first_sizes_one (g : nat -> Z) N : (0 < N)%nat -> first_sizes (λ i, [g i]) N 1 = g <$> seq 0 N.
Proof.
  intros HN. unfold first_sizes, complete. rewrite Nat.div_1_r, round_sizes_one.
  replace (S (pred N)) with N by lia. apply take_ge. by rewrite length_fmap, length_seq.
Qed.

Lemma round_sizes_const k x n : round_sizes (λ _, replicate k x) n = replicate (n * k) x.
Proof.
  induction n as [|n IH]; [done|]. rewrite round_sizes_S, IH, <- replicate_add. f_equal. lia.
Qed.

Lemma first_sizes_const k x N :
  (0 < N)%nat -> (0 < k)%nat -> first_sizes (λ _, replicate k x) N k = (λ _, x) <$> seq 0 N.
Proof.
  intros HN Hk. pose proof (complete_spec N k HN Hk). unfold first_sizes.
  rewrite round_sizes_const, take_replicate, Nat.min_l by lia.
  symmetry. rewrite <- (length_seq N 0) at 2. induction (seq 0 N) as [|i l IH]; [done|]. simpl. by f_equal.
Qed.

Lemma window_of_pattern (g : nat -> Z) N W j :
  (j * W + W <= N)%nat -> window_sizes W (g <$> seq 0 N) j = g <$> seq (j * W) W.
Proof.
  intros H. unfold window_sizes. rewrite <- fmap_drop, <- fmap_take, drop_seq, take_seq. do 2 f_equal; lia.
Qed.

(** [g] repeats after [q]. *)
Definition periodic (q : nat) (g : nat -> Z) : Prop := ∀ i, g (i + q)%nat = g i.

Lemma periodic_window q g a b W : periodic q g -> g <$> seq (a + b * q) W = g <$> seq a W.
Proof.
  intros H. assert (Hb : ∀ b i, g (i + b * q)%nat = g i).
  { clear b. intros b. induction b as [|b IH]; intros i; simpl; [f_equal; lia|].
    rewrite Nat.add_assoc. rewrite IH. apply H. }
  revert a. induction W as [|W IH]; intros a; [done|]. cbn [seq fmap list_fmap]. f_equal; [apply Hb|].
  apply (IH (S a)).
Qed.

(** [W] congruent to 1 or 0: the windows are those at the first [q] offsets. *)
Lemma pattern_learned K q g W T d :
  let S := g <$> seq 0 ((T + 1) * W) in
  (0 < q)%nat -> periodic q g ->
  forallb (λ a, (0 <? g a) && (g a <? MAX_SIZE)) (seq 0 q) = true ->
  forallb (λ a, ks_stable (hist_of (g <$> seq ((a + W) mod q) W)) (hist_of (g <$> seq a W)) (g_ks_alpha K))
    (seq 0 q) = true ->
  dominant_size (hist_of (g <$> seq ((T * W) mod q) W)) = d ->
  windows_accepted K W T S = true ∧ sizes_recorded S = true ∧
  dominant_size (hist_of (window_sizes W S T)) = d.
Proof.
  intros Sz Hq Hg Hpos Hks Hd.
  assert (Hwin : ∀ j, (j <= T)%nat -> window_sizes W Sz j = g <$> seq ((j * W) mod q) W).
  { intros j Hj. unfold Sz. rewrite window_of_pattern by nia.
    rewrite (Nat.div_mod_eq (j * W) q) at 1.
    rewrite (Nat.add_comm (q * _)), (Nat.mul_comm q). by apply periodic_window. }
  assert (Hmod : ∀ i, g i = g (i mod q)%nat).
  { intros i. rewrite (Nat.div_mod_eq i q) at 1. rewrite (Nat.add_comm (q * _)), (Nat.mul_comm q).
    pose proof (periodic_window q g (i mod q) (i / q) 1 Hg) as E. simpl in E. by injection E. }
  split_and!.
  - unfold windows_accepted. apply forallb_forall. intros j [_ Hj]%in_seq.
    rewrite !Hwin by lia. rewrite forallb_forall in Hks.
    specialize (Hks ((j * W) mod q)%nat). rewrite <- Hks; [|apply in_seq; split; [lia|]; by apply Nat.mod_upper_bound; lia].
    do 4 f_equal. simpl. rewrite Nat.add_comm. by rewrite Nat.Div0.add_mod_idemp_l.
  - unfold sizes_recorded. apply forallb_forall. intros sz Hsz%list_elem_of_In.
    apply list_elem_of_fmap in Hsz as (i & -> & _). rewrite Hmod. rewrite forallb_forall in Hpos.
    apply (Hpos (i mod q)%nat), in_seq. split; [lia|]. by apply Nat.mod_upper_bound; lia.
  - by rewrite Hwin by lia.
Qed.

(** [pattern_learned] for the three patterns. *)
Definition learns (szs : nat -> list Z) (k : nat) (d : Z) : Prop :=
  windows_accepted plain_knobs (Z.to_nat 1000) 10 (first_sizes szs FIRST_COMPILE k) = true ∧
  sizes_recorded (first_sizes szs FIRST_COMPILE k) = true ∧
  dominant_size (hist_of (window_sizes (Z.to_nat 1000) (first_sizes szs FIRST_COMPILE k) 10)) = d.

Lemma constant_learned k : (0 < k)%nat -> learns (λ _, replicate k SIZE) k SIZE.
Proof.
  intros Hk. unfold learns. rewrite first_sizes_const by (unfold FIRST_COMPILE; lia).
  apply (pattern_learned plain_knobs 1 (λ _, SIZE)); [lia | done | done | by vm_compute | by vm_compute].
Qed.

Lemma bimodal_learned :
  learns (λ i, [default 0 ([32; 96] !! Z.to_nat (Z.land (Z.of_nat i) 1))]) 1 32.
Proof.
  unfold learns. rewrite first_sizes_one by (unfold FIRST_COMPILE; lia).
  apply (pattern_learned plain_knobs 2); [lia | | by vm_compute | by vm_compute | by vm_compute].
  intros i. rewrite !(land_mask _ 1) by lia. change (2 ^ 1) with 2.
  by rewrite Nat2Z.inj_add, Z.add_mod, Z.add_0_r, Zmod_mod by lia.
Qed.

Lemma mixed_learned : learns (λ i, [default 0 ([32; 64; 128] !! (i mod 3)%nat)]) 1 64.
Proof.
  unfold learns. rewrite first_sizes_one by (unfold FIRST_COMPILE; lia).
  apply (pattern_learned plain_knobs 3); [lia | | by vm_compute | by vm_compute | by vm_compute].
  intros i. by rewrite <- Nat.Div0.add_mod_idemp_r, Nat.add_0_r.
Qed.

(** Every loop is long enough. *)
Ltac many Hn := cbn [iterations] in Hn; decompose_list_elem_of; subst; lia.


(** [hold] never frees in its loops: a bump site, tagged as holding its memory. *)
Lemma hold_calls n : calls_events 0 (loop hold_body n) = Event <$> allocs_from 0 (replicate n SIZE).
Proof.
  assert (loop hold_body n = Malloc <$> replicate n SIZE) as ->.
  { induction n as [|n IH]; [done|]. rewrite loop_S, IH, <- Nat.add_1_r, replicate_add, fmap_app. done. }
  generalize 0%nat. generalize (replicate n SIZE). intros l. induction l as [|sz l IH]; intros c; [done|].
  rewrite allocs_from_cons. cbn [fmap list_fmap calls_events]. f_equal. apply IH.
Qed.

Lemma hold_picked_bump :
  let r := compile (Z.of_nat FIRST_COMPILE) (mkSpec site BumpAlloc SIZE []) in
  ∃ s, run_ops plain_knobs (calls_events 0 (loop hold_body FIRST_COMPILE)) [] =
      ([s], if r =? 0 then [] else [(site, r)]) ∧
    s_phase s = Compiled ∧ candidate s = BumpAlloc ∧ lifetime s = Hold.
Proof.
  intros r. rewrite hold_calls. set (evs := allocs_from 0 (replicate FIRST_COMPILE SIZE)).
  assert (Esz : ev_size <$> evs = (λ _, SIZE) <$> seq 0 FIRST_COMPILE).
  { unfold evs. rewrite sizes_of_allocs. generalize 0%nat. generalize FIRST_COMPILE.
    intros n. induction n as [|n IH]; intros c; [done|]. simpl. f_equal. apply IH. }
  destruct (constant_learned 1 ltac:(lia)) as (Hw & _ & _).
  rewrite first_sizes_const in Hw by (unfold FIRST_COMPILE; lia).
  assert (Hlast : take (Z.to_nat 1000) (drop (10 * Z.to_nat 1000) (ev_size <$> evs)) = replicate (Z.to_nat 1000) SIZE).
  { rewrite Esz. vm_compute. reflexivity. }
  destruct (stationary_end plain_knobs site evs (Z.to_nat 1000) 10) as (s & E & _ & Hp & Hc & Hl).
  - split_and!; lia || done.
  - split_and!; lia || done.
  - unfold evs, allocs_from. by rewrite length_imap, length_replicate.
  - apply Forall_forall. intros e He. unfold evs, allocs_from in He.
    apply list_elem_of_lookup in He as [i Hi]. rewrite list_lookup_imap in Hi.
    apply fmap_Some in Hi as (sz & Hs & ->). apply lookup_replicate in Hs as [-> _].
    clear. split; [reflexivity|]. by vm_compute.
  - intros j Hj. rewrite Esz. unfold windows_accepted in Hw. rewrite forallb_forall in Hw.
    apply (Hw j), in_seq. lia.
  - done.
  - rewrite Hlast in E, Hc. exists s.
    assert (Es : expected_spec plain_knobs site (replicate (Z.to_nat 1000) SIZE) = mkSpec site BumpAlloc SIZE [])
      by (vm_compute; reflexivity).
    rewrite Es in E. split_and!; [exact E | exact Hp | rewrite Hc; by vm_compute | exact Hl].
Qed.
End Stream.

(** ** Witnesses *)

Definition demo_addr (i : nat) : Z := 4096 + 64 * Z.of_nat i.
Definition short_knobs : Knobs := mkKnobs 1 20 KS_ALPHA_DEFAULT 3 false false Generic.

(** Two windows of 20 allocations of changing sizes, each block freed by a second
    thread before the next. *)
Definition short_ops : list op :=
  calls_events 1 2 7 8 demo_addr Z.of_nat Z.of_nat 0 (loop bimodal_body 39).

Lemma nested_site_compiles_witness :
  ∃ s, @run_ops plain_backend short_knobs
      (short_ops ++ [Event (alloc_at 1 7 demo_addr Z.of_nat 39 96)]) [] = ([s], [(1, 4096)]) ∧
    candidate s = PairedStack ∧ lifetime s = Reap.
Proof.
  destruct (@nested_site_compiles plain_backend short_knobs 1 2 short_ops
    (alloc_at 1 7 demo_addr Z.of_nat 39 96) [] (allocs_from 1 7 demo_addr Z.of_nat 0 (take 39 (concat (replicate 20 [32; 96])))) 39 20 1)
    as [_ (s & E & _ & _ & Hc & Hl)];
    [split_and!; (reflexivity || lia) | split_and!; (reflexivity || lia) | reflexivity | reflexivity
    | vm_compute; reflexivity | | vm_compute; reflexivity | vm_compute; reflexivity | | | lia | |].
  - repeat constructor; done.
  - apply (bool_decide_unpack _). vm_compute. exact I.
  - intros j Hj. destruct j; [by vm_compute | lia].
  - split; by vm_compute.
  - exists s. split; [exact E | by split].
Defined.


(** [arena] frees its batches oldest first: of 200 frees the analysis sees one, so
    that the site looks as if it held its memory (two windows of 400 here). *)
Definition arena_knobs : Knobs := mkKnobs 1 400 KS_ALPHA_DEFAULT 3 false false Generic.

Example arena_picked_bump :
  let run := @run_ops plain_backend arena_knobs
    (calls_events 1 2 7 7 demo_addr (λ _, 0) (λ _, 0) 0 (upto (2 * 400) (loop arena_cycle 4))) [] in
  (λ s, (candidate s, lifetime s, event_count s, free_count s)) <$> run.1 = [(BumpAlloc, Hold, 800, 3)].
Proof. vm_compute. reflexivity. Qed.
