(* ===== verification/Handoff.v ===== *)
(** * The two threads of [src/bench/producer_consumer.cpp]

    The producer hands its blocks to the consumer through a ring of pointers with a
    head and a tail index.  Every access of a shared variable is one step (in
    sequentially consistent order); the log of [malloc] and [free] calls is what the
    allocator sees. *)

From S2P Require Import Prelude Workloads.

Definition N : Z := 1000000.
Definition RING_LEN : Z := Z.shiftl 1 14.

(** Where each thread is: its local variables, before the next access. *)
Inductive producer :=
  | PAlloc (i : Z)                      (** the loop's test and [prod_alloc] *)
  | PHead (i : Z) (p : nat)             (** [g_head.load] *)
  | PWait (i : Z) (p : nat) (h : Z)     (** [g_tail.load], until there is room *)
  | PStore (i : Z) (p : nat) (h : Z)    (** [g_ring[h & (RING_LEN - 1)] = p] *)
  | PPublish (i : Z) (h : Z)            (** [g_head.store(h + 1)] *)
  | PEnd
  | PExit.                              (** [std::exit(1)] *)

#[export] Instance producer_eq_dec : EqDecision producer.
Proof. solve_decision. Defined.

Inductive consumer :=
  | CHead (t : Z)                       (** [g_head.load] *)
  | CDone (t : Z)                       (** [done.load], after [t == h] *)
  | CAgain (t : Z)                      (** the second [g_head.load] *)
  | CRead (t : Z)                       (** [g_ring[t & (RING_LEN - 1)]] and [p[0]] *)
  | CFree (t : Z) (p : nat)             (** [cons_free] *)
  | CTail (t : Z)                       (** [g_tail.store(++t)] *)
  | CEnd.

#[export] Instance consumer_eq_dec : EqDecision consumer.
Proof. solve_decision. Defined.

(** A pointer is the number of the [malloc] it comes from; entries of [g_ring] never
    written are null.  [calls] is the log. *)
Record state := mkState {
  g_head : Z;
  g_tail : Z;
  g_ring : gmap Z nat;
  done : bool;
  prod : producer;
  cons : consumer;
  calls : list call;
}.

Definition state0 : state := mkState 0 0 ∅ false (PAlloc 0) (CHead 0) [].

Definition slot_of (i : Z) : Z := Z.land i (RING_LEN - 1).

(** The producer's next access; [granted]: [malloc] does not return null. *)
Definition produce (granted : bool) (s : state) : state :=
  let 'mkState hd tl ring dn pr co l := s in
  match pr with
  | PAlloc i =>
      if i <? N then
        if granted then mkState hd tl ring dn (PHead i (mallocs l)) co (l ++ [Malloc SIZE])
        else mkState hd tl ring dn PExit co l
      else mkState hd tl ring true PEnd co l
  | PHead i p => mkState hd tl ring dn (PWait i p hd) co l
  | PWait i p h =>
      if u64 (h - tl) >=? RING_LEN then s else mkState hd tl ring dn (PStore i p h) co l
  | PStore i p h => mkState hd tl (<[slot_of h := p]> ring) dn (PPublish i h) co l
  | PPublish i h => mkState (u64 (h + 1)) tl ring dn (PAlloc (i + 1)) co l
  | PEnd | PExit => s
  end.

(** The consumer's, unless the process has exited. *)
Definition consume (s : state) : res state :=
  let 'mkState hd tl ring dn pr co l := s in
  if decide (pr = PExit) then Ok s else
  match co with
  | CHead t => Ok (mkState hd tl ring dn pr (if t =? hd then CDone t else CRead t) l)
  | CDone t => Ok (mkState hd tl ring dn pr (if dn then CAgain t else CHead t) l)
  | CAgain t => Ok (mkState hd tl ring dn pr (if t =? hd then CEnd else CHead t) l)
  | CRead t =>
      p ← of_option NullDeref (ring !! slot_of t);
      Ok (mkState hd tl ring dn pr (CFree t p) l)
  | CFree t p => Ok (mkState hd tl ring dn pr (CTail t) (l ++ [Free p]))
  | CTail t => Ok (mkState hd (u64 (t + 1)) ring dn pr (CHead (u64 (t + 1))) l)
  | CEnd => Ok s
  end.

Inductive step (s : state) : state -> Prop :=
  | Produce b : step s (produce b s)
  | Consume s' : consume s = Ok s' -> step s s'.

Notation reachable := (rtc step state0).

(** ** What a log must look like *)

Fixpoint frees (l : list call) : list nat :=
  match l with
  | [] => []
  | Malloc _ :: l => frees l
  | Free k :: l => k :: frees l
  end.

(** The blocks allocated and freed: the next free is of the oldest block, and there
    is at most one block more than the ring has entries. *)
Definition serve1 (st : option (nat * nat)) (c : call) : option (nat * nat) :=
  match st, c with
  | Some (n, f), Malloc _ => if Z.of_nat n <=? Z.of_nat f + RING_LEN then Some (S n, f) else None
  | Some (n, f), Free k => if (k =? f)%nat && (f <? n)%nat then Some (n, S f) else None
  | None, _ => None
  end.

Definition served (l : list call) : option (nat * nat) := foldl serve1 (Some (0%nat, 0%nat)) l.

Lemma served_snoc l c : served (l ++ [c]) = serve1 (served l) c.
Proof. unfold served. by rewrite foldl_app. Qed.

Lemma served_prefix l l' n f : l `prefix_of` l' -> served l' = Some (n, f) -> ∃ n' f', served l = Some (n', f').
Proof.
  intros [k ->]. revert n f. induction k as [|c k IH] using rev_ind; intros n f; [rewrite app_nil_r; eauto|].
  rewrite app_assoc, served_snoc. destruct (served (l ++ k)) as [[n' f']|]; [by eauto|by destruct c].
Qed.

Lemma frees_app l l' : frees (l ++ l') = frees l ++ frees l'.
Proof. induction l as [|[] l IH]; simpl; rewrite ?IH; done. Qed.

Lemma served_spec l n f :
  served l = Some (n, f) ->
  mallocs l = n ∧ frees l = seq 0 f ∧ (f <= n)%nat ∧ Z.of_nat n <= Z.of_nat f + RING_LEN + 1.
Proof.
  revert n f. induction l as [|c l IH] using rev_ind; intros n f.
  { intros [= <- <-]. split_and!; by vm_compute. }
  rewrite served_snoc. destruct (served l) as [[n' f']|]; [|by destruct c].
  destruct (IH _ _ eq_refl) as (Hn & Hf & Hle & Hb). rewrite mallocs_app, frees_app, Hf.
  destruct c as [sz|k]; cbn [serve1]; case_match eqn:E; intros; simplify_eq; cbn [mallocs frees].
  - zb. rewrite app_nil_r. split_and!; [lia|done|lia|lia].
  - apply andb_true_iff in E as [Ek Ef]. apply Nat.eqb_eq in Ek as ->. apply Nat.ltb_lt in Ef. rewrite seq_S.
    split_and!; [lia|done|lia|lia].
Qed.

(** ** The invariant *)

(** Blocks allocated and not published, blocks freed and not given back. *)
Definition ahead (p : producer) : Z :=
  match p with PHead _ _ | PWait _ _ _ | PStore _ _ _ | PPublish _ _ => 1 | _ => 0 end.
Definition behind (c : consumer) : Z := match c with CTail _ => 1 | _ => 0 end.

Definition producer_ok (s : state) : Prop :=
  match prod s with
  | PAlloc i => i = g_head s
  | PHead i p => i = g_head s ∧ i < N ∧ p = Z.to_nat i
  | PWait i p h => i = g_head s ∧ h = i ∧ i < N ∧ p = Z.to_nat i
  | PStore i p h => i = g_head s ∧ h = i ∧ i < N ∧ p = Z.to_nat i ∧ i < g_tail s + RING_LEN
  | PPublish i h => i = g_head s ∧ h = i ∧ i < N ∧ i < g_tail s + RING_LEN ∧
                    g_ring s !! slot_of i = Some (Z.to_nat i)
  | PEnd => g_head s = N
  | PExit => True
  end ∧ (done s = true <-> prod s = PEnd).

Definition consumer_ok (s : state) : Prop :=
  match cons s with
  | CHead t | CDone t => t = g_tail s
  | CAgain t => t = g_tail s ∧ done s = true
  | CRead t | CTail t => t = g_tail s ∧ t < g_head s
  | CFree t p => t = g_tail s ∧ t < g_head s ∧ p = Z.to_nat t
  | CEnd => g_tail s = g_head s ∧ done s = true
  end.

Record inv (s : state) : Prop := mkInv {
  i_bounds : 0 <= g_tail s <= g_head s ∧ g_head s <= N ∧ g_head s <= g_tail s + RING_LEN;
  i_ring : ∀ j, g_tail s <= j < g_head s -> g_ring s !! slot_of j = Some (Z.to_nat j);
  i_calls : served (calls s) =
            Some (Z.to_nat (g_head s + ahead (prod s)), Z.to_nat (g_tail s + behind (cons s)));
  i_producer : producer_ok s;
  i_consumer : consumer_ok s;
}.

Lemma handoff_inv0 : inv state0.
Proof.
  split; try (by repeat split). simpl. lia.
Qed.

Lemma slot_mod i : slot_of i = i mod RING_LEN.
Proof. unfold slot_of. change (RING_LEN - 1) with (2 ^ 14 - 1). rewrite land_mask by lia. done. Qed.

Lemma entry_inj i j : slot_of i = slot_of j -> j <= i < j + RING_LEN -> i = j.
Proof.
  rewrite !slot_mod. intros E H. assert (0 < RING_LEN) by done.
  pose proof (Z.div_mod i RING_LEN ltac:(lia)). pose proof (Z.div_mod j RING_LEN ltac:(lia)).
  rewrite E in *. assert (i / RING_LEN = j / RING_LEN) by nia. lia.
Qed.

Lemma N_small : 0 <= N ∧ N + RING_LEN < 2 ^ 64.
Proof. by vm_compute. Qed.

Ltac words := rewrite u64_small by (pose proof N_small; pow2; lia).

Ltac parts := split; unfold producer_ok, consumer_ok; simpl; try done.

Lemma produce_inv b s : inv s -> inv (produce b s).
Proof.
  destruct s as [hd tl ring dn pr co l]. intros [(H1 & H2 & H3) Hr Hl [Hp Hd] Hc].
  unfold producer_ok, consumer_ok in *. simpl in *.
  destruct pr as [i|i p|i p h|i p h|i h| |]; simpl in *.
  - subst i. destruct (Z.ltb_spec hd N); [destruct b|].
    + parts; [|split; [|naive_solver]].
      * rewrite served_snoc, Hl. cbn [serve1]. rewrite (proj2 (Z.leb_le _ _)) by (destruct co; simpl; lia).
        do 2 f_equal. lia.
      * split_and!; [done..|]. apply served_spec in Hl as (-> & _). f_equal. lia.
    + parts. split; [done|naive_solver].
    + parts; [|destruct co; naive_solver]. split; [lia|done].
  - parts. naive_solver.
  - destruct Hp as (-> & -> & Hi & ->). rewrite Z.geb_leb.
    assert (0 <= hd - tl <= RING_LEN) as Hdist by lia. words.
    destruct (Z.leb_spec RING_LEN (hd - tl)); parts; (split; [|naive_solver]); split_and!; done || lia.
  - destruct Hp as (-> & -> & Hi & -> & Hroom). parts; [|split; [|naive_solver]].
    + intros j Hj. rewrite lookup_insert_ne; [by apply Hr|]. intros E. apply entry_inj in E; lia.
    + split_and!; try done. by rewrite lookup_insert_eq.
  - destruct Hp as (-> & -> & Hi & Hroom & Hw). words. parts; try lia.
    + intros j Hj. destruct (decide (j = hd)) as [->|]; [done|]. apply Hr. lia.
    + rewrite Hl. do 2 f_equal. lia.
    + split; [done|naive_solver].
    + destruct co; simpl in *; try lia; naive_solver.
  - by split.
  - by split.
Qed.

Lemma consume_inv s : inv s -> ∃ s', consume s = Ok s' ∧ inv s'.
Proof.
  destruct s as [hd tl ring dn pr co l]. intros Hi. pose proof Hi as [(H1 & H2 & H3) Hr Hl [Hp Hd] Hc].
  unfold producer_ok, consumer_ok in *. simpl in *.
  destruct (decide (pr = PExit)) as [->|Hne]; [by eexists|].
  destruct co as [t|t|t|t|t p|t|]; simpl in *.
  - subst t. eexists. split; [done|]. destruct (Z.eqb_spec tl hd); parts; try lia.
  - subst t. eexists. split; [done|]. destruct dn; by split.
  - destruct Hc as [-> Hdn]. eexists. split; [done|]. destruct (Z.eqb_spec tl hd); by split.
  - destruct Hc as [-> Hlt]. rewrite (Hr tl) by lia. eexists. split; [done|]. by split.
  - destruct Hc as (-> & Hlt & ->). eexists. split; [done|]. parts.
    rewrite served_snoc, Hl. cbn [serve1]. rewrite (proj2 (Nat.eqb_eq _ _)) by lia.
    rewrite (proj2 (Nat.ltb_lt _ _)) by (destruct pr; simpl; lia). simpl. do 2 f_equal. lia.
  - destruct Hc as [-> Hlt]. eexists. split; [done|]. words. parts; try lia.
    + intros j Hj. apply Hr. lia.
    + rewrite Hl. do 2 f_equal. lia.
    + split; [|done]. destruct pr; try exact Hp; destruct Hp as (-> & -> & ? & ? & ?); split_and!; first [assumption | reflexivity | lia].
  - by eexists.
Qed.

Lemma handoff_inv_reachable s : reachable s -> inv s.
Proof.
  apply reachable_invariant; [exact handoff_inv0|]. intros a b Ha [g | s' E]; [by apply produce_inv|].
  destruct (consume_inv a Ha) as (s'' & E' & H). congruence.
Qed.

(** ** The order of the calls *)

(** The hand-off is first in, first out.  However the two threads interleave,
    the consumer never reads a null entry; at every moment the blocks freed are the
    oldest ones allocated, each freed once and after its [malloc], and at most
    [RING_LEN + 1] are live; when both threads have ended, all [N] blocks have been
    allocated and freed. *)
Theorem handoff_fifo s :
  reachable s ->
  res_ok (consume s) ∧
  (∀ l, l `prefix_of` calls s ->
    ∃ f, frees l = seq 0 f ∧ (f <= mallocs l)%nat ∧ Z.of_nat (mallocs l) <= Z.of_nat f + RING_LEN + 1) ∧
  (prod s = PEnd -> cons s = CEnd ->
    Z.of_nat (mallocs (calls s)) = N ∧ frees (calls s) = seq 0 (mallocs (calls s))).
Proof.
  intros H%handoff_inv_reachable. split_and!.
  - destruct (consume_inv s H) as (s' & E & _). by exists s'.
  - intros l Hl. destruct (served_prefix _ _ _ _ Hl (i_calls s H)) as (n & f & E).
    apply served_spec in E as (<- & Hf & Hle & Hb). eauto.
  - intros Hp Hc. destruct H as [Hb _ Hl [Hpr _] Hco]. unfold consumer_ok in Hco. rewrite Hp, Hc in *.
    destruct Hco as [Eh _]. apply served_spec in Hl as (-> & -> & _). cbn [ahead behind]. split; [|f_equal]; lia.
Qed.

(** ** The threads end *)

(** Accesses left to each thread, when it need not wait. *)
Definition producer_rank (p : producer) : Z :=
  match p with
  | PAlloc i => 5 * (N - i) + 5
  | PHead i _ => 5 * (N - i) + 4
  | PWait i _ _ => 5 * (N - i) + 3
  | PStore i _ _ => 5 * (N - i) + 2
  | PPublish i _ => 5 * (N - i) + 1
  | PEnd | PExit => 0
  end.

Definition consumer_rank (hd : Z) (dn : bool) (c : consumer) : Z :=
  match c with
  | CDone t => if dn && (t =? hd) then 2 else 6 * (N - t) + 5
  | CAgain t => if t =? hd then 1 else 6 * (N - t) + 4
  | CHead t => 6 * (N - t) + 3
  | CRead t => 6 * (N - t) + 2
  | CFree t _ => 6 * (N - t) + 1
  | CTail t => 6 * (N - t)
  | CEnd => 0
  end.

Definition rank (s : state) : Z := producer_rank (prod s) + consumer_rank (g_head s) (done s) (cons s).

Lemma rank_nonneg s : inv s -> 0 <= rank s.
Proof.
  destruct s as [hd tl ring dn pr co l]. intros [(H1 & H2 & H3) _ _ [Hp _] Hc].
  unfold rank, producer_ok, consumer_ok in *. cbn [g_head g_tail prod cons done] in *.
  assert (0 <= producer_rank pr) by (destruct pr; cbv iota in Hp; cbn [producer_rank]; lia).
  assert (0 <= consumer_rank hd dn co) by (clear Hp; destruct co; cbv iota in Hc; cbn [consumer_rank]; try case_match; lia).
  lia.
Qed.

(** The consumer gets on when there is a block or the producer has ended. *)
Lemma consumer_advances s :
  inv s -> prod s ≠ PExit -> cons s ≠ CEnd -> g_tail s < g_head s ∨ done s = true ->
  ∃ s', consume s = Ok s' ∧ prod s' = prod s ∧ rank s' < rank s.
Proof.
  destruct s as [hd tl ring dn pr co l]. intros [(H1 & H2 & H3) Hr _ _ Hc] Hp Hne Hgo.
  unfold consumer_ok, consume, rank in *. cbn [g_head g_tail g_ring prod cons done] in *.
  rewrite decide_False by done. destruct co as [t|t|t|t|t p|t|]; [| | | | | |done].
  - subst t. eexists. split; [done|]. split; [done|]. cbn [g_head done cons prod].
    destruct (Z.eqb_spec tl hd) as [->|]; cbn [consumer_rank]; [|lia].
    destruct Hgo as [?| ->]; [lia|]. rewrite Z.eqb_refl. cbn [andb]. lia.
  - subst t. eexists. split; [done|]. split; [done|]. cbn [g_head done cons prod].
    destruct dn; cbn [andb consumer_rank]; [destruct (tl =? hd)|]; lia.
  - destruct Hc as [-> ->]. eexists. split; [done|]. split; [done|]. cbn [g_head done cons prod].
    destruct (tl =? hd) eqn:E; cbn [consumer_rank]; rewrite ?E; lia.
  - destruct Hc as [-> Hlt]. rewrite (Hr tl) by lia. eexists. split; [done|]. split; [done|].
    cbn [g_head done cons prod consumer_rank]. lia.
  - eexists. split; [done|]. split; [done|]. cbn [g_head done cons prod consumer_rank]. lia.
  - destruct Hc as [-> Hlt]. eexists. split; [done|]. split; [done|].
    cbn [g_head done cons prod consumer_rank]. words. lia.
Qed.

(** The producer gets on unless the ring is full. *)
Lemma producer_advances s :
  inv s -> prod s ≠ PExit -> prod s ≠ PEnd ->
  prod (produce true s) ≠ PExit ∧ rank (produce true s) < rank s ∨ g_tail s < g_head s.
Proof.
  destruct s as [hd tl ring dn pr co l]. intros [(H1 & H2 & H3) _ _ [Hp Hd] Hc] Hx He.
  unfold producer_ok, rank in *. cbn [g_head g_tail g_ring prod cons done] in *.
  assert (Hdn : dn = false) by (destruct dn; [naive_solver|done]). subst dn.
  destruct pr as [i|i p|i p h|i p h|i h| |]; cbn [produce]; [| | | | |done..].
  - subst i. destruct (Z.ltb_spec hd N); left; (split; [done|]); cbn [g_head done cons prod producer_rank].
    + lia.
    + assert (consumer_rank hd true co <= consumer_rank hd false co); [|lia].
      destruct co as [t|t|t|t|t p|t|]; cbn [consumer_rank andb]; try lia.
      unfold consumer_ok in Hc. cbn in Hc. destruct (t =? hd); lia.
  - left. split; [done|]. cbn [g_head done cons prod producer_rank]. lia.
  - destruct Hp as (-> & -> & Hi & ->). words. rewrite Z.geb_leb. destruct (Z.leb_spec RING_LEN (hd - tl)).
    + right. assert (0 < RING_LEN) by done. lia.
    + left. split; [done|]. cbn [g_head done cons prod producer_rank]. lia.
  - left. split; [done|]. cbn [g_head done cons prod producer_rank]. lia.
  - destruct Hp as (-> & -> & Hi & _). words. left. split; [done|]. cbn [g_head done cons prod producer_rank].
    assert (consumer_rank (hd + 1) false co <= consumer_rank hd false co); [|lia].
    unfold consumer_ok in Hc. cbn in Hc. destruct co; cbn [consumer_rank andb]; lia.
Qed.

Lemma rank_step s :
  inv s -> prod s ≠ PExit -> (prod s = PEnd ∧ cons s = CEnd) ∨
  ∃ s', step s s' ∧ inv s' ∧ prod s' ≠ PExit ∧ rank s' < rank s.
Proof.
  intros H Hx.
  assert (Hcons : cons s ≠ CEnd -> g_tail s < g_head s ∨ done s = true ->
    ∃ s', step s s' ∧ inv s' ∧ prod s' ≠ PExit ∧ rank s' < rank s).
  { intros Hc Hgo. destruct (consumer_advances s H Hx Hc Hgo) as (s' & E & Ep & Hr).
    destruct (consume_inv s H) as (s'' & E' & H'). rewrite E in E'. injection E' as <-.
    exists s'. split_and!; [by constructor|done|by rewrite Ep|done]. }
  destruct (i_producer s H) as [_ Hd]. destruct (decide (prod s = PEnd)) as [Ep|Hne].
  - destruct (decide (cons s = CEnd)) as [Ec|Ec]; [by left|]. right. apply Hcons; [done|]. right. by apply Hd.
  - right. destruct (producer_advances s H Hx Hne) as [[Hx' Hr]|Hlt].
    + exists (produce true s). split_and!; [constructor | by apply produce_inv | done | done].
    + apply Hcons; [|by left]. intros Ec. pose proof (i_consumer s H) as Hc.
      unfold consumer_ok in Hc. rewrite Ec in Hc. lia.
Qed.

(** No interleaving gets the threads stuck: from everywhere both can still end. *)
Lemma handoff_ends s :
  reachable s -> prod s ≠ PExit -> ∃ s', rtc step s s' ∧ prod s' = PEnd ∧ cons s' = CEnd.
Proof.
  intros H%handoff_inv_reachable. remember (Z.to_nat (rank s)) as n eqn:En. revert s H En.
  induction (lt_wf n) as [n _ IH]. intros s H -> Hx.
  destruct (rank_step s H Hx) as [[? ?]|(s1 & Hs & H1 & Hx1 & Hr)]; [by exists s|].
  pose proof (rank_nonneg s1 H1).
  destruct (IH (Z.to_nat (rank s1)) ltac:(lia) s1 H1 eq_refl Hx1) as (s' & Hs' & ?).
  exists s'. split; [by eapply rtc_l|done].
Qed.

(** ** Taking turns *)

(** Both threads between two blocks. *)
Definition idle (s : state) (hd tl : Z) (l : list call) : Prop :=
  reachable s ∧ g_head s = hd ∧ g_tail s = tl ∧ prod s = PAlloc hd ∧ cons s = CHead tl ∧ calls s = l.

Ltac produces :=
  eapply rtc_l; [apply (Produce _ true)|]; cbn [produce].
Ltac consumes :=
  eapply rtc_l; [apply Consume; cbn [consume]; rewrite decide_False by done; reflexivity|].

Lemma producer_turns k s hd tl l :
  idle s hd tl l -> hd + Z.of_nat k <= N -> hd + Z.of_nat k <= tl + RING_LEN ->
  ∃ s', idle s' (hd + Z.of_nat k) tl (l ++ replicate k (Malloc SIZE)).
Proof.
  revert s hd l. induction k as [|k IH]; intros s hd l Hs HN HR.
  { exists s. rewrite Z.add_0_r, app_nil_r. done. }
  assert (∃ s1, idle s1 (hd + 1) tl (l ++ [Malloc SIZE])) as [s1 H1].
  { destruct Hs as (Hr & Eh & Et & Ep & Ec & El). destruct (i_bounds s (handoff_inv_reachable s Hr)) as (H1 & H2 & H3).
    destruct s as [hd' tl' ring dn pr co l']. cbn [g_head g_tail prod cons calls] in *. subst.
    eexists (mkState (hd + 1) tl _ dn (PAlloc (hd + 1)) (CHead tl) (l ++ [Malloc SIZE])).
    split; [|done]. etrans; [exact Hr|]. produces. rewrite (proj2 (Z.ltb_lt _ _)) by lia.
    produces. produces. words. rewrite Z.geb_leb, (proj2 (Z.leb_gt _ _)) by lia. produces. produces. words.
    apply rtc_refl. }
  destruct (IH s1 (hd + 1) _ H1 ltac:(lia) ltac:(lia)) as [s' Hs']. exists s'.
  rewrite <- app_assoc in Hs'. by replace (hd + Z.of_nat (S k)) with (hd + 1 + Z.of_nat k) by lia.
Qed.

Lemma consumer_turns k s hd tl l :
  idle s hd tl l -> tl + Z.of_nat k <= hd ->
  ∃ s', idle s' hd (tl + Z.of_nat k) (l ++ (Free <$> seq (Z.to_nat tl) k)).
Proof.
  revert s tl l. induction k as [|k IH]; intros s tl l Hs Hle.
  { exists s. rewrite Z.add_0_r, app_nil_r. done. }
  pose proof Hs as (Hr & Eh & Et & _). destruct (handoff_inv_reachable s Hr) as [(H1 & H2 & H3) Hring _ _ _].
  assert (∃ s1, idle s1 hd (tl + 1) (l ++ [Free (Z.to_nat tl)])) as [s1 Hs1].
  { destruct Hs as (_ & _ & _ & Ep & Ec & El). destruct s as [hd' tl' ring dn pr co l'].
    cbn [g_head g_tail g_ring prod cons calls] in *. subst.
    eexists (mkState hd (tl + 1) ring dn (PAlloc hd) (CHead (tl + 1)) (l ++ [Free (Z.to_nat tl)])).
    split; [|done]. etrans; [exact Hr|]. consumes. rewrite (proj2 (Z.eqb_neq tl hd)) by lia.
    eapply rtc_l.
    { apply Consume. cbn [consume]. rewrite decide_False by done. rewrite (Hring tl) by lia. reflexivity. }
    consumes. consumes. words. apply rtc_refl. }
  destruct (IH s1 (tl + 1) _ Hs1 ltac:(lia)) as [s' Hs']. exists s'. rewrite <- app_assoc in Hs'.
  replace (Z.to_nat (tl + 1)) with (S (Z.to_nat tl)) in Hs' by lia.
  by replace (tl + Z.of_nat (S k)) with (tl + 1 + Z.of_nat k) by lia.
Qed.

(** The producer [lag] blocks ahead, and the consumer catching up: the calls of a
    run of the program. *)
Definition producer_consumer_burst (lag : nat) (b : nat) : list call :=
  replicate lag (Malloc SIZE) ++ ((λ i, Free (b * lag + i)) <$> seq 0 lag).

Lemma bursts_run lag n :
  Z.of_nat (n * lag) <= N -> Z.of_nat lag <= RING_LEN ->
  ∃ s, idle s (Z.of_nat (n * lag)) (Z.of_nat (n * lag)) (loop (producer_consumer_burst lag) n).
Proof.
  intros HN HR. induction n as [|n IH]; [by exists state0|]. destruct IH as [s Hs]; [lia|].
  destruct (producer_turns lag s _ _ _ Hs ltac:(lia) ltac:(lia)) as [s1 Hs1].
  destruct (consumer_turns lag s1 _ _ _ Hs1 ltac:(lia)) as [s2 Hs2]. exists s2.
  rewrite loop_S. unfold producer_consumer_burst at 2. rewrite <- app_assoc in Hs2.
  replace (Z.of_nat (S n * lag)) with (Z.of_nat (n * lag) + Z.of_nat lag) by lia.
  rewrite Nat2Z.id in Hs2.
  replace ((λ i, Free (n * lag + i)) <$> seq 0 lag) with (Free <$> seq (n * lag) lag); [exact Hs2|].
  transitivity (Free <$> (Nat.add (n * lag) <$> seq 0 lag)); [by rewrite fmap_add_seq, Nat.add_0_r | by rewrite <- list_fmap_compose].
Qed.

(** Two blocks, the second one waiting behind the first. *)
Lemma handoff_fifo_witness :
  ∃ s, calls s = [Malloc SIZE; Malloc SIZE; Free 0; Free 1] ∧
    ∀ l, l `prefix_of` calls s -> ∃ f, frees l = seq 0 f ∧ (f <= mallocs l)%nat.
Proof.
  destruct (bursts_run 2 1) as [s (Hr & _ & _ & _ & _ & El)]; [by vm_compute | by vm_compute |].
  exists s. split; [exact El|]. intros l Hl.
  destruct (handoff_fifo s Hr) as (_ & H & _). destruct (H l Hl) as (f & Hf & Hle & _). by exists f.
Defined.
