(* ===== verification/Summaries.v ===== *)
(** * The summaries stay well formed ([src/src/analysis/analysis.cpp])

    What holds of every summary after any events and resets, under the knobs that
    [init] leaves whatever the environment: the indices, counts and arrays are
    within their bounds, and a window is the record of actual allocation sizes. *)

From S2P Require Import Prelude Common Double Histogram Ks Analysis Picker.
#[local] Open Scope Z_scope.

(** ** Histograms *)

Lemma best_loop_size es local i best m j :
  best_loop es local i best = Some (j, m) ->
  (∃ k b, best = Some (k, b) ∧ size b = size m) ∨ size m ∈ size <$> es.
Proof.
  revert local i best. induction es as [|e es IH]; intros local i best; cbn [best_loop].
  { intros ->. eauto. }
  destruct local as [|c local]; [intros ->; eauto|]. intros Hb%IH. cbn [fmap list_fmap].
  destruct Hb as [(k & b & Hb & E)|Hb]; [|right; by constructor].
  destruct (c =? 0); [eauto|]. destruct best as [[k' b']|].
  - case_match; [|eauto]. injection Hb as <- <-. right. rewrite <- E. constructor.
  - injection Hb as <- <-. right. rewrite <- E. constructor.
Qed.

Lemma top_loop_spec_sizes k es local cum target :
  (length (top_loop k es local cum target) <= k)%nat ∧
  Forall (λ m, size m ∈ size <$> es) (top_loop k es local cum target).
Proof.
  revert local cum. induction k as [|k IH]; intros local cum; cbn [top_loop]; [by split|].
  destruct (best_loop es local 0 None) as [[b m]|] eqn:E; [|split; [simpl; lia|done]].
  apply best_loop_size in E as [(? & ? & [=] & _)|Hm].
  case_match; [split; [simpl; lia|by constructor]|].
  destruct (IH (<[b := 0]> local) (u64 (cum + count m))) as [Hl HF]. split; [simpl; lia|by constructor].
Qed.

(** The sizes [process_event] lets through. *)
Definition sized (sz : Z) : Prop := 0 < sz < 4096.

Lemma hist_sizes l : Z.of_nat (length l) < 2 ^ 32 -> Forall sized l ->
  Forall (λ m, sized (size m)) (entries (hist_of l)).
Proof.
  intros Hl HF. rewrite record_all by done. unfold hist_spec. cbn [entries]. apply Forall_fmap, Forall_take.
  apply Forall_forall. intros sz [_ Hsz]%elem_of_distinct%list_elem_of_filter. cbn.
  by apply (proj1 (Forall_forall _ _) HF).
Qed.

Lemma top_k_modes_bounds k c l : Z.of_nat (length l) < 2 ^ 32 -> Forall sized l ->
  (length (top_k_modes k c (hist_of l)) <= k)%nat ∧ Forall (λ m, sized (size m)) (top_k_modes k c (hist_of l)).
Proof.
  intros Hl HF. unfold top_k_modes. case_match; [split; [simpl; lia|done]|].
  destruct (top_loop_spec_sizes k (entries (hist_of l)) (count <$> entries (hist_of l)) 0
    (trunc (dmul c (of_Z (total (hist_of l)))))) as [Hk Hs]. split; [done|].
  eapply Forall_impl; [exact Hs|]. intros m (e & E & He)%list_elem_of_fmap. cbn. rewrite E.
  by apply (proj1 (Forall_forall _ _) (hist_sizes l Hl HF)).
Qed.

(** ** The invariant *)

(** The knobs are positive 32-bit numbers. *)
Record knobs_ok (K : Knobs) : Prop := {
  k_windows : 1 <= g_stable_windows K < 2 ^ 32;
  k_window : 1 <= g_window_size K < 2 ^ 32;
  k_limit : 1 <= g_deopt_blacklist_limit K < 2 ^ 32;
}.

Lemma positive_or_range d v : 1 <= d < 2 ^ 32 -> 1 <= positive_or d v < 2 ^ 32.
Proof.
  intros Hd. destruct v as [n|]; [|done]. unfold positive_or. rewrite Z.gtb_ltb.
  pose proof (u32_bound n). destruct (Z.ltb_spec 0 (u32 n)); lia.
Qed.

Lemma init_knobs e K : knobs_ok (init e K).
Proof. split; by apply positive_or_range. Qed.

(** The record of fewer than [n] allocation sizes. *)
Definition window_ok (n : Z) (w : SizeWindow) : Prop :=
  ∃ l, w = window_of l ∧ Z.of_nat (length l) < n ∧ Forall sized l.

Record bounded (K : Knobs) (s : CallSiteSummary) : Prop := {
  ok_counts : fits 64 (event_count s) ∧ fits 64 (free_count s) ∧ fits 32 (deopt_count s);
  ok_active : active s = 0 ∨ active s = 1;
  ok_current : window_ok (g_window_size K + 1) (window (active s) s);
  ok_other : window_ok (g_window_size K + 1) (window (1 - active s) s);
  ok_post : window_ok (g_window_size K) (post_window s);
  ok_stable : 0 <= stable_windows s <= g_stable_windows K;
  ok_classes : (length (classes s) <= MULTI_CLASS_MAX)%nat ∧ Forall (λ m, sized (size m)) (classes s);
  ok_lifo : (length (lifo_stack s) <= LIFO_DEPTH)%nat ∧ Forall (λ p, p ≠ 0) (lifo_stack s);
  ok_compiled : s_phase s = Compiled -> candidate s ≠ Generic ∧
    ∃ l, baseline s = hist_of l ∧ Z.of_nat (length l) = g_window_size K ∧ Forall sized l;
  ok_first : fits 64 (first_compile_events s);
}.

(** Until it is compiled a site is filling its window, and has not had enough
    stable ones. *)
Definition summary_ok (K : Knobs) (s : CallSiteSummary) : Prop :=
  bounded K s ∧
  (s_phase s ≠ Compiled -> w_count (window (active s) s) < g_window_size K ∧ stable_windows s < g_stable_windows K).

Lemma window_ok_reset n : 0 < n -> window_ok n window_reset.
Proof. intros Hn. by exists []. Qed.

Lemma window_ok_mono n m w : n <= m -> window_ok n w -> window_ok m w.
Proof. intros Hnm (l & -> & Hl & HF). exists l. split_and!; [done|lia|done]. Qed.

Lemma window_ok_record n sz w : n < 2 ^ 32 -> sized sz -> window_ok n w -> window_ok (n + 1) (window_record sz w).
Proof.
  intros Hn Hsz (l & -> & Hl & HF). exists (l ++ [sz]). rewrite window_of_snoc, length_app by lia.
  split_and!; [done|simpl; lia|]. apply Forall_app. auto.
Qed.

(** Not full: one fewer. *)
Lemma window_ok_not_full K w :
  window_ok (g_window_size K + 1) w -> full K w = false ->
  window_ok (g_window_size K) w ∧ w_count w < g_window_size K.
Proof.
  intros (l & -> & Hl & HF) Hf. unfold full in Hf. rewrite Z.geb_leb in Hf. zb. cbn in *.
  split; [|done]. by exists l.
Qed.

Lemma window_ok_full K w : window_ok (g_window_size K + 1) w -> full K w = true ->
  ∃ l, w = window_of l ∧ Z.of_nat (length l) = g_window_size K ∧ Forall sized l.
Proof.
  intros (l & -> & Hl & HF) Hf. unfold full in Hf. rewrite Z.geb_leb in Hf. zb. cbn in *.
  exists l. split_and!; [done|lia|done].
Qed.

Lemma lifo_push_ok p l : p ≠ 0 -> (length l <= LIFO_DEPTH)%nat -> Forall (λ p, p ≠ 0) l ->
  (length (lifo_push p l) <= LIFO_DEPTH)%nat ∧ Forall (λ p, p ≠ 0) (lifo_push p l).
Proof.
  intros Hp Hl HF. unfold lifo_push, LIFO_DEPTH in *. case_match eqn:E.
  - apply Nat.ltb_lt in E. rewrite length_app. simpl. split; [lia|]. apply Forall_app. auto.
  - apply Nat.ltb_ge in E. rewrite length_app, length_drop. simpl. split; [lia|].
    apply Forall_app. split; [by apply Forall_drop|auto].
Qed.

Lemma removelast_ok l : (length l <= LIFO_DEPTH)%nat -> Forall (λ p : ptr, p ≠ 0) l ->
  (length (removelast l) <= LIFO_DEPTH)%nat ∧ Forall (λ p, p ≠ 0) (removelast l).
Proof.
  destruct l as [|x l _] using rev_ind; [done|]. rewrite removelast_last, length_app. simpl.
  intros Hl [HF _]%Forall_app. split; [lia|done].
Qed.

Lemma pick_specializes K s : pick K s ≠ Generic.
Proof.
  unfold pick. destruct (bool_decide (forced K = Generic)) eqn:E; cbn [negb].
  - by repeat case_match.
  - apply bool_decide_eq_false in E. done.
Qed.

(** ** The operations *)

Ltac fields_in_all :=
  cbn [s_id s_phase event_count free_count stable_windows deopt_count blacklisted deopt_reason
       lifetime first_compile_events alloc_dist free_dist window0 window1 active classes lifo_stack
       top_pair baseline post_window candidate code_page
       set_s_phase set_event_count set_free_count set_stable_windows set_deopt_count
       set_blacklisted set_deopt_reason set_lifetime set_first_compile_events set_alloc_dist
       set_free_dist set_window0 set_window1 set_active set_classes set_lifo_stack set_top_pair
       set_baseline set_post_window set_candidate set_code_page
       hist w_count free_site pair_count lifo_count fst snd] in *.

Section Operations.
Context (K : Knobs) (Hknobs : knobs_ok K).

Lemma summary_ok_new id : summary_ok K (summary0 id).
Proof.
  destruct Hknobs as [HT HW _]. split; [|intros _; unfold window; fields; simpl; lia].
  split; unfold window, summary0; fields; try done; try (apply window_ok_reset; lia); auto.
  - lia.
  - split; [simpl; lia|constructor].
  - split; [simpl; lia|constructor].
Qed.

Lemma observe_bounded ev s : bounded K s -> bounded K (observe_alloc ev s).
Proof.
  intros [(H1 & H2 & H3) H4 H5 H6 H7 H8 H9 [H10 H11] H12 H13]. summary s. unfold observe_alloc, window in *.
  fields_in_all.
  assert (Hl : ∀ v, v = (if ev_ptr ev =? 0 then ls_ else lifo_push (ev_ptr ev) ls_) ->
    (length v <= LIFO_DEPTH)%nat ∧ Forall (λ p, p ≠ 0) v).
  { intros v ->. destruct (Z.eqb_spec (ev_ptr ev) 0); [done|]. by apply lifo_push_ok. }
  destruct (ev_ptr ev =? 0); fields; case_bool_decide as Hd; subst; fields;
    (split; unfold window; fields); try done; try (by apply Hl);
    (split_and!; [apply u64_bound|done|done]).
Qed.

Lemma observe_fields ev s :
  let s' := observe_alloc ev s in
  s_phase s' ≠ Deopt ∧ (s_phase s' = Compiled <-> s_phase s = Compiled) ∧
  active s' = active s ∧ (∀ k, window k s' = window k s) ∧
  stable_windows s' = stable_windows s ∧ post_window s' = post_window s.
Proof.
  summary s. unfold observe_alloc, window. fields.
  destruct (ev_ptr ev =? 0); fields; case_bool_decide as Hd; subst; fields; done.
Qed.

(** A bounded summary with other windows, phase and count of stable windows. *)
Lemma set_current_bounded w s : bounded K s -> window_ok (g_window_size K + 1) w ->
  bounded K (set_window (active s) w s).
Proof.
  intros [H1 H4 H5 H6 H7 H8 H9 H10 H12 H13] Hw. summary s.
  unfold set_window, window in *. fields_in_all. destruct H4 as [-> | ->]; fields_in_all;
    (split; unfold window; fields; auto).
Qed.

Lemma set_stable_bounded v s : 0 <= v <= g_stable_windows K -> bounded K s -> bounded K (set_stable_windows v s).
Proof. intros Hv [H1 H4 H5 H6 H7 H8 H9 H10 H12 H13]. summary s. fields_in_all. by split. Qed.

Lemma set_post_bounded w s : window_ok (g_window_size K) w -> bounded K s -> bounded K (set_post_window w s).
Proof. intros Hw [H1 H4 H5 H6 H7 H8 H9 H10 H12 H13]. summary s. fields_in_all. by split. Qed.

Lemma set_page_bounded v s : bounded K s -> bounded K (set_code_page v s).
Proof. intros [H1 H4 H5 H6 H7 H8 H9 H10 H12 H13]. summary s. fields_in_all. by split. Qed.

(** A flip starts an empty window. *)
Lemma flip_ok s : bounded K s -> stable_windows s < g_stable_windows K -> summary_ok K (flip_window s).
Proof.
  intros [H1 H4 H5 H6 H7 H8 H9 H10 H12 H13] Hs. destruct (k_window _ Hknobs).
  assert (Hr : window_ok (g_window_size K + 1) window_reset) by (apply window_ok_reset; lia).
  summary s. unfold flip_window, set_window, summary_ok, window in *. fields_in_all.
  destruct H4 as [-> | ->]; fields_in_all; (split; [split; unfold window; fields; auto|]);
    intros _; unfold window; fields; simpl; lia.
Qed.

(** Both windows restarted, outside Compiled. *)
Lemma restart_ok s ph : ph ≠ Compiled -> bounded K s ->
  summary_ok K (set_active 0 (set_window1 window_reset (set_window0 window_reset
    (set_stable_windows 0 (set_s_phase ph s))))).
Proof.
  intros Hp [H1 H4 H5 H6 H7 H8 H9 H10 H12 H13]. destruct (k_window _ Hknobs), (k_windows _ Hknobs).
  assert (Hr : window_ok (g_window_size K + 1) window_reset) by (apply window_ok_reset; lia).
  summary s. unfold summary_ok, window in *. fields_in_all.
  split; [split; unfold window; fields; auto; try done; lia|].
  intros _. unfold window; fields. simpl. lia.
Qed.

Lemma learn_fields s :
  let s' := learn K s in let h := hist (window (active s) s) in
  s_phase s' = Compiled ∧ active s' = active s ∧ (∀ k, window k s' = window k s) ∧
  post_window s' = post_window s ∧ stable_windows s' = stable_windows s ∧
  classes s' = top_k_modes MULTI_CLASS_MAX MULTI_CLASS_COVERAGE h ∧ baseline s' = h ∧
  candidate s' ≠ Generic ∧ deopt_count s' = deopt_count s ∧ frame s' = frame s.
Proof.
  cbv zeta. split_and!; try apply frame_learn; unfold learn; cbv zeta; set (s2 := set_classes _ _);
    pose proof (pick_specializes K s2) as Hp; generalize dependent (pick K s2); intros c Hp; subst s2;
    summary s; unfold window; fields; destruct (fe_ =? 0); fields; try done; by destruct (ac_ =? 0).
Qed.

Lemma learn_first s :
  first_compile_events (learn K s) = if first_compile_events s =? 0 then event_count s else first_compile_events s.
Proof.
  unfold learn. cbv zeta. set (s2 := set_classes _ _). generalize (pick K s2). intros c. subst s2.
  summary s. fields. by destruct (fe_ =? 0).
Qed.

Lemma learn_bounded s : bounded K s -> full K (window (active s) s) = true -> bounded K (learn K s).
Proof.
  intros [H1 H4 H5 H6 H7 H8 H9 H10 H12 H13] Hf. destruct (k_window _ Hknobs).
  destruct (learn_fields s) as (Ep & Ea & Ew & Epw & Es & Ec & Eb & Hc & Ed & Ef).
  pose proof (f_equal (λ x, x.2) Ef) as El. pose proof (f_equal (λ x, x.1.1.2) Ef) as Ee.
  pose proof (f_equal (λ x, x.1.1.1.1.1.1.1.2) Ef) as Efc. cbn [fst snd frame identity] in El, Ee, Efc.
  destruct (window_ok_full K _ H5 Hf) as (l & El' & Hl & HF).
  split; rewrite ?Ea, ?Ew, ?Epw, ?Es, ?Ed, ?El, ?Ee, ?Efc; auto.
  - rewrite Ec, El'. apply top_k_modes_bounds; [lia|done].
  - intros _. split; [done|]. exists l. by rewrite Eb, El'.
  - rewrite learn_first. by destruct (_ =? 0); [apply H1|].
Qed.

Lemma advance_ok {B : Backend} s :
  bounded K s -> s_phase s = PreSpec -> stable_windows s < g_stable_windows K ->
  full K (window (active s) s) = true -> summary_ok K (advance_prespec K s).1.
Proof.
  intros Hb Hp Hs Hf. destruct (k_windows _ Hknobs). pose proof (ok_stable _ _ Hb) as Hs0.
  unfold advance_prespec. destruct (_ && _)%bool.
  2:{ cbn [fst]. apply flip_ok; [apply set_stable_bounded; [lia|done]|]. destruct (stable_spec 0 s) as (_ & _ & E & _). rewrite E. lia. }
  rewrite u32_small by lia. set (s1 := set_stable_windows _ s).
  assert (Hb1 : bounded K s1) by (apply set_stable_bounded; [lia|done]).
  destruct (stable_spec (stable_windows s + 1) s) as (Ep & Ea & Es & Ew & _). fold s1 in Ep, Ea, Es, Ew.
  destruct (stable_windows s1 >=? g_stable_windows K) eqn:Et; rewrite Z.geb_leb in Et; zb.
  2:{ by apply flip_ok. }
  destruct (blacklisted s1 || g_trace_only K).
  { apply flip_ok; [apply set_stable_bounded; [lia|done]|]. destruct (stable_spec 0 s1) as (_ & _ & E & _). rewrite E. lia. }
  assert (Hl : bounded K (learn K s1)) by (apply learn_bounded; [done|by rewrite Ea, Ew]).
  destruct (learn_fields s1) as (Ec & _).
  case_match; cbn [fst]; (split; [by try apply set_page_bounded|]); intros Hne; exfalso; apply Hne; [done|].
  rewrite <- Ec. by destruct (learn K s1).
Qed.

Lemma check_ok s : bounded K (set_post_window window_reset s) -> s_phase s = Compiled ->
  summary_ok K (check_postspec K s).
Proof.
  intros Hb Hp. assert (Hkeep : summary_ok K (set_post_window window_reset s)).
  { split; [done|]. intros Hne. exfalso. apply Hne. by summary s. }
  unfold check_postspec. destruct (g_oracle_mode K); [exact Hkeep|]. destruct (negb _); [|exact Hkeep].
  assert (Hres : summary_ok K (set_active 0 (set_window1 window_reset (set_window0 window_reset
    (set_stable_windows 0 (set_s_phase Deopt (set_post_window window_reset s))))))) by by apply restart_ok.
  revert Hres. clear. summary s. unfold summary_ok. fields. intros [[H1 H4 H5 H6 H7 H8 H9 H10 H12 H13] H].
  unfold window in *. fields_in_all. split; [split; unfold window; fields; auto|exact H].
Qed.

(** An allocation event. *)
Lemma alloc_ok {B : Backend} ev s : sized (ev_size ev) -> summary_ok K s -> summary_ok K (on_alloc K ev s).1.
Proof.
  intros Hsz [Hb Hs]. destruct (k_window _ Hknobs). unfold on_alloc.
  pose proof (observe_bounded ev s Hb) as Hb1. destruct (observe_fields ev s) as (Hp & Hc & Ea & Ew & Est & Epw).
  set (s1 := observe_alloc ev s) in *. case_bool_decide as Hpre.
  - destruct Hs as [Hw Hst]; [rewrite <- Hc, Hpre; done|].
    set (w := window_record _ _). set (s2 := set_window _ w s1).
    assert (Hwok : window_ok (g_window_size K + 1) w).
    { apply window_ok_record; [lia|done|]. rewrite Ea, Ew. destruct (ok_current _ _ Hb) as (l & E & Hl & HF).
      rewrite E in *. cbn in Hw. by exists l. }
    assert (Hb2 : bounded K s2) by by apply set_current_bounded.
    destruct (set_window_spec w s1) as (Ep2 & Ea2 & Es2 & Ew2 & _); [by apply (ok_active K)|]. fold s2 in Ep2, Ea2, Es2, Ew2.
    assert (Hst2 : stable_windows s2 < g_stable_windows K) by (rewrite Es2, Est; done).
    destruct (full K (window (active s2) s2)) eqn:Ef.
    + apply advance_ok; [done|by rewrite Ep2|done|done].
    + split; [exact Hb2|]. intros _. split; [|exact Hst2].
      cbn [fst]. apply (window_ok_not_full K); [by rewrite Ew2|done].
  - assert (Hcomp : s_phase s1 = Compiled) by (destruct (s_phase s1); done).
    set (w := window_record _ _). set (s2 := set_post_window w s1). cbn [fst].
    assert (Ep2 : s_phase s2 = Compiled) by (subst s2; by destruct s1).
    assert (Epw2 : post_window s2 = w) by (subst s2; by destruct s1).
    assert (Hwok : window_ok (g_window_size K + 1) w).
    { apply window_ok_record; [lia|done|]. rewrite Epw. apply Hb. }
    destruct (full K (post_window s2)) eqn:Ef; rewrite Epw2 in Ef.
    + apply check_ok; [|done]. assert (E : set_post_window window_reset s2 = set_post_window window_reset s1)
        by (subst s2; by destruct s1). rewrite E. apply set_post_bounded; [apply window_ok_reset; lia|done].
    + split; [|intros Hne; done]. apply set_post_bounded; [|done]. by apply (window_ok_not_full K).
Qed.

(** A free event, and a reset. *)
Lemma free_shape m ev s : ∃ tp ls, (ls = lifo_stack s ∨ ls = removelast (lifo_stack s)) ∧
  on_free m ev s = set_lifo_stack ls (set_top_pair tp (set_free_dist (dist_record (ev_thread_id ev) (free_dist s))
    (set_free_count (u64 (free_count s + 1)) s))).
Proof.
  summary s. unfold on_free, lifo_top. fields. destruct m; [exists tp_, ls_; auto|].
  destruct (match last ls_ with Some q => q =? ev_ptr ev | None => false end).
  - case_match; fields; do 2 eexists; (split; [right; done|done]).
  - do 2 eexists. split; [left; done|done].
Qed.

Lemma free_ok m ev s : summary_ok K s -> summary_ok K (on_free m ev s).
Proof.
  destruct (free_shape m ev s) as (tp & ls & Hls & ->).
  intros [[(H1 & H2 & H3) H4 H5 H6 H7 H8 H9 [H10 H11] H12 H13] Hs]. pose proof (removelast_ok _ H10 H11) as Hr.
  assert (Hl : (length ls <= LIFO_DEPTH)%nat ∧ Forall (λ p, p ≠ 0) ls) by (by destruct Hls as [-> | ->]).
  clear Hls Hr. summary s. unfold summary_ok, window in *. fields_in_all. split; [|exact Hs].
  split; unfold window; fields; auto. split_and!; [done|apply u64_bound|done].
Qed.

Lemma reset_shape r s : ∃ bl dr, reset_summary K r s =
  set_blacklisted bl (set_deopt_reason dr (set_code_page 0 (set_deopt_count (u32 (deopt_count s + 1))
    (set_active 0 (set_window1 window_reset (set_window0 window_reset
      (set_stable_windows 0 (set_s_phase Deopt s)))))))).
Proof.
  summary s. unfold reset_summary. fields.
  destruct (u32 (dc_ + 1) >=? g_deopt_blacklist_limit K); fields;
    (destruct (negb _ || _); fields; by do 2 eexists).
Qed.

Lemma reset_ok r s : summary_ok K s -> summary_ok K (reset_summary K r s).
Proof.
  destruct (reset_shape r s) as (bl & dr & ->).
  intros [Hb _]. destruct (restart_ok s Deopt ltac:(done) Hb) as [[(H1 & H2 & H3) H4 H5 H6 H7 H8 H9 H10 H12 H13] H].
  revert H1 H2 H3 H4 H5 H6 H7 H8 H9 H10 H12 H13 H. clear Hb. summary s. unfold summary_ok, window. fields. intros.
  split; [|done]. split; unfold window; fields; auto. split_and!; [done|done|apply u32_bound].
Qed.

(** The sites of the table: an operation adds at most one, a new one, named by an
    event or by the header of a freed block's segment. *)
Context (Q : CallSiteID -> Prop).

Definition grows (l : list CallSiteSummary) (ids : list CallSiteID) : Prop :=
  ids = s_id <$> l ∨
  ∃ id, ids = (s_id <$> l) ++ [id] ∧ id ∉ s_id <$> l ∧ Z.of_nat (length l) < MAX_CALL_SITES ∧ Q id.

Definition names_sites {B : Backend} (o : op) : Prop :=
  match o with Event ev => Q (ev_call_site ev) ∧ (managed ev = true -> Q (site_of ev)) | Reset _ _ => True end.

Definition table_wf (l : list CallSiteSummary) : Prop :=
  Z.of_nat (length l) <= MAX_CALL_SITES ∧ NoDup (s_id <$> l) ∧ Forall Q (s_id <$> l).

Lemma grows_created id l : Q id -> grows l (s_id <$> (find_or_create id l).2).
Proof.
  intros HQ. pose proof (find_or_create_spec id l) as H. destruct (find_or_create id l) as [[i|] l']; cbn [snd]; [|subst; by left].
  destruct H as [_ [->|(-> & ? & ?)]]; [by left|right]. exists id. rewrite fmap_app. by split_and!.
Qed.

Lemma grows_step {B : Backend} o l : names_sites o -> grows l (s_id <$> (apply_op K o l).1).
Proof.
  intros HQ. destruct o as [ev|id r]; simpl; [destruct HQ as [HQ1 HQ2]; unfold process_event|unfold reset_call_site].
  - destruct (ev_size ev =? 0).
    + destruct (ev_ptr ev =? 0); [by left|]. destruct (managed ev) eqn:Em.
      * pose proof (grows_created (site_of ev) l (HQ2 eq_refl)) as Hc.
        destruct (find_or_create (site_of ev) l) as [[i|] l']; simpl in *; [|done].
        by rewrite ids_alter by apply s_id_free.
      * case_match; simpl; [|by left]. rewrite ids_alter by apply s_id_free. by left.
    + case_match; [by left|]. pose proof (grows_created (ev_call_site ev) l HQ1) as Hc.
      destruct (find_or_create (ev_call_site ev) l) as [[i|] l']; simpl in *; [|done].
      destruct (l' !! i) as [s|] eqn:Ei; [|exact Hc]. pose proof (s_id_alloc K ev s) as E.
      destruct (on_alloc K ev s) as [s' inst]. simpl in *. by erewrite ids_insert by done.
  - case_match; [|by left]. rewrite ids_alter by apply s_id_reset. by left.
Qed.

Lemma grows_wf l l' : grows l (s_id <$> l') -> table_wf l -> table_wf l'.
Proof.
  intros Hg (Hl & Hnd & HF). unfold table_wf. rewrite <- (length_fmap s_id l').
  destruct Hg as [->|(id & -> & Hid & Hlt & HQ)]; [by rewrite length_fmap|].
  rewrite length_app, length_fmap. simpl. split_and!; [lia| |].
  - apply NoDup_app. split_and!; [done| |by repeat constructor; set_solver].
    intros x Hx ->%list_elem_of_singleton. done.
  - apply Forall_app. auto.
Qed.

Lemma table_ids {B : Backend} ops l :
  Forall names_sites ops -> table_wf l -> table_wf (run_ops K ops l).1.
Proof.
  intros Ho. revert l. induction Ho as [|o ops Ho _ IH]; intros l Hl; [done|]. simpl.
  pose proof (grows_step o l Ho) as Hg. destruct (apply_op K o l) as [l1 i]. cbn [fst] in Hg.
  specialize (IH l1 (grows_wf l l1 Hg Hl)). by destruct (run_ops K ops l1).
Qed.
End Operations.

(** ** Property *)

Definition op_wf (o : op) : Prop := match o with Event ev => event_wf ev | Reset _ _ => True end.

Lemma run_ops_ok_from {B : Backend} K ops l :
  knobs_ok K -> Forall op_wf ops -> Forall (summary_ok K) l -> Forall (summary_ok K) (run_ops K ops l).1.
Proof.
  intros HK Hops Hl. apply (table_run K event_wf (λ _, summary_ok K)) with (n := 0%nat); auto.
  - intros id. by apply summary_ok_new.
  - intros n ev s (_ & Hsz & _) H0 HM. apply alloc_ok; [done|]. unfold sized, fits in *.
    assert (MAX_SIZE = 4096) by (vm_compute; reflexivity). lia.
  - intros n m ev s _. by apply free_ok.
  - intros n r s. by apply reset_ok.
Qed.

Lemma run_ops_ok {B : Backend} K ops : knobs_ok K -> Forall op_wf ops -> Forall (summary_ok K) (run_ops K ops []).1.
Proof. intros HK Hops. by apply run_ops_ok_from. Qed.

Lemma apply_op_ok {B : Backend} K o l :
  knobs_ok K -> op_wf o -> Forall (summary_ok K) l -> Forall (summary_ok K) (apply_op K o l).1.
Proof.
  intros HK Ho Hl. pose proof (run_ops_ok_from K [o] l HK ltac:(by constructor) Hl) as H. simpl in H.
  by destruct (apply_op K o l).
Qed.

(** C12: the summary table is well typed.  Under the knobs [init] makes of any
    environment, after any events and resets: the table has at most 4096 summaries
    with distinct ids; in each, [active] is 0 or 1, both windows and the post
    window are records of actual sizes within the window size, the counters fit
    their types, the learned classes are at most 4, the pointer stack holds at
    most 16 non-null pointers, and an uncompiled site has a window to fill and
    stable windows to wait for; the event count of the first compilation fits 64 bits. *)
Theorem summaries_well_formed {B : Backend} (e : Env) (K0 : Knobs) (ops : list op) :
  Forall op_wf ops ->
  let K := init e K0 in let l := (run_ops K ops []).1 in
  Z.of_nat (length l) <= MAX_CALL_SITES ∧ NoDup (s_id <$> l) ∧ Forall (summary_ok K) l.
Proof.
  intros Hops K l. pose proof (init_knobs e K0) as HK. fold K in HK.
  destruct (table_ids K HK (λ _, True) ops []) as (Hl & Hnd & _).
  { apply Forall_true. by intros []. }
  { split_and!; [done|constructor..]. }
  split_and!; [done|done|]. by apply run_ops_ok.
Qed.

(** Windows of two events: three allocations, a free and a reset. *)
Definition small_knobs : Knobs :=
  init (mkEnv None (Some 2) None None false) (mkKnobs 0 0 KS_ALPHA_DEFAULT 0 false false Generic).
Definition small_ops : list op :=
  let ev sz p := Event (mkAllocEvent 7 sz 0 1 p) in
  [ev 64 4096; ev 64 8192; ev 48 12288; ev 0 12288; Reset 7 Other].

Lemma summaries_well_formed_witness :
  let l := (run_ops (B := plain_backend) small_knobs small_ops []).1 in
  (s_id <$> l = [7] ∧ event_count <$> l = [3] ∧ free_count <$> l = [1]) ∧ Forall (summary_ok small_knobs) l.
Proof.
  split; [vm_compute; auto|].
  refine (proj2 (proj2 (summaries_well_formed (B := plain_backend) (mkEnv None (Some 2) None None false)
    (mkKnobs 0 0 KS_ALPHA_DEFAULT 0 false false Generic) small_ops _))).
  repeat constructor; vm_compute; congruence.
Defined.
