(* ===== verification/Codegen.v ===== *)
(** * The compiler ([src/src/codegen/codegen.cpp], [alloc_slot_index] of [tls.cpp])

    [compile] checks a routine's specification, assigns the routine a slot, emits
    its code into a fresh page and makes the page executable.  Where the linker,
    the loader and [mmap] put things is an [Image]. *)

From S2P Require Import Prelude Common X86 Emitter Jit SlowInit Analysis.

Definition CODE_PAGE_SIZE : Z := 4096.

(** Addresses: the thread-local arrays and the thread pointer of the compiling
    thread, the functions a routine calls, and [g_real_malloc]. *)
Class Image := {
  at_tl_bumps : Z;
  at_tl_freelists : Z;
  at_tl_arenas : Z;
  at_tl_multi_freelists : Z;
  thread_pointer : Z;
  fn_handle : Z;
  fn_bump_slow_init : Z;
  fn_paired_slow_init : Z;
  fn_freelist_refill : Z;
  fn_pc_refill : Z;
  fn_multi_refill : Z;
  fn_arena_reset_alloc : Z;
  real_malloc : Z;
}.

(** The slot counter, the slots' sites, and the executable pages. *)
Record codegen := mkCodegen {
  g_next_index : Z;
  slot_to_site : gmap Z CallSiteID;
  pages : gmap ptr (list Z);
}.

Definition alloc_slot_index (s : codegen) : Z * codegen :=
  let idx := g_next_index s in
  (if idx <? MAX_COMPILED_SITES then idx else MAX_COMPILED_SITES,
   mkCodegen (u32 (idx + 1)) (slot_to_site s) (pages s)).

(** Addresses of a slot's words: [&tl_bumps[idx].ptr] and so on. *)
Definition bump_ptr_at `{Image} (idx : Z) : Z := at_tl_bumps + 16 * idx.
Definition bump_end_at `{Image} (idx : Z) : Z := at_tl_bumps + 16 * idx + 8.
Definition freelist_head_at `{Image} (idx : Z) : Z := at_tl_freelists + 16 * idx.
Definition arena_ptr_at `{Image} (idx : Z) : Z := at_tl_arenas + 24 * idx.
Definition arena_end_at `{Image} (idx : Z) : Z := at_tl_arenas + 24 * idx + 8.
Definition multi_head_at `{Image} (idx k : Z) : Z := at_tl_multi_freelists + 64 * idx + 8 * k.

(** [static_cast<uint32_t>(address - tp)]. *)
Definition tls_offset `{Image} (a : Z) : Z := u32 (u64 (a - thread_pointer)).

(** The strategies that have an emitter; the paired stack shares the bump's. *)
Inductive shape := Bump | FreeList | Refilling | Multi | Arena.

Definition shape_of (s : Strategy) : option shape :=
  match s with
  | BumpAlloc | PairedStack => Some Bump
  | ThreadLocalFreeList => Some FreeList
  | ProducerConsumer => Some Refilling
  | MultiSizeFreeList => Some Multi
  | EpochArena => Some Arena
  | _ => None
  end.

(** The early returns of [compile]. *)
Definition accepts (spec : RoutineSpec) : option shape :=
  if (spec_size spec =? 0) || (spec_size spec >=? Histogram.MAX_SIZE) then None else
  match shape_of (spec_strategy spec) with
  | None => None
  | Some FreeList => if spec_size spec <? POINTER_SIZE then None else Some FreeList
  | Some Multi =>
      if (length (spec_class_sizes spec) =? 0)%nat || (4 <? length (spec_class_sizes spec))%nat then None
      else if forallb (λ c, negb (c <? POINTER_SIZE)) (spec_class_sizes spec) then Some Multi else None
  | Some sh => Some sh
  end.

(** The emitter's call for each shape. *)
Definition emit `{Image} (sh : shape) (spec : RoutineSpec) (idx page : Z) : list Z :=
  match sh with
  | Bump =>
      emit_bump_alloc page CODE_PAGE_SIZE (tls_offset (bump_ptr_at idx)) (tls_offset (bump_end_at idx))
        idx (spec_size spec) (spec_id spec) fn_handle
        (if bool_decide (spec_strategy spec = PairedStack) then fn_paired_slow_init else fn_bump_slow_init)
        real_malloc
  | FreeList =>
      emit_freelist_alloc page CODE_PAGE_SIZE (tls_offset (freelist_head_at idx))
        idx (spec_size spec) (spec_id spec) fn_handle fn_freelist_refill real_malloc
  | Refilling =>
      emit_pc_alloc page CODE_PAGE_SIZE (tls_offset (bump_ptr_at idx)) (tls_offset (bump_end_at idx))
        idx (spec_size spec) (spec_id spec) fn_handle fn_pc_refill real_malloc
  | Multi =>
      emit_multi_freelist_alloc page CODE_PAGE_SIZE (tls_offset (multi_head_at idx 0))
        idx (spec_class_sizes spec) (spec_id spec) fn_handle fn_multi_refill real_malloc
  | Arena =>
      emit_epoch_arena page CODE_PAGE_SIZE (tls_offset (arena_ptr_at idx)) (tls_offset (arena_end_at idx))
        idx (spec_size spec) (spec_id spec) fn_handle fn_arena_reset_alloc real_malloc
  end.

(** [compile]: [raw] is the page [mmap] returns, [None] its failure.  The result
    is 0 for a null pointer. *)
Definition compile `{Image} (raw : option ptr) (spec : RoutineSpec) (s : codegen)
  : res (ptr * codegen) :=
  match accepts spec with
  | None => Ok (0, s)
  | Some sh =>
      let (idx, s) := alloc_slot_index s in
      if idx >=? MAX_COMPILED_SITES then Ok (0, s) else
      let s := mkCodegen (g_next_index s) (<[idx := spec_id spec]> (slot_to_site s)) (pages s) in
      page ← of_option AssertFailed raw;
      let code := emit sh spec idx page in
      if (length code =? 0)%nat then Ok (0, s)
      else Ok (page, mkCodegen (g_next_index s) (slot_to_site s) (<[page := code]> (pages s)))
  end.

(** [reclaim]: the page is unmapped. *)
Definition reclaim (page : ptr) (s : codegen) : codegen :=
  mkCodegen (g_next_index s) (slot_to_site s) (delete page (pages s)).

(** ** Compiling *)

Lemma accepts_spec spec sh :
  accepts spec = Some sh ->
  shape_of (spec_strategy spec) = Some sh ∧ 0 ≠ spec_size spec ∧ spec_size spec < Histogram.MAX_SIZE ∧
  (sh = FreeList -> POINTER_SIZE <= spec_size spec) ∧
  (sh = Multi -> (1 <= length (spec_class_sizes spec) <= 4)%nat ∧
     Forall (λ c, POINTER_SIZE <= c) (spec_class_sizes spec)).
Proof.
  unfold accepts. intros H. destruct (_ || _)%bool eqn:E; [done|]. zb.
  destruct (shape_of (spec_strategy spec)) as [[]|] eqn:Es; simplify_eq; try (split_and!; done || lia).
  - destruct (_ <? _) eqn:Ep; zb; simplify_eq. split_and!; try done; lia.
  - destruct (_ || _)%bool eqn:En; [done|]. apply orb_false_iff in En as [E1%Nat.eqb_neq E2%Nat.ltb_ge].
    destruct (forallb _ _) eqn:Ef; simplify_eq. split_and!; try done; try lia. intros _.
    split; [lia|]. apply Forall_forall. intros c Hc. rewrite forallb_forall in Ef.
    apply list_elem_of_In in Hc. specialize (Ef c Hc). zb. lia.
Qed.

(** The page is always written: the emitters' refusals are out of reach. *)
Lemma emit_nonempty `{Image} sh spec idx page :
  accepts spec = Some sh -> page ≠ 0 -> emit sh spec idx page ≠ [].
Proof.
  intros (_ & _ & _ & _ & Hm)%accepts_spec Hp.
  assert (Hs : 512 <= CODE_PAGE_SIZE) by (unfold CODE_PAGE_SIZE; lia).
  assert (H1 : (1 <= length [0%Z] <= 4)%nat) by (simpl; lia).
  destruct sh; unfold emit.
  - exact (proj1 (emitted_nonempty _ _ _ _ _ _ _ _ _ _ [0] Hp Hs H1)).
  - exact (proj1 (proj2 (emitted_nonempty _ _ _ 0 _ _ _ _ _ _ [0] Hp Hs H1))).
  - exact (proj1 (proj2 (proj2 (proj2 (emitted_nonempty _ _ _ _ _ _ _ _ _ _ [0] Hp Hs H1))))).
  - exact (proj2 (proj2 (proj2 (proj2
      (emitted_nonempty _ _ _ 0 _ 0 _ _ _ _ _ Hp Hs (proj1 (Hm eq_refl))))))).
  - exact (proj1 (proj2 (proj2 (emitted_nonempty _ _ _ _ _ _ _ _ _ _ [0] Hp Hs H1)))).
Qed.

Lemma compile_split `{Image} (page : ptr) (spec : RoutineSpec) (s : codegen) :
  page ≠ 0 ->
  compile (Some page) spec s =
  match accepts spec with
  | None => Ok (0, s)
  | Some sh =>
      let idx := g_next_index s in
      Ok (if idx <? MAX_COMPILED_SITES
          then (page, mkCodegen (u32 (idx + 1)) (<[idx := spec_id spec]> (slot_to_site s))
                        (<[page := emit sh spec idx page]> (pages s)))
          else (0, mkCodegen (u32 (idx + 1)) (slot_to_site s) (pages s)))
  end.
Proof.
  intros Hp. unfold compile. destruct (accepts spec) as [sh|] eqn:E; [|done].
  unfold alloc_slot_index. cbv zeta. destruct (g_next_index s <? MAX_COMPILED_SITES) eqn:Ei; [|done].
  rewrite Z.geb_leb, (proj2 (Z.leb_gt _ _)) by (zb; lia). simpl.
  pose proof (emit_nonempty sh spec (g_next_index s) page E Hp) as Hne.
  revert Hne. generalize (emit sh spec (g_next_index s) page). intros code Hne. by destruct code.
Qed.

(** [compile] on every branch.  A specification outside the supported
    strategies and sizes gives a null routine and leaves the state alone; a
    supported one takes the next slot, and gives a null routine only when the 4096
    slots are used up.  Otherwise the slot is recorded for the site and the page
    holds the emitted code: no emitter ever refuses. *)
Theorem compile_cases `{Image} (page : ptr) (spec : RoutineSpec) (s : codegen) :
  page ≠ 0 ->
  compile (Some page) spec s =
  match accepts spec with
  | None => Ok (0, s)
  | Some sh =>
      let idx := g_next_index s in
      Ok (if idx <? MAX_COMPILED_SITES
          then (page, mkCodegen (u32 (idx + 1)) (<[idx := spec_id spec]> (slot_to_site s))
                        (<[page := emit sh spec idx page]> (pages s)))
          else (0, mkCodegen (u32 (idx + 1)) (slot_to_site s) (pages s)))
  end.
Proof. apply compile_split. Qed.

(** ** What a compiled routine does

    A thread's copy of a thread-local word [a] of the compiling thread is at the
    same distance from the thread's own pointer. *)
Definition own `{Image} (fs_base a : Z) : Z := fs_base + (a - thread_pointer).

(** The words a slot's routine addresses. *)
Definition slot_words `{Image} (idx : Z) : list Z :=
  [bump_ptr_at idx; bump_end_at idx; freelist_head_at idx; arena_ptr_at idx; arena_end_at idx;
   multi_head_at idx 0; multi_head_at idx 1; multi_head_at idx 2; multi_head_at idx 3].

(** The arrays are within reach of a 32-bit displacement from the thread pointer,
    and the functions' addresses are addresses. *)
Record image_ok `{Image} : Prop := {
  near : ∀ idx a, 0 <= idx < MAX_COMPILED_SITES -> a ∈ slot_words idx ->
    - 2 ^ 31 <= a - thread_pointer < 2 ^ 31;
  functions : Forall (fits 64) [fn_handle; fn_bump_slow_init; fn_paired_slow_init;
    fn_freelist_refill; fn_pc_refill; fn_multi_refill; fn_arena_reset_alloc; real_malloc];
}.

(** A thread about to call the routine of slot [idx]: its thread-local words are
    in the address space, and off the word its stack pointer designates. *)
Record thread_ok `{Image} (fs_base idx : Z) (c : cpu) : Prop := {
  at_entry : entry c;
  words : ∀ a, a ∈ slot_words idx -> fits 64 (own fs_base a) ∧ words_apart (own fs_base a) (rsp c);
}.

(** What the routine of each shape does for the thread: serve its own slot, call
    the slow path of that slot, or report the deopt and fall back on [malloc]. *)
Definition behaves `{Image} (sh : shape) (spec : RoutineSpec) (idx page fs_base : Z)
    (callee : Z -> cpu -> cpu) (c : cpu) (r : list call * ending) : Prop :=
  let read a := load64 (mem c) (own fs_base a) in
  let write a v := store64 (mem c) (own fs_base a) v in
  let size := spec_size spec in
  let deopt why := deopts page r c fn_handle (spec_id spec) why real_malloc in
  match sh with
  | Bump =>
      let p := read (bump_ptr_at idx) in
      if rdi c =? size then
        if u64 (p + size) <? read (bump_end_at idx)
        then serves r c p (write (bump_ptr_at idx) (u64 (p + size)))
        else if p =? 0
        then defers callee r c (if bool_decide (spec_strategy spec = PairedStack)
               then fn_paired_slow_init else fn_bump_slow_init) idx size (rdx c)
        else deopt RegionExhaust
      else deopt RegionExhaust
  | FreeList =>
      let p := read (freelist_head_at idx) in
      if rdi c =? size then
        if p =? 0 then defers callee r c fn_freelist_refill idx size (rdx c)
        else serves r c p (write (freelist_head_at idx) (load64 (mem c) p))
      else deopt SizeDrift
  | Refilling =>
      let p := read (bump_ptr_at idx) in
      if rdi c =? size then
        if u64 (p + size) <? read (bump_end_at idx)
        then serves r c p (write (bump_ptr_at idx) (u64 (p + size)))
        else defers callee r c fn_pc_refill idx size (rdx c)
      else deopt SizeDrift
  | Arena =>
      let p := read (arena_ptr_at idx) in
      if rdi c =? size then
        if u64 (p + size) <? read (arena_end_at idx)
        then serves r c p (write (arena_ptr_at idx) (u64 (p + size)))
        else defers callee r c fn_arena_reset_alloc idx size (rdx c)
      else deopt SizeDrift
  | Multi =>
      match class_of (spec_class_sizes spec) (rdi c) 0 with
      | Some k =>
          let p := read (multi_head_at idx (Z.of_nat k)) in
          if p =? 0 then defers callee r c fn_multi_refill idx (rdi c) (Z.of_nat k)
          else serves r c p (write (multi_head_at idx (Z.of_nat k)) (load64 (mem c) p))
      | None => deopt SizeDrift
      end
  end.

Lemma u32_u64 z : u32 (u64 z) = u32 z.
Proof. unfold u32, u64, wrap. apply Z.mod_mod_divide. by exists (2 ^ 32). Qed.

#[local] Transparent sext.
(** A displacement in reach survives truncation and sign extension. *)
Lemma sext32_offset b x : - 2 ^ 31 <= x < 2 ^ 31 -> u64 (b + sext 32 (u32 (u64 x))) = u64 (b + x).
Proof.
  intros Hx. rewrite u32_u64. unfold sext, u64. rewrite wrap_add_r. f_equal. f_equal.
  change (2 ^ (32 - 1)) with (2 ^ 31). unfold u32, wrap.
  destruct (Z.lt_ge_cases x 0).
  - assert ((x mod 2 ^ 32) = x + 2 ^ 32) as ->.
    { symmetry. apply (Z.mod_unique _ _ (-1)); pow2; lia. }
    rewrite (proj2 (Z.ltb_ge _ _)) by (pow2; lia). lia.
  - rewrite Z.mod_small by (pow2; lia). rewrite (proj2 (Z.ltb_lt _ _)) by lia. done.
Qed.
#[local] Opaque sext.

Lemma multi_head_in `{Image} idx (k : nat) : (k < 4)%nat -> multi_head_at idx (Z.of_nat k) ∈ slot_words idx.
Proof. intros Hk. unfold slot_words. destruct k as [|[|[|[|k]]]]; [..|lia]; simpl; set_solver. Qed.

Lemma sizes_small l : Forall (λ c, POINTER_SIZE <= c) l -> Forall (λ s, s < 2 ^ 31) l -> Forall (λ s, 0 <= s < 2 ^ 31) l.
Proof. rewrite !Forall_forall. unfold POINTER_SIZE. intros H H' x Hx. specialize (H x Hx). specialize (H' x Hx). lia. Qed.

Lemma class_of_lt sizes s i :
  match class_of sizes s i with Some k => (i <= k < i + length sizes)%nat | None => True end.
Proof.
  revert i. induction sizes as [|c cs IH]; intros i; simpl; [done|]. destruct (s =? c); [lia|].
  specialize (IH (S i)). destruct (class_of cs s (S i)); [lia|done].
Qed.

Section thread.
  Context `{Image} (Hi : image_ok) (fs_base idx : Z) (c : cpu) (Ht : thread_ok fs_base idx c).
  Hypothesis Hidx : 0 <= idx < MAX_COMPILED_SITES.

Lemma tls_own a : a ∈ slot_words idx -> tls fs_base (tls_offset a) = own fs_base a.
Proof.
  intros Ha. unfold tls, tls_offset. rewrite sext32_offset by (by eapply (near Hi)).
  apply u64_small, (words _ _ _ Ht a Ha).
Qed.

Lemma tls_apart a : a ∈ slot_words idx -> words_apart (tls fs_base (tls_offset a)) (rsp c).
Proof. intros Ha. rewrite tls_own by done. by apply (words _ _ _ Ht). Qed.

Lemma tls_head k :
  (k < 4)%nat -> tls fs_base (head_off (tls_offset (multi_head_at idx 0)) k) = own fs_base (multi_head_at idx (Z.of_nat k)).
Proof.
  intros Hk. pose proof (multi_head_in idx k Hk) as Hin.
  rewrite <- (tls_own _ Hin). unfold head_off, tls_offset, multi_head_at. rewrite !u32_u64.
  unfold u32. rewrite wrap_add_l, wrap_add_r. do 3 f_equal. lia.
Qed.
End thread.

(** The code [compile] emits for a supported specification, run by any thread
    that has it at hand. *)
Lemma emit_behaves `{Image} (Hi : image_ok) (sh : shape) (spec : RoutineSpec) (idx page fs_base : Z)
    (callee : Z -> cpu -> cpu) (c : cpu) :
  SysV callee -> accepts spec = Some sh -> 0 <= idx < MAX_COMPILED_SITES -> 0 < page < 2 ^ 64 ->
  fits 32 (spec_id spec) -> 0 <= spec_size spec -> Forall (λ s, s < 2 ^ 31) (spec_class_sizes spec) ->
  thread_ok fs_base idx c ->
  behaves sh spec idx page fs_base callee c (run fs_base callee page (emit sh spec idx page) 40 0 c).
Proof.
  intros ABI Hacc Hidx Hpage Hid H0 Hcs Ht.
  assert (Hmax : Histogram.MAX_SIZE = 4096) by (vm_compute; reflexivity).
  apply accepts_spec in Hacc as (_ & Hnz & Hlt & _ & Hm).
  pose proof (functions Hi) as Hf. rewrite !Forall_cons in Hf.
  destruct Hf as (Hh & Hb & Hp & Hfl & Hpc & Hmu & Har & Hrm & _).
  assert (Hops : ∀ f, fits 64 f -> operands page idx (spec_size spec) (spec_id spec) fn_handle f real_malloc).
  { intros f Hff. split; try done; unfold MAX_COMPILED_SITES in Hidx; pow2; lia. }
  assert (Hroom : 200 <= CODE_PAGE_SIZE) by (unfold CODE_PAGE_SIZE; lia).
  assert (Hoff : ∀ a, fits 32 (tls_offset a)) by (intros; apply u32_bound).
  pose proof (at_entry _ _ _ Ht) as He.
  assert (Hin : ∀ a, a ∈ slot_words idx -> tls fs_base (tls_offset a) = own fs_base a)
    by (intros; by eapply tls_own).
  assert (Hap : ∀ a, a ∈ slot_words idx -> words_apart (tls fs_base (tls_offset a)) (rsp c))
    by (intros; by eapply tls_apart).
  unfold behaves. destruct sh; simpl emit.
  - rewrite <- !Hin by (unfold slot_words; set_solver).
    apply bump_alloc_runs; try done; [|apply Hap; unfold slot_words; set_solver].
    apply Hops. by case_bool_decide.
  - rewrite <- !Hin by (unfold slot_words; set_solver).
    apply freelist_alloc_runs; try done; [by apply Hops|apply Hap; unfold slot_words; set_solver].
  - rewrite <- !Hin by (unfold slot_words; set_solver).
    apply refilling_alloc_runs with (buf_size := CODE_PAGE_SIZE); try done;
      [by apply Hops|apply Hap; unfold slot_words; set_solver|set_solver].
  - destruct (Hm eq_refl) as [Hn H8].
    assert (Hops0 : operands page idx 0 (spec_id spec) fn_handle fn_multi_refill real_malloc)
      by (split; try done; unfold MAX_COMPILED_SITES in Hidx; pow2; lia).
    pose proof (multi_alloc_runs fs_base callee page CODE_PAGE_SIZE idx (spec_id spec) fn_handle
      fn_multi_refill real_malloc c He (tls_offset (multi_head_at idx 0)) (spec_class_sizes spec) Hops0) as Hr.
    assert (Hk : ∀ k, (k < length (spec_class_sizes spec))%nat ->
      tls fs_base (head_off (tls_offset (multi_head_at idx 0)) k) = own fs_base (multi_head_at idx (Z.of_nat k)) ∧
      words_apart (own fs_base (multi_head_at idx (Z.of_nat k))) (rsp c)).
    { intros k Hk. split; [eapply tls_head; try done; lia|]. apply (words _ _ _ Ht).
      apply multi_head_in. lia. }
    cbn zeta in Hr. specialize (Hr ltac:(apply sizes_small; [|done]; eapply Forall_impl; [exact H8|done])
      Hn ltac:(unfold CODE_PAGE_SIZE; lia)).
    specialize (Hr ltac:(intros k Hlk; destruct (Hk k Hlk) as [-> ?]; done)).
    pose proof (class_of_lt (spec_class_sizes spec) (rdi c) 0) as Hcl.
    destruct (class_of _ _ _) as [k|] eqn:E; [|exact Hr].
    destruct (Hk k) as [<- _]; [simpl in Hcl; lia|exact Hr].
  - rewrite <- !Hin by (unfold slot_words; set_solver).
    apply refilling_alloc_runs with (buf_size := CODE_PAGE_SIZE); try done;
      [by apply Hops|apply Hap; unfold slot_words; set_solver|set_solver].
Qed.

(** C4: compiled code does what its strategy says, from the specification down to
    the bytes.  When [compile] returns a routine, the page holds code that, called
    by any thread whose thread-local arrays lie where the loader puts them, serves
    the requests of the site's size (or sizes) from that thread's own slot, advancing
    the bump pointer or popping the free list; hands the slot and size to the slow
    path of the strategy when the slot is empty; and on any other size reports the
    deopt and tail-calls [malloc].  The routine ends within 40 instructions, and its
    slot is recorded for the site. *)
Theorem compiled_routine_correct `{Image} (page r : ptr) (spec : RoutineSpec) (s s' : codegen) :
  image_ok -> compile (Some page) spec s = Ok (r, s') -> r ≠ 0 ->
  0 < page < 2 ^ 64 -> 0 <= g_next_index s -> fits 32 (spec_id spec) -> 0 <= spec_size spec ->
  Forall (λ s, s < 2 ^ 31) (spec_class_sizes spec) ->
  let idx := g_next_index s in
  r = page ∧ slot_to_site s' !! idx = Some (spec_id spec) ∧ idx < MAX_COMPILED_SITES ∧
  ∃ sh code, accepts spec = Some sh ∧ pages s' !! page = Some code ∧
    ∀ fs_base callee c, SysV callee -> thread_ok fs_base idx c ->
      behaves sh spec idx page fs_base callee c (run fs_base callee page code 40 0 c).
Proof.
  intros Hi Hc Hr Hp Hn Hid Hsz Hcs idx. rewrite compile_split in Hc by lia.
  destruct (accepts spec) as [sh|] eqn:E; [|by simplify_eq]. cbv zeta in Hc. fold idx in Hc.
  destruct (idx <? MAX_COMPILED_SITES) eqn:El; [|by simplify_eq]. injection Hc as <- <-. zb.
  split_and!; [done|apply lookup_insert_eq|done|]. eexists _, _. split; [done|].
  split; [apply lookup_insert_eq|]. intros fs_base callee c ABI Ht. by apply emit_behaves.
Qed.

(** ** Slots *)

Definition compile_all `{Image} : list (ptr * RoutineSpec) -> codegen -> res codegen :=
  fix go reqs s := match reqs with
  | [] => Ok s
  | (page, spec) :: reqs => '(_, s) ← compile (Some page) spec s; go reqs s
  end.

(** The slots assigned are exactly those below the counter. *)
Definition slots_ok (s : codegen) : Prop :=
  0 <= g_next_index s ∧
  ∀ i, is_Some (slot_to_site s !! i) <-> 0 <= i < Z.min (g_next_index s) MAX_COMPILED_SITES.

Lemma compile_slots `{Image} page spec s :
  page ≠ 0 -> slots_ok s -> g_next_index s + 1 < 2 ^ 32 ->
  ∃ r s', compile (Some page) spec s = Ok (r, s') ∧ slots_ok s' ∧
    g_next_index s <= g_next_index s' <= g_next_index s + 1 ∧
    slot_to_site s ⊆ slot_to_site s'.
Proof.
  intros Hp [H0 Hs] Hlt. rewrite compile_split by done.
  destruct (accepts spec) as [sh|]; [|by eexists _, _; split_and!; try done; lia].
  cbv zeta. rewrite u32_small by lia. destruct (_ <? _) eqn:E; zb.
  - eexists _, _. split; [reflexivity|]. split_and!; simpl; try lia.
    + unfold slots_ok. simpl. split; [lia|]. intros i. destruct (decide (i = g_next_index s)) as [->|Hne].
      * rewrite lookup_insert_eq. split; [lia|by eauto].
      * rewrite lookup_insert_ne by done. rewrite Hs. lia.
    + apply insert_subseteq. apply eq_None_not_Some. rewrite Hs. lia.
  - eexists _, _. split; [reflexivity|]. split_and!; simpl; try done; try lia.
    unfold slots_ok. simpl. split; [lia|]. intros i. rewrite Hs. lia.
Qed.

Definition codegen0 : codegen := mkCodegen 0 ∅ ∅.

Lemma compile_all_slots `{Image} reqs s :
  Forall (λ r, r.1 ≠ 0) reqs -> slots_ok s -> g_next_index s + Z.of_nat (length reqs) < 2 ^ 32 ->
  ∃ s', compile_all reqs s = Ok s' ∧ slots_ok s' ∧ g_next_index s' <= g_next_index s + Z.of_nat (length reqs) ∧
    slot_to_site s ⊆ slot_to_site s'.
Proof.
  revert s. induction reqs as [|[page spec] reqs IH]; intros s Hr Hs Hlt; simpl in *.
  { exists s. split_and!; [done|done|lia|done]. }
  apply Forall_cons in Hr as [Hp Hr].
  destruct (compile_slots page spec s Hp Hs) as (r & s1 & -> & Hs1 & Hn & Hsub); [lia|]. simpl.
  destruct (IH s1 Hr Hs1) as (s2 & E2 & Hs2 & Hn2 & Hsub2); [lia|].
  exists s2. split_and!; [done|done|lia|by etrans].
Qed.

(** A slot is assigned once.  Over any sequence of fewer than 2^32 compile
    requests, the slots recorded are exactly those below the counter (at most 4096
    of them), and a later compile never changes the site of an earlier slot: the
    thread-local words baked into a routine are never shared with another. *)
Theorem slots_write_once `{Image} (reqs reqs' : list (ptr * RoutineSpec)) :
  Forall (λ r, r.1 ≠ 0) (reqs ++ reqs') -> Z.of_nat (length (reqs ++ reqs')) < 2 ^ 32 ->
  ∃ s s', compile_all reqs codegen0 = Ok s ∧ compile_all reqs' s = Ok s' ∧
    slot_to_site s ⊆ slot_to_site s' ∧
    (∀ i, is_Some (slot_to_site s !! i) <-> 0 <= i < Z.min (g_next_index s) MAX_COMPILED_SITES) ∧
    (∀ page spec, 0 < page -> ∀ r s2, compile (Some page) spec s = Ok (r, s2) -> r ≠ 0 ->
       slot_to_site s !! g_next_index s = None).
Proof.
  intros [Hr Hr']%Forall_app Hlen. rewrite length_app in Hlen.
  destruct (compile_all_slots reqs codegen0 Hr) as (s & E & Hs & Hn & _).
  { split; [done|]. intros i. simpl. rewrite lookup_empty. split; [by intros []|lia]. }
  { simpl. lia. }
  simpl in Hn. destruct (compile_all_slots reqs' s Hr' Hs) as (s' & E' & _ & _ & Hsub); [lia|].
  exists s, s'. split_and!; try done; [apply Hs|].
  intros page spec Hp r s2 Hc Hr0. rewrite compile_split in Hc by lia. apply eq_None_not_Some.
  destruct Hs as [? Hs]. rewrite Hs. lia.
Qed.

(** ** A concrete image *)

Definition image0 : Image :=
  {| at_tl_bumps := 65536; at_tl_freelists := 131072; at_tl_arenas := 196608;
     at_tl_multi_freelists := 294912; thread_pointer := 1048576; fn_handle := 500;
     fn_bump_slow_init := 600; fn_paired_slow_init := 610; fn_freelist_refill := 620;
     fn_pc_refill := 630; fn_multi_refill := 640; fn_arena_reset_alloc := 650; real_malloc := 700 |}.
#[local] Existing Instance image0.

Lemma image0_ok : image_ok.
Proof.
  split.
  - intros idx a Hidx Ha. unfold MAX_COMPILED_SITES in Hidx. unfold slot_words in Ha.
    repeat (apply elem_of_cons in Ha as [->|Ha]; [cbv -[Z.mul Z.add Z.sub Z.pow Z.le Z.lt]; pow2; lia|]).
    by apply not_elem_of_nil in Ha.
  - repeat (apply Forall_cons_2; [split; vm_compute; congruence|]). apply Forall_nil_2.
Qed.

(** A thread with nothing in its slots, asking for 64 bytes. *)
Definition fresh_thread : cpu := mkCpu 0 0 0 0 32760 0 0 64 false false (store64 ∅ 32760 777).

Lemma fresh_thread_ok : thread_ok 1048576 0 fresh_thread.
Proof.
  split; [split_and!; simpl; done|]. intros a Ha. unfold slot_words in Ha.
  repeat (apply elem_of_cons in Ha as [->|Ha];
    [split; [vm_compute; intuition discriminate|apply words_apart_intro; vm_compute; intuition discriminate]|]).
  by apply not_elem_of_nil in Ha.
Qed.

Lemma compile_cases_witness :
  ∃ code, compile (Some 16384) (mkSpec 7 PairedStack 64 []) codegen0 =
    Ok (16384, mkCodegen 1 {[0 := 7]} {[16384 := code]}).
Proof. rewrite compile_cases by done. eexists. reflexivity. Defined.

Lemma compiled_routine_correct_witness :
  ∃ s' code, compile (Some 16384) (mkSpec 7 PairedStack 64 []) codegen0 = Ok (16384, s') ∧
    pages s' !! 16384 = Some code ∧
    defers stub (run 1048576 stub 16384 code 40 0 fresh_thread) fresh_thread 610 0 64 0.
Proof.
  destruct (compile (Some 16384) (mkSpec 7 PairedStack 64 []) codegen0) as [[r s']|] eqn:E;
    [|exfalso; rewrite compile_split in E by done; discriminate].
  assert (Hr : r = 16384) by (rewrite compile_split in E by done; by injection E).
  destruct (compiled_routine_correct 16384 r (mkSpec 7 PairedStack 64 []) codegen0 s') as
    (_ & _ & _ & sh & code & Hsh & Hcode & Hb); try done; try (pow2; lia).
  - exact image0_ok.
  - exists s', code. split_and!; [by rewrite Hr|done|].
    injection Hsh as <-. exact (Hb 1048576 stub fresh_thread stub_sysv fresh_thread_ok).
Defined.

Lemma slots_write_once_witness :
  ∃ s s', compile_all [(16384, mkSpec 7 BumpAlloc 64 [])] codegen0 = Ok s ∧
    compile_all [(32768, mkSpec 7 ThreadLocalFreeList 64 [])] s = Ok s' ∧
    slot_to_site s ⊆ slot_to_site s'.
Proof.
  destruct (slots_write_once [(16384, mkSpec 7 BumpAlloc 64 [])] [(32768, mkSpec 7 ThreadLocalFreeList 64 [])])
    as (s & s' & ? & ? & ? & _); [by repeat constructor|done|by exists s, s'].
Defined.
