(* ===== verification/CodeHeap.v ===== *)
(** * The compiled code is the heap's routine

    [Codegen] says what the bytes of a compiled routine do to a thread's memory, in
    terms of addresses; [Heap] says what a routine does to the machine of slots and
    segments.  Here the two meet: in a memory that represents the machine, the code
    [compile] puts in the page serves the block [Heap.routine] serves and leaves a
    memory that represents the new machine, or calls the slow path [Heap.routine]
    runs, with its arguments, or reports the deopt. *)

From S2P Require Import Prelude Common X86 Jit Analysis Codegen Segment SlowInit Chunks Heap HeapOps.

(** ** What a specification is compiled to *)

Definition plan_for (spec : RoutineSpec) : option plan :=
  match accepts spec with
  | Some FreeList => Some (PlanList (spec_size spec))
  | Some Multi => Some (PlanClasses (spec_class_sizes spec))
  | Some Bump => Some (PlanRegion (bool_decide (spec_strategy spec = PairedStack)) (spec_size spec))
  | Some Codegen.Arena => Some (PlanArena (spec_size spec))
  | Some Refilling | None => None
  end.

(** What [compile] accepts suits the heap, given that class sizes are those of a
    histogram. *)
Lemma plan_for_ok spec p :
  plan_for spec = Some p -> 0 <= spec_size spec -> Forall (λ c, c < Histogram.MAX_SIZE) (spec_class_sizes spec) ->
  plan_ok p.
Proof.
  intros Hp Hsz Hcs. assert (Hmax : Histogram.MAX_SIZE = 4096) by (vm_compute; reflexivity).
  unfold plan_for in Hp. destruct (accepts spec) as [sh|] eqn:E; [|done].
  apply accepts_spec in E as (_ & Hnz & Hlt & Hfl & Hm).
  destruct sh; simplify_eq/=; try lia.
  - split; [|lia]. by apply Hfl.
  - destruct (Hm eq_refl) as [Hn H8]. split; [|lia]. rewrite Forall_forall in *. intros c Hc.
    split; [by apply H8|]. rewrite <- Hmax. by apply Hcs.
Qed.

(** ** The routine in two stages: the emitted code, and the function it may call *)

Inductive slow_fn := BumpInit | PairedInit | FreelistRefill | MultiRefill | ArenaReset.

Definition call_slow (f : slow_fn) (raw : option Z) (tid idx size a2 : Z) (m : machine) : res (ptr * machine) :=
  match f with
  | BumpInit => bump_slow_init raw tid idx size m
  | PairedInit => paired_slow_init raw tid idx size m
  | FreelistRefill => freelist_refill raw tid idx size m
  | MultiRefill => multi_refill raw tid idx size a2 m
  | ArenaReset => arena_reset_alloc raw tid idx size m
  end.

(** [a2] is the third argument, where the function has one. *)
Inductive entered :=
  | Serve (p : ptr) (m : machine)
  | Call (f : slow_fn) (size : Z) (a2 : option Z)
  | Report (why : DeoptReason).

Definition or_call (fast : option (ptr * machine)) (slow : entered) : entered :=
  match fast with Some (p, m) => Serve p m | None => slow end.

Definition enter (p : plan) (tid idx n : Z) (m : machine) : entered :=
  match p with
  | PlanList sz =>
      if n =? sz then or_call (jit_pop tid idx m) (Call FreelistRefill sz None) else Report SizeDrift
  | PlanClasses l =>
      match class_of l n 0 with
      | Some c => or_call (jit_multi_pop tid idx (Z.of_nat c) m) (Call MultiRefill n (Some (Z.of_nat c)))
      | None => Report SizeDrift
      end
  | PlanRegion paired sz =>
      if n =? sz then
        or_call (jit_bump tid idx sz m)
          (if b_ptr (slot bump0 (tl_bumps m) (tid, idx)) =? 0
           then Call (if paired then PairedInit else BumpInit) sz None else Report RegionExhaust)
      else Report RegionExhaust
  | PlanArena sz =>
      if n =? sz then or_call (jit_arena tid idx sz m) (Call ArenaReset sz None) else Report SizeDrift
  end.

Definition finish (raw : option Z) (tid idx : Z) (m : machine) (e : entered) : res outcome :=
  match e with
  | Serve p m' => Ok (Block p m')
  | Call f size a2 => r ← call_slow f raw tid idx size (default 0 a2) m; Ok (block_of r)
  | Report why => Ok (Deopted why)
  end.

Lemma routine_enter plan_of raw tid idx n m :
  routine plan_of raw tid idx n m = finish raw tid idx m (enter (plan_of idx) tid idx n m).
Proof.
  unfold routine, enter, or_slow, or_call. destruct (plan_of idx) as [sz|l|[] sz|sz]; repeat case_match; simplify_eq/=; done.
Qed.

(** ** Memory *)

(** The words of a slot. *)
Inductive tls_word := WBumpPtr | WBumpEnd | WList | WArenaPtr | WArenaEnd | WClass (k : nat).

#[export] Instance tls_word_eq_dec : EqDecision tls_word.
Proof. solve_decision. Defined.

Definition word_ok (w : tls_word) : Prop := match w with WClass k => (k < 4)%nat | _ => True end.

Definition word_at `{Image} (idx : Z) (w : tls_word) : Z :=
  match w with
  | WBumpPtr => bump_ptr_at idx
  | WBumpEnd => bump_end_at idx
  | WList => freelist_head_at idx
  | WArenaPtr => arena_ptr_at idx
  | WArenaEnd => arena_end_at idx
  | WClass k => multi_head_at idx (Z.of_nat k)
  end.

Definition word_of (m : machine) (tid idx : Z) (w : tls_word) : Z :=
  match w with
  | WBumpPtr => b_ptr (slot bump0 (tl_bumps m) (tid, idx))
  | WBumpEnd => b_end (slot bump0 (tl_bumps m) (tid, idx))
  | WList => f_head (slot freelist0 (tl_freelists m) (tid, idx))
  | WArenaPtr => a_ptr (slot arena0 (tl_arenas m) (tid, idx))
  | WArenaEnd => a_end (slot arena0 (tl_arenas m) (tid, idx))
  | WClass k => arr 0 (m_heads (slot multi0 (tl_multi_freelists m) (tid, idx))) (Z.of_nat k)
  end.

Lemma word_at_in `{Image} idx w : word_ok w -> word_at idx w ∈ slot_words idx.
Proof. destruct w; simpl; [..|intros; by apply multi_head_in]; intros _; unfold slot_words; set_solver. Qed.

(** A chunk of a mapped list segment. *)
Definition list_chunk (m : machine) (x : Z) : Prop :=
  ∃ h, segs (heap m) !! seg_of x = Some h ∧ listed h = true ∧ x ∈ chunk_list (seg_of x) (chunk_size h).

Section Memory.
Context `{Image}.
(** The threads, with their thread pointers. *)
Context (threads : gset Z) (fs_of : Z -> Z).

Definition tls_at (tid idx : Z) (w : tls_word) : Z := own (fs_of tid) (word_at idx w).

Definition a_word (t i : Z) (w : tls_word) : Prop := t ∈ threads ∧ 0 <= i < MAX_COMPILED_SITES ∧ word_ok w.

(** Memory [mm] holds the machine's slots and links. *)
Record represents (mm : memory) (m : machine) : Prop := {
  rep_word t i w : a_word t i w -> load64 mm (tls_at t i w) = word_of m t i w;
  rep_link x : list_chunk m x -> load64 mm x = read_word x (heap m);
}.

(** The loader and the kernel keep the threads' arrays and the segments apart. *)
Record laid_out (m : machine) : Prop := {
  apart_words t i w t' i' w' : a_word t i w -> a_word t' i' w' -> (t, i, w) ≠ (t', i', w') ->
    words_apart (tls_at t i w) (tls_at t' i' w');
  apart_links t i w x : a_word t i w -> list_chunk m x -> words_apart (tls_at t i w) x;
}.

(** One word of one slot changes. *)
Lemma represents_store mm m m' t i w v :
  represents mm m -> laid_out m -> a_word t i w -> 0 <= v < 2 ^ 64 -> heap m' = heap m ->
  (∀ t' i' w', a_word t' i' w' ->
     word_of m' t' i' w' = if decide ((t', i', w') = (t, i, w)) then v else word_of m t' i' w') ->
  represents (store64 mm (tls_at t i w) v) m'.
Proof.
  intros [Hw Hl] [Aw Al] Hword Hv Hheap Hm'. split.
  - intros t' i' w' Hw'. rewrite Hm' by done. case_decide as E.
    + injection E as -> -> ->. rewrite load64_store64_same. by apply u64_small.
    + rewrite load64_store64_other; [by apply Hw|]. apply Aw; [done..|congruence].
  - intros x Hx. assert (Hx' : list_chunk m x) by (unfold list_chunk in *; by rewrite <- Hheap).
    rewrite Hheap, load64_store64_other; [by apply Hl|]. by apply Al.
Qed.
End Memory.

(** The address of a slow path. *)
Definition address `{Image} (f : slow_fn) : Z :=
  match f with
  | BumpInit => fn_bump_slow_init
  | PairedInit => fn_paired_slow_init
  | FreelistRefill => fn_freelist_refill
  | MultiRefill => fn_multi_refill
  | ArenaReset => fn_arena_reset_alloc
  end.

(** The run [r] of a routine from [c] is [e]: it returns the block, in a memory that
    represents the new machine; or calls the slow path of slot [idx] on the caller's
    memory; or reports the deopt and tail-calls [malloc]. *)
Definition runs_as `{Image} (threads : gset Z) (fs_of : Z -> Z) (page idx : Z) (spec : RoutineSpec)
    (callee : Z -> cpu -> cpu) (c : cpu) (e : entered) (r : list call * ending) : Prop :=
  match e with
  | Serve p m => ∃ mm, serves r c p mm ∧ represents threads fs_of mm m
  | Call f size a2 => defers callee r c (address f) idx size (default (rdx c) a2)
  | Report why => deopts page r c fn_handle (spec_id spec) why real_malloc
  end.

(** ** Links *)

Section Links.
Context (plan_of : Z -> plan) (Hplan : ∀ idx, plan_ok (plan_of idx)).
Context (m : machine) (U : list Z) (L : key -> list Z) (R : Z -> list Z).
Context (I : inv_with plan_of m U L R).

Lemma listed_chunk k x : x ∈ L k -> list_chunk m x ∧ 0 < x < 2 ^ 64.
Proof.
  intros Hx. destruct (list_elem plan_of m U L R I k x Hx) as (h & Hh & Hl & Hr & Hk & Hin).
  destruct (seg_facts plan_of Hplan m U L R I _ h Hh) as ([Ha _] & _ & Hsz).
  destruct (l_active _ _ _ _ _ _ _ (seg_list plan_of m U L R I _ h Hh Hl) Hr) as [Hsub _].
  assert (Hc : x ∈ chunk_list (seg_of x) (chunk_size h)).
  { eapply elem_of_submseteq; [|exact Hsub]. unfold places. rewrite Hk. set_solver. }
  split; [by exists h|]. apply elem_of_chunk_list in Hc as (i & Hi & E).
  pose proof (chunk_in_segment (seg_of x) _ i Hsz Hi) as Hb. rewrite <- E in Hb.
  unfold HEADER_SIZE, SEGMENT_SIZE, size_ok in *. pow2. lia.
Qed.

Lemma head_chunk k : let p := v_head (view_of plan_of m k) in
  p ≠ 0 -> list_chunk m p ∧ 0 <= read_word p (heap m) < 2 ^ 64.
Proof.
  intros p Hp. pose proof (s_chain _ _ _ _ (inv_slots _ _ _ _ _ I k)) as Hc. fold p in Hc.
  destruct (L k) as [|x l] eqn:EL; [done|]. destruct Hc as (Ex & _ & Hc). subst x.
  split; [apply (listed_chunk k); rewrite EL; set_solver|].
  destruct l as [|y l]; simpl in Hc; [unfold read_word; rewrite Hc; pow2; lia|].
  destruct Hc as (Ey & _). unfold read_word. rewrite Ey.
  destruct (listed_chunk k y) as [_ ?]; [rewrite EL; set_solver|lia].
Qed.
End Links.

(** ** The fast paths store one word *)

Section Stores.
Context `{Image} (threads : gset Z) (fs_of : Z -> Z) (mm : memory) (m : machine).
Context (Hrep : represents threads fs_of mm m) (Hlay : laid_out threads fs_of m).
Context (t i : Z) (Ht : t ∈ threads) (Hi : 0 <= i < MAX_COMPILED_SITES).

Ltac one_word := repeat first
  [ progress cbn [word_of tl_bumps tl_freelists tl_multi_freelists tl_arenas set_bump set_freelist
      set_multi set_arena set_heap f_head f_segs m_heads m_segs b_ptr b_end a_ptr a_end a_base]
  | rewrite slot_insert_eq | rewrite arr_insert_eq
  | rewrite slot_insert_ne by congruence | rewrite arr_insert_ne by (intros ?; simplify_eq; lia || congruence) ].

(** The slot's other words, and other slots, are as before. *)
Ltac other_words :=
  let t' := fresh in let i' := fresh in let w' := fresh in
  intros t' i' w' _; destruct (decide ((t', i') = (t, i))) as [[= -> ->]|?];
  [destruct w'; case_decide; simplify_eq; one_word; try done
  |rewrite decide_False by congruence; destruct w'; one_word; done].

Lemma store_bump v e : 0 <= v < 2 ^ 64 -> e = b_end (slot bump0 (tl_bumps m) (t, i)) ->
  represents threads fs_of (store64 mm (tls_at fs_of t i WBumpPtr) v) (set_bump (t, i) (mkBump v e) m).
Proof. intros Hv ->. eapply represents_store; [done|done|by split|done|done|]. other_words. Qed.

Lemma store_arena v e b : 0 <= v < 2 ^ 64 -> e = a_end (slot arena0 (tl_arenas m) (t, i)) ->
  represents threads fs_of (store64 mm (tls_at fs_of t i WArenaPtr) v) (set_arena (t, i) (mkArenaSlot v e b) m).
Proof. intros Hv ->. eapply represents_store; [done|done|by split|done|done|]. other_words. Qed.

Lemma store_list v s : 0 <= v < 2 ^ 64 ->
  represents threads fs_of (store64 mm (tls_at fs_of t i WList) v) (set_freelist (t, i) (mkFreeList v s) m).
Proof. intros Hv. eapply represents_store; [done|done|by split|done|done|]. other_words. Qed.

Lemma store_class c v s : (c < 4)%nat -> 0 <= v < 2 ^ 64 ->
  represents threads fs_of (store64 mm (tls_at fs_of t i (WClass c)) v)
    (set_multi (t, i) (mkMulti (<[Z.of_nat c := v]> (m_heads (slot multi0 (tl_multi_freelists m) (t, i)))) s) m).
Proof.
  intros Hc Hv. eapply represents_store; [done|done|by split|done|done|]. other_words.
Qed.
End Stores.

(** [use_word Hread Hb w] replaces the load of word [w] in [Hb]. *)
Ltac use_word Hread Hb w :=
  let E := fresh in pose proof (Hread w) as E; cbn [word_at word_of word_ok] in E;
  rewrite E in Hb by (done || lia); clear E.

(** What the shapes do to addresses is what the plans do to the machine. *)
Lemma behaves_runs_as `{Image} plan_of threads fs_of spec sh m U L R t idx page callee c r :
  (∀ idx, plan_ok (plan_of idx)) -> inv_with plan_of m U L R ->
  accepts spec = Some sh -> plan_for spec = Some (plan_of idx) ->
  represents threads fs_of (mem c) m -> laid_out threads fs_of m -> t ∈ threads -> 0 <= idx < MAX_COMPILED_SITES ->
  behaves sh spec idx page (fs_of t) callee c r ->
  runs_as threads fs_of page idx spec callee c (enter (plan_of idx) t idx (rdi c) m) r.
Proof.
  intros Hplan I Hacc Hp Hrep Hlay Ht Hi Hb.
  assert (Hread : ∀ w, word_ok w -> load64 (mem c) (own (fs_of t) (word_at idx w)) = word_of m t idx w)
    by (intros w Hw; by apply (rep_word _ _ _ _ Hrep)).
  unfold plan_for in Hp. rewrite Hacc in Hp. destruct sh; try done; injection Hp as Hp; rewrite <- Hp; cbn [enter behaves] in *.
  - (* bump *)
    use_word Hread Hb WBumpPtr. use_word Hread Hb WBumpEnd.
    destruct (rdi c =? spec_size spec); [|exact Hb]. unfold jit_bump. set (b := slot bump0 _ _) in *.
    destruct (_ <? _); cbn [or_call].
    + eexists. split; [exact Hb|]. apply store_bump; [done..|apply u64_bound|done].
    + destruct (b_ptr b =? 0); [|exact Hb]. by case_bool_decide.
  - (* list *)
    use_word Hread Hb WList.
    destruct (rdi c =? spec_size spec); [|exact Hb]. unfold jit_pop. set (f := slot freelist0 _ _) in *.
    destruct (Z.eqb_spec (f_head f) 0) as [|Hne]; [exact Hb|]. cbn [or_call].
    destruct (head_chunk plan_of Hplan m U L R I (t, idx, None)) as [Hc Hv];
      [unfold view_of; rewrite <- Hp; exact Hne|].
    unfold view_of in Hc, Hv. rewrite <- Hp in Hc, Hv. cbn [v_head] in Hc, Hv. fold f in Hc, Hv.
    rewrite (rep_link _ _ _ _ Hrep _ Hc) in Hb. eexists. split; [exact Hb|]. by apply store_list.
  - (* classes *)
    assert (Hlen : (length (spec_class_sizes spec) <= 4)%nat).
    { apply accepts_spec in Hacc as (_ & _ & _ & _ & Hm). destruct (Hm eq_refl) as [? _]. lia. }
    pose proof (class_of_lt (spec_class_sizes spec) (rdi c) 0) as Hlt.
    destruct (class_of (spec_class_sizes spec) (rdi c) 0) as [k|]; [|exact Hb].
    use_word Hread Hb (WClass k). unfold jit_multi_pop.
    set (s := slot multi0 _ _) in *. destruct (Z.eqb_spec (arr 0 (m_heads s) (Z.of_nat k)) 0) as [|Hne]; [exact Hb|].
    destruct (head_chunk plan_of Hplan m U L R I (t, idx, Some (Z.of_nat k)) Hne) as [Hc Hv].
    cbn [view_of v_head] in Hc, Hv. fold s in Hc, Hv.
    cbn [or_call]. rewrite (rep_link _ _ _ _ Hrep _ Hc) in Hb. eexists. split; [exact Hb|].
    apply (store_class threads fs_of _ m Hrep Hlay t idx Ht Hi k); [lia|exact Hv].
  - (* arena *)
    use_word Hread Hb WArenaPtr. use_word Hread Hb WArenaEnd.
    destruct (rdi c =? spec_size spec); [|exact Hb]. unfold jit_arena. set (a := slot arena0 _ _) in *.
    destruct (_ <? _); cbn [or_call]; [|exact Hb].
    eexists. split; [exact Hb|]. apply store_arena; [done..|apply u64_bound|done].
Qed.

(** ** Properties *)

(** C2: the bytes and the heap agree.  Take any routine [compile] returns, for a
    slot whose plan is its specification's, and any thread calling it in a memory
    that represents a reachable state of the segment heap.  The code then runs
    within 40 instructions as the heap's routine: when that serves from the slot,
    the code returns the same block and leaves a memory that represents the heap's
    new state, every other slot, thread and link included; when it needs a slow
    path, the code calls that very function with the slot, the size and the class;
    and when it deopts, the code reports the same reason. *)
Theorem code_runs_routine `{Image} (plan_of : Z -> plan) (threads : gset Z) (fs_of : Z -> Z)
    (page r t : Z) (spec : RoutineSpec) (s s' : codegen) (hc : conf) (callee : Z -> cpu -> cpu) (c : cpu) :
  image_ok -> compile (Some page) spec s = Ok (r, s') -> r ≠ 0 ->
  0 < page < 2 ^ 64 -> 0 <= g_next_index s -> fits 32 (spec_id spec) -> 0 <= spec_size spec ->
  Forall (λ n, n < 2 ^ 31) (spec_class_sizes spec) ->
  let idx := g_next_index s in
  (∀ i, plan_ok (plan_of i)) -> plan_for spec = Some (plan_of idx) -> rtc (step plan_of) conf0 hc ->
  represents threads fs_of (mem c) (st hc) -> laid_out threads fs_of (st hc) -> t ∈ threads ->
  SysV callee -> thread_ok (fs_of t) idx c ->
  let e := enter (plan_of idx) t idx (rdi c) (st hc) in
  (∀ raw, routine plan_of raw t idx (rdi c) (st hc) = finish raw t idx (st hc) e) ∧
  ∃ code, pages s' !! r = Some code ∧
    runs_as threads fs_of page idx spec callee c e (run (fs_of t) callee page code 40 0 c).
Proof.
  intros Hi Hc Hr Hp Hn Hid Hsz Hcs idx Hplan Hpf Hreach Hrep Hlay Ht ABI Hth. rewrite compile_split in Hc by lia.
  destruct (accepts spec) as [sh|] eqn:E; [|by simplify_eq]. cbv zeta in Hc. fold idx in Hc.
  destruct (idx <? MAX_COMPILED_SITES) eqn:El; [|by simplify_eq]. injection Hc as <- <-. zb.
  destruct (heap_inv_reachable plan_of Hplan hc Hreach) as (L & R & I).
  split; [intros raw; apply routine_enter|]. eexists. split; [apply lookup_insert_eq|].
  eapply behaves_runs_as; [done|exact I|exact E|done..|]. by apply emit_behaves.
Qed.

(** ** A first call

    A thread that has never allocated calls the routine of a paired-stack site. *)

Section FirstCall.
#[local] Existing Instance image0.

Lemma word_range i w : 0 <= i < MAX_COMPILED_SITES -> word_ok w -> 65536 <= word_at i w <= 557048.
Proof.
  unfold MAX_COMPILED_SITES. intros Hi Hw. destruct w; simpl in Hw; unfold word_at, bump_ptr_at, bump_end_at, freelist_head_at,
    arena_ptr_at, arena_end_at, multi_head_at; cbn [at_tl_bumps at_tl_freelists at_tl_arenas at_tl_multi_freelists image0]; lia.
Qed.

Lemma word_apart i w i' w' :
  0 <= i < MAX_COMPILED_SITES -> 0 <= i' < MAX_COMPILED_SITES -> word_ok w -> word_ok w' -> (i, w) ≠ (i', w') ->
  word_at i w + 8 <= word_at i' w' ∨ word_at i' w' + 8 <= word_at i w.
Proof.
  unfold MAX_COMPILED_SITES. intros Hi Hi' Hw Hw' Hne.
  assert (i = i' -> w ≠ w') by congruence.
  destruct w, w'; simpl in Hw, Hw'; unfold word_at, bump_ptr_at, bump_end_at, freelist_head_at,
    arena_ptr_at, arena_end_at, multi_head_at; cbn [at_tl_bumps at_tl_freelists at_tl_arenas at_tl_multi_freelists image0];
    try lia; try (assert (i ≠ i') by (intros ->; by apply H); lia).
  destruct (decide (i = i')) as [->|]; [|lia]. assert (k ≠ k0) by (intros ->; by apply H). lia.
Qed.

Lemma own_word a : own 1048576 a = a.
Proof. unfold own. cbn [thread_pointer image0]. lia. Qed.

Lemma fresh_represents : represents {[1]} (λ _, 1048576) (mem fresh_thread) (st conf0).
Proof.
  split.
  - intros t i w (_ & Hi & Hw). unfold tls_at. rewrite own_word. pose proof (word_range i w Hi Hw).
    unfold fresh_thread. cbn [mem]. rewrite load64_store64_other by (apply words_apart_intro; pow2; lia).
    destruct w; reflexivity.
  - intros x (h & Hh & _). done.
Qed.

Lemma fresh_laid_out : laid_out {[1]} (λ _, 1048576) (st conf0).
Proof.
  split.
  - intros t i w t' i' w' (Ht & Hi & Hw) (Ht' & Hi' & Hw') Hne. apply elem_of_singleton in Ht, Ht'. subst.
    unfold tls_at. rewrite !own_word. pose proof (word_range i w Hi Hw). pose proof (word_range i' w' Hi' Hw').
    destruct (word_apart i w i' w') as [|]; [done..|congruence| |]; apply words_apart_intro; pow2; lia.
  - intros t i w x _ (h & Hh & _). done.
Qed.

Lemma code_runs_routine_witness :
  ∃ s' code, compile (Some 16384) (mkSpec 7 PairedStack 64 []) codegen0 = Ok (16384, s') ∧
    pages s' !! 16384 = Some code ∧
    routine (λ _, PlanRegion true 64) (Some 4194304) 1 0 64 (st conf0) =
      finish (Some 4194304) 1 0 (st conf0) (Call PairedInit 64 None) ∧
    defers stub (run 1048576 stub 16384 code 40 0 fresh_thread) fresh_thread 610 0 64 0.
Proof.
  destruct (compile (Some 16384) (mkSpec 7 PairedStack 64 []) codegen0) as [[r s']|] eqn:E;
    [|exfalso; rewrite compile_split in E by done; discriminate].
  assert (Hr : r = 16384) by (rewrite compile_split in E by done; by injection E).
  destruct (code_runs_routine (λ _, PlanRegion true 64) {[1]} (λ _, 1048576) 16384 r 1
    (mkSpec 7 PairedStack 64 []) codegen0 s' conf0 stub fresh_thread) as (He & code & Hcode & Hb);
    try done; try (pow2; lia).
  - exact image0_ok.
  - exact fresh_represents.
  - exact fresh_laid_out.
  - exact stub_sysv.
  - exact fresh_thread_ok.
  - subst r. exists s', code. split_and!; [done|done|exact (He _)|exact Hb].
Defined.
End FirstCall.
