(* ===== verification/Deopt.v ===== *)
(** * Deoptimization and page reclamation ([src/src/deopt/deopt.cpp]), with the
      threads that run compiled code ([malloc] in [src/src/trace/trampoline.cpp])

    A guard failure reverts the dispatch entry and queues the page; the background
    thread drains the queue, stamps each page with the epoch, and unmaps it once
    every registered thread has passed a later safe point.  The model interleaves
    the threads' steps with the background thread's.  What it asks of the dispatch
    table is the interface [RoutineTable]; [Dispatch] implements it. *)

From S2P Require Import Prelude Common.
From S2P Require Dispatch.

(** ** The dispatch table as seen by its clients *)

Class RoutineTable (D : Type) := {
  rt_ok : D -> Prop;
  rt_empty : D;
  rt_install : CallSiteID -> ptr -> D -> res D;
  rt_revert : CallSiteID -> D -> D;
  rt_lookup : CallSiteID -> D -> ptr;
  rt_generation : D -> Z;
}.

(** A table maps non-zero sites to routines, and its generation changes whenever
    the map does. *)
Class RoutineTableLaws (D : Type) `{RoutineTable D} := {
  empty_law : rt_ok rt_empty ∧ rt_generation rt_empty = 1 ∧ ∀ id, id ≠ 0 -> rt_lookup id rt_empty = 0;
  install_law s s' id f :
    rt_ok s -> id ≠ 0 -> rt_install id f s = Ok s' ->
    rt_ok s' ∧ rt_generation s' = u64 (rt_generation s + 1) ∧
    ∀ id', id' ≠ 0 -> rt_lookup id' s' = if decide (id' = id) then f else rt_lookup id' s;
  revert_law s id :
    rt_ok s -> id ≠ 0 ->
    rt_ok (rt_revert id s) ∧
    (rt_generation (rt_revert id s) = u64 (rt_generation s + 1) ∨
     rt_revert id s = s ∧ rt_lookup id s = 0) ∧
    ∀ id', id' ≠ 0 -> rt_lookup id' (rt_revert id s) = if decide (id' = id) then 0 else rt_lookup id' s;
}.

#[export] Instance dispatch_table : RoutineTable Dispatch.state := {
  rt_ok s := Dispatch.wf (Dispatch.g_table s);
  rt_empty := Dispatch.init;
  rt_install := Dispatch.install;
  rt_revert := Dispatch.revert;
  rt_lookup := Dispatch.lookup;
  rt_generation := Dispatch.generation;
}.

#[export] Instance dispatch_table_laws : RoutineTableLaws Dispatch.state.
Proof.
  split; simpl.
  - destruct Dispatch.init_represents as [Hw Hl]. split_and!; [done|done|].
    intros id Hid. by rewrite Hl.
  - intros s s' id f Hok Hid E. by eapply Dispatch.install_spec.
  - intros s id Hok Hid. destruct (Dispatch.revert_spec id s Hok Hid) as [Hw Hl].
    split_and!; [done| |done]. unfold Dispatch.revert, Dispatch.generation, Dispatch.lookup.
    destruct (Dispatch.find (Dispatch.g_table s) id) as [k|]; [|by right].
    destruct (_ =? id); simpl; [by left|by right].
Qed.

(** ** State *)

Record DequeuedDeopt := mkDeopt { dq_id : CallSiteID; dq_page : ptr; dq_reason : DeoptReason }.
Record PendingReclaim := mkPending { p_page : ptr; p_epoch : Z }.

Definition MAX_PENDING : nat := 256.
Definition DEOPT_QUEUE_CAP : nat := 256.

(** Where a thread is in [malloc]: outside; past the safe point; with the
    generation read; in the routine's page; in [handle], after the revert. *)
Inductive activity :=
  | Idle
  | Entered (id : CallSiteID)
  | Dispatching (id : CallSiteID) (cur_gen : Z)
  | Running (page : ptr)
  | Handling (page : ptr) (reason : DeoptReason).

Record thread := mkThread {
  tl_safe_point_counter : Z;
  tl_ic_id : CallSiteID;
  tl_ic_fn : ptr;
  tl_ic_gen : Z;
  doing : activity;
}.
Definition thread0 : thread := mkThread 0 0 0 0 Idle.

(** The registered threads are the keys of [epochs]; [baked] gives the site whose
    id the code of a page holds, or held when the page was last mapped; [resets]
    are the calls of [reset_call_site], newest first. *)
Record state (D : Type) := mkState {
  table : D;
  g_epoch : Z;
  g_deopt_queue : list DequeuedDeopt;
  g_pending : list PendingReclaim;
  epochs : gmap Z Z;
  threads : gmap Z thread;
  mapped : gset ptr;
  baked : gmap ptr CallSiteID;
  resets : list (CallSiteID * DeoptReason);
}.
Arguments mkState {D} _ _ _ _ _ _ _ _ _.
Arguments table {D} _.
Arguments g_epoch {D} _.
Arguments g_deopt_queue {D} _.
Arguments g_pending {D} _.
Arguments epochs {D} _.
Arguments threads {D} _.
Arguments mapped {D} _.
Arguments baked {D} _.
Arguments resets {D} _.

Section Deopt.
Context {D : Type} `{RoutineTable D}.

Definition init : state D := mkState rt_empty 0 [] [] ∅ ∅ ∅ ∅ [].

Definition thr (t : Z) (s : state D) : thread := default thread0 (threads s !! t).
Definition set_thr (t : Z) (th : thread) (s : state D) : state D :=
  mkState (table s) (g_epoch s) (g_deopt_queue s) (g_pending s) (epochs s) (<[t := th]> (threads s))
    (mapped s) (baked s) (resets s).
Definition set_doing (t : Z) (a : activity) (s : state D) : state D :=
  let th := thr t s in
  set_thr t (mkThread (tl_safe_point_counter th) (tl_ic_id th) (tl_ic_fn th) (tl_ic_gen th) a) s.

(** The pages a deopt that is not yet through names: one being handled, one in the
    queue, one pending. *)
Definition handled (th : thread) : option ptr :=
  match doing th with Handling page _ => Some page | _ => None end.
Definition in_hand (m : gmap Z thread) : list ptr := omap handled (map_to_list m).*2.
Definition records (s : state D) : list ptr :=
  (dq_page <$> g_deopt_queue s) ++ (p_page <$> g_pending s) ++ in_hand (threads s).

(** ** Operations *)

(** [mark_safe_point], registration included. *)
Definition mark_safe_point (t : Z) (s : state D) : state D :=
  mkState (table s) (g_epoch s) (g_deopt_queue s) (g_pending s) (<[t := g_epoch s]> (epochs s))
    (threads s) (mapped s) (baked s) (resets s).

(** The two halves of [handle]: the revert, and the queue under its mutex. *)
Definition handle_revert (id : CallSiteID) (s : state D) : state D :=
  mkState (rt_revert id (table s)) (g_epoch s) (g_deopt_queue s) (g_pending s) (epochs s) (threads s)
    (mapped s) (baked s) (resets s).
Definition handle_enqueue (id : CallSiteID) (page : ptr) (reason : DeoptReason) (s : state D) : state D :=
  if (length (g_deopt_queue s) <? DEOPT_QUEUE_CAP)%nat
  then mkState (table s) (g_epoch s) (g_deopt_queue s ++ [mkDeopt id page reason]) (g_pending s)
         (epochs s) (threads s) (mapped s) (baked s) (resets s)
  else s.
Definition handle (g_enabled : bool) (id : CallSiteID) (page : ptr) (reason : DeoptReason) (s : state D)
  : state D :=
  if g_enabled then handle_enqueue id page reason (handle_revert id s) else s.

(** One round of [drain_pending]'s first loop. *)
Definition drain_one (s : state D) : option (state D) :=
  match g_deopt_queue s with
  | [] => None
  | d :: q =>
      let e := g_epoch s in
      let pending := if (length (g_pending s) <? MAX_PENDING)%nat
                     then g_pending s ++ [mkPending (dq_page d) e] else g_pending s in
      Some (mkState (table s) (u64 (e + 1)) q pending (epochs s) (threads s) (mapped s) (baked s)
              ((dq_id d, dq_reason d) :: resets s))
  end.

Definition min_epoch (s : state D) : Z :=
  map_fold (λ _ te m, if te <? m then te else m) (g_epoch s) (epochs s).

(** The reclaim pass: pages older than every thread's epoch are unmapped. *)
Definition sweep (s : state D) : state D :=
  let m := min_epoch s in
  let old := filter (λ p, p_epoch p < m) (g_pending s) in
  mkState (table s) (g_epoch s) (g_deopt_queue s) (filter (λ p, ¬ p_epoch p < m) (g_pending s))
    (epochs s) (threads s) (mapped s ∖ list_to_set (p_page <$> old)) (baked s) (resets s).

(** [drain_pending] run without interruption. *)
Fixpoint drain_queue (n : nat) (s : state D) : state D :=
  match n with
  | O => s
  | S n => match drain_one s with Some s => drain_queue n s | None => s end
  end.
Definition drain_pending (s : state D) : state D :=
  let s := drain_queue (length (g_deopt_queue s)) s in
  match g_pending s with [] => s | _ => sweep s end.

(** ** The interleaving *)

Inductive action :=
  | Enter (t : Z) (id : CallSiteID)
  | ReadGeneration (t : Z)
  | Lookup (t : Z)
  | Finish (t : Z)
  | GuardFails (t : Z) (reason : DeoptReason)
  | Enqueue (t : Z)
  | Install (id : CallSiteID) (page : ptr)
  | Drain
  | Sweep.

(** [reuse]: whether [mmap] may hand out any address that is not mapped, or none
    that an outstanding deopt names.  (The second deopt of a page outlives it:
    [page_reclaimed_twice].) *)
Definition act (reuse : bool) (a : action) (s : state D) : option (state D) :=
  match a with
  | Enter t id =>
      (* malloc: the sampled safe point *)
      let th := thr t s in
      match doing th with
      | Idle =>
          if id =? 0 then None else
          let c := u32 (tl_safe_point_counter th + 1) in
          let s := set_thr t (mkThread c (tl_ic_id th) (tl_ic_fn th) (tl_ic_gen th) (Entered id)) s in
          Some (if Z.land c 31 =? 0 then mark_safe_point t s else s)
      | _ => None
      end
  | ReadGeneration t =>
      match doing (thr t s) with
      | Entered id => Some (set_doing t (Dispatching id (rt_generation (table s))) s)
      | _ => None
      end
  | Lookup t =>
      let th := thr t s in
      match doing th with
      | Dispatching id g =>
          let '(fn, th) :=
            if (id =? tl_ic_id th) && (g =? tl_ic_gen th) then (tl_ic_fn th, th)
            else let fn := rt_lookup id (table s) in
                 (fn, mkThread (tl_safe_point_counter th) id fn g (doing th)) in
          Some (set_doing t (if fn =? 0 then Idle else Running fn) (set_thr t th s))
      | _ => None
      end
  | Finish t =>
      match doing (thr t s) with Running _ => Some (set_doing t Idle s) | _ => None end
  | GuardFails t reason =>
      match doing (thr t s) with
      | Running page =>
          match baked s !! page with
          | Some id => Some (set_doing t (Handling page reason) (handle_revert id s))
          | None => None
          end
      | _ => None
      end
  | Enqueue t =>
      match doing (thr t s) with
      | Handling page reason =>
          match baked s !! page with
          | Some id => Some (set_doing t (Running page) (handle_enqueue id page reason s))
          | None => None
          end
      | _ => None
      end
  | Install id page =>
      if (id =? 0) || (page =? 0) || bool_decide (page ∈ mapped s) ||
         (negb reuse && bool_decide (page ∈ records s)) then None
      else match rt_install id page (table s) with
           | Ok d => Some (mkState d (g_epoch s) (g_deopt_queue s) (g_pending s) (epochs s) (threads s)
                             ({[page]} ∪ mapped s) (<[page := id]> (baked s)) (resets s))
           | Trap _ => None
           end
  | Drain => drain_one s
  | Sweep => Some (sweep s)
  end.

Definition step (reuse : bool) (s s' : state D) : Prop := ∃ a, act reuse a s = Some s'.

(** What may be asked of a run.  Nothing; or that [mmap] returns no page an
    outstanding deopt names; or, with [mmap] free to return any unmapped address,
    that a page is failed once: no guard failure of a page while a deopt of it is
    outstanding, and none from a page that is not mapped, where the thread could
    only fault. *)
Inductive rule := Unrestricted | NotRemapped | FailsOnce.

Definition reuses (r : rule) : bool := match r with NotRemapped => false | _ => true end.

Definition lone (a : action) (s : state D) : Prop :=
  match a with
  | GuardFails t _ =>
      match doing (thr t s) with Running P => P ∈ mapped s ∧ P ∉ records s | _ => True end
  | _ => True
  end.
#[global] Instance lone_dec a s : Decision (lone a s).
Proof. unfold lone. repeat case_match; apply _. Defined.
Definition permits (r : rule) (a : action) (s : state D) : Prop :=
  match r with FailsOnce => lone a s | _ => True end.
#[global] Instance permits_dec r a s : Decision (permits r a s).
Proof. destruct r; apply _. Defined.

Definition ruled (r : rule) (s s' : state D) : Prop := ∃ a, act (reuses r) a s = Some s' ∧ permits r a s.

Fixpoint run_actions (reuse : bool) (l : list action) (s : state D) : option (state D) :=
  match l with
  | [] => Some s
  | a :: l => s ← act reuse a s; run_actions reuse l s
  end.

Fixpoint run_ruled (r : rule) (l : list action) (s : state D) : option (state D) :=
  match l with
  | [] => Some s
  | a :: l => if decide (permits r a s) then s ← act (reuses r) a s; run_ruled r l s else None
  end.

(** ** The invariant *)

Context `{!RoutineTableLaws D}.

(** A thread that may still fetch instructions of a page: it is in it, or about
    to call it through its inline cache. *)
Definition holds (th : thread) (P : ptr) : Prop :=
  P ≠ 0 ∧
  (doing th = Running P ∨ (∃ r, doing th = Handling P r) ∨
   (∃ id g, doing th = Dispatching id g ∧ tl_ic_id th = id ∧ tl_ic_gen th = g ∧ tl_ic_fn th = P)).

(** Some site dispatches to the page. *)
Definition entered (s : state D) (P : ptr) : Prop := ∃ id, id ≠ 0 ∧ rt_lookup id (table s) = P.

Record thread_inv (s : state D) (th : thread) : Prop := {
  i_cache_gen : tl_ic_gen th <= rt_generation (table s);
  i_cache : tl_ic_gen th = rt_generation (table s) -> tl_ic_fn th = 0 ∨ entered s (tl_ic_fn th);
  i_entered id : doing th = Entered id -> id ≠ 0;
  i_dispatching id g : doing th = Dispatching id g -> id ≠ 0 ∧ g <= rt_generation (table s);
  i_holds P : holds th P -> is_Some (baked s !! P);
  i_handling P r : doing th = Handling P r -> is_Some (baked s !! P) ∧ ¬ entered s P;
  i_running P : doing th = Running P -> P ≠ 0;
}.

Record inv (n : nat) (s : state D) : Prop := {
  i_ok : rt_ok (table s);
  i_gen : 1 <= rt_generation (table s) <= Z.of_nat n + 1;
  i_epoch : 0 <= g_epoch s <= Z.of_nat n;
  i_entries P : entered s P -> P ≠ 0 -> P ∈ mapped s;
  i_sites id P : id ≠ 0 -> rt_lookup id (table s) = P -> P ≠ 0 -> baked s !! P = Some id;
  i_baked P id : baked s !! P = Some id -> id ≠ 0 ∧ P ≠ 0;
  i_queue P : P ∈ dq_page <$> g_deopt_queue s -> is_Some (baked s !! P) ∧ ¬ entered s P;
  i_pending p : p ∈ g_pending s ->
    is_Some (baked s !! p_page p) ∧ ¬ entered s (p_page p) ∧ p_epoch p < g_epoch s;
  i_thread t : thread_inv s (thr t s);
  i_registered t e : epochs s !! t = Some e ->
    e <= g_epoch s ∧ ∀ P, holds (thr t s) P -> P ∈ mapped s ∧
      ∀ p, p ∈ g_pending s -> p_page p = P -> e <= p_epoch p;
}.

Lemma thread_inv_ext s s' th :
  table s' = table s -> baked s' = baked s -> thread_inv s th -> thread_inv s' th.
Proof. intros Et Eb []. unfold entered in *. constructor; unfold entered; rewrite ?Et, ?Eb; done. Qed.

Lemma inv_mono n s : inv n s -> inv (S n) s.
Proof. intros []. constructor; auto; lia. Qed.

Lemma inv_init : inv 0 init.
Proof.
  destruct empty_law as (Hok & Hg & Hl).
  assert (He : ∀ P, entered init P -> P = 0) by (intros P (id & Hid & <-); by apply Hl).
  constructor; simpl; rewrite ?Hg; try done; try lia.
  - intros P HP HP0. by apply He in HP.
  - intros id P Hid HP HP0. by rewrite Hl in HP.
  - intros P HP. by apply not_elem_of_nil in HP.
  - intros p Hp. by apply not_elem_of_nil in Hp.
  - intros t. unfold thr. simpl. rewrite lookup_empty. constructor; simpl; rewrite ?Hg; try done; try lia.
    intros P (HP0 & [?|[(? & ?)|(? & ? & ? & _)]]); done.
Qed.

Lemma thr_set_thr t th t' s : thr t' (set_thr t th s) = if decide (t = t') then th else thr t' s.
Proof.
  unfold thr, set_thr. simpl. destruct (decide (t = t')) as [->|]; [by rewrite lookup_insert_eq|].
  by rewrite lookup_insert_ne.
Qed.

(** A thread moves: what it may hold afterwards it held, or some site dispatches
    to. *)
Lemma inv_set_thr n s t th :
  inv n s -> thread_inv s th ->
  (∀ P, holds th P -> holds (thr t s) P ∨ entered s P) ->
  inv n (set_thr t th s).
Proof.
  intros [] Hth Hh. constructor; try done.
  - intros t'. rewrite thr_set_thr. apply (thread_inv_ext s); [done..|].
    case_decide; [exact Hth|exact (i_thread0 t')].
  - intros t' e He. destruct (i_registered0 t' e He) as [Hle Hr]. split; [done|].
    intros P HP. rewrite thr_set_thr in HP. case_decide as E; [subst|by apply Hr].
    destruct (Hh P HP) as [HP'|HP']; [by apply Hr|]. split; [apply i_entries0; [done|by destruct HP]|].
    intros p Hp <-. by destruct (i_pending0 p Hp) as (_ & ? & _).
Qed.

(** An idle thread checks in. *)
Lemma inv_safe_point n s t :
  inv n s -> (∀ P, ¬ holds (thr t s) P) -> inv n (mark_safe_point t s).
Proof.
  intros [] Hh. constructor; try done; [intros t'; apply (thread_inv_ext s); [done|done|exact (i_thread0 t')]|]. intros t' e. simpl.
  destruct (decide (t = t')) as [<-|Hne].
  - rewrite lookup_insert_eq. intros [= <-]. split; [lia|]. intros P HP. by destruct (Hh P).
  - rewrite lookup_insert_ne by done. apply i_registered0.
Qed.

Lemma not_holds th : (∀ id g, doing th ≠ Dispatching id g) -> (∀ P, doing th ≠ Running P) ->
  (∀ P r, doing th ≠ Handling P r) -> ∀ P, ¬ holds th P.
Proof. intros H1 H2 H3 P (_ & [?|[(? & ?)|(? & ? & ? & _)]]); naive_solver. Qed.

(** A thread in a page goes on as if the page had been left to it. *)
Lemma holds_same th th' : (∀ P, holds th' P -> doing th = Running P ∨ ∃ r, doing th = Handling P r) ->
  ∀ P, holds th' P -> holds th P.
Proof. intros Hr P HP. split; [apply HP|]. destruct (Hr P HP) as [?|?]; auto. Qed.

(** *** Each action keeps it *)

Lemma inv_enter n s t id s' reuse : inv n s -> act reuse (Enter t id) s = Some s' -> inv n s'.
Proof.
  intros Hi Ha. simpl in Ha. destruct (doing (thr t s)) eqn:Ed; try done.
  destruct (id =? 0) eqn:E0; [done|]. zb.
  assert (Hs : inv n (set_thr t (mkThread (u32 (tl_safe_point_counter (thr t s) + 1)) (tl_ic_id (thr t s))
      (tl_ic_fn (thr t s)) (tl_ic_gen (thr t s)) (Entered id)) s)).
  { apply inv_set_thr; [done| |].
    - destruct (i_thread _ _ Hi t) as [Hg Hc _ _ _ _ _]. constructor; simpl; try done.
      + intros id' [= <-]. done.
      + intros P HP. exfalso. by eapply not_holds in HP.
    - intros P HP. exfalso. by eapply not_holds in HP. }
  case_match; simplify_eq; [|done]. apply inv_safe_point; [done|].
  intros P. rewrite thr_set_thr, decide_True by done. by apply not_holds.
Qed.

Lemma inv_read_generation n s t s' reuse : inv n s -> act reuse (ReadGeneration t) s = Some s' -> inv n s'.
Proof.
  intros Hi Ha. simpl in Ha. destruct (doing (thr t s)) eqn:Ed; simplify_eq.
  pose proof (i_thread _ _ Hi t) as Ht.
  assert (Hh : ∀ P, holds (mkThread (tl_safe_point_counter (thr t s)) (tl_ic_id (thr t s)) (tl_ic_fn (thr t s))
    (tl_ic_gen (thr t s)) (Dispatching id (rt_generation (table s)))) P -> entered s P).
  { intros P (HP & [?|[(? & ?)|(id' & g & Hd & _ & Hg & HF)]]); try done. simpl in *.
    injection Hd as <- <-. destruct (i_cache _ _ Ht Hg); congruence. }
  apply inv_set_thr; [done| |intros P HP; right; by apply Hh].
  destruct Ht as [Hg Hc He _ _ _ _]. constructor; simpl; try done.
  - intros id' g [= <- <-]. split; [by apply He|done].
  - intros P HP. pose proof HP as [HP0 _]. apply Hh in HP as (id' & Hid' & HL).
    exists id'. by eapply i_sites.
Qed.

Definition with_doing (a : activity) (th : thread) : thread :=
  mkThread (tl_safe_point_counter th) (tl_ic_id th) (tl_ic_fn th) (tl_ic_gen th) a.

Lemma set_doing_set_thr t a th s : set_doing t a (set_thr t th s) = set_thr t (with_doing a th) s.
Proof.
  unfold set_doing. rewrite thr_set_thr, decide_True by done. unfold set_thr. simpl. by rewrite insert_insert_eq.
Qed.

(** What a thread that is idle or in a page needs. *)
Lemma thread_inv_running s th :
  tl_ic_gen th <= rt_generation (table s) ->
  (tl_ic_gen th = rt_generation (table s) -> tl_ic_fn th = 0 ∨ entered s (tl_ic_fn th)) ->
  doing th = Idle ∨ (∃ P, doing th = Running P ∧ P ≠ 0 ∧ is_Some (baked s !! P)) ->
  thread_inv s th.
Proof.
  intros Hg Hc Hd. constructor; try done; destruct Hd as [E|(P & E & HP0 & HP)]; rewrite ?E; try done.
  - intros P' (_ & [?|[(? & ?)|(? & ? & ? & _)]]); congruence.
  - intros P' (_ & [?|[(? & ?)|(? & ? & ? & _)]]); congruence.
  - by intros P' [= <-].
Qed.

Lemma holds_running th P P' : doing th = Running P -> holds th P' -> P' = P ∧ P ≠ 0.
Proof.
  intros E (H0 & Hd). rewrite E in Hd. destruct Hd as [[= <-]|[[r [=]]|(i & g & [=] & _)]]. done.
Qed.

Lemma inv_lookup n s t s' reuse : inv n s -> act reuse (Lookup t) s = Some s' -> inv n s'.
Proof.
  intros Hi Ha. simpl in Ha. destruct (doing (thr t s)) as [| |id g| |] eqn:Ed; try done.
  pose proof (i_thread _ _ Hi t) as Ht. destruct (i_dispatching _ _ Ht _ _ Ed) as [Hid Hg].
  destruct (_ && _)%bool eqn:Ehit; simplify_eq; rewrite set_doing_set_thr; zb.
  - assert (Hh : tl_ic_fn (thr t s) ≠ 0 -> holds (thr t s) (tl_ic_fn (thr t s))).
    { intros Hnz. split; [done|]. right. right. eauto 8. }
    apply inv_set_thr; [done| |].
    + apply thread_inv_running; [apply Ht|apply Ht|]. simpl. case_match; zb; [by left|right].
      eexists. split_and!; [done|done|]. eapply i_holds; [done|by apply Hh].
    + intros P HP. left. destruct (tl_ic_fn (thr t s) =? 0) eqn:E0; zb.
      * destruct HP as (_ & [?|[(? & ?)|(? & ? & ? & _)]]); done.
      * apply (holds_running _ (tl_ic_fn (thr t s))) in HP as [-> _]; [by apply Hh|done].
  - set (fn := rt_lookup id (table s)).
    assert (He : entered s fn) by (by exists id).
    apply inv_set_thr; [done| |].
    + apply thread_inv_running; [done|by right|]. simpl. case_match; zb; [by left|right].
      eexists. split_and!; [done|done|]. exists id. by eapply i_sites.
    + intros P HP. right. destruct (fn =? 0) eqn:E0; zb.
      * destruct HP as (_ & [?|[(? & ?)|(? & ? & ? & _)]]); done.
      * by apply (holds_running _ fn) in HP as [-> _].
Qed.

Lemma inv_finish n s t s' reuse : inv n s -> act reuse (Finish t) s = Some s' -> inv n s'.
Proof.
  intros Hi Ha. simpl in Ha. destruct (doing (thr t s)) eqn:Ed; simplify_eq.
  pose proof (i_thread _ _ Hi t) as Ht. apply inv_set_thr; [done| |].
  - apply thread_inv_running; [apply Ht|apply Ht|by left].
  - intros P HP. exfalso. by eapply not_holds in HP.
Qed.

(** A revert: the page is dispatched to by no site afterwards, and every inline
    cache that held it is out of date. *)
Lemma inv_revert n s id :
  inv n s -> Z.of_nat n + 2 < 2 ^ 64 -> id ≠ 0 -> inv (S n) (handle_revert id s).
Proof.
  intros [] Hn Hid. destruct (revert_law (table s) id i_ok0 Hid) as (Hok & Hg & Hl).
  assert (Hsub : ∀ P, P ≠ 0 -> entered (handle_revert id s) P -> entered s P).
  { intros P HP (id' & Hid' & E). simpl in E. rewrite Hl in E by done. case_decide; [done|]. by exists id'. }
  assert (Hgen : rt_generation (rt_revert id (table s)) = rt_generation (table s) + 1 ∨
                 rt_revert id (table s) = table s).
  { destruct Hg as [->|[-> _]]; [left|by right]. rewrite u64_small; [done|pow2; lia]. }
  constructor; simpl; try done; try lia.
  - destruct Hgen as [->| ->]; lia.
  - intros P HP HP0. by apply i_entries0; [apply Hsub|].
  - intros id' P Hid' E HP. simpl in E. rewrite Hl in E by done. case_decide; [done|]. by eapply i_sites0.
  - intros P HP. destruct (i_queue0 P HP) as [[i Hb] He]. split; [by exists i|].
    destruct (i_baked0 _ _ Hb). intros ?. by apply He, Hsub.
  - intros p Hp. destruct (i_pending0 p Hp) as ([i Hb] & He & ?). split_and!; [by exists i| |done].
    destruct (i_baked0 _ _ Hb). intros ?. by apply He, Hsub.
  - intros t. destruct (i_thread0 t) as [Hg' Hc He Hd Hh Hn' Hr'].
    change (thr t (handle_revert id s)) with (thr t s). constructor; simpl; try done.
    + destruct Hgen as [->| ->]; lia.
    + destruct Hgen as [->|E]; [lia|]. rewrite E. intros Eg. destruct (Hc Eg) as [?|(i & Hi & Hi')]; [by left|].
      right. exists i. simpl. by rewrite E.
    + intros i g Ei. destruct (Hd i g Ei). split; [done|]. destruct Hgen as [->| ->]; lia.
    + intros P r Er. destruct (Hn' P r Er) as [[i Hb] He']. split; [by exists i|].
      destruct (i_baked0 _ _ Hb). intros ?. by apply He', Hsub.
Qed.

Lemma reverted_not_entered n s id P :
  inv n s -> baked s !! P = Some id -> ¬ entered (handle_revert id s) P.
Proof.
  intros [] Hb (id' & Hid' & E). destruct (i_baked0 _ _ Hb) as [Hid HP].
  destruct (revert_law (table s) id i_ok0 Hid) as (_ & _ & Hl). simpl in E. rewrite Hl in E by done.
  case_decide; [done|]. pose proof (i_sites0 id' P Hid' E HP). congruence.
Qed.

Lemma inv_guard_fails n s t reason s' reuse :
  Z.of_nat n + 2 < 2 ^ 64 -> inv n s -> act reuse (GuardFails t reason) s = Some s' -> inv (S n) s'.
Proof.
  intros Hn Hi Ha. simpl in Ha. destruct (doing (thr t s)) as [| | |P|] eqn:Ed; try done.
  destruct (baked s !! P) as [id|] eqn:Hb; simplify_eq.
  destruct (i_baked _ _ Hi _ _ Hb) as [Hid HP0].
  pose proof (inv_revert n s id Hi Hn Hid) as Hi'. pose proof (i_thread _ _ Hi' t) as Ht.
  apply inv_set_thr; [done| |].
  - destruct Ht as [Hg Hc _ _ _ _ _]. constructor; simpl; try done.
    + intros P' (_ & [?|[(r & Er)|(? & ? & ? & _)]]); try done. simpl in Er. injection Er as <- _. by exists id.
    + intros P' r [= <- _]. split; [by exists id|by eapply reverted_not_entered].
  - intros P' (HP' & [?|[(r & Er)|(? & ? & ? & _)]]); try done. simpl in Er. injection Er as <- _.
    left. split; [done|]. by left.
Qed.
Lemma inv_enqueue n s t s' reuse : inv n s -> act reuse (Enqueue t) s = Some s' -> inv n s'.
Proof.
  intros Hi Ha. simpl in Ha. destruct (doing (thr t s)) as [| | | |P r] eqn:Ed; try done.
  destruct (baked s !! P) as [id|] eqn:Hb; simplify_eq.
  assert (Hi' : inv n (handle_enqueue id P r s)).
  { unfold handle_enqueue. case_match; [|done]. destruct Hi. constructor; try done.
    - intros P' HP'. simpl in HP'. rewrite fmap_app in HP'. apply elem_of_app in HP' as [HP'|HP'].
      + by apply i_queue0.
      + apply list_elem_of_singleton in HP' as ->. exact (i_handling _ _ (i_thread0 t) P r Ed).
    - intros t'. apply (thread_inv_ext s); [done|done|exact (i_thread0 t')]. }
  assert (Et : thr t (handle_enqueue id P r s) = thr t s) by (unfold handle_enqueue; by case_match).
  assert (Eb : baked (handle_enqueue id P r s) = baked s) by (unfold handle_enqueue; by case_match).
  pose proof (i_thread _ _ Hi' t) as Ht. rewrite Et in Ht. unfold set_doing. rewrite Et.
  apply inv_set_thr; [done| |].
  - apply thread_inv_running; [apply Ht|apply Ht|]. right. exists P. split_and!; [done|by apply (i_baked _ _ Hi _ _ Hb)|]. rewrite Eb. by exists id.
  - intros P' HP'. rewrite Et. left. apply (holds_running _ P) in HP' as [-> HP]; [|done].
    split; [done|]. right. left. by exists r.
Qed.

Lemma handling_recorded s t P r : doing (thr t s) = Handling P r -> P ∈ records s.
Proof.
  intros E. unfold records, in_hand. rewrite !elem_of_app. right. right. apply list_elem_of_omap.
  unfold thr in E. destruct (threads s !! t) as [th|] eqn:Et; [|done]. exists th. split.
  - apply list_elem_of_fmap. exists (t, th). split; [done|]. by apply elem_of_map_to_list.
  - simpl in E. unfold handled. by rewrite E.
Qed.

Lemma inv_install n s id page s' :
  Z.of_nat n + 2 < 2 ^ 64 -> inv n s -> act false (Install id page) s = Some s' -> inv (S n) s'.
Proof.
  intros Hn Hi Ha. pose proof (handling_recorded s) as Hh0. destruct Hi. simpl in Ha.
  destruct (_ || _ || _ || _)%bool eqn:Eg; [done|]. zb.
  destruct (bool_decide (page ∈ mapped s)) eqn:Ema; [done|]. apply bool_decide_eq_false in Ema.
  destruct (bool_decide (page ∈ records s)) eqn:Ebk; [done|]. apply bool_decide_eq_false in Ebk.
  destruct (rt_install id page (table s)) as [d|] eqn:Er; simplify_eq.
  destruct (install_law (table s) d id page i_ok0 ltac:(done) Er) as (Hok & Hg & Hl).
  rewrite u64_small in Hg by (pow2; lia).
  set (s' := mkState d _ _ _ _ _ _ _ _).
  assert (Hsub : ∀ P, entered s' P -> P = page ∨ entered s P).
  { intros P (i & Hi & E). simpl in E. rewrite Hl in E by done. case_decide; [by left|right; by exists i]. }
  assert (Hbk : ∀ P, is_Some (baked s !! P) -> is_Some (baked s' !! P)).
  { intros P HP. simpl. destruct (decide (page = P)) as [<-|]; [by rewrite lookup_insert_eq|by rewrite lookup_insert_ne]. }
  assert (Hold : ∀ P, P ∈ records s -> is_Some (baked s !! P) ∧ ¬ entered s P -> is_Some (baked s' !! P) ∧ ¬ entered s' P).
  { intros P Hr [HP He]. split; [by apply Hbk|]. by intros [-> |?]%Hsub. }
  constructor; simpl; try done; try lia.
  - intros P [-> |HP]%Hsub HP0; [set_solver|]. apply elem_of_union_r. by apply i_entries0.
  - intros i P Hi E HP. rewrite Hl in E by done. case_decide; [subst; by rewrite lookup_insert_eq|].
    rewrite lookup_insert_ne; [by apply i_sites0|]. intros <-. apply Ema, i_entries0; [by exists i|done].
  - intros P i. destruct (decide (page = P)) as [<-|]; [rewrite lookup_insert_eq; by intros [= <-]|].
    rewrite lookup_insert_ne by done. apply i_baked0.
  - intros P HP. apply Hold; [unfold records; rewrite elem_of_app; by left|by apply i_queue0].
  - intros p Hp. destruct (i_pending0 p Hp) as (? & ? & ?). destruct (Hold (p_page p)); [|done..].
    unfold records. rewrite !elem_of_app. right. left. by apply list_elem_of_fmap_2.
  - intros t. destruct (i_thread0 t) as [Hg' Hc He Hd Hh Hn' Hr']. change (thr t s') with (thr t s).
    constructor; simpl; try done; try lia.
    + intros i g Ei. destruct (Hd i g Ei). split; [done|lia].
    + intros P HP. by apply Hbk, Hh.
    + intros P r HP. eapply Hold, Hn', HP. by eapply Hh0.
  - intros t e He. destruct (i_registered0 t e He) as [Hle Hr]. split; [done|]. intros P HP.
    destruct (Hr P HP). split; [set_solver|done].
Qed.

Lemma inv_drain n s s' reuse :
  Z.of_nat n + 2 < 2 ^ 64 -> inv n s -> act reuse Drain s = Some s' -> inv (S n) s'.
Proof.
  intros Hn [] Ha. simpl in Ha. unfold drain_one in Ha.
  destruct (g_deopt_queue s) as [|d q] eqn:Eq; simplify_eq.
  set (pending := if (_ <? _)%nat then _ else _).
  assert (Hp : ∀ p, p ∈ pending -> p ∈ g_pending s ∨ p_page p ∈ dq_page <$> d :: q ∧ p_epoch p = g_epoch s).
  { intros p. subst pending. case_match; [|by left].
    rewrite elem_of_app, list_elem_of_singleton. intros [?| ->]; [by left|right]. split; [apply elem_of_cons; by left|done]. }
  rewrite u64_small by (pow2; lia).
  constructor; simpl; try done; try lia.
  - intros P HP. apply i_queue0. csimpl. apply elem_of_cons. by right.
  - intros p Hin. destruct (Hp p Hin) as [Hin'|[Hin' He]].
    + destruct (i_pending0 p Hin') as (? & ? & ?). split_and!; try done. lia.
    + destruct (i_queue0 _ Hin'). split_and!; try done. lia.
  - intros t. apply (thread_inv_ext s); [done|done|exact (i_thread0 t)].
  - intros t e He. destruct (i_registered0 t e He) as [Hle Hr]. split; [lia|]. intros P HP.
    destruct (Hr P HP) as [Hm Hpe]. split; [done|]. intros p Hin E.
    destruct (Hp p Hin) as [Hin'|[_ ->]]; [by apply Hpe|done].
Qed.

Lemma min_epoch_le s :
  min_epoch s <= g_epoch s ∧ ∀ t e, epochs s !! t = Some e -> min_epoch s <= e.
Proof.
  unfold min_epoch. apply (map_fold_weak_ind (λ r m, r <= g_epoch s ∧ ∀ t e, m !! t = Some e -> r <= e)).
  - split; [lia|]. intros t e He. by rewrite lookup_empty in He.
  - intros i x m r Hm [Hr Hall]. split; [case_match; zb; lia|]. intros t e.
    destruct (decide (i = t)) as [<-|].
    + rewrite lookup_insert_eq. intros [= <-]. case_match; zb; lia.
    + rewrite lookup_insert_ne by done. intros He. specialize (Hall t e He). case_match; zb; lia.
Qed.

Lemma sweep_unmaps s P :
  P ∈ mapped s ∖ list_to_set (p_page <$> filter (λ p, p_epoch p < min_epoch s) (g_pending s)) <->
  P ∈ mapped s ∧ ∀ p, p ∈ g_pending s -> p_page p = P -> min_epoch s <= p_epoch p.
Proof.
  rewrite elem_of_difference, elem_of_list_to_set, list_elem_of_fmap. split; intros [Hm Hn]; (split; [done|]).
  - intros p Hp <-. destruct (decide (p_epoch p < min_epoch s)); [|lia]. exfalso. apply Hn.
    exists p. split; [done|]. by apply list_elem_of_filter.
  - intros (p & -> & [Hlt Hp]%list_elem_of_filter). specialize (Hn p Hp eq_refl). lia.
Qed.

Lemma inv_sweep n s : inv n s -> inv n (sweep s).
Proof.
  intros []. destruct (min_epoch_le s) as [Hle Hmin]. constructor; try done.
  - intros P HP HP0. apply sweep_unmaps. split; [by apply i_entries0|]. intros p Hp <-.
    by destruct (i_pending0 p Hp) as (_ & Hne & _).
  - intros p [_ Hp]%list_elem_of_filter. by apply i_pending0.
  - intros t. apply (thread_inv_ext s); [done|done|exact (i_thread0 t)].
  - intros t e He. destruct (i_registered0 t e He) as [? Hr]. split; [done|]. intros P HP.
    destruct (Hr P HP) as [Hm Hpe]. split.
    + apply sweep_unmaps. split; [done|]. intros p Hp E. specialize (Hpe p Hp E). specialize (Hmin t e He). lia.
    + intros p [_ Hp]%list_elem_of_filter. by apply Hpe.
Qed.

Lemma deopt_inv_step n s s' :
  Z.of_nat n + 2 < 2 ^ 64 -> inv n s -> step false s s' -> inv (S n) s'.
Proof.
  intros Hn Hi [a Ha]. destruct a; eauto using inv_install, inv_drain, inv_guard_fails.
  - by eapply inv_mono, inv_enter.
  - by eapply inv_mono, inv_read_generation.
  - by eapply inv_mono, inv_lookup.
  - by eapply inv_mono, inv_finish.
  - by eapply inv_mono, inv_enqueue.
  - simpl in Ha. simplify_eq. by apply inv_mono, inv_sweep.
Qed.

(** *** A page that is failed once

    With one outstanding deopt for a page at most, the page stays mapped until that
    deopt is through, so [mmap] cannot return it before. *)

Record once (s : state D) : Prop := {
  o_nodup : NoDup (records s);
  o_mapped P : P ∈ records s -> P ∈ mapped s;
}.

Lemma in_hand_insert t th m : in_hand (<[t := th]> m) ≡ₚ option_list (handled th) ++ in_hand (delete t m).
Proof.
  unfold in_hand. rewrite <- insert_delete_eq, map_to_list_insert by apply lookup_delete_eq. simpl.
  by destruct (handled th).
Qed.

(** The records that are not thread [t]'s. *)
Definition others (t : Z) (s : state D) : list ptr :=
  (dq_page <$> g_deopt_queue s) ++ (p_page <$> g_pending s) ++ in_hand (delete t (threads s)).

Lemma records_set_thr t th s : records (set_thr t th s) ≡ₚ option_list (handled th) ++ others t s.
Proof. unfold records, others, set_thr. simpl. rewrite in_hand_insert. solve_Permutation. Qed.

Lemma records_split t s : records s ≡ₚ option_list (handled (thr t s)) ++ others t s.
Proof.
  unfold records, others, thr. destruct (threads s !! t) as [th|] eqn:Et; simpl.
  - rewrite <- (insert_id (threads s) t th) at 1 by done. rewrite in_hand_insert. solve_Permutation.
  - by rewrite delete_id.
Qed.

Lemma once_shrink s s' l :
  once s -> records s ≡ₚ l ++ records s' ->
  (∀ P, P ∈ records s' -> P ∉ l -> P ∈ mapped s -> P ∈ mapped s') -> once s'.
Proof.
  intros [Hn Hm] Hp Hs. rewrite Hp in Hn. apply NoDup_app in Hn as (_ & Hd & Hn). split; [done|].
  intros P HP. apply Hs; [done|by intros ?%Hd|]. apply Hm. rewrite Hp. apply elem_of_app. by right.
Qed.

Lemma once_move t th s s' :
  once s -> handled (thr t s) = handled th -> s' = set_thr t th s -> once s'.
Proof.
  intros Ho E ->. apply (once_shrink s _ []); [done| |done]. by rewrite records_set_thr, <- E, <- records_split.
Qed.

Lemma once_init : once init.
Proof. split; unfold records, init; simpl; [constructor|]. by intros P ?%elem_of_nil. Qed.

Lemma once_sweep s : once s -> once (sweep s).
Proof.
  intros Ho. apply (once_shrink s _ (p_page <$> filter (λ p, p_epoch p < min_epoch s) (g_pending s))); [done| |].
  - unfold records, sweep. simpl.
    rewrite (Permutation_app_comm (p_page <$> filter _ _)), <- app_assoc. f_equiv.
    rewrite <- app_assoc, (Permutation_app_comm (in_hand _)), app_assoc. f_equiv.
    rewrite <- fmap_app. f_equiv. symmetry. rewrite Permutation_app_comm. apply filter_app_complement.
  - intros P _ HP Hm. simpl. set_solver.
Qed.

Lemma once_guard_fails t r s s' :
  once s -> lone (GuardFails t r) s -> act true (GuardFails t r) s = Some s' -> once s'.
Proof.
  intros [Hn Hm] Hl Ha. simpl in Ha, Hl. destruct (doing (thr t s)) as [| | |P|] eqn:Ed; try done.
  destruct (baked s !! P) as [id|]; [|done]. injection Ha as <-. destruct Hl as [HP Hnew].
  assert (E : records (set_doing t (Handling P r) (handle_revert id s)) ≡ₚ P :: records s).
  { unfold set_doing. rewrite records_set_thr, (records_split t s). unfold handled at 2. by rewrite Ed. }
  split; [rewrite E; by constructor|]. intros P'. rewrite E. intros [->|HP']%elem_of_cons; [done|by apply Hm].
Qed.

Lemma once_enqueue t s s' reuse : once s -> act reuse (Enqueue t) s = Some s' -> once s'.
Proof.
  intros Ho Ha. simpl in Ha. destruct (doing (thr t s)) as [| | | |P r] eqn:Ed; try done.
  destruct (baked s !! P) as [id|]; [|done]. injection Ha as <-.
  assert (E : records s ≡ₚ P :: others t s) by (rewrite (records_split t s); unfold handled; by rewrite Ed).
  unfold handle_enqueue. case_match.
  - apply (once_shrink s _ []); [done| |done]. unfold set_doing. rewrite records_set_thr, E. unfold others. simpl.
    rewrite fmap_app. simpl. solve_Permutation.
  - apply (once_shrink s _ [P]); [done| |done]. unfold set_doing. by rewrite records_set_thr, E.
Qed.

Lemma once_drain s s' : once s -> drain_one s = Some s' -> once s'.
Proof.
  intros Ho Ha. unfold drain_one in Ha. destruct (g_deopt_queue s) as [|d q] eqn:Eq; [done|]. injection Ha as <-.
  destruct (_ <? _)%nat.
  - apply (once_shrink s _ []); [done| |done]. unfold records. simpl. rewrite Eq, fmap_app. simpl. solve_Permutation.
  - apply (once_shrink s _ [dq_page d]); [done| |done]. unfold records. simpl. by rewrite Eq.
Qed.

Lemma once_act a s s' : once s -> lone a s -> act true a s = Some s' -> once s'.
Proof.
  intros Ho Hl Ha. destruct a as [t id|t|t|t|t r|t|id page| |]; eauto using once_guard_fails, once_enqueue, once_drain.
  - simpl in Ha. destruct (doing (thr t s)) eqn:Ed; try done. destruct (id =? 0); [done|].
    assert (Hs : once (set_thr t (mkThread (u32 (tl_safe_point_counter (thr t s) + 1)) (tl_ic_id (thr t s))
      (tl_ic_fn (thr t s)) (tl_ic_gen (thr t s)) (Entered id)) s)).
    { eapply once_move; [exact Ho| |reflexivity]. unfold handled. by rewrite Ed. }
    case_match; injection Ha as <-; [|done]. by destruct Hs.
  - simpl in Ha. destruct (doing (thr t s)) eqn:Ed; simplify_eq.
    eapply once_move; [exact Ho| |reflexivity]. unfold handled. by rewrite Ed.
  - simpl in Ha. destruct (doing (thr t s)) eqn:Ed; try done.
    destruct (_ && _)%bool; injection Ha as <-; rewrite set_doing_set_thr;
      (eapply once_move; [exact Ho| |reflexivity]); unfold handled; rewrite Ed; simpl; by destruct (_ =? 0).
  - simpl in Ha. destruct (doing (thr t s)) eqn:Ed; simplify_eq.
    eapply once_move; [exact Ho| |reflexivity]. unfold handled. by rewrite Ed.
  - simpl in Ha. destruct (_ || _); [done|]. destruct (rt_install _ _ _); [|done]. injection Ha as <-.
    destruct Ho as [Hn Hm]. split; [done|]. intros P HP. simpl. apply elem_of_union_r. by apply Hm.
  - simpl in Ha. injection Ha as <-. by apply once_sweep.
Qed.

(** So such a run asks nothing of [mmap]. *)
Lemma once_not_remapped a s s' : once s -> act true a s = Some s' -> act false a s = Some s'.
Proof.
  intros [_ Hm] Ha. destruct a as [| | | | | |id page| |]; try done. simpl in *.
  rewrite orb_false_r in Ha. rewrite (bool_decide_eq_false_2 (page ∈ records s)); [by rewrite orb_false_r|].
  intros HP%Hm. rewrite (bool_decide_eq_true_2 (page ∈ mapped s)) in Ha by done. by rewrite orb_true_r in Ha.
Qed.

(** The invariant of a run under a rule. *)
Definition rule_inv (r : rule) (n : nat) (s : state D) : Prop := inv n s ∧ (r = FailsOnce -> once s).

Lemma rule_inv_step r n s s' :
  r ≠ Unrestricted -> Z.of_nat n + 2 < 2 ^ 64 -> rule_inv r n s -> ruled r s s' -> rule_inv r (S n) s'.
Proof.
  intros Hr Hn [Hi Ho] (a & Ha & Hp). destruct r; [done| |]; simpl in *.
  - split; [|done]. eapply deopt_inv_step; [done|exact Hi|by exists a].
  - specialize (Ho eq_refl). split; [|intros _; by eapply once_act].
    eapply deopt_inv_step; [done|exact Hi|]. exists a. by apply once_not_remapped.
Qed.

Lemma rule_inv_reachable r n s :
  r ≠ Unrestricted -> Z.of_nat n < 2 ^ 63 -> nsteps (ruled r) n init s -> rule_inv r n s.
Proof.
  intros Hr Hn Hs.
  cut (∀ m x, rule_inv r m x -> Z.of_nat (m + n) < 2 ^ 63 -> nsteps (ruled r) n x s -> rule_inv r (m + n) s).
  { intros Hc. apply (Hc 0%nat init); [|lia|done]. split; [apply inv_init|intros _; apply once_init]. }
  clear Hs. induction n as [|n IH]; intros m x Hx Hlt Hs; inversion Hs as [|? ? y ? Hxy Hys]; subst.
  - by rewrite Nat.add_0_r.
  - rewrite Nat.add_succ_r, <- Nat.add_succ_l. apply (IH ltac:(lia) (S m) y); [|lia|done].
    eapply rule_inv_step; [done| |exact Hx|exact Hxy]. revert Hlt. pow2. lia.
Qed.

(** ** Properties *)

(** C6: code pages are reclaimed safely.  However the registered threads'
    calls, guard failures, inline-cache hits and safe points interleave with the
    background thread's installs, drains and reclaim passes, a registered thread
    in a compiled routine, or in the deopt handler it called, is in a mapped page,
    under one condition, which the code does not establish: an address is not
    mapped again while a deopt that names it is outstanding.  The second rule says
    so of [mmap]; the third lets [mmap] return any unmapped address and asks that
    no page is failed again while a deopt of it is outstanding.  Without either
    the statement is false ([page_reclaimed_twice]).  (Fewer than 2^63 steps, so
    that the epoch and generation do not wrap.) *)
Theorem registered_threads_run_mapped (r : rule) (n : nat) (s : state D) (t e : Z) (P : ptr) :
  r ≠ Unrestricted -> Z.of_nat n < 2 ^ 63 -> nsteps (ruled r) n init s ->
  epochs s !! t = Some e ->
  doing (thr t s) = Running P ∨ (∃ r, doing (thr t s) = Handling P r) ->
  P ∈ mapped s.
Proof.
  intros Hr0 Hn Hs He Hd. destruct (rule_inv_reachable r n s Hr0 Hn Hs) as [Hi _].
  destruct (i_registered _ _ Hi t e He) as [_ Hr].
  apply Hr. split; [|tauto]. destruct Hd as [E|[why E]]; [by apply (i_running _ _ (i_thread _ _ Hi t))|].
  destruct (i_handling _ _ (i_thread _ _ Hi t) P why E) as [[id Hb] _]. by apply (i_baked _ _ Hi _ _ Hb).
Qed.

(** Once every registered thread has passed a safe point since the last drain, the
    least epoch is the current one. *)
Lemma min_epoch_settled s : (∀ t e, epochs s !! t = Some e -> e = g_epoch s) -> min_epoch s = g_epoch s.
Proof.
  intros He. apply (map_fold_weak_ind (λ r m, (∀ t e, m !! t = Some e -> e = g_epoch s) -> r = g_epoch s)
      (λ _ te m, if te <? m then te else m) (g_epoch s)); [done| |exact He].
  intros i x m r Hm IH Hall. rewrite IH.
  - assert (x = g_epoch s) as -> by (apply (Hall i); by rewrite lookup_insert_eq). by rewrite Z.ltb_irrefl.
  - intros t e Ht. apply (Hall t). rewrite lookup_insert_ne; [done|congruence].
Qed.

Lemma sweep_settled s :
  (∀ t e, epochs s !! t = Some e -> e = g_epoch s) -> (∀ p, p ∈ g_pending s -> p_epoch p < g_epoch s) ->
  g_pending (sweep s) = [] ∧ ∀ p, p ∈ g_pending s -> p_page p ∉ mapped (sweep s).
Proof.
  intros He Hp. pose proof (min_epoch_settled s He) as Hm. split.
  - simpl. apply elem_of_nil_inv. intros p [Hlt Hin]%list_elem_of_filter. apply Hlt. rewrite Hm. by apply Hp.
  - intros p Hin Hmp. apply sweep_unmaps in Hmp as [_ Hle]. specialize (Hle p Hin eq_refl).
    specialize (Hp p Hin). lia.
Qed.

(** *** Stamps are in the past, whatever [mmap] returns *)

Definition stamps (n : nat) (s : state D) : Prop :=
  0 <= g_epoch s <= Z.of_nat n ∧ ∀ p, p ∈ g_pending s -> p_epoch p < g_epoch s.

Lemma stamps_act reuse a n s s' :
  Z.of_nat n + 2 < 2 ^ 64 -> stamps n s -> act reuse a s = Some s' -> stamps (S n) s'.
Proof.
  intros Hn [He Hp] Ha.
  assert (Hsame : g_epoch s' = g_epoch s -> g_pending s' ⊆ g_pending s -> stamps (S n) s').
  { intros Ee Ep. split; rewrite Ee; [lia|]. intros p ?%Ep. by apply Hp. }
  destruct a; simpl in Ha; try (repeat case_match; simplify_eq; by apply Hsame).
  - repeat case_match; simplify_eq. apply Hsame; simpl; unfold handle_enqueue; by case_match.
  - unfold drain_one in Ha. destruct (g_deopt_queue s) as [|d q]; [done|]. injection Ha as <-.
    unfold stamps. cbn [g_epoch g_pending]. rewrite u64_small by (pow2; lia). split; [lia|].
    intros p. case_match; [rewrite elem_of_app, list_elem_of_singleton; intros [?%Hp| ->]; simpl; lia|].
    intros ?%Hp. lia.
  - injection Ha as <-. apply Hsame; [done|]. intros p [_ ?]%list_elem_of_filter. done.
Qed.

Lemma stamps_reachable reuse n s : Z.of_nat n < 2 ^ 63 -> nsteps (step reuse) n init s -> stamps n s.
Proof.
  intros Hn Hs. cut (∀ m x, stamps m x -> Z.of_nat (m + n) < 2 ^ 63 -> nsteps (step reuse) n x s -> stamps (m + n) s).
  { intros Hc. apply (Hc 0%nat init); [|lia|done]. split; [simpl; lia|]. by intros p ?%elem_of_nil. }
  clear Hs. induction n as [|n IH]; intros m x Hx Hlt Hs; inversion Hs as [|? ? y ? [a Ha] Hys]; subst.
  - by rewrite Nat.add_0_r.
  - rewrite Nat.add_succ_r, <- Nat.add_succ_l. apply (IH ltac:(lia) (S m) y); [|lia|done].
    eapply stamps_act; [|exact Hx|exact Ha]. revert Hlt. pow2. lia.
Qed.

(** C16: pending pages are reclaimed in time.  In any reachable state, whatever
    addresses [mmap] has returned, once every registered thread has passed a safe
    point since the last drain, the next reclaim pass unmaps every pending page and
    leaves none. *)
Theorem pending_pages_reclaimed (reuse : bool) (n : nat) (s : state D) :
  Z.of_nat n < 2 ^ 63 -> nsteps (step reuse) n init s ->
  (∀ t e, epochs s !! t = Some e -> e = g_epoch s) ->
  g_pending (sweep s) = [] ∧ ∀ p, p ∈ g_pending s -> p_page p ∉ mapped (sweep s).
Proof.
  intros Hn Hs He. apply sweep_settled; [done|]. by destruct (stamps_reachable reuse n s Hn Hs).
Qed.

(** *** The drain *)

(** The queue's entries stamped with consecutive epochs. *)
Definition stamped (e : Z) (q : list DequeuedDeopt) : list PendingReclaim :=
  imap (λ i d, mkPending (dq_page d) (e + Z.of_nat i)) q.

Lemma drain_queue_spec n s :
  (length (g_deopt_queue s) <= n)%nat -> (length (g_pending s) <= MAX_PENDING)%nat ->
  0 <= g_epoch s -> g_epoch s + Z.of_nat (length (g_deopt_queue s)) < 2 ^ 64 ->
  drain_queue n s =
  mkState (table s) (g_epoch s + Z.of_nat (length (g_deopt_queue s))) []
    (take MAX_PENDING (g_pending s ++ stamped (g_epoch s) (g_deopt_queue s)))
    (epochs s) (threads s) (mapped s) (baked s)
    (rev ((λ d, (dq_id d, dq_reason d)) <$> g_deopt_queue s) ++ resets s).
Proof.
  revert s. induction n as [|n IH]; intros s Hq Hp H0 Hlt; destruct s as [tb e q pe ep th ma ba rs];
    simpl in Hq, Hp, H0, Hlt; destruct q as [|d q]; simpl in Hq; try lia.
  - simpl. rewrite app_nil_r, take_ge by done. by rewrite Z.add_0_r.
  - simpl. rewrite app_nil_r, take_ge by done. by rewrite Z.add_0_r.
  - cbn [drain_queue]. unfold drain_one. cbn [g_deopt_queue g_epoch g_pending].
    simpl length in Hlt. rewrite u64_small by (pow2; lia).
    rewrite IH; cbn [g_deopt_queue g_epoch g_pending table epochs threads mapped baked resets]; try done; try lia.
    2: { case_match; [|done]. rewrite length_app. simpl. apply Nat.ltb_lt in H1. lia. }
    f_equal; [simpl length; lia| |].
    + unfold stamped. rewrite imap_cons. rewrite Z.add_0_r.
      assert (E : imap (λ i d0, mkPending (dq_page d0) (e + 1 + Z.of_nat i)) q =
                  imap ((λ i d0, mkPending (dq_page d0) (e + Z.of_nat i)) ∘ S) q).
      { apply imap_ext. intros i x _. simpl. f_equal. lia. }
      rewrite E. destruct (Nat.ltb_spec (length pe) MAX_PENDING).
      * by rewrite <- app_assoc.
      * by rewrite !take_app_le by lia.
    + csimpl. by rewrite <- app_assoc.
Qed.
(** One uninterrupted [drain_pending].  It issues exactly the queued resets,
    oldest first; advances the epoch by one for each; stamps the queued pages with
    the consecutive epochs and keeps the first 256 pending ones (a page that finds
    the table full is never unmapped); and unmaps exactly the pending pages older
    than every thread's epoch, keeping the others in order. *)
Theorem drain_pending_exact (s : state D) :
  (length (g_pending s) <= MAX_PENDING)%nat -> 0 <= g_epoch s ->
  g_epoch s + Z.of_nat (length (g_deopt_queue s)) < 2 ^ 64 ->
  let q := g_deopt_queue s in
  let s' := drain_pending s in
  let all := take MAX_PENDING (g_pending s ++ stamped (g_epoch s) q) in
  let m := map_fold (λ _ te m, if te <? m then te else m) (g_epoch s + Z.of_nat (length q)) (epochs s) in
  g_deopt_queue s' = [] ∧ g_epoch s' = g_epoch s + Z.of_nat (length q) ∧
  resets s' = rev ((λ d, (dq_id d, dq_reason d)) <$> q) ++ resets s ∧
  g_pending s' = filter (λ p, ¬ p_epoch p < m) all ∧
  mapped s' = mapped s ∖ list_to_set (p_page <$> filter (λ p, p_epoch p < m) all).
Proof.
  intros Hp H0 Hlt. cbv zeta. unfold drain_pending. rewrite drain_queue_spec by done.
  cbn [g_pending]. destruct (take MAX_PENDING (g_pending s ++ _)) as [|p all] eqn:E.
  - simpl. split_and!; try done. rewrite difference_empty_L. done.
  - unfold sweep. cbn [g_pending g_deopt_queue g_epoch resets mapped]. unfold min_epoch.
    cbn [g_epoch epochs]. done.
Qed.

(** *** Runs *)

Lemma run_actions_nsteps reuse l s s' :
  run_actions reuse l s = Some s' -> nsteps (step reuse) (length l) s s'.
Proof.
  revert s. induction l as [|a l IH]; intros s Hr; simpl in Hr; simplify_eq; [constructor|].
  destruct (act reuse a s) as [s1|] eqn:Ea; [|done]. simpl in Hr. econstructor; [by exists a|by apply IH].
Qed.

Lemma run_ruled_nsteps r l s s' : run_ruled r l s = Some s' -> nsteps (ruled r) (length l) s s'.
Proof.
  revert s. induction l as [|a l IH]; intros s Hr; simpl in Hr; simplify_eq; [constructor|].
  destruct (decide (permits r a s)) as [Hp|]; [|done]. destruct (act (reuses r) a s) as [s1|] eqn:Ea; [|done].
  simpl in Hr. econstructor; [by exists a|by apply IH].
Qed.

Lemma run_actions_app reuse l l' s :
  run_actions reuse (l ++ l') s = run_actions reuse l s ≫= run_actions reuse l'.
Proof. revert s. induction l as [|a l IH]; intros s; [done|]. simpl. destruct (act reuse a s); simpl; [apply IH|done]. Qed.

(** *** A thread that is not registered *)

(** Everything but a step of thread [t] and the reclaim pass. *)
Definition by_others (t : Z) (a : action) : Prop :=
  match a with
  | Enter t' _ | ReadGeneration t' | Lookup t' | Finish t' | GuardFails t' _ | Enqueue t' => t' ≠ t
  | Install _ _ | Drain => True
  | Sweep => False
  end.

(** Thread [t] is in page [P] for good, and [P] is pending. *)
Definition lingers (t : Z) (P : ptr) (s : state D) : Prop :=
  doing (thr t s) = Running P ∧ P ∈ p_page <$> g_pending s.

Lemma lingers_act reuse a t P s s' :
  by_others t a -> act reuse a s = Some s' -> lingers t P s -> lingers t P s'.
Proof.
  intros Hb Ha [Hd Hp].
  assert (Hsame : thr t s' = thr t s -> g_pending s ⊆ g_pending s' -> lingers t P s').
  { intros E Es. split; [by rewrite E|]. revert Hp. rewrite !list_elem_of_fmap. intros (p & ? & ?%Es). eauto. }
  assert (Hset : ∀ t' th s0, t' ≠ t -> thr t (set_thr t' th s0) = thr t s0).
  { intros t' th s0 Hne. by rewrite thr_set_thr, decide_False. }
  assert (Hset2 : ∀ t' th th' s0, t' ≠ t -> thr t (set_thr t' th (set_thr t' th' s0)) = thr t s0).
  { intros t' th th' s0 Hne. by rewrite !Hset. }
  destruct a; simpl in Ha, Hb; try done;
    try (repeat case_match; simplify_eq; (apply Hsame; [|done]); first [exact (Hset _ _ _ Hb)|exact (Hset2 _ _ _ _ Hb)|done]).
  - destruct (doing _); try done. destruct (baked s !! _); simplify_eq. apply Hsame.
    + etrans; [exact (Hset _ _ _ Hb)|]. unfold handle_enqueue. by destruct (_ <? _)%nat.
    + simpl. unfold handle_enqueue. by destruct (_ <? _)%nat.
  - unfold drain_one in Ha. destruct (g_deopt_queue s) as [|d q]; [done|]. injection Ha as <-. apply Hsame; [done|].
    cbn [g_pending]. case_match; [|done]. intros p Hin. apply elem_of_app. by left.
Qed.

Lemma lingers_run reuse l t P s s' :
  Forall (by_others t) l -> run_actions reuse l s = Some s' -> lingers t P s -> lingers t P s'.
Proof.
  intros Hl. revert s. induction Hl as [|a l Ha _ IH]; intros s Hr Hs; simpl in Hr; [by simplify_eq|].
  destruct (act reuse a s) as [s1|] eqn:E; [|done]. eapply IH; [exact Hr|]. by eapply lingers_act.
Qed.

(** Draining the queue up to an entry makes its page pending. *)
Lemma drains_pend reuse (q : list DequeuedDeopt) d t P s :
  g_deopt_queue s = q ++ [d] -> dq_page d = P -> doing (thr t s) = Running P ->
  (length (g_pending s) + length q < MAX_PENDING)%nat ->
  ∃ s', run_actions reuse (replicate (S (length q)) Drain) s = Some s' ∧ lingers t P s'.
Proof.
  revert s. induction q as [|d' q IH]; intros s Eq HP Hd Hlt; simpl in Hlt.
  - simpl. unfold drain_one. rewrite Eq. cbn [app]. assert (El : (length (g_pending s) <? MAX_PENDING)%nat = true) by (apply Nat.ltb_lt; lia).
    rewrite El. eexists. split; [reflexivity|]. split; [done|]. cbn [g_pending]. rewrite fmap_app, elem_of_app. right.
    apply list_elem_of_singleton. by rewrite <- HP.
  - cbn [length replicate run_actions]. cbn [act]. unfold drain_one. rewrite Eq. cbn [app mbind option_bind].
    assert (El : (length (g_pending s) <? MAX_PENDING)%nat = true) by (apply Nat.ltb_lt; lia). rewrite El.
    apply IH; [done|done|done|]. cbn [g_pending]. rewrite length_app. cbn [length]. lia.
Qed.

(** C40: the threads [registered_threads_run_mapped] leaves out are not protected.
    A thread is registered at its 32nd call of [malloc]; whatever state it
    is in a compiled page before that, with room in the queue and the pending table:
    if it fails its guard and the background thread drains the queue, then whatever
    the other threads and the background thread do from there, short of a reclaim
    pass, once every registered thread has passed a safe point the next reclaim
    pass unmaps the page with the thread still running in it. *)
Theorem unregistered_thread_unmapped (reuse : bool) (n : nat) (s : state D) (t : Z) (P : ptr) (r : DeoptReason) :
  Z.of_nat n < 2 ^ 62 -> nsteps (step reuse) n init s ->
  epochs s !! t = None -> doing (thr t s) = Running P -> is_Some (baked s !! P) ->
  (length (g_deopt_queue s) < DEOPT_QUEUE_CAP)%nat ->
  (length (g_pending s) + length (g_deopt_queue s) < MAX_PENDING)%nat ->
  ∃ s1, run_actions reuse ([GuardFails t r; Enqueue t] ++ replicate (S (length (g_deopt_queue s))) Drain) s = Some s1 ∧
    doing (thr t s1) = Running P ∧
    ∀ l s2, Z.of_nat (length l) < 2 ^ 62 - 1024 -> Forall (by_others t) l -> run_actions reuse l s1 = Some s2 ->
      (∀ t' e, epochs s2 !! t' = Some e -> e = g_epoch s2) ->
      doing (thr t (sweep s2)) = Running P ∧ P ∉ mapped (sweep s2).
Proof.
  intros Hn Hs He Hd [id Hb] Hq Hp.
  assert (Hg : ∃ s', run_actions reuse [GuardFails t r; Enqueue t] s = Some s' ∧ doing (thr t s') = Running P ∧
    g_deopt_queue s' = g_deopt_queue s ++ [mkDeopt id P r] ∧ g_pending s' = g_pending s).
  { cbn [run_actions act]. rewrite Hd, Hb. cbn [mbind option_bind]. unfold set_doing at 1. rewrite thr_set_thr, decide_True by done.
    cbn [doing]. change (baked (set_doing t (Handling P r) (handle_revert id s))) with (baked s). rewrite Hb.
    cbn [mbind option_bind]. eexists. split; [reflexivity|]. unfold handle_enqueue.
    change (g_deopt_queue (set_doing t (Handling P r) (handle_revert id s))) with (g_deopt_queue s).
    apply Nat.ltb_lt in Hq. rewrite Hq. unfold set_doing. rewrite thr_set_thr, decide_True by done. done. }
  destruct Hg as (s' & E1 & Hd' & Eq & Ep).
  destruct (drains_pend reuse (g_deopt_queue s) (mkDeopt id P r) t P s' Eq eq_refl Hd') as (s1 & E2 & Hl1);
    [by rewrite Ep|]. exists s1. rewrite run_actions_app, E1. split; [exact E2|]. split; [apply Hl1|].
  intros l s2 Hlen Hl E3 Hset. destruct (lingers_run reuse l t P s1 s2 Hl E3 Hl1) as [Hd2 Hp2]. split; [exact Hd2|].
  apply list_elem_of_fmap in Hp2 as (p & -> & Hin). apply (sweep_settled s2); [done| |done].
  assert (Hrun : nsteps (step reuse) (n + (2 + (S (length (g_deopt_queue s)) + length l))) init s2).
  { eapply nsteps_trans; [exact Hs|]. eapply nsteps_trans; [exact (run_actions_nsteps _ _ _ _ E1)|].
    eapply nsteps_trans; [|exact (run_actions_nsteps _ _ _ _ E3)].
    pose proof (run_actions_nsteps _ _ _ _ E2) as H2. by rewrite length_replicate in H2. }
  refine (proj2 (stamps_reachable reuse _ s2 _ Hrun)). unfold DEOPT_QUEUE_CAP in Hq. revert Hn Hlen. pow2. lia.
Qed.
End Deopt.

(** [n] calls of a thread from a site that is not compiled. *)
Definition calls (n : nat) (t id : Z) : list action :=
  mjoin (replicate n [Enter t id; ReadGeneration t; Lookup t]).
Definition enter (t id : Z) : list action := [Enter t id; ReadGeneration t; Lookup t].
Definition deopt (t : Z) : list action := [GuardFails t SizeDrift; Enqueue t].

Definition outcome (reuse : bool) (l : list action) : option (state Dispatch.state) :=
  run_actions reuse l init.

Definition ruled_outcome (r : rule) (l : list action) : option (state Dispatch.state) :=
  run_ruled r l init.

Definition runs_in (t P : Z) (s : state Dispatch.state) : bool :=
  match doing (thr t s) with Running P' => P' =? P | _ => false end.

Lemma runs_in_spec t P s : runs_in t P s = true -> doing (thr t s) = Running P.
Proof. unfold runs_in. destruct (doing (thr t s)); try done. intros ?. zb. by subst. Qed.

(** Reading a field of a computed state. *)
Lemma outcome_eval {A} (f : state Dispatch.state -> A) reuse l s v :
  outcome reuse l = Some s -> f <$> outcome reuse l = Some v -> f s = v.
Proof. intros ->. by intros [= ->]. Qed.

Lemma outcome_nsteps reuse l s :
  outcome reuse l = Some s -> nsteps (step reuse) (length l) init s.
Proof. apply run_actions_nsteps. Qed.
#[global] Opaque outcome.

(** Two registered threads in the routine of site 1; one leaves it by a guard
    failure. *)
Definition two_threads : list action :=
  calls 32 5 9 ++ calls 32 6 9 ++ [Install 1 4096] ++ enter 5 1 ++ enter 6 1 ++ deopt 5 ++
  [Finish 5; Drain; Sweep].

Lemma outcome_ruled r l s : ruled_outcome r l = Some s -> nsteps (ruled r) (length l) init s.
Proof. apply run_ruled_nsteps. Qed.

(** Reading a field of a computed state. *)
Lemma ruled_eval {A} (f : state Dispatch.state -> A) r l s v :
  ruled_outcome r l = Some s -> f <$> ruled_outcome r l = Some v -> f s = v.
Proof. intros ->. by intros [= ->]. Qed.
#[global] Opaque ruled_outcome.

(** [two_threads] until both have left the page and it is unmapped; then [mmap]
    returns its address again, for site 2, whose routine thread 6 is in. *)
Definition remapped : list action :=
  two_threads ++ [Finish 6] ++ calls 32 5 9 ++ calls 32 6 9 ++ [Sweep; Install 2 4096] ++ enter 6 2.

Lemma registered_threads_run_mapped_witness :
  ∃ s, ruled_outcome FailsOnce remapped = Some s ∧ runs_in 6 4096 s = true ∧ 4096 ∈ mapped s ∧
       baked s !! 4096 = Some 2.
Proof.
  destruct (ruled_outcome FailsOnce remapped) as [s|] eqn:E; [|by vm_compute in E].
  assert (Hr : runs_in 6 4096 s = true) by (eapply ruled_eval; [exact E|vm_compute; reflexivity]).
  assert (He : epochs s !! 6 = Some 1)
    by (eapply (ruled_eval (λ s, epochs s !! 6)); [exact E|vm_compute; reflexivity]).
  assert (Hb : baked s !! 4096 = Some 2)
    by (eapply (ruled_eval (λ s, baked s !! 4096)); [exact E|vm_compute; reflexivity]).
  exists s. split_and!; [done|done| |done].
  pose proof (outcome_ruled FailsOnce remapped s E) as Hn.
  refine (registered_threads_run_mapped FailsOnce (length remapped) s 6 1 4096 _ _ Hn He _).
  - discriminate.
  - vm_compute. reflexivity.
  - left. exact (runs_in_spec _ _ _ Hr).
Defined.

(** A thread that makes its first call of [malloc] from a compiled site. *)
Definition newcomer : list action := calls 32 6 9 ++ [Install 1 4096] ++ enter 5 1.

Lemma unregistered_thread_unmapped_witness :
  ∃ s, outcome true newcomer = Some s ∧ runs_in 5 4096 s = true ∧
    ∃ s1, run_actions true [GuardFails 5 SizeDrift; Enqueue 5; Drain] s = Some s1 ∧
      ∀ l s2, Z.of_nat (length l) < 2 ^ 62 - 1024 -> Forall (by_others 5) l -> run_actions true l s1 = Some s2 ->
        (∀ t' e, epochs s2 !! t' = Some e -> e = g_epoch s2) ->
        doing (thr 5 (sweep s2)) = Running 4096 ∧ 4096 ∉ mapped (sweep s2).
Proof.
  destruct (outcome true newcomer) as [s|] eqn:E; [|by vm_compute in E].
  assert (Hr : runs_in 5 4096 s = true) by (eapply outcome_eval; [exact E|vm_compute; reflexivity]).
  assert (He : epochs s !! 5 = None)
    by (eapply (outcome_eval (λ s, epochs s !! 5)); [exact E|vm_compute; reflexivity]).
  assert (Hb : baked s !! 4096 = Some 1)
    by (eapply (outcome_eval (λ s, baked s !! 4096)); [exact E|vm_compute; reflexivity]).
  assert (Hq : g_deopt_queue s = []) by (eapply outcome_eval; [exact E|vm_compute; reflexivity]).
  assert (Hp : g_pending s = []) by (eapply outcome_eval; [exact E|vm_compute; reflexivity]).
  exists s. split; [done|]. split; [done|].
  destruct (unregistered_thread_unmapped true (length newcomer) s 5 4096 SizeDrift) as (s1 & E1 & _ & Hall).
  - vm_compute. reflexivity.
  - exact (outcome_nsteps true newcomer s E).
  - exact He.
  - exact (runs_in_spec _ _ _ Hr).
  - by exists 1.
  - rewrite Hq. unfold DEOPT_QUEUE_CAP. simpl. lia.
  - rewrite Hq, Hp. unfold MAX_PENDING. simpl. lia.
  - rewrite Hq in E1. exists s1. split; [exact E1|exact Hall].
Defined.

(** And the condition on addresses matters.  Two threads that fail the guard
    of one page queue it twice; the second entry unmaps whatever code the address
    has been given to since, under a registered thread that runs it. *)
Example page_reclaimed_twice :
  (λ s, (runs_in 5 4096 s, bool_decide (4096 ∈ mapped s), bool_decide (is_Some (epochs s !! 5)))) <$>
    outcome true
      (calls 32 5 9 ++ calls 32 6 9 ++ [Install 1 4096] ++ enter 5 1 ++ enter 6 1 ++ deopt 5 ++ deopt 6 ++
       [Finish 5; Finish 6; Drain] ++ calls 32 5 9 ++ calls 32 6 9 ++ [Drain; Sweep; Install 2 4096] ++
       calls 32 5 9 ++ calls 32 6 9 ++ enter 5 2 ++ [Sweep])
  = Some (true, false, true).
Proof. vm_compute. reflexivity. Qed.

(** Everything drained, everyone past a safe point. *)
Definition settled : list action :=
  calls 32 5 9 ++ [Install 1 4096] ++ enter 5 1 ++ deopt 5 ++ [Finish 5; Drain] ++ calls 32 5 9.

Lemma pending_pages_reclaimed_witness :
  ∃ s, outcome true settled = Some s ∧ g_pending s = [mkPending 4096 0] ∧ 4096 ∉ mapped (sweep s).
Proof.
  destruct (outcome true settled) as [s|] eqn:E; [|by vm_compute in E].
  assert (Hp : g_pending s = [mkPending 4096 0]) by (eapply outcome_eval; [exact E|vm_compute; reflexivity]).
  assert (He : epochs s = {[5 := 1]}) by (eapply outcome_eval; [exact E|vm_compute; reflexivity]).
  assert (Hg : g_epoch s = 1) by (eapply outcome_eval; [exact E|vm_compute; reflexivity]).
  pose proof (outcome_nsteps true settled s E) as Hn.
  destruct (pending_pages_reclaimed true (length settled) s) as [_ Hm].
  - vm_compute. reflexivity.
  - exact Hn.
  - intros t e. rewrite He, Hg. by intros [_ <-]%lookup_singleton_Some.
  - exists s. split_and!; [reflexivity|exact Hp|]. specialize (Hm (mkPending 4096 0)). simpl in Hm.
    apply Hm. rewrite Hp. constructor.
Defined.

Lemma drain_pending_exact_witness :
  let s := mkState (D := Dispatch.state) rt_empty 7 [mkDeopt 1 4096 SizeDrift; mkDeopt 2 8192 Other]
             [mkPending 12288 3] {[5 := 8]} ∅ {[4096; 8192; 12288]} ∅ [] in
  g_pending (drain_pending s) = [mkPending 8192 8] ∧ resets (drain_pending s) = [(2, Other); (1, SizeDrift)].
Proof.
  intros s. destruct (drain_pending_exact s) as (_ & _ & -> & -> & _);
    [unfold MAX_PENDING; simpl; lia|simpl; lia|simpl; lia|].
  split; reflexivity.
Defined.
