(* ===== verification/TraceFile.v ===== *)
(** * Trace files ([src/src/trace/writer.cpp], [src/tools/replay.cpp])

    The writer appends the in-memory structures to a file; the replay tool reads
    them back and feeds the analysis.  A file is the list of its bytes; what the
    compiler leaves in a structure's padding is a parameter of the writer. *)

From S2P Require Import Prelude Bytes Common Double Histogram Analysis.
From stdpp Require Import pretty.
From Stdlib Require String.
#[local] Open Scope Z_scope.

(** ** Structures as bytes *)

(** A structure written and read whole: [put] takes the padding bytes, [get] the
    [sizeof] bytes of the structure. *)
Class Layout (A : Type) := {
  sizeof : nat;
  padding : nat;
  well_formed : A -> Prop;
  put : list Z -> A -> list Z;
  get : list Z -> A;
}.

Arguments sizeof A {_}.
Arguments padding A {_}.

Class LayoutLaws (A : Type) `{Layout A} := {
  sizeof_pos : (0 < sizeof A)%nat;
  put_length pad (x : A) : length pad = padding A -> length (put pad x) = sizeof A;
  get_put pad (x : A) : length pad = padding A -> well_formed x -> get (put pad x) = x;
}.

(** The bytes of a field at an offset. *)
Definition field (off n : nat) (l : list Z) : Z := le_combine (take n (drop off l)).

Record TraceHeader := mkHeader { magic : Z; version : Z; start_ns : Z }.
Definition TRACE_MAGIC : Z := 0x54424A54.
Definition TRACE_VERSION : Z := 1.

#[export] Instance header_layout : Layout TraceHeader := {
  sizeof := 16;
  padding := 0;
  well_formed h := fits 32 (magic h) ∧ fits 32 (version h) ∧ fits 64 (start_ns h);
  put _ h := le_bytes 4 (magic h) ++ le_bytes 4 (version h) ++ le_bytes 8 (start_ns h);
  get l := mkHeader (field 0 4 l) (field 4 4 l) (field 8 8 l);
}.

#[export] Instance event_layout : Layout AllocEvent := {
  sizeof := 32;
  padding := 4;
  well_formed ev := fits 32 (ev_call_site ev) ∧ fits 32 (ev_size ev) ∧ fits 64 (ev_timestamp_ns ev) ∧
    fits 32 (ev_thread_id ev) ∧ fits 64 (ev_ptr ev);
  put pad ev := le_bytes 4 (ev_call_site ev) ++ le_bytes 4 (ev_size ev) ++ le_bytes 8 (ev_timestamp_ns ev) ++
    le_bytes 4 (ev_thread_id ev) ++ pad ++ le_bytes 8 (ev_ptr ev);
  get l := mkAllocEvent (field 0 4 l) (field 4 4 l) (field 8 8 l) (field 16 4 l) (field 24 8 l);
}.

(** [fread(&x, sizeof(x), 1, f)]: the structure and the rest of the file. *)
Definition fread {A} `{Layout A} (f : list Z) : option (A * list Z) :=
  if (length f <? sizeof A)%nat then None else Some (get (take (sizeof A) f), drop (sizeof A) f).

(** ** Writing *)

(** The open file, and its contents. *)
Record writer := mkWriter { g_file : bool; contents : list Z }.
Definition writer0 : writer := mkWriter false [].

(** [%p] in the path becomes the process id, in a buffer of 1024 bytes. *)
Definition resolve_path (pid : Z) (path : string) : option string :=
  match String.index 0 "%p" path with
  | None => Some path
  | Some prefix =>
      let tail := (pretty pid +:+ String.substring (prefix + 2) (String.length path) path) in
      if (1024 <=? Z.of_nat prefix) then None
      else if (1024 <=? Z.of_nat prefix + Z.of_nat (String.length tail)) then None
      else Some (String.substring 0 prefix path +:+ tail)
  end.

(** [fopened]: whether [fopen] succeeds; [now]: the monotonic clock. *)
Definition writer_open (pid : Z) (path : string) (fopened : bool) (now : Z * Z) (w : writer) : writer :=
  match resolve_path pid path with
  | None => w
  | Some _ =>
      if fopened
      then mkWriter true (put [] (mkHeader TRACE_MAGIC TRACE_VERSION (u64 (u64 (now.1 * 1000000000) + now.2))))
      else mkWriter false (contents w)
  end.

Definition writer_write (pad : list Z) (ev : AllocEvent) (w : writer) : writer :=
  if g_file w then mkWriter true (contents w ++ put pad ev) else w.

Definition writer_close (w : writer) : writer := mkWriter false (contents w).

Definition writer_active (w : writer) : bool := g_file w.

(** What [drain_all] does with the events it pops, and the writer. *)
Fixpoint drain_events {B : Backend} (K : Knobs) (evs : list (list Z * AllocEvent))
    (l : list CallSiteSummary) (w : writer) : list CallSiteSummary * writer :=
  match evs with
  | [] => (l, w)
  | (pad, ev) :: evs =>
      let l := (process_event K ev l).1 in
      let w := if writer_active w then writer_write pad ev w else w in
      drain_events K evs l w
  end.

(** ** Replaying *)

Inductive outcome :=
  | Usage
  | OpenFailed
  | ShortHeader
  | BadMagic (m : Z)
  | VersionMismatch (v : Z)
  | Replayed (events : nat) (l : list CallSiteSummary).

(** The command line: the trace path and the oracle flag. *)
Fixpoint parse_args (args : list string) (trace_path : option string) (oracle : bool)
  : option (option string * bool) :=
  match args with
  | [] => Some (trace_path, oracle)
  | a :: args =>
      if String.eqb a "--oracle" then parse_args args trace_path true
      else match trace_path with
           | None => parse_args args (Some a) oracle
           | Some _ => None
           end
  end.

(** The loop over the events. *)
Fixpoint replay_loop {B : Backend} (K : Knobs) (fuel : nat) (f : list Z) (replayed : nat)
    (l : list CallSiteSummary) : nat * list CallSiteSummary :=
  match fuel with
  | O => (replayed, l)
  | S fuel =>
      match fread f with
      | None => (replayed, l)
      | Some (ev, f) => replay_loop K fuel f (S replayed) (process_event K ev l).1
      end
  end.

(** The knobs of a process that did not run [init]. *)
Definition replay_knobs (oracle : bool) (forced : Strategy) : Knobs :=
  mkKnobs STABLE_WINDOWS_DEFAULT WINDOW_SIZE_DEFAULT KS_ALPHA_DEFAULT DEOPT_BLACKLIST_LIMIT_DEFAULT
    false oracle forced.

Definition replay_file {B : Backend} (K : Knobs) (f : list Z) : outcome :=
  match fread f with
  | None => ShortHeader
  | Some (hdr, f) =>
      if negb (magic hdr =? TRACE_MAGIC) then BadMagic (magic hdr)
      else if negb (version hdr =? TRACE_VERSION) then VersionMismatch (version hdr)
      else let (n, l) := replay_loop K (length f) f 0 [] in Replayed n l
  end.

(** [main]; [files] is the file system. *)
Definition replay_main {B : Backend} (forced : Strategy) (files : string -> option (list Z))
    (args : list string) : outcome :=
  match parse_args args None false with
  | Some (Some path, oracle) =>
      match files path with
      | None => OpenFailed
      | Some f => replay_file (replay_knobs oracle forced) f
      end
  | _ => Usage
  end.

(** The reported percentage. *)
Definition oracle_pct (r : Z * Z) : double :=
  if r.1 =? 0 then dzero else ddiv (dmul (of_Z 100) (of_Z r.2)) (of_Z r.1).

(** ** Layouts *)

Lemma field_app off n a b : length a = off -> field off n (a ++ b) = field 0 n b.
Proof. intros <-. unfold field. by rewrite drop_app_length. Qed.

Lemma field_head n v b : field 0 n (le_bytes n v ++ b) = v mod 2 ^ (8 * Z.of_nat n).
Proof.
  unfold field. rewrite drop_0, take_app_length' by (by rewrite le_bytes_length). apply le_combine_bytes.
Qed.

(** A field behind other ones. *)
Lemma field_skip_pad off n pad b :
  (length pad <= off)%nat -> field off n (pad ++ b) = field (off - length pad) n b.
Proof. intros Hk. unfold field. by rewrite drop_app, drop_ge by done. Qed.

Lemma field_skip off k n v b :
  (k <= off)%nat -> field off n (le_bytes k v ++ b) = field (off - k) n b.
Proof. intros Hk. rewrite field_skip_pad; by rewrite le_bytes_length. Qed.

Ltac fields_read :=
  repeat first
    [ rewrite field_head
    | rewrite field_skip by lia
    | rewrite field_skip_pad by lia ].

#[export] Instance header_laws : LayoutLaws TraceHeader.
Proof.
  split; cbn [sizeof padding put get well_formed header_layout event_layout]; [lia| |].
  - intros pad x _. by rewrite !length_app, !le_bytes_length.
  - intros pad [m v s] _ (Hm & Hv & Hs).
    cbn [magic version start_ns] in *. unfold fits in *.
    rewrite <- (app_nil_r (le_bytes 8 s)). fields_read.
    by rewrite !Z.mod_small by done.
Qed.

#[export] Instance event_laws : LayoutLaws AllocEvent.
Proof.
  split; cbn [sizeof padding put get well_formed header_layout event_layout]; [lia| |].
  - intros pad x Hp. by rewrite !length_app, !le_bytes_length, Hp.
  - intros pad [c s ts t p] Hp (Hc & Hs & Hts & Ht & Hpt).
    cbn [ev_call_site ev_size ev_timestamp_ns ev_thread_id ev_ptr] in *. unfold fits in *.
    rewrite <- (app_nil_r (le_bytes 8 p)). fields_read. rewrite Hp. fields_read.
    by rewrite !Z.mod_small by done.
Qed.

Lemma fread_put {A} `{LayoutLaws A} pad (x : A) rest :
  length pad = padding A -> well_formed x -> fread (put pad x ++ rest) = Some (x, rest).
Proof.
  intros Hp Hx. pose proof (put_length pad x Hp) as Hl. unfold fread.
  rewrite length_app, (proj2 (Nat.ltb_ge _ _)) by lia.
  by rewrite take_app_length', drop_app_length', get_put by done.
Qed.

Lemma fread_short {A} `{Layout A} (f : list Z) : (length f < sizeof A)%nat -> fread (A := A) f = None.
Proof. intros Hl. unfold fread. by rewrite (proj2 (Nat.ltb_lt _ _)). Qed.

(** ** Reading back what was written *)

Definition process_all {B : Backend} (K : Knobs) (evs : list AllocEvent) (l : list CallSiteSummary)
  : list CallSiteSummary :=
  foldl (λ l ev, (process_event K ev l).1) l evs.

(** The events as written. *)
Definition event_bytes (pevs : list (list Z * AllocEvent)) : list Z := mjoin ((λ pe, put pe.1 pe.2) <$> pevs).

Definition writable (pevs : list (list Z * AllocEvent)) : Prop :=
  Forall (λ pe, length pe.1 = padding AllocEvent ∧ well_formed pe.2) pevs.

Lemma drain_events_spec {B : Backend} K pevs l w :
  g_file w = true ->
  drain_events K pevs l w =
  (process_all K (snd <$> pevs) l, mkWriter true (contents w ++ event_bytes pevs)).
Proof.
  revert l w. induction pevs as [|[pad ev] pevs IH]; intros l w Hw.
  - destruct w. simpl in *. subst. by rewrite app_nil_r.
  - cbn [drain_events]. unfold writer_active. rewrite Hw.
    rewrite IH by (unfold writer_write; by rewrite Hw). unfold writer_write. rewrite Hw.
    cbn [contents g_file]. by rewrite <- app_assoc.
Qed.

Lemma event_bytes_length pevs : writable pevs -> length (event_bytes pevs) = (32 * length pevs)%nat.
Proof.
  unfold event_bytes. induction 1 as [|[pad ev] pevs [Hp _] Hw IH]; [done|].
  cbn [fmap list_fmap mjoin list_join fst snd]. cbn [fst] in Hp. rewrite length_app.
  etransitivity; [apply f_equal2; [exact (put_length (A := AllocEvent) pad ev Hp)|exact IH]|].
  change (sizeof AllocEvent) with 32%nat. simpl length. lia.
Qed.

(** However the file is cut, the loop processes the events that are whole in it. *)
Lemma replay_loop_spec {B : Backend} K fuel pevs n r l :
  writable pevs -> let k := Nat.min (length pevs) (n / 32) in
  (k <= fuel)%nat ->
  replay_loop K fuel (take n (event_bytes pevs)) r l =
  ((r + k)%nat, process_all K (snd <$> take k pevs) l).
Proof.
  intros Hw. revert fuel n r l. induction Hw as [|[pad ev] pevs [Hp Hev] Hw IH]; intros fuel n r l k Hk.
  - subst k. unfold event_bytes. simpl. rewrite take_nil, Nat.add_0_r.
    by destruct fuel.
  - pose proof (put_length (A := AllocEvent) pad ev Hp) as Hl. change (sizeof AllocEvent) with 32%nat in Hl.
    unfold event_bytes in *. cbn [fmap list_fmap mjoin list_join fst snd]. simpl length in k.
    destruct (Nat.lt_ge_cases n 32) as [Hn|Hn].
    + assert (k = 0%nat) as -> by (subst k; rewrite Nat.div_small by done; lia).
      rewrite Nat.add_0_r. destruct fuel; [done|]. cbn [replay_loop].
      rewrite fread_short; [done|]. rewrite length_take. change (sizeof AllocEvent) with 32%nat. lia.
    + assert (k = S (Nat.min (length pevs) ((n - 32) / 32))) as Ek.
      { subst k. replace n with (n - 32 + 1 * 32)%nat at 1 by lia. rewrite Nat.div_add by lia. lia. }
      clearbody k. subst k. destruct fuel as [|fuel]; [lia|]. cbn [replay_loop].
      rewrite take_app_ge, Hl by lia. rewrite fread_put by done. cbn [snd].
      rewrite IH by lia. simpl. f_equal. lia.
Qed.

Lemma replay_fuel pevs m :
  writable pevs -> (Nat.min (length pevs) (m / 32) <= length (take m (event_bytes pevs)))%nat.
Proof.
  intros Hw. rewrite length_take, event_bytes_length by done.
  pose proof (Nat.div_le_upper_bound m 32 m). lia.
Qed.

(** C21: a trace replays to the analysis the recorded process made.  Whatever the
    padding bytes, the tool processes exactly the events written and ends with the
    table of the process; and from a file cut at any byte (a process killed while
    it wrote), exactly the events that are whole in it. *)
Theorem trace_replays {B : Backend} (K : Knobs) (pid : Z) (path : string) (now : Z * Z)
    (pevs : list (list Z * AllocEvent)) (n : nat) :
  is_Some (resolve_path pid path) -> writable pevs ->
  let live := drain_events K pevs [] (writer_open pid path true now writer0) in
  let file := contents (writer_close live.2) in
  let k := Nat.min (length pevs) ((n - 16) / 32) in
  replay_file K file = Replayed (length pevs) live.1 ∧
  replay_file K (take n file) =
    if (n <? 16)%nat then ShortHeader
    else Replayed k (drain_events K (take k pevs) [] (writer_open pid path true now writer0)).1.
Proof.
  intros [path' Hpath] Hw. unfold writer_open. rewrite Hpath.
  rewrite !drain_events_spec by done. cbv zeta.
  cbn [fst snd writer_close contents].
  set (hdr := mkHeader TRACE_MAGIC TRACE_VERSION _).
  assert (Hh : well_formed hdr) by (split_and!; [by unfold fits|by unfold fits|apply u64_bound]).
  pose proof (put_length (A := TraceHeader) [] hdr eq_refl) as Hl. change (sizeof TraceHeader) with 16%nat in Hl.
  pose proof (event_bytes_length pevs Hw) as Hlen.
  assert (Hfull : Nat.min (length pevs) (length (event_bytes pevs) / 32) = length pevs).
  { assert (length pevs <= length (event_bytes pevs) / 32)%nat by (apply Nat.div_le_lower_bound; lia). lia. }
  assert (Hr : ∀ m, replay_file K (put [] hdr ++ take m (event_bytes pevs)) =
    Replayed (Nat.min (length pevs) (m / 32)) (process_all K (snd <$> take (Nat.min (length pevs) (m / 32)) pevs) [])).
  { intros m. unfold replay_file. rewrite fread_put by done.
    rewrite (replay_loop_spec K _ pevs m 0 []) by (try done; apply replay_fuel; done).
    done. }
  split.
  - specialize (Hr (length (event_bytes pevs))). rewrite take_ge in Hr by done. rewrite Hr.
    rewrite Hfull. by rewrite take_ge.
  - destruct (Nat.ltb_spec n 16) as [Hn|Hn].
    + unfold replay_file. rewrite fread_short; [done|]. rewrite length_take.
      change (sizeof TraceHeader) with 16%nat. lia.
    + rewrite take_app_ge, Hl, Hr by lia. done.
Qed.

(** Two events, the second cut after eight bytes. *)
Definition two_events : list (list Z * AllocEvent) :=
  [([1; 2; 3; 4], mkAllocEvent 7 64 1000 3 4096); ([0; 0; 0; 0], mkAllocEvent 7 64 2000 3 8192)].

Lemma two_events_writable : writable two_events.
Proof. repeat (constructor; [split; [done|split_and!; split; vm_compute; congruence]|]). constructor. Qed.

Lemma trace_replays_witness :
  ∃ l, replay_file (B := plain_backend) (replay_knobs false Generic)
    (take 56 (contents (writer_close (drain_events (B := plain_backend) (replay_knobs false Generic) two_events []
       (writer_open 42 "/tmp/t.%p" true (1, 5) writer0)).2))) = Replayed 1 l ∧
    s_id <$> l = [7] ∧ event_count <$> l = [1].
Proof.
  destruct (trace_replays (B := plain_backend) (replay_knobs false Generic) 42 "/tmp/t.%p" (1, 5) two_events 56)
    as [_ ->]; [by eexists|exact two_events_writable|].
  eexists. split; [reflexivity|]. split; vm_compute; reflexivity.
Defined.

(** ** The path *)

Lemma substring_nil n m : String.substring n m "" = "".
Proof. by destruct n, m. Qed.

Lemma substring_all s m : (String.length s <= m)%nat -> String.substring 0 m s = s.
Proof. revert m. induction s as [|c s IH]; intros m Hm; [apply substring_nil|]. destruct m; simpl in *; [lia|]. f_equal. apply IH. lia. Qed.

Lemma substring_drop k n m s : String.substring n (k + m) s = String.substring n k s +:+ String.substring (n + k) m s.
Proof.
  revert k n m. induction s as [|c s IH]; intros k n m; [by rewrite !substring_nil|].
  destruct n; [|apply IH]. destruct k; [done|]. exact (f_equal (String.String c) (IH k 0%nat m)).
Qed.

Lemma substring_split n m s :
  (String.length s <= n + m)%nat -> String.substring 0 n s +:+ String.substring n m s = s.
Proof.
  intros Hm. transitivity (String.substring 0 (n + m) s); [symmetry; exact (substring_drop n 0 m s)|].
  by apply substring_all.
Qed.

Lemma substring_fits n m s :
  (String.length (String.substring n m s) <= String.length s - n)%nat.
Proof.
  revert n m. induction s as [|c s IH]; intros n m; [by rewrite substring_nil|].
  destruct n; [destruct m; [simpl; lia|]|apply IH].
  specialize (IH 0%nat m). simpl. lia.
Qed.

Lemma substring_length n s : (n <= String.length s)%nat -> String.length (String.substring 0 n s) = n.
Proof. revert n. induction s as [|c s IH]; intros n Hn; destruct n; simpl in *; try done; try lia. f_equal. apply IH. lia. Qed.

Lemma string_length_app a b : String.length (a +:+ b) = (String.length a + String.length b)%nat.
Proof. induction a as [|c a IH]; [done|]. exact (f_equal S IH). Qed.

(** The path substitution.  A path without [%p] is taken as it is; otherwise
    the first [%p], and only that one, is replaced by the process id, and the
    result is refused exactly when it does not fit the 1024-byte buffer with its
    terminator. *)
Theorem resolve_path_spec (pid : Z) (path : string) :
  match String.index 0 "%p" path with
  | None => resolve_path pid path = Some path
  | Some i =>
      let before := String.substring 0 i path in
      let after := String.substring (i + 2) (String.length path) path in
      let p := before +:+ pretty pid +:+ after in
      path = before +:+ "%p" +:+ after ∧ (∀ j, (j < i)%nat -> String.substring j 2 path ≠ "%p") ∧
      resolve_path pid path = if 1024 <=? Z.of_nat (String.length p) then None else Some p
  end.
Proof.
  unfold resolve_path. destruct (String.index 0 "%p" path) as [i|] eqn:E; [|done]. cbv zeta.
  pose proof (String.index_correct1 _ _ _ _ E) as H1. change (String.length "%p") with 2%nat in H1.
  pose proof (substring_fits i 2 path) as Hi. rewrite H1 in Hi. change (String.length "%p") with 2%nat in Hi.
  split_and!.
  - rewrite <- H1 at 1. rewrite <- substring_drop, substring_split by lia. done.
  - intros j Hj. apply (String.index_correct2 0 i "%p" path E); lia.
  - rewrite !string_length_app, substring_length by lia.
    destruct (Z.leb_spec 1024 (Z.of_nat i)); [by rewrite (proj2 (Z.leb_le _ _)) by lia|].
    by rewrite !Nat2Z.inj_add.
Qed.
