(* ===== verification/Background.v ===== *)
(** * The background thread ([src/src/analysis/analysis.cpp], [src/src/analysis/futex.h])

    One thread owns the analysis.  It drains the rings of all threads ([drain_all]),
    hands every event to [process_event] and to the trace writer, applies the
    reported deopts, and when there is nothing to do sleeps, in the end on a futex
    that the allocating threads wake.  The first part is [drain_all] on the rings
    themselves; the second the thread's loop, interleaved with the allocating
    threads and with [stop_background_thread]. *)

From S2P Require Import Prelude Bytes Common Double Histogram Analysis TraceFile.
From S2P Require Ring Deopt.

(** What the thread keeps: the summaries, the open trace, the event counter, and
    the routines it installed in the dispatch table. *)
Record bg := mkBg {
  summaries : list CallSiteSummary;
  trace_file : writer;
  g_events_processed : Z;
  installed : list (CallSiteID * ptr);
}.

(** ** Where the thread is *)

Inductive FutexState := AWAKE | SLEEPING.

#[export] Instance FutexState_eq_dec : EqDecision FutexState.
Proof. solve_decision. Defined.

(** A pass of the loop, with the current [backoff_us], or the one after it. *)
Inductive round := Loop (backoff_us : Z) | Final.

Inductive pc :=
  | Top (n : Z)                    (** the loop's condition *)
  | Maintain (r : round)           (** [drain_pending] and [reaper_sweep] *)
  | Head (r : round)               (** [ring_head()] *)
  | Walk (r : round) (found : bool) (rest : list Z)
  | Doze (n : Z)                   (** [nanosleep] *)
  | Recheck (n : Z)
  | Exchange (n : Z)               (** the compare-exchange of [futex_wait] *)
  | WaitCall (n : Z)               (** the kernel compares the futex word *)
  | Blocked (n : Z)                (** in the kernel, for a second at most *)
  | Awaken (n : Z)                 (** the store after the system call *)
  | Exited.

#[export] Instance round_eq_dec : EqDecision round.
Proof. solve_decision. Defined.
#[export] Instance pc_eq_dec : EqDecision pc.
Proof. solve_decision. Defined.

(** A thread past a push that returned true, or past the store of
    [stop_background_thread]: [notify_if_sleeping] and [futex_wake] access by
    access. *)
Inductive waker := Notify | StoreAwake | WakeCall.

Section Background.
Context {B : Backend} (K : Knobs).
(** The padding bytes of an event in memory. *)
Context (pad : AllocEvent -> list Z).

(** The body of [drain_all]'s inner loop. *)
Definition consume (b : bg) (ev : AllocEvent) : bg :=
  let (l, i) := process_event K ev (summaries b) in
  mkBg l
    (if writer_active (trace_file b) then writer_write (pad ev) ev (trace_file b) else trace_file b)
    (u64 (g_events_processed b + 1)) (installed b ++ option_list i).

Fixpoint drain_ring (n : nat) (rb : Ring.RingBuffer) (b : bg) (found : bool)
  : res (Ring.RingBuffer * bg * bool) :=
  match n with
  | O => Trap OutOfFuel
  | S n =>
      match Ring.pop rb with
      | (None, rb) => Ok (rb, b, found)
      | (Some ev, rb) => drain_ring n rb (consume b ev) true
      end
  end.

(** The rings in the order of the list; nobody pushes meanwhile. *)
Fixpoint drain_rings (rbs : list Ring.RingBuffer) (b : bg) (found : bool)
  : res (list Ring.RingBuffer * bg * bool) :=
  match rbs with
  | [] => Ok ([], b, found)
  | rb :: rbs =>
      '(rb, b, found) ← drain_ring (S (Z.to_nat Ring.CAPACITY)) rb b found;
      '(rbs, b, found) ← drain_rings rbs b found;
      mret (rb :: rbs, b, found)
  end.

Definition drain_all (rbs : list Ring.RingBuffer) (b : bg) : res (list Ring.RingBuffer * bg * bool) :=
  drain_rings rbs b false.

Definition consume_all (evs : list AllocEvent) (b : bg) : bg := foldl consume b evs.

Lemma run_ops_app a c l :
  run_ops K (a ++ c) l =
  ((run_ops K c (run_ops K a l).1).1, (run_ops K a l).2 ++ (run_ops K c (run_ops K a l).1).2).
Proof.
  revert l. induction a as [|o a IH]; intros l; simpl; [by destruct (run_ops K c l)|].
  destruct (apply_op K o l) as [l1 i]. rewrite IH.
  destruct (run_ops K a l1) as [l2 r]. cbn [fst snd]. by rewrite app_assoc.
Qed.

(** What consuming a run of events amounts to. *)
Lemma consume_all_spec evs b :
  let r := run_ops K (Event <$> evs) (summaries b) in
  summaries (consume_all evs b) = r.1 ∧ installed (consume_all evs b) = installed b ++ r.2 ∧
  trace_file (consume_all evs b) =
    (if g_file (trace_file b)
     then mkWriter true (contents (trace_file b) ++ event_bytes ((λ ev, (pad ev, ev)) <$> evs))
     else trace_file b) ∧
  u64 (g_events_processed (consume_all evs b)) = u64 (g_events_processed b + Z.of_nat (length evs)).
Proof.
  revert b. induction evs as [|ev evs IH]; intros b r.
  - simpl. subst r. simpl. rewrite !app_nil_r, Z.add_0_r. split_and!; [done..| |done].
    by destruct (trace_file b) as [[] c].
  - subst r. cbn [consume_all foldl fmap list_fmap run_ops apply_op length].
    remember (consume b ev) as b' eqn:Eb. unfold consume in Eb.
    destruct (IH b') as (E1 & E2 & E3 & E4). unfold consume_all in *. rewrite E1, E2, E3, E4.
    destruct (process_event K ev (summaries b)) as [l i]. rewrite Eb.
    cbn [summaries installed trace_file g_events_processed].
    destruct (run_ops K (Event <$> evs) l) as [l' rest]. cbn [fst snd].
    split_and!; [done|by rewrite app_assoc| |].
    + unfold writer_active, writer_write. destruct (trace_file b) as [[] c]; [|done].
      cbn [g_file contents]. unfold event_bytes. cbn [fmap list_fmap mjoin list_join fst snd].
      by rewrite app_assoc.
    + rewrite Nat2Z.inj_succ. unfold u64. rewrite wrap_add_l. f_equal. lia.
Qed.

Lemma drain_ring_spec n rb k q b found :
  Ring.queue_of rb k q -> (length q < n)%nat ->
  ∃ rb', drain_ring n rb b found = Ok (rb', consume_all q b, found || negb (bool_decide (q = []))) ∧
         Ring.queue_of rb' (k + Ring.count q) [].
Proof.
  revert rb k q b found. induction n as [|n IH]; intros rb k q b found Hq Hn; [lia|]. cbn [drain_ring].
  destruct (Ring.pop_refines rb k q Hq) as [H1 H2]. destruct (Ring.pop rb) as [o rb'].
  cbn [fst snd] in *. subst o. destruct q as [|ev q]; cbn [Ring.queue_pop fst snd] in *.
  - exists rb'. rewrite bool_decide_true, orb_false_r by done. split; [done|exact H2].
  - destruct (IH rb' (k + 1) q (consume b ev) true H2 ltac:(simpl in Hn; lia)) as (rb'' & -> & H3).
    exists rb''. rewrite (bool_decide_false (ev :: q = [])) by done. rewrite orb_true_r. split; [done|].
    replace (k + Ring.count (ev :: q)) with (k + 1 + Ring.count q); [done|].
    unfold Ring.count. simpl length. lia.
Qed.

Lemma drain_rings_spec rbs qs b found :
  Forall2 (λ rb nq, Ring.queue_of rb nq.1 nq.2) rbs qs ->
  let evs := mjoin (snd <$> qs) in
  ∃ rbs', drain_rings rbs b found = Ok (rbs', consume_all evs b, found || negb (bool_decide (evs = []))) ∧
    Forall2 (λ rb nq, Ring.queue_of rb (nq.1 + Ring.count nq.2) []) rbs' qs.
Proof.
  intros H. revert b found. induction H as [|rb [k q] rbs qs Hq H IH]; intros b found evs.
  - exists []. subst evs. simpl. by rewrite orb_false_r.
  - cbn [drain_rings]. destruct (drain_ring_spec (S (Z.to_nat Ring.CAPACITY)) rb k q b found Hq) as (rb' & E & H1).
    { destruct Hq as [Hq _]. simpl in Hq. unfold Ring.count, Ring.CAPACITY in *. lia. }
    rewrite E. cbn [mbind res_bind]. destruct (IH (consume_all q b) (found || negb (bool_decide (q = [])))) as (rbs' & E' & H2).
    rewrite E'. cbn [mbind res_bind mret res_ret]. exists (rb' :: rbs'). subst evs.
    cbn [fmap list_fmap mjoin list_join snd]. split; [|by constructor].
    unfold consume_all. rewrite foldl_app. do 2 f_equal. rewrite <- orb_assoc. f_equal.
    destruct q as [|ev q]; [done|]. by rewrite (bool_decide_false (ev :: q = [])) by done.
Qed.

(** C22: one pass over the rings does exactly the pending work.  If the rings hold
    the queues [qs], whatever their counters, [drain_all] ends and leaves every ring
    empty; the analysis is that of the pending events in the order of the rings, the
    routines installed are those it asked for, the trace file (if one is open) has
    those events appended, the counter counts them, and the result says whether
    there were any. *)
Theorem drain_all_exact (rbs : list Ring.RingBuffer) (qs : list (Z * list AllocEvent)) (b : bg) :
  Forall2 (λ rb nq, Ring.queue_of rb nq.1 nq.2) rbs qs ->
  let evs := mjoin (snd <$> qs) in
  let r := run_ops K (Event <$> evs) (summaries b) in
  ∃ rbs' b', drain_all rbs b = Ok (rbs', b', negb (bool_decide (evs = []))) ∧
    Forall2 (λ rb nq, Ring.queue_of rb (nq.1 + Ring.count nq.2) []) rbs' qs ∧
    summaries b' = r.1 ∧ installed b' = installed b ++ r.2 ∧
    trace_file b' =
      (if g_file (trace_file b)
       then mkWriter true (contents (trace_file b) ++ event_bytes ((λ ev, (pad ev, ev)) <$> evs))
       else trace_file b) ∧
    u64 (g_events_processed b') = u64 (g_events_processed b + Z.of_nat (length evs)).
Proof.
  intros H evs r. destruct (drain_rings_spec rbs qs b false H) as (rbs' & E & H').
  destruct (consume_all_spec evs b) as (E1 & E2 & E3 & E4).
  exists rbs', (consume_all evs b). by split_and!.
Qed.

(** ** The loop of the thread *)

(** The threads' rings are the queues [Ring.ring_fifo] makes them, and their list
    the one of [Treiber.walk_exact], newest first.  Four histories: the events
    pushed, the events processed, the thread's work as operations of [Analysis],
    and what had been pushed when [g_running] was cleared. *)
Record conf := mkConf {
  at_ : pc;
  work : bg;
  g_running : bool;
  futex_word : FutexState;
  ring_list : list Z;
  queues : gmap Z (list AllocEvent);
  deopts : list (CallSiteID * DeoptReason);
  wakers : gmap Z waker;
  committed : list (Z * AllocEvent);
  processed : list (Z * AllocEvent);
  ops : list op;
  at_stop : option (list (Z * AllocEvent));
}.

Definition conf0 (w : writer) : conf :=
  mkConf (Top 1) (mkBg [] w 0 []) true AWAKE [] ∅ [] ∅ [] [] [] None.

Definition goto (p : pc) (c : conf) : conf :=
  mkConf p (work c) (g_running c) (futex_word c) (ring_list c) (queues c) (deopts c) (wakers c)
    (committed c) (processed c) (ops c) (at_stop c).
Definition set_word (f : FutexState) (c : conf) : conf :=
  mkConf (at_ c) (work c) (g_running c) f (ring_list c) (queues c) (deopts c) (wakers c)
    (committed c) (processed c) (ops c) (at_stop c).
Definition set_wakers (m : gmap Z waker) (c : conf) : conf :=
  mkConf (at_ c) (work c) (g_running c) (futex_word c) (ring_list c) (queues c) (deopts c) m
    (committed c) (processed c) (ops c) (at_stop c).

(** The resets [drain_pending] makes. *)
Definition reset_sites (ds : list (CallSiteID * DeoptReason)) (b : bg) : bg :=
  mkBg (foldl (λ l d, reset_call_site K d.1 d.2 l) (summaries b) ds) (trace_file b)
    (g_events_processed b) (installed b).

Definition apply_deopts (c : conf) : conf :=
  mkConf (at_ c) (reset_sites (deopts c) (work c)) (g_running c) (futex_word c) (ring_list c) (queues c)
    [] (wakers c) (committed c) (processed c)
    (ops c ++ ((λ d, Reset d.1 d.2) <$> deopts c)) (at_stop c).

(** A pop of the ring of [t], and what is done with the event. *)
Definition take_event (t : Z) (ev : AllocEvent) (q : list AllocEvent) (c : conf) : conf :=
  mkConf (at_ c) (consume (work c) ev) (g_running c) (futex_word c) (ring_list c) (<[t := q]> (queues c))
    (deopts c) (wakers c) (committed c) (processed c ++ [(t, ev)]) (ops c ++ [Event ev]) (at_stop c).

(** The thread's next step; in [Blocked] it is the time-out. *)
Definition advance (c : conf) : option conf :=
  match at_ c with
  | Top n => Some (goto (Maintain (if g_running c then Loop n else Final)) c)
  | Maintain r => Some (goto (Head r) (apply_deopts c))
  | Head r => Some (goto (Walk r false (ring_list c)) c)
  | Walk r found rest =>
      match rest with
      | t :: rest =>
          match arr [] (queues c) t with
          | [] => Some (goto (Walk r found rest) c)
          | ev :: q => Some (goto (Walk r true (t :: rest)) (take_event t ev q c))
          end
      | [] =>
          Some (goto (match r with
                      | Loop n => if found then Top 1 else if n <? 500 then Doze n else Recheck n
                      | Final => Exited
                      end) c)
      end
  | Doze n => Some (goto (Top (if n * 2 <? 500 then n * 2 else 500)) c)
  | Recheck n => Some (goto (if g_running c then Exchange n else Maintain Final) c)
  | Exchange n => Some (goto (WaitCall n) (set_word SLEEPING c))
  | WaitCall n =>
      Some (goto (if bool_decide (futex_word c = SLEEPING) then Blocked n else Awaken n) c)
  | Blocked n => Some (goto (Awaken n) c)
  | Awaken n => Some (goto (Top n) (set_word AWAKE c))
  | Exited => None
  end.

(** The other threads.  A push returns true only on a queue it saw empty, and may
    return false on an empty one ([Ring.push_flag_misses_transition]).  A ring enters
    the list whole and once, as when first events do not overlap
    ([Recorder.registration_keeps_list]); when they do, one ring can be linked twice
    ([Recorder.first_events_share_ring]), which these steps leave out. *)
Inductive client_step : conf -> conf -> Prop :=
  | C_register t c :
      t ∉ ring_list c ->
      client_step c (mkConf (at_ c) (work c) (g_running c) (futex_word c) (t :: ring_list c) (queues c)
        (deopts c) (wakers c) (committed c) (processed c) (ops c) (at_stop c))
  | C_push t ev (flag : bool) c :
      t ∈ ring_list c -> wakers c !! t = None ->
      Ring.count (arr [] (queues c) t) < Ring.CAPACITY -> (flag = true -> arr [] (queues c) t = []) ->
      client_step c (mkConf (at_ c) (work c) (g_running c) (futex_word c) (ring_list c)
        (<[t := arr [] (queues c) t ++ [ev]]> (queues c)) (deopts c)
        (if flag then <[t := Notify]> (wakers c) else wakers c)
        (committed c ++ [(t, ev)]) (processed c) (ops c) (at_stop c))
  | C_notify t c :
      wakers c !! t = Some Notify ->
      client_step c (set_wakers (if bool_decide (futex_word c = SLEEPING)
        then <[t := StoreAwake]> (wakers c) else delete t (wakers c)) c)
  | C_store t c :
      wakers c !! t = Some StoreAwake ->
      client_step c (set_wakers (<[t := WakeCall]> (wakers c)) (set_word AWAKE c))
  | C_wake t c :
      wakers c !! t = Some WakeCall ->
      client_step c (set_wakers (delete t (wakers c))
        (match at_ c with Blocked n => goto (Awaken n) c | _ => c end))
  | C_report id reason c :
      (length (deopts c) < Deopt.DEOPT_QUEUE_CAP)%nat ->
      client_step c (mkConf (at_ c) (work c) (g_running c) (futex_word c) (ring_list c) (queues c)
        (deopts c ++ [(id, reason)]) (wakers c) (committed c) (processed c) (ops c) (at_stop c))
  | C_stop t c :
      g_running c = true -> wakers c !! t = None ->
      client_step c (mkConf (at_ c) (work c) false (futex_word c) (ring_list c) (queues c) (deopts c)
        (<[t := StoreAwake]> (wakers c)) (committed c) (processed c) (ops c) (Some (committed c))).

Definition step (c c' : conf) : Prop := client_step c c' ∨ advance c = Some c'.

(** ** The invariant *)

Definition of_thread (t : Z) (l : list (Z * AllocEvent)) : list AllocEvent :=
  snd <$> filter (λ x, x.1 = t) l.

Lemma of_thread_app t l k : of_thread t (l ++ k) = of_thread t l ++ of_thread t k.
Proof. unfold of_thread. by rewrite filter_app, fmap_app. Qed.

Lemma of_thread_one t t' ev : of_thread t [(t', ev)] = if decide (t' = t) then [ev] else [].
Proof. unfold of_thread. rewrite filter_cons, filter_nil. simpl. by case_decide. Qed.

Definition event_of (o : op) : option AllocEvent := match o with Event ev => Some ev | Reset _ _ => None end.

(** What the final pass owes to the stop: the events pushed before it have been
    taken, those of the rings still ahead excepted. *)
Definition settled (rest : Z -> Prop) (c : conf) : Prop :=
  g_running c = false ∧
  ∀ s t, at_stop c = Some s -> ¬ rest t -> of_thread t s `prefix_of` of_thread t (processed c).

Definition final_ok (c : conf) : Prop :=
  match at_ c with
  | Maintain Final | Head Final => g_running c = false
  | Walk Final _ rest => settled (λ t, t ∈ rest) c
  | Exited => settled (λ _, False) c
  | _ => True
  end.

Record inv (c : conf) : Prop := mkInv {
  i_queue t : of_thread t (committed c) = of_thread t (processed c) ++ arr [] (queues c) t;
  i_new t : t ∉ ring_list c -> of_thread t (committed c) = [];
  i_table : (summaries (work c), installed (work c)) = run_ops K (ops c) [];
  i_ops : omap event_of (ops c) = snd <$> processed c;
  i_stop : if g_running c then at_stop c = None else ∃ s, at_stop c = Some s ∧ s `prefix_of` committed c;
  i_final : final_ok c;
}.

Lemma bg_inv0 w : inv (conf0 w).
Proof. split; try done. Qed.

Lemma run_resets (ds : list (CallSiteID * DeoptReason)) l :
  run_ops K ((λ d, Reset d.1 d.2) <$> ds) l = (foldl (λ l d, reset_call_site K d.1 d.2 l) l ds, []).
Proof. revert l. induction ds as [|d ds IH]; intros l; [done|]. cbn [fmap list_fmap run_ops apply_op foldl]. by rewrite IH. Qed.

Lemma omap_resets (ds : list (CallSiteID * DeoptReason)) : omap event_of ((λ d, Reset d.1 d.2) <$> ds) = [].
Proof. by induction ds. Qed.

(** The histories after a step of the thread. *)
Lemma inv_goto p c : inv c -> final_ok (goto p c) -> inv (goto p c).
Proof. by intros [] ?. Qed.

Lemma inv_deopts c : inv c -> final_ok c -> inv (apply_deopts c).
Proof.
  intros [Iq In It Io Is If] _. split; simpl; try done.
  - pose proof (run_ops_app (ops c) ((λ d, Reset d.1 d.2) <$> deopts c) []) as E.
    rewrite run_resets in E. rewrite E, <- It. cbn [fst snd]. by rewrite app_nil_r.
  - by rewrite omap_app, omap_resets, app_nil_r.
Qed.

Lemma consume_step b ev :
  (summaries (consume b ev), installed (consume b ev)) =
  ((run_ops K [Event ev] (summaries b)).1, installed b ++ (run_ops K [Event ev] (summaries b)).2).
Proof.
  unfold consume. cbn [run_ops apply_op]. destruct (process_event K ev (summaries b)) as [l i].
  cbn [summaries installed fst snd]. by rewrite app_nil_r.
Qed.

Lemma settled_take rest t ev q c :
  settled rest c -> settled rest (take_event t ev q c).
Proof.
  intros [Hr Hs]. split; [done|]. intros s t' E Ht. simpl. rewrite of_thread_app.
  apply prefix_app_r. by apply Hs.
Qed.

Lemma inv_take t ev q c :
  inv c -> arr [] (queues c) t = ev :: q -> inv (take_event t ev q c).
Proof.
  intros [Iq In It Io Is If] Hq. split; simpl; try done.
  - intros t'. rewrite of_thread_app, of_thread_one, Iq, <- app_assoc. f_equal. case_decide as Ht.
    + subst t'. by rewrite arr_insert_eq, Hq.
    + by rewrite arr_insert_ne.
  - rewrite (run_ops_app (ops c)). rewrite <- It. cbn [fst snd]. apply consume_step.
  - rewrite omap_app, fmap_app, Io. done.
  - unfold final_ok in *. simpl. destruct (at_ c) as [|[]|[]|[]| | | | | | |]; try done; by apply settled_take.
Qed.

(** A ring found empty: all that was pushed to it has been taken. *)
Lemma settled_next rest t c :
  inv c -> settled (λ t', t' ∈ t :: rest) c -> arr [] (queues c) t = [] -> settled (λ t', t' ∈ rest) c.
Proof.
  intros I [Hr Hs] Hq. split; [done|]. intros s t' E Ht.
  destruct (decide (t' = t)) as [->|Hne]; [|apply Hs; [done|]; by intros [|]%elem_of_cons].
  pose proof (i_stop _ I) as Hst. rewrite Hr in Hst. destruct Hst as (s' & E' & [k Hk]).
  rewrite E in E'. injection E' as <-. pose proof (i_queue _ I t) as H.
  rewrite Hq, app_nil_r, Hk, of_thread_app in H. rewrite <- H. by apply prefix_app_r.
Qed.

Lemma settled_start c : inv c -> g_running c = false -> settled (λ t, t ∈ ring_list c) c.
Proof.
  intros I Hr. split; [done|]. intros s t E Ht. pose proof (i_stop _ I) as Hst. rewrite Hr in Hst.
  destruct Hst as (s' & E' & [k Hk]). rewrite E in E'. injection E' as <-.
  pose proof (i_new _ I t Ht) as H. rewrite Hk, of_thread_app in H. apply app_eq_nil in H as [-> _].
  apply prefix_nil.
Qed.

Lemma inv_advance c c' : inv c -> advance c = Some c' -> inv c'.
Proof.
  intros I. pose proof (i_final _ I) as Hf. unfold advance, final_ok in *.
  destruct (at_ c) as [n|r|r|r found rest|n|n|n|n|n|n|] eqn:Ep; intros E; simplify_eq.
  - apply inv_goto; [done|]. unfold final_ok. simpl. by destruct (g_running c) eqn:?.
  - apply inv_goto; [by apply inv_deopts; [|apply (i_final _ I)]|]. unfold final_ok. simpl. by destruct r.
  - apply inv_goto; [done|]. unfold final_ok. simpl. destruct r; [done|]. exact (settled_start c I Hf).
  - destruct rest as [|t rest].
    + destruct r as [n|]; simplify_eq.
      * apply inv_goto; [done|]. unfold final_ok. simpl. by repeat case_match.
      * apply inv_goto; [done|]. unfold final_ok. simpl. destruct Hf as [Hr Hs]. split; [done|].
        intros s t E _. apply Hs; [done|apply not_elem_of_nil].
    + destruct (arr [] (queues c) t) as [|ev q] eqn:Eq; simplify_eq.
      * apply inv_goto; [done|]. unfold final_ok. simpl. destruct r; [done|]. exact (settled_next rest t c I Hf Eq).
      * apply inv_goto; [by apply inv_take|]. unfold final_ok. simpl. destruct r; [done|]. exact (settled_take _ t ev q c Hf).
  - by apply inv_goto.
  - apply inv_goto; [done|]. unfold final_ok. simpl. by destruct (g_running c) eqn:?.
  - apply (inv_goto (WaitCall n) (set_word SLEEPING c)); [|done]. by destruct I.
  - apply inv_goto; [done|]. unfold final_ok. cbn [at_ goto]. by case_bool_decide.
  - by apply inv_goto.
  - apply (inv_goto (Top n) (set_word AWAKE c)); [|done]. by destruct I.
Qed.

Lemma bg_inv_client c c' : inv c -> client_step c c' -> inv c'.
Proof.
  intros I Hs. destruct Hs as [t c Ht|t ev flag c Ht Hw Hc Hfl|t c Ht|t c Ht|t c Ht|id reason c Hc|t c Hr Hw];
    destruct I as [Iq In It Io Is If].
  - split; simpl; try done. intros t' H. apply In. set_solver.
  - split; simpl; try done.
    + intros t'. rewrite of_thread_app, of_thread_one, Iq. case_decide as H.
      * subst t'. by rewrite arr_insert_eq, app_assoc.
      * by rewrite arr_insert_ne, app_nil_r.
    + intros t' H. rewrite of_thread_app, of_thread_one, In by done. rewrite decide_False; [done|]. by intros <-.
    + destruct (g_running c); [done|]. destruct Is as (s & ? & ?). exists s. split; [done|]. by apply prefix_app_r.
  - by split.
  - by split.
  - destruct (at_ c) eqn:E; by split; simpl; try done; unfold final_ok in *; simpl; rewrite ?E in *.
  - by split.
  - split; simpl; try done; [by exists (committed c)|]. unfold final_ok in *. simpl.
    unfold settled in *. destruct (at_ c) as [|[]|[]|[]| | | | | | |]; try done; destruct If; congruence.
Qed.

Lemma bg_inv_reachable w c : rtc step (conf0 w) c -> inv c.
Proof.
  apply reachable_invariant; [apply bg_inv0|]. intros c1 c2 I [H|H]; [by eapply bg_inv_client|by eapply inv_advance].
Qed.

(** C19: shutting down loses no event.  However the thread's passes, the allocating
    threads' pushes and wake-ups, and [stop_background_thread] interleave, when the
    thread has ended, every event pushed before [g_running] was cleared has been
    processed, thread by thread in the order pushed; nothing is processed twice or
    invented; and the summaries and the installed routines are those of the
    operations it applied, in order. *)
Theorem shutdown_processes_all (w : writer) (c : conf) :
  rtc step (conf0 w) c -> at_ c = Exited ->
  ∃ s, at_stop c = Some s ∧
    (∀ t, of_thread t s `prefix_of` of_thread t (processed c) ∧
          of_thread t (processed c) `prefix_of` of_thread t (committed c)) ∧
    omap event_of (ops c) = snd <$> processed c ∧
    (summaries (work c), installed (work c)) = run_ops K (ops c) [].
Proof.
  intros H%bg_inv_reachable E. pose proof (i_final _ H) as Hf. unfold final_ok in Hf. rewrite E in Hf.
  destruct Hf as [Hr Hs]. pose proof (i_stop _ H) as Hst. rewrite Hr in Hst. destruct Hst as (s & Es & _).
  exists s. split; [done|]. split; [|by split; [apply (i_ops _ H)|apply (i_table _ H)]].
  intros t. split; [by apply Hs; [|intros []]|]. rewrite (i_queue _ H t). by apply prefix_app_r.
Qed.

(** ** How far the thread is from its next pass *)

(** A run in which the thread makes [n] steps, the others' steps falling between
    them in any number and order. *)
Inductive runs : nat -> conf -> conf -> Prop :=
  | runs_nil c : runs 0 c c
  | runs_own n c c1 c' : advance c = Some c1 -> runs n c1 c' -> runs (S n) c c'
  | runs_client n c c1 c' : client_step c c1 -> runs n c1 c' -> runs n c c'.

(** The pending events, and what the others bring meanwhile: an event counts once,
    a new ring twice (the pass under way and the next one visit it). *)
Definition backlog (c : conf) : nat := length (committed c) - length (processed c).
Definition arrivals (c c' : conf) : nat :=
  (length (committed c') - length (committed c)) + 2 * (length (ring_list c') - length (ring_list c)).

(** Steps to the loop's condition, the sleep on the futex included. *)
Definition rank (p : pc) : nat :=
  match p with
  | Recheck _ => 6 | Exchange _ => 5 | WaitCall _ => 4 | Blocked _ => 3 | Awaken _ => 2 | Doze _ => 2
  | Top _ => 1 | _ => 0
  end.

(** Steps to the end of the next pass that starts, or visits its first ring, from
    here on; and, once [g_running] is clear, to the end of the thread. *)
Definition drain_bound (c : conf) : nat :=
  backlog c +
  match at_ c with
  | Maintain _ => 2 + length (ring_list c)
  | Head _ => 1 + length (ring_list c)
  | Walk _ _ rest => length rest + 9 + length (ring_list c)
  | Exited => 0
  | p => rank p + 2 + length (ring_list c)
  end.

Definition exit_bound (c : conf) : nat :=
  backlog c +
  match at_ c with
  | Exited => 0
  | Walk Final _ rest => 1 + length rest
  | Head Final => 2 + length (ring_list c)
  | Maintain Final => 3 + length (ring_list c)
  | Walk (Loop _) _ rest => length rest + 10 + length (ring_list c)
  | Head (Loop _) => 11 + 2 * length (ring_list c)
  | Maintain (Loop _) => 12 + 2 * length (ring_list c)
  | p => rank p + 3 + length (ring_list c)
  end.

(** Thread by thread no longer, no longer in all. *)
Lemma length_by_thread (a b : list (Z * AllocEvent)) :
  (∀ t, (length (of_thread t a) <= length (of_thread t b))%nat) -> (length a <= length b)%nat.
Proof.
  revert b. induction a as [|[t ev] a IH]; intros b H; [simpl; lia|].
  assert (Hb : ∃ x, x ∈ b ∧ x.1 = t).
  { specialize (H t). unfold of_thread in H. rewrite filter_cons_True, !length_fmap in H by done.
    destruct (filter (λ x, x.1 = t) b) as [|x l] eqn:E; [simpl in H; lia|].
    exists x. assert (Hx : x ∈ filter (λ x, x.1 = t) b) by (rewrite E; apply list_elem_of_here).
    apply list_elem_of_filter in Hx. tauto. }
  destruct Hb as ([t' ev'] & Hin & E). simpl in E. subst t'.
  apply list_elem_of_split in Hin as (l1 & l2 & ->).
  enough (length a <= length (l1 ++ l2))%nat by (rewrite !length_app in *; simpl; lia).
  apply IH. intros t'. specialize (H t'). revert H. change ((t, ev) :: a) with ([(t, ev)] ++ a).
  change ((t, ev') :: l2) with ([(t, ev')] ++ l2).
  rewrite !of_thread_app, !of_thread_one, !length_app. case_decide; simpl; lia.
Qed.

Lemma inv_processed c : inv c -> (length (processed c) <= length (committed c))%nat.
Proof. intros I. apply length_by_thread. intros t. rewrite (i_queue _ I t), length_app. lia. Qed.

Lemma backlog_take t ev q c :
  inv c -> arr [] (queues c) t = ev :: q -> backlog c = S (backlog (take_event t ev q c)).
Proof.
  intros I Hq. pose proof (inv_processed _ (inv_take t ev q c I Hq)) as H.
  unfold backlog. cbn [committed processed take_event] in *. rewrite length_app in *. simpl in *. lia.
Qed.

(** What a step of the others changes of all this. *)
Lemma client_frame c c' :
  client_step c c' ->
  processed c' = processed c ∧ committed c `prefix_of` committed c' ∧
  (length (ring_list c) <= length (ring_list c'))%nat ∧
  (at_ c' = at_ c ∨ ∃ n, at_ c = Blocked n ∧ at_ c' = Awaken n) ∧
  (g_running c = false -> g_running c' = false).
Proof.
  intros Hs. destruct Hs as [t c|t ev flag c|t c|t c|t c|id reason c|t c];
    [..|destruct (at_ c) eqn:E| |]; simpl; split_and!; eauto using prefix_app_r.
Qed.

Lemma advance_frame c c' :
  advance c = Some c' ->
  committed c' = committed c ∧ ring_list c' = ring_list c ∧ g_running c' = g_running c.
Proof. unfold advance. intros E. repeat case_match; by simplify_eq. Qed.

Lemma runs_frame n c c' :
  runs n c c' -> committed c `prefix_of` committed c' ∧ (length (ring_list c) <= length (ring_list c'))%nat.
Proof.
  induction 1 as [c|n c c1 c' Ha _ IH|n c c1 c' Hc _ IH]; [done| |].
  - destruct (advance_frame _ _ Ha) as (E1 & E2 & _). by rewrite E1, E2 in IH.
  - destruct (client_frame _ _ Hc) as (_ & H1 & H2 & _). destruct IH. split; [by etrans|lia].
Qed.

Lemma arrivals_split c c1 c' n :
  client_step c c1 -> runs n c1 c' -> arrivals c c' = (arrivals c c1 + arrivals c1 c')%nat.
Proof.
  intros (_ & H1%prefix_length & H2 & _)%client_frame (H3%prefix_length & H4)%runs_frame.
  unfold arrivals. lia.
Qed.

(** The bounds pay for every step of the thread, and grow by what arrives. *)
Lemma exit_bound_own c c' :
  inv c -> g_running c = false -> advance c = Some c' -> (S (exit_bound c') <= exit_bound c)%nat.
Proof.
  intros I Hg. unfold advance, exit_bound.
  destruct (at_ c) as [n|r|r|r found rest|n|n|n|n|n|n|] eqn:Ep; intros E; simplify_eq;
    unfold backlog; rewrite ?Hg; try case_bool_decide; try destruct r as [n|]; simpl; try lia.
  all: destruct rest as [|t rest]; [try destruct found, (n <? 500); simplify_eq; simpl; lia|].
  all: destruct (arr [] (queues c) t) as [|ev q] eqn:Eq; simplify_eq; simpl; [lia|].
  all: pose proof (backlog_take t ev q c I Eq); unfold backlog in *; simpl in *; lia.
Qed.

Lemma exit_bound_client c c' :
  client_step c c' -> (exit_bound c' <= exit_bound c + arrivals c c')%nat.
Proof.
  intros (E & H1%prefix_length & H2 & H3 & _)%client_frame. unfold exit_bound, arrivals, backlog. rewrite E.
  destruct H3 as [->|(n & -> & ->)]; [|simpl; lia]. repeat case_match; simpl; lia.
Qed.

Lemma exit_bounded n c c' :
  runs n c c' -> inv c -> g_running c = false -> (n + exit_bound c' <= exit_bound c + arrivals c c')%nat.
Proof.
  induction 1 as [c|n c c1 c' Ha Hr IH|n c c1 c' Hc Hr IH]; intros I Hg; [lia| |].
  - pose proof (exit_bound_own _ _ I Hg Ha). destruct (advance_frame _ _ Ha) as (E1 & E2 & E3).
    specialize (IH (inv_advance _ _ I Ha) (eq_trans E3 Hg)).
    unfold arrivals in *. rewrite E1, E2 in IH. lia.
  - pose proof (exit_bound_client _ _ Hc). rewrite (arrivals_split _ _ _ _ Hc Hr).
    destruct (client_frame _ _ Hc) as (_ & _ & _ & _ & Hg').
    specialize (IH (bg_inv_client _ _ I Hc) (Hg' Hg)). lia.
Qed.

(** The events [s] have been processed. *)
Definition served (s : list (Z * AllocEvent)) (c : conf) : Prop :=
  ∀ t, of_thread t s `prefix_of` of_thread t (processed c).

(** The pass under way will process them, in [n] steps at most; or it is the next
    one. *)
Definition in_pass (s : list (Z * AllocEvent)) (c : conf) (n : nat) : Prop :=
  match at_ c with
  | Maintain _ | Head _ => (drain_bound c <= n)%nat
  | Walk _ _ rest =>
      (∀ t, t ∉ rest -> of_thread t s `prefix_of` of_thread t (processed c)) ∧
      (backlog c + length rest <= n)%nat
  | _ => False
  end.

Definition before_pass (c : conf) (n : nat) : Prop :=
  match at_ c with
  | Maintain _ | Head _ | Walk Final _ _ | Exited => False
  | _ => (drain_bound c <= n)%nat
  end.

Definition due (s : list (Z * AllocEvent)) (c : conf) (n : nat) : Prop :=
  served s c ∨ in_pass s c n ∨ before_pass c n.

Lemma of_thread_prefix t s l : s `prefix_of` l -> of_thread t s `prefix_of` of_thread t l.
Proof. intros [k ->]. rewrite of_thread_app. by apply prefix_app_r. Qed.

Lemma served_own s c c' : served s c -> advance c = Some c' -> served s c'.
Proof.
  unfold advance, served. intros H E t. specialize (H t). repeat case_match; simplify_eq; try done.
  simpl. rewrite of_thread_app. by apply prefix_app_r.
Qed.

Lemma in_pass_own s c c' n :
  inv c -> s `prefix_of` committed c -> in_pass s c (S n) -> advance c = Some c' ->
  served s c' ∨ in_pass s c' n.
Proof.
  intros I Hs. unfold in_pass, advance.
  destruct (at_ c) as [m|r|r|r found rest|m|m|m|m|m|m|] eqn:Ep; try done.
  - unfold drain_bound. rewrite Ep. intros Hn [= <-]. right. unfold backlog in *. simpl in *. lia.
  - unfold drain_bound. rewrite Ep. intros Hn [= <-]. right. simpl. unfold backlog in *. simpl.
    split; [|lia]. intros t Ht. pose proof (of_thread_prefix t _ _ Hs) as H.
    rewrite (i_new _ I t Ht) in H. apply prefix_nil_inv in H as ->. apply prefix_nil.
  - intros [Hd Hn] E. destruct rest as [|t rest].
    { left. simplify_eq. intros t. simpl. apply Hd, not_elem_of_nil. }
    right. destruct (arr [] (queues c) t) as [|ev q] eqn:Eq; simplify_eq; simpl.
    + unfold backlog in *. simpl in *. split; [|lia]. intros t' Ht.
      destruct (decide (t' = t)) as [->|Hne]; [|apply Hd; by intros [|]%elem_of_cons].
      pose proof (of_thread_prefix t _ _ Hs) as H. by rewrite (i_queue _ I t), Eq, app_nil_r in H.
    + rewrite (backlog_take t ev q c I Eq) in Hn. unfold backlog in *. simpl in *. split; [|lia].
      intros t' Ht. rewrite of_thread_app. by apply prefix_app_r, Hd.
Qed.

Lemma before_pass_own s c c' n :
  inv c -> before_pass c (S n) -> advance c = Some c' -> in_pass s c' n ∨ before_pass c' n.
Proof.
  intros I. unfold before_pass, in_pass, drain_bound, advance.
  destruct (at_ c) as [m|r|r|[m|] found rest|m|m|m|m|m|m|] eqn:Ep; try done; intros Hn E; simplify_eq.
  3, 5, 7, 8: right; unfold backlog in *; simpl in *; lia.
  - left. unfold backlog in *. simpl in *. lia.
  - right. destruct rest as [|t rest]; [|destruct (arr [] (queues c) t) as [|ev q] eqn:Eq]; simplify_eq.
    + unfold backlog in *. destruct found, (m <? 500); simpl in *; lia.
    + unfold backlog in *. simpl in *. lia.
    + rewrite (backlog_take t ev q c I Eq) in Hn. unfold backlog in *. simpl in *. lia.
  - destruct (g_running c); [right|left]; unfold backlog in *; simpl in *; lia.
  - right. unfold backlog in *. case_bool_decide; simpl in *; lia.
Qed.

Lemma due_own s c c' n :
  inv c -> s `prefix_of` committed c -> due s c (S n) -> advance c = Some c' -> due s c' n.
Proof.
  intros I Hs [H|[H|H]] E.
  - left. by eapply served_own.
  - destruct (in_pass_own s c c' n I Hs H E); [by left|by right; left].
  - right. by apply (before_pass_own s c c' n I H E).
Qed.

Lemma due_client s c c' n : due s c n -> client_step c c' -> due s c' (n + arrivals c c').
Proof.
  intros H (E & H1%prefix_length & H2 & H3 & _)%client_frame.
  unfold due, served, in_pass, before_pass, drain_bound, backlog, arrivals in *. rewrite E.
  destruct H as [H|[H|H]]; [by left| |]; destruct H3 as [->|(m & E1 & ->)]; try rewrite E1 in H; try done.
  - right. left. case_match; try done; [lia..|]. destruct H. split; [done|lia].
  - right. right. repeat case_match; try done; simpl in *; lia.
  - right. right. simpl in *. lia.
Qed.

Lemma due_now s c : inv c -> s `prefix_of` committed c -> due s c 0 -> served s c.
Proof.
  intros I Hs [H|[H|H]]; [done| |].
  - unfold in_pass, drain_bound in H. case_match; try done; try lia. destruct H as [H Hn].
    destruct rest; [|simpl in Hn; lia]. intros t. apply H, not_elem_of_nil.
  - unfold before_pass, drain_bound in H. repeat case_match; simpl in *; try done; lia.
Qed.

Lemma served_runs n c c' s : runs n c c' -> served s c -> served s c'.
Proof.
  induction 1 as [c|n c c1 c' Ha _ IH|n c c1 c' Hc _ IH]; [done| |]; intros H; apply IH.
  - by eapply served_own.
  - intros t. destruct (client_frame _ _ Hc) as (-> & _). apply H.
Qed.

Lemma due_served n c c' s m :
  runs n c c' -> inv c -> s `prefix_of` committed c -> due s c m -> (m + arrivals c c' <= n)%nat ->
  served s c'.
Proof.
  intros Hr. revert m. induction Hr as [c|n c c1 c' Ha Hr IH|n c c1 c' Hc Hr IH]; intros m I Hs Hd Hn.
  - apply due_now; [done..|]. by replace 0%nat with m by lia.
  - destruct m as [|m]; [apply (served_runs _ _ _ _ Hr), (served_own s c); [by apply due_now|done]|].
    destruct (advance_frame _ _ Ha) as (E1 & E2 & _).
    apply (IH m); [by apply (inv_advance c)|by rewrite E1|by apply (due_own s c)|].
    unfold arrivals in *. rewrite E1, E2. lia.
  - apply (IH (m + arrivals c c1)%nat); [by apply (bg_inv_client c)| |by apply due_client|].
    + destruct (client_frame _ _ Hc) as (_ & H & _). by etrans.
    + rewrite (arrivals_split _ _ _ _ Hc Hr) in Hn. lia.
Qed.

Lemma due_start c : inv c -> g_running c = true -> due (committed c) c (drain_bound c).
Proof.
  intros I Hg. unfold due, in_pass, before_pass. pose proof (i_final _ I) as Hf. unfold final_ok in Hf.
  destruct (at_ c) as [n|r|r|[n|] found rest|n|n|n|n|n|n|] eqn:Ep; auto; destruct Hf; congruence.
Qed.

(** C20: the thread never stalls, whatever wake-ups were lost and however the other
    threads' steps fall between its own.  It can always make a step until it has
    ended (a wait ends by its time-out).  While it runs, what has been pushed at
    some moment is processed, in the order of each thread, once the thread has
    made from there [drain_bound] steps of its own (the backlog, the rings left of
    the pass under way, those of the next one, and nine at most), one more for every
    event and two for every ring that arrive meanwhile.  Once [g_running] is clear it makes at most [exit_bound] more steps,
    with the same allowance, so that when the others stop pushing it ends, and the
    join of [stop_background_thread] returns.  Rings enter the list one at a time;
    what overlapping first events can do to it is
    [Recorder.first_events_share_ring]. *)
Theorem background_never_stalls (w : writer) (c : conf) :
  rtc step (conf0 w) c ->
  (advance c = None <-> at_ c = Exited) ∧
  (g_running c = true -> ∀ n c', runs n c c' -> (drain_bound c + arrivals c c' <= n)%nat ->
     ∀ t, of_thread t (committed c) `prefix_of` of_thread t (processed c')) ∧
  (g_running c = false -> ∀ n c', runs n c c' -> (n <= exit_bound c + arrivals c c')%nat).
Proof.
  intros I%bg_inv_reachable. split_and!.
  - unfold advance. split; [|by intros ->]. by repeat case_match.
  - intros Hg n c' Hr Hn. exact (due_served n c c' _ _ Hr I (reflexivity _) (due_start c I Hg) Hn).
  - intros Hg n c' Hr. pose proof (exit_bounded n c c' Hr I Hg). lia.
Qed.
End Background.

(** ** Runs *)

Section Runs.
Context {B : Backend} (K : Knobs) (pad : AllocEvent -> list Z).

(** [n] steps of the thread. *)
Fixpoint run (n : nat) (c : conf) : option conf :=
  match n with O => Some c | S n => c' ← advance K pad c; run n c' end.

Lemma run_runs n c c' : run n c = Some c' -> runs K pad n c c'.
Proof.
  revert c. induction n as [|n IH]; intros c; simpl; [intros [= ->]; apply runs_nil|].
  destruct (advance K pad c) as [c1|] eqn:E; [|done]. intros H. eapply runs_own; [exact E|]. by apply IH.
Qed.

Lemma run_steps n c : rtc (step K pad) c (default c (run n c)).
Proof.
  revert c. induction n as [|n IH]; intros c; simpl; [apply rtc_refl|].
  destruct (advance K pad c) as [c1|] eqn:E; simpl; [|apply rtc_refl]. specialize (IH c1).
  destruct (run n c1) as [c'|]; [|apply rtc_refl]. eapply rtc_l; [right; exact E|exact IH].
Qed.

(** A thread's first event, with the wake-up it owes. *)
Definition first_event (t : Z) (ev : AllocEvent) (c : conf) : conf :=
  mkConf (at_ c) (work c) (g_running c) (futex_word c) (t :: ring_list c) (<[t := [ev]]> (queues c))
    (deopts c) (<[t := Notify]> (wakers c)) (committed c ++ [(t, ev)]) (processed c) (ops c) (at_stop c).

Lemma first_event_steps t ev c :
  t ∉ ring_list c -> wakers c !! t = None -> arr [] (queues c) t = [] ->
  rtc (step K pad) c (first_event t ev c).
Proof.
  intros Ht Hw Hq. eapply rtc_l; [left; by apply (C_register t)|].
  eapply rtc_l; [left; apply (C_push t ev true); [by left|done|by simpl; rewrite Hq|done]|].
  simpl. rewrite Hq. apply rtc_refl.
Qed.

(** The thread runs, an event is pushed while it is not marked asleep, and it goes on. *)
Lemma unseen_event_steps n k t ev c :
  let c1 := default c (run n c) in
  let c2 := set_wakers ∅ (first_event t ev c1) in
  t ∉ ring_list c1 -> wakers c1 = ∅ -> arr [] (queues c1) t = [] -> futex_word c1 = AWAKE ->
  rtc (step K pad) c (default c2 (run k c2)).
Proof.
  intros c1 c2 Ht Hw Hq Hf. etrans; [apply (run_steps n)|]. fold c1.
  etrans; [apply (first_event_steps t ev); [done|by rewrite Hw|done]|].
  etrans; [|apply run_steps]. apply rtc_once. left.
  assert (E : c2 = set_wakers (if bool_decide (futex_word (first_event t ev c1) = SLEEPING)
     then <[t := StoreAwake]> (wakers (first_event t ev c1)) else delete t (wakers (first_event t ev c1)))
     (first_event t ev c1)).
  { unfold c2. f_equal. simpl. rewrite Hf, Hw, bool_decide_false by done.
    by rewrite delete_insert_id. }
  rewrite E. apply C_notify. simpl. apply lookup_insert_eq.
Qed.
End Runs.

Definition demo_knobs : Knobs := replay_knobs false Generic.
Definition demo_pad (ev : AllocEvent) : list Z := [0; 0; 0; 0].
Definition demo_event : AllocEvent := mkAllocEvent 7 64 0 5 4096.
Definition demo_step : conf -> conf -> Prop := step (B := plain_backend) demo_knobs demo_pad.
Definition demo_run (n : nat) (c : conf) : conf := default c (run (B := plain_backend) demo_knobs demo_pad n c).

(** A wake-up can be lost: the event is pushed after the thread's last pass and
    before it marks itself asleep, so that its pusher has nobody to wake, and the
    next pushes see a ring that is not empty.  [background_never_stalls] is why it
    costs a second at most. *)
Definition about_to_sleep : conf := demo_run 50 (conf0 writer0).
Definition asleep : conf :=
  demo_run 2 (set_wakers ∅ (first_event 5 demo_event about_to_sleep)).

Example wakeup_lost :
  rtc demo_step (conf0 writer0) asleep ∧ at_ asleep = Blocked 500 ∧ futex_word asleep = SLEEPING ∧
  arr [] (queues asleep) 5 = [demo_event] ∧ wakers asleep = ∅ ∧ g_running asleep = true.
Proof.
  split; [|by vm_compute].
  apply (unseen_event_steps (B := plain_backend) demo_knobs demo_pad 50 2 5 demo_event (conf0 writer0)).
  - apply (bool_decide_unpack _). vm_compute. exact I.
  - vm_compute. reflexivity.
  - vm_compute. reflexivity.
  - vm_compute. reflexivity.
Qed.

(** One event, then the stop; the thread alone. *)
Definition stopped : conf :=
  let c := first_event 5 demo_event (conf0 writer0) in
  mkConf (at_ c) (work c) false (futex_word c) (ring_list c) (queues c) (deopts c)
    (<[1 := StoreAwake]> (wakers c)) (committed c) (processed c) (ops c) (Some (committed c)).

Lemma stopped_reachable : rtc demo_step (conf0 writer0) stopped.
Proof.
  etrans; [apply (first_event_steps (B := plain_backend) demo_knobs demo_pad 5 demo_event)|].
  - apply not_elem_of_nil.
  - done.
  - done.
  - apply rtc_once. left. by apply C_stop.
Qed.

Lemma shutdown_processes_all_witness :
  let c := demo_run 6 stopped in
  at_ c = Exited ∧ ∃ s, at_stop c = Some s ∧ of_thread 5 s = [demo_event] ∧
    of_thread 5 s `prefix_of` of_thread 5 (processed c).
Proof.
  intros c. assert (E : at_ c = Exited) by (vm_compute; reflexivity). split; [exact E|].
  destruct (shutdown_processes_all (B := plain_backend) demo_knobs demo_pad writer0 c) as (s & Es & Hs & _).
  - etrans; [exact stopped_reachable|]. exact (run_steps (B := plain_backend) demo_knobs demo_pad 6 stopped).
  - exact E.
  - exists s. split; [exact Es|]. split; [|exact (proj1 (Hs 5))].
    assert (E' : at_stop c = Some [(5, demo_event)]) by (vm_compute; reflexivity).
    rewrite E' in Es. injection Es as <-. reflexivity.
Defined.

(** From the lost wake-up the event is processed within the bound; and after a stop
    with an event pending the thread ends within its own. *)
Lemma background_never_stalls_witness :
  (drain_bound asleep = 7%nat ∧
   ∀ t, of_thread t (committed asleep) `prefix_of` of_thread t (processed (demo_run 7 asleep))) ∧
  (exit_bound stopped = 6%nat ∧
   ∀ n c', runs (B := plain_backend) demo_knobs demo_pad n stopped c' -> (n <= 6 + arrivals stopped c')%nat).
Proof.
  split; (split; [vm_compute; reflexivity|]).
  - refine (proj1 (proj2 (background_never_stalls (B := plain_backend) demo_knobs demo_pad writer0 asleep
      (proj1 wakeup_lost))) _ 7%nat _ _ _).
    + vm_compute. reflexivity.
    + apply run_runs. vm_compute. reflexivity.
    + apply (bool_decide_unpack _). vm_compute. exact I.
  - exact (proj2 (proj2 (background_never_stalls (B := plain_backend) demo_knobs demo_pad writer0 stopped
      stopped_reachable)) eq_refl).
Defined.

(** Two rings, the first about to wrap its counters. *)
Lemma drain_all_exact_witness :
  ∃ rbs' b', drain_all (B := plain_backend) demo_knobs demo_pad [Ring.ring_near_wrap; Ring.ring0]
      (mkBg [] writer0 0 []) = Ok (rbs', b', true) ∧ event_count <$> summaries b' = [2].
Proof.
  destruct (drain_all_exact (B := plain_backend) demo_knobs demo_pad [Ring.ring_near_wrap; Ring.ring0]
    [(2 ^ 64 - 2, [Ring.ev_a; Ring.ev_b]); (0, [])] (mkBg [] writer0 0 [])) as (rbs' & b' & E & _ & Es & _).
  - constructor; [exact Ring.near_wrap_queue|]. constructor; [exact Ring.ring0_queue|constructor].
  - exists rbs', b'. split; [exact E|]. rewrite Es. vm_compute. reflexivity.
Defined.
