(* ===== verification/Json.v ===== *)
(** * JSON documents

    The language of the machine-readable statistics ([TBJIT_DUMP_JSON]): the part of
    JSON with non-negative integers, strings without escapes, booleans, arrays and
    objects.  [value], [members] and [elements] are its grammar, [parse_json] a
    reader, and [parse_value_text] says that the reader understands what the grammar
    describes. *)

From S2P Require Import Prelude.
From stdpp Require Import pretty.
From Stdlib Require Import Ascii.

#[local] Open Scope Z_scope.

Inductive json :=
  | JNum (n : Z)
  | JStr (s : string)
  | JBool (b : bool)
  | JArr (l : list json)
  | JObj (l : list (string * json)).

Definition quote_char : ascii := ascii_of_nat 34.
Definition quote : string := String.String quote_char "".
Definition quoted (s : string) : string := quote +:+ s +:+ quote.

Definition is_ws (a : ascii) : bool :=
  let n := nat_of_ascii a in (n =? 32)%nat || (n =? 10)%nat || (n =? 9)%nat || (n =? 13)%nat.

(** A character that stands for itself in a string. *)
Definition is_plain (a : ascii) : bool :=
  let n := nat_of_ascii a in (32 <=? n)%nat && negb (n =? 34)%nat && negb (n =? 92)%nat.

Fixpoint all_chars (f : ascii -> bool) (s : string) : bool :=
  match s with EmptyString => true | String.String a s => f a && all_chars f s end.

Abbreviation ws s := (all_chars is_ws s = true).
Abbreviation plain s := (all_chars is_plain s = true).

(** ** Reading *)

Definition digit (a : ascii) : option Z :=
  let n := nat_of_ascii a in
  if (48 <=? n)%nat && (n <=? 57)%nat then Some (Z.of_nat (n - 48)) else None.

Fixpoint skip_ws (s : string) : string :=
  match s with
  | String.String a r => if is_ws a then skip_ws r else s
  | EmptyString => s
  end.

Fixpoint read_digits (acc : Z) (s : string) : Z * string :=
  match s with
  | String.String a r => match digit a with Some d => read_digits (acc * 10 + d) r | None => (acc, s) end
  | EmptyString => (acc, s)
  end.

(** No leading zeros. *)
Definition read_number (s : string) : option (Z * string) :=
  match s with
  | String.String a r =>
      match digit a with
      | Some d => if d =? 0 then Some (0, r) else Some (read_digits d r)
      | None => None
      end
  | EmptyString => None
  end.

Fixpoint read_chars (s : string) : option (string * string) :=
  match s with
  | EmptyString => None
  | String.String a r =>
      if Ascii.eqb a quote_char then Some ("", r)
      else if is_plain a then '(b, r) ← read_chars r; Some (String.String a b, r) else None
  end.

(** [r] without the expected text in front. *)
Fixpoint expect (p s : string) : option string :=
  match p, s with
  | EmptyString, _ => Some s
  | String.String a p, String.String b s => if Ascii.eqb a b then expect p s else None
  | _, _ => None
  end.

Fixpoint read_value (fuel : nat) (s : string) : option (json * string) :=
  match fuel with
  | O => None
  | S fuel =>
      match skip_ws s with
      | EmptyString => None
      | String.String a r =>
          if Ascii.eqb a "{" then
            match expect "}" (skip_ws r) with
            | Some r => Some (JObj [], r)
            | None => '(kvs, r) ← read_members fuel r; Some (JObj kvs, r)
            end
          else if Ascii.eqb a "[" then
            match expect "]" (skip_ws r) with
            | Some r => Some (JArr [], r)
            | None => '(vs, r) ← read_elements fuel r; Some (JArr vs, r)
            end
          else if Ascii.eqb a quote_char then '(b, r) ← read_chars r; Some (JStr b, r)
          else if Ascii.eqb a "t" then r ← expect "rue" r; Some (JBool true, r)
          else if Ascii.eqb a "f" then r ← expect "alse" r; Some (JBool false, r)
          else '(n, r) ← read_number (String.String a r); Some (JNum n, r)
      end
  end
with read_members (fuel : nat) (s : string) : option (list (string * json) * string) :=
  match fuel with
  | O => None
  | S fuel =>
      r ← expect quote (skip_ws s);
      '(k, r) ← read_chars r;
      r ← expect ":" (skip_ws r);
      '(v, r) ← read_value fuel r;
      match expect "," (skip_ws r) with
      | Some r => '(kvs, r) ← read_members fuel r; Some ((k, v) :: kvs, r)
      | None => r ← expect "}" (skip_ws r); Some ([(k, v)], r)
      end
  end
with read_elements (fuel : nat) (s : string) : option (list json * string) :=
  match fuel with
  | O => None
  | S fuel =>
      '(v, r) ← read_value fuel s;
      match expect "," (skip_ws r) with
      | Some r => '(vs, r) ← read_elements fuel r; Some (v :: vs, r)
      | None => r ← expect "]" (skip_ws r); Some ([v], r)
      end
  end.

(** The value of a whole document. *)
Definition parse_json (s : string) : option json :=
  match read_value (String.length s) s with
  | Some (v, r) => match skip_ws r with EmptyString => Some v | _ => None end
  | None => None
  end.

(** ** Grammar *)

Inductive value : string -> json -> Prop :=
  | v_num n : 0 <= n -> value (pretty n) (JNum n)
  | v_str s : plain s -> value (quoted s) (JStr s)
  | v_true : value "true" (JBool true)
  | v_false : value "false" (JBool false)
  | v_obj0 w : ws w -> value ("{" +:+ w +:+ "}") (JObj [])
  | v_obj b kvs : members b kvs -> value ("{" +:+ b +:+ "}") (JObj kvs)
  | v_arr0 w : ws w -> value ("[" +:+ w +:+ "]") (JArr [])
  | v_arr b vs : elements b vs -> value ("[" +:+ b +:+ "]") (JArr vs)
with members : string -> list (string * json) -> Prop :=
  | m_one w1 k w2 s v w3 :
      ws w1 -> plain k -> ws w2 -> value s v -> ws w3 ->
      members (w1 +:+ quoted k +:+ ":" +:+ w2 +:+ s +:+ w3) [(k, v)]
  | m_more w1 k w2 s v w3 b kvs :
      ws w1 -> plain k -> ws w2 -> value s v -> ws w3 -> members b kvs ->
      members (w1 +:+ quoted k +:+ ":" +:+ w2 +:+ s +:+ w3 +:+ "," +:+ b) ((k, v) :: kvs)
with elements : string -> list json -> Prop :=
  | e_one w1 s v w2 : ws w1 -> value s v -> ws w2 -> elements (w1 +:+ s +:+ w2) [v]
  | e_more w1 s v w2 b vs :
      ws w1 -> value s v -> ws w2 -> elements b vs -> elements (w1 +:+ s +:+ w2 +:+ "," +:+ b) (v :: vs).

Scheme value_mut := Induction for value Sort Prop
with members_mut := Induction for members Sort Prop
with elements_mut := Induction for elements Sort Prop.
Combined Scheme grammar_ind from value_mut, members_mut, elements_mut.

(** ** Strings *)

Lemma string_app_assoc (a b c : string) : (a +:+ b) +:+ c = a +:+ b +:+ c.
Proof. induction a as [|x a IH]; [done|]. exact (f_equal (String.String x) IH). Qed.

Lemma string_app_nil (a : string) : a +:+ "" = a.
Proof. induction a as [|x a IH]; [done|]. exact (f_equal (String.String x) IH). Qed.

Lemma json_length_app (a b : string) : String.length (a +:+ b) = (String.length a + String.length b)%nat.
Proof. induction a as [|c a IH]; [done|]. exact (f_equal S IH). Qed.

Lemma all_chars_app f (a b : string) : all_chars f (a +:+ b) = all_chars f a && all_chars f b.
Proof. induction a as [|x a IH]; [done|]. change (f x && all_chars f (a +:+ b) = f x && all_chars f a && all_chars f b). by rewrite IH, andb_assoc. Qed.

(** Two strings in sequence, when the first is a literal. *)
Lemma app_cons c (a b : string) : String.String c a +:+ b = String.String c (a +:+ b).
Proof. done. Qed.

Lemma app_empty (b : string) : "" +:+ b = b.
Proof. done. Qed.

Definition starts (f : ascii -> bool) (s : string) : Prop :=
  match s with EmptyString => False | String.String a _ => f a = true end.

Lemma skip_ws_app w s : ws w -> starts (λ a, negb (is_ws a)) s -> skip_ws (w +:+ s) = s.
Proof.
  intros Hw Hs. induction w as [|a w IH].
  - destruct s as [|a s]; [done|]. rewrite app_empty. simpl in *. apply negb_true_iff in Hs. by rewrite Hs.
  - simpl in Hw. apply andb_true_iff in Hw as [Ha Hw]. rewrite app_cons. cbn [skip_ws]. rewrite Ha. auto.
Qed.

Lemma read_chars_app s rest : plain s -> read_chars (s +:+ quote +:+ rest) = Some (s, rest).
Proof.
  induction s as [|a s IH]; [done|]. simpl all_chars. intros [Ha Hs]%andb_true_iff. rewrite app_cons.
  cbn [read_chars]. destruct (Ascii.eqb_spec a quote_char) as [->|]; [done|]. rewrite Ha, IH by done. done.
Qed.

(** ** Numbers *)

Definition ends (rest : string) : Prop :=
  match rest with EmptyString => True | String.String a _ => digit a = None end.

Lemma digit_char x : (x < 10)%N -> digit (pretty_N_char x) = Some (Z.of_N x).
Proof.
  intros Hx. assert (x = 0 ∨ x = 1 ∨ x = 2 ∨ x = 3 ∨ x = 4 ∨ x = 5 ∨ x = 6 ∨ x = 7 ∨ x = 8 ∨ x = 9)%N as H by lia.
  by repeat destruct H as [->|H]; [..|subst x].
Qed.

Lemma pretty_go_app x s rest : pretty_N_go x s +:+ rest = pretty_N_go x (s +:+ rest).
Proof.
  revert s. induction (N.lt_wf_0 x) as [x _ IH]; intros s.
  assert (x = 0 ∨ 0 < x)%N as [->|?] by lia; [by rewrite !pretty_N_go_0|].
  rewrite !(pretty_N_go_step x) by done. rewrite IH by (by apply N.div_lt). done.
Qed.

Lemma read_digits_go x s : read_digits 0 (pretty_N_go x s) = read_digits (Z.of_N x) s.
Proof.
  revert s. induction (N.lt_wf_0 x) as [x _ IH]; intros s.
  assert (x = 0 ∨ 0 < x)%N as [->|?] by lia; [by rewrite pretty_N_go_0|].
  rewrite pretty_N_go_step by done. rewrite IH by (by apply N.div_lt). cbn [read_digits].
  rewrite digit_char by (by apply N.mod_lt). f_equal.
  rewrite N2Z.inj_div, N2Z.inj_mod. pose proof (Z.div_mod (Z.of_N x) 10 ltac:(done)). simpl Z.of_N. lia.
Qed.

Lemma pretty_go_first x s : (0 < x)%N -> ∃ a r d, pretty_N_go x s = String.String a r ∧ digit a = Some d ∧ 1 <= d <= 9.
Proof.
  revert s. induction (N.lt_wf_0 x) as [x _ IH]; intros s Hx. rewrite pretty_N_go_step by done.
  assert (x < 10 ∨ 10 <= x)%N as [Hlt|Hge] by lia.
  - rewrite N.div_small, pretty_N_go_0 by done. rewrite N.mod_small by done.
    exists (pretty_N_char x), s, (Z.of_N x). rewrite digit_char by done. split_and!; [done..|lia|lia].
  - apply IH; [by apply N.div_lt|]. apply N.div_str_pos. lia.
Qed.

Lemma read_digits_ends n rest : ends rest -> read_digits n rest = (n, rest).
Proof. destruct rest as [|a r]; [done|]. simpl. by intros ->. Qed.

Lemma read_number_pretty n rest :
  0 <= n -> ends rest ->
  read_number (pretty n +:+ rest) = Some (n, rest) ∧ starts (λ a, bool_decide (is_Some (digit a))) (pretty n).
Proof.
  intros Hn Hr. destruct n as [|p|]; [done| |lia].
  change (pretty (Z.pos p)) with (pretty (N.pos p)). unfold pretty, pretty_N. rewrite decide_False by done.
  destruct (pretty_go_first (N.pos p) "" ltac:(done)) as (a & r & d & E & Ed & Hd). split.
  - pose proof (read_digits_go (N.pos p) rest) as H. rewrite (read_digits_ends _ rest Hr) in H.
    pose proof (pretty_go_app (N.pos p) "" rest) as Ea. rewrite app_empty in Ea. rewrite <- Ea, E in H. rewrite E.
    rewrite app_cons in *. cbn [read_digits read_number] in *. rewrite Ed in *.
    rewrite (proj2 (Z.eqb_neq d 0)) by lia. replace (0 * 10 + d) with d in H by lia. by rewrite H.
  - rewrite E. simpl. rewrite Ed. done.
Qed.

(** ** The reader reads the grammar *)

Lemma starts_app f s rest : starts f s -> starts f (s +:+ rest).
Proof. by destruct s. Qed.

Lemma starts_mono (f g : ascii -> bool) s : (∀ a, f a = true -> g a = true) -> starts f s -> starts g s.
Proof. destruct s; simpl; auto. Qed.

(** The first character of a value. *)
Definition opens (a : ascii) : bool := negb (is_ws a) && negb (Ascii.eqb a "]").

Lemma digit_opens a : is_Some (digit a) ->
  opens a = true ∧ Ascii.eqb a "{" = false ∧ Ascii.eqb a "[" = false ∧ Ascii.eqb a quote_char = false ∧
  Ascii.eqb a "t" = false ∧ Ascii.eqb a "f" = false.
Proof. destruct a as [[] [] [] [] [] [] [] []]; intros [d Hd]; try done; by vm_compute in Hd. Qed.

Definition reads_value (s : string) (v : json) : Prop :=
  starts opens s ∧
  ∀ w fuel rest, ws w -> (String.length s <= fuel)%nat -> ends rest ->
    read_value fuel (w +:+ s +:+ rest) = Some (v, rest).

Definition reads_members (b : string) (kvs : list (string * json)) : Prop :=
  (∀ rest, expect "}" (skip_ws (b +:+ rest)) = None) ∧
  ∀ fuel rest, (String.length b <= fuel)%nat -> read_members fuel (b +:+ "}" +:+ rest) = Some (kvs, rest).

Definition reads_elements (b : string) (vs : list json) : Prop :=
  (∀ rest, expect "]" (skip_ws (b +:+ rest)) = None) ∧
  ∀ fuel rest, (S (String.length b) <= fuel)%nat -> read_elements fuel (b +:+ "]" +:+ rest) = Some (vs, rest).

Lemma skip_value w s rest : ws w -> starts opens s -> skip_ws (w +:+ s +:+ rest) = s +:+ rest.
Proof.
  intros Hw Hs. apply skip_ws_app; [done|]. apply starts_app. eapply starts_mono; [|exact Hs].
  intros a. unfold opens. by intros [? _]%andb_true_iff.
Qed.

Lemma skip_char w c rest : ws w -> is_ws c = false -> skip_ws (w +:+ String.String c rest) = String.String c rest.
Proof. intros Hw Hc. apply skip_ws_app; [done|]. simpl. by rewrite Hc. Qed.

Lemma ends_ws w c rest : ws w -> digit c = None -> ends (w +:+ String.String c rest).
Proof.
  intros Hw Hc. destruct w as [|a w]; [done|]. simpl in Hw. apply andb_true_iff in Hw as [Ha _].
  rewrite app_cons. simpl. destruct a as [[] [] [] [] [] [] [] []]; done.
Qed.

Ltac strings := rewrite ?string_app_assoc, ?app_cons, ?app_empty.
Ltac lengths := rewrite ?json_length_app in *; cbn [String.length quote quoted] in *; lia.

(** The parts a bracketed value and a member share. *)
Lemma read_object w b kvs rest fuel :
  ws w -> reads_members b kvs -> (S (S (String.length b)) <= fuel)%nat ->
  read_value fuel (w +:+ ("{" +:+ b +:+ "}") +:+ rest) = Some (JObj kvs, rest).
Proof.
  intros Hw [Hx Hb] Hl. destruct fuel as [|fuel]; [lia|]. strings. cbn [read_value].
  rewrite skip_char by done. change (Ascii.eqb "{" "{") with true. cbv iota.
  change (String.String "}" rest) with ("}" +:+ rest). rewrite Hx, Hb by lia. done.
Qed.

Lemma read_array w b vs rest fuel :
  ws w -> reads_elements b vs -> (S (S (String.length b)) <= fuel)%nat ->
  read_value fuel (w +:+ ("[" +:+ b +:+ "]") +:+ rest) = Some (JArr vs, rest).
Proof.
  intros Hw [Hx Hb] Hl. destruct fuel as [|fuel]; [lia|]. strings. cbn [read_value].
  rewrite skip_char by done. change (Ascii.eqb "[" "{") with false. change (Ascii.eqb "[" "[") with true. cbv iota.
  change (String.String "]" rest) with ("]" +:+ rest). rewrite Hx, Hb by lia. done.
Qed.

(** A key and its value, up to what follows the value. *)
Lemma read_member w1 k w2 s v w3 c rest fuel :
  ws w1 -> plain k -> ws w2 -> reads_value s v -> ws w3 -> is_ws c = false -> digit c = None ->
  (String.length (w1 +:+ quoted k +:+ ":" +:+ w2 +:+ s +:+ w3) <= S fuel)%nat ->
  read_members (S fuel) ((w1 +:+ quoted k +:+ ":" +:+ w2 +:+ s +:+ w3) +:+ String.String c rest) =
  match expect "," (String.String c rest) with
  | Some r => '(kvs, r) ← read_members fuel r; Some ((k, v) :: kvs, r)
  | None => r ← expect "}" (String.String c rest); Some ([(k, v)], r)
  end.
Proof.
  intros Hw1 Hk Hw2 [Hs Hv] Hw3 Hc Hd Hl. cbn [read_members]. unfold quoted in *.
  assert (E : (w1 +:+ (quote +:+ k +:+ quote) +:+ ":" +:+ w2 +:+ s +:+ w3) +:+ String.String c rest =
    w1 +:+ String.String quote_char (k +:+ quote +:+ String.String ":" (w2 +:+ s +:+ w3 +:+ String.String c rest))).
  { strings. done. }
  rewrite E, skip_char by done. cbn [expect quote]. rewrite Ascii.eqb_refl.
  cbn [mbind option_bind]. rewrite read_chars_app by done. cbn [mbind option_bind skip_ws].
  change (is_ws ":") with false. cbv iota. cbn [expect]. change (Ascii.eqb ":" ":") with true. cbv iota.
  cbn [mbind option_bind]. rewrite (Hv w2 fuel (w3 +:+ String.String c rest)); [|done|lengths|by apply ends_ws].
  cbn [mbind option_bind]. by rewrite skip_char.
Qed.

Lemma member_opens w1 k rest : ws w1 -> expect "}" (skip_ws (w1 +:+ quoted k +:+ rest)) = None.
Proof. intros Hw. unfold quoted, quote. strings. by rewrite skip_char. Qed.

Lemma element_opens w s rest : ws w -> starts opens s -> expect "]" (skip_ws (w +:+ s +:+ rest)) = None.
Proof.
  intros Hw Hs. rewrite skip_value by done. destruct s as [|a s]; [done|]. rewrite app_cons. cbn [expect].
  rewrite Ascii.eqb_sym. simpl in Hs. unfold opens in Hs. apply andb_true_iff in Hs as [_ Hs].
  apply negb_true_iff in Hs. by rewrite Hs.
Qed.

(** An element, up to what follows it. *)
Lemma read_element w1 s v w2 c rest fuel :
  ws w1 -> reads_value s v -> ws w2 -> is_ws c = false -> digit c = None ->
  (String.length s <= fuel)%nat ->
  read_elements (S fuel) ((w1 +:+ s +:+ w2) +:+ String.String c rest) =
  match expect "," (String.String c rest) with
  | Some r => '(vs, r) ← read_elements fuel r; Some (v :: vs, r)
  | None => r ← expect "]" (String.String c rest); Some ([v], r)
  end.
Proof.
  intros Hw1 [Hs Hv] Hw2 Hc Hd Hl. cbn [read_elements]. strings.
  rewrite (Hv w1 fuel (w2 +:+ String.String c rest)); [|done|done|by apply ends_ws].
  cbn [mbind option_bind]. by rewrite skip_char.
Qed.

Lemma grammar_read :
  (∀ s v, value s v -> reads_value s v) ∧
  (∀ b kvs, members b kvs -> reads_members b kvs) ∧
  (∀ b vs, elements b vs -> reads_elements b vs).
Proof.
  apply grammar_ind.
  - (* numbers *)
    intros n Hn. destruct (read_number_pretty n "" Hn I) as [_ Hs].
    destruct (pretty n) as [|a p] eqn:E; [done|]. simpl in Hs. apply bool_decide_eq_true in Hs.
    destruct (digit_opens a Hs) as (Ho & E1 & E2 & E3 & E4 & E5). split; [done|].
    intros w fuel rest Hw Hl Hr. destruct fuel as [|fuel]; [simpl in Hl; lia|]. cbn [read_value].
    rewrite (skip_value w) by done. rewrite app_cons, E1, E2, E3, E4, E5, <- app_cons, <- E.
    destruct (read_number_pretty n rest Hn Hr) as [-> _]. done.
  - (* strings *)
    intros s Hs. split; [done|]. intros w fuel rest Hw Hl Hr. destruct fuel as [|fuel]; [simpl in Hl; lia|].
    cbn [read_value]. unfold quoted, quote. strings. rewrite skip_char by done.
    change (Ascii.eqb quote_char "{") with false. change (Ascii.eqb quote_char "[") with false.
    rewrite Ascii.eqb_refl. cbv iota. pose proof (read_chars_app s rest Hs) as E. unfold quote in E.
    rewrite app_cons, app_empty in E. by rewrite E.
  - split; [done|]. intros w fuel rest Hw Hl Hr. destruct fuel as [|fuel]; [simpl in Hl; lia|].
    cbn [read_value]. strings. by rewrite skip_char.
  - split; [done|]. intros w fuel rest Hw Hl Hr. destruct fuel as [|fuel]; [simpl in Hl; lia|].
    cbn [read_value]. strings. by rewrite skip_char.
  - (* objects *)
    intros w0 Hw0. split; [done|]. intros w fuel rest Hw Hl Hr. destruct fuel as [|fuel]; [simpl in Hl; lia|].
    cbn [read_value]. strings. rewrite skip_char by done. change (Ascii.eqb "{" "{") with true. cbv iota.
    by rewrite skip_char.
  - intros b kvs _ Hb. split; [done|]. intros w fuel rest Hw Hl Hr. apply read_object; [done..|]. lengths.
  - (* arrays *)
    intros w0 Hw0. split; [done|]. intros w fuel rest Hw Hl Hr. destruct fuel as [|fuel]; [simpl in Hl; lia|].
    cbn [read_value]. strings. rewrite skip_char by done. change (Ascii.eqb "[" "{") with false.
    change (Ascii.eqb "[" "[") with true. cbv iota. by rewrite skip_char.
  - intros b vs _ Hb. split; [done|]. intros w fuel rest Hw Hl Hr. apply read_array; [done..|]. lengths.
  - (* members *)
    intros w1 k w2 s v w3 Hw1 Hk Hw2 _ Hv Hw3. split; [intros rest; strings; by apply member_opens|].
    intros fuel rest Hl. destruct fuel as [|fuel]; [unfold quoted in Hl; lengths|].
    change ("}" +:+ rest) with (String.String "}" rest). by rewrite (read_member w1 k w2 s v w3).
  - intros w1 k w2 s v w3 b kvs Hw1 Hk Hw2 _ Hv Hw3 _ [_ Hb]. split; [intros rest; strings; by apply member_opens|].
    intros fuel rest Hl. destruct fuel as [|fuel]; [unfold quoted in Hl; lengths|].
    assert (E : (w1 +:+ quoted k +:+ ":" +:+ w2 +:+ s +:+ w3 +:+ "," +:+ b) +:+ "}" +:+ rest =
      (w1 +:+ quoted k +:+ ":" +:+ w2 +:+ s +:+ w3) +:+ String.String "," (b +:+ "}" +:+ rest)) by (by strings).
    rewrite E, (read_member w1 k w2 s v w3) by (try done; unfold quoted in *; lengths). cbn [expect].
    change (Ascii.eqb "," ",") with true. cbv iota. rewrite Hb by (unfold quoted in Hl; lengths). done.
  - (* elements *)
    intros w1 s v w2 Hw1 _ Hv Hw2. split; [intros rest; strings; apply element_opens; [done|apply Hv]|].
    intros fuel rest Hl. destruct fuel as [|fuel]; [lia|].
    change ("]" +:+ rest) with (String.String "]" rest). rewrite (read_element w1 s v w2); try done. lengths.
  - intros w1 s v w2 b vs Hw1 _ Hv Hw2 _ [_ Hb]. split; [intros rest; strings; apply element_opens; [done|apply Hv]|].
    intros fuel rest Hl. destruct fuel as [|fuel]; [lia|].
    assert (E : (w1 +:+ s +:+ w2 +:+ "," +:+ b) +:+ "]" +:+ rest =
      (w1 +:+ s +:+ w2) +:+ String.String "," (b +:+ "]" +:+ rest)) by (by strings).
    rewrite E, (read_element w1 s v w2) by (try done; lengths). cbn [expect].
    change (Ascii.eqb "," ",") with true. cbv iota. rewrite Hb by lengths. done.
Qed.

(** A document: a value between white space. *)
Lemma parse_value_text w1 s v w2 : ws w1 -> value s v -> ws w2 -> parse_json (w1 +:+ s +:+ w2) = Some v.
Proof.
  intros Hw1 Hv Hw2. destruct (proj1 grammar_read s v Hv) as [_ Hr]. unfold parse_json.
  rewrite Hr; [|done|lengths|].
  - rewrite <- (string_app_nil w2). assert (E : ∀ w, ws w -> skip_ws (w +:+ "") = "").
    { intros w Hw. induction w as [|a w IH]; [done|]. simpl in Hw. apply andb_true_iff in Hw as [Ha Hw].
      rewrite app_cons. cbn [skip_ws]. rewrite Ha. auto. }
    by rewrite E.
  - destruct w2 as [|a w]; [done|]. simpl in Hw2. apply andb_true_iff in Hw2 as [Ha _]. simpl.
    destruct a as [[] [] [] [] [] [] [] []]; done.
Qed.

Example parse_small :
  parse_json ("{" +:+ quoted "a" +:+ ": [1, 20], " +:+ quoted "b" +:+ ":{ } }")
  = Some (JObj [("a", JArr [JNum 1; JNum 20]); ("b", JObj [])]).
Proof. reflexivity. Qed.
