(* ===== verification/Dump.v ===== *)
(** * The statistics at exit ([src/src/analysis/dump.cpp])

    What [dump_stats] computes from the summary table: the classification of the
    sites ([build_summary]), the events-to-specialize distribution, and the file
    that [write_json_dump] writes, character by character.  Its reader is
    [Json.parse_json]. *)

From stdpp Require Import pretty.
From Stdlib Require Import Ascii Permutation.
From S2P Require Import Prelude Common Double Histogram Analysis Picker Summaries Json.
From S2P Require TraceFile.

#[local] Open Scope Z_scope.

(** ** Names *)

Definition strategy_name (s : Strategy) : string :=
  match s with
  | BumpAlloc => "BumpAlloc"
  | ThreadLocalFreeList => "TLFreeList"
  | EpochArena => "EpochArena"
  | PairedStack => "PairedStack"
  | ProducerConsumer => "ProducerConsumer"
  | MultiSizeFreeList => "MultiSizeFreeList"
  | Generic => "-"
  end.

Definition lifetime_name (t : LifetimeTag) : string :=
  match t with Reap => "Reap" | Hold => "Hold" | Unknown => "Unknown" end.

Definition phase_name (p : Phase) (blacklisted : bool) : string :=
  if blacklisted then "Blacklisted"
  else if bool_decide (p = Compiled) then "Compiled"
  else if bool_decide (p = Deopt) then "Deopt"
  else "PreSpec".

Definition deopt_reason_name (r : DeoptReason) : string :=
  match r with
  | SizeDrift => "SizeDrift"
  | RegionExhaust => "RegionExhaust"
  | ThreadShift => "ThreadShift"
  | LifoViolation => "LifoViolation"
  | Other => "Other"
  | NoReason => "None"
  end.

(** The enumerators in the order of their values. *)
Definition strategies : list Strategy :=
  [Generic; BumpAlloc; ThreadLocalFreeList; EpochArena; PairedStack; ProducerConsumer; MultiSizeFreeList].
Definition lifetimes : list LifetimeTag := [Unknown; Reap; Hold].
Definition lifetime_value (t : LifetimeTag) : Z := match t with Unknown => 0 | Reap => 1 | Hold => 2 end.

(** ** Counting *)

Record Summary := mkCounts {
  sum_total : Z;
  sum_compiled : Z;
  sum_blacklist : Z;
  sum_prespec : Z;
  sum_deopt : Z;
  by_strategy : list Z;
  by_lifetime : list Z;
  sum_events : Z;
  sum_frees : Z;
}.

Definition Summary0 : Summary := mkCounts 0 0 0 0 0 (replicate 7 0) (replicate 3 0) 0 0.

Definition inc (b : bool) (n : Z) : Z := if b then u64 (n + 1) else n.

Definition count_site (out : Summary) (s : CallSiteSummary) : Summary :=
  let compiled := negb (blacklisted s) && bool_decide (s_phase s = Compiled) in
  let deopt := negb (blacklisted s) && negb compiled && bool_decide (s_phase s = Deopt) in
  let prespec := negb (blacklisted s) && negb compiled && negb deopt in
  let counted := bool_decide (s_phase s = Compiled) && negb (blacklisted s) in
  let si := strategy_value (candidate s) in
  let li := lifetime_value (lifetime s) in
  mkCounts (inc true (sum_total out)) (inc compiled (sum_compiled out)) (inc (blacklisted s) (sum_blacklist out))
    (inc prespec (sum_prespec out)) (inc deopt (sum_deopt out))
    (if counted && (si <? 7) then alter (inc true) (Z.to_nat si) (by_strategy out) else by_strategy out)
    (if counted && (li <? 3) then alter (inc true) (Z.to_nat li) (by_lifetime out) else by_lifetime out)
    (u64 (sum_events out + event_count s)) (u64 (sum_frees out + free_count s)).

Definition build_summary (g_summaries : list CallSiteSummary) : Summary := foldl count_site Summary0 g_summaries.

(** The events-to-specialize line: minimum, median, 95th percentile, maximum and
    number.  [rfces] is [fces[0 .. i)] read from its end. *)
Fixpoint shift_insert_fce (v : Z) (rfces : list Z) : list Z :=
  match rfces with
  | [] => [v]
  | f :: rest => if f >? v then f :: shift_insert_fce v rest else v :: f :: rest
  end.

Definition sorted_fces (l : list CallSiteSummary) : list Z :=
  reverse (foldl (λ r v, shift_insert_fce v r) [] (filter (λ v, v ≠ 0) (first_compile_events <$> l))).

Record Percentiles := mkPercentiles { fce_min : Z; fce_p50 : Z; fce_p95 : Z; fce_max : Z; fce_n : Z }.

Definition events_to_specialize (l : list CallSiteSummary) (sum : Summary) : option Percentiles :=
  if sum_compiled sum >? 0 then
    let fces := sorted_fces l in
    let n := Z.of_nat (length fces) in
    let at_ i := if n =? 0 then 0 else default 0 (fces !! Z.to_nat i) in
    Some (mkPercentiles (at_ 0) (at_ (n / 2)) (at_ (u64 (n * 95) / 100)) (at_ (n - 1)) n)
  else None.

(** ** The JSON file *)

Definition nl : string := String.String (ascii_of_nat 10) "".

(** The loops over [by_strategy] and [by_lifetime]. *)
Fixpoint counts_text (names : list string) (counts : list Z) (first : bool) : string :=
  match names, counts with
  | n :: names, c :: counts =>
      if c =? 0 then counts_text names counts first
      else (if first then "" else ", ") +:+ quoted n +:+ ": " +:+ pretty c +:+ counts_text names counts false
  | _, _ => ""
  end.

(** The histogram a site is shown with. *)
Definition shown_histogram (s : CallSiteSummary) : ExactHistogram :=
  if bool_decide (s_phase s = Compiled) then baseline s else hist (window (active s) s).

Definition site_text (s : CallSiteSummary) (last : bool) : string :=
  let h := shown_histogram s in
  "    {" +:+ quoted "id" +:+ ": " +:+ pretty (s_id s) +:+ ", " +:+ quoted "events" +:+ ": " +:+ pretty (event_count s) +:+ ", "
  +:+ quoted "frees" +:+ ": " +:+ pretty (free_count s) +:+ ", "
  +:+ quoted "p50" +:+ ": " +:+ pretty (quantile (literal 50 100) h) +:+ ", "
  +:+ quoted "p95" +:+ ": " +:+ pretty (quantile (literal 95 100) h) +:+ ", "
  +:+ quoted "p99" +:+ ": " +:+ pretty (quantile (literal 99 100) h) +:+ ", "
  +:+ quoted "phase" +:+ ": " +:+ quoted (phase_name (s_phase s) (blacklisted s)) +:+ ", "
  +:+ quoted "strategy" +:+ ": " +:+ quoted (strategy_name (candidate s)) +:+ ", "
  +:+ quoted "lifetime" +:+ ": " +:+ quoted (lifetime_name (lifetime s)) +:+ ", "
  +:+ quoted "deopts" +:+ ": " +:+ pretty (deopt_count s) +:+ ", "
  +:+ quoted "deopt_reason" +:+ ": " +:+ quoted (deopt_reason_name (deopt_reason s)) +:+ ", "
  +:+ quoted "blacklisted" +:+ ": " +:+ (if blacklisted s then "true" else "false") +:+ ", "
  +:+ quoted "first_compile_events" +:+ ": " +:+ pretty (first_compile_events s) +:+ "}"
  +:+ (if last then "" else ",") +:+ nl.

Fixpoint sites_text (l : list CallSiteSummary) : string :=
  match l with
  | [] => ""
  | s :: l => site_text s (match l with [] => true | _ => false end) +:+ sites_text l
  end.

Definition json_text (jit_n gen_n : Z) (l : list CallSiteSummary) (sum : Summary) : string :=
  "{" +:+ nl
  +:+ "  " +:+ quoted "summary" +:+ ": {" +:+ nl
  +:+ "    " +:+ quoted "sites_observed" +:+ ": " +:+ pretty (sum_total sum) +:+ "," +:+ nl
  +:+ "    " +:+ quoted "compiled" +:+ ": " +:+ pretty (sum_compiled sum) +:+ "," +:+ nl
  +:+ "    " +:+ quoted "blacklisted" +:+ ": " +:+ pretty (sum_blacklist sum) +:+ "," +:+ nl
  +:+ "    " +:+ quoted "deopt" +:+ ": " +:+ pretty (sum_deopt sum) +:+ "," +:+ nl
  +:+ "    " +:+ quoted "prespec" +:+ ": " +:+ pretty (sum_prespec sum) +:+ "," +:+ nl
  +:+ "    " +:+ quoted "jit_allocs" +:+ ": " +:+ pretty jit_n +:+ "," +:+ nl
  +:+ "    " +:+ quoted "generic_allocs" +:+ ": " +:+ pretty gen_n +:+ "," +:+ nl
  +:+ "    " +:+ quoted "strategy_counts" +:+ ": {"
  +:+ counts_text (strategy_name <$> strategies) (by_strategy sum) true +:+ "}," +:+ nl
  +:+ "    " +:+ quoted "lifetime_counts" +:+ ": {"
  +:+ counts_text (lifetime_name <$> lifetimes) (by_lifetime sum) true +:+ "}" +:+ nl
  +:+ "  }," +:+ nl
  +:+ "  " +:+ quoted "sites" +:+ ": [" +:+ nl
  +:+ sites_text l
  +:+ "  ]" +:+ nl
  +:+ "}" +:+ nl.

(** The path and contents of the file, when one is written. *)
Definition write_json_dump (pid : Z) (fopened : string -> bool) (jit_n gen_n : Z) (path : string)
    (l : list CallSiteSummary) (sum : Summary) : option (string * string) :=
  path ← TraceFile.resolve_path pid path;
  if fopened path then Some (path, json_text jit_n gen_n l sum) else None.

(** [dump_stats]: the events-to-specialize line and the JSON file; [dump_json] is
    the value of [TBJIT_DUMP_JSON]. *)
Definition dump_stats (pid : Z) (fopened : string -> bool) (jit_n gen_n : Z) (dump_json : option string)
    (l : list CallSiteSummary) : option Percentiles * option (string * string) :=
  let sum := build_summary l in
  (events_to_specialize l sum,
   path ← dump_json; write_json_dump pid fopened jit_n gen_n path l sum).

(** ** What is counted *)

Definition tally (P : CallSiteSummary -> Prop) `{∀ s, Decision (P s)} (l : list CallSiteSummary) : Z :=
  Z.of_nat (length (filter P l)).

(** The four disjoint classes of a site. *)
Definition is_blacklisted (s : CallSiteSummary) : Prop := blacklisted s = true.
Definition is_compiled (s : CallSiteSummary) : Prop := blacklisted s = false ∧ s_phase s = Compiled.
Definition is_deopt (s : CallSiteSummary) : Prop := blacklisted s = false ∧ s_phase s = Deopt.
Definition is_prespec (s : CallSiteSummary) : Prop := blacklisted s = false ∧ s_phase s = PreSpec.

#[export] Instance is_blacklisted_dec s : Decision (is_blacklisted s).
Proof. unfold is_blacklisted. apply _. Defined.
#[export] Instance is_compiled_dec s : Decision (is_compiled s).
Proof. unfold is_compiled. apply _. Defined.
#[export] Instance is_deopt_dec s : Decision (is_deopt s).
Proof. unfold is_deopt. apply _. Defined.
#[export] Instance is_prespec_dec s : Decision (is_prespec s).
Proof. unfold is_prespec. apply _. Defined.

(** The compiled sites with each value of a field. *)
Definition tallies {A} `{EqDecision A} (f : CallSiteSummary -> A) (vals : list A) (l : list CallSiteSummary) : list Z :=
  (λ v, tally (λ s, is_compiled s ∧ f s = v) l) <$> vals.

(** What [build_summary] means, by counting over the table. *)
Definition counts_of (l : list CallSiteSummary) : Summary :=
  mkCounts (Z.of_nat (length l)) (tally is_compiled l) (tally is_blacklisted l) (tally is_prespec l) (tally is_deopt l)
    (tallies candidate strategies l) (tallies lifetime lifetimes l)
    (u64 (foldr (λ s n, event_count s + n) 0 l)) (u64 (foldr (λ s n, free_count s + n) 0 l)).

Lemma tally_snoc P `{∀ s, Decision (P s)} l s :
  tally P (l ++ [s]) = tally P l + (if decide (P s) then 1 else 0).
Proof. unfold tally. rewrite filter_app, length_app, filter_cons. case_decide; simpl; lia. Qed.

Lemma tally_bound P `{∀ s, Decision (P s)} l : 0 <= tally P l <= Z.of_nat (length l).
Proof. unfold tally. pose proof (length_filter P l). lia. Qed.

Lemma inc_tally b P `{∀ s, Decision (P s)} l s :
  Z.of_nat (length l) + 1 < 2 ^ 64 -> (b = true <-> P s) -> inc b (tally P l) = tally P (l ++ [s]).
Proof.
  intros Hl Hb. rewrite tally_snoc. pose proof (tally_bound P l). unfold inc.
  destruct b; case_decide as Hd; try (by intuition congruence); [|lia]. rewrite u64_small by lia. done.
Qed.

Lemma sum_snoc (f : CallSiteSummary -> Z) l s :
  foldr (λ s n, f s + n) 0 (l ++ [s]) = foldr (λ s n, f s + n) 0 l + f s.
Proof. induction l as [|x l IH]; simpl; [lia|]. rewrite IH. lia. Qed.

Lemma tallies_other {A} `{EqDecision A} (f : CallSiteSummary -> A) vals l s :
  ¬ is_compiled s -> tallies f vals (l ++ [s]) = tallies f vals l.
Proof.
  intros Hs. unfold tallies. apply list_fmap_ext. intros i v _. rewrite tally_snoc.
  case_decide as Hd; [by destruct Hd|lia].
Qed.

Lemma tallies_compiled {A} `{EqDecision A} (f : CallSiteSummary -> A) vals i l s :
  Z.of_nat (length l) + 1 < 2 ^ 64 -> is_compiled s -> NoDup vals -> vals !! i = Some (f s) ->
  tallies f vals (l ++ [s]) = alter (inc true) i (tallies f vals l).
Proof.
  intros Hl Hs Hnd Hi. apply list_eq. intros j. unfold tallies. rewrite list_lookup_fmap.
  destruct (decide (i = j)) as [<-|Hne].
  - rewrite list_lookup_alter_eq, list_lookup_fmap, Hi. cbn [fmap option_fmap option_map]. f_equal. symmetry. by apply inc_tally.
  - rewrite list_lookup_alter_ne, list_lookup_fmap by done. destruct (vals !! j) as [v|] eqn:Ej; [|done]. simpl.
    f_equal. rewrite tally_snoc. case_decide as Hd; [|lia]. destruct Hd as [_ <-]. by destruct (NoDup_lookup _ _ _ _ Hnd Hi Ej).
Qed.

Lemma strategies_at st : strategies !! Z.to_nat (strategy_value st) = Some st ∧ (strategy_value st <? 7) = true.
Proof. by destruct st. Qed.

Lemma lifetimes_at t : lifetimes !! Z.to_nat (lifetime_value t) = Some t ∧ (lifetime_value t <? 3) = true.
Proof. by destruct t. Qed.

Lemma enumerators_distinct : NoDup strategies ∧ NoDup lifetimes.
Proof. split; apply (bool_decide_unpack _); vm_compute; exact I. Qed.

Lemma build_summary_counts l : Z.of_nat (length l) < 2 ^ 64 -> build_summary l = counts_of l.
Proof.
  induction l as [|s l IH] using rev_ind; [done|]. rewrite length_app. simpl length. intros Hl.
  unfold build_summary in *. rewrite foldl_app, IH by lia. clear IH. cbn [foldl].
  destruct enumerators_distinct as [N1 N2]. destruct (strategies_at (candidate s)) as [E1 B1].
  destruct (lifetimes_at (lifetime s)) as [E2 B2].
  unfold count_site. rewrite B1, B2, !andb_true_r. unfold counts_of at -1.
  cbn [sum_total sum_compiled sum_blacklist sum_prespec sum_deopt by_strategy by_lifetime sum_events sum_frees].
  assert (Hc : bool_decide (s_phase s = Compiled) && negb (blacklisted s) = bool_decide (is_compiled s)).
  { apply eq_true_iff_eq. rewrite andb_true_iff, negb_true_iff, !bool_decide_eq_true. unfold is_compiled. tauto. }
  rewrite Hc. unfold counts_of. rewrite !sum_snoc, length_app. f_equal.
  - cbn [sum_total length]. unfold inc. rewrite u64_small by lia. lia.
  - apply inc_tally; [lia|]. unfold is_compiled. destruct (blacklisted s), (s_phase s); intuition done.
  - apply inc_tally; [lia|]. done.
  - apply inc_tally; [lia|]. unfold is_prespec. destruct (blacklisted s), (s_phase s); intuition done.
  - apply inc_tally; [lia|]. unfold is_deopt. destruct (blacklisted s), (s_phase s); intuition done.
  - clear Hc. case_bool_decide; symmetry; [apply tallies_compiled; [lia|done..]|by apply tallies_other].
  - clear Hc. case_bool_decide; symmetry; [apply tallies_compiled; [lia|done..]|by apply tallies_other].
  - apply wrap_add_l.
  - apply wrap_add_l.
Qed.

(** ** What the file says *)

Definition counts_kvs (names : list string) (counts : list Z) : list (string * json) :=
  (λ nc, (nc.1, JNum nc.2)) <$> filter (λ nc, nc.2 ≠ 0) (zip names counts).

Definition site_value (s : CallSiteSummary) : json :=
  let h := shown_histogram s in
  JObj [("id", JNum (s_id s)); ("events", JNum (event_count s)); ("frees", JNum (free_count s));
    ("p50", JNum (quantile (literal 50 100) h)); ("p95", JNum (quantile (literal 95 100) h));
    ("p99", JNum (quantile (literal 99 100) h));
    ("phase", JStr (phase_name (s_phase s) (blacklisted s))); ("strategy", JStr (strategy_name (candidate s)));
    ("lifetime", JStr (lifetime_name (lifetime s))); ("deopts", JNum (deopt_count s));
    ("deopt_reason", JStr (deopt_reason_name (deopt_reason s))); ("blacklisted", JBool (blacklisted s));
    ("first_compile_events", JNum (first_compile_events s))].

Definition stats_value (jit_n gen_n : Z) (l : list CallSiteSummary) : json :=
  let c := counts_of l in
  JObj [("summary", JObj
      [("sites_observed", JNum (sum_total c)); ("compiled", JNum (sum_compiled c));
       ("blacklisted", JNum (sum_blacklist c)); ("deopt", JNum (sum_deopt c)); ("prespec", JNum (sum_prespec c));
       ("jit_allocs", JNum jit_n); ("generic_allocs", JNum gen_n);
       ("strategy_counts", JObj (counts_kvs (strategy_name <$> strategies) (by_strategy c)));
       ("lifetime_counts", JObj (counts_kvs (lifetime_name <$> lifetimes) (by_lifetime c)))]);
    ("sites", JArr (site_value <$> l))].

(** ** The text is JSON *)

(** A field of an object: white space before the key, the key, the value's text
    and the value, white space after it. *)
Record field := mkField { f_pre : string; f_key : string; f_text : string; f_value : json; f_post : string }.

Record field_ok (f : field) : Prop := {
  f_pre_ok : ws (f_pre f);
  f_key_ok : plain (f_key f);
  f_value_ok : value (f_text f) (f_value f);
  f_post_ok : ws (f_post f);
}.

Definition field_text (f : field) : string :=
  f_pre f +:+ quoted (f_key f) +:+ ":" +:+ " " +:+ f_text f +:+ f_post f.

Fixpoint fields_text (f : field) (fs : list field) : string :=
  match fs with
  | [] => field_text f
  | g :: fs => f_pre f +:+ quoted (f_key f) +:+ ":" +:+ " " +:+ f_text f +:+ f_post f +:+ "," +:+ fields_text g fs
  end.

Definition field_kv (f : field) : string * json := (f_key f, f_value f).

Lemma fields_members f fs : Forall field_ok (f :: fs) -> members (fields_text f fs) (field_kv <$> f :: fs).
Proof.
  revert f. induction fs as [|g fs IH]; intros f [[] Hfs]%Forall_cons.
  - by apply m_one.
  - apply m_more; try done. by apply IH.
Qed.

Lemma fields_object f fs : Forall field_ok (f :: fs) ->
  value ("{" +:+ fields_text f fs +:+ "}") (JObj (field_kv <$> f :: fs)).
Proof. intros H. by apply v_obj, fields_members. Qed.

Lemma number_ok pre k n post : ws pre -> plain k -> 0 <= n -> ws post -> field_ok (mkField pre k (pretty n) (JNum n) post).
Proof. intros. split; try done. by apply v_num. Qed.

Lemma name_ok pre k n post : ws pre -> plain k -> plain n -> ws post -> field_ok (mkField pre k (quoted n) (JStr n) post).
Proof. intros. split; try done. by apply v_str. Qed.

Lemma flag_ok pre k (b : bool) post : ws pre -> plain k -> ws post ->
  field_ok (mkField pre k (if b then "true" else "false") (JBool b) post).
Proof. intros. split; try done. destruct b; [apply v_true|apply v_false]. Qed.

#[local] Hint Resolve number_ok name_ok flag_ok : core.

(** A summary whose numbers can be printed. *)
Record printable (s : CallSiteSummary) : Prop := {
  p_id : 0 <= s_id s;
  p_counts : 0 <= event_count s ∧ 0 <= free_count s ∧ 0 <= deopt_count s ∧ 0 <= first_compile_events s;
  p_quantiles : ∀ p, 0 <= quantile p (shown_histogram s);
}.

Lemma names_plain s :
  plain (phase_name (s_phase s) (blacklisted s)) ∧ plain (strategy_name (candidate s)) ∧
  plain (lifetime_name (lifetime s)) ∧ plain (deopt_reason_name (deopt_reason s)).
Proof.
  split_and!; [|by destruct (candidate s)|by destruct (lifetime s)|by destruct (deopt_reason s)].
  unfold phase_name. by repeat case_match.
Qed.

Definition site_fields (s : CallSiteSummary) : list field :=
  let h := shown_histogram s in
  [mkField " " "events" (pretty (event_count s)) (JNum (event_count s)) "";
   mkField " " "frees" (pretty (free_count s)) (JNum (free_count s)) "";
   mkField " " "p50" (pretty (quantile (literal 50 100) h)) (JNum (quantile (literal 50 100) h)) "";
   mkField " " "p95" (pretty (quantile (literal 95 100) h)) (JNum (quantile (literal 95 100) h)) "";
   mkField " " "p99" (pretty (quantile (literal 99 100) h)) (JNum (quantile (literal 99 100) h)) "";
   mkField " " "phase" (quoted (phase_name (s_phase s) (blacklisted s))) (JStr (phase_name (s_phase s) (blacklisted s))) "";
   mkField " " "strategy" (quoted (strategy_name (candidate s))) (JStr (strategy_name (candidate s))) "";
   mkField " " "lifetime" (quoted (lifetime_name (lifetime s))) (JStr (lifetime_name (lifetime s))) "";
   mkField " " "deopts" (pretty (deopt_count s)) (JNum (deopt_count s)) "";
   mkField " " "deopt_reason" (quoted (deopt_reason_name (deopt_reason s))) (JStr (deopt_reason_name (deopt_reason s))) "";
   mkField " " "blacklisted" (if blacklisted s then "true" else "false") (JBool (blacklisted s)) "";
   mkField " " "first_compile_events" (pretty (first_compile_events s)) (JNum (first_compile_events s)) ""].

(** The braces of a site, and what is around them. *)
Definition site_object (s : CallSiteSummary) : string :=
  "{" +:+ fields_text (mkField "" "id" (pretty (s_id s)) (JNum (s_id s)) "") (site_fields s) +:+ "}".

Lemma site_text_object s last :
  site_text s last = "    " +:+ site_object s +:+ (if last then "" else ",") +:+ nl.
Proof.
  unfold site_text, site_object. cbn [fields_text site_fields]. unfold field_text.
  cbn [f_pre f_key f_text f_post]. unfold quoted. rewrite !string_app_assoc. reflexivity.
Qed.

Lemma site_object_value s : printable s -> value (site_object s) (site_value s).
Proof.
  intros [Hid (H1 & H2 & H3 & H4) Hq]. destruct (names_plain s) as (N1 & N2 & N3 & N4).
  unfold site_object. refine (fields_object _ (site_fields s) _). repeat apply Forall_cons_2; auto.
Qed.

(** The lines of the sites between brackets. *)
Lemma sites_elements w w2 s l :
  ws w -> ws w2 -> Forall printable (s :: l) ->
  elements (w +:+ sites_text (s :: l) +:+ w2) (site_value <$> s :: l).
Proof.
  intros Hw Hw2. revert w s Hw. induction l as [|s' l IH]; intros w s Hw [Hs Hl]%Forall_cons.
  - assert (E : w +:+ sites_text [s] +:+ w2 = (w +:+ "    ") +:+ site_object s +:+ nl +:+ w2).
    { cbn [sites_text]. rewrite site_text_object. rewrite !string_app_assoc. reflexivity. }
    rewrite E. apply e_one; [|by apply site_object_value|done]. rewrite all_chars_app, Hw. done.
  - assert (E : w +:+ sites_text (s :: s' :: l) +:+ w2 =
      (w +:+ "    ") +:+ site_object s +:+ "" +:+ "," +:+ (nl +:+ sites_text (s' :: l) +:+ w2)).
    { cbn [sites_text]. rewrite site_text_object. rewrite !string_app_assoc. reflexivity. }
    rewrite E. apply e_more; [rewrite all_chars_app, Hw; done|by apply site_object_value|done|]. by apply IH.
Qed.

Lemma sites_array l : Forall printable l ->
  value ("[" +:+ (nl +:+ sites_text l +:+ "  ") +:+ "]") (JArr (site_value <$> l)).
Proof. intros Hl. destruct l as [|s l]; [by apply v_arr0|]. apply v_arr. by apply sites_elements. Qed.

(** The counts: nothing, or members after a comma. *)
Lemma counts_more names counts :
  Forall (λ n, plain n) names -> Forall (Z.le 0) counts ->
  (counts_text names counts false = "" ∧ counts_kvs names counts = []) ∨
  ∃ b, counts_text names counts false = "," +:+ " " +:+ b ∧
    counts_text names counts true = b ∧ members b (counts_kvs names counts) ∧ members (" " +:+ b) (counts_kvs names counts).
Proof.
  intros Hn. revert counts. induction Hn as [|n names Hn _ IH]; intros counts Hc; [by left|].
  destruct Hc as [|c counts Hc Hcs]; [by left|]. specialize (IH counts Hcs). unfold counts_kvs in *. cbn [counts_text zip].
  change (zip_with pair names counts) with (zip names counts). rewrite filter_cons.
  destruct (Z.eqb_spec c 0) as [->|Hne]; [by rewrite decide_False by (cbn; auto)|]. rewrite decide_True by done. right. rewrite fmap_cons. cbn [fst snd].
  eexists. split; [|split; [reflexivity|]]; [by strings|]. cbn [fst snd].
  assert (Hv : value (pretty c) (JNum c)) by by apply v_num.
  destruct IH as [[-> ->]|(b & -> & _ & _ & Hb)].
  - split; [by apply (m_one "" n " " (pretty c) _ "")|by apply (m_one " " n " " (pretty c) _ "")].
  - split; [by apply (m_more "" n " " (pretty c) _ "" (" " +:+ b))|by apply (m_more " " n " " (pretty c) _ "" (" " +:+ b))].
Qed.

Lemma counts_first names counts : counts_text names counts false = "" -> counts_text names counts true = "".
Proof.
  revert counts. induction names as [|n names IH]; intros [|c counts]; simpl; [done..|]. destruct (c =? 0); [auto|done].
Qed.

Lemma counts_object names counts : Forall (λ n, plain n) names -> Forall (Z.le 0) counts ->
  value ("{" +:+ counts_text names counts true +:+ "}") (JObj (counts_kvs names counts)).
Proof.
  intros Hn Hc. destruct (counts_more names counts Hn Hc) as [[E ->]|(b & _ & -> & Hb & _)]; [|by apply v_obj].
  rewrite counts_first by done. by apply v_obj0.
Qed.

(** The document. *)
Definition count_fields (jit_n gen_n : Z) (sum : Summary) : list field :=
  let number k n := mkField (nl +:+ "    ") k (pretty n) (JNum n) "" in
  let counts k names l post := mkField (nl +:+ "    ") k
    ("{" +:+ counts_text names l true +:+ "}") (JObj (counts_kvs names l)) post in
  [number "compiled" (sum_compiled sum); number "blacklisted" (sum_blacklist sum); number "deopt" (sum_deopt sum);
   number "prespec" (sum_prespec sum); number "jit_allocs" jit_n; number "generic_allocs" gen_n;
   counts "strategy_counts" (strategy_name <$> strategies) (by_strategy sum) "";
   counts "lifetime_counts" (lifetime_name <$> lifetimes) (by_lifetime sum) (nl +:+ "  ")].

Definition summary_object (jit_n gen_n : Z) (sum : Summary) : string :=
  "{" +:+ fields_text (mkField (nl +:+ "    ") "sites_observed" (pretty (sum_total sum)) (JNum (sum_total sum)) "")
    (count_fields jit_n gen_n sum) +:+ "}".

Definition document (jit_n gen_n : Z) (l : list CallSiteSummary) : string :=
  "{" +:+ fields_text
    (mkField (nl +:+ "  ") "summary" (summary_object jit_n gen_n (counts_of l))
      (JObj (("sites_observed", JNum (sum_total (counts_of l))) ::
        (field_kv <$> count_fields jit_n gen_n (counts_of l)))) "")
    [mkField (nl +:+ "  ") "sites" ("[" +:+ (nl +:+ sites_text l +:+ "  ") +:+ "]") (JArr (site_value <$> l)) nl] +:+ "}".

Lemma json_text_document jit_n gen_n l : json_text jit_n gen_n l (counts_of l) = "" +:+ document jit_n gen_n l +:+ nl.
Proof.
  unfold json_text, document, summary_object, count_fields. generalize (counts_of l). intros sum.
  cbn [fields_text]. unfold field_text. cbn [f_pre f_key f_text f_post]. unfold quoted.
  rewrite !string_app_assoc. reflexivity.
Qed.

Lemma tallies_nonneg {A} `{EqDecision A} (f : CallSiteSummary -> A) vals l : Forall (Z.le 0) (tallies f vals l).
Proof. apply Forall_fmap, Forall_forall. intros v _. apply tally_bound. Qed.

Lemma document_value jit_n gen_n l : 0 <= jit_n -> 0 <= gen_n -> Forall printable l ->
  value (document jit_n gen_n l) (stats_value jit_n gen_n l).
Proof.
  intros Hj Hg Hl. unfold document. refine (fields_object _ [_] _).
  repeat apply Forall_cons_2; [| |constructor]; (split; [done|done|cbn [f_text f_value]|done]); [|by apply sites_array].
  unfold summary_object. refine (fields_object _ (count_fields _ _ _) _). unfold count_fields.
  pose proof (λ P H, proj1 (@tally_bound P H l)) as Ht.
  repeat apply Forall_cons_2; try (apply number_ok; [done|done| |done]); try done; try apply Ht; cbn [counts_of sum_total].
  - lia.
  - split; [done|done|cbn [f_text f_value]|done]. apply counts_object; [by repeat constructor|apply tallies_nonneg].
  - split; [done|done|cbn [f_text f_value]|done]. apply counts_object; [by repeat constructor|apply tallies_nonneg].
Qed.

(** ** Every reachable table is printable *)

Lemma quantile_nonneg p h : Forall (λ m, 0 <= size m) (entries h) -> 0 <= quantile p h.
Proof.
  intros Hh. assert (Hs : Forall (λ m, 0 <= size m) (sorted_modes h CAP)).
  { unfold sorted_modes. rewrite reverse_Permutation. assert (Ht : Forall (λ m, 0 <= size m) (take CAP (entries h))) by by apply Forall_take.
    revert Ht. generalize (take CAP (entries h)) as l. intros l Hl. assert (H0 : Forall (λ m, 0 <= size m) []) by constructor.
    revert H0. generalize (@nil Mode) as acc. induction Hl as [|m l Hm _ IH]; intros acc Ha; [done|].
    cbn [foldl]. apply IH. rewrite shift_insert_perm. by constructor. }
  unfold quantile. destruct (total h =? 0); [done|]. generalize 0 at 2. generalize (trunc (dmul p (of_Z (total h - 1)))). intros t c.
  assert (Hlast : 0 <= match last (sorted_modes h CAP) with None => 0 | Some m => size m end).
  { destruct (last _) as [m|] eqn:E; [|done]. apply last_Some_elem_of in E. by apply (proj1 (Forall_forall _ _) Hs). }
  revert c Hlast. generalize (match last (sorted_modes h CAP) with None => 0 | Some m => size m end). intros d.
  induction Hs as [|m l Hm _ IH]; intros c Hd; [done|]. cbn [quantile_loop]. destruct (_ >? t); [done|]. by apply IH.
Qed.

Lemma printable_ok K s : knobs_ok K -> 0 <= s_id s -> summary_ok K s -> printable s.
Proof.
  intros [_ HW _] Hid [[(H1 & H2 & H3) H4 H5 _ _ _ _ _ Hc H13] _]. split; [done|unfold fits in *; lia|].
  intros p. apply quantile_nonneg. assert (Hh : ∃ l, shown_histogram s = hist_of l ∧ Z.of_nat (length l) < 2 ^ 32 ∧ Forall sized l).
  { unfold shown_histogram. case_bool_decide as Hp.
    - destruct (Hc Hp) as (_ & l & -> & Hl & HF). exists l. split_and!; [done|lia|done].
    - destruct H5 as (l & -> & Hl & HF). exists l. split_and!; [done|lia|done]. }
  destruct Hh as (l & -> & Hl & HF). eapply Forall_impl; [by apply hist_sizes|]. intros m Hm. unfold sized in Hm. cbn in *. lia.
Qed.

(** ** Events to specialize *)

Lemma shift_insert_fce_perm v r : shift_insert_fce v r ≡ₚ v :: r.
Proof. induction r as [|f r IH]; [done|]. cbn [shift_insert_fce]. case_match; [|done]. rewrite IH. apply Permutation_swap. Qed.

Lemma shift_insert_fce_sorted v r :
  StronglySorted (flip Z.le) r -> StronglySorted (flip Z.le) (shift_insert_fce v r).
Proof.
  induction r as [|f r IH]; intros Hr; [by repeat constructor|]. cbn [shift_insert_fce].
  apply StronglySorted_inv in Hr as [Hr Hf]. rewrite Z.gtb_ltb. destruct (Z.ltb_spec v f).
  - constructor; [auto|]. rewrite shift_insert_fce_perm. constructor; [unfold flip; lia|done].
  - constructor; [by constructor|]. constructor; [unfold flip; lia|].
    eapply Forall_impl; [exact Hf|]. unfold flip. intros x. simpl. lia.
Qed.

Lemma sorted_fces_spec l :
  sorted_fces l ≡ₚ filter (λ v, v ≠ 0) (first_compile_events <$> l) ∧ StronglySorted Z.le (sorted_fces l).
Proof.
  unfold sorted_fces. generalize (filter (λ v, v ≠ 0) (first_compile_events <$> l)). intros fs.
  assert (H : ∀ acc, StronglySorted (flip Z.le) acc ->
    foldl (λ r v, shift_insert_fce v r) acc fs ≡ₚ acc ++ fs ∧
    StronglySorted (flip Z.le) (foldl (λ r v, shift_insert_fce v r) acc fs)).
  { induction fs as [|f fs IH]; intros acc Ha; cbn [foldl]; [by rewrite app_nil_r|].
    destruct (IH _ (shift_insert_fce_sorted f acc Ha)) as [Hp Hs]. split; [|done].
    rewrite Hp, shift_insert_fce_perm. apply Permutation_middle. }
  destruct (H []) as [Hp Hs]; [constructor|]. split; [by rewrite reverse_Permutation, Hp|by apply StronglySorted_reverse].
Qed.

Lemma sorted_lookup_le (l : list Z) i j x y :
  StronglySorted Z.le l -> l !! i = Some x -> l !! j = Some y -> (i <= j)%nat -> x <= y.
Proof.
  intros Hs. revert i j. induction Hs as [|z l Hs IH Hz]; intros i j; [done|].
  destruct i as [|i], j as [|j]; simpl; intros Hi Hj Hij; [simplify_eq; lia| |lia|apply (IH i j); [done|done|lia]].
  simplify_eq. rewrite Forall_forall in Hz. apply Hz. by apply list_elem_of_lookup_2 in Hj.
Qed.

(** ** The classes partition the sites *)

Lemma one_class s :
  (if decide (is_compiled s) then 1 else 0) + (if decide (is_blacklisted s) then 1 else 0) +
  (if decide (is_deopt s) then 1 else 0) + (if decide (is_prespec s) then 1 else 0) = 1.
Proof.
  destruct (decide (is_compiled s)), (decide (is_blacklisted s)), (decide (is_deopt s)), (decide (is_prespec s));
    unfold is_compiled, is_blacklisted, is_deopt, is_prespec in *; try (by intuition congruence).
  exfalso. destruct (blacklisted s), (s_phase s); tauto.
Qed.

Lemma tallies_sum_snoc {A} `{EqDecision A} (f : CallSiteSummary -> A) vals l s :
  foldr Z.add 0 (tallies f vals (l ++ [s])) = foldr Z.add 0 (tallies f vals l) +
    (if decide (is_compiled s) then Z.of_nat (length (filter (eq (f s)) vals)) else 0).
Proof.
  unfold tallies. induction vals as [|v vals IH]; [by case_decide|]. cbn [fmap list_fmap foldr].
  rewrite filter_cons, tally_snoc. change (list_fmap _ _ ?g vals) with (g <$> vals). rewrite IH.
  destruct (decide (is_compiled s)) as [Hc|Hc]; [destruct (decide (f s = v)) as [E|E]|].
  - rewrite decide_True by done. cbn [length]. lia.
  - rewrite decide_False by tauto. lia.
  - rewrite decide_False by tauto. lia.
Qed.

Lemma tallies_sum {A} `{EqDecision A} (f : CallSiteSummary -> A) vals l :
  (∀ s, length (filter (eq (f s)) vals) = 1%nat) -> foldr Z.add 0 (tallies f vals l) = tally is_compiled l.
Proof.
  intros Hf. induction l as [|s l IH] using rev_ind.
  - unfold tallies. clear Hf. induction vals as [|v vals IH]; [done|]. exact IH.
  - rewrite tallies_sum_snoc, tally_snoc, IH, Hf. done.
Qed.

(** ** Properties *)

(** C23: the machine-readable statistics are JSON, and say what the analysis knows.
    After any events and resets, under any environment, the text written to the
    file of [TBJIT_DUMP_JSON] is a JSON document, and what a reader gets from it is
    the table: for every site its id, its counters, its quantiles and the names of
    its phase, strategy, lifetime and deopt reason; and in the summary the numbers
    of sites that are compiled, blacklisted, deoptimized and pre-specialized, and
    of compiled sites with each strategy and lifetime. *)
Theorem json_dump_parses {B : Backend} (e : Env) (K0 : Knobs) (ops : list op) (pid : Z)
    (fopened : string -> bool) (jit_n gen_n : Z) (path path' : string) :
  Forall op_wf ops -> (∀ p, 0 <= site_of p) -> 0 <= jit_n -> 0 <= gen_n ->
  TraceFile.resolve_path pid path = Some path' -> fopened path' = true ->
  let l := (run_ops (init e K0) ops []).1 in
  ∃ text, (dump_stats pid fopened jit_n gen_n (Some path) l).2 = Some (path', text) ∧
    parse_json text = Some (stats_value jit_n gen_n l).
Proof.
  intros Hops Hsite Hj Hg Hp Hf l. pose proof (init_knobs e K0) as HK.
  destruct (table_ids _ HK (Z.le 0) ops []) as (Hlen & _ & Hids).
  { eapply Forall_impl; [exact Hops|]. intros [ev|]; [|done]. intros Hev. split; [apply Hev|intros _; apply Hsite]. }
  { split_and!; [done|constructor..]. }
  pose proof (run_ops_ok _ ops HK Hops) as Hok. fold l in Hlen, Hids, Hok.
  assert (Hl : Forall printable l).
  { apply Forall_forall. intros s Hs. rewrite Forall_fmap, !Forall_forall in *. eapply printable_ok; [done|by apply Hids|by apply Hok]. }
  unfold dump_stats, write_json_dump. cbn [mbind option_bind snd]. rewrite Hp. cbn [mbind option_bind]. rewrite Hf.
  eexists. split; [reflexivity|]. rewrite build_summary_counts by (unfold MAX_CALL_SITES in Hlen; lia).
  rewrite json_text_document. apply parse_value_text; [done|by apply document_value|done].
Qed.

(** The classification is a partition.  [build_summary] counts exactly; every
    site is in one of the four classes, and every compiled site in one count of the
    strategies and one of the lifetimes, so that each table adds up to its total. *)
Theorem summary_partition (l : list CallSiteSummary) :
  Z.of_nat (length l) < 2 ^ 64 ->
  let sum := build_summary l in
  sum = counts_of l ∧
  sum_total sum = sum_compiled sum + sum_blacklist sum + sum_deopt sum + sum_prespec sum ∧
  foldr Z.add 0 (by_strategy sum) = sum_compiled sum ∧
  foldr Z.add 0 (by_lifetime sum) = sum_compiled sum.
Proof.
  intros Hl. cbv zeta. rewrite build_summary_counts by done. split; [done|]. clear Hl.
  cbn [counts_of sum_total sum_compiled sum_blacklist sum_deopt sum_prespec by_strategy by_lifetime]. split_and!.
  - induction l as [|s l IH] using rev_ind; [done|]. rewrite !tally_snoc, length_app. cbn [length].
    pose proof (one_class s). lia.
  - apply tallies_sum. intros s. by destruct (candidate s).
  - apply tallies_sum. intros s. by destruct (lifetime s).
Qed.

(** The events-to-specialize line.  For a table of at most 4096 sites (the size
    of the buffer [fces]) the line is printed exactly when a site is compiled; its
    [n] counts the sites that were ever compiled; its [min] and [max] are the least
    and greatest event counts at which they were, and [p50] and [p95] are the order
    statistics at positions n/2 and 95n/100; every position read is below n. *)
Theorem specialize_percentiles (l : list CallSiteSummary) :
  Z.of_nat (length l) <= MAX_CALL_SITES ->
  let fs := filter (λ v, v ≠ 0) (first_compile_events <$> l) in
  let n := Z.of_nat (length fs) in
  let fces := sorted_fces l in
  (events_to_specialize l (build_summary l) = None <-> tally is_compiled l = 0) ∧
  ∀ p, events_to_specialize l (build_summary l) = Some p ->
    fce_n p = n ∧ n <= MAX_CALL_SITES ∧ fces ≡ₚ fs ∧ StronglySorted Z.le fces ∧
    (0 < n -> fces !! Z.to_nat (n / 2) = Some (fce_p50 p) ∧ fces !! Z.to_nat (n * 95 / 100) = Some (fce_p95 p) ∧
      fce_min p ∈ fs ∧ fce_max p ∈ fs ∧ fce_min p <= fce_p50 p <= fce_p95 p ∧ fce_p95 p <= fce_max p ∧
      ∀ v, v ∈ fs -> fce_min p <= v <= fce_max p).
Proof.
  intros Hl fs n fces. destruct (sorted_fces_spec l) as [Hp Hs]. fold fs fces in Hp, Hs.
  assert (Hfl : Z.of_nat (length fces) = n) by (unfold n; by rewrite Hp).
  assert (Hn : 0 <= n <= 4096).
  { unfold n, fs, MAX_CALL_SITES in *. pose proof (length_filter (λ v, v ≠ 0) (first_compile_events <$> l)) as H.
    rewrite length_fmap in H. lia. }
  unfold events_to_specialize. rewrite build_summary_counts by (unfold MAX_CALL_SITES in Hl; lia).
  cbn [counts_of sum_compiled]. pose proof (tally_bound is_compiled l) as Ht. rewrite Z.gtb_ltb. fold fces. rewrite Hfl.
  cbv zeta. destruct (Z.ltb_spec 0 (tally is_compiled l)).
  2:{ split; [|done]. split; [lia|done]. }
  split; [split; [intros H'; discriminate H'|lia]|].
  intros p [= <-]. cbn [fce_n fce_min fce_p50 fce_p95 fce_max]. unfold MAX_CALL_SITES in *.
  split_and!; [done|lia|done|done|]. intros H0. rewrite (proj2 (Z.eqb_neq n 0)) by lia. rewrite u64_small by lia.
  assert (Hat : ∀ i, 0 <= i < n -> fces !! Z.to_nat i = Some (default 0 (fces !! Z.to_nat i))).
  { intros i Hi. destruct (lookup_lt_is_Some_2 fces (Z.to_nat i)) as [x ->]; [lia|done]. }
  assert (Hi : 0 <= n / 2 < n ∧ 0 <= n * 95 / 100 < n ∧ n / 2 <= n * 95 / 100)
    by (clear - H0 Hn; Z.to_euclidean_division_equations; lia).
  destruct Hi as (H50 & H95 & H595).
  pose proof (λ i j Hi Hj Hij, sorted_lookup_le fces (Z.to_nat i) (Z.to_nat j) _ _ Hs (Hat i Hi) (Hat j Hj) Hij) as Hle.
  assert (Hin : ∀ i, 0 <= i < n -> default 0 (fces !! Z.to_nat i) ∈ fs).
  { intros i Hi. rewrite <- Hp. eapply list_elem_of_lookup_2. by apply Hat. }
  split_and!; [apply Hat; lia|apply Hat; lia|apply Hin; lia|apply Hin; lia|apply Hle; lia|apply Hle; lia|apply Hle; lia|].
  intros v Hv. rewrite <- Hp in Hv. apply list_elem_of_lookup_1 in Hv as [i Hi].
  pose proof (lookup_lt_Some _ _ _ Hi) as Hlt. split.
  - apply (sorted_lookup_le fces (Z.to_nat 0) i _ _ Hs (Hat 0 ltac:(lia)) Hi). lia.
  - apply (sorted_lookup_le fces i (Z.to_nat (n - 1)) _ _ Hs Hi (Hat (n - 1) ltac:(lia))). lia.
Qed.

(** A table with a compiled, a blacklisted and a fresh site. *)
Definition shown_ops : list op := small_ops ++ [Event (mkAllocEvent 9 32 0 1 4096)].
Definition shown_table : list CallSiteSummary := (run_ops (B := plain_backend) small_knobs shown_ops []).1.

Definition three_sites : list CallSiteSummary :=
  [set_first_compile_events 40 (set_candidate BumpAlloc (set_s_phase Compiled (summary0 1)));
   set_first_compile_events 20 (set_blacklisted true (summary0 2)); summary0 3].

Lemma json_dump_parses_witness :
  ∃ text, (dump_stats 7 (λ _, true) 3 4 (Some "d%p.json") shown_table).2 = Some ("d7.json", text) ∧
    parse_json text = Some (stats_value 3 4 shown_table).
Proof.
  refine (json_dump_parses (B := plain_backend) (mkEnv None (Some 2) None None false)
    (mkKnobs 0 0 KS_ALPHA_DEFAULT 0 false false Generic) shown_ops 7 (λ _, true) 3 4 "d%p.json" "d7.json" _ _ _ _ _ _);
    [| |lia|lia|reflexivity|reflexivity].
  - repeat constructor; vm_compute; congruence.
  - intros p. vm_compute. congruence.
Defined.

Lemma summary_partition_witness :
  sum_compiled (build_summary three_sites) = 1 ∧ foldr Z.add 0 (by_strategy (build_summary three_sites)) = 1.
Proof.
  destruct (summary_partition three_sites) as (_ & _ & H & _); [vm_compute; reflexivity|].
  split; [vm_compute; reflexivity|]. rewrite H. vm_compute. reflexivity.
Defined.

Lemma specialize_percentiles_witness :
  ∃ p, events_to_specialize three_sites (build_summary three_sites) = Some p ∧ fce_min p = 20 ∧ fce_max p = 40 ∧ fce_n p = 2.
Proof.
  destruct (specialize_percentiles three_sites) as [_ H]; [vm_compute; congruence|].
  destruct (H (mkPercentiles 20 40 40 40 2)) as [E _]; [vm_compute; reflexivity|].
  exists (mkPercentiles 20 40 40 40 2). split_and!; [vm_compute; reflexivity|reflexivity|reflexivity|exact E].
Defined.
