(* ===== verification/DumpText.v ===== *)
(** * The printed statistics ([src/src/analysis/dump.cpp])

    The per-site table and the summary that [dump_stats] prints on stderr,
    character by character: [printf]'s padding, hexadecimal and decimal integers,
    and [%.1f] of the exact value of a double.  The theorem is about the
    percentages: through two roundings in binary64 and one in decimal, what is
    printed is the exact percentage rounded to a tenth. *)

From stdpp Require Import pretty.
From Stdlib Require Import Ascii SpecFloat.
From S2P Require Import Prelude Common Double Histogram Analysis Dump.

#[local] Open Scope Z_scope.

(** ** [printf] *)

Fixpoint spaces (n : nat) : string := match n with O => "" | S n => String.String " " (spaces n) end.

(** [%*s] and [%-*s]. *)
Definition pad_left (w : nat) (s : string) : string := spaces (w - String.length s) +:+ s.
Definition pad_right (w : nat) (s : string) : string := s +:+ spaces (w - String.length s).

(** [%lx]. *)
Definition hex_digit (d : Z) : ascii :=
  ascii_of_nat (Z.to_nat (if d <? 10 then 48 + d else 87 + d)).

Fixpoint hex_go (fuel : nat) (n : Z) (acc : string) : string :=
  match fuel with
  | O => acc
  | S fuel =>
      let acc := String.String (hex_digit (n mod 16)) acc in
      if n <? 16 then acc else hex_go fuel (n / 16) acc
  end.

Definition hex (n : Z) : string := hex_go 16 n "".

(** [m * 2^e] in tenths, rounded to nearest, ties to even. *)
Definition tenths (m e : Z) : Z :=
  if 0 <=? e then 10 * m * 2 ^ e
  else
    let d := 2 ^ (- e) in
    let q := (10 * m) / d in
    let r := (10 * m) mod d in
    if (d <? 2 * r) || ((d =? 2 * r) && Z.odd q) then q + 1 else q.

Definition tenths_text (k : Z) : string := pretty (k / 10) +:+ "." +:+ pretty (k mod 10).

(** [%.1f]. *)
Definition fixed1 (x : double) : string :=
  let sign (s : bool) := if s then "-" else "" in
  match x with
  | S754_zero s => sign s +:+ "0.0"
  | S754_infinity s => sign s +:+ "inf"
  | S754_nan => "nan"
  | S754_finite s m e => sign s +:+ tenths_text (tenths (Zpos m) e)
  end.

(** ** [print_per_site_table] *)

Definition table_header : string :=
  nl +:+ pad_right 18 "CALL SITE" +:+ " " +:+ pad_left 10 "EVENTS" +:+ " " +:+ pad_left 6 "P50" +:+ " "
  +:+ pad_left 6 "P95" +:+ " " +:+ pad_left 6 "P99" +:+ "  " +:+ pad_left 10 "JIT@EVENTS" +:+ "  "
  +:+ pad_right 12 "PHASE" +:+ "  " +:+ "STRATEGY" +:+ nl
  +:+ pad_right 18 "----------" +:+ " " +:+ pad_left 10 "------" +:+ " " +:+ pad_left 6 "---" +:+ " "
  +:+ pad_left 6 "---" +:+ " " +:+ pad_left 6 "---" +:+ "  " +:+ pad_left 10 "----------" +:+ "  "
  +:+ pad_right 12 "-----" +:+ "  " +:+ "--------" +:+ nl.

(** [snprintf] into 16 bytes, the last for the terminator. *)
Definition first_compile (s : CallSiteSummary) : string :=
  if first_compile_events s =? 0 then "-" else String.substring 0 15 (pretty (first_compile_events s)).

Definition table_row (s : CallSiteSummary) : string :=
  let h := shown_histogram s in
  "0x" +:+ pad_right 16 (hex (s_id s)) +:+ " " +:+ pad_left 10 (pretty (event_count s)) +:+ " "
  +:+ pad_left 6 (pretty (quantile (literal 50 100) h)) +:+ " "
  +:+ pad_left 6 (pretty (quantile (literal 95 100) h)) +:+ " "
  +:+ pad_left 6 (pretty (quantile (literal 99 100) h)) +:+ "  "
  +:+ pad_left 10 (first_compile s) +:+ "  "
  +:+ pad_right 12 (phase_name (s_phase s) (blacklisted s)) +:+ "  "
  +:+ strategy_name (candidate s) +:+ nl.

Definition print_per_site_table (g_summaries : list CallSiteSummary) : string :=
  table_header +:+ foldr (λ s t, table_row s +:+ t) "" g_summaries.

(** ** [print_summary] *)

(** The lambdas [pct] and [pct_of_compiled], and [jit_pct]. *)
Definition percent (n total : Z) : double :=
  if total =? 0 then dzero else ddiv (dmul (of_Z 100) (of_Z n)) (of_Z total).

Definition counted (n total : Z) : string := pretty n +:+ " (" +:+ fixed1 (percent n total) +:+ "%)" +:+ nl.

(** The two distributions' loops. *)
Fixpoint distribution (names : list string) (counts : list Z) (compiled : Z) : string :=
  match names, counts with
  | name :: names, c :: counts =>
      (if c =? 0 then "" else "  " +:+ pad_right 20 name +:+ " " +:+ counted c compiled)
      +:+ distribution names counts compiled
  | _, _ => ""
  end.

Definition specialize_line (p : option Percentiles) : string :=
  match p with
  | None => ""
  | Some p =>
      "Events-to-specialize: min=" +:+ pretty (fce_min p) +:+ "  p50=" +:+ pretty (fce_p50 p)
      +:+ "  p95=" +:+ pretty (fce_p95 p) +:+ "  max=" +:+ pretty (fce_max p)
      +:+ "  (n=" +:+ pretty (fce_n p) +:+ ")" +:+ nl
  end.

Definition print_summary (jit_n gen_n : Z) (l : list CallSiteSummary) (sum : Summary) : string :=
  let tot := u64 (jit_n + gen_n) in
  nl +:+ "jit_allocs:     " +:+ pretty jit_n +:+ nl
  +:+ "generic_allocs: " +:+ pretty gen_n +:+ nl
  +:+ nl +:+ "=== Summary ===" +:+ nl
  +:+ "Sites observed:      " +:+ pretty (sum_total sum) +:+ nl
  +:+ "  Compiled:          " +:+ counted (sum_compiled sum) (sum_total sum)
  +:+ "  Blacklisted:       " +:+ counted (sum_blacklist sum) (sum_total sum)
  +:+ "  Deopt:             " +:+ counted (sum_deopt sum) (sum_total sum)
  +:+ "  PreSpec:           " +:+ counted (sum_prespec sum) (sum_total sum)
  +:+ "Total events:        " +:+ pretty tot +:+ " (" +:+ fixed1 (percent jit_n tot) +:+ "% via JIT)" +:+ nl
  +:+ specialize_line (events_to_specialize l sum)
  +:+ nl +:+ "=== Strategy distribution (compiled sites) ===" +:+ nl
  +:+ distribution (strategy_name <$> strategies) (by_strategy sum) (sum_compiled sum)
  +:+ nl +:+ "=== Lifetime distribution (compiled sites) ===" +:+ nl
  +:+ distribution (lifetime_name <$> lifetimes) (by_lifetime sum) (sum_compiled sum).

(** [dump_stats]: what goes to stderr, and the file. *)
Definition dump_text (jit_n gen_n : Z) (l : list CallSiteSummary) : string :=
  print_per_site_table l +:+ print_summary jit_n gen_n l (build_summary l).

(** ** The percentages *)

Lemma tenths_spec m e :
  0 < m -> -1200 <= e -> 2 * Z.abs (tenths m e * ONE - 10 * (m * 2 ^ (e + 1200))) <= ONE.
Proof.
  intros Hm He. unfold tenths. destruct (Z.leb_spec 0 e) as [H0 | H0].
  - rewrite Z.pow_add_r by lia. fold ONE. assert (0 < ONE) by done.
    replace (10 * m * 2 ^ e * ONE - 10 * (m * (2 ^ e * ONE))) with 0 by ring. simpl. lia.
  - assert (EO : ONE = 2 ^ (- e) * 2 ^ (e + 1200)).
    { unfold ONE. rewrite <- Z.pow_add_r by lia. f_equal. lia. }
    rewrite EO. clear EO. assert (0 < 2 ^ (- e)) by (apply Z.pow_pos_nonneg; lia).
    assert (0 < 2 ^ (e + 1200)) by (apply Z.pow_pos_nonneg; lia).
    set (d := 2 ^ (- e)) in *. set (u := 2 ^ (e + 1200)) in *. clearbody d u.
    pose proof (Z.div_mod (10 * m) d ltac:(lia)) as Hdm. pose proof (Z.mod_pos_bound (10 * m) d ltac:(lia)) as Hr.
    set (q := 10 * m / d) in *. set (r := (10 * m) mod d) in *. clearbody q r.
    assert (Hlift : ∀ k, 2 * Z.abs (k * d - 10 * m) <= d -> 2 * Z.abs (k * (d * u) - 10 * (m * u)) <= d * u).
    { intros k Hk. replace (k * (d * u) - 10 * (m * u)) with ((k * d - 10 * m) * u) by ring.
      rewrite Z.abs_mul, (Z.abs_eq u) by lia. nia. }
    apply Hlift. destruct (Z.ltb_spec d (2 * r)); cbn [orb]; [lia|].
    destruct (Z.eqb_spec d (2 * r)), (Z.odd q); cbn [andb]; lia.
Qed.

Lemma close_cancel b a x c : 0 < c -> close b (a * c) (x * c) -> close b a x.
Proof. unfold close. intros Hc. rewrite <- Z.mul_sub_distr_r, Z.abs_mul, (Z.abs_eq c) by lia. nia. Qed.

(** The double printed, within two roundings of the exact percentage. *)
Lemma percent_close n total :
  0 < n <= total -> total < 2 ^ 53 ->
  ∃ m e, percent n total = S754_finite false m e ∧ -1200 <= e ∧
    Z.abs (Zpos m * 2 ^ (e + 1200) * total - 100 * n * ONE) * 2 ^ 50 <= 100 * n * ONE.
Proof.
  intros Hn Ht. unfold percent. rewrite (proj2 (Z.eqb_neq _ _)) by lia.
  destruct (scaled_of_Z 100 ltac:(lia)) as [E1 (k1 & H1 & B1)].
  destruct (scaled_of_Z n ltac:(lia)) as [E2 (k2 & H2 & B2)].
  destruct (scaled_of_Z total ltac:(lia)) as [E3 (k3 & H3 & B3)].
  pose proof (dmul_scaled _ _ _ _ H1 H2 ltac:(lia) ltac:(lia)) as HP. rewrite E1, E2 in HP.
  destruct (dmul_normal _ _ _ _ H1 H2 ltac:(lia) ltac:(lia)) as (k4 & H4 & B4).
  pose proof (ddiv_scaled _ _ _ _ H4 H3 ltac:(lia) ltac:(lia)) as HX. rewrite E3 in HX.
  destruct (ddiv_normal _ _ _ _ H4 H3 ltac:(lia) ltac:(lia)) as (k5 & (m & Em & _) & B5).
  set (P := scaled (dmul (of_Z 100) (of_Z n))) in *. clearbody P. rewrite Em in HX |- *.
  exists m, (k5 - 53). split; [done|]. split; [lia|]. cbn [scaled] in HX.
  set (X := Zpos m * 2 ^ (k5 - 53 + 1200)) in *. clearbody X.
  assert (HO : 0 < ONE) by done.
  replace (100 * ONE * (n * ONE)) with (100 * n * ONE * ONE) in HP by ring.
  apply close_cancel in HP; [|done]. rewrite Z.mul_assoc in HX. apply close_cancel in HX; [|done].
  unfold close in *. set (A := 100 * n * ONE) in *. assert (0 < A) by (unfold A; nia). clearbody A.
  change (2 ^ 52) with (4 * 2 ^ 50) in HP. change (2 ^ 51) with (2 * 2 ^ 50) in HX.
  assert (HQ : 0 < 2 ^ 50) by done. assert (HQ' : 2 <= 2 ^ 50) by done. set (Q := 2 ^ 50) in *. clearbody Q. nia.
Qed.

(** C33: the percentages of the summary are exact to the digit printed: below 2^39
    sites or events, the text of [n] out of [total] is a number of tenths [k] that
    no other number of tenths is closer to the exact percentage than. *)
Theorem percentages_rounded n total :
  0 <= n <= total -> 0 < total < 2 ^ 39 ->
  ∃ k, fixed1 (percent n total) = tenths_text k ∧ 0 <= k <= 1000 ∧
    2 * Z.abs (k * total - 1000 * n) <= total.
Proof.
  intros Hn Ht. destruct (Z.eq_dec n 0) as [-> | Hn0].
  { exists 0. split; [|split; [lia|simpl; lia]]. unfold percent. rewrite (proj2 (Z.eqb_neq _ _)) by lia.
    destruct (of_Z_exact total ltac:(pow2; lia)) as (m & -> & _). reflexivity. }
  destruct (percent_close n total ltac:(lia) ltac:(pow2; lia)) as (m & e & E & He & Hc). rewrite E.
  cbn [fixed1]. exists (tenths (Zpos m) e). split; [done|].
  pose proof (tenths_spec (Zpos m) e ltac:(lia) He) as Hk.
  set (k := tenths _ _) in *. clearbody k. set (X := Zpos m * 2 ^ (e + 1200)) in *. clearbody X. clear E He.
  assert (HO : 0 < ONE) by done.
  assert (Hround : 2 * Z.abs (k * total - 1000 * n) <= total).
  { (* |k total - 1000 n| ONE <= |k ONE - 10 X| total + 10 |X total - 100 n ONE| *)
    assert (H1 : Z.abs (k * total - 1000 * n) * ONE <=
      Z.abs (k * ONE - 10 * X) * total + 10 * Z.abs (X * total - 100 * n * ONE)).
    { rewrite <- (Z.abs_eq ONE) at 1 by lia. rewrite <- Z.abs_mul.
      replace ((k * total - 1000 * n) * ONE) with ((k * ONE - 10 * X) * total + 10 * (X * total - 100 * n * ONE)) by ring.
      etrans; [apply Z.abs_triangle|]. rewrite !Z.abs_mul, (Z.abs_eq total), (Z.abs_eq 10) by lia. lia. }
    assert (H2 : 20 * Z.abs (X * total - 100 * n * ONE) < ONE).
    { assert (100 * n * 20 < 2 ^ 50) by (change (2 ^ 39) with 549755813888 in Ht; change (2 ^ 50) with 1125899906842624; lia).
      set (Q := 2 ^ 50) in *. assert (0 < Q) by done. clearbody Q. nia. }
    assert (2 * Z.abs (k * total - 1000 * n) * ONE < (total + 1) * ONE) by nia. nia. }
  split; [|exact Hround]. nia.
Qed.

(** One of three compiled sites; seven of eight. *)
Lemma percentages_rounded_witness :
  fixed1 (percent 1 3) = "33.3" ∧ fixed1 (percent 7 8) = "87.5" ∧
  ∃ k, fixed1 (percent 2 3) = tenths_text k ∧ 2 * Z.abs (k * 3 - 1000 * 2) <= 3.
Proof.
  split; [vm_compute; reflexivity|]. split; [vm_compute; reflexivity|].
  destruct (percentages_rounded 2 3) as (k & E & _ & H); [lia | lia |].
  exists k. split; [exact E | exact H].
Defined.
