(* ===== verification/Trampoline.v ===== *)
(** * The interposed [malloc], [free] and [realloc] ([src/src/trace/trampoline.cpp])

    Every call of the process goes through these three functions.  They route it
    to libc, to a compiled routine or to the segment heap, according to the stage
    of the process (before the constructor, running, after the destructor), the
    thread's guard, the dispatch table and the pagemap.  The two heaps behind them
    are the interface [Heaps]; [HeapLaws] is what they promise, and
    [TrampolineHeap] implements it.  The dispatch table, the inline cache, the safe
    points and the deopt queue are those of [Deopt]. *)

From S2P Require Import Prelude Common.
From S2P Require Ring Deopt.

(** ** What the trampoline calls *)

(** How a compiled routine ends (see [Jit]): with a block; in [g_real_malloc]; or
    in [deopt::handle], with the arguments baked into its code, and then in
    [g_real_malloc]. *)
Inductive routine_result :=
  | Serves (p : ptr)
  | Defers
  | Deopts (id : CallSiteID) (page : ptr) (reason : DeoptReason).

(** libc's functions, the compiled code, and the segment heap: [managed p] is
    [is_managed(of(p))], the two accessors read the header of [of(p)].  A function
    given a pointer that is not its own may trap. *)
Class Heaps (W : Type) := {
  real_malloc : Z -> W -> ptr * W;
  real_free : ptr -> W -> res W;
  real_realloc : ptr -> Z -> W -> res (ptr * W);
  run_routine : Z -> ptr -> Z -> W -> res (routine_result * W);
  managed : ptr -> W -> bool;
  chunk_size_of : ptr -> W -> Z;
  segment_end_of : ptr -> W -> ptr;
  free_managed : Z -> ptr -> W -> res W;
}.

Inductive symbol := SymMalloc | SymFree | SymRealloc.

(** The caller: its thread, the return address and the time stamp counter. *)
Record caller := mkCaller { c_tid : Z; c_ra : Z; c_tsc : Z }.

Definition BOOTSTRAP_SIZE : Z := 64 * 1024.

(** ** State *)

Record process (D W : Type) := mkProcess {
  g_initialized : bool;
  g_shutting_down : bool;
  g_real_malloc : bool;       (** the symbols [dlsym] found *)
  g_real_free : bool;
  g_real_realloc : bool;
  g_bootstrap_used : Z;
  g_jit_allocs : Z;
  g_generic_allocs : Z;
  guards : gmap Z bool;       (** [reentrancy_guard] by thread *)
  rings : gmap Z Ring.RingBuffer;
  deopt : Deopt.state D;
  world : W;
  copies : list (ptr * ptr * Z);  (** the [memcpy] calls, newest first *)
}.
Arguments mkProcess {D W} _ _ _ _ _ _ _ _ _ _ _ _ _.
Arguments g_initialized {D W} _.
Arguments g_shutting_down {D W} _.
Arguments g_real_malloc {D W} _.
Arguments g_real_free {D W} _.
Arguments g_real_realloc {D W} _.
Arguments g_bootstrap_used {D W} _.
Arguments g_jit_allocs {D W} _.
Arguments g_generic_allocs {D W} _.
Arguments guards {D W} _.
Arguments rings {D W} _.
Arguments deopt {D W} _.
Arguments world {D W} _.
Arguments copies {D W} _.

(** The fallible state monad of the three functions. *)
Definition M (D W A : Type) : Type := process D W -> res (A * process D W).
#[export] Instance M_ret D W : MRet (M D W) := λ _ a s, Ok (a, s).
#[export] Instance M_bind D W : MBind (M D W) := λ _ _ f m s, '(a, s) ← m s; f a s.

Section Trampoline.
Context {D W : Type} `{Deopt.RoutineTable D} `{Heaps W}.
(** The address of the bootstrap buffer; what [dlsym] allocates while it looks a
    symbol up and whether it finds it; the return addresses of the calls that
    [realloc] itself makes. *)
Context (g_bootstrap : Z) (dlsym : symbol -> list Z * bool) (realloc_ra : Z).

Abbreviation proc := (process D W).
Abbreviation comp := (M D W).

Definition gets {A} (f : proc -> A) : comp A := λ s, Ok (f s, s).
Definition modify (f : proc -> proc) : comp unit := λ s, Ok (tt, f s).

Definition set_symbol (x : symbol) (b : bool) (s : proc) : proc :=
  match x with
  | SymMalloc => mkProcess (g_initialized s) (g_shutting_down s) b (g_real_free s) (g_real_realloc s)
    (g_bootstrap_used s) (g_jit_allocs s) (g_generic_allocs s) (guards s) (rings s)
    (deopt s) (world s) (copies s)
  | SymFree => mkProcess (g_initialized s) (g_shutting_down s) (g_real_malloc s) b (g_real_realloc s)
    (g_bootstrap_used s) (g_jit_allocs s) (g_generic_allocs s) (guards s) (rings s)
    (deopt s) (world s) (copies s)
  | SymRealloc => mkProcess (g_initialized s) (g_shutting_down s) (g_real_malloc s) (g_real_free s) b
    (g_bootstrap_used s) (g_jit_allocs s) (g_generic_allocs s) (guards s) (rings s)
    (deopt s) (world s) (copies s)
  end.
Definition has_symbol (x : symbol) (s : proc) : bool :=
  match x with SymMalloc => g_real_malloc s | SymFree => g_real_free s | SymRealloc => g_real_realloc s end.
Definition set_stage (init down : bool) (s : proc) : proc :=
  mkProcess init down (g_real_malloc s) (g_real_free s) (g_real_realloc s)
    (g_bootstrap_used s) (g_jit_allocs s) (g_generic_allocs s) (guards s) (rings s)
    (deopt s) (world s) (copies s).
Definition set_used (u : Z) (s : proc) : proc :=
  mkProcess (g_initialized s) (g_shutting_down s) (g_real_malloc s) (g_real_free s)
    (g_real_realloc s) u (g_jit_allocs s) (g_generic_allocs s) (guards s) (rings s)
    (deopt s) (world s) (copies s).
Definition set_counts (jit generic : Z) (s : proc) : proc :=
  mkProcess (g_initialized s) (g_shutting_down s) (g_real_malloc s) (g_real_free s)
    (g_real_realloc s) (g_bootstrap_used s) jit generic (guards s) (rings s) (deopt s)
    (world s) (copies s).
Definition set_guard (t : Z) (b : bool) (s : proc) : proc :=
  mkProcess (g_initialized s) (g_shutting_down s) (g_real_malloc s) (g_real_free s)
    (g_real_realloc s) (g_bootstrap_used s) (g_jit_allocs s) (g_generic_allocs s)
    (<[t := b]> (guards s)) (rings s) (deopt s) (world s) (copies s).
Definition set_ring (t : Z) (rb : Ring.RingBuffer) (s : proc) : proc :=
  mkProcess (g_initialized s) (g_shutting_down s) (g_real_malloc s) (g_real_free s)
    (g_real_realloc s) (g_bootstrap_used s) (g_jit_allocs s) (g_generic_allocs s) (guards s)
    (<[t := rb]> (rings s)) (deopt s) (world s) (copies s).
Definition set_deopt (d : Deopt.state D) (s : proc) : proc :=
  mkProcess (g_initialized s) (g_shutting_down s) (g_real_malloc s) (g_real_free s)
    (g_real_realloc s) (g_bootstrap_used s) (g_jit_allocs s) (g_generic_allocs s) (guards s)
    (rings s) d (world s) (copies s).
Definition set_world (w : W) (s : proc) : proc :=
  mkProcess (g_initialized s) (g_shutting_down s) (g_real_malloc s) (g_real_free s)
    (g_real_realloc s) (g_bootstrap_used s) (g_jit_allocs s) (g_generic_allocs s) (guards s)
    (rings s) (deopt s) w (copies s).
Definition add_copy (c : ptr * ptr * Z) (s : proc) : proc :=
  mkProcess (g_initialized s) (g_shutting_down s) (g_real_malloc s) (g_real_free s)
    (g_real_realloc s) (g_bootstrap_used s) (g_jit_allocs s) (g_generic_allocs s) (guards s)
    (rings s) (deopt s) (world s) (c :: copies s).

Definition reentrancy_guard (t : Z) (s : proc) : bool := arr false (guards s) t.

(** An operation of the heaps. *)
Definition call {A} (f : W -> res (A * W)) : comp A :=
  λ s, '(a, w) ← f (world s); Ok (a, set_world w s).
Definition call_ (f : W -> res W) : comp unit := λ s, w ← f (world s); Ok (tt, set_world w s).

(** Calls through the resolved pointers; a null one crashes. *)
Definition call_real_malloc (size : Z) : comp ptr :=
  λ s, if g_real_malloc s then call (λ w, Ok (real_malloc size w)) s else Trap NullDeref.
Definition call_real_free (p : ptr) : comp unit :=
  λ s, if g_real_free s then call_ (real_free p) s else Trap NullDeref.
Definition call_real_realloc (p : ptr) (size : Z) : comp ptr :=
  λ s, if g_real_realloc s then call (real_realloc p size) s else Trap NullDeref.

(** ** Before the constructor *)

Definition bootstrap_alloc (size : Z) : comp ptr := λ s,
  let aligned := Z.land (u64 (size + 15)) (Z.lnot 15) in
  let off := g_bootstrap_used s in
  let s := set_used (u64 (off + aligned)) s in
  Ok (if u64 (off + aligned) >? BOOTSTRAP_SIZE then 0 else g_bootstrap + off, s).

Definition is_bootstrap (p : ptr) : bool :=
  (g_bootstrap <=? p) && (p <? g_bootstrap + BOOTSTRAP_SIZE).

Definition serve_early (size : Z) : comp ptr := λ s,
  if g_real_malloc s then call_real_malloc size s else bootstrap_alloc size s.

(** The allocations [dlsym] makes come back to [malloc] with the guard set. *)
Fixpoint nested (sizes : list Z) : comp unit :=
  match sizes with
  | [] => mret tt
  | n :: sizes => serve_early n ≫= λ _, nested sizes
  end.

Definition resolve_one (x : symbol) : comp unit := λ s,
  if has_symbol x s then Ok (tt, s)
  else (nested (dlsym x).1 ≫= λ _, modify (set_symbol x (dlsym x).2)) s.

Definition resolve_real_allocators (t : Z) : comp unit := λ s,
  if reentrancy_guard t s then Ok (tt, s)
  else
    (modify (set_guard t true) ≫= λ _,
     resolve_one SymMalloc ≫= λ _,
     resolve_one SymFree ≫= λ _,
     resolve_one SymRealloc ≫= λ _,
     modify (set_guard t false)) s.

(** [if (!g_real_x) resolve_real_allocators();] *)
Definition resolve_if_missing (x : symbol) (t : Z) : comp unit := λ s,
  if has_symbol x s then Ok (tt, s) else resolve_real_allocators t s.

(** ** Dispatch *)

(** The sampled safe point. *)
Definition sample_safe_point (t : Z) (d : Deopt.state D) : Deopt.state D :=
  let th := Deopt.thr t d in
  let c := u32 (Deopt.tl_safe_point_counter th + 1) in
  let d := Deopt.set_thr t (Deopt.mkThread c (Deopt.tl_ic_id th) (Deopt.tl_ic_fn th) (Deopt.tl_ic_gen th)
             (Deopt.doing th)) d in
  if Z.land c 31 =? 0 then Deopt.mark_safe_point t d else d.

(** The routine, through the thread's inline cache. *)
Definition cached_lookup (t : Z) (id : CallSiteID) (d : Deopt.state D) : ptr * Deopt.state D :=
  let th := Deopt.thr t d in
  let cur_gen := Deopt.rt_generation (Deopt.table d) in
  if (id =? Deopt.tl_ic_id th) && (cur_gen =? Deopt.tl_ic_gen th) then (Deopt.tl_ic_fn th, d)
  else
    let fn := Deopt.rt_lookup id (Deopt.table d) in
    (fn, Deopt.set_thr t (Deopt.mkThread (Deopt.tl_safe_point_counter th) id fn cur_gen (Deopt.doing th)) d).

Definition on_deopt (f : Deopt.state D -> Deopt.state D) : comp unit :=
  modify (λ s, set_deopt (f (deopt s)) s).

Definition find_routine (t : Z) (id : CallSiteID) : comp ptr := λ s,
  let '(fn, d) := cached_lookup t id (deopt s) in Ok (fn, set_deopt d s).

(** [fn(size)]. *)
Definition call_routine (t : Z) (fn : ptr) (size : Z) : comp ptr :=
  r ← call (run_routine t fn size);
  match r with
  | Serves p => mret p
  | Defers => call_real_malloc size
  | Deopts id page reason =>
      on_deopt (Deopt.handle true id page reason) ≫= λ _, call_real_malloc size
  end.

(** [trace::record_alloc] and [record_free]. *)
Definition record_event (t : Z) (ev : AllocEvent) : comp unit :=
  modify (λ s, set_ring t (Ring.push ev (arr Ring.ring0 (rings s) t)).2 s).

(** ** The three functions *)

(** [malloc] past its early returns, with the guard taken. *)
Definition instrumented_malloc (c : caller) (size : Z) : comp ptr :=
  let t := c_tid c in
  on_deopt (sample_safe_point t) ≫= λ _,
  let id := hash_return_addr (c_ra c) in
  fn ← find_routine t id;
  if negb (fn =? 0) then
    modify (λ s, set_counts (u64 (g_jit_allocs s + 1)) (g_generic_allocs s) s) ≫= λ _,
    call_routine t fn size
  else
    modify (λ s, set_counts (g_jit_allocs s) (u64 (g_generic_allocs s + 1)) s) ≫= λ _,
    p ← call_real_malloc size;
    record_event t (Ring.alloc_event id size p (c_tsc c) t) ≫= λ _, mret p.

Definition malloc (c : caller) (size : Z) : comp ptr := λ s,
  let t := c_tid c in
  if negb (g_initialized s) then
    (resolve_if_missing SymMalloc t ≫= λ _, serve_early size) s
  else if g_shutting_down s then call_real_malloc size s
  else if reentrancy_guard t s then call_real_malloc size s
  else
    (modify (set_guard t true) ≫= λ _,
     p ← instrumented_malloc c size;
     modify (set_guard t false) ≫= λ _, mret p) s.

(** The routing of a non-null pointer. *)
Definition release (t : Z) (p : ptr) : comp unit := λ s,
  if managed p (world s) then call_ (free_managed t p) s else call_real_free p s.

(** [if (real_free) real_free(ptr);] *)
Definition free_if_resolved (p : ptr) : comp unit := λ s,
  if g_real_free s then call_real_free p s else Ok (tt, s).

Definition free (c : caller) (p : ptr) : comp unit := λ s,
  let t := c_tid c in
  if is_bootstrap p then Ok (tt, s)
  else if negb (g_initialized s) then
    (resolve_if_missing SymFree t ≫= λ _, free_if_resolved p) s
  else if g_shutting_down s then
    if negb (p =? 0) && managed p (world s) then Ok (tt, s) else call_real_free p s
  else if reentrancy_guard t s || negb (g_real_free s) then
    free_if_resolved p s
  else
    (modify (set_guard t true) ≫= λ _,
     record_event t (Ring.free_event (hash_return_addr (c_ra c)) p (c_tsc c) t) ≫= λ _,
     (if p =? 0 then mret tt else release t p) ≫= λ _,
     modify (set_guard t false)) s.

(** The bytes a managed block may hold. *)
Definition capacity (p : ptr) (w : W) : Z :=
  if chunk_size_of p w >? 0 then chunk_size_of p w else u64 (segment_end_of p w - p).

Definition copy_if (out p n : Z) : comp unit :=
  if out =? 0 then mret tt else modify (add_copy (out, p, n)).

Definition early_realloc (p size : Z) : comp ptr := λ s,
  if g_real_realloc s then call_real_realloc p size s
  else if negb (p =? 0) then Ok (p, s) else bootstrap_alloc size s.

Definition realloc (c : caller) (p : ptr) (size : Z) : comp ptr := λ s,
  let t := c_tid c in
  let c' := mkCaller t realloc_ra (c_tsc c) in
  if is_bootstrap p then
    (out ← malloc c' size;
     let avail := g_bootstrap + BOOTSTRAP_SIZE - p in
     copy_if out p (if size <? avail then size else avail) ≫= λ _, mret out) s
  else if negb (g_initialized s) then
    (resolve_if_missing SymRealloc t ≫= λ _, early_realloc p size) s
  else if g_shutting_down s then call_real_realloc p size s
  else if reentrancy_guard t s then call_real_realloc p size s
  else if p =? 0 then malloc c' size s
  else if managed p (world s) then
    if size =? 0 then (free c' p ≫= λ _, mret 0) s
    else
      let cap := capacity p (world s) in
      let n := if size <? cap then size else cap in
      (out ← malloc c' size;
       copy_if out p n ≫= λ _, free c' p ≫= λ _, mret out) s
  else call_real_realloc p size s.

(** ** The life of the process *)

(** The constructor's part that the three functions see, and the destructor's; the
    dispatch table and the deopt state are untouched until then. *)
Definition tbjit_init (t : Z) : comp unit :=
  resolve_real_allocators t ≫= λ _,
  on_deopt (λ _, Deopt.init) ≫= λ _,
  modify (λ s, set_stage true (g_shutting_down s) s).

Definition tbjit_fini : comp unit := modify (λ s, set_stage (g_initialized s) true s).

Definition process0 (w : W) : proc :=
  mkProcess false false false false false 0 0 0 ∅ ∅ Deopt.init w [].

End Trampoline.
