(* ===== verification/Routing.v ===== *)
(** * Who owns a pointer ([src/src/trace/trampoline.cpp])

    Whatever the program asks for, in every stage of the process, a block goes back
    to the allocator it came from.  The theorems are about any two heaps that keep
    the promises [HeapLaws].  The repository's segment heap keeps them when no slot is
    compiled for an arena or for [ProducerConsumer], beside any libc that does what is
    documented of it: [TrampolineHeap], with the theorem about those heaps. *)

From S2P Require Import Prelude Common Trampoline.
From S2P Require Ring Deopt.

(** What libc and the segment heap promise, in terms of their live blocks: a fresh
    block is not a live one; the pagemap tells the two heaps apart; neither hands
    out the bootstrap buffer; the only fault is a routine's failing [assert] that
    a segment was mapped.  [realloc] of size 0 frees, and fails otherwise only
    leaving the block alone. *)
Class HeapLaws (W : Type) `{Heaps W} (g_bootstrap : Z) := {
  heap_ok : W -> Prop;
  libc_live : W -> gset ptr;
  seg_live : W -> gset ptr;
  libc_block w p : heap_ok w -> p ∈ libc_live w ->
    p ≠ 0 ∧ managed p w = false ∧ is_bootstrap g_bootstrap p = false;
  seg_block w p : heap_ok w -> p ∈ seg_live w ->
    p ≠ 0 ∧ managed p w = true ∧ is_bootstrap g_bootstrap p = false;
  malloc_law w n : heap_ok w ->
    let '(p, w') := real_malloc n w in
    heap_ok w' ∧ seg_live w' = seg_live w ∧
    (p = 0 ∧ libc_live w' = libc_live w ∨ p ∉ libc_live w ∧ libc_live w' = {[p]} ∪ libc_live w);
  null_law w : heap_ok w -> managed 0 w = false ∧ real_free 0 w = Ok w;
  free_law w p : heap_ok w -> p ∈ libc_live w ->
    ∃ w', real_free p w = Ok w' ∧ heap_ok w' ∧ seg_live w' = seg_live w ∧
      libc_live w' = libc_live w ∖ {[p]};
  realloc_law w p n : heap_ok w -> p = 0 ∨ p ∈ libc_live w ->
    ∃ q w', real_realloc p n w = Ok (q, w') ∧ heap_ok w' ∧ seg_live w' = seg_live w ∧
      (q = 0 ∧ libc_live w' = (if n =? 0 then libc_live w ∖ {[p]} else libc_live w) ∨
       q ∉ libc_live w ∖ {[p]} ∧ libc_live w' = {[q]} ∪ (libc_live w ∖ {[p]}));
  routine_law w t fn n : heap_ok w ->
    match run_routine t fn n w with
    | Ok (Serves p, w') => heap_ok w' ∧ libc_live w' = libc_live w ∧ p ∉ seg_live w ∧
                           seg_live w' = {[p]} ∪ seg_live w
    | Ok (_, w') => heap_ok w' ∧ libc_live w' = libc_live w ∧ seg_live w' = seg_live w
    | Trap e => e = AssertFailed
    end;
  managed_law w t p : heap_ok w -> p ∈ seg_live w ->
    ∃ w', free_managed t p w = Ok w' ∧ heap_ok w' ∧ libc_live w' = libc_live w ∧
      seg_live w' = seg_live w ∖ {[p]};
}.

Section Routing.
Context {D W : Type} `{Deopt.RoutineTable D} `{!Heaps W}.
Context (g_bootstrap : Z) (dlsym : symbol -> list Z * bool) (realloc_ra : Z).
Context `{!HeapLaws W g_bootstrap}.
(** The three functions are in libc. *)
Context (dlsym_finds : ∀ x, (dlsym x).2 = true).

Abbreviation proc := (process D W).
Abbreviation comp := (M D W).
Abbreviation malloc := (Trampoline.malloc g_bootstrap dlsym).
Abbreviation free := (Trampoline.free g_bootstrap dlsym).
Abbreviation realloc := (Trampoline.realloc g_bootstrap dlsym realloc_ra).

(** ** Weakest preconditions *)

(** [m] returns, and then [Q]; unless a segment could not be mapped. *)
Definition runs {A} (m : comp A) (s : proc) (Q : A -> proc -> Prop) : Prop :=
  match m s with Ok (a, s') => Q a s' | Trap e => e = AssertFailed end.

Lemma runs_bind {A B} (m : comp A) (f : A -> comp B) s Q :
  runs m s (λ a s', runs (f a) s' Q) -> runs (m ≫= f) s Q.
Proof. unfold runs, mbind, M_bind. destruct (m s) as [[a s']|]; done. Qed.

Lemma runs_ret {A} (a : A) s (Q : A -> proc -> Prop) : Q a s -> runs (mret a) s Q.
Proof. done. Qed.

Lemma runs_modify f s (Q : unit -> proc -> Prop) : Q tt (f s) -> runs (modify f) s Q.
Proof. done. Qed.

Lemma runs_mono {A} (m : comp A) s (P Q : A -> proc -> Prop) :
  runs m s P -> (∀ a s', P a s' -> Q a s') -> runs m s Q.
Proof. unfold runs. destruct (m s) as [[a s']|]; auto. Qed.

(** ** Ownership *)

(** The program's blocks are live in one of the heaps; the symbols are resolved
    once the constructor ran, and no segment exists before. *)
Record owns (U : gset ptr) (s : proc) : Prop := {
  o_ok : heap_ok (world s);
  o_blocks p : p ∈ U -> p ∈ libc_live (world s) ∨ p ∈ seg_live (world s);
  o_ready x : g_initialized s = true -> has_symbol x s = true;
  o_early : g_initialized s = false -> seg_live (world s) = ∅;
}.

(** What the operations leave alone. *)
Definition frame (s s' : proc) : Prop :=
  g_initialized s' = g_initialized s ∧ g_shutting_down s' = g_shutting_down s ∧
  guards s' = guards s ∧ ∀ x, has_symbol x s' = has_symbol x s.

Definition add (p : ptr) (U : gset ptr) : gset ptr := if p =? 0 then U else {[p]} ∪ U.

(** A block handed out. *)
Definition gives (U : gset ptr) (s : proc) (p : ptr) (s' : proc) : Prop :=
  frame s s' ∧ owns (add p U) s' ∧ (p = 0 ∨ p ∉ U).

Lemma frame_refl s : frame s s.
Proof. done. Qed.

Lemma frame_trans s1 s2 s3 : frame s1 s2 -> frame s2 s3 -> frame s1 s3.
Proof.
  intros (E1 & E2 & E3 & E4) (F1 & F2 & F3 & F4).
  split_and!; [by rewrite F1|by rewrite F2|by rewrite F3|]. intros x. by rewrite F4.
Qed.

Lemma owns_ext U s s' :
  world s' = world s -> g_initialized s' = g_initialized s -> (∀ x, has_symbol x s' = has_symbol x s) ->
  owns U s -> owns U s'.
Proof.
  intros Ew Ei Ex [Hok Hb Hr He]. split; rewrite ?Ew; rewrite ?Ei; try done.
  intros x Hx. rewrite Ex. by apply Hr.
Qed.

Lemma owns_subset U U' s : U' ⊆ U -> owns U s -> owns U' s.
Proof. intros Hsub [Hok Hb Hr He]. split; [done| |done|done]. intros p Hp. apply Hb, Hsub, Hp. Qed.

(** The world moves, the rest does not matter. *)
Lemma owns_world U U' s w :
  owns U s -> heap_ok w -> (seg_live (world s) = ∅ -> g_initialized s = false -> seg_live w = ∅) ->
  (∀ p, p ∈ U' -> p ∈ libc_live w ∨ p ∈ seg_live w) -> owns U' (set_world w s).
Proof. intros [Hok Hb Hr He] Hw Hs HU. split; [done|done|done|]. cbn. intros Hi. apply Hs; [by apply He|done]. Qed.

Lemma not_both w p : heap_ok w -> p ∈ libc_live w -> p ∈ seg_live w -> False.
Proof. intros Hw [_ [E _]]%libc_block [_ [E' _]]%seg_block; [|done..]. by rewrite E in E'. Qed.

(** A pointer of the program: null, in the bootstrap buffer, or one of its
    blocks. *)
Definition usable (U : gset ptr) (p : ptr) : Prop := p = 0 ∨ is_bootstrap g_bootstrap p = true ∨ p ∈ U.

Lemma usable_live U s p :
  owns U s -> usable U p -> is_bootstrap g_bootstrap p = false ->
  p = 0 ∧ managed p (world s) = false ∨
  p ∈ U ∧ p ≠ 0 ∧ managed p (world s) = false ∧ p ∈ libc_live (world s) ∨
  p ∈ U ∧ p ≠ 0 ∧ managed p (world s) = true ∧ p ∈ seg_live (world s).
Proof.
  intros O [->|[Hb|Hp]] Hnb; [left; split; [done|apply null_law, O]|by rewrite Hb in Hnb|].
  right. destruct (o_blocks _ _ O p Hp) as [Hl|Hl].
  - left. pose proof (libc_block _ _ (o_ok _ _ O) Hl) as (? & ? & _). done.
  - right. pose proof (seg_block _ _ (o_ok _ _ O) Hl) as (? & ? & _). done.
Qed.

(** ** libc's functions *)

Lemma real_malloc_gives U s n : owns U s -> g_real_malloc s = true -> runs (call_real_malloc n) s (gives U s).
Proof.
  intros O Hm. unfold runs, call_real_malloc, call. rewrite Hm. cbn [mbind res_bind].
  pose proof (malloc_law (world s) n (o_ok _ _ O)) as L. destruct (real_malloc n (world s)) as [p w].
  destruct L as (Hw & Hs & L). split; [done|].
  assert (Hsub : libc_live (world s) ⊆ libc_live w) by (destruct L as [[_ ->]|[_ ->]]; set_solver).
  assert (Hn : p = 0 ∨ p ∉ U).
  { destruct L as [[-> _]|[Hp E]]; [by left|right]. intros HU.
    destruct (o_blocks _ _ O p HU) as [?|Hsg]; [done|]. rewrite <- Hs in Hsg.
    eapply not_both; [exact Hw| |exact Hsg]. rewrite E. set_solver. }
  split; [|done]. apply (owns_world U); [done..|by rewrite Hs|].
  intros q Hq. unfold add in Hq. rewrite Hs. destruct (Z.eqb_spec p 0) as [|Hp0].
  - destruct (o_blocks _ _ O q Hq); [left; by apply Hsub|by right].
  - destruct L as [[? _]|[_ E]]; [done|]. rewrite E.
    apply elem_of_union in Hq as [Hq|Hq]; [set_solver|]. destruct (o_blocks _ _ O q Hq); set_solver.
Qed.

Lemma real_free_owned U s p :
  owns U s -> g_real_free s = true -> p = 0 ∨ p ∈ libc_live (world s) ->
  runs (call_real_free p) s (λ _ s', frame s s' ∧ owns (U ∖ {[p]}) s').
Proof.
  intros O Hf Hp. unfold runs, call_real_free, call_. rewrite Hf. cbn [mbind res_bind].
  destruct Hp as [->|Hp].
  - destruct (null_law _ (o_ok _ _ O)) as [_ ->]. cbn. split; [done|].
    apply (owns_subset U); [set_solver|]. by apply (owns_ext U s).
  - destruct (free_law _ p (o_ok _ _ O) Hp) as (w & -> & Hw & Hs & Hl). cbn. split; [done|].
    apply (owns_world U); [done..|by rewrite Hs|]. intros q [Hq Hqp]%elem_of_difference. rewrite Hs, Hl.
    destruct (o_blocks _ _ O q Hq); set_solver.
Qed.

(** [realloc] of size 0 and a failure free the block, or not. *)
Definition after_realloc (U : gset ptr) (p n q : Z) : gset ptr :=
  if (q =? 0) && negb (n =? 0) then U else add q (U ∖ {[p]}).

Lemma real_realloc_gives U s p n :
  owns U s -> g_real_realloc s = true -> p = 0 ∨ p ∈ libc_live (world s) ->
  runs (call_real_realloc p n) s
    (λ q s', frame s s' ∧ owns (after_realloc U p n q) s' ∧ (q = 0 ∨ q ∉ U ∖ {[p]})).
Proof.
  intros O Hr Hp. unfold runs, call_real_realloc, call. rewrite Hr. cbn [mbind res_bind].
  destruct (realloc_law _ p n (o_ok _ _ O) Hp) as (q & w & -> & Hw & Hs & L). cbn. split; [done|].
  assert (Hn : q = 0 ∨ q ∉ U ∖ {[p]}).
  { destruct L as [[-> _]|[Hq E]]; [by left|right]. intros [HU Hqp]%elem_of_difference.
    destruct (o_blocks _ _ O q HU) as [?|Hsg]; [set_solver|]. rewrite <- Hs in Hsg.
    eapply not_both; [exact Hw| |exact Hsg]. rewrite E. set_solver. }
  split; [|done]. apply (owns_world U); [done..|by rewrite Hs|].
  intros r Hr'. rewrite Hs. unfold after_realloc, add in Hr'.
  assert (Ho : r ∈ U -> r ∈ libc_live (world s) ∨ r ∈ seg_live (world s)) by apply (o_blocks _ _ O).
  destruct L as [[-> El]|[_ El]]; rewrite El.
  - destruct (Z.eqb_spec n 0); simpl in Hr'; set_solver.
  - destruct (Z.eqb_spec q 0) as [->|]; simpl in Hr'; [|set_solver].
    destruct (Z.eqb_spec n 0); simpl in Hr'; [set_solver|].
    exfalso. assert (H0 : 0 ∈ libc_live w) by (rewrite El; set_solver).
    by apply libc_block in H0 as [? _].
Qed.

(** ** Before the constructor *)

Lemma bootstrap_keeps U s n : owns U s ->
  runs (bootstrap_alloc g_bootstrap n) s (λ _ s', frame s s' ∧ owns U s').
Proof. intros O. split; [done|]. by apply (owns_ext U s). Qed.

Lemma nested_keeps U s sizes : owns U s ->
  runs (nested g_bootstrap sizes) s (λ _ s', frame s s' ∧ owns U s').
Proof.
  revert s. induction sizes as [|n sizes IH]; intros s O; [done|]. cbn [nested]. apply runs_bind.
  apply (runs_mono _ _ (λ _ s', frame s s' ∧ owns U s')).
  - unfold runs, serve_early. destruct (g_real_malloc s) eqn:Hm; [|by apply bootstrap_keeps].
    eapply runs_mono; [by apply real_malloc_gives|]. intros p s' (F & O' & _). split; [done|].
    apply (owns_subset (add p U)); [unfold add; case_match; set_solver|done].
  - intros _ s' [F O']. eapply runs_mono; [by apply IH|]. intros _ s'' [F' O'']. split; [by eapply frame_trans|done].
Qed.

(** A symbol resolved, the others as they were. *)
Lemma resolve_one_finds U s x : owns U s ->
  runs (resolve_one g_bootstrap dlsym x) s (λ _ s', owns U s' ∧
    g_initialized s' = g_initialized s ∧ g_shutting_down s' = g_shutting_down s ∧ guards s' = guards s ∧
    has_symbol x s' = true ∧ ∀ y, has_symbol y s = true -> has_symbol y s' = true).
Proof.
  intros O. unfold runs, resolve_one. destruct (has_symbol x s) eqn:Ex; [done|].
  apply runs_bind. eapply runs_mono; [by apply nested_keeps|]. intros _ s' [(Ei & Ed & Eg & Es) O'].
  apply runs_modify. rewrite dlsym_finds. split_and!.
  - destruct O' as [Hok Hb Hr He]. split; [by destruct x|by destruct x| |by destruct x].
    intros y Hy. assert (Hi : g_initialized s' = true) by (by destruct x).
    pose proof (Hr SymMalloc Hi). pose proof (Hr SymFree Hi). pose proof (Hr SymRealloc Hi). by destruct x, y.
  - by destruct x.
  - by destruct x.
  - by destruct x.
  - by destruct x.
  - intros y Hy. destruct x, y; try done; cbn; rewrite <- Es in Hy; exact Hy.
Qed.

(** The thread's guard comes out as it was. *)
Definition clear (s : proc) : Prop := ∀ t, reentrancy_guard t s = false.

Lemma clear_ext s s' : guards s' = guards s -> clear s -> clear s'.
Proof. intros E Hc t. unfold reentrancy_guard. rewrite E. apply Hc. Qed.

Lemma clear_release s s' t : guards s' = <[t := true]> (guards s) -> clear s -> clear (set_guard t false s').
Proof.
  intros E Hc u. unfold reentrancy_guard. cbn. rewrite E, insert_insert_eq.
  destruct (decide (u = t)) as [->|]; [apply arr_insert_eq|]. rewrite arr_insert_ne by done. apply Hc.
Qed.

(** The stage does not move. *)
Definition same_stage (s s' : proc) : Prop :=
  g_initialized s' = g_initialized s ∧ g_shutting_down s' = g_shutting_down s.

Lemma resolve_finds U s t : owns U s -> clear s ->
  runs (resolve_real_allocators g_bootstrap dlsym t) s
    (λ _ s', owns U s' ∧ clear s' ∧ same_stage s s' ∧ ∀ x, has_symbol x s' = true).
Proof.
  intros O Hc. unfold runs, resolve_real_allocators. rewrite Hc.
  apply runs_bind, runs_modify, runs_bind.
  eapply runs_mono; [apply (resolve_one_finds U); by apply (owns_ext U s)|].
  intros _ s1 (O1 & Ei1 & Ed1 & Eg1 & Hm & Hk1). apply runs_bind.
  eapply runs_mono; [by apply (resolve_one_finds U)|].
  intros _ s2 (O2 & Ei2 & Ed2 & Eg2 & Hf & Hk2). apply runs_bind.
  eapply runs_mono; [by apply (resolve_one_finds U)|].
  intros _ s3 (O3 & Ei3 & Ed3 & Eg3 & Hr & Hk3). apply runs_modify. split_and!.
  - by apply (owns_ext U s3).
  - apply (clear_release s); [by rewrite Eg3, Eg2, Eg1|done].
  - split; cbn; [by rewrite Ei3, Ei2, Ei1|by rewrite Ed3, Ed2, Ed1].
  - intros []; [exact (Hk3 _ (Hk2 _ Hm))|exact (Hk3 _ Hf)|exact Hr].
Qed.

Lemma resolve_if_missing_finds U s x t : owns U s -> clear s ->
  runs (resolve_if_missing g_bootstrap dlsym x t) s
    (λ _ s', owns U s' ∧ clear s' ∧ same_stage s s' ∧ has_symbol x s' = true).
Proof.
  intros O Hc. unfold runs, resolve_if_missing. destruct (has_symbol x s) eqn:Ex; [done|].
  eapply runs_mono; [by apply resolve_finds|]. intros _ s' (? & ? & ? & ?). done.
Qed.

(** ** The three functions *)

(** An instrumented call runs with the guard taken. *)
Lemma routine_gives U s t fn n : owns U s -> g_initialized s = true ->
  runs (call_routine t fn n) s (gives U s).
Proof.
  intros O Hi. pose proof (o_ready _ _ O SymMalloc Hi : g_real_malloc s = true) as Hm.
  unfold call_routine. apply runs_bind. unfold runs, call. cbn [mbind res_bind].
  pose proof (routine_law (world s) t fn n (o_ok _ _ O)) as L.
  destruct (run_routine t fn n (world s)) as [[r w]|e]; [|exact L].
  assert (Hd : ∀ w, heap_ok w -> libc_live w = libc_live (world s) -> seg_live w = seg_live (world s) ->
    ∀ d, runs (call_real_malloc n) (set_deopt d (set_world w s)) (gives U s)).
  { intros w' Hw El Es d. eapply runs_mono; [apply (real_malloc_gives U); [|done]|].
    - apply (owns_ext U (set_world w' s)); [done..|]. apply (owns_world U); [done..|by rewrite Es|].
      intros p Hp. rewrite El, Es. by apply (o_blocks _ _ O).
    - intros p s' (F & O' & Hp). split; [exact F|done]. }
  destruct r as [p| |id page reason]; cbn [mbind].
  - destruct L as (Hw & El & Hp & Es). apply runs_ret. split; [done|].
    assert (Hp0 : p ≠ 0) by (eapply (seg_block w); [done|]; rewrite Es; set_solver).
    assert (HU : p ∉ U).
    { intros HU. destruct (o_blocks _ _ O p HU) as [Hl|]; [|done]. rewrite <- El in Hl.
      eapply not_both; [exact Hw|exact Hl|]. rewrite Es. set_solver. }
    split; [|by right]. unfold add. rewrite (proj2 (Z.eqb_neq _ _)) by done.
    apply (owns_world U); [done..|by rewrite Hi|]. rewrite El, Es.
    intros q Hq. apply elem_of_union in Hq as [Hq|Hq]; [set_solver|].
    destruct (o_blocks _ _ O q Hq); set_solver.
  - destruct L as (Hw & El & Es). apply (Hd w Hw El Es (deopt s)).
  - destruct L as (Hw & El & Es). apply runs_bind, runs_modify. by apply Hd.
Qed.

(** What [malloc] promises: a block the program did not have. *)
Definition allocates (U : gset ptr) (s : proc) (p : ptr) (s' : proc) : Prop :=
  same_stage s s' ∧ clear s' ∧ owns (add p U) s' ∧ (p = 0 ∨ p ∉ U).

Lemma gives_allocates U s1 s p s' : gives U s1 p s' -> same_stage s s1 -> clear s1 -> allocates U s p s'.
Proof.
  intros ((Ei & Ed & Eg & _) & O & Hp) [Ei1 Ed1] Hc.
  split_and!; [|by eapply clear_ext|done|done]. split; [by rewrite Ei|by rewrite Ed].
Qed.

Lemma instrumented_gives U s c n : owns U s -> g_initialized s = true ->
  runs (instrumented_malloc c n) s (gives U s).
Proof.
  intros O Hi. unfold instrumented_malloc. apply runs_bind, runs_modify, runs_bind.
  unfold runs, find_routine. destruct (cached_lookup _ _ _) as [fn d].
  set (s1 := set_deopt d _). assert (F : frame s s1) by done.
  assert (O1 : owns U s1) by by apply (owns_ext U s).
  destruct (negb (fn =? 0)).
  - apply runs_bind, runs_modify. set (s2 := set_counts _ _ s1).
    eapply runs_mono; [apply (routine_gives U s2); [by apply (owns_ext U s1)|done]|].
    intros p s' (F' & O' & Hp). split; [exact F'|done].
  - apply runs_bind, runs_modify, runs_bind. set (s2 := set_counts _ _ s1).
    eapply runs_mono; [apply (real_malloc_gives U s2); [by apply (owns_ext U s1)|]|].
    + by apply (o_ready _ _ O SymMalloc).
    + intros p s' (F' & O' & Hp). apply runs_bind, runs_modify, runs_ret.
      split; [exact F'|]. split; [|done]. by apply (owns_ext _ s').
Qed.

Lemma malloc_allocates U s c n : owns U s -> clear s -> runs (malloc c n) s (allocates U s).
Proof.
  intros O Hc. unfold runs, Trampoline.malloc.
  destruct (g_initialized s) eqn:Hi; cbn [negb].
  - pose proof (o_ready _ _ O SymMalloc Hi) as Hm.
    assert (Hdirect : runs (call_real_malloc n) s (allocates U s)).
    { eapply runs_mono; [by apply real_malloc_gives|]. intros p s' G. by apply (gives_allocates U s). }
    destruct (g_shutting_down s); [exact Hdirect|]. rewrite Hc.
    apply runs_bind, runs_modify, runs_bind. set (s1 := set_guard _ _ s).
    eapply runs_mono; [apply (instrumented_gives U s1); [by apply (owns_ext U s)|done]|].
    intros p s' ((Ei & Ed & Eg & _) & O' & Hp). apply runs_bind, runs_modify, runs_ret.
    split_and!; [done|by apply (clear_release s)|by apply (owns_ext _ s')|done].
  - apply runs_bind. eapply runs_mono; [by apply (resolve_if_missing_finds U)|].
    intros _ s1 (O1 & Hc1 & Hst & Hm). unfold runs, serve_early. cbn in Hm. rewrite Hm.
    eapply runs_mono; [by apply (real_malloc_gives U)|]. intros p s' G. by apply (gives_allocates U s1).
Qed.

(** What [free] promises. *)
Definition releases (U : gset ptr) (s : proc) (p : ptr) (s' : proc) : Prop :=
  same_stage s s' ∧ clear s' ∧ owns (U ∖ {[p]}) s'.

Lemma release_owned U s t p :
  owns U s -> g_real_free s = true -> usable U p -> is_bootstrap g_bootstrap p = false ->
  runs (release t p) s (λ _ s', frame s s' ∧ owns (U ∖ {[p]}) s').
Proof.
  intros O Hf Hu Hb. unfold runs, release.
  destruct (usable_live U s p O Hu Hb) as [(-> & ->)|[(Hp & H0 & -> & Hl)|(Hp & H0 & -> & Hl)]].
  - apply real_free_owned; auto.
  - apply real_free_owned; auto.
  - unfold call_. destruct (managed_law _ t p (o_ok _ _ O) Hl) as (w & -> & Hw & El & Es). cbn. split; [done|].
    apply (owns_world U); [done..| |].
    + intros E _. rewrite Es, E. set_solver.
    + rewrite El, Es. intros q [Hq Hqp]%elem_of_difference. destruct (o_blocks _ _ O q Hq); set_solver.
Qed.

Lemma free_releases U s c p : owns U s -> clear s -> usable U p ->
  runs (free c p) s (λ _ s', releases U s p s').
Proof.
  intros O Hc Hu. unfold runs, Trampoline.free.
  destruct (is_bootstrap g_bootstrap p) eqn:Hb.
  { split_and!; [done..|]. apply (owns_subset U); [set_solver|done]. }
  destruct (g_initialized s) eqn:Hi; cbn [negb].
  - pose proof (o_ready _ _ O SymFree Hi : g_real_free s = true) as Hf.
    destruct (g_shutting_down s).
    + destruct (usable_live U s p O Hu Hb) as [(-> & Em)|[(Hp & H0 & Em & Hl)|(Hp & H0 & Em & Hl)]];
        rewrite Em, ?andb_false_r.
      * eapply runs_mono; [apply (real_free_owned U); auto|]. intros _ s' [(Ei & Ed & Eg & _) O'].
        split_and!; [done|by eapply clear_ext|done].
      * eapply runs_mono; [apply (real_free_owned U); auto|]. intros _ s' [(Ei & Ed & Eg & _) O'].
        split_and!; [done|by eapply clear_ext|done].
      * rewrite (proj2 (Z.eqb_neq _ _)) by done. cbn [negb andb].
        split_and!; [done..|]. apply (owns_subset U); [set_solver|done].
    + rewrite Hc, Hf. cbn [negb orb]. apply runs_bind, runs_modify, runs_bind, runs_modify, runs_bind.
      set (s1 := set_ring _ _ _). assert (O1 : owns U s1) by by apply (owns_ext U s).
      assert (Hr : runs (if p =? 0 then mret tt else release (c_tid c) p) s1
                     (λ _ s', frame s1 s' ∧ owns (U ∖ {[p]}) s')).
      { destruct (Z.eqb_spec p 0) as [->|]; [|by apply release_owned].
        apply runs_ret. split; [done|]. apply (owns_subset U); [set_solver|done]. }
      eapply runs_mono; [exact Hr|]. intros _ s' [(Ei & Ed & Eg & _) O']. apply runs_modify.
      split_and!; [done|by apply (clear_release s)|by apply (owns_ext _ s')].
  - apply runs_bind. eapply runs_mono; [by apply (resolve_if_missing_finds U)|].
    intros _ s1 (O1 & Hc1 & [Ei1 Ed1] & Hf). unfold runs, free_if_resolved. cbn in Hf. rewrite Hf.
    eapply runs_mono; [apply (real_free_owned U); [done..|]|].
    + destruct (usable_live U s1 p O1 Hu Hb) as [(-> & _)|[(_ & _ & _ & ?)|(_ & _ & _ & Hl)]]; [by left|by right|].
      rewrite (o_early _ _ O1) in Hl by (by rewrite Ei1). set_solver.
    + intros _ s' [(Ei & Ed & Eg & _) O']. split_and!; [|by eapply clear_ext|done].
      split; [by rewrite Ei|by rewrite Ed].
Qed.

(** The blocks left after [realloc]: a managed block is freed even when the new
    allocation failed. *)
Definition remaining (U : gset ptr) (s : proc) (p n q : Z) : gset ptr :=
  if negb (is_bootstrap g_bootstrap p) && managed p (world s) then add q (U ∖ {[p]})
  else after_realloc U p n q.

Definition reallocates (U : gset ptr) (s : proc) (p n q : Z) (s' : proc) : Prop :=
  same_stage s s' ∧ clear s' ∧ owns (remaining U s p n q) s' ∧ (q = 0 ∨ q ∉ U ∖ {[p]}).

Lemma add_mono p U U' : U ⊆ U' -> add p U ⊆ add p U'.
Proof. unfold add. case_match; set_solver. Qed.

Lemma after_realloc_subset U p n q : after_realloc U p n q ⊆ add q U.
Proof. unfold after_realloc, add. destruct (q =? 0); simpl; [|set_solver]. destruct (n =? 0); set_solver. Qed.

(** The branches that end in libc's [realloc]. *)
Lemma libc_reallocates U s1 s p n q s' :
  frame s1 s' -> owns (after_realloc U p n q) s' -> (q = 0 ∨ q ∉ U ∖ {[p]}) ->
  same_stage s s1 -> clear s1 -> managed p (world s) = false -> reallocates U s p n q s'.
Proof.
  intros (Ei & Ed & Eg & _) O Hq [Ei1 Ed1] Hc Hm. split_and!; [|by eapply clear_ext| |done].
  - split; [by rewrite Ei|by rewrite Ed].
  - unfold remaining. by rewrite Hm, andb_false_r.
Qed.

(** The branches that end in our [malloc]. *)
Lemma malloc_reallocates U s p n q s' :
  allocates U s q s' -> (is_bootstrap g_bootstrap p = true ∨ managed p (world s) = false) ->
  reallocates U s p n q s'.
Proof.
  intros (Hst & Hc & O & Hq) Hp. split_and!; [done..| |set_solver].
  apply (owns_subset (add q U)); [|done]. unfold remaining.
  destruct Hp as [->| ->]; rewrite ?andb_false_r; cbn [negb andb]; apply after_realloc_subset.
Qed.

Lemma runs_copy out p n s (Q : unit -> proc -> Prop) :
  Q tt s -> Q tt (add_copy (out, p, n) s) -> runs (copy_if out p n) s Q.
Proof. unfold copy_if. destruct (out =? 0); done. Qed.

(** Our [malloc], the copy, and our [free]. *)
Lemma migrates U s c p n m : owns U s -> clear s -> p ∈ U ->
  is_bootstrap g_bootstrap p = false -> managed p (world s) = true ->
  runs (out ← malloc c n; copy_if out p m ≫= λ _, free c p ≫= λ _, mret out) s (reallocates U s p n).
Proof.
  intros O Hc HU Hb Hm. apply runs_bind. eapply runs_mono; [by apply (malloc_allocates U)|].
  intros q s1 ([Ei Ed] & Hc1 & O1 & Hq). apply runs_bind.
  assert (Hfree : ∀ s2, g_initialized s2 = g_initialized s1 -> g_shutting_down s2 = g_shutting_down s1 ->
    clear s2 -> owns (add q U) s2 -> runs (free c p ≫= λ _, mret q) s2 (reallocates U s p n)).
  { intros s2 Ei2 Ed2 Hc2 O2. apply runs_bind. eapply runs_mono; [apply (free_releases (add q U)); [done..|]|].
    - right; right. unfold add. case_match; set_solver.
    - intros _ s3 ([Ei3 Ed3] & Hc3 & O3). apply runs_ret. split_and!; [|done| |set_solver].
      + split; [by rewrite Ei3, Ei2|by rewrite Ed3, Ed2].
      + unfold remaining. rewrite Hb, Hm. cbn [negb andb].
        apply (owns_subset (add q U ∖ {[p]})); [|done]. unfold add. destruct Hq as [->|Hq]; case_match; set_solver. }
  apply runs_copy; apply Hfree; try done. by apply (owns_ext _ s1).
Qed.

Lemma realloc_reallocates U s c p n :
  owns U s -> clear s -> usable U p ->
  (g_shutting_down s = true -> p ≠ 0 -> is_bootstrap g_bootstrap p = false -> managed p (world s) = false) ->
  runs (realloc c p n) s (reallocates U s p n).
Proof.
  intros O Hc Hu Hd. unfold runs, Trampoline.realloc. set (c' := mkCaller _ _ _).
  destruct (is_bootstrap g_bootstrap p) eqn:Hb.
  { apply runs_bind. eapply runs_mono; [by apply (malloc_allocates U)|]. intros q s1 A. apply runs_bind.
    assert (Hr : ∀ s2, same_stage s1 s2 -> clear s2 -> owns (add q U) s2 -> runs (mret q) s2 (reallocates U s p n)).
    { intros s2 [Ei Ed] Hc2 O2. apply runs_ret. apply malloc_reallocates; [|by left].
      destruct A as ([Ei1 Ed1] & _ & _ & Hq). split_and!; [|done..]. split; [by rewrite Ei|by rewrite Ed]. }
    destruct A as (_ & Hc1 & O1 & _). apply runs_copy; apply Hr; try done. by apply (owns_ext _ s1). }
  pose proof (usable_live U s p O Hu Hb) as Hlive.
  assert (Hlibc : ∀ s1, owns U s1 -> same_stage s s1 -> clear s1 -> g_real_realloc s1 = true ->
    p = 0 ∨ p ∈ libc_live (world s1) -> managed p (world s) = false ->
    runs (call_real_realloc p n) s1 (reallocates U s p n)).
  { intros s1 O1 Hst Hc1 Hr Hp Hm. eapply runs_mono; [by apply (real_realloc_gives U)|].
    intros q s' (F & O' & Hq). by apply (libc_reallocates U s1). }
  assert (Hcase : managed p (world s) = false -> p = 0 ∨ p ∈ libc_live (world s)).
  { intros Hm. destruct Hlive as [(-> & _)|[(_ & _ & _ & ?)|(_ & _ & E & _)]]; [by left|by right|by rewrite E in Hm]. }
  destruct (g_initialized s) eqn:Hi; cbn [negb].
  - pose proof (o_ready _ _ O SymRealloc Hi : g_real_realloc s = true) as Hr.
    destruct (g_shutting_down s).
    { assert (Hm : managed p (world s) = false).
      { destruct (decide (p = 0)) as [->|]; [apply null_law, O|by apply Hd]. }
      apply Hlibc; auto. done. }
    rewrite Hc. destruct (Z.eqb_spec p 0) as [->|Hp0].
    { eapply runs_mono; [by apply (malloc_allocates U)|]. intros q s' A.
      apply malloc_reallocates; [done|right; apply null_law, O]. }
    destruct (managed p (world s)) eqn:Hm; [|apply Hlibc; auto; done].
    assert (HU : p ∈ U) by (destruct Hlive as [(? & _)|[(? & _)|(? & _)]]; done).
    destruct (Z.eqb_spec n 0) as [->|Hn]; [|by apply migrates].
    apply runs_bind. eapply runs_mono; [by apply (free_releases U)|].
    intros _ s' (Hst & Hc' & O'). apply runs_ret. split_and!; [done..| |by left].
    unfold remaining. rewrite Hb, Hm. exact O'.
  - apply runs_bind. eapply runs_mono; [by apply (resolve_if_missing_finds U)|].
    intros _ s1 (O1 & Hc1 & Hst & Hf). unfold runs, early_realloc. cbn in Hf. rewrite Hf.
    assert (Hm : managed p (world s) = false).
    { destruct Hlive as [(_ & ?)|[(_ & _ & ? & _)|(_ & _ & _ & Hl)]]; [done..|].
      rewrite (o_early _ _ O) in Hl by done. set_solver. }
    apply Hlibc; try done.
    destruct (usable_live U s1 p O1 Hu Hb) as [(-> & _)|[(_ & _ & _ & ?)|(_ & _ & _ & Hl)]]; [by left|by right|].
    rewrite (o_early _ _ O1) in Hl by (destruct Hst as [-> _]; done). set_solver.
Qed.

(** ** The whole program *)

(** The calls of [realloc] a run goes on from.  After the destructor [realloc] hands
    libc even a segment's block, on which libc's behaviour is undefined: that call is
    the last clause of [routing_over_segments], and ends the runs here. *)
Definition reallocable (s : proc) (p : ptr) : Prop :=
  g_shutting_down s = true -> p ≠ 0 -> is_bootstrap g_bootstrap p = false -> managed p (world s) = false.

(** The process, with the blocks the program may still use: its threads call the
    three functions on blocks of theirs, the constructor and the destructor run,
    and the background thread changes the dispatch table, the deopt state, and
    the segments without live blocks. *)
Inductive client : proc * gset ptr -> proc * gset ptr -> Prop :=
  | C_malloc c n s U p s' : malloc c n s = Ok (p, s') -> client (s, U) (s', add p U)
  | C_free c p s U s' : usable U p -> free c p s = Ok (tt, s') -> client (s, U) (s', U ∖ {[p]})
  | C_realloc c p n s U q s' : usable U p -> reallocable s p ->
      realloc c p n s = Ok (q, s') -> client (s, U) (s', remaining U s p n q)
  | C_init t s U s' : tbjit_init g_bootstrap dlsym t s = Ok (tt, s') -> client (s, U) (s', U)
  | C_fini s U s' : tbjit_fini s = Ok (tt, s') -> client (s, U) (s', U)
  | C_analysis d s U : client (s, U) (set_deopt d s, U)
  | C_background w s U : heap_ok w -> libc_live w = libc_live (world s) -> seg_live w = seg_live (world s) ->
      client (s, U) (set_world w s, U).

Definition well (x : proc * gset ptr) : Prop := owns x.2 x.1 ∧ clear x.1.

Lemma init_runs U s t : owns U s -> clear s ->
  runs (tbjit_init g_bootstrap dlsym t) s (λ _ s', owns U s' ∧ clear s').
Proof.
  intros O Hc. unfold tbjit_init. apply runs_bind. eapply runs_mono; [by apply (resolve_finds U)|].
  intros _ s1 (O1 & Hc1 & _ & Hall). apply runs_bind, runs_modify, runs_modify. split; [|done].
  destruct O1 as [Hok Hb _ _]. split; [done|done| |done]. intros x _. apply (Hall x).
Qed.

Lemma well_step x y : well x -> client x y -> well y.
Proof.
  assert (Hrun : ∀ {A} (m : comp A) s Q a s', runs m s Q -> m s = Ok (a, s') -> Q a s').
  { intros A m s Q a s' Hm E. unfold runs in Hm. by rewrite E in Hm. }
  intros [O Hc] Hxy.
  destruct Hxy as [c n s U p s' E|c p s U s' Hu E|c p n s U q s' Hu Hr E|t s U s' E|s U s' E|d s U|w s U Hw El Es];
    cbn [fst snd] in *; unfold well; cbn [fst snd].
  - eapply Hrun in E; [|by apply malloc_allocates]. by destruct E as (_ & ? & ? & _).
  - eapply Hrun in E; [|by apply free_releases]. by destruct E as (_ & ? & ?).
  - eapply Hrun in E; [|by apply realloc_reallocates]. by destruct E as (_ & ? & ? & _).
  - eapply Hrun in E; [|by apply init_runs]. done.
  - injection E as <-. split; [by apply (owns_ext _ s)|done].
  - split; [by apply (owns_ext _ s)|done].
  - split; [|done]. apply (owns_world U); [done..|by rewrite Es|]. rewrite El, Es. apply (o_blocks _ _ O).
Qed.

Lemma reachable_well (w0 : W) (s : proc) (U : gset ptr) :
  heap_ok w0 -> seg_live w0 = ∅ -> rtc client (process0 w0, ∅) (s, U) -> owns U s ∧ clear s.
Proof.
  intros Hok Hseg Hreach. apply (reachable_invariant client well (process0 w0, ∅) (s, U)); [|apply well_step|exact Hreach].
  split; [split; [done|set_solver|done|done]|]. intros t. apply arr_empty.
Qed.

Lemma reachable_ok (w0 : W) (s : proc) (U : gset ptr) :
  heap_ok w0 -> seg_live w0 = ∅ -> rtc client (process0 w0, ∅) (s, U) -> heap_ok (world s).
Proof. intros Hok Hseg Hreach. by destruct (reachable_well w0 s U Hok Hseg Hreach) as [[? _ _ _] _]. Qed.

(** Routing, of any two heaps that keep the laws. *)
Theorem routing_safe (w0 : W) (s : proc) (U : gset ptr) :
  heap_ok w0 -> seg_live w0 = ∅ -> rtc client (process0 w0, ∅) (s, U) ->
  (∀ p, p ∈ U -> p ≠ 0 ∧ is_bootstrap g_bootstrap p = false ∧
     if managed p (world s) then p ∈ seg_live (world s) else p ∈ libc_live (world s)) ∧
  (∀ c n, runs (malloc c n) s (λ p _, p = 0 ∨ p ∉ U)) ∧
  (∀ c p, usable U p -> runs (free c p) s (λ _ _, True)) ∧
  (∀ c p n, usable U p -> reallocable s p -> runs (realloc c p n) s (λ q _, q = 0 ∨ q ∉ U ∖ {[p]})).
Proof.
  intros Hok Hseg Hreach. destruct (reachable_well w0 s U Hok Hseg Hreach) as [O Hc]. split_and!.
  - intros p Hp. destruct (o_blocks _ _ O p Hp) as [Hl|Hl].
    + by destruct (libc_block _ _ (o_ok _ _ O) Hl) as (? & -> & ?).
    + by destruct (seg_block _ _ (o_ok _ _ O) Hl) as (? & -> & ?).
  - intros c n. eapply runs_mono; [by apply malloc_allocates|]. by intros p s' (_ & _ & _ & ?).
  - intros c p Hu. eapply runs_mono; [by apply free_releases|]. done.
  - intros c p n Hu Hr. eapply runs_mono; [by apply realloc_reallocates|]. by intros q s' (_ & _ & _ & ?).
Qed.

End Routing.
