(* ===== verification/TrampolineHeap.v ===== *)
(** * Heaps for the trampoline

    An implementation of the interface of [Trampoline]: the segment heap is the
    protocol of [Heap], run by the routines its slots were compiled for (free lists,
    size classes, bump and paired regions in any combination; not arenas, whose
    blocks end at a reset, and not [ProducerConsumer]).  libc is a parameter, with
    its documented behaviour as the class [LibcLaws], and so are the answers of
    [mmap].  The laws the trampoline needs follow from the invariant of the protocol,
    and so [Routing]'s theorem holds of the repository's own heap. *)

From S2P Require Import Prelude Common Segment SlowInit Chunks Heap HeapOps HeapSafe Trampoline Routing.
From S2P Require Ring Deopt Dispatch Jit.

(** ** The addresses of the segments *)

(** The segments lie at addresses where [P] holds. *)
Definition all_segs (P : Z -> Prop) (w : Segment.world) : Prop := ∀ s, is_Some (segs w !! s) -> P s.

(** [P] holds wherever a segment may be put in the region at [lo]. *)
Definition all_in (P : Z -> Prop) (lo : Z) : Prop :=
  ∀ s, lo <= s -> s + SEGMENT_SIZE <= lo + 2 * SEGMENT_SIZE -> P s.

Ltac unbind H :=
  let x := fresh "x" in let E := fresh "E" in
  apply bind_Ok in H as (x & E & H).

Lemma segs_update P s h w : all_segs P w -> P s -> all_segs P (update s h w).
Proof. intros Hw Hs t [h' Ht]. cbn in Ht. apply lookup_insert_Some in Ht as [[<- _]|[_ Ht]]; [done|eauto]. Qed.

Lemma header_lookup s w h : header s w = Ok h -> segs w !! s = Some h.
Proof. unfold header. destruct (segs w !! s); simpl; congruence. Qed.

Lemma segs_modify P s f m m' : all_segs P (heap m) -> SlowInit.modify s f m = Ok m' -> all_segs P (heap m').
Proof.
  intros Hw E. unfold SlowInit.modify in E. unbind E. injection E as <-.
  apply segs_update; [done|]. apply Hw. rewrite (header_lookup _ _ _ E0). eauto.
Qed.

Lemma segs_harvest P s w h w' : all_segs P w -> mpsc_harvest s w = Ok (h, w') -> all_segs P w'.
Proof.
  intros Hw E. unfold mpsc_harvest in E. unbind E. injection E as <- <-.
  apply segs_update; [done|]. apply Hw. rewrite (header_lookup _ _ _ E0). eauto.
Qed.

Lemma segs_push P s c w w' : all_segs P w -> mpsc_push s c w = Ok w' -> all_segs P w'.
Proof.
  intros Hw E. unfold mpsc_push in E. unbind E. injection E as <-.
  apply segs_update; [done|]. apply Hw. rewrite (header_lookup _ _ _ E0). eauto.
Qed.

Lemma segs_new_segment P raw t str idx sz m s m' :
  all_segs P (heap m) -> (∀ lo, raw = Some lo -> all_in P lo ∧ fresh_raw raw (heap m)) ->
  new_segment raw t str idx sz m = Ok (s, m') -> all_segs P (heap m').
Proof.
  intros Hw Hraw E. destruct raw as [lo|]; [|done]. destruct (Hraw lo eq_refl) as (Hb & Hlo & Hhi & _).
  unfold new_segment, alloc_segment, aligned_mmap_2mib in E. cbn [fst] in E.
  destruct (align_segment lo Hlo Hhi) as (_ & Hla & Hlb). cbv zeta in Hla, Hlb.
  set (a := Z.land _ _) in *. injection E as <- <-. cbn [heap set_heap].
  set (w0 := update a _ _). assert (Esegs : segs (register_segment a w0) = segs w0).
  { unfold register_segment. cbv zeta. destruct (pagemap_mark_frame a true w0) as (<- & _ & _). by case_match. }
  intros t' Ht. rewrite Esegs in Ht. revert t' Ht. apply segs_update; [exact Hw|]. by apply Hb.
Qed.

Lemma chop_segs fuel p e sz h w r : chop fuel p e sz h w = Ok r -> segs r.2 = segs w.
Proof.
  revert p h w. induction fuel as [|fuel IH]; intros p h w E; [done|]. cbn [chop] in E.
  destruct (_ <=? _); [by apply IH in E|by injection E as <-].
Qed.

Lemma segs_chop P s sz m r : all_segs P (heap m) -> chop_segment s sz m = Ok r -> all_segs P (heap r.2).
Proof.
  intros Hw E. unfold chop_segment in E. unbind E. destruct x as [h w]. injection E as <-. cbn.
  apply chop_segs in E0. cbn in E0. unfold all_segs. by rewrite E0.
Qed.

Lemma heap_dom_harvest a m h m1 :
  ((if a =? 0 then mret (0, m) else '(h, w) ← mpsc_harvest a (heap m); mret (h, set_heap w m)) : res (ptr * machine)) = Ok (h, m1) ->
  ∀ P, all_segs P (heap m) -> all_segs P (heap m1) ∧ dom (segs (heap m1)) = dom (segs (heap m)).
Proof.
  intros E P Hw. destruct (a =? 0); [by injection E as <- <-|]. unbind E. destruct x as [h' w].
  injection E as <- <-. split; [by eapply segs_harvest|].
  unfold mpsc_harvest in E0. unbind E0. injection E0 as <- <-. cbn. rewrite dom_insert_L.
  apply header_lookup, elem_of_dom_2 in E. set_solver.
Qed.

Lemma segs_list_refill P plan_of raw k str sz mark m p m' :
  all_segs P (heap m) -> (∀ w lo, raw = Some lo -> dom (segs w) = dom (segs (heap m)) -> all_in P lo ∧ fresh_raw raw w) ->
  list_refill plan_of raw k str sz mark m = Ok (p, m') -> all_segs P (heap m').
Proof.
  intros Hw Hraw E. unfold list_refill in E. cbv zeta in E. set (a := v_seg _) in *. unbind E. destruct x as [h m1].
  destruct (heap_dom_harvest a m h m1 E0 P Hw) as [H1 D1].
  destruct (negb (h =? 0)); [injection E as <- <-; by rewrite heap_with_head|].
  unbind E. rename x into m2.
  assert (H2 : all_segs P (heap m2) ∧ dom (segs (heap m2)) = dom (segs (heap m))).
  { destruct (a =? 0); [by injection E1 as <-|]. split; [by eapply segs_modify|].
    unfold retire_full, SlowInit.modify in E1. unbind E1. injection E1 as <-. cbn. rewrite dom_insert_L, D1.
    apply header_lookup, elem_of_dom_2 in E2. set_solver. }
  destruct H2 as [H2 D2]. cbv beta in E. unbind E. destruct x as [s m3]. cbv beta iota in E. unbind E.
  rename x into m4. unbind E. destruct x as [[c hd] m5]. injection E as <- <-. rewrite heap_with_list.
  apply (segs_chop P) in E4; [exact E4|]. eapply segs_modify; [|exact E3].
  eapply segs_new_segment; [exact H2| |exact E2]. intros lo Hlo. by apply Hraw.
Qed.

Lemma segs_region P raw t str idx sz m p m' :
  all_segs P (heap m) -> (∀ lo, raw = Some lo -> all_in P lo ∧ fresh_raw raw (heap m)) ->
  ('(s, st) ← new_segment raw t str idx sz m; install_bump t idx sz s st) = Ok (p, m') -> all_segs P (heap m').
Proof.
  intros Hw Hraw E. unbind E. destruct x as [s m1]. unfold install_bump in E. unbind E. injection E as _ <-.
  eapply segs_modify; [|exact E1]. cbn [heap set_bump]. eapply segs_new_segment; [exact Hw|exact Hraw|exact E0].
Qed.

Lemma segs_free P t s p m m' : all_segs P (heap m) -> SlowInit.free_managed t s p m = Ok m' -> all_segs P (heap m').
Proof.
  intros Hw E. unfold SlowInit.free_managed in E. unbind E.
  assert (Hpush : ∀ m1, push_remote s p m = Ok m1 -> all_segs P (heap m1)).
  { intros m1 E1. unfold push_remote in E1. unbind E1. injection E1 as <-. by eapply segs_push. }
  assert (Hrew : ∀ r, paired_lifo_rewind t s p m = Ok r -> all_segs P (heap r.2)).
  { intros r E1. unfold paired_lifo_rewind in E1. unbind E1. destruct (_ =? p); [|by injection E1 as <-].
    unbind E1. injection E1 as <-. eapply segs_modify; [|eassumption]. exact Hw. }
  destruct (strategy x); try (by injection E as <-);
    repeat match type of E with (if ?c then _ else _) = _ => destruct c end;
    try (by injection E as <-); try (by apply Hpush); try (by eapply segs_modify).
  unbind E. destruct x0 as [r m1]. injection E as <-. by apply Hrew in E1.
Qed.

(** ** libc *)

Class Libc (A : Type) := {
  lc_malloc : Z -> A -> ptr * A;
  lc_free : ptr -> A -> res A;
  lc_realloc : ptr -> Z -> A -> res (ptr * A);
}.

(** Its documented behaviour: a block is not null and not a live one's address;
    [free] and [realloc] are defined on its live blocks and on null; [realloc] of
    size 0 frees, and fails otherwise only leaving the block alone.  Its blocks are
    at addresses of its own. *)
Class LibcLaws (A : Type) `{Libc A} := {
  lc_ok : A -> Prop;
  lc_live : A -> gset ptr;
  lc_addr : ptr -> Prop;
  lc_addr_law a p : lc_ok a -> p ∈ lc_live a -> lc_addr p ∧ 0 < p < 2 ^ 47;
  lc_malloc_law a n : lc_ok a ->
    let '(p, a') := lc_malloc n a in
    lc_ok a' ∧ (p = 0 ∧ lc_live a' = lc_live a ∨ p ∉ lc_live a ∧ lc_live a' = {[p]} ∪ lc_live a);
  lc_null_law a : lc_ok a -> lc_free 0 a = Ok a;
  lc_free_law a p : lc_ok a -> p ∈ lc_live a ->
    ∃ a', lc_free p a = Ok a' ∧ lc_ok a' ∧ lc_live a' = lc_live a ∖ {[p]};
  lc_realloc_law a p n : lc_ok a -> p = 0 ∨ p ∈ lc_live a ->
    ∃ q a', lc_realloc p n a = Ok (q, a') ∧ lc_ok a' ∧
      (q = 0 ∧ lc_live a' = (if n =? 0 then lc_live a ∖ {[p]} else lc_live a) ∨
       q ∉ lc_live a ∖ {[p]} ∧ lc_live a' = {[q]} ∪ (lc_live a ∖ {[p]}));
}.

(** ** The two heaps *)

(** [code] is the slot and the site a routine's code holds; [mmaps] are the regions
    [mmap] is going to return for segments. *)
Record heaps (A : Type) := mkHeaps {
  fl : Heap.conf;           (** the segment heap, with its live blocks *)
  libc : A;
  mmaps : list Z;
  code : ptr -> Z * CallSiteID;
}.
Arguments mkHeaps {A} _ _ _ _.
Arguments fl {A} _.
Arguments libc {A} _.
Arguments mmaps {A} _.
Arguments code {A} _.

Definition heaps_init {A} (a : A) (mmaps : list Z) (code : ptr -> Z * CallSiteID) : heaps A :=
  mkHeaps conf0 a mmaps code.

Section Instance.
Context {A : Type} `{LibcLaws A}.
(** What each slot is compiled for; the address of the bootstrap buffer. *)
Context (plan_of : Z -> plan) (g_bootstrap : Z).

Definition set_fl (c : Heap.conf) (w : heaps A) : heaps A := mkHeaps c (libc w) (mmaps w) (code w).
Definition set_libc (a : A) (w : heaps A) : heaps A := mkHeaps (fl w) a (mmaps w) (code w).

Definition libc_malloc (n : Z) (w : heaps A) : ptr * heaps A :=
  let '(p, a) := lc_malloc n (libc w) in (p, set_libc a w).
Definition libc_free (p : ptr) (w : heaps A) : res (heaps A) :=
  a ← lc_free p (libc w); Ok (set_libc a w).
Definition libc_realloc (p n : Z) (w : heaps A) : res (ptr * heaps A) :=
  '(q, a) ← lc_realloc p n (libc w); Ok (q, set_libc a w).

(** The region [mmap] returns; what overlaps a mapped segment is no answer. *)
Definition region (m : machine) (answers : list Z) : option Z :=
  match answers with
  | lo :: _ =>
      if (0 <? lo) && (lo + 2 * SEGMENT_SIZE <=? 2 ^ 47) &&
         bool_decide (set_Forall (λ s, s + SEGMENT_SIZE <= lo ∨ lo + 2 * SEGMENT_SIZE <= s) (dom (segs (heap m))))
      then Some lo else None
  | [] => None
  end.

(** The routine of the slot; an answer of [mmap] is used up when a segment was
    mapped. *)
Definition slot_routine (t : Z) (fn : ptr) (n : Z) (w : heaps A) : res (routine_result * heaps A) :=
  let '(mkConf m U) := fl w in
  let '(idx, site) := code w fn in
  o ← routine plan_of (region m (mmaps w)) t idx n m;
  match o with
  | Deopted why => Ok (Deopts site fn why, w)
  | Block p m' =>
      let grown := negb (base.size (segs (heap m')) =? base.size (segs (heap m)))%nat in
      Ok (Serves p, mkHeaps (mkConf m' (p :: survivors plan_of t idx n m U)) (libc w)
                      (if grown then tail (mmaps w) else mmaps w) (code w))
  end.

Definition seg_managed (p : ptr) (w : heaps A) : bool := is_managed (seg_of p) (heap (st (fl w))).

Definition header_of (p : ptr) (w : heaps A) : option SegmentHeader := segs (heap (st (fl w))) !! seg_of p.

Definition release_managed (t : Z) (p : ptr) (w : heaps A) : res (heaps A) :=
  m ← SlowInit.free_managed t (seg_of p) p (st (fl w));
  Ok (set_fl (mkConf m (filter (λ q, q ≠ p) (user (fl w)))) w).

#[export] Instance segment_heaps : Heaps (heaps A) := {
  real_malloc := libc_malloc;
  real_free := libc_free;
  real_realloc := libc_realloc;
  run_routine := slot_routine;
  managed := seg_managed;
  chunk_size_of p w := match header_of p w with Some h => chunk_size h | None => 0 end;
  segment_end_of p w := segment_end (seg_of p);
  free_managed := release_managed;
}.

(** ** The laws *)

Context (Hplan : ∀ idx, plan_ok (plan_of idx)) (Hno_arena : ∀ idx sz, plan_of idx ≠ PlanArena sz).
(** libc does not hand out the bootstrap buffer, which is static data. *)
Context (Hboot : ∀ p, lc_addr p -> is_bootstrap g_bootstrap p = false).

(** Addresses of libc and of the bootstrap buffer, and a range without any. *)
Definition foreign (p : ptr) : Prop := lc_addr p ∨ is_bootstrap g_bootstrap p = true.
Definition own_segment (s : Z) : Prop := ∀ p, s <= p < s + SEGMENT_SIZE -> ¬ foreign p.

(** What [mmap] returns is apart from libc's memory and from static data. *)
Definition mmap_ok (lo : Z) : Prop := ∀ p, lo <= p < lo + 2 * SEGMENT_SIZE -> ¬ foreign p.

Record heaps_ok (w : heaps A) : Prop := {
  ok_inv : Heap.inv plan_of (fl w);
  ok_own : all_segs own_segment (heap (st (fl w)));
  ok_libc : lc_ok (libc w);
  ok_mmaps : Forall mmap_ok (mmaps w);
}.

Definition user_set (w : heaps A) : gset ptr := list_to_set (user (fl w)).

Lemma heaps_init_ok a l c : lc_ok a -> Forall mmap_ok l -> heaps_ok (heaps_init a l c).
Proof.
  intros Ha Hl. split; cbn [fl libc mmaps heaps_init st conf0 heap]; [apply inv_conf0| |done|done].
  intros s [h Hs]. cbn in Hs. by rewrite lookup_empty in Hs.
Qed.

Lemma user_NoDup w : heaps_ok w -> NoDup (user (fl w)).
Proof. intros [(L & R & I) _ _ _]. by eapply HeapSafe.blocks_NoDup. Qed.

Lemma user_block w p : heaps_ok w -> p ∈ user (fl w) -> 0 < p ∧ ¬ foreign p ∧ seg_managed p w = true.
Proof.
  intros [(L & R & I) Ha _ _] Hp. destruct (inv_user _ _ _ _ _ I p Hp) as [h Hh].
  pose proof (block_bounds plan_of Hplan _ _ L R I p h Hp Hh) as Hb.
  destruct (seg_facts plan_of Hplan _ _ L R I _ h Hh) as ([Hs _] & _ & Hsz). unfold size_ok, HEADER_SIZE in *.
  split_and!; [lia|apply (Ha _ (mk_is_Some _ _ Hh)); lia|].
  destruct (elem_of_Permutation (user (fl w)) p) as [Hperm _]. destruct (Hperm Hp) as [U' HU].
  by apply (heap_free_ok plan_of Hplan _ _ L R I 0 p U').
Qed.

Lemma foreign_unmanaged w p : heaps_ok w -> p = 0 ∨ lc_addr p -> 0 <= p < 2 ^ 47 -> seg_managed p w = false.
Proof.
  intros [(L & R & I) Ha _ _] Hp Hb. unfold seg_managed.
  pose proof (Z.mod_pos_bound p SEGMENT_SIZE ltac:(done)) as Hm.
  assert (Es : seg_of p = p - p mod SEGMENT_SIZE) by apply seg_of_mod.
  destruct (Z.eqb_spec (seg_of p) 0) as [->|Hne]; [done|].
  assert (Hseg : 0 < seg_of p).
  { pose proof (Z.div_mod p SEGMENT_SIZE ltac:(done)). assert (0 <= p / SEGMENT_SIZE) by (apply Z.div_pos; [lia|done]).
    unfold SEGMENT_SIZE in *. lia. }
  destruct (inv_registry _ _ _ _ _ I) as (_ & Hreg & _). rewrite Hreg.
  - apply bool_decide_eq_false. intros Hin%elem_of_dom%Ha.
    destruct Hp as [->|Hp]; [by rewrite Z.mod_0_l in Es|].
    apply (Hin p); [lia|by left].
  - split; [pow2; lia|]. rewrite Es, Zminus_mod_idemp_r, Z.sub_diag. done.
Qed.

Lemma region_fresh m l : Forall mmap_ok l ->
  (∀ b, region m l = Some b -> all_in own_segment b) ∧
  ∀ w, dom (segs w) = dom (segs (heap m)) -> fresh_raw (region m l) w.
Proof.
  intros Hl. unfold region. destruct Hl as [|lo l Hlo _]; [done|]. destruct (_ && _) eqn:E; [|done]. zb. split.
  - intros b [= <-] s Hs1 Hs2 p Hp. apply Hlo. lia.
  - intros w Hd. apply bool_decide_eq_true in H2. unfold fresh_raw. split_and!; [lia|lia|].
    intros s Hs. apply elem_of_dom in Hs. rewrite Hd in Hs. by apply H2.
Qed.

Lemma segs_routine t idx n m l p m' : Forall mmap_ok l ->
  all_segs own_segment (heap m) -> routine plan_of (region m l) t idx n m = Ok (Block p m') ->
  all_segs own_segment (heap m').
Proof.
  intros Hl Ha E. destruct (region_fresh m l Hl) as [Hr Hf]. unfold routine, or_slow in E.
  assert (Hlist : ∀ k str sz mark p1 m1, list_refill plan_of (region m l) k str sz mark m = Ok (p1, m1) -> all_segs own_segment (heap m1)).
  { intros k str sz mark p1 m1. apply segs_list_refill; [done|]. intros w b Hb Hd. split; [by apply Hr|by apply Hf]. }
  assert (Hpop : ∀ k p1 m1, list_pop plan_of k m = Some (p1, m1) -> all_segs own_segment (heap m1)).
  { intros k p1 m1. unfold list_pop. cbv zeta. destruct (Z.eqb_spec (v_head (view_of plan_of m k)) 0); [done|]. intros [= <- <-]. by rewrite heap_with_head. }
  pose proof (Hplan idx) as Hp. destruct (plan_of idx) as [sz|cs|paired sz|sz] eqn:Eplan; [..|by apply Hno_arena in Eplan].
  - destruct (n =? sz); [|done]. cbn in Hp. rewrite (jit_pop_list plan_of), (freelist_refill_list plan_of) in E by lia.
    destruct (list_pop plan_of (t, idx, None) m) as [[p1 m1]|] eqn:E1; [injection E as <- <-; by eapply Hpop|].
    unbind E. destruct x as [p1 m1]. injection E as <- <-. by eapply Hlist.
  - pose proof (class_of_lookup cs n 0) as Hc. destruct (Jit.class_of cs n 0) as [c|]; [|done].
    destruct Hc as [_ Hc]. rewrite Nat.sub_0_r in Hc. destruct Hp as [Hcs Hlen].
    pose proof (lookup_lt_Some _ _ _ Hc) as Hlt. rewrite Forall_lookup in Hcs. specialize (Hcs c n Hc). cbn in Hcs.
    rewrite (jit_multi_pop_list plan_of), (multi_refill_list plan_of) in E by (unfold MULTI_MAX_CLASSES; lia).
    destruct (list_pop plan_of (t, idx, Some (Z.of_nat c)) m) as [[p1 m1]|] eqn:E1; [injection E as <- <-; by eapply Hpop|].
    unbind E. destruct x as [p1 m1]. injection E as <- <-. by eapply Hlist.
  - destruct (n =? sz); [|done]. destruct (jit_bump t idx sz m) as [[p1 m1]|] eqn:E1.
    + injection E as <- <-. unfold jit_bump in E1. case_match; [|done]. by injection E1 as <- <-.
    + destruct (_ =? 0); [|done]. unbind E. destruct x as [p1 m1]. injection E as <- <-.
      apply (segs_region own_segment (region m l) t (if paired then PairedStack else BumpAlloc) idx sz m p1);
        [done| |by destruct paired].
      intros b Hb. split; [by apply Hr|by apply Hf].
Qed.

Lemma no_reset t idx n m U : survivors plan_of t idx n m U = U.
Proof.
  unfold survivors, reset_seg. destruct (plan_of idx) eqn:E; try done. by apply Hno_arena in E.
Qed.

Lemma routine_law_ok w t fn n : heaps_ok w ->
  match slot_routine t fn n w with
  | Ok (Serves p, w') => heaps_ok w' ∧ lc_live (libc w') = lc_live (libc w) ∧ p ∉ user_set w ∧ user_set w' = {[p]} ∪ user_set w
  | Ok (_, w') => heaps_ok w' ∧ lc_live (libc w') = lc_live (libc w) ∧ user_set w' = user_set w
  | Trap e => e = AssertFailed
  end.
Proof.
  intros Hw. unfold slot_routine. pose proof (ok_inv _ Hw) as (L & R & I).
  pose proof (ok_own _ Hw) as Ha. pose proof (ok_mmaps _ Hw) as Hl.
  destruct (fl w) as [m U] eqn:Efl. cbn [st user] in *.
  destruct (code w fn) as [idx site]. destruct (region_fresh m (mmaps w) Hl) as [_ Hf].
  pose proof (routine_ok plan_of Hplan m U L R _ t idx n I (Hf (heap m) eq_refl)) as Hr. rewrite no_reset in *.
  destruct Hr as [[_ ->]|[(why & ->)|(p & m' & L' & R' & E & _ & I')]]; [done..|].
  pose proof (segs_routine _ _ _ _ _ _ _ Hl Ha E) as Ha'. rewrite E. cbn [mbind res_bind].
  set (w' := mkHeaps _ _ _ _). assert (Hw' : heaps_ok w').
  { destruct Hw. split; [by exists L', R'|done|done|]. cbn. case_match; [|done]. by destruct Hl. }
  split_and!; [done..| |by unfold user_set; rewrite Efl]. pose proof (user_NoDup w' Hw') as [Hp _]%NoDup_cons.
  unfold user_set. by rewrite elem_of_list_to_set, Efl.
Qed.

Lemma release_ok w t p : heaps_ok w -> p ∈ user (fl w) ->
  ∃ w', release_managed t p w = Ok w' ∧ heaps_ok w' ∧ lc_live (libc w') = lc_live (libc w) ∧
    user_set w' = user_set w ∖ {[p]}.
Proof.
  intros Hw Hp. pose proof (user_NoDup w Hw) as Hnd. unfold release_managed.
  destruct Hw as [(L & R & I) Ha Hn Hl].
  assert (HU : user (fl w) ≡ₚ p :: filter (λ q, q ≠ p) (user (fl w))).
  { apply NoDup_Permutation; [done| |].
    + apply NoDup_cons. split; [|by apply NoDup_filter]. intros Hin%list_elem_of_filter. tauto.
    + intros q. rewrite elem_of_cons, list_elem_of_filter. destruct (decide (q = p)) as [->|]; tauto. }
  destruct (heap_free_ok plan_of Hplan _ _ L R I t p _ HU) as (_ & m' & L' & R' & E & I').
  rewrite E. cbn [mbind res_bind]. eexists. split; [done|]. split_and!; [|done|].
  - split; [by exists L', R'|by eapply segs_free|done|done].
  - unfold user_set. cbn. apply set_eq. intros q.
    rewrite elem_of_difference, !elem_of_list_to_set, list_elem_of_filter, elem_of_singleton. tauto.
Qed.

(** The reaper's sweep takes no block away. *)
Definition sweep_heap (mode : ReapMode) (ps : Z) (pred : CallSiteID -> bool) (w : heaps A) : res (heaps A) :=
  '(_, w1) ← reaper_sweep mode (Some pred) ps (heap (st (fl w)));
  Ok (set_fl (mkConf (set_heap w1 (st (fl w))) (user (fl w))) w).

Lemma sweep_apply_dom mode ps l w w' : sweep_apply mode ps l w = Ok w' -> dom (segs w') ⊆ dom (segs w).
Proof.
  revert w. induction l as [|s l IH]; intros w E; cbn [sweep_apply] in E; [by injection E as ->|].
  apply bind_Ok in E as (w1 & E1 & E). etrans; [by apply IH|]. case_bool_decide.
  - unfold decommit_segment in E1. destruct (_ || _)%bool; [by injection E1 as <-|].
    apply bind_Ok in E1 as (h & Eh & E1). injection E1 as <-. apply header_lookup, elem_of_dom_2 in Eh. cbn.
    rewrite dom_insert_L. apply union_subseteq. split; [by apply singleton_subseteq_l|done].
  - injection E1 as <-. unfold free_segment. destruct (s =? 0); [done|]. unfold unmap, unregister_segment. cbn.
    destruct (pagemap_mark_frame s false w) as (<- & _). rewrite dom_delete_L. apply subseteq_difference_l. done.
Qed.

Lemma sweep_dom mode ps pred w n w' : reaper_sweep mode pred ps w = Ok (n, w') -> dom (segs w') ⊆ dom (segs w).
Proof.
  intros E. apply bind_Ok in E as (l & _ & E). apply bind_Ok in E as (w1 & E & E1). injection E1 as _ <-.
  by eapply sweep_apply_dom.
Qed.

Lemma sweep_ok mode ps pred w : heaps_ok w ->
  ∃ w', sweep_heap mode ps pred w = Ok w' ∧ heaps_ok w' ∧ libc w' = libc w ∧ user_set w' = user_set w.
Proof.
  intros [(L & R & I) Ha Hn Hl].
  destruct (reap_ok plan_of Hplan mode (Some pred) ps _ _ L R I) as (n & w1 & E & I1).
  unfold sweep_heap. rewrite E. cbn [mbind res_bind]. eexists. split; [reflexivity|].
  split_and!; [|done|done]. split; cbn; [by exists L, R| |done|done].
  apply sweep_dom in E. intros s Hs. apply Ha. apply elem_of_dom. apply elem_of_dom in Hs. by apply E.
Qed.

#[export] Instance segment_heap_laws : HeapLaws (heaps A) g_bootstrap.
Proof.
  refine {| heap_ok := heaps_ok; libc_live w := lc_live (libc w); seg_live := user_set |};
    cbn [real_malloc real_free real_realloc run_routine managed free_managed segment_heaps].
  - intros w p Hw Hp. destruct (lc_addr_law _ p (ok_libc _ Hw) Hp) as [Hd Hb].
    split_and!; [lia| |by apply Hboot]. apply foreign_unmanaged; [done|by right|lia].
  - intros w p Hw Hp. unfold user_set in Hp. rewrite elem_of_list_to_set in Hp.
    destruct (user_block w p Hw Hp) as (Hp0 & Hf & Hm). split_and!; [lia|done|].
    destruct (is_bootstrap g_bootstrap p) eqn:E; [|done]. exfalso. apply Hf. by right.
  - intros w n [Hi Ho Ha Hl]. unfold libc_malloc. pose proof (lc_malloc_law (libc w) n Ha) as Hm.
    destruct (lc_malloc n (libc w)) as [p a]. destruct Hm as [Ha' Hm]. by split_and!.
  - intros w Hw. split; [apply foreign_unmanaged; [done|by left|done]|].
    unfold libc_free. rewrite lc_null_law by apply Hw. by destruct w.
  - intros w p [Hi Ho Ha Hl] Hp. unfold libc_free. destruct (lc_free_law _ p Ha Hp) as (a & -> & Ha' & El).
    eexists. by split_and!.
  - intros w p n [Hi Ho Ha Hl] Hp. unfold libc_realloc. destruct (lc_realloc_law _ p n Ha Hp) as (q & a & -> & Ha' & El).
    eexists _, _. by split_and!.
  - intros w t fn n Hw. by apply routine_law_ok.
  - intros w t p Hw Hp. unfold user_set in Hp. rewrite elem_of_list_to_set in Hp. by apply release_ok.
Defined.

(** ** The repository's heap behind the three functions *)

Context {D : Type} `{Deopt.RoutineTable D} (dlsym : symbol -> list Z * bool) (realloc_ra : Z).
(** The three functions are in libc. *)
Context (dlsym_finds : ∀ x, (dlsym x).2 = true).

Abbreviation clients := (client (D := D) (W := heaps A) g_bootstrap dlsym realloc_ra).

(** A sweep in the background is a step of the program. *)
Lemma sweep_client mode ps pred (s : process D (heaps A)) U w' :
  heaps_ok (world s) -> sweep_heap mode ps pred (world s) = Ok w' -> clients (s, U) (set_world w' s, U).
Proof.
  intros Hw E. destruct (sweep_ok mode ps pred (world s) Hw) as (w1 & E1 & Hw1 & El & Es).
  rewrite E in E1. injection E1 as <-. apply C_background; cbn; [done|by rewrite El|done].
Qed.

End Instance.

(** ** A libc: it never reuses an address and traps on a pointer it did not hand out *)

Record fresh_libc := mkFresh { live : gset ptr; next : Z }.

Definition LIBC_LO : Z := 2 ^ 32.
Definition LIBC_HI : Z := 2 ^ 40.
Definition MMAP_LO : Z := 2 ^ 41.
Definition BOOTSTRAP : ptr := 2 ^ 20.

Definition block_bytes (n : Z) : Z := Z.max 16 (16 * ((n + 15) / 16)).

Definition fresh_malloc (n : Z) (a : fresh_libc) : ptr * fresh_libc :=
  let p := next a in
  if (0 <=? n) && (p + block_bytes n <=? LIBC_HI)
  then (p, mkFresh ({[p]} ∪ live a) (p + block_bytes n))
  else (0, a).

Definition fresh_free (p : ptr) (a : fresh_libc) : res fresh_libc :=
  if p =? 0 then Ok a
  else if bool_decide (p ∈ live a) then Ok (mkFresh (live a ∖ {[p]}) (next a))
  else Trap Unmapped.

Definition fresh_realloc (p n : Z) (a : fresh_libc) : res (ptr * fresh_libc) :=
  if p =? 0 then Ok (fresh_malloc n a)
  else if bool_decide (p ∈ live a) then
    if n =? 0 then a ← fresh_free p a; Ok (0, a)
    else let '(q, a') := fresh_malloc n a in
         if q =? 0 then Ok (0, a) else a' ← fresh_free p a'; Ok (q, a')
  else Trap Unmapped.

#[export] Instance fresh_libc_ops : Libc fresh_libc := {
  lc_malloc := fresh_malloc; lc_free := fresh_free; lc_realloc := fresh_realloc;
}.

Record fresh_ok (a : fresh_libc) : Prop := {
  ok_next : LIBC_LO <= next a <= LIBC_HI;
  ok_live p : p ∈ live a -> LIBC_LO <= p < next a;
}.

Lemma fresh_malloc_ok a n : fresh_ok a ->
  let '(p, a') := fresh_malloc n a in
  fresh_ok a' ∧ (p = 0 ∧ a' = a ∨ p ≠ 0 ∧ p ∉ live a ∧ live a' = {[p]} ∪ live a).
Proof.
  intros Ha. unfold fresh_malloc. destruct (_ && _) eqn:E; [|split; auto]. zb.
  destruct Ha as [Hn Hl] eqn:Ew. assert (16 <= block_bytes n) by (unfold block_bytes; lia).
  unfold LIBC_LO in *. split; [|right; split_and!; [lia| |done]].
  - split; cbn; [unfold LIBC_LO; lia|].
    intros p [->%elem_of_singleton|Hp]%elem_of_union; [unfold LIBC_LO; lia|]. pose proof (Hl p Hp). unfold LIBC_LO. lia.
  - intros Hp%Hl. lia.
Qed.

Lemma fresh_free_ok a p : fresh_ok a -> p ∈ live a ->
  ∃ a', fresh_free p a = Ok a' ∧ fresh_ok a' ∧ live a' = live a ∖ {[p]}.
Proof.
  intros Ha Hp. unfold fresh_free. pose proof (ok_live _ Ha p Hp). unfold LIBC_LO in *.
  rewrite (proj2 (Z.eqb_neq p 0)) by lia. rewrite bool_decide_true by done.
  eexists. split; [done|]. split; [|done]. split; cbn; [apply Ha|].
  intros q [Hq _]%elem_of_difference. by apply Ha.
Qed.

Lemma fresh_realloc_ok a p n : fresh_ok a -> p = 0 ∨ p ∈ live a ->
  ∃ q a', fresh_realloc p n a = Ok (q, a') ∧ fresh_ok a' ∧
    (q = 0 ∧ live a' = (if n =? 0 then live a ∖ {[p]} else live a) ∨
     q ∉ live a ∖ {[p]} ∧ live a' = {[q]} ∪ (live a ∖ {[p]})).
Proof.
  intros Ha Hp. unfold fresh_realloc. pose proof (fresh_malloc_ok a n Ha) as Hm.
  assert (H0 : 0 ∉ live a) by (intros H0; pose proof (ok_live _ Ha 0 H0); unfold LIBC_LO in *; lia).
  destruct (Z.eqb_spec p 0) as [->|Hp0].
  - destruct (fresh_malloc n a) as [q a'] eqn:E. exists q, a'. destruct Hm as (Ha' & Hq). split_and!; [done..|].
    assert (El : live a ∖ {[0]} = live a) by set_solver. rewrite El.
    destruct Hq as [[-> ->]|(_ & ? & ?)]; [left; by case_match|by right].
  - destruct Hp as [|Hp]; [done|]. rewrite bool_decide_true by done.
    destruct (fresh_free_ok a p Ha Hp) as (a1 & E1 & Ha1 & Hl1).
    destruct (Z.eqb_spec n 0) as [->|Hn]; [rewrite E1; exists 0, a1; cbn; auto 6|].
    destruct (fresh_malloc n a) as [q a2]. destruct Hm as (Ha2 & Hq).
    destruct (Z.eqb_spec q 0) as [->|Hq0]; [exists 0, a; auto 6|].
    destruct Hq as [[? _]|(_ & Hq & Hl2)]; [done|].
    assert (Hp2 : p ∈ live a2) by (rewrite Hl2; set_solver).
    destruct (fresh_free_ok a2 p Ha2 Hp2) as (a3 & -> & Ha3 & Hl3). cbn.
    exists q, a3. split_and!; [done..|]. right. split; [set_solver|].
    rewrite Hl3, Hl2. assert (q ≠ p) by congruence. set_solver.
Qed.

#[export] Instance fresh_libc_laws : LibcLaws fresh_libc.
Proof.
  refine {| lc_ok := fresh_ok; lc_live := live; lc_addr p := LIBC_LO <= p < LIBC_HI |}; cbn [lc_malloc lc_free lc_realloc fresh_libc_ops].
  - intros a p Ha Hp. pose proof (ok_live _ Ha p Hp). pose proof (ok_next _ Ha). unfold LIBC_LO, LIBC_HI in *. lia.
  - intros a n Ha. pose proof (fresh_malloc_ok a n Ha) as Hm. destruct (fresh_malloc n a) as [p a'].
    destruct Hm as [? [[-> ->]|(_ & ? & ?)]]; auto.
  - done.
  - intros a p Ha Hp. by apply fresh_free_ok.
  - intros a p n Ha Hp. by apply fresh_realloc_ok.
Defined.

(** ** A process *)

#[local] Existing Instance Deopt.dispatch_table.

(** The routine at 4096, of the calls returning to 4242, for blocks of 64 bytes; libc's [dlsym] allocates 72
    bytes to find [malloc]; [mmap] gives 64 regions. *)
Definition demo_slots (idx : Z) : plan := PlanList 64.
Definition demo_site : CallSiteID := hash_return_addr 4242.
Definition demo_heaps : Heaps (heaps fresh_libc) := segment_heaps demo_slots.
Definition demo_dlsym (x : symbol) : list Z * bool :=
  (match x with SymMalloc => [72] | _ => [] end, true).
Definition demo_mmaps : list Z := (λ i, MMAP_LO + i * (2 * SEGMENT_SIZE)) <$> seqZ 0 64.
Definition heaps0 : heaps fresh_libc := heaps_init (mkFresh ∅ LIBC_LO) demo_mmaps (λ _, (0, demo_site)).

Lemma demo_slots_ok : ∀ idx, plan_ok (demo_slots idx).
Proof. intros idx. cbn. unfold POINTER_SIZE. lia. Qed.

Lemma demo_slots_no_arena : ∀ idx sz, demo_slots idx ≠ PlanArena sz.
Proof. done. Qed.

Lemma demo_boot : ∀ p, lc_addr p -> is_bootstrap BOOTSTRAP p = false.
Proof.
  intros p Hp. cbn in Hp. unfold is_bootstrap, BOOTSTRAP, BOOTSTRAP_SIZE, LIBC_LO in *.
  apply andb_false_iff. right. apply Z.ltb_ge. lia.
Qed.

Lemma demo_mmaps_ok : Forall (mmap_ok BOOTSTRAP) demo_mmaps.
Proof.
  unfold demo_mmaps. apply Forall_fmap, Forall_seqZ. intros i Hi p Hp. cbn in Hp.
  unfold foreign, is_bootstrap, BOOTSTRAP, BOOTSTRAP_SIZE, MMAP_LO, SEGMENT_SIZE in *. cbn.
  unfold LIBC_LO, LIBC_HI. intros [?|?]; [lia|]. zb. lia.
Qed.

Lemma demo_libc_ok : lc_ok (mkFresh ∅ LIBC_LO).
Proof. split; cbn; [done|set_solver]. Qed.

Lemma heaps0_ok : heaps_ok demo_slots BOOTSTRAP heaps0.
Proof. apply heaps_init_ok; [exact demo_libc_ok|exact demo_mmaps_ok]. Qed.

#[local] Existing Instance demo_heaps.
Definition demo_laws : HeapLaws (heaps fresh_libc) BOOTSTRAP :=
  segment_heap_laws demo_slots BOOTSTRAP demo_slots_ok demo_slots_no_arena demo_boot.
#[local] Existing Instance demo_laws.

Abbreviation demo_world := (heaps fresh_libc).
Abbreviation demo_process := (process Dispatch.state demo_world).
Definition demo_malloc : caller -> Z -> M Dispatch.state demo_world ptr := malloc BOOTSTRAP demo_dlsym.
Definition demo_free : caller -> ptr -> M Dispatch.state demo_world unit := Trampoline.free BOOTSTRAP demo_dlsym.
Definition demo_realloc : caller -> ptr -> Z -> M Dispatch.state demo_world ptr := realloc BOOTSTRAP demo_dlsym 5000.
Definition demo_init : M Dispatch.state demo_world unit := tbjit_init BOOTSTRAP demo_dlsym 3.

(** The state after an operation. *)
Definition after {A} (m : M Dispatch.state demo_world A) (s : demo_process) : demo_process :=
  match m s with Ok (_, s') => s' | Trap _ => s end.
Definition result {A} (d : A) (m : M Dispatch.state demo_world A) (s : demo_process) : A :=
  match m s with Ok (a, _) => a | Trap _ => d end.

(** Thread 3, from the compiled site. *)
Definition demo_caller : caller := mkCaller 3 4242 99.

Definition s_early := after (demo_malloc demo_caller 100) (process0 heaps0).
Definition p_early := result 0 (demo_malloc demo_caller 100) (process0 heaps0).
Definition s_ready := after demo_init s_early.
Definition d_compiled := default (Trampoline.deopt s_ready)
  (Deopt.act true (Deopt.Install demo_site 4096) (Trampoline.deopt s_ready)).
Definition s_compiled := set_deopt d_compiled s_ready.
Definition s_served := after (demo_malloc demo_caller 64) s_compiled.
Definition p_served := result 0 (demo_malloc demo_caller 64) s_compiled.

Definition at_fini := after tbjit_fini s_served.

Definition returns {A} (m : M Dispatch.state demo_world A) (s : demo_process) : bool :=
  match m s with Ok _ => true | Trap _ => false end.

Lemma after_result {A} (d : A) (m : M Dispatch.state demo_world A) s :
  returns m s = true -> m s = Ok (result d m s, after m s).
Proof. unfold returns, result, after. by destruct (m s) as [[a s']|]. Qed.

Lemma demo_early : demo_malloc demo_caller 100 (process0 heaps0) = Ok (p_early, s_early).
Proof. exact (after_result 0 (demo_malloc demo_caller 100) (process0 heaps0) ltac:(vm_compute; reflexivity)). Qed.
Lemma demo_ready : demo_init s_early = Ok (tt, s_ready).
Proof.
  assert (E : tt = result tt demo_init s_early) by (by destruct (result _ _ _)).
  rewrite E. exact (after_result tt demo_init s_early ltac:(vm_compute; reflexivity)).
Qed.
Lemma demo_served : demo_malloc demo_caller 64 s_compiled = Ok (p_served, s_served).
Proof. exact (after_result 0 (demo_malloc demo_caller 64) s_compiled ltac:(vm_compute; reflexivity)). Qed.


(** [realloc] after the destructor.  [free] then drops a block of the segment
    heap, but [realloc] hands it to libc, which does not know it. *)
Example realloc_after_fini :
  managed p_served (world at_fini) = true ∧
  returns (demo_free demo_caller p_served) at_fini = true ∧
  returns (demo_realloc demo_caller p_served 100) s_served = true ∧
  demo_realloc demo_caller p_served 100 at_fini = Trap Unmapped.
Proof. vm_compute. auto. Qed.

(** A failing [realloc] frees the block.  libc cannot serve 2^41 bytes; the
    result is null, and the block is no longer live, although the caller of a
    failed [realloc] still owns it. *)
Example failed_realloc_frees :
  let q := result 1 (demo_realloc demo_caller p_served (2 ^ 41)) s_served in
  let s := after (demo_realloc demo_caller p_served (2 ^ 41)) s_served in
  q = 0 ∧ user (fl (world s_served)) = [p_served] ∧ user (fl (world s)) = [].
Proof. vm_compute. auto. Qed.
