(* ===== verification/Pipeline.v ===== *)
(** * From events to code

    The parts of the background thread put together: an event may complete a window
    ([Analysis.process_event]), the site is compiled into a fresh page
    ([Codegen.compile]) and the routine installed ([Dispatch.install]); reported
    deopts reset sites and their pages are unmapped in time, while threads look
    routines up, run them and fail their guards ([Deopt.act]).  Each part is used
    as its own file defines it; this file says what they do together. *)

From S2P Require Import Prelude Common Double Histogram X86 Emitter Jit SlowInit Analysis Picker Summaries Codegen.
From S2P Require Dispatch Deopt.
#[local] Open Scope Z_scope.
#[local] Existing Instances Deopt.dispatch_table Deopt.dispatch_table_laws.

(** ** The state of the process that specialization changes *)

Record system := mkSystem {
  summaries : list CallSiteSummary;
  compiler : codegen;
  deopts : Deopt.state Dispatch.state;
}.

Definition system0 : system := mkSystem [] codegen0 Deopt.init.

Section Event.
Context `{Image} (K : Knobs).
(** [is_managed] and the [alloc_site] of a block's segment header, at the event. *)
Context (managed : ptr -> bool) (site_of : ptr -> CallSiteID).

Definition with_compiler (f : RoutineSpec -> ptr) : Backend := 
  Build_Backend (λ ev, managed (ev_ptr ev)) (λ ev, site_of (ev_ptr ev)) (λ _, f).

(** What the analysis asks to be compiled: it is run with a compiler that always
    succeeds, and the specification is that of the site then compiled. *)
Definition requested (ev : AllocEvent) (l : list CallSiteSummary) : option RoutineSpec :=
  match process_event (B := with_compiler (λ _, 1)) K ev l with
  | (l', Some (id, _)) => i ← find_site id l'; s ← l' !! i; Some (spec_of s)
  | (_, None) => None
  end.

(** [dispatch::install], and the page the routine is in. *)
Definition install (id : CallSiteID) (page : ptr) (d : Deopt.state Dispatch.state)
  : res (Deopt.state Dispatch.state) :=
  t ← Dispatch.install id page (Deopt.table d);
  Ok (Deopt.mkState t (Deopt.g_epoch d) (Deopt.g_deopt_queue d) (Deopt.g_pending d) (Deopt.epochs d)
        (Deopt.threads d) ({[page]} ∪ Deopt.mapped d) (<[page := id]> (Deopt.baked d)) (Deopt.resets d)).

(** An event; [raw] is what [mmap] returns if a page is asked for. *)
Definition on_event (raw : option ptr) (ev : AllocEvent) (s : system) : res system :=
  match requested ev (summaries s) with
  | None => Ok (mkSystem (process_event (B := with_compiler (λ _, 0)) K ev (summaries s)).1 (compiler s) (deopts s))
  | Some spec =>
      '(routine, cg) ← Codegen.compile raw spec (compiler s);
      let '(l, inst) := process_event (B := with_compiler (λ _, routine)) K ev (summaries s) in
      match inst with
      | None => Ok (mkSystem l cg (deopts s))
      | Some (id, fn) => d ← install id fn (deopts s); Ok (mkSystem l cg d)
      end
  end.

Definition valid_site (id : CallSiteID) : Prop := id ≠ 0 ∧ fits 32 id.

(** ** What is asked for is what is compiled *)

(** The result of an event, whatever the compiler: the summary table up to the
    code page, and the routine to install. *)
Definition answered (f : RoutineSpec -> ptr) (spec : RoutineSpec) : option (CallSiteID * ptr) :=
  if f spec =? 0 then None else Some (spec_id spec, f spec).

Lemma spec_of_page v s : spec_of (set_code_page v s) = spec_of s.
Proof. by summary s. Qed.

Lemma advance_request f s :
  let yes := advance_prespec (B := with_compiler (λ _, 1)) K s in
  let r := advance_prespec (B := with_compiler f) K s in
  match yes.2 with
  | None => r = yes
  | Some (id, _) => id = s_id yes.1 ∧ r.2 = answered f (spec_of yes.1)
  end.
Proof.
  unfold advance_prespec, with_compiler. cbn [compile]. repeat case_match; try done; simplify_eq/=.
  - rewrite spec_of_page. unfold answered. split; [by destruct (learn K _)|]. by rewrite (proj2 (Z.eqb_eq _ _)) by (by zb).
  - rewrite spec_of_page. unfold answered. split; [by destruct (learn K _)|].
    match goal with H : (_ =? 0) = false |- _ => by rewrite H end.
Qed.
Lemma alloc_request f ev s :
  let yes := on_alloc (B := with_compiler (λ _, 1)) K ev s in
  let r := on_alloc (B := with_compiler f) K ev s in
  match yes.2 with
  | None => r = yes
  | Some (id, _) => id = s_id yes.1 ∧ r.2 = answered f (spec_of yes.1)
  end.
Proof.
  unfold on_alloc. destruct (bool_decide _); [|done]. destruct (full _ _); [|done]. apply advance_request.
Qed.

Lemma find_index_end id l k :
  find_index (λ s, s_id s =? id) l k = None ->
  find_index (λ s, s_id s =? id) (l ++ [summary0 id]) k = Some (k + length l)%nat.
Proof.
  revert k. induction l as [|s l IH]; intros k; simpl; [by rewrite Z.eqb_refl, Nat.add_0_r|].
  destruct (s_id s =? id); [done|]. intros E. rewrite IH by done. f_equal. lia.
Qed.

Lemma find_site_created id l i l' : find_or_create id l = (Some i, l') -> find_site id l' = Some i.
Proof.
  unfold find_or_create. destruct (find_site id l) as [j|] eqn:E; [by intros [= <- <-]|].
  destruct (_ >=? _); [done|]. intros [= <- <-]. unfold find_site in *. by rewrite find_index_end.
Qed.

Lemma find_site_ids id l l' : s_id <$> l = s_id <$> l' -> find_site id l = find_site id l'.
Proof.
  intros E. unfold find_site. destruct (find_index _ l 0) as [i|] eqn:E1.
  - symmetry. eapply find_index_prefix; [|exact E1]. by rewrite E.
  - destruct (find_index _ l' 0) as [i|] eqn:E2; [|done]. rewrite <- E1.
    eapply find_index_prefix; [|exact E2]. by rewrite E.
Qed.

(** The event's outcome with any compiler, from what was requested. *)
Lemma event_request f ev l :
  let r := process_event (B := with_compiler f) K ev l in
  match requested ev l with
  | None => r = process_event (B := with_compiler (λ _, 0)) K ev l ∧ r.2 = None
  | Some spec => r.2 = answered f spec
  end.
Proof.
  unfold requested, process_event. cbn [Analysis.managed Analysis.site_of with_compiler].
  destruct (ev_size ev =? 0).
  { destruct (ev_ptr ev =? 0); [done|]. destruct (managed (ev_ptr ev)).
    - by destruct (find_or_create _ l) as [[i|] l'].
    - by destruct (find_index _ l 0) as [i|]. }
  destruct (ev_size ev >=? MAX_SIZE); [done|].
  destruct (find_or_create (ev_call_site ev) l) as [[i|] l'] eqn:Ec; [|done].
  pose proof (find_or_create_spec (ev_call_site ev) l) as Hs. rewrite Ec in Hs. destruct Hs as [(s & Ei & Hid) _].
  rewrite Ei. pose proof (alloc_request f ev s) as Hf. pose proof (alloc_request (λ _, 0) ev s) as H0. cbv zeta in Hf, H0.
  pose proof (s_id_alloc (B := with_compiler (λ _, 1)) K ev s) as Hsid.
  destruct (on_alloc (B := with_compiler (λ _, 1)) K ev s) as [s1 [[id r]|]] eqn:E1; cbn [fst snd] in *.
  - destruct Hf as [-> Hf]. rewrite Hsid, Hid.
    assert (E : find_site (ev_call_site ev) (<[i := s1]> l') = Some i).
    { rewrite <- (find_site_created _ _ _ _ Ec). apply find_site_ids. by erewrite ids_insert by done. }
    rewrite E. cbn [mbind option_bind]. rewrite list_lookup_insert_eq by (by eapply lookup_lt_Some). cbn [mbind option_bind].
    by destruct (on_alloc (B := with_compiler f) K ev s).
  - rewrite Hf, H0. done.
Qed.

(** ** What is compiled is well formed *)

Context (HK : knobs_ok K) (Hsite : ∀ p, managed p = true -> valid_site (site_of p)).

Record valid_spec (spec : RoutineSpec) : Prop := {
  v_site : valid_site (spec_id spec);
  v_size : 0 <= spec_size spec;
  v_classes : Forall (λ c, c < 2 ^ 31) (spec_class_sizes spec);
}.

Lemma dominant_size_nonneg l : Z.of_nat (length l) < 2 ^ 32 -> Forall sized l -> 0 <= dominant_size (hist_of l).
Proof.
  intros Hl HF. unfold dominant_size. pose proof (dominant_loop_hist (hist_of l)) as Hd.
  destruct (dominant_loop _ _ _) as [[j m]|]; [|done]. destruct Hd as (Hj & _).
  apply list_elem_of_lookup_2 in Hj. pose proof (proj1 (Forall_forall _ _) (hist_sizes l Hl HF) m Hj) as Hm.
  unfold sized in Hm. cbn in Hm. lia.
Qed.

Lemma spec_of_valid s : summary_ok K s -> valid_site (s_id s) -> valid_spec (spec_of s).
Proof.
  intros [Hb _] Hid. destruct (k_window _ HK). destruct (ok_current _ _ Hb) as (l & E & Hl & HF). split; [done| |].
  - cbn [spec_of spec_size]. rewrite E. apply dominant_size_nonneg; [lia|done].
  - cbn [spec_of spec_class_sizes]. case_bool_decide; [|constructor]. apply Forall_fmap.
    eapply Forall_impl; [exact (proj2 (ok_classes _ _ Hb))|]. intros m. unfold sized. cbn. lia.
Qed.

(** The sites of the table after an event do not depend on the compiler. *)
Lemma event_ids f g ev l :
  s_id <$> (process_event (B := with_compiler f) K ev l).1 = s_id <$> (process_event (B := with_compiler g) K ev l).1.
Proof.
  unfold process_event. cbn [Analysis.managed Analysis.site_of with_compiler].
  destruct (ev_size ev =? 0); [done|]. destruct (ev_size ev >=? MAX_SIZE); [done|].
  destruct (find_or_create (ev_call_site ev) l) as [[i|] l']; [|done]. destruct (l' !! i) as [s|] eqn:Ei; [|done].
  pose proof (s_id_alloc (B := with_compiler f) K ev s) as Hf. pose proof (s_id_alloc (B := with_compiler g) K ev s) as Hg.
  destruct (on_alloc (B := with_compiler f) K ev s), (on_alloc (B := with_compiler g) K ev s). cbn [fst] in *.
  by rewrite !(ids_insert s) by done.
Qed.

Lemma event_wf_table f ev l :
  valid_site (ev_call_site ev) -> table_wf valid_site l ->
  table_wf valid_site (process_event (B := with_compiler f) K ev l).1.
Proof.
  intros Hev. apply (grows_wf K HK). apply (grows_step K _ (B := with_compiler f) (Event ev)).
  split; [done|apply Hsite].
Qed.

Lemma requested_valid ev l spec :
  event_wf ev -> valid_site (ev_call_site ev) -> Forall (summary_ok K) l -> table_wf valid_site l ->
  requested ev l = Some spec ->
  valid_spec spec ∧ ∀ f, spec_id spec ∈ s_id <$> (process_event (B := with_compiler f) K ev l).1.
Proof.
  intros Hw Hev Hl Ht Hr. pose proof (apply_op_ok (B := with_compiler (λ _, 1)) K (Event ev) l HK Hw Hl) as Hl'.
  pose proof (event_wf_table (λ _, 1) ev l Hev Ht) as (_ & _ & Hids). cbn [apply_op] in Hl'.
  unfold requested in Hr. pose proof (λ f, event_ids f (λ _, 1) ev l) as He.
  destruct (process_event (B := with_compiler (λ _, 1)) K ev l) as [l' [[id p]|]]; [|done]. cbn [fst] in *.
  destruct (find_site id l') as [i|]; [|done]. cbn [mbind option_bind] in Hr.
  destruct (l' !! i) as [s|] eqn:Ei; [|done]. cbn [mbind option_bind] in Hr. injection Hr as <-.
  apply list_elem_of_lookup_2 in Ei. assert (Hs : s_id s ∈ s_id <$> l') by (apply list_elem_of_fmap; eauto).
  rewrite Forall_forall in Hids. rewrite Forall_forall in Hl'. split.
  - apply spec_of_valid; auto.
  - intros f. rewrite He. exact Hs.
Qed.

Definition known_ids (s : system) : gset Z := list_to_set (s_id <$> summaries s).

(** What holds of the tables whatever pages [mmap] hands out: the summaries are well
    formed, the dispatch table holds sites of the summary table only, and the code of
    a page holds the id of a site. *)
Record base_inv (n : nat) (s : system) : Prop := {
  b_summaries : Forall (summary_ok K) (summaries s);
  b_table : table_wf valid_site (summaries s);
  b_ok : Dispatch.wf (Dispatch.g_table (Deopt.table (deopts s)));
  b_ids : Dispatch.ids_in (Dispatch.g_table (Deopt.table (deopts s))) (known_ids s);
  b_baked P id : Deopt.baked (deopts s) !! P = Some id -> id ≠ 0;
  b_next : 0 <= g_next_index (compiler s) <= Z.of_nat n;
}.

Lemma base_inv0 : base_inv 0 system0.
Proof.
  split; simpl; try done; try lia.
  - split_and!; [done|constructor|constructor].
  - intros k Hk. by destruct Hk.
Qed.

Lemma ids_in_grow t S S' : S ⊆ S' -> Dispatch.ids_in t S -> Dispatch.ids_in t S'.
Proof. intros HS Ht k Hk. by apply HS, Ht. Qed.

Lemma known_ids_event f ev s cg d :
  known_ids s ⊆ known_ids (mkSystem (process_event (B := with_compiler f) K ev (summaries s)).1 cg d).
Proof.
  unfold known_ids. cbn [summaries]. destruct (ids_step (B := with_compiler f) K (Event ev) (summaries s)) as [l E].
  cbn [apply_op] in E. rewrite E, list_to_set_app_L. set_solver.
Qed.

Lemma known_ids_size s : table_wf valid_site (summaries s) -> (base.size (known_ids s) <= 4096)%nat.
Proof.
  intros (Hl & _). unfold known_ids. etrans; [apply size_list_to_set_le|]. rewrite length_fmap.
  unfold MAX_CALL_SITES in Hl. lia.
Qed.

(** What an event does to the summaries, whatever else it does. *)
Lemma summaries_event f ev l :
  event_wf ev -> valid_site (ev_call_site ev) -> Forall (summary_ok K) l -> table_wf valid_site l ->
  let l' := (process_event (B := with_compiler f) K ev l).1 in Forall (summary_ok K) l' ∧ table_wf valid_site l'.
Proof.
  intros Hw Hev Hl Ht. split; [by apply (apply_op_ok (B := with_compiler f) K (Event ev))|by apply event_wf_table].
Qed.

(** [compile] refuses, or takes a slot and writes the page. *)
Lemma compile_outcome raw spec cg r cg' :
  (∀ page, raw = Some page -> 0 < page) -> 0 <= g_next_index cg -> g_next_index cg + 1 < 2 ^ 32 ->
  Codegen.compile raw spec cg = Ok (r, cg') ->
  r = 0 ∧ slot_to_site cg' = slot_to_site cg ∧ pages cg' = pages cg ∧
    g_next_index cg <= g_next_index cg' <= g_next_index cg + 1 ∨
  ∃ sh, let idx := g_next_index cg in raw = Some r ∧ 0 < r ∧ accepts spec = Some sh ∧ idx < MAX_COMPILED_SITES ∧
    cg' = mkCodegen (idx + 1) (<[idx := spec_id spec]> (slot_to_site cg)) (<[r := emit sh spec idx r]> (pages cg)).
Proof.
  intros Hraw H0 Hlt Hc. destruct raw as [page|].
  - specialize (Hraw page eq_refl). rewrite compile_split in Hc by lia.
    destruct (accepts spec) as [sh|] eqn:E; [|left; simplify_eq; split_and!; done || lia].
    cbv zeta in Hc. rewrite u32_small in Hc by lia. destruct (_ <? _) eqn:El; zb; simplify_eq.
    + right. exists sh. by split_and!.
    + left. cbn. split_and!; done || lia.
  - left. unfold Codegen.compile in Hc. destruct (accepts spec) as [sh|]; [|simplify_eq; split_and!; done || lia].
    unfold alloc_slot_index in Hc. cbv zeta in Hc. destruct (_ <? MAX_COMPILED_SITES) eqn:El.
    + rewrite Z.geb_leb, (proj2 (Z.leb_gt _ _)) in Hc by (by zb). done.
    + change (MAX_COMPILED_SITES >=? MAX_COMPILED_SITES) with true in Hc. cbv iota in Hc. simplify_eq. cbn.
      rewrite u32_small by lia. split_and!; done || lia.
Qed.

(** The page is installed: the table holds it, and it is mapped. *)
Definition installed (id : CallSiteID) (page : ptr) (t : Dispatch.state) (d : Deopt.state Dispatch.state)
  : Deopt.state Dispatch.state :=
  Deopt.mkState t (Deopt.g_epoch d) (Deopt.g_deopt_queue d) (Deopt.g_pending d) (Deopt.epochs d)
    (Deopt.threads d) ({[page]} ∪ Deopt.mapped d) (<[page := id]> (Deopt.baked d)) (Deopt.resets d).

(** What an event can do to the system: move the summaries and the slot counter, or
    compile a routine into the page as well. *)
Inductive outcome (raw : option ptr) (s : system) : system -> Prop :=
  | O_refused l cg :
      Forall (summary_ok K) l -> table_wf valid_site l -> s_id <$> summaries s `prefix_of` s_id <$> l ->
      slot_to_site cg = slot_to_site (compiler s) -> pages cg = pages (compiler s) ->
      g_next_index (compiler s) <= g_next_index cg <= g_next_index (compiler s) + 1 ->
      outcome raw s (mkSystem l cg (deopts s))
  | O_compiled l spec sh page t :
      let idx := g_next_index (compiler s) in
      Forall (summary_ok K) l -> table_wf valid_site l -> s_id <$> summaries s `prefix_of` s_id <$> l ->
      raw = Some page -> 0 < page -> valid_spec spec -> accepts spec = Some sh -> idx < MAX_COMPILED_SITES ->
      Dispatch.install (spec_id spec) page (Deopt.table (deopts s)) = Ok t ->
      Dispatch.ids_in (Dispatch.g_table t) (list_to_set (s_id <$> l)) ->
      outcome raw s (mkSystem l
        (mkCodegen (idx + 1) (<[idx := spec_id spec]> (slot_to_site (compiler s)))
           (<[page := emit sh spec idx page]> (pages (compiler s))))
        (installed (spec_id spec) page t (deopts s))).

(** An event, whatever is asked for, and what it can never do: fail the assertion
    of [install]. *)
Lemma event_outcome n s raw ev :
  Z.of_nat n + 2 < 2 ^ 32 -> base_inv n s -> event_wf ev -> valid_site (ev_call_site ev) ->
  (∀ page, raw = Some page -> 0 < page) ->
  match on_event raw ev s with Ok s' => outcome raw s s' | Trap _ => raw = None end.
Proof.
  intros Hn [I1 I2 I3 I4 _ I5] Hw Hev Hpos.
  pose proof (λ f, summaries_event f ev (summaries s) Hw Hev I1 I2) as Hs.
  pose proof (λ f, ids_step (B := with_compiler f) K (Event ev) (summaries s)) as Hids. cbn [apply_op] in Hids.
  unfold on_event. pose proof (λ f, event_request f ev (summaries s)) as Hreq. cbv zeta in Hreq.
  destruct (requested ev (summaries s)) as [spec|] eqn:Er.
  2:{ destruct (Hs (λ _, 0)). apply O_refused; try done; lia. }
  destruct (requested_valid ev _ spec Hw Hev I1 I2 Er) as [Hv Hin].
  destruct (Codegen.compile raw spec (compiler s)) as [[r cg]|t] eqn:Ec.
  2:{ unfold mbind, res_bind. destruct raw as [page|]; [|done]. specialize (Hpos page eq_refl). rewrite compile_split in Ec by lia. by destruct (accepts spec). }
  cbn [mbind res_bind]. specialize (Hreq (λ _, r)). specialize (Hs (λ _, r)). specialize (Hids (λ _, r)).
  specialize (Hin (λ _, r)).
  destruct (process_event (B := with_compiler (λ _, r)) K ev (summaries s)) as [l inst]. cbn [fst snd] in *.
  destruct Hs as [Hl Ht]. rewrite Hreq. unfold answered.
  destruct (compile_outcome raw spec (compiler s) r cg Hpos) as [(-> & Es & Ep & Hx)|(sh & -> & Hr & Hacc & Hlt & ->)];
    [lia|pow2; lia|done| |].
  { by apply O_refused. }
  rewrite (proj2 (Z.eqb_neq r 0)) by lia.
  assert (Hgrow : known_ids s ⊆ list_to_set (s_id <$> l)).
  { destruct Hids as [new E]. unfold known_ids. rewrite E, list_to_set_app_L. set_solver. }
  destruct (Dispatch.install_total (spec_id spec) r (Deopt.table (deopts s)) (list_to_set (s_id <$> l))) as (t & Et & Hti).
  { done. }
  { by apply elem_of_list_to_set. }
  { by eapply ids_in_grow. }
  { exact (known_ids_size (mkSystem l (compiler s) (deopts s)) Ht). }
  unfold install. rewrite Et. cbn [mbind res_bind]. by apply O_compiled.
Qed.
End Event.

(** ** The steps of the process *)

Section Pipeline.
Context `{Image} (K : Knobs).

(** One round of [drain_pending]'s loop: the reset of the site. *)
Definition on_drain (s : system) : option system :=
  d ← Deopt.drain_one (deopts s);
  match Deopt.resets d with
  | (id, reason) :: _ => Some (mkSystem (reset_call_site K id reason (summaries s)) (compiler s) d)
  | [] => None
  end.

(** The reclaim pass. *)
Definition on_sweep (s : system) : system :=
  let old := filter (λ p, Deopt.p_epoch p < Deopt.min_epoch (deopts s)) (Deopt.g_pending (deopts s)) in
  mkSystem (summaries s) (foldr Codegen.reclaim (compiler s) (Deopt.p_page <$> old)) (Deopt.sweep (deopts s)).

(** What the other threads do. *)
Definition by_thread (a : Deopt.action) : Prop :=
  match a with Deopt.Install _ _ | Deopt.Drain | Deopt.Sweep => False | _ => True end.

(** A page [mmap] may hand out under the rule: one that is not mapped. *)
Definition may_map (r : Deopt.rule) (page : ptr) (s : system) : Prop :=
  0 < page < 2 ^ 64 ∧ page ∉ Deopt.mapped (deopts s) ∧
  (r = Deopt.NotRemapped -> page ∉ Deopt.records (deopts s)).

(** An event is processed with whatever [is_managed] and the segment headers say by
    then, as long as a header's site is one. *)
Inductive step (r : Deopt.rule) (s : system) : system -> Prop :=
  | S_event managed site_of raw ev s' :
      (∀ p, managed p = true -> valid_site (site_of p)) ->
      event_wf ev -> valid_site (ev_call_site ev) -> (∀ page, raw = Some page -> may_map r page s) ->
      on_event K managed site_of raw ev s = Ok s' -> step r s s'
  | S_drain s' : on_drain s = Some s' -> step r s s'
  | S_sweep : step r s (on_sweep s)
  | S_thread a d :
      by_thread a -> Deopt.act (Deopt.reuses r) a (deopts s) = Some d -> Deopt.permits r a (deopts s) ->
      step r s (mkSystem (summaries s) (compiler s) d).

(** ** The invariant *)

Context (HK : knobs_ok K).

(** The routine in page [P]: compiled for [spec], with the slot [idx]. *)
Record routine_at (s : system) (P : ptr) (spec : RoutineSpec) (idx : Z) : Prop := {
  r_site : Deopt.baked (deopts s) !! P = Some (spec_id spec);
  r_page : 0 < P < 2 ^ 64;
  r_spec : valid_spec spec;
  r_slot : 0 <= idx < MAX_COMPILED_SITES ∧ idx < g_next_index (compiler s);
  r_recorded : slot_to_site (compiler s) !! idx = Some (spec_id spec);
  r_code : ∃ sh, accepts spec = Some sh ∧ pages (compiler s) !! P = Some (emit sh spec idx P);
}.

(** The mapped pages hold routines, with slots of their own. *)
Record code_ok (s : system) (routines : gmap ptr (RoutineSpec * Z)) : Prop := {
  c_mapped : dom routines = Deopt.mapped (deopts s);
  c_routine P r : routines !! P = Some r -> routine_at s P r.1 r.2;
  c_slots P P' r r' : routines !! P = Some r -> routines !! P' = Some r' -> r.2 = r'.2 -> P = P';
}.

Record sys_inv (r : Deopt.rule) (n : nat) (s : system) : Prop := {
  si_base : base_inv K n s;
  si_deopt : Deopt.rule_inv r n (deopts s);
  si_code : ∃ routines, code_ok s routines;
}.

Lemma sys_inv0 r : sys_inv r 0 system0.
Proof.
  split; [apply base_inv0|split; [apply Deopt.inv_init|intros _; apply Deopt.once_init]|].
  exists ∅. split; [by rewrite dom_empty_L|done|done].
Qed.

(** The frame: only the summaries, the queue or the threads change. *)
Lemma code_ok_frame s s' routines :
  compiler s' = compiler s -> Deopt.mapped (deopts s') = Deopt.mapped (deopts s) ->
  Deopt.baked (deopts s') = Deopt.baked (deopts s) -> code_ok s routines -> code_ok s' routines.
Proof.
  intros Ec Em Eb [H1 H2 H3]. split; [by rewrite Em| |done]. intros P r HP.
  destruct (H2 P r HP). split; rewrite ?Ec, ?Eb; done.
Qed.

(** A new routine in a page that was not mapped. *)
Lemma code_ok_compiled s routines l d spec sh page :
  let idx := g_next_index (compiler s) in
  code_ok s routines -> 0 < page < 2 ^ 64 -> page ∉ Deopt.mapped (deopts s) -> valid_spec spec -> accepts spec = Some sh ->
  0 <= idx -> idx < MAX_COMPILED_SITES ->
  Deopt.mapped d = {[page]} ∪ Deopt.mapped (deopts s) -> Deopt.baked d = <[page := spec_id spec]> (Deopt.baked (deopts s)) ->
  code_ok (mkSystem l (mkCodegen (idx + 1) (<[idx := spec_id spec]> (slot_to_site (compiler s)))
      (<[page := emit sh spec idx page]> (pages (compiler s)))) d)
    (<[page := (spec, idx)]> routines).
Proof.
  intros idx [H1 H2 H3] Hpg Hfr Hv Hacc H0 Hlt Em Eb.
  assert (Hnew : ∀ P r, routines !! P = Some r -> page ≠ P).
  { intros P r HP ->. apply Hfr. rewrite <- H1. apply elem_of_dom. by exists r. }
  split.
  - rewrite dom_insert_L, H1. cbn [deopts]. by rewrite Em.
  - intros P r. destruct (decide (page = P)) as [<-|Hne].
    + rewrite lookup_insert_eq. intros [= <-]. split; cbn [deopts compiler fst snd g_next_index slot_to_site pages].
      * by rewrite Eb, lookup_insert_eq.
      * done.
      * done.
      * lia.
      * by rewrite lookup_insert_eq.
      * exists sh. by rewrite lookup_insert_eq.
    + rewrite lookup_insert_ne by done. intros HP. destruct (H2 P r HP) as [R1 R2 R3 [R4 R4'] R5 (sh' & R6 & R7)].
      split; cbn [deopts compiler g_next_index slot_to_site pages]; try done.
      * by rewrite Eb, lookup_insert_ne.
      * lia.
      * rewrite lookup_insert_ne; [done|]. subst idx. lia.
      * exists sh'. by rewrite lookup_insert_ne.
  - intros P P' r r'. destruct (decide (page = P)) as [<-|Hne], (decide (page = P')) as [<-|Hne']; [done| | |].
    + rewrite lookup_insert_eq, lookup_insert_ne by done. intros [= <-] HP' E. cbn in E.
      pose proof (r_slot _ _ _ _ (H2 _ _ HP')). subst idx. lia.
    + rewrite lookup_insert_eq, lookup_insert_ne by done. intros HP [= <-] E. cbn in E.
      pose proof (r_slot _ _ _ _ (H2 _ _ HP)). subst idx. lia.
    + rewrite !lookup_insert_ne by done. apply H3.
Qed.

(** *** Each step keeps it *)

Lemma base_outcome n raw s s' :
  base_inv K n s -> outcome K raw s s' -> base_inv K (S n) s'.
Proof.
  intros [I1 I2 I3 I4 I5 I6] Ho. destruct Ho as [l cg Hl Ht [new Hpre] Es Ep Hx|l spec sh page t idx Hl Ht Hpre -> Hp Hv Hacc Hlt Et Hti].
  - split; cbn [summaries compiler deopts]; try done; [|lia].
    eapply ids_in_grow; [|exact I4]. unfold known_ids. cbn [summaries]. rewrite Hpre, list_to_set_app_L. set_solver.
  - destruct (Dispatch.install_spec _ _ _ _ I3 (proj1 (v_site _ Hv)) Et) as (Hw & _).
    split; cbn [summaries compiler deopts Deopt.table installed Deopt.baked g_next_index]; try done.
    + intros P id. destruct (decide (page = P)) as [<-|]; [rewrite lookup_insert_eq; intros [= <-]; apply Hv|].
      rewrite lookup_insert_ne by done. apply I5.
    + lia.
Qed.

Lemma install_act reuse id page t d :
  id ≠ 0 -> page ≠ 0 -> page ∉ Deopt.mapped d -> (reuse = false -> page ∉ Deopt.records d) ->
  Dispatch.install id page (Deopt.table d) = Ok t ->
  Deopt.act reuse (Deopt.Install id page) d = Some (installed id page t d).
Proof.
  intros Hid Hp Hm Hb Hi. cbn [Deopt.act].
  rewrite (proj2 (Z.eqb_neq id 0)), (proj2 (Z.eqb_neq page 0)), bool_decide_eq_false_2 by done. cbn [orb].
  assert (E : negb reuse && bool_decide (page ∈ Deopt.records d) = false).
  { destruct reuse; [done|]. by rewrite bool_decide_eq_false_2 by auto. }
  rewrite E. change (Deopt.rt_install id page (Deopt.table d)) with (Dispatch.install id page (Deopt.table d)).
  by rewrite Hi.
Qed.

Lemma deopt_outcome r n raw s s' :
  r ≠ Deopt.Unrestricted -> Z.of_nat n + 2 < 2 ^ 32 -> Deopt.rule_inv r n (deopts s) ->
  (∀ page, raw = Some page -> may_map r page s) -> outcome K raw s s' -> Deopt.rule_inv r (S n) (deopts s').
Proof.
  intros Hr Hn HI Hraw Ho. destruct Ho as [l cg Hl Ht Hpre Es Ep Hx|l spec sh page t idx Hl Ht Hpre -> Hp Hv Hacc Hlt Et Hti].
  - destruct HI. split; [by apply Deopt.inv_mono|done].
  - destruct (Hraw page eq_refl) as (_ & Hm & Hrec).
    eapply Deopt.rule_inv_step; [exact Hr|pow2; lia|exact HI|]. exists (Deopt.Install (spec_id spec) page). cbn [deopts]. split.
    + apply install_act; [apply Hv|lia|done| |done]. intros E. apply Hrec. by destruct r.
    + by destruct r.
Qed.

Lemma code_outcome r n raw s s' routines :
  base_inv K n s -> code_ok s routines -> (∀ page, raw = Some page -> may_map r page s) ->
  outcome K raw s s' -> ∃ routines', code_ok s' routines'.
Proof.
  intros HB HC Hraw Ho. pose proof (b_next _ _ _ HB) as Hx.
  destruct Ho as [l cg Hl Ht Hpre Es Ep Hy|l spec sh page t idx Hl Ht Hpre -> Hp Hv Hacc Hlt Et Hti].
  - exists routines. destruct HC as [C1 C2 C3]. split; [done| |done]. intros P w HP. destruct (C2 P w HP) as [R1 R2 R3 R4 R5 R6].
    split; cbn; rewrite ?Es, ?Ep; try done. lia.
  - destruct (Hraw page eq_refl) as (Hpg & Hm & _). eexists. eapply code_ok_compiled; try done. lia.
Qed.

(** The other threads change the dispatch table by reverts only, and no page. *)
Lemma thread_frame reuse a (d d' : Deopt.state Dispatch.state) : by_thread a -> Deopt.act reuse a d = Some d' ->
  Deopt.mapped d' = Deopt.mapped d ∧ Deopt.baked d' = Deopt.baked d ∧
  (Deopt.table d' = Deopt.table d ∨
   ∃ P id, Deopt.baked d !! P = Some id ∧ Deopt.table d' = Dispatch.revert id (Deopt.table d)).
Proof.
  intros Ha E. destruct a; try done; cbn [Deopt.act] in E; repeat case_match; simplify_eq; try (by auto).
  - split_and!; [done|done|right]. by eexists _, _.
  - unfold Deopt.handle_enqueue. case_match; auto.
Qed.

Lemma drain_frame (d d' : Deopt.state Dispatch.state) : Deopt.drain_one d = Some d' ->
  Deopt.mapped d' = Deopt.mapped d ∧ Deopt.baked d' = Deopt.baked d ∧ Deopt.table d' = Deopt.table d.
Proof. unfold Deopt.drain_one. destruct (Deopt.g_deopt_queue d); [done|]. by intros [= <-]. Qed.

Lemma reclaimed cg ps P :
  let cg' := foldr Codegen.reclaim cg ps in
  g_next_index cg' = g_next_index cg ∧ slot_to_site cg' = slot_to_site cg ∧
  (P ∉ ps -> pages cg' !! P = pages cg !! P).
Proof.
  induction ps as [|p ps (IH1 & IH2 & IH3)]; [done|]. cbn. split_and!; [done|done|].
  intros [Hne HP]%not_elem_of_cons. rewrite lookup_delete_ne by done. auto.
Qed.

Lemma reset_ids id why l : s_id <$> reset_call_site K id why l = s_id <$> l.
Proof.
  unfold reset_call_site. destruct (find_site id l); [|done]. by rewrite ids_alter by apply s_id_reset.
Qed.

Lemma base_step r n s s' : Z.of_nat n + 2 < 2 ^ 32 -> base_inv K n s -> step r s s' -> base_inv K (S n) s'.
Proof.
  intros Hn HB Hst. pose proof HB as [I1 I2 I3 I4 I5 I6].
  destruct Hst as [managed site_of raw ev s' Hsite Hw Hev Hraw E|s' E| |a d Ha E Hp].
  - eapply base_outcome; [exact HB|].
    pose proof (event_outcome K managed site_of HK Hsite n s raw ev Hn HB Hw Hev) as H'. rewrite E in H'. apply H'.
    intros page Hpg. by destruct (Hraw page Hpg) as [[? _] _].
  - unfold on_drain in E. destruct (Deopt.drain_one (deopts s)) as [d|] eqn:Ed; [|done]. cbn [mbind option_bind] in E.
    destruct (Deopt.resets d) as [|[id why] rs]; [done|]. injection E as <-. destruct (drain_frame _ _ Ed) as (Em & Eb & Et).
    pose proof (reset_ids id why (summaries s)) as Eid. split; cbn [summaries compiler deopts]; rewrite ?Et, ?Eb; try done; try lia.
    + apply (apply_op_ok (B := with_compiler (λ _, false) (λ _, 0) (λ _, 0)) K (Reset id why)); done.
    + destruct I2 as (J1 & J2 & J3). unfold table_wf. rewrite <- (length_fmap s_id (reset_call_site _ _ _ _)), Eid, length_fmap. done.
    + unfold known_ids. cbn [summaries]. rewrite Eid. exact I4.
  - unfold on_sweep. cbv zeta. set (ps := Deopt.p_page <$> _). destruct (reclaimed (compiler s) ps 0) as (En & _).
    split; cbn [summaries compiler deopts]; try done. lia.
  - destruct (thread_frame _ _ _ _ Ha E) as (Em & Eb & Et). split; cbn [summaries compiler deopts]; rewrite ?Eb; try done; try lia.
    + destruct Et as [-> |(P & id & Hb & ->)]; [done|]. by apply Dispatch.revert_spec; [|eapply I5].
    + destruct Et as [-> |(P & id & _ & ->)]; [exact I4|by apply Dispatch.ids_in_revert].
Qed.

Lemma code_sweep s routines : code_ok s routines -> ∃ routines', code_ok (on_sweep s) routines'.
Proof.
  intros [H1 H2 H3]. unfold on_sweep. cbv zeta.
  set (ps := Deopt.p_page <$> _). pose proof (reclaimed (compiler s) ps) as Hr. cbv zeta in Hr.
  destruct (Hr 0) as (En & Es & _).
  exists (filter (λ Pr, Pr.1 ∉ ps) routines). split; cbn [deopts].
  - apply set_eq. intros P. cbn [Deopt.sweep Deopt.mapped]. fold ps. rewrite <- H1, elem_of_difference, elem_of_list_to_set, !elem_of_dom.
    split.
    + intros [r [HP HPs]%map_lookup_filter_Some]. eauto.
    + intros [[r HP] HPs]. exists r. by apply map_lookup_filter_Some.
  - intros P r [HP HPs]%map_lookup_filter_Some. cbn in HPs. destruct (H2 P r HP) as [R1 R2 R3 R4 R5 (sh & R6 & R7)].
    destruct (Hr P) as (_ & _ & EP). split; cbn [deopts compiler]; rewrite ?En, ?Es; try done.
    exists sh. by rewrite EP.
  - intros P P' r r' [HP _]%map_lookup_filter_Some [HP' _]%map_lookup_filter_Some. by apply H3.
Qed.

Lemma sys_step r n s s' :
  r ≠ Deopt.Unrestricted -> Z.of_nat n + 2 < 2 ^ 32 -> sys_inv r n s -> step r s s' -> sys_inv r (S n) s'.
Proof.
  intros Hr Hn [HB HD [routines HC]] Hst. pose proof (base_step r n s s' Hn HB Hst) as HB'.
  assert (Hrule : ∀ d', Deopt.ruled r (deopts s) d' -> Deopt.rule_inv r (S n) d').
  { intros d'. apply Deopt.rule_inv_step; [exact Hr|pow2; lia|exact HD]. }
  destruct Hst as [managed site_of raw ev s' Hsite Hw Hev Hraw E|s' E| |a d Ha E Hp]; (split; [exact HB'| |]).
  1,2: pose proof (event_outcome K managed site_of HK Hsite n s raw ev Hn HB Hw Hev) as Ho; rewrite E in Ho;
    assert (Hpos : ∀ page, raw = Some page -> 0 < page) by (intros page Hpg; by destruct (Hraw page Hpg) as [[? _] _]);
    specialize (Ho Hpos).
  - by eapply deopt_outcome.
  - exact (code_outcome r n raw s s' routines HB HC Hraw Ho).
  - unfold on_drain in E. destruct (Deopt.drain_one (deopts s)) as [d|] eqn:Ed; [|done]. cbn [mbind option_bind] in E.
    destruct (Deopt.resets d) as [|[id why] rs]; [done|]. injection E as <-. apply Hrule. exists Deopt.Drain.
    split; [exact Ed|by destruct r].
  - unfold on_drain in E. destruct (Deopt.drain_one (deopts s)) as [d|] eqn:Ed; [|done]. cbn [mbind option_bind] in E.
    destruct (Deopt.resets d) as [|[id why] rs]; [done|]. injection E as <-. destruct (drain_frame _ _ Ed) as (Em & Eb & Et).
    exists routines. by apply (code_ok_frame s).
  - apply Hrule. exists Deopt.Sweep. split; [done|by destruct r].
  - by eapply code_sweep.
  - apply Hrule. by exists a.
  - destruct (thread_frame _ _ _ _ Ha E) as (Em & Eb & Et). exists routines. by apply (code_ok_frame s).
Qed.

(** What steps keep holds of the reachable states. *)
Lemma reachable_ind (I : nat -> system -> Prop) r n s :
  I 0%nat system0 -> (∀ m x y, Z.of_nat m + 2 < 2 ^ 32 -> I m x -> step r x y -> I (S m) y) ->
  Z.of_nat n + 2 < 2 ^ 32 -> nsteps (step r) n system0 s -> I n s.
Proof.
  intros H0 HS Hn Hs. cut (∀ m x, I m x -> Z.of_nat (m + n) + 2 < 2 ^ 32 -> nsteps (step r) n x s -> I (m + n)%nat s).
  { intros Hc. by apply (Hc 0%nat system0). }
  clear Hs Hn. induction n as [|n IH]; intros m x Hx Hlt Hs; inversion Hs as [|? ? y ? Hxy Hys]; subst.
  - by rewrite Nat.add_0_r.
  - rewrite Nat.add_succ_r, <- Nat.add_succ_l. apply (IH (S m) y); [|lia|done]. eapply HS; [|exact Hx|exact Hxy]. lia.
Qed.

Lemma base_reachable r n s : Z.of_nat n + 2 < 2 ^ 32 -> nsteps (step r) n system0 s -> base_inv K n s.
Proof. apply (reachable_ind (base_inv K)); [apply base_inv0|]. intros m x y Hm HI. by apply (base_step r). Qed.

Lemma sys_reachable r n s :
  r ≠ Deopt.Unrestricted -> Z.of_nat n + 2 < 2 ^ 32 -> nsteps (step r) n system0 s -> sys_inv r n s.
Proof. intros Hr. apply (reachable_ind (sys_inv r)); [apply sys_inv0|]. intros m x y Hm HI. by apply sys_step. Qed.

(** ** Properties *)

(** The routine in a page serves its site: run by any thread, it behaves as the
    specification it was compiled for says, on that thread's words of its slot. *)
Definition serves_site (s : system) (P : ptr) (id : CallSiteID) (idx : Z) : Prop :=
  slot_to_site (compiler s) !! idx = Some id ∧
  ∃ spec sh code, spec_id spec = id ∧ accepts spec = Some sh ∧ pages (compiler s) !! P = Some code ∧
    ∀ fs_base callee c, SysV callee -> thread_ok fs_base idx c ->
      behaves sh spec idx P fs_base callee c (run fs_base callee P code 40 0 c).

Lemma routine_serves s P spec idx : image_ok -> routine_at s P spec idx -> serves_site s P (spec_id spec) idx.
Proof.
  intros Hi [R1 R2 [[V1 V1'] V2 V3] [R4 R4'] R5 (sh & R6 & R7)]. split; [done|].
  exists spec, sh, (emit sh spec idx P). split_and!; [done..|]. intros fs_base callee c ABI Ht. by apply emit_behaves.
Qed.

(** C3: events become code that serves them.  However events, drained deopts and
    reclaim passes of the background thread interleave with lookups, calls and
    guard failures of the other threads, there is an assignment of slots to the
    mapped pages, no two pages sharing a slot, such that: a routine the dispatch
    table holds for a site is in a mapped page and serves that site from its slot,
    on any thread, as the specification it was compiled for says; and a page in
    which a registered thread is running holds the code of a routine.  Under one
    of the conditions of [Deopt.registered_threads_run_mapped], without which it is
    false: [mmap] returns no page that a deopt still outstanding names, or no page
    is failed again while a deopt of it is outstanding.  (Fewer than 2^32 steps.) *)
Theorem installed_routines_serve (rule : Deopt.rule) (n : nat) (s : system) :
  image_ok -> rule ≠ Deopt.Unrestricted -> Z.of_nat n + 2 < 2 ^ 32 -> nsteps (step rule) n system0 s ->
  ∃ slot : ptr -> Z,
    (∀ P P', P ∈ Deopt.mapped (deopts s) -> P' ∈ Deopt.mapped (deopts s) -> slot P = slot P' -> P = P') ∧
    (∀ id P, id ≠ 0 -> Dispatch.lookup id (Deopt.table (deopts s)) = P -> P ≠ 0 ->
       P ∈ Deopt.mapped (deopts s) ∧ serves_site s P id (slot P)) ∧
    (∀ t e P, Deopt.epochs (deopts s) !! t = Some e -> Deopt.doing (Deopt.thr t (deopts s)) = Deopt.Running P ->
       ∃ id, Deopt.baked (deopts s) !! P = Some id ∧ serves_site s P id (slot P)).
Proof.
  intros Hi Hr0 Hn Hs. destruct (sys_reachable rule n s Hr0 Hn Hs) as [_ [I3 _] [routines [H1 H2 H3]]].
  assert (Hat : ∀ P, P ∈ Deopt.mapped (deopts s) -> ∃ r, routines !! P = Some r) by (intros P; rewrite <- H1; apply elem_of_dom).
  assert (Hserve : ∀ P r id, routines !! P = Some r -> Deopt.baked (deopts s) !! P = Some id -> serves_site s P id r.2).
  { intros P r id HP Hb. pose proof (H2 P r HP) as R. pose proof (r_site _ _ _ _ R) as E. rewrite Hb in E. injection E as ->.
    by apply routine_serves. }
  exists (λ P, from_option snd 0 (routines !! P)). split_and!.
  - intros P P' (r & HP)%Hat (r' & HP')%Hat. rewrite HP, HP'. by apply (H3 P P').
  - intros id P Hid E HP0. assert (Hm : P ∈ Deopt.mapped (deopts s)) by (apply (Deopt.i_entries _ _ I3); [by exists id|done]).
    split; [done|]. destruct (Hat P Hm) as [r HP]. rewrite HP. eapply Hserve; [exact HP|].
    by apply (Deopt.i_sites _ _ I3 id P).
  - intros t e P He Hd. destruct (Deopt.i_registered _ _ I3 t e He) as [_ Hr].
    pose proof (Deopt.i_running _ _ (Deopt.i_thread _ _ I3 t) P Hd) as HP0.
    destruct (Hr P) as [Hm _]; [split; [done|by left]|]. destruct (Hat P Hm) as [r HP]. rewrite HP.
    exists (spec_id r.1). pose proof (r_site _ _ _ _ (H2 P r HP)) as Hb. split; [done|]. by eapply Hserve.
Qed.

(** C18: the assertion of [dispatch::install] never fails.  In every reachable state,
    whatever unmapped addresses [mmap] has returned, an event is processed to the
    end, whatever it makes the analysis compile, when [mmap] gives a page: the 4096
    entries of the dispatch table are enough for the at most 4096 sites of the
    summary table, and a site that is compiled again reuses its entry.  (Fewer than
    2^32 steps, so that the slot counter does not wrap.) *)
Theorem events_never_trap (managed : ptr -> bool) (site_of : ptr -> CallSiteID) (n : nat) (s : system)
    (page : ptr) (ev : AllocEvent) :
  (∀ p, managed p = true -> valid_site (site_of p)) ->
  Z.of_nat n + 2 < 2 ^ 32 -> nsteps (step Deopt.Unrestricted) n system0 s ->
  event_wf ev -> valid_site (ev_call_site ev) -> 0 < page ->
  ∃ s', on_event K managed site_of (Some page) ev s = Ok s'.
Proof.
  intros Hsite Hn Hs Hw Hev Hp.
  pose proof (event_outcome K managed site_of HK Hsite n s (Some page) ev Hn (base_reachable _ n s Hn Hs) Hw Hev) as H'.
  destruct (on_event K managed site_of (Some page) ev s) as [s'|t]; [by exists s'|]. discriminate H'. by intros ? [= <-].
Qed.
End Pipeline.

(** ** A run *)

(** Operations with their results, to compute with. *)
Inductive operation :=
  | Ev (page : ptr) (ev : AllocEvent)
  | Thread (a : Deopt.action)
  | DrainOne
  | SweepAll.

Definition good (o : operation) : Prop :=
  match o with
  | Ev page ev => 0 < page < 2 ^ 64 ∧ event_wf ev ∧ valid_site (ev_call_site ev)
  | Thread a => by_thread a
  | _ => True
  end.

Section Run.
Context `{Image} (K : Knobs) (managed : ptr -> bool) (site_of : ptr -> CallSiteID).

Definition perform (r : Deopt.rule) (o : operation) (s : system) : option system :=
  match o with
  | Ev page ev =>
      if bool_decide (page ∈ Deopt.mapped (deopts s)) || negb (Deopt.reuses r) && bool_decide (page ∈ Deopt.records (deopts s))
      then None
      else match on_event K managed site_of (Some page) ev s with Ok s' => Some s' | Trap _ => None end
  | Thread a =>
      if decide (Deopt.permits r a (deopts s))
      then d ← Deopt.act (Deopt.reuses r) a (deopts s); Some (mkSystem (summaries s) (compiler s) d) else None
  | DrainOne => on_drain K s
  | SweepAll => Some (on_sweep s)
  end.

Fixpoint perform_all (r : Deopt.rule) (os : list operation) (s : system) : option system :=
  match os with [] => Some s | o :: os => s ← perform r o s; perform_all r os s end.

Context (Hsite : ∀ p, managed p = true -> valid_site (site_of p)).

Lemma perform_step r o s s' : good o -> perform r o s = Some s' -> step K r s s'.
Proof.
  destruct o as [page ev|a| |]; cbn [good perform].
  - intros (Hp & Hw & Hev). destruct (bool_decide (page ∈ _)) eqn:Em; [done|]. apply bool_decide_eq_false in Em.
    destruct (negb _ && _) eqn:Er; [done|].
    destruct (on_event K managed site_of (Some page) ev s) as [s1|] eqn:E; [|done]. intros [= <-].
    eapply S_event; [exact Hsite|done|done| |exact E]. intros ? [= <-]. split_and!; [lia|lia|done|].
    intros ->. cbn in Er. by apply bool_decide_eq_false in Er.
  - intros Ha. destruct (decide _) as [Hp|]; [|done].
    destruct (Deopt.act (Deopt.reuses r) a (deopts s)) eqn:E; [|done]. intros [= <-]. by eapply S_thread.
  - intros _ E. by apply S_drain.
  - intros _ [= <-]. apply S_sweep.
Qed.

Lemma perform_nsteps r os s s' : Forall good os -> perform_all r os s = Some s' ->
  nsteps (step K r) (length os) s s'.
Proof.
  intros Hg. revert s. induction Hg as [|o os Ho _ IH]; intros s; cbn [perform_all length]; [intros [= <-]; constructor|].
  destruct (perform r o s) as [s1|] eqn:E; [|done]. cbn [mbind option_bind]. intros Hs.
  econstructor; [by eapply perform_step|by apply IH].
Qed.
End Run.

Definition demo_knobs : Knobs := mkKnobs 1 2 KS_ALPHA_DEFAULT 3 false false Generic.

Lemma demo_knobs_ok : knobs_ok demo_knobs.
Proof. split; cbn; lia. Qed.

(** Site 7 allocates 64 bytes four times and is compiled into the page at 16384.  A
    registered thread fails its guard, and both threads pass safe points; the page is
    unmapped, and [mmap] returns it again for site 8, whose routine the thread is in. *)
Definition demo_ev (id : CallSiteID) : operation := Ev 16384 (mkAllocEvent id 64 0 5 0).
Definition demo_ops : list operation :=
  (Thread <$> Deopt.calls 32 5 9) ++ replicate 4 (demo_ev 7) ++ (Thread <$> Deopt.enter 5 7 ++ Deopt.deopt 5) ++
  [Thread (Deopt.Finish 5); DrainOne] ++ (Thread <$> Deopt.calls 32 5 9) ++ [SweepAll] ++
  replicate 4 (demo_ev 8) ++ (Thread <$> Deopt.enter 5 8).

Definition demo_outcome (r : Deopt.rule) (os : list operation) : option system :=
  perform_all (H := image0) demo_knobs (λ _, false) (λ _, 0) r os system0.

Lemma demo_good : Forall good demo_ops.
Proof. repeat constructor; vm_compute; congruence. Qed.

Lemma demo_eval {A} (f : system -> A) r os s v :
  demo_outcome r os = Some s -> f <$> demo_outcome r os = Some v -> f s = v.
Proof. intros ->. by intros [= ->]. Qed.

Lemma demo_nsteps r s : demo_outcome r demo_ops = Some s ->
  nsteps (step (H := image0) demo_knobs r) (length demo_ops) system0 s.
Proof. apply perform_nsteps; [done|]. apply demo_good. Qed.
#[global] Opaque demo_outcome.

Lemma installed_routines_serve_witness :
  ∃ s slot, demo_outcome Deopt.FailsOnce demo_ops = Some s ∧ Dispatch.lookup 8 (Deopt.table (deopts s)) = 16384 ∧
    Deopt.runs_in 5 16384 (deopts s) = true ∧ serves_site (H := image0) s 16384 8 (slot 16384).
Proof.
  destruct (demo_outcome Deopt.FailsOnce demo_ops) as [s|] eqn:E; [|by vm_compute in E].
  assert (El : Dispatch.lookup 8 (Deopt.table (deopts s)) = 16384)
    by (eapply (demo_eval (λ s, Dispatch.lookup 8 (Deopt.table (deopts s)))); [exact E|vm_compute; reflexivity]).
  assert (Er : Deopt.runs_in 5 16384 (deopts s) = true)
    by (eapply (demo_eval (λ s, Deopt.runs_in 5 16384 (deopts s))); [exact E|vm_compute; reflexivity]).
  destruct (installed_routines_serve (H := image0) demo_knobs demo_knobs_ok Deopt.FailsOnce (length demo_ops) s
    image0_ok) as (slot & _ & Hl & _).
  - discriminate.
  - vm_compute. reflexivity.
  - exact (demo_nsteps _ s E).
  - exists s, slot. split_and!; [done|done|done|]. apply (Hl 8 16384); [done|exact El|done].
Defined.

Lemma events_never_trap_witness :
  ∃ s s', demo_outcome Deopt.Unrestricted demo_ops = Some s ∧
    on_event (H := image0) demo_knobs (λ _, false) (λ _, 0) (Some 20480) (mkAllocEvent 9 32 0 5 0) s = Ok s'.
Proof.
  destruct (demo_outcome Deopt.Unrestricted demo_ops) as [s|] eqn:E; [|by vm_compute in E].
  destruct (events_never_trap (H := image0) demo_knobs demo_knobs_ok (λ _, false) (λ _, 0)
    (length demo_ops) s 20480 (mkAllocEvent 9 32 0 5 0)) as [s' E'].
  - intros p Hp. discriminate Hp.
  - vm_compute. reflexivity.
  - exact (demo_nsteps _ s E).
  - repeat constructor; vm_compute; congruence.
  - split; [done|]. split; vm_compute; congruence.
  - reflexivity.
  - exists s, s'. split; [reflexivity|exact E'].
Defined.
