(* ===== verification/BoundBench.v ===== *)
(** * The bound-replay benchmark ([src/tools/bound_bench.cpp])

    The tool turns a recorded trace into a stream of operations on an array of live
    slots and replays the stream pass after pass against one of three allocators.
    The heaps and the dispatch table are the interfaces of [Trampoline] and [Deopt].
    The rest of the tool is in [BenchMain]. *)

From S2P Require Import Prelude Bytes Common TraceFile Trampoline Routing.
From S2P Require Analysis Dispatch Deopt TrampolineHeap.

Inductive Backend := Glibc | Bound | Sim.
Inductive OpKind := KAlloc | KFree.

#[export] Instance OpKind_eq_dec : EqDecision OpKind.
Proof. solve_decision. Defined.

Record Op := mkOp {
  kind : OpKind;
  op_id : CallSiteID;
  op_size : Z;
  op_slot : Z;
  op_fn : ptr;
}.

(** ** Reading the trace *)

Inductive read_error := OpenFails | HeaderShort | MagicBad (m : Z) | VersionBad (v : Z).

Fixpoint read_events (fuel : nat) (f : list Z) : list AllocEvent :=
  match fuel with
  | O => []
  | S fuel => match fread f with None => [] | Some (ev, f) => ev :: read_events fuel f end
  end.

Definition read_trace (file : option (list Z)) : read_error + list AllocEvent :=
  match file with
  | None => inl OpenFails
  | Some f =>
      match fread f with
      | None => inl HeaderShort
      | Some (hdr, f) =>
          if negb (magic hdr =? TRACE_MAGIC) then inl (MagicBad (magic hdr))
          else if negb (version hdr =? TRACE_VERSION) then inl (VersionBad (version hdr))
          else inr (read_events (length f) f)
      end
  end.

(** ** Matching frees to allocations *)

Record Resolved := mkResolved {
  r_ops : list Op;
  leaked : list Z;
  n_allocs : Z;
  total_frees : Z;
  matched_frees : Z;
}.

(** The loop's variables: [freed] is a vector of flags, [live_index] the hash map. *)
Record matching := mkMatching {
  m_ops : list Op;
  m_allocs : Z;
  m_total : Z;
  m_matched : Z;
  freed : list bool;
  live_index : gmap ptr Z;
}.

Definition matching0 : matching := mkMatching [] 0 0 0 [] ∅.

Definition match_event (r : matching) (ev : AllocEvent) : matching :=
  if negb (ev_size ev =? 0) then
    let slot := m_allocs r in
    mkMatching (m_ops r ++ [mkOp KAlloc (ev_call_site ev) (ev_size ev) slot 0]) (u32 (slot + 1))
      (m_total r) (m_matched r) (freed r ++ [false])
      (if ev_ptr ev =? 0 then live_index r else <[ev_ptr ev := slot]> (live_index r))
  else
    match live_index r !! ev_ptr ev with
    | Some slot =>
        mkMatching (m_ops r ++ [mkOp KFree 0 0 slot 0]) (m_allocs r) (u64 (m_total r + 1))
          (u64 (m_matched r + 1)) (<[Z.to_nat slot := true]> (freed r)) (delete (ev_ptr ev) (live_index r))
    | None =>
        mkMatching (m_ops r) (m_allocs r) (u64 (m_total r + 1)) (m_matched r) (freed r) (live_index r)
    end.

Definition resolve (events : list AllocEvent) : Resolved :=
  let r := foldl match_event matching0 events in
  mkResolved (m_ops r)
    (filter (λ s, freed r !! Z.to_nat s = Some false) (seqZ 0 (m_allocs r)))
    (m_allocs r) (m_total r) (m_matched r).

(** ** Replaying *)

(** The dispatch table and the harness's inline cache are those of [Deopt]; the
    harness is one thread. *)
Record harness (D W : Type) := mkHarness { sim_guard : bool; disp : Deopt.state D; heap : W }.
Arguments mkHarness {D W} _ _ _.
Arguments sim_guard {D W} _.
Arguments disp {D W} _.
Arguments heap {D W} _.

Section Replay.
Context {D W : Type} `{Deopt.RoutineTable D} `{!Heaps W}.
(** The harness's thread. *)
Context (t : Z).

Abbreviation state := (harness D W).

Definition with_heap {A} (f : W -> res (A * W)) : state -> res (A * state) :=
  λ h, '(a, w) ← f (heap h); Ok (a, mkHarness (sim_guard h) (disp h) w).

Definition libc_malloc (size : Z) (w : W) : res (ptr * W) := Ok (real_malloc size w).

(** [fn ? fn(size) : g_real_malloc(size)]; deoptimization is disabled, so a
    routine that does not serve ends in [g_real_malloc]. *)
Definition serve (fn : ptr) (size : Z) (w : W) : res (ptr * W) :=
  if fn =? 0 then libc_malloc size w
  else
    '(r, w) ← run_routine t fn size w;
    match r with Serves p => Ok (p, w) | _ => libc_malloc size w end.

Definition sim_alloc (id : CallSiteID) (size : Z) : state -> res (ptr * state) := λ h,
  if sim_guard h then with_heap (libc_malloc size) h
  else
    let d := sample_safe_point t (disp h) in
    let (fn, d) := cached_lookup t id d in
    '(p, w) ← serve fn size (heap h);
    Ok (p, mkHarness false d w).

Definition managed_aware_free (p : ptr) (w : W) : res W :=
  if p =? 0 then Ok w
  else if managed p w then free_managed t p w else real_free p w.

Definition alloc_op (backend : Backend) (op : Op) : state -> res (ptr * state) :=
  match backend with
  | Glibc => with_heap (libc_malloc (op_size op))
  | Bound => with_heap (serve (op_fn op) (op_size op))
  | Sim => sim_alloc (op_id op) (op_size op)
  end.

Definition free_op (backend : Backend) (p : ptr) (w : W) : res W :=
  match backend with Glibc => real_free p w | _ => managed_aware_free p w end.

(** One operation, on the array of live pointers; an index out of it is
    undefined. *)
Definition run_op (backend : Backend) (op : Op) (live : list ptr) (h : state)
  : res (list ptr * state) :=
  match live !! Z.to_nat (op_slot op) with
  | None => Trap Unmapped
  | Some old =>
      match kind op with
      | KAlloc => '(p, h) ← alloc_op backend op h; Ok (<[Z.to_nat (op_slot op) := p]> live, h)
      | KFree => w ← free_op backend old (heap h); Ok (live, mkHarness (sim_guard h) (disp h) w)
      end
  end.

Fixpoint run_pass (backend : Backend) (ops : list Op) (live : list ptr) (h : state)
  : res (list ptr * state) :=
  match ops with
  | [] => Ok (live, h)
  | op :: ops => '(live, h) ← run_op backend op live h; run_pass backend ops live h
  end.

Fixpoint reclaim_leaked (backend : Backend) (slots : list Z) (live : list ptr) (h : state)
  : res (list ptr * state) :=
  match slots with
  | [] => Ok (live, h)
  | s :: slots =>
      match live !! Z.to_nat s with
      | None => Trap Unmapped
      | Some p =>
          if p =? 0 then reclaim_leaked backend slots live h
          else
            w ← free_op backend p (heap h);
            reclaim_leaked backend slots (<[Z.to_nat s := 0]> live) (mkHarness (sim_guard h) (disp h) w)
      end
  end.

(** [main]'s passes: the space pass, the warm-up and the timed passes are each
    followed by a reclaim. *)
Fixpoint run_passes (n : nat) (backend : Backend) (r : Resolved) (live : list ptr) (h : state)
  : res (list ptr * state) :=
  match n with
  | O => Ok (live, h)
  | S n =>
      '(live, h) ← run_pass backend (r_ops r) live h;
      '(live, h) ← reclaim_leaked backend (leaked r) live h;
      run_passes n backend r live h
  end.

Definition resolve_fns (table : D) (ops : list Op) : list Op :=
  (λ op, if bool_decide (kind op = KAlloc)
         then mkOp (kind op) (op_id op) (op_size op) (op_slot op) (Deopt.rt_lookup (op_id op) table)
         else op) <$> ops.

(** [if (backend == Backend::Bound) resolve_fns(r.ops)]. *)
Definition for_backend (backend : Backend) (table : D) (r : Resolved) : Resolved :=
  match backend with
  | Bound => mkResolved (resolve_fns table (r_ops r)) (leaked r) (n_allocs r) (total_frees r) (matched_frees r)
  | _ => r
  end.

End Replay.

(** ** The stream against the trace *)

Definition is_alloc (ev : AllocEvent) : bool := negb (ev_size ev =? 0).

(** The number of allocations in a list of events. *)
Definition allocs (evs : list AllocEvent) : Z := Z.of_nat (length (filter is_alloc evs)).

(** The slot a pointer is live in, from the events newest first: its last event
    decides. *)
Fixpoint latest (p : ptr) (evs : list AllocEvent) : option Z :=
  match evs with
  | [] => None
  | ev :: evs =>
      if ev_ptr ev =? p then if is_alloc ev then Some (allocs evs) else None else latest p evs
  end.

(** The reference: each event on its own, given those before it, newest first. *)
Definition reference_op (before : list AllocEvent) (ev : AllocEvent) : option Op :=
  if is_alloc ev then Some (mkOp KAlloc (ev_call_site ev) (ev_size ev) (allocs before) 0)
  else if ev_ptr ev =? 0 then None
  else (λ slot, mkOp KFree 0 0 slot 0) <$> latest (ev_ptr ev) before.

Fixpoint reference (before evs : list AllocEvent) : list Op :=
  match evs with
  | [] => []
  | ev :: evs => option_list (reference_op before ev) ++ reference (ev :: before) evs
  end.

Lemma allocs_cons ev evs : allocs (ev :: evs) = allocs evs + if is_alloc ev then 1 else 0.
Proof.
  unfold allocs. rewrite filter_cons. destruct (is_alloc ev) eqn:E.
  - rewrite decide_True by done. simpl length. lia.
  - rewrite decide_False by (by intros ?%Is_true_eq_true; congruence). lia.
Qed.

Lemma allocs_bound evs : 0 <= allocs evs <= Z.of_nat (length evs).
Proof. unfold allocs. pose proof (length_filter is_alloc evs). lia. Qed.

Lemma latest_bound p evs s : latest p evs = Some s -> 0 <= s < allocs evs.
Proof.
  induction evs as [|ev evs IH]; simpl; [done|]. rewrite allocs_cons. pose proof (allocs_bound evs).
  destruct (_ =? _); [destruct (is_alloc ev); [|done]; intros [= <-]; lia|].
  intros Hs%IH. destruct (is_alloc ev); lia.
Qed.

(** Two pointers are never live in one slot. *)
Lemma latest_inj p q evs s : latest p evs = Some s -> latest q evs = Some s -> p = q.
Proof.
  induction evs as [|ev evs IH]; simpl; [done|].
  destruct (Z.eqb_spec (ev_ptr ev) p) as [Ep|Ep], (Z.eqb_spec (ev_ptr ev) q) as [Eq|Eq]; [congruence|..|done].
  - destruct (is_alloc ev); [|done]. intros [= <-] Hq%latest_bound. lia.
  - destruct (is_alloc ev); [|done]. intros Hp%latest_bound [= <-]. lia.
Qed.

(** The loop's state after the events [before], newest first. *)
Record matches (before : list AllocEvent) (r : matching) : Prop := mkMatches {
  mt_allocs : m_allocs r = allocs before;
  mt_freed : Z.of_nat (length (freed r)) = allocs before;
  mt_index p : live_index r !! p = if p =? 0 then None else latest p before;
  mt_open p s : latest p before = Some s -> freed r !! Z.to_nat s = Some false;
  mt_total : m_total r = Z.of_nat (length before) - allocs before;
  mt_matched : m_matched r = Z.of_nat (length (m_ops r)) - allocs before ∧ 0 <= m_matched r <= m_total r;
}.

(** Counters that stay small. *)
Ltac counted := rewrite ?length_app; simpl length; rewrite ?u64_small by (pow2; lia); lia.

Lemma match_event_step before r ev :
  matches before r -> Z.of_nat (length before) < 2 ^ 32 - 1 ->
  matches (ev :: before) (match_event r ev) ∧
  m_ops (match_event r ev) = m_ops r ++ option_list (reference_op before ev).
Proof.
  intros [Ha Hf Hi Ho Ht Hmt] Hn. pose proof (allocs_bound before). unfold match_event, reference_op. fold (is_alloc ev).
  destruct (is_alloc ev) eqn:Ea.
  - cbn [m_ops]. rewrite Ha. split; [|done]. split; cbn [m_allocs freed live_index m_total m_matched m_ops];
      [..|rewrite allocs_cons, Ea; simpl length; lia|rewrite allocs_cons, Ea, length_app; simpl length; lia].
    + rewrite allocs_cons, Ea. apply u32_small. pow2. lia.
    + rewrite length_app, allocs_cons, Ea. simpl. lia.
    + intros p. cbn [latest]. rewrite Ea. destruct (Z.eqb_spec (ev_ptr ev) 0) as [E0|E0].
      * rewrite Hi. destruct (Z.eqb_spec p 0) as [|Hp]; [done|].
        by rewrite (proj2 (Z.eqb_neq (ev_ptr ev) p)) by congruence.
      * destruct (Z.eqb_spec (ev_ptr ev) p) as [<-|Hne].
        -- rewrite lookup_insert_eq. by rewrite (proj2 (Z.eqb_neq _ _)).
        -- rewrite lookup_insert_ne by done. apply Hi.
    + intros p s. cbn [latest]. rewrite Ea. destruct (_ =? p).
      * intros [= <-]. rewrite lookup_app_r by lia. by replace (Z.to_nat (allocs before) - length (freed r))%nat with 0%nat by lia.
      * intros Hs. pose proof (latest_bound _ _ _ Hs). rewrite lookup_app_l by lia. by apply (Ho p).
  - rewrite Hi. destruct (Z.eqb_spec (ev_ptr ev) 0) as [E0|E0].
    + cbn [m_ops]. split; [|by rewrite app_nil_r]. split; cbn [m_allocs freed live_index m_total m_matched m_ops];
        [by rewrite Ha, allocs_cons, Ea, Z.add_0_r|by rewrite Hf, allocs_cons, Ea, Z.add_0_r| | |rewrite allocs_cons, Ea; counted..].
      2:{ intros p s. cbn [latest]. rewrite Ea. destruct (_ =? p); [done|]. apply Ho. }
      intros p. rewrite Hi. cbn [latest]. destruct (Z.eqb_spec p 0); [done|].
      by rewrite (proj2 (Z.eqb_neq (ev_ptr ev) p)) by congruence.
    + destruct (latest (ev_ptr ev) before) as [slot|] eqn:El; cbn [m_ops fmap option_fmap option_map option_list].
      * split; [|done]. split; cbn [m_allocs freed live_index m_total m_matched m_ops];
          [by rewrite Ha, allocs_cons, Ea, Z.add_0_r|by rewrite length_insert, Hf, allocs_cons, Ea, Z.add_0_r| | |rewrite allocs_cons, Ea; counted..].
        2:{ intros p s. cbn [latest]. rewrite Ea. destruct (Z.eqb_spec (ev_ptr ev) p) as [|Hne]; [done|].
            intros Hs. pose proof (latest_bound _ _ _ Hs). pose proof (latest_bound _ _ _ El).
            rewrite list_lookup_insert_ne; [by apply (Ho p)|]. intros E. apply Hne, (latest_inj _ _ before s); [|done].
            rewrite El. f_equal. lia. }
        intros p. cbn [latest]. rewrite Ea. destruct (Z.eqb_spec (ev_ptr ev) p) as [<-|Hne].
        -- rewrite lookup_delete_eq. by case_match.
        -- rewrite lookup_delete_ne by done. apply Hi.
      * split; [|by rewrite app_nil_r]. split; cbn [m_allocs freed live_index m_total m_matched m_ops];
          [by rewrite Ha, allocs_cons, Ea, Z.add_0_r|by rewrite Hf, allocs_cons, Ea, Z.add_0_r| | |rewrite allocs_cons, Ea; counted..].
        2:{ intros p s. cbn [latest]. rewrite Ea. destruct (_ =? p); [done|]. apply Ho. }
        intros p. rewrite Hi. cbn [latest]. rewrite Ea. destruct (Z.eqb_spec p 0); [done|].
        destruct (Z.eqb_spec (ev_ptr ev) p) as [<-|]; [done|done].
Qed.

Lemma matching_spec evs before r :
  matches before r -> Z.of_nat (length before + length evs) < 2 ^ 32 ->
  let r' := foldl match_event r evs in
  matches (reverse evs ++ before) r' ∧ m_ops r' = m_ops r ++ reference before evs.
Proof.
  revert before r. induction evs as [|ev evs IH]; intros before r Hr Hn; simpl in *; [by rewrite app_nil_r|].
  destruct (match_event_step before r ev Hr) as [Hr1 E1]; [lia|].
  destruct (IH (ev :: before) _ Hr1) as [Hr2 E2]; [simpl; lia|].
  rewrite E2, E1, reverse_cons, <- !app_assoc. done.
Qed.

(** ** The stream is well bracketed

    [brackets n os ops os']: from the slots [os] holding a block, the operations
    allocate only into slots without one, below [n], free only slots with one, and
    leave the slots [os']. *)
Inductive brackets (n : Z) : list Z -> list Op -> list Z -> Prop :=
  | br_nil os os' : os ≡ₚ os' -> brackets n os [] os'
  | br_alloc os op ops os' :
      kind op = KAlloc -> 0 <= op_slot op < n -> op_slot op ∉ os ->
      brackets n (op_slot op :: os) ops os' -> brackets n os (op :: ops) os'
  | br_free os os1 op ops os' :
      kind op = KFree -> 0 <= op_slot op < n -> os ≡ₚ op_slot op :: os1 ->
      brackets n os1 ops os' -> brackets n os (op :: ops) os'.

Lemma brackets_weaken n n' os ops os' : n <= n' -> brackets n os ops os' -> brackets n' os ops os'.
Proof.
  intros Hn. induction 1; [by apply br_nil|apply br_alloc|eapply br_free]; eauto; lia.
Qed.

Lemma brackets_perm n os ops os1 os2 : brackets n os ops os1 -> os1 ≡ₚ os2 -> brackets n os ops os2.
Proof. induction 1; intros; [apply br_nil; by etrans|apply br_alloc|eapply br_free]; eauto. Qed.

Lemma brackets_start n os0 os ops os' : brackets n os ops os' -> os0 ≡ₚ os -> brackets n os0 ops os'.
Proof.
  intros H. revert os0. induction H; intros os0 E.
  - apply br_nil. by etrans.
  - apply br_alloc; [done|done|by rewrite E|]. apply IHbrackets. by constructor.
  - eapply br_free; [done|done| |done]. by etrans.
Qed.

Lemma brackets_app n os ops1 os1 ops2 os2 :
  brackets n os ops1 os1 -> brackets n os1 ops2 os2 -> brackets n os (ops1 ++ ops2) os2.
Proof.
  induction 1; intros Hrest; simpl; [by eapply brackets_start|apply br_alloc|eapply br_free]; eauto.
Qed.

(** The slots not freed yet. *)
Definition unfreed (r : matching) : list Z :=
  filter (λ s, freed r !! Z.to_nat s = Some false) (seqZ 0 (m_allocs r)).

Lemma unfreed_elem r s : s ∈ unfreed r <-> freed r !! Z.to_nat s = Some false ∧ 0 <= s < m_allocs r.
Proof. unfold unfreed. rewrite list_elem_of_filter, elem_of_seqZ. split; intros [? ?]; split; try done; lia. Qed.

Lemma unfreed_NoDup r : NoDup (unfreed r).
Proof. apply NoDup_filter, NoDup_seqZ. Qed.

Lemma brackets_step before r ev :
  matches before r -> Z.of_nat (length before) < 2 ^ 32 - 1 ->
  brackets (m_allocs r) [] (m_ops r) (unfreed r) ->
  brackets (m_allocs (match_event r ev)) [] (m_ops (match_event r ev)) (unfreed (match_event r ev)).
Proof.
  intros Hm Hn Hb. destruct (match_event_step before r ev Hm Hn) as [Hm' _].
  pose proof (mt_allocs _ _ Hm) as Ha. pose proof (mt_allocs _ _ Hm') as Ha'.
  pose proof (mt_freed _ _ Hm) as Hf. pose proof (allocs_bound before).
  unfold match_event in *. fold (is_alloc ev) in *. destruct (is_alloc ev) eqn:Ea.
  - cbn [m_allocs m_ops] in *. rewrite Ha', allocs_cons, Ea. eapply brackets_app.
    + eapply brackets_weaken; [|exact Hb]. lia.
    + apply br_alloc; cbn [kind op_slot]; [done|lia|rewrite unfreed_elem; lia|]. apply br_nil.
      apply NoDup_Permutation; [constructor; [rewrite unfreed_elem; lia|apply unfreed_NoDup]|apply unfreed_NoDup|].
      intros s. rewrite elem_of_cons, !unfreed_elem. cbn [freed m_allocs]. rewrite Ha.
      destruct (decide (s = allocs before)) as [->|Hs].
      * rewrite lookup_app_r by lia. replace (Z.to_nat (allocs before) - length (freed r))%nat with 0%nat by lia.
        split; [intros _; split; [done|lia]|by left].
      * split.
        -- intros [|[H1 H2]]; [done|]. rewrite lookup_app_l by lia. split; [done|lia].
        -- intros [H1 H2]. right. rewrite lookup_app_l in H1 by lia. split; [done|lia].
  - pose proof (mt_index _ _ Hm (ev_ptr ev)) as Hi.
    destruct (live_index r !! ev_ptr ev) as [slot|] eqn:El; cbn [m_allocs m_ops] in *; [|exact Hb].
    destruct (ev_ptr ev =? 0); [done|]. symmetry in Hi. pose proof (latest_bound _ _ _ Hi) as Hb'.
    pose proof (mt_open _ _ Hm _ _ Hi) as Ho.
    eapply brackets_app; [exact Hb|].
    eapply (br_free _ _ (filter (λ s, s ≠ slot) (unfreed r))); cbn [kind op_slot]; [done|lia| |apply br_nil].
    + apply NoDup_Permutation; [apply unfreed_NoDup| |].
      * constructor; [rewrite list_elem_of_filter; tauto|apply NoDup_filter, unfreed_NoDup].
      * intros s. rewrite elem_of_cons, list_elem_of_filter. destruct (decide (s = slot)) as [->|]; [|tauto].
        rewrite unfreed_elem. split; [by left|]. intros _. split; [done|lia].
    + apply NoDup_Permutation; [apply NoDup_filter, unfreed_NoDup|apply unfreed_NoDup|].
      intros s. rewrite list_elem_of_filter, !unfreed_elem. cbn [freed m_allocs].
      destruct (decide (s = slot)) as [->|Hs].
      * split; [tauto|]. intros [H1 _]. rewrite list_lookup_insert_eq in H1; [done|lia].
      * split; [intros (_ & H1 & H2)|intros [H1 H2]].
        -- rewrite list_lookup_insert_ne by lia. done.
        -- rewrite list_lookup_insert_ne in H1 by lia. done.
Qed.

Lemma brackets_matching evs before r :
  matches before r -> Z.of_nat (length before + length evs) < 2 ^ 32 ->
  brackets (m_allocs r) [] (m_ops r) (unfreed r) ->
  let r' := foldl match_event r evs in brackets (m_allocs r') [] (m_ops r') (unfreed r').
Proof.
  revert before r. induction evs as [|ev evs IH]; intros before r Hr Hn Hb; simpl in *; [done|].
  destruct (match_event_step before r ev Hr) as [Hr1 _]; [lia|].
  apply (IH (ev :: before)); [done|simpl; lia|]. apply (brackets_step before); [done|lia|done].
Qed.

Lemma matches0 : matches [] matching0.
Proof. split; try done. intros p. simpl. by case_match. Qed.

Lemma resolve_brackets events :
  Z.of_nat (length events) < 2 ^ 32 ->
  brackets (n_allocs (resolve events)) [] (r_ops (resolve events)) (leaked (resolve events)).
Proof.
  intros Hn. apply (brackets_matching events [] matching0 matches0 Hn). by apply br_nil.
Qed.

Lemma n_allocs_nonneg events : Z.of_nat (length events) < 2 ^ 32 -> 0 <= n_allocs (resolve events).
Proof.
  intros Hn. destruct (matching_spec events [] matching0 matches0 Hn) as [[Ha _ _ _ _ _] _].
  unfold resolve. cbn [n_allocs]. rewrite Ha. unfold allocs. lia.
Qed.

(** C31: the stream is the trace's.  Every allocation gets the next slot; a free is
    replayed exactly when the last event of its pointer is an allocation, and then
    frees that allocation's slot; what is not replayed is counted.  The stream frees
    only slots that hold a block and allocates only into slots that do not, and the
    slots it leaves are the leaked ones. *)
Theorem resolve_exact (events : list AllocEvent) :
  Z.of_nat (length events) < 2 ^ 32 ->
  let r := resolve events in
  r_ops r = reference [] events ∧ n_allocs r = allocs (reverse events) ∧
  total_frees r = Z.of_nat (length events) - n_allocs r ∧
  matched_frees r = Z.of_nat (length (r_ops r)) - n_allocs r ∧
  brackets (n_allocs r) [] (r_ops r) (leaked r).
Proof.
  intros Hn r. destruct (matching_spec events [] matching0 matches0 Hn) as [[Ha _ _ _ Ht [Hm _]] Eo].
  rewrite app_nil_r in *. rewrite length_reverse in Ht. unfold r, resolve. cbn [r_ops n_allocs total_frees matched_frees].
  split_and!; [exact Eo|exact Ha|by rewrite Ha|by rewrite Ha|by apply resolve_brackets].
Qed.

(** ** A pass against the heaps *)

Section Balance.
Context {D W : Type} `{Deopt.RoutineTable D} `{!Heaps W} (g_bootstrap : Z) `{!HeapLaws W g_bootstrap}.
Context (t : Z) (backend : Backend).

Abbreviation state := (harness D W).

Definition blocks (w : W) : gset ptr := libc_live w ∪ seg_live w.

(** What the backend may free. *)
Definition mine (w : W) : gset ptr := match backend with Glibc => libc_live w | _ => blocks w end.

(** A result, unless a segment could not be mapped. *)
Definition safely {A} (m : res A) (Q : A -> Prop) : Prop :=
  match m with Ok a => Q a | Trap e => e = AssertFailed end.

Lemma safely_bind {A C} (m : res A) (f : A -> res C) Q :
  safely m (λ a, safely (f a) Q) -> safely (m ≫= f) Q.
Proof. by destruct m. Qed.

Lemma safely_mono {A} (m : res A) (P Q : A -> Prop) : safely m P -> (∀ a, P a -> Q a) -> safely m Q.
Proof. destruct m; simpl; auto. Qed.

Record grows (p : ptr) (w w' : W) : Prop := mkGrows {
  g_ok : heap_ok w';
  g_blocks : blocks w' = add p (blocks w);
  g_fresh : p = 0 ∨ p ∉ blocks w;
  g_libc : libc_live w ⊆ libc_live w';
  g_seg : seg_live w ⊆ seg_live w';
  g_mine : p = 0 ∨ p ∈ mine w';
}.

Record shrinks (p : ptr) (w w' : W) : Prop := mkShrinks {
  s_ok : heap_ok w';
  s_blocks : blocks w' = blocks w ∖ {[p]};
  s_libc : libc_live w ∖ {[p]} ⊆ libc_live w';
  s_seg : seg_live w ∖ {[p]} ⊆ seg_live w';
}.

Lemma live_not_null w p : heap_ok w -> p ∈ blocks w -> p ≠ 0.
Proof. intros Hw [Hp|Hp]%elem_of_union; [by eapply libc_block|by eapply seg_block]. Qed.

Lemma exclusive w p : heap_ok w -> p ∈ libc_live w -> p ∉ seg_live w.
Proof.
  intros Hw Hl Hs. destruct (libc_block w p Hw Hl) as (_ & E & _), (seg_block w p Hw Hs) as (_ & E' & _). congruence.
Qed.

(** A heap that gained nothing, or one block. *)
Lemma grows_nothing w w' :
  heap_ok w' -> libc_live w' = libc_live w -> seg_live w' = seg_live w -> grows 0 w w'.
Proof. intros Hw El Es. split; [done|unfold blocks, add; by rewrite El, Es|by left|by rewrite El|by rewrite Es|by left]. Qed.

Lemma grows_libc p w w' :
  heap_ok w' -> p ∉ libc_live w -> libc_live w' = {[p]} ∪ libc_live w -> seg_live w' = seg_live w -> grows p w w'.
Proof.
  intros Hw' Hp El Es. assert (Hin : p ∈ libc_live w') by (rewrite El; set_solver +).
  assert (Hp0 : p ≠ 0) by (eapply (live_not_null w'); [done|]; by apply elem_of_union_l).
  pose proof (exclusive w' p Hw' Hin) as Hx. rewrite Es in Hx.
  split; unfold blocks, add, mine; rewrite ?(proj2 (Z.eqb_neq p 0)) by done.
  - done.
  - rewrite El, Es. set_solver +.
  - right. set_solver + Hp Hx.
  - rewrite El. set_solver +.
  - by rewrite Es.
  - right. destruct backend; [done|by apply elem_of_union_l..].
Qed.

Lemma grows_seg p w w' : backend ≠ Glibc ->
  heap_ok w' -> p ∉ seg_live w -> libc_live w' = libc_live w -> seg_live w' = {[p]} ∪ seg_live w -> grows p w w'.
Proof.
  intros Hb Hw' Hp El Es. assert (Hin : p ∈ seg_live w') by (rewrite Es; set_solver +).
  assert (Hp0 : p ≠ 0) by (eapply (live_not_null w'); [done|]; by apply elem_of_union_r).
  assert (Hx : p ∉ libc_live w) by (rewrite <- El; intros Hl; by eapply (exclusive w')).
  split; unfold blocks, add, mine; rewrite ?(proj2 (Z.eqb_neq p 0)) by done.
  - done.
  - rewrite El, Es. set_solver +.
  - right. set_solver + Hp Hx.
  - by rewrite El.
  - rewrite Es. set_solver +.
  - right. destruct backend; [done|by apply elem_of_union_r..].
Qed.

Lemma libc_grows size w : heap_ok w -> safely (libc_malloc size w) (λ x, grows x.1 w x.2).
Proof.
  intros Hw. unfold libc_malloc. pose proof (malloc_law w size Hw) as Hm. simpl.
  destruct (real_malloc size w) as [p w']. destruct Hm as (Hw' & Hs & [[-> E]|[Hp E]]); simpl.
  - by apply grows_nothing.
  - by apply grows_libc.
Qed.

Lemma grows_from w w1 p w' :
  grows p w1 w' -> libc_live w1 = libc_live w -> seg_live w1 = seg_live w -> grows p w w'.
Proof.
  intros [G1 G2 G3 G4 G5 G6] El Es. unfold blocks in *. rewrite El, Es in *. by split.
Qed.

Lemma serve_grows fn size w : backend ≠ Glibc -> heap_ok w ->
  safely (serve t fn size w) (λ x, grows x.1 w x.2).
Proof.
  intros Hb Hw. unfold serve. destruct (fn =? 0); [by apply libc_grows|]. apply safely_bind.
  pose proof (routine_law w t fn size Hw) as Hr. destruct (run_routine t fn size w) as [[r w']|e]; [|exact Hr].
  simpl. destruct r as [p| |].
  - destruct Hr as (Hw' & El & Hp & Es). by apply grows_seg.
  - destruct Hr as (Hw' & El & Es). eapply safely_mono; [by apply libc_grows|].
    intros x G. exact (grows_from _ _ _ _ G El Es).
  - destruct Hr as (Hw' & El & Es). eapply safely_mono; [by apply libc_grows|].
    intros x G. exact (grows_from _ _ _ _ G El Es).
Qed.

Lemma alloc_grows op (h : state) : heap_ok (heap h) ->
  safely (alloc_op t backend op h) (λ x, grows x.1 (heap h) (heap x.2)).
Proof.
  intros Hw. assert (Hwith : ∀ f, safely (f (heap h)) (λ x : ptr * W, grows x.1 (heap h) x.2) ->
    safely (with_heap f h) (λ x, grows x.1 (heap h) (heap x.2))).
  { intros f Hf. unfold with_heap. apply safely_bind. eapply safely_mono; [exact Hf|]. by intros []. }
  assert (backend = Glibc ∨ backend = Bound ∨ backend = Sim) as [E|[E|E]] by (destruct backend; auto);
    unfold alloc_op; rewrite E.
  - by apply Hwith, libc_grows.
  - apply Hwith, serve_grows; [by rewrite E|done].
  - unfold sim_alloc. destruct (sim_guard h); [by apply Hwith, libc_grows|].
    destruct (cached_lookup _ _ _) as [fn d]. apply safely_bind.
    eapply safely_mono; [apply serve_grows; [by rewrite E|done]|]. by intros [].
Qed.

Lemma free_shrinks p w : heap_ok w -> p ∈ mine w ->
  safely (free_op t backend p w) (λ w', shrinks p w w').
Proof.
  intros Hw Hp. assert (Hlibc : p ∈ libc_live w -> safely (real_free p w) (λ w', shrinks p w w')).
  { intros Hl. destruct (free_law w p Hw Hl) as (w' & -> & Hw' & Es & El). pose proof (exclusive w p Hw Hl).
    split; unfold blocks; rewrite ?El, ?Es; [done|set_solver..]. }
  assert (Hmgd : p ∈ blocks w -> safely (managed_aware_free t p w) (λ w', shrinks p w w')).
  { intros Hb. unfold managed_aware_free. rewrite (proj2 (Z.eqb_neq p 0)) by (by eapply (live_not_null w)).
    apply elem_of_union in Hb as [Hl|Hs].
    - destruct (libc_block w p Hw Hl) as (_ & -> & _). by apply Hlibc.
    - destruct (seg_block w p Hw Hs) as (_ & -> & _).
      destruct (managed_law w t p Hw Hs) as (w' & -> & Hw' & El & Es).
      assert (p ∉ libc_live w) by (intros Hl; by eapply (exclusive w)).
      split; unfold blocks; rewrite ?El, ?Es; [done|set_solver..]. }
  unfold free_op, mine in *. destruct backend; auto.
Qed.

Lemma free_null w : heap_ok w -> free_op t backend 0 w = Ok w.
Proof. intros Hw. unfold free_op, managed_aware_free. destruct backend; [by apply null_law|done..]. Qed.

(** The blocks the slots [os] hold. *)
Definition ptrs (os : list Z) (live : list ptr) : list ptr :=
  filter (λ p, p ≠ 0) ((λ s, default 0 (live !! Z.to_nat s)) <$> os).

Lemma ptrs_perm os os' live : os ≡ₚ os' -> ptrs os live ≡ₚ ptrs os' live.
Proof. intros E. unfold ptrs. by rewrite E. Qed.

Lemma ptrs_cons s os live p :
  live !! Z.to_nat s = Some p -> ptrs (s :: os) live = (if p =? 0 then [] else [p]) ++ ptrs os live.
Proof.
  intros E. unfold ptrs. cbn [fmap list_fmap]. rewrite E. cbn [default from_option].
  rewrite filter_cons. destruct (Z.eqb_spec p 0) as [->|Hp]; [by rewrite decide_False by tauto|by rewrite decide_True].
Qed.

Lemma ptrs_insert s os live p :
  0 <= s -> Forall (λ s, 0 <= s) os -> s ∉ os -> ptrs os (<[Z.to_nat s := p]> live) = ptrs os live.
Proof.
  intros Hs Hos Hn. unfold ptrs. f_equal. apply list_fmap_ext. intros i s' Hi.
  assert (Hin : s' ∈ os) by by eapply list_elem_of_lookup_2.
  rewrite Forall_forall in Hos. specialize (Hos s' Hin).
  rewrite list_lookup_insert_ne; [done|]. intros E. apply Hn. by replace s with s' by lia.
Qed.

(** From the heap [w0], with the slots [os] holding blocks: the blocks are the
    backend's, distinct, and besides them the heap is as it was. *)
Record balanced (w0 : W) (n : Z) (os : list Z) (live : list ptr) (h : state) : Prop := mkBalanced {
  b_ok : heap_ok (heap h);
  b_length : Z.of_nat (length live) = n;
  b_slots : Forall (λ s, 0 <= s < n) os;
  b_nodup : NoDup (ptrs os live);
  b_mine : Forall (λ p, p ∈ mine (heap h)) (ptrs os live);
  b_fresh : Forall (λ p, p ∉ blocks w0) (ptrs os live);
  b_blocks : blocks (heap h) = blocks w0 ∪ list_to_set (ptrs os live);
  b_libc : libc_live w0 ⊆ libc_live (heap h);
  b_seg : seg_live w0 ⊆ seg_live (heap h);
}.

Lemma balanced_perm w0 n os os' live h : os ≡ₚ os' -> balanced w0 n os live h -> balanced w0 n os' live h.
Proof.
  intros E [H1 H2 H3 H4 H5 H6 H7 H8 H9]. pose proof (ptrs_perm _ _ live E) as Ep.
  split; [done|done|by rewrite <- E|by rewrite <- Ep|by rewrite <- Ep|by rewrite <- Ep|by rewrite <- Ep|done|done].
Qed.

Lemma mine_grows p w w' q : grows p w w' -> q ∈ mine w -> q ∈ mine w'.
Proof.
  intros [_ _ _ Hl Hs _]. unfold mine, blocks. destruct backend; [by apply Hl|set_solver..].
Qed.

Lemma mine_shrinks p w w' q : shrinks p w w' -> q ≠ p -> q ∈ mine w -> q ∈ mine w'.
Proof.
  intros [_ _ Hl Hs] Hq. unfold mine, blocks. destruct backend; set_solver.
Qed.

Lemma slots_nonneg n os : Forall (λ s, 0 <= s < n) os -> Forall (λ s, 0 <= s) os.
Proof. intros Hos. eapply Forall_impl; [exact Hos|]. simpl. lia. Qed.

Lemma slot_inside w0 n os live h s : balanced w0 n os live h -> 0 <= s < n -> ∃ p, live !! Z.to_nat s = Some p.
Proof. intros B Hs. apply lookup_lt_is_Some_2. pose proof (b_length _ _ _ _ _ B). lia. Qed.

Lemma balanced_alloc w0 n os live h s p (h' : state) :
  balanced w0 n os live h -> 0 <= s < n -> s ∉ os -> grows p (heap h) (heap h') ->
  balanced w0 n (s :: os) (<[Z.to_nat s := p]> live) h'.
Proof.
  intros B Hs Hn G. destruct B as [H1 H2 H3 H4 H5 H6 H7 H8 H9].
  assert (Hlt : (Z.to_nat s < length live)%nat) by lia.
  assert (Ep : ptrs (s :: os) (<[Z.to_nat s := p]> live) = (if p =? 0 then [] else [p]) ++ ptrs os live).
  { rewrite (ptrs_cons _ _ _ p) by by apply list_lookup_insert_eq.
    f_equal. apply ptrs_insert; [lia|by eapply slots_nonneg|done]. }
  pose proof (g_ok _ _ _ G) as G1. pose proof (g_blocks _ _ _ G) as G2. pose proof (g_fresh _ _ _ G) as G3.
  pose proof (g_mine _ _ _ G) as G6. unfold add in G2.
  assert (H5' : Forall (λ q, q ∈ mine (heap h')) (ptrs os live)).
  { eapply Forall_impl; [exact H5|]. intros q. by eapply mine_grows. }
  assert (Hl : libc_live w0 ⊆ libc_live (heap h')) by (etrans; [exact H8|apply G]).
  assert (Hsg : seg_live w0 ⊆ seg_live (heap h')) by (etrans; [exact H9|apply G]).
  destruct (Z.eqb_spec p 0) as [->|Hp]; cbn [app] in Ep.
  - split; rewrite ?Ep; [done|by rewrite length_insert|by constructor|done|done|done|by rewrite G2|done|done].
  - destruct G3 as [|G3], G6 as [|G6]; [done..|]. rewrite H7 in G3.
    split; rewrite ?Ep; [done|by rewrite length_insert|by constructor|..|done|done].
    + constructor; [|done]. set_solver + G3.
    + by constructor.
    + constructor; [|done]. set_solver + G3.
    + rewrite G2, H7. cbn [list_to_set]. set_solver +.
Qed.

Lemma balanced_free w0 n os live h s p (h' : state) :
  balanced w0 n (s :: os) live h -> live !! Z.to_nat s = Some p -> p ≠ 0 -> shrinks p (heap h) (heap h') ->
  balanced w0 n os live h'.
Proof.
  intros [H1 H2 H3 H4 H5 H6 H7 H8 H9] Hl Hp S.
  pose proof (ptrs_cons s os live p Hl) as Ep. rewrite (proj2 (Z.eqb_neq p 0)) in Ep by done. cbn [app] in Ep.
  rewrite Ep in *. apply NoDup_cons in H4 as [H4' H4]. apply Forall_cons in H5 as [_ H5], H6 as [H6' H6], H3 as [_ H3].
  split; try done.
  - apply S.
  - apply Forall_forall. intros q Hq. rewrite Forall_forall in H5. eapply mine_shrinks; [exact S| |by apply H5].
    by intros ->.
  - rewrite (s_blocks _ _ _ S), H7. cbn [list_to_set].
    assert (p ∉ list_to_set (C := gset ptr) (ptrs os live)) by by rewrite elem_of_list_to_set.
    set_solver.
  - pose proof (s_libc _ _ _ S) as Hs. intros q Hq. apply Hs. apply elem_of_difference. split; [by apply H8|].
    intros ->%elem_of_singleton. apply H6'. by apply elem_of_union_l.
  - pose proof (s_seg _ _ _ S) as Hs. intros q Hq. apply Hs. apply elem_of_difference. split; [by apply H9|].
    intros ->%elem_of_singleton. apply H6'. by apply elem_of_union_r.
Qed.

Lemma balanced_drop w0 n os live h s : balanced w0 n (s :: os) live h -> live !! Z.to_nat s = Some 0 ->
  balanced w0 n os live h.
Proof.
  intros [H1 H2 H3 H4 H5 H6 H7 H8 H9] Hl. pose proof (ptrs_cons s os live 0 Hl) as Ep.
  rewrite (Z.eqb_refl 0) in Ep. cbn [app] in Ep.
  rewrite Ep in *. apply Forall_cons in H3 as [_ H3]. by split.
Qed.

Lemma slot_mine w0 n os live h s p :
  balanced w0 n (s :: os) live h -> live !! Z.to_nat s = Some p -> p ≠ 0 -> p ∈ mine (heap h).
Proof.
  intros B Hl Hp. pose proof (b_mine _ _ _ _ _ B) as Hm.
  rewrite (ptrs_cons _ _ _ _ Hl), (proj2 (Z.eqb_neq p 0)) in Hm by done. by apply Forall_cons in Hm as [Hm _].
Qed.

Lemma pass_balanced w0 n ops os os' live h :
  brackets n os ops os' -> balanced w0 n os live h ->
  safely (run_pass t backend ops live h) (λ x, balanced w0 n os' x.1 x.2).
Proof.
  intros Hb. revert live h.
  induction Hb as [os os' E|os op ops os' Hk Hs Hn Hb IH|os os1 op ops os' Hk Hs E Hb IH]; intros live h B.
  - by eapply balanced_perm.
  - cbn [run_pass]. apply safely_bind. unfold run_op.
    destruct (slot_inside _ _ _ _ _ _ B Hs) as [old ->]. rewrite Hk. apply safely_bind.
    eapply safely_mono; [apply alloc_grows, B|]. intros [p h'] G. simpl in G.
    apply IH. by apply (balanced_alloc w0 n os live h).
  - cbn [run_pass]. apply safely_bind. unfold run_op. apply (balanced_perm _ _ _ _ _ _ E) in B.
    destruct (slot_inside _ _ _ _ _ _ B Hs) as [old Hl]. rewrite Hl, Hk. apply safely_bind.
    destruct (decide (old = 0)) as [->|Hp].
    + rewrite free_null by apply B. apply IH. apply balanced_drop in B; [|done]. by destruct B; split.
    + pose proof (slot_mine _ _ _ _ _ _ _ B Hl Hp) as Hm. eapply safely_mono; [apply free_shrinks; [apply B|done]|]. intros w' S. apply IH.
      by apply (balanced_free w0 n os1 live h (op_slot op) old (mkHarness (sim_guard h) (disp h) w')).
Qed.

Lemma reclaim_balanced w0 n os live h :
  NoDup os -> balanced w0 n os live h ->
  safely (reclaim_leaked t backend os live h) (λ x, balanced w0 n [] x.1 x.2).
Proof.
  intros Hnd. revert live h. induction os as [|s os IH]; intros live h B; [exact B|].
  cbn [reclaim_leaked]. apply NoDup_cons in Hnd as [Hn Hnd].
  pose proof (b_slots _ _ _ _ _ B) as Hsl. apply Forall_cons in Hsl as [Hs Hsl].
  destruct (slot_inside _ _ _ _ _ _ B Hs) as [p Hl]. rewrite Hl.
  destruct (Z.eqb_spec p 0) as [->|Hp]; [apply IH; [done|by eapply balanced_drop]|]. apply safely_bind.
  pose proof (slot_mine _ _ _ _ _ _ _ B Hl Hp) as Hm. eapply safely_mono; [apply free_shrinks; [apply B|done]|]. intros w' S. apply IH; [done|].
  pose proof (balanced_free w0 n os live h s p (mkHarness (sim_guard h) (disp h) w') B Hl Hp S) as [H1 H2 H3 H4 H5 H6 H7 H8 H9].
  assert (Ep : ptrs os (<[Z.to_nat s := 0]> live) = ptrs os live).
  { apply ptrs_insert; [lia|by eapply slots_nonneg|done]. }
  split; rewrite ?Ep; try done. by rewrite length_insert.
Qed.

Lemma leaked_NoDup events : NoDup (leaked (resolve events)).
Proof. apply NoDup_filter, NoDup_seqZ. Qed.

(** A stream that leaves the slots it says it leaks. *)
Definition stream_ok (r : Resolved) : Prop := brackets (n_allocs r) [] (r_ops r) (leaked r) ∧ NoDup (leaked r).

Lemma resolve_fns_brackets table n os ops os' : brackets n os ops os' -> brackets n os (resolve_fns table ops) os'.
Proof.
  unfold resolve_fns. induction 1 as [os os' E|os op ops os' Hk Hs Hn Hb IH|os os1 op ops os' Hk Hs E Hb IH];
    cbn [fmap list_fmap]; [by apply br_nil|rewrite bool_decide_true by done|rewrite bool_decide_false by (rewrite Hk; done)].
  - by apply br_alloc.
  - by eapply br_free.
Qed.

Lemma stream_ok_resolved table events :
  Z.of_nat (length events) < 2 ^ 32 -> stream_ok (for_backend backend table (resolve events)).
Proof.
  intros Hn. split; [|destruct backend; apply leaked_NoDup].
  pose proof (resolve_brackets events Hn). destruct backend; [done|by apply resolve_fns_brackets|done].
Qed.

Lemma replay_balanced w0 r live h : stream_ok r -> balanced w0 (n_allocs r) [] live h ->
  safely (run_pass t backend (r_ops r) live h) (λ x, balanced w0 (n_allocs r) (leaked r) x.1 x.2).
Proof. intros [Hb _] B. by eapply pass_balanced. Qed.

Lemma passes_keep w0 k r live h : stream_ok r -> balanced w0 (n_allocs r) [] live h ->
  safely (run_passes t k backend r live h) (λ x, balanced w0 (n_allocs r) [] x.1 x.2).
Proof.
  intros Hr. revert live h. induction k as [|k IH]; intros live h B; [exact B|]. cbn [run_passes].
  apply safely_bind. eapply safely_mono; [by apply replay_balanced|].
  intros [live1 h1] B1. apply safely_bind.
  eapply safely_mono; [apply reclaim_balanced; [apply Hr|exact B1]|].
  intros [live2 h2] B2. by apply IH.
Qed.

Lemma balanced_start n live h : heap_ok (heap h) -> Z.of_nat (length live) = n -> balanced (heap h) n [] live h.
Proof. intros Hw Hl. split; try done; [constructor|set_solver +]. Qed.

Lemma balanced_end w0 n live h : balanced w0 n [] live h ->
  heap_ok (heap h) ∧ libc_live (heap h) = libc_live w0 ∧ seg_live (heap h) = seg_live w0.
Proof.
  intros [H1 _ _ _ _ _ H7 H8 H9]. split; [done|].
  unfold ptrs, blocks in H7. cbn [fmap list_fmap filter list_filter list_to_set] in H7.
  assert (Hx : ∀ p, p ∈ libc_live (heap h) -> p ∉ seg_live (heap h)) by (intros p; by apply exclusive).
  split; apply set_eq; intros p; set_solver.
Qed.

(** Every pass gives back exactly what it took.  For any trace, any heaps that
    keep their promises and any of the three backends (the routines of [bound]
    resolved from any table), any number of passes and
    reclaims end (unless a segment cannot be mapped) without freeing a block twice or
    to the wrong allocator, and leave both heaps with the live blocks they had: no
    block of the process is touched and none is leaked from pass to pass. *)
Theorem passes_balanced (k : nat) (events : list AllocEvent) (table : D) (live : list ptr) (h : state) :
  Z.of_nat (length events) < 2 ^ 32 -> heap_ok (heap h) ->
  Z.of_nat (length live) = n_allocs (resolve events) ->
  safely (run_passes t k backend (for_backend backend table (resolve events)) live h)
    (λ x, heap_ok (heap x.2) ∧ libc_live (heap x.2) = libc_live (heap h) ∧
          seg_live (heap x.2) = seg_live (heap h)).
Proof.
  intros Hn Hw Hl. eapply safely_mono.
  - apply passes_keep; [by apply stream_ok_resolved|]. apply balanced_start; [exact Hw|by destruct backend].
  - intros [live' h']. apply balanced_end.
Qed.
End Balance.

(** ** The simulated preamble changes nothing but the cost *)

Section Preamble.
Context {D W : Type} `{Deopt.RoutineTable D} `{!Heaps W} (t : Z).

Abbreviation state := (harness D W).

(** The inline cache of the harness agrees with the table, or its generation is out
    of date. *)
Definition cache_ok (d : Deopt.state D) : Prop :=
  Deopt.tl_ic_gen (Deopt.thr t d) = Deopt.rt_generation (Deopt.table d) ->
  Deopt.tl_ic_fn (Deopt.thr t d) = Deopt.rt_lookup (Deopt.tl_ic_id (Deopt.thr t d)) (Deopt.table d).

Lemma bench_thr_set_thr th (d : Deopt.state D) : Deopt.thr t (Deopt.set_thr t th d) = th.
Proof. unfold Deopt.thr, Deopt.set_thr. cbn. by rewrite lookup_insert_eq. Qed.

Lemma sample_keeps (d : Deopt.state D) :
  cache_ok d -> cache_ok (sample_safe_point t d) ∧ Deopt.table (sample_safe_point t d) = Deopt.table d.
Proof.
  intros Hc. unfold sample_safe_point. cbv zeta.
  set (th' := Deopt.mkThread _ _ _ _ _).
  assert (H1 : cache_ok (Deopt.set_thr t th' d)) by (unfold cache_ok; rewrite bench_thr_set_thr; exact Hc).
  case_match; [|done]. split; [|done]. exact H1.
Qed.

Lemma cached_lookup_exact (d : Deopt.state D) (id : CallSiteID) :
  cache_ok d ->
  (cached_lookup t id d).1 = Deopt.rt_lookup id (Deopt.table d) ∧
  cache_ok (cached_lookup t id d).2 ∧ Deopt.table (cached_lookup t id d).2 = Deopt.table d.
Proof.
  intros Hc. unfold cached_lookup. destruct (_ && _)%bool eqn:E; cbn [fst snd].
  - zb. subst id. split_and!; [by apply Hc|done|done].
  - split_and!; [done| |done]. unfold cache_ok. by rewrite bench_thr_set_thr.
Qed.

(** Two runs that end alike: the same array and heap, or the same fault. *)
Definition same_outcome (m1 m2 : res (list ptr * state)) : Prop :=
  match m1, m2 with
  | Ok (l1, h1), Ok (l2, h2) => l1 = l2 ∧ heap h1 = heap h2
  | Trap e1, Trap e2 => e1 = e2
  | _, _ => False
  end.

Lemma preamble_pass (ops : list Op) (live : list ptr) (h1 h2 : state) :
  cache_ok (disp h1) -> sim_guard h1 = false -> heap h1 = heap h2 ->
  same_outcome (run_pass t Sim ops live h1)
    (run_pass t Bound (resolve_fns (Deopt.table (disp h1)) ops) live h2).
Proof.
  revert live h1 h2. induction ops as [|op ops IH]; intros live h1 h2 Hc Hg Hh; [by split|].
  cbn [resolve_fns fmap list_fmap run_pass]. fold (resolve_fns (Deopt.table (disp h1)) ops).
  destruct h1 as [g1 d1 w], h2 as [g2 d2 w2]. cbn [disp sim_guard heap] in *. subst g1 w2. unfold run_op.
  destruct op as [k id n s fn]. cbn [kind op_slot op_id op_size op_fn]. destruct k; cbn [op_slot kind].
  - rewrite bool_decide_true by done. cbn [op_slot kind]. destruct (live !! Z.to_nat s) as [old|]; [|done].
    cbn [alloc_op]. unfold sim_alloc, with_heap. cbn [sim_guard disp heap op_fn op_size op_id].
    destruct (sample_keeps d1 Hc) as [Hc1 E1].
    destruct (cached_lookup_exact (sample_safe_point t d1) id Hc1) as (Ef & Hc2 & E2).
    destruct (cached_lookup t id (sample_safe_point t d1)) as [fn' d']. cbn [fst snd] in *.
    rewrite E1 in Ef, E2. rewrite Ef. destruct (serve t _ n w) as [[p w']|e]; [|done].
    cbn [mbind res_bind]. rewrite <- E2.
    exact (IH (<[Z.to_nat s:=p]> live) (mkHarness false d' w') (mkHarness g2 d2 w') Hc2 eq_refl eq_refl).
  - rewrite bool_decide_false by done. cbn [op_slot kind]. destruct (live !! Z.to_nat s) as [old|]; [|done].
    cbn [free_op heap]. destruct (managed_aware_free t old w) as [w'|e]; [|done]. cbn [mbind res_bind].
    exact (IH live (mkHarness false d1 w') (mkHarness g2 d2 w') Hc eq_refl eq_refl).
Qed.

(** C34: the [sim] backend is the [bound] backend and its preamble.  The guard, the
    sampled safe points, the generation and the inline cache never change which
    routine serves a request: on any stream and array, the two backends end with the
    same live pointers and the same heap, or fail alike.  (Deoptimization is off, so
    the table does not change during a pass.) *)
Theorem sim_serves_as_bound (ops : list Op) (live : list ptr) (h : state) :
  cache_ok (disp h) -> sim_guard h = false ->
  same_outcome (run_pass t Sim ops live h)
    (run_pass t Bound (resolve_fns (Deopt.table (disp h)) ops) live h).
Proof. intros Hc Hg. by apply preamble_pass. Qed.
End Preamble.

(** ** A small trace

    Two blocks of the compiled site, one of another; the first is freed, its address
    comes back, one free is of a block the trace never saw allocated, and two blocks
    are leaked. *)
Definition small_trace : list AllocEvent :=
  [mkAllocEvent TrampolineHeap.demo_site 64 1 3 4096; mkAllocEvent 9 100 2 3 8192;
   mkAllocEvent 5 0 3 3 4096; mkAllocEvent TrampolineHeap.demo_site 64 4 3 4096; mkAllocEvent 5 0 5 3 77].

Lemma resolve_exact_witness :
  leaked (resolve small_trace) = [1; 2] ∧
  r_ops (resolve small_trace) =
    [mkOp KAlloc TrampolineHeap.demo_site 64 0 0; mkOp KAlloc 9 100 1 0; mkOp KFree 0 0 0 0;
     mkOp KAlloc TrampolineHeap.demo_site 64 2 0] ∧
  total_frees (resolve small_trace) = 2 ∧ matched_frees (resolve small_trace) = 1.
Proof.
  destruct (resolve_exact small_trace) as (E1 & _ & E2 & E3 & _); [done|].
  rewrite E1, E2, E3. split_and!; vm_compute; reflexivity.
Defined.

#[local] Existing Instance Deopt.dispatch_table.
#[local] Existing Instance TrampolineHeap.demo_heaps.
#[local] Existing Instance TrampolineHeap.demo_laws.

(** The process of [TrampolineHeap] with its compiled site; the harness is thread 3. *)
Definition demo_harness : harness Dispatch.state TrampolineHeap.demo_world :=
  mkHarness false TrampolineHeap.d_compiled TrampolineHeap.heaps0.

Definition demo_ops : list Op := resolve_fns (Deopt.table (disp demo_harness)) (r_ops (resolve small_trace)).

Definition pass_ends (backend : Backend) (ops : list Op) : bool :=
  match run_pass 3 backend ops [0; 0; 0] demo_harness with Ok _ => true | Trap _ => false end.

Lemma sim_serves_as_bound_witness :
  pass_ends Sim (r_ops (resolve small_trace)) = true ∧
  same_outcome (run_pass 3 Sim (r_ops (resolve small_trace)) [0; 0; 0] demo_harness)
    (run_pass 3 Bound demo_ops [0; 0; 0] demo_harness).
Proof.
  split; [vm_compute; reflexivity|]. apply (sim_serves_as_bound 3).
  - unfold cache_ok. vm_compute. discriminate.
  - reflexivity.
Defined.

Definition passes_end (k : nat) : bool :=
  match run_passes 3 k Bound (for_backend Bound (Deopt.table (disp demo_harness)) (resolve small_trace)) [0; 0; 0] demo_harness with Ok _ => true | Trap _ => false end.

Lemma passes_balanced_witness :
  passes_end 3 = true ∧
  safely (run_passes 3 3 Bound (for_backend Bound (Deopt.table (disp demo_harness)) (resolve small_trace)) [0; 0; 0] demo_harness)
    (λ x, seg_live (heap x.2) = seg_live (heap demo_harness)).
Proof.
  split; [vm_compute; reflexivity|].
  eapply safely_mono.
  - apply (passes_balanced TrampolineHeap.BOOTSTRAP 3 Bound 3 small_trace (Deopt.table (disp demo_harness)) [0; 0; 0] demo_harness).
    + reflexivity.
    + exact TrampolineHeap.heaps0_ok.
    + reflexivity.
  - intros x (_ & _ & E). exact E.
Defined.
