(* ===== verification/BenchMain.v ===== *)
(** * The benchmark's [main] ([src/tools/bound_bench.cpp])

    The command line, the label, the learning pass (the events run through
    [Pipeline], so that the replay finds the routines an online process would
    have), the space, warm-up, timed and profiled passes of [BoundBench] with the
    reaper in between, and the statistics of the timings in binary64.  The clock and
    the resident-set sizes are arguments; a pass is timed from outside. *)

From S2P Require Import Prelude Common Double TraceFile Trampoline Routing BoundBench.
From S2P Require Analysis Summaries Codegen Pipeline Dispatch Deopt Json TrampolineHeap.
From S2P Require Segment HeapOps Heap SlowInit.
From Stdlib Require Import Ascii.
#[local] Open Scope Z_scope.
#[local] Existing Instances Deopt.dispatch_table Deopt.dispatch_table_laws.

(** ** The command line *)

Record options := mkOptions {
  trace_path : option string;
  backend : Backend;
  passes : Z;
  label : string;
  tsv_header : bool;
  profile : bool;
}.

Definition options0 : options := mkOptions None Bound 12 "" false false.

Definition is_space (a : ascii) : bool :=
  let n := nat_of_ascii a in (n =? 32)%nat || ((9 <=? n)%nat && (n <=? 13)%nat).

Fixpoint skip_space (s : string) : string :=
  match s with
  | String.String a r => if is_space a then skip_space r else s
  | EmptyString => s
  end.

(** [atoi] is [strtol], which saturates, cut to an [int]. *)
Definition atoi (s : string) : Z :=
  let long n := Z.max (- 2 ^ 63) (Z.min n (2 ^ 63 - 1)) in
  let n := match skip_space s with
           | String.String a r =>
               if Ascii.eqb a "-" then - (Json.read_digits 0 r).1
               else if Ascii.eqb a "+" then (Json.read_digits 0 r).1
               else (Json.read_digits 0 (String.String a r)).1
           | EmptyString => 0
           end in
  (long n + 2 ^ 31) mod 2 ^ 32 - 2 ^ 31.

Definition backend_of (name : string) : option Backend :=
  if String.eqb name "glibc" then Some Glibc
  else if String.eqb name "bound" then Some Bound
  else if String.eqb name "sim" then Some Sim
  else None.

(** An option and its value; [None] when the option takes none. *)
Definition valued (a v : string) (o : options) : option (option options) :=
  if String.eqb a "--backend" then
    Some (b ← backend_of v; Some (mkOptions (trace_path o) b (passes o) (label o) (tsv_header o) (profile o)))
  else if String.eqb a "--passes" then
    let n := atoi v in
    Some (Some (mkOptions (trace_path o) (backend o) (if n <? 1 then 1 else n) (label o) (tsv_header o) (profile o)))
  else if String.eqb a "--label" then
    Some (Some (mkOptions (trace_path o) (backend o) (passes o) v (tsv_header o) (profile o)))
  else None.

(** A flag, or the trace. *)
Definition single (a : string) (o : options) : option options :=
  if String.eqb a "--tsv-header" then Some (mkOptions (trace_path o) (backend o) (passes o) (label o) true (profile o))
  else if String.eqb a "--profile" then Some (mkOptions (trace_path o) (backend o) (passes o) (label o) (tsv_header o) true)
  else match trace_path o with
       | None => Some (mkOptions (Some a) (backend o) (passes o) (label o) (tsv_header o) (profile o))
       | Some _ => None
       end.

(** The loop over [argv]; [None] is a call of [usage]. *)
Fixpoint parse_args (args : list string) (o : options) : option options :=
  match args with
  | [] => Some o
  | [a] => single a o
  | a :: ((v :: rest) as tail) =>
      match valued a v o with
      | Some r => o ← r; parse_args rest o
      | None => o ← single a o; parse_args tail o
      end
  end.

(** [strrchr(path, '/')] and [rfind('.')]. *)
Fixpoint after_slash (s best : string) : string :=
  match s with
  | EmptyString => best
  | String.String c r => after_slash r (if Ascii.eqb c "/" then r else best)
  end.

Fixpoint before_dot (s : string) : option string :=
  match s with
  | EmptyString => None
  | String.String c r =>
      match before_dot r with
      | Some p => Some (String.String c p)
      | None => if Ascii.eqb c "." then Some EmptyString else None
      end
  end.

Definition label_of (path given : string) : string :=
  if String.eqb given "" then let base := after_slash path path in default base (before_dot base) else given.

(** ** The statistics of the timed passes *)

Fixpoint insert_sample (x : double) (l : list double) : list double :=
  match l with
  | [] => [x]
  | y :: r => if dltb x y then x :: l else y :: insert_sample x r
  end.

Definition sorted_samples (l : list double) : list double := foldr insert_sample [] l.

Definition p50 (sorted : list double) : double :=
  let n := length sorted in
  let at_ i := default dzero (sorted !! i) in
  if Nat.odd n then at_ (n / 2)%nat
  else dmul (literal 1 2) (dadd (at_ (n / 2 - 1)%nat) (at_ (n / 2)%nat)).

Definition ci95 (sorted : list double) : double :=
  let n := of_Z (Z.of_nat (length sorted)) in
  let mean := ddiv (foldl dadd dzero sorted) n in
  let var := foldl (λ v x, dadd v (dmul (dsub x mean) (dsub x mean))) dzero sorted in
  let var := if (1 <? length sorted)%nat then ddiv var (of_Z (Z.of_nat (length sorted) - 1)) else dzero in
  ddiv (dmul (literal 196 100) (dsqrt var)) (dsqrt n).

Definition matched_frac (r : Resolved) : double :=
  if total_frees r =? 0 then of_Z 1 else ddiv (of_Z (matched_frees r)) (of_Z (total_frees r)).

(** ** What the tool asks of the segment heap besides *)

Class Segments (W : Type) := {
  alloc_site_of : ptr -> W -> CallSiteID;
  reaper_sweep : (CallSiteID -> bool) -> W -> res W;
}.

(** A sweep takes no block away. *)
Class SegmentLaws (W : Type) (g_bootstrap : Z) `{HeapLaws W g_bootstrap} `{!Segments W} :=
  sweep_law pred (w : W) : heap_ok w ->
    ∃ w', reaper_sweep pred w = Ok w' ∧ heap_ok w' ∧ libc_live w' = libc_live w ∧ seg_live w' = seg_live w.

(** ** [main] *)

(** The line of results. *)
Record report := mkReport {
  rp_backend : Backend;
  rp_label : string;
  rp_p50 : double;
  rp_ci95 : double;
  rp_rss_kb : Z;
  rp_matched : double;
}.

Inductive outcome :=
  | Usage
  | Unreadable (e : read_error)
  | NothingToTime (b : Backend) (label : string) (matched : double)
  | Timed (r : report).

Section Main.
Context {W : Type} `{!Codegen.Image} `{!Heaps W} `{!Segments W}.
(** The harness's thread; the page [mmap] returns at the [i]-th event, if one is asked for;
    [sizeof(CallSiteSummary)]; the cached value of [forced_strategy]. *)
Context (t : Z) (page : nat -> ptr) (summary_bytes : Z) (forced : Strategy).

Abbreviation bench_state := (harness Dispatch.state W).

(** The learning pass; the oracle mode is on. *)
Fixpoint learn (w : W) (i : nat) (events : list AllocEvent) (s : Pipeline.system) : res Pipeline.system :=
  match events with
  | [] => Ok s
  | ev :: events =>
      s ← Pipeline.on_event (replay_knobs true forced) (λ p, managed p w) (λ p, alloc_site_of p w) (Some (page i)) ev s;
      learn w (S i) events s
  end.

Definition bench_reap_pred (s : Pipeline.system) (site : CallSiteID) : bool :=
  match Analysis.get_lifetime_tag site (Pipeline.summaries s) with Analysis.Reap => true | _ => false end.

(** The space pass: the footprint is measured with the leaked blocks still live. *)
Definition space_pass (b : Backend) (s : Pipeline.system) (r : Resolved) (live : list ptr) (h : bench_state)
  : res (list ptr * bench_state) :=
  '(live, h) ← run_pass t b (r_ops r) live h;
  w ← match b with Glibc => Ok (heap h) | _ => reaper_sweep (bench_reap_pred s) (heap h) end;
  reclaim_leaked t b (leaked r) live (mkHarness (sim_guard h) (disp h) w).

(** [rss]: the two readings of the resident set; [ns]: the clock around each timed
    pass. *)
Definition footprint (b : Backend) (rss : Z * Z) (s : Pipeline.system) : Z :=
  let seg_kb := Z.max 0 (rss.2 - rss.1) in
  let prof_kb := match b with
                 | Glibc => 0
                 | _ => Z.of_nat (length (Pipeline.summaries s)) * summary_bytes / 1024
                 end in
  seg_kb + prof_kb.

Definition samples (passes : Z) (n_allocs : Z) (ns : nat -> double * double) : list double :=
  (λ i, ddiv (dsub (ns i).2 (ns i).1) (of_Z n_allocs)) <$> seq 0 (Z.to_nat passes).

Definition warmup : nat := 3.

(** The replay, once there is something to replay. *)
Definition replay (o : options) (label : string) (events : list AllocEvent) (rss : Z * Z) (ns : nat -> double * double)
    (w : W) : res (outcome * W) :=
  let b := backend o in
  s ← match b with Glibc => Ok Pipeline.system0 | _ => learn w 0 events Pipeline.system0 end;
  let r := for_backend b (Deopt.table (Pipeline.deopts s)) (resolve events) in
  let live := replicate (Z.to_nat (n_allocs r)) 0 in
  '(live, h) ← space_pass b s r live (mkHarness false (Pipeline.deopts s) w);
  '(live, h) ← run_passes t warmup b r live h;
  '(live, h) ← run_passes t (Z.to_nat (passes o)) b r live h;
  '(_, h) ← run_passes t (if profile o then 1 else 0)%nat b r live h;
  let sorted := sorted_samples (samples (passes o) (n_allocs r) ns) in
  Ok (Timed (mkReport b label (p50 sorted) (ci95 sorted) (footprint b rss s) (matched_frac r)), heap h).

Definition main (args : list string) (files : string -> option (list Z)) (rss : Z * Z) (ns : nat -> double * double)
    (w : W) : res (outcome * W) :=
  match parse_args args options0 with
  | None => Ok (Usage, w)
  | Some o =>
      match trace_path o with
      | None => Ok (Usage, w)
      | Some path =>
          let l := label_of path (label o) in
          match read_trace (files path) with
          | inl e => Ok (Unreadable e, w)
          | inr events =>
              let r := resolve events in
              if n_allocs r =? 0 then Ok (NothingToTime (backend o) l (matched_frac r), w)
              else replay o l events rss ns w
          end
      end
  end.
End Main.

(** ** Learning *)

Section Learning.
Context {W : Type} `{!Codegen.Image} `{!Heaps W} `{!Segments W} (page : nat -> ptr) (forced : Strategy).
Context (w : W) (Hempty : ∀ p, managed p w = false).
Context (Hpage : ∀ i, 0 < page i).

Abbreviation K := (replay_knobs true forced).

Lemma bench_knobs : Summaries.knobs_ok K.
Proof. split; cbn; vm_compute; intuition discriminate. Qed.

Lemma learn_runs n i events s :
  Z.of_nat n + Z.of_nat (length events) + 2 < 2 ^ 32 ->
  Forall (λ ev, event_wf ev ∧ Pipeline.valid_site (ev_call_site ev)) events ->
  Pipeline.base_inv K n s -> ∃ s', learn page forced w i events s = Ok s'.
Proof.
  revert n i s. induction events as [|ev events IH]; intros n i s Hn Hev Hs; cbn [learn]; [by eauto|].
  apply Forall_cons in Hev as [[Hw Hv] Hev]. cbn [length] in Hn.
  assert (Hsite : ∀ p, managed p w = true -> Pipeline.valid_site (alloc_site_of p w)) by (intros p Hp; by rewrite Hempty in Hp).
  pose proof (Pipeline.event_outcome K (λ p, managed p w) (λ p, alloc_site_of p w) bench_knobs Hsite n s
    (Some (page i)) ev ltac:(lia) Hs Hw Hv ltac:(by intros ? [= <-])) as Ho.
  destruct (Pipeline.on_event _ _ _ _ _ _) as [s1|e] eqn:E; [|done]. cbn [mbind res_bind].
  apply (IH (S n)); [lia|done|]. by eapply Pipeline.base_outcome.
Qed.
End Learning.

(** ** The replay *)

Section Returns.
Context {W : Type} (g_bootstrap : Z) `{!Codegen.Image} `{HL : HeapLaws W g_bootstrap} `{!Segments W}
  `{SL : !SegmentLaws W g_bootstrap}.
Context (t : Z) (page : nat -> ptr) (summary_bytes : Z) (forced : Strategy).

Lemma balanced_swept b w0 n os live (h : harness Dispatch.state W) w' :
  heap_ok w' -> libc_live w' = libc_live (heap h) -> seg_live w' = seg_live (heap h) ->
  balanced g_bootstrap b w0 n os live h -> balanced g_bootstrap b w0 n os live (mkHarness (sim_guard h) (disp h) w').
Proof.
  intros Hok El Es [H1 H2 H3 H4 H5 H6 H7 H8 H9].
  assert (Eb : blocks g_bootstrap w' = blocks g_bootstrap (heap h)) by (unfold blocks; by rewrite El, Es).
  split; cbn [heap]; rewrite ?Eb, ?El, ?Es; try done.
  eapply Forall_impl; [exact H5|]. intros p. unfold mine. destruct b; by rewrite ?El, ?Eb.
Qed.

Lemma space_pass_balanced b w0 s r live h :
  stream_ok r -> balanced g_bootstrap b w0 (n_allocs r) [] live h ->
  safely (space_pass t b s r live h) (λ x, balanced g_bootstrap b w0 (n_allocs r) [] x.1 x.2).
Proof.
  intros Hr B. unfold space_pass. apply safely_bind. eapply safely_mono; [by apply replay_balanced|].
  intros [live1 h1] B1. cbn [fst snd] in B1. apply safely_bind. destruct (sweep_law (bench_reap_pred s) (heap h1)) as (w' & E & Hok & El & Es).
  { apply (b_ok _ _ _ _ _ _ _ B1). }
  assert (B2 : ∀ w, w = heap h1 ∨ w = w' -> balanced g_bootstrap b w0 (n_allocs r) (leaked r) live1 (mkHarness (sim_guard h1) (disp h1) w)).
  { intros w [-> | ->]; [by destruct h1|by apply balanced_swept]. }
  destruct b; cbn [safely]; rewrite ?E; apply reclaim_balanced; auto; apply Hr.
Qed.

Lemma main_gives_back_laws (args : list string) (files : string -> option (list Z)) (rss : Z * Z)
    (ns : nat -> double * double) (w : W) :
  heap_ok w -> (∀ p, managed p w = false) -> (∀ i, 0 < page i) ->
  (∀ path events, read_trace (files path) = inr events ->
     Z.of_nat (length events) + 2 < 2 ^ 32 ∧
     Forall (λ ev, event_wf ev ∧ Pipeline.valid_site (ev_call_site ev)) events) ->
  safely (main t page summary_bytes forced args files rss ns w)
    (λ x, heap_ok x.2 ∧ libc_live x.2 = libc_live w ∧ seg_live x.2 = seg_live w).
Proof.
  intros Hw Hempty Hpage Hfiles. unfold main. destruct (parse_args args options0) as [o|]; [|done].
  destruct (trace_path o) as [path|]; [|done]. destruct (read_trace (files path)) as [e|events] eqn:Er; [done|].
  destruct (Hfiles path events Er) as [Hn Hev]. destruct (_ =? 0); [done|].
  unfold replay. apply safely_bind. set (b := backend o).
  assert (Hlearn : ∃ s, match b with Glibc => Ok Pipeline.system0 | _ => learn page forced w 0 events Pipeline.system0 end = Ok s).
  { destruct (learn_runs page forced w Hempty Hpage 0 0 events Pipeline.system0) as (s & E);
      [cbn; lia|done|apply Pipeline.base_inv0|]. destruct b; eauto. }
  destruct Hlearn as [s ->]. cbn [safely]. set (r := for_backend b _ (resolve events)).
  assert (Hr : stream_ok r) by (apply stream_ok_resolved; lia).
  assert (B : balanced g_bootstrap b w (n_allocs r) [] (replicate (Z.to_nat (n_allocs r)) 0)
    (mkHarness false (Pipeline.deopts s) w)).
  { apply (balanced_start g_bootstrap b (n_allocs r) _ (mkHarness false (Pipeline.deopts s) w)); [done|].
    rewrite length_replicate, Z2Nat.id; [done|]. pose proof (n_allocs_nonneg events ltac:(lia)). unfold r. by destruct b. }
  apply safely_bind. eapply safely_mono; [by apply space_pass_balanced|]. intros [live1 h1] B1. cbn [fst snd] in B1.
  do 3 (apply safely_bind; eapply safely_mono; [apply passes_keep; [exact Hr|eassumption]|];
    clear B1; intros [? ?] B1; cbn [fst snd] in B1).
  cbn [safely snd]. by eapply balanced_end.
Qed.
End Returns.

(** ** Over the repository's heap *)

Section Over.
Import TrampolineHeap.
Context {A : Type} `{LibcLaws A} (plan_of : Z -> Heap.plan) (g_bootstrap : Z) (mode : Segment.ReapMode) (ps : Z).

#[export] Instance heaps_segments : Segments (heaps A) := {
  alloc_site_of p w := match header_of p w with Some h => Segment.alloc_site h | None => 0 end;
  reaper_sweep := sweep_heap mode ps;
}.

Context (Hplan : ∀ idx, Heap.plan_ok (plan_of idx)) (Hno_arena : ∀ idx sz, plan_of idx ≠ Heap.PlanArena sz).
Context (Hboot : ∀ p, lc_addr p -> is_bootstrap g_bootstrap p = false).

#[local] Instance over_heaps : Heaps (heaps A) := segment_heaps plan_of.
#[local] Instance over_laws : HeapLaws (heaps A) g_bootstrap := segment_heap_laws plan_of g_bootstrap Hplan Hno_arena Hboot.

#[local] Instance heaps_segment_laws : SegmentLaws (heaps A) g_bootstrap.
Proof.
  intros pred w Hw. destruct (sweep_ok plan_of g_bootstrap Hplan mode ps pred w Hw) as (w' & E & Hw' & El & Es).
  exists w'. split_and!; [done|done| |done]. cbn. by rewrite El.
Qed.

End Over.

(** ** A run of the tool

    [bound_bench dir/small.trace --passes 2 --profile], on the small trace. *)

#[local] Existing Instance TrampolineHeap.demo_heaps.
#[local] Existing Instance Codegen.image0.

Definition demo_segments : Segments TrampolineHeap.demo_world := heaps_segments Segment.Eager 4096.
#[local] Existing Instance demo_segments.

Definition small_file : list Z :=
  put (replicate (padding TraceHeader) 0) (mkHeader TRACE_MAGIC TRACE_VERSION 0) ++
  mjoin (put (replicate (padding AllocEvent) 0) <$> small_trace).

Definition demo_files (path : string) : option (list Z) :=
  if String.eqb path "dir/small.trace" then Some small_file else None.

Definition demo_page (i : nat) : ptr := 16384 + 4096 * (Z.of_nat i mod 2 ^ 40).

Lemma demo_page_ok i : 0 < demo_page i.
Proof. unfold demo_page. pose proof (Z.mod_pos_bound (Z.of_nat i) (2 ^ 40) ltac:(done)). lia. Qed.

Definition demo_main : res (outcome * TrampolineHeap.demo_world) :=
  main 3 demo_page 9000 Generic ["dir/small.trace"; "--passes"; "2"; "--profile"] demo_files (100, 90)
    (λ i, (of_Z (Z.of_nat i * 100), of_Z (Z.of_nat i * 100 + 30))) TrampolineHeap.heaps0.

(** The label and the footprint of the report. *)
Definition demo_report : option (string * Z) :=
  match demo_main with Ok (Timed r, _) => Some (rp_label r, rp_rss_kb r) | _ => None end.

