(* ===== verification/Profile.v ===== *)
(** * The profiled pass of [src/tools/bound_bench.cpp]

    [profile_pass] is a pass with the cycle counter read around each operation.  It
    does to the heap what [BoundBench.run_pass] does; its counts are those of the
    stream, and the share it prints as served by routines counts the operations that
    have a routine attached, which only the bound backend attaches. *)

From S2P Require Import Prelude Common Double Trampoline BoundBench BenchMain.
From S2P Require Deopt.

Record Profile := mkProfile { a_cyc : Z; f_cyc : Z; a_n : Z; f_n : Z; jit_n : Z }.

Definition profile0 : Profile := mkProfile 0 0 0 0 0.

(** One operation, between the readings [t0] and [t1]. *)
Definition count_op (op : Op) (t0 t1 : Z) (pr : Profile) : Profile :=
  match kind op with
  | KAlloc => mkProfile (u64 (a_cyc pr + u64 (t1 - t0))) (f_cyc pr) (u64 (a_n pr + 1)) (f_n pr)
                (if op_fn op =? 0 then jit_n pr else u64 (jit_n pr + 1))
  | KFree => mkProfile (a_cyc pr) (u64 (f_cyc pr + u64 (t1 - t0))) (a_n pr) (u64 (f_n pr + 1)) (jit_n pr)
  end.

(** What is printed per allocation or free, and the share. *)
Definition per (x n : Z) : double := if n =? 0 then dzero else ddiv (of_Z x) (of_Z n).

Definition jit_served (pr : Profile) : double := per (jit_n pr) (a_n pr).

Section Profiled.
Context {D W : Type} `{Deopt.RoutineTable D} `{!Heaps W} (t : Z).
(** The counter's readings around the [k]-th operation. *)
Context (tsc : nat -> Z * Z).

Fixpoint profile_pass (k : nat) (backend : Backend) (ops : list Op) (live : list ptr) (h : harness D W) (pr : Profile)
  : res (list ptr * harness D W * Profile) :=
  match ops with
  | [] => Ok (live, h, pr)
  | op :: ops =>
      '(live, h) ← run_op t backend op live h;
      profile_pass (S k) backend ops live h (count_op op (tsc k).1 (tsc k).2 pr)
  end.

(** The profile of a stream. *)
Fixpoint profiled (k : nat) (ops : list Op) (pr : Profile) : Profile :=
  match ops with
  | [] => pr
  | op :: ops => profiled (S k) ops (count_op op (tsc k).1 (tsc k).2 pr)
  end.

(** The profiled pass is a pass, and its profile one of the stream alone. *)
Lemma profile_pass_runs k backend ops live h pr :
  profile_pass k backend ops live h pr =
  ('(live, h) ← run_pass t backend ops live h; Ok (live, h, profiled k ops pr)).
Proof.
  revert k live h pr. induction ops as [|op ops IH]; intros k live h pr; [done|].
  cbn [profile_pass run_pass profiled]. destruct (run_op t backend op live h) as [[live' h']|]; [|done]. apply IH.
Qed.

Definition op_allocs (ops : list Op) : Z := Z.of_nat (length (filter (λ op, kind op = KAlloc) ops)).
Definition op_frees (ops : list Op) : Z := Z.of_nat (length (filter (λ op, kind op = KFree) ops)).
Definition op_routines (ops : list Op) : Z :=
  Z.of_nat (length (filter (λ op, kind op = KAlloc ∧ op_fn op ≠ 0) ops)).

Lemma op_cons op ops :
  op_allocs (op :: ops) = op_allocs ops + (if decide (kind op = KAlloc) then 1 else 0) ∧
  op_frees (op :: ops) = op_frees ops + (if decide (kind op = KFree) then 1 else 0) ∧
  op_routines (op :: ops) = op_routines ops + (if decide (kind op = KAlloc ∧ op_fn op ≠ 0) then 1 else 0).
Proof.
  unfold op_allocs, op_frees, op_routines. rewrite !filter_cons. split_and!; case_decide; cbn [length]; lia.
Qed.

Lemma op_bounds ops :
  0 <= op_routines ops <= op_allocs ops ∧ 0 <= op_frees ops ∧
  op_allocs ops + op_frees ops = Z.of_nat (length ops).
Proof.
  induction ops as [|op ops IH]; [done|]. destruct (op_cons op ops) as (-> & -> & ->). cbn [length].
  destruct (kind op) eqn:E; repeat case_decide; simplify_eq; try lia; destruct_and?; congruence.
Qed.

(** The counts are exact. *)
Lemma profiled_counts k ops pr :
  0 <= a_n pr -> 0 <= f_n pr -> 0 <= jit_n pr <= a_n pr ->
  a_n pr + f_n pr + Z.of_nat (length ops) < 2 ^ 64 ->
  let q := profiled k ops pr in
  a_n q = a_n pr + op_allocs ops ∧ f_n q = f_n pr + op_frees ops ∧ jit_n q = jit_n pr + op_routines ops.
Proof.
  revert k pr. induction ops as [|op ops IH]; intros k pr Ha Hf Hj Hlen; [cbn; unfold op_allocs, op_frees, op_routines; simpl; lia|].
  cbn [profiled length] in *. destruct (op_cons op ops) as (-> & -> & ->).
  assert (∀ x, 0 <= x -> x <= a_n pr + f_n pr -> u64 (x + 1) = x + 1) as Hu by (intros; apply u64_small; lia).
  destruct (IH (S k) (count_op op (tsc k).1 (tsc k).2 pr)) as (-> & -> & ->); clear IH.
  all: unfold count_op; destruct (kind op) eqn:E; cbn [a_n f_n jit_n]; rewrite ?Hu by lia.
  all: try lia. all: try (destruct (Z.eqb_spec (op_fn op) 0); rewrite ?Hu by lia; try lia).
  all: repeat case_decide; simplify_eq; destruct_and?; try congruence; split_and!; try lia.
  all: exfalso; tauto.
Qed.
End Profiled.

(** The stream has at most an operation per event, and no routine attached. *)
Lemma match_event_ops r ev :
  ∃ l, m_ops (match_event r ev) = m_ops r ++ l ∧ (length l <= 1)%nat ∧ Forall (λ op, op_fn op = 0) l.
Proof.
  unfold match_event. destruct (negb _); [|destruct (live_index r !! ev_ptr ev)]; cbn [m_ops];
    (eexists; split; [reflexivity || by rewrite app_nil_r|]); split; simpl; try lia; by repeat constructor.
Qed.

Lemma resolved_ops events :
  (length (r_ops (resolve events)) <= length events)%nat ∧ Forall (λ op, op_fn op = 0) (r_ops (resolve events)).
Proof.
  unfold resolve. cbn [r_ops].
  assert (∀ r, Forall (λ op, op_fn op = 0) (m_ops r) ->
    (length (m_ops (foldl match_event r events)) <= length (m_ops r) + length events)%nat ∧
    Forall (λ op, op_fn op = 0) (m_ops (foldl match_event r events))) as H; [|by apply H].
  induction events as [|ev events IH]; intros r Hr; cbn [foldl length]; [split; [lia|done]|].
  destruct (match_event_ops r ev) as (l & E & Hl & Hz). destruct (IH (match_event r ev)) as [H1 H2].
  { rewrite E. by apply Forall_app. }
  split; [|done]. rewrite E, length_app in H1. lia.
Qed.

(** The share printed: with the bound backend the allocations whose site had a routine
    when the table was last asked; with the others none, so that of the sim backend it
    is 0 however many allocations its dispatch serves. *)
Lemma profile_served {D} `{Deopt.RoutineTable D} (table : D) backend tsc events :
  Z.of_nat (length events) < 2 ^ 64 ->
  let ops := r_ops (for_backend backend table (resolve events)) in
  jit_n (profiled tsc 0 ops profile0) =
  match backend with
  | Bound => Z.of_nat (length (filter (λ op, kind op = KAlloc ∧ Deopt.rt_lookup (op_id op) table ≠ 0)
                                 (r_ops (resolve events))))
  | _ => 0
  end.
Proof.
  intros Hlen ops. destruct (resolved_ops events) as [Hl Hz].
  assert (Hops : length ops = length (r_ops (resolve events))).
  { unfold ops. destruct backend; cbn [for_backend r_ops]; [done| |done]. apply length_fmap. }
  destruct (profiled_counts tsc 0 ops profile0) as (_ & _ & ->); [cbn; lia..|]. cbn [jit_n profile0]. rewrite Z.add_0_l.
  assert (Hnone : op_routines (r_ops (resolve events)) = 0).
  { clear - Hz. unfold op_routines. induction Hz as [|op l E _ IH]; [done|].
    rewrite filter_cons_False; [exact IH|naive_solver]. }
  unfold ops. destruct backend; cbn [for_backend r_ops]; [exact Hnone| |exact Hnone].
  unfold op_routines, resolve_fns. f_equal. clear. induction (r_ops (resolve events)) as [|op l IH]; [done|].
  cbn [fmap list_fmap]. rewrite !filter_cons. destruct (kind op) eqn:Ek.
  - rewrite bool_decide_true by done. cbn [kind op_fn]. rewrite ?Ek. case_decide; cbn [length]; by rewrite IH.
  - rewrite bool_decide_false by done. rewrite !decide_False by (rewrite ?Ek; cbn [kind]; rewrite ?Ek; by intros [? _]). exact IH.
Qed.
