(* ===== verification/MicroBench.v ===== *)
(** * The two measuring programs that are not plain loops

    [src/bench/micro_jit_direct.cpp] compiles a bump routine and calls it without
    the trampoline; its trials rewind the slot and must never leave the fast path.
    [src/bench/gate1_lifetime_probe.c] keeps a set of blocks and turns over a window
    of others, and reports how many kilobytes are live. *)

From stdpp Require Import pretty.
From Stdlib Require Import Ascii.
From S2P Require Import Prelude Common Double DumpText.
From S2P Require Import Analysis Codegen.
From S2P Require Import Segment SlowInit Chunks Heap Bump.
From S2P Require Json BenchMain.

(** ** micro_jit_direct *)

Module JitDirect.

Definition TRIALS : nat := 25.
Definition ITERS : nat := Z.to_nat 30000.
Definition SIZE : Z := 48.

Definition spec : RoutineSpec := mkSpec 0xfeedface BumpAlloc SIZE [].

Definition median_of (samples : list double) : double := BenchMain.p50 (BenchMain.sorted_samples samples).

Inductive outcome :=
  | Measured (blocks : list (list ptr)) (med lo hi : double)
  | Exit.   (** [compile failed], [fn(SIZE) returned null] *)

(** What either loop reports of its trials' times [ns]. *)
Definition measured (ls : list (list ptr)) (ns : list double) : outcome :=
  let samples := (λ t, ddiv t (of_Z (Z.of_nat ITERS))) <$> ns in
  let sorted := BenchMain.sorted_samples samples in
  Measured ls (median_of samples) (default dzero (sorted !! 0%nat)) (default dzero (sorted !! (TRIALS - 1)%nat)).

(** [run_glibc_reference]; [malloc i] is libc's [i]-th block. *)
Definition run_glibc_reference (malloc : nat -> ptr) (ns : list double) : outcome :=
  measured ((λ t, malloc <$> seq (t * ITERS) ITERS) <$> seq 0 TRIALS) ns.

Section Run.
  Context `{Image} (tid : Z).

(** The compiled routine is that of its slot ([CodeHeap]): a bump region. *)
Definition plan_of (_ : Z) : plan := PlanRegion false SIZE.

Definition fn (raw : option Z) (slot : Z) (m : machine) : res (option ptr * machine) :=
  r ← routine plan_of raw tid slot SIZE m;
  match r with
  | Block p m => Ok (Some p, m)
  | Deopted _ => Ok (None, m)
  end.

(** One trial's loop; a call that leaves the region has libc's block, which is of
    no interest here. *)
Fixpoint iterate (n : nat) (raw : option Z) (slot : Z) (m : machine) : res (list ptr * machine) :=
  match n with
  | O => Ok ([], m)
  | S n =>
      '(p, m) ← fn raw slot m;
      '(l, m) ← iterate n raw slot m;
      mret (option_list p ++ l, m)
  end.

(** [tl_bumps[slot].ptr = base]. *)
Definition rewind (slot : Z) (base : ptr) (m : machine) : machine :=
  set_bump (tid, slot) (mkBump base (b_end (SlowInit.slot bump0 (tl_bumps m) (tid, slot)))) m.

Fixpoint trials (n : nat) (raw : option Z) (slot : Z) (base : ptr) (m : machine)
  : res (list (list ptr) * machine) :=
  match n with
  | O => Ok ([], m)
  | S n =>
      '(l, m) ← iterate ITERS raw slot (rewind slot base m);
      '(ls, m) ← trials n raw slot base m;
      mret (l :: ls, m)
  end.

(** [run_jit_direct]: [page] and [raw0] are what [mmap] returns for the code page
    and the first segment, [raw] for any later one; [ns] are the times of the
    trials. *)
Definition run_jit_direct (page raw0 raw : option Z) (ns : list double) (cg : codegen) (m : machine)
  : res (outcome * machine) :=
  '(code, cg') ← compile page spec cg;
  if code =? 0 then Ok (Exit, m) else
  '(base, m) ← fn raw0 (g_next_index cg) m;
  match base with
  | None => Trap Unmapped   (* libc's block: there is no segment header to read *)
  | Some base =>
      if base =? 0 then Ok (Exit, m) else
      h ← header (seg_of base) (heap m);
      '(ls, m) ← trials TRIALS raw (slot_index h) base m;
      mret (measured ls ns, m)
  end.

(** [main]: the reference runs if the routine did not exit. *)
Definition main (page raw0 raw : option Z) (malloc : nat -> ptr) (ns ns' : list double) (cg : codegen) (m : machine)
  : res (outcome * option outcome * machine) :=
  '(o, m) ← run_jit_direct page raw0 raw ns cg m;
  match o with
  | Exit => mret (o, None, m)
  | Measured _ _ _ _ => mret (o, Some (run_glibc_reference malloc ns'), m)
  end.

(** A run of fast paths is a run of the routine. *)
Lemma iterate_bumps n raw idx m l m' :
  bumps n tid idx SIZE m = Some (l, m') -> iterate n raw idx m = Ok (l, m').
Proof.
  revert m l. induction n as [|n IH]; intros m l E; cbn [bumps iterate] in *; [by simplify_eq|].
  destruct (jit_bump tid idx SIZE m) as [[p m1]|] eqn:E1; [|done].
  destruct (bumps n tid idx SIZE m1) as [[l1 m2]|] eqn:E2; [|done]. injection E as <- <-.
  unfold fn, routine, plan_of. rewrite Z.eqb_refl, E1. cbn. by rewrite (IH _ _ E2).
Qed.

Lemma rewind_at idx s i m :
  bump_at m (tid, idx) s SIZE i -> bump_at (rewind idx (payload_start s) m) (tid, idx) s SIZE 0.
Proof. unfold bump_at, rewind. intros E. rewrite slot_set_bump, E. cbn. f_equal. lia. Qed.

Lemma trials_fast n raw idx s i m :
  seg_addr s -> 0 <= i -> bump_at m (tid, idx) s SIZE i ->
  ∃ m', trials n raw idx (payload_start s) m = Ok (replicate n (blocks s SIZE 0 ITERS), m') ∧
    heap m' = heap m.
Proof.
  intros Hs. revert i m. induction n as [|n IH]; intros i m Hi Hat; [by exists m|]. cbn [trials replicate].
  pose proof (bumps_at ITERS _ tid idx s SIZE 0 Hs ltac:(done) ltac:(lia) ltac:(done) (rewind_at idx s i m Hat)) as Hb.
  assert (HEADER_SIZE + (0 + Z.of_nat ITERS) * SIZE <? SEGMENT_SIZE = true) as Hroom by (vm_compute; reflexivity).
  rewrite Hroom, orb_true_r in Hb.
  destruct Hb as (m1 & E & Hat1 & Hh). rewrite (iterate_bumps _ raw _ _ _ _ E). cbn [mbind res_bind].
  destruct (IH (0 + Z.of_nat ITERS) m1 ltac:(lia) Hat1) as (m2 & -> & Hh2). exists m2.
  split; [done|]. by rewrite Hh2, Hh.
Qed.

Lemma blocks_inside s p :
  p ∈ blocks s SIZE 0 ITERS -> payload_start s <= p ∧ p + SIZE <= segment_end s.
Proof.
  unfold blocks. intros (j & -> & Hj)%list_elem_of_fmap. apply elem_of_seq in Hj.
  assert (Z.of_nat ITERS = 30000) as HI by (vm_compute; reflexivity).
  unfold payload_start, segment_end, HEADER_SIZE, SEGMENT_SIZE, SIZE. lia.
Qed.

(** The program runs through, whatever else the thread and the segment heap hold:
    the routine compiles, its first call maps one segment, and from there on every
    trial of 30000 calls stays on the fast path and hands out the same distinct
    blocks, all inside that segment; no other segment is mapped. *)
Theorem jit_direct_stays_fast page lo raw ns cg m :
  page ≠ 0 -> 0 <= g_next_index cg < MAX_COMPILED_SITES ->
  fresh_raw (Some lo) (heap m) -> registered (heap m) (dom (segs (heap m))) ->
  SlowInit.slot bump0 (tl_bumps m) (tid, g_next_index cg) = bump0 ->
  ∃ s m' med lo' hi,
    run_jit_direct (Some page) (Some lo) raw ns cg m =
      Ok (Measured (replicate TRIALS (blocks s SIZE 0 ITERS)) med lo' hi, m') ∧
    dom (segs (heap m')) = {[s]} ∪ dom (segs (heap m)) ∧ s ∉ dom (segs (heap m)) ∧
    NoDup (blocks s SIZE 0 ITERS) ∧
    ∀ p, p ∈ blocks s SIZE 0 ITERS -> payload_start s <= p ∧ p + SIZE <= segment_end s.
Proof.
  intros Hp Hidx Hraw Hreg Hslot. unfold run_jit_direct. rewrite compile_split by done.
  change (accepts spec) with (Some Bump). cbv zeta.
  assert (g_next_index cg <? MAX_COMPILED_SITES = true) as -> by (apply Z.ltb_lt; lia).
  cbn [mbind res_bind]. rewrite (proj2 (Z.eqb_neq page 0)) by done.
  unfold fn, routine. cbn [plan_of]. rewrite Z.eqb_refl.
  assert (jit_bump tid (g_next_index cg) SIZE m = None) as -> by (unfold jit_bump; by rewrite Hslot).
  rewrite Hslot. cbn [b_ptr bump0]. change (0 =? 0) with true. cbv iota.
  destruct (new_segment_spec lo tid BumpAlloc (g_next_index cg) SIZE m Hraw Hreg)
    as (s & w & E & Ha & Hnone & Es & _).
  unfold bump_slow_init. rewrite E. cbn [mbind res_bind].
  set (h := fresh_header BumpAlloc (g_next_index cg) (arr 0 (g_slot_to_site m) (g_next_index cg)) SIZE tid s) in *.
  destruct (install_bump_spec tid (g_next_index cg) SIZE s (set_heap w m) h) as (m1 & -> & Hat & Es1).
  { cbn [heap set_heap]. by rewrite Es, lookup_insert_eq. }
  cbn [mbind res_bind block_of fst snd].
  assert (Hpos : 0 < s) by (destruct Ha; unfold SEGMENT_SIZE in *; lia).
  assert (Hsg : seg_of (payload_start s) = s).
  { apply seg_of_inside; [apply Ha|]. unfold payload_start, HEADER_SIZE, SEGMENT_SIZE. lia. }
  rewrite (proj2 (Z.eqb_neq _ _)) by (unfold payload_start, HEADER_SIZE; lia).
  rewrite Hsg. unfold header. rewrite Es1, lookup_insert_eq. cbn [of_option mbind res_bind].
  change (slot_index (with_bump _ h)) with (g_next_index cg).
  destruct (trials_fast TRIALS raw (g_next_index cg) s 1 m1 Ha ltac:(lia) Hat) as (m2 & -> & Hh).
  cbn [mbind res_bind mret res_ret]. exists s, m2. do 3 eexists. split; [reflexivity|].
  rewrite Hh, Es1. cbn [heap set_heap]. rewrite Es, insert_insert_eq, dom_insert_L.
  split_and!; [done | by apply not_elem_of_dom | | apply blocks_inside].
  unfold blocks. apply NoDup_fmap_2; [|apply NoDup_seq]. intros i j. unfold SIZE. lia.
Qed.
End Run.

Lemma jit_direct_stays_fast_witness :
  ∃ s m' med lo' hi,
    run_jit_direct (H := image0) 1 (Some 65536) (Some 4096) None [] codegen0 (st conf0) =
      Ok (Measured (replicate TRIALS (blocks s SIZE 0 ITERS)) med lo' hi, m') ∧
    NoDup (blocks s SIZE 0 ITERS).
Proof.
  assert (Hraw : fresh_raw (Some 4096) (heap (st conf0))).
  { split_and!; [lia|unfold SEGMENT_SIZE; pow2; lia|]. intros s Hs. exfalso. revert Hs.
    cbn [conf0 st heap world0 segs]. rewrite lookup_empty. intros [? Hx]. discriminate. }
  destruct (jit_direct_stays_fast (H := image0) 1 65536 4096 None [] codegen0 (st conf0))
    as (s & m' & med & lo' & hi & E & _ & _ & Hn & _);
    [lia | by vm_compute | exact Hraw | exact registered_world0 | by vm_compute |].
  exists s, m', med, lo', hi. split; [exact E | exact Hn].
Defined.
End JitDirect.

(** ** gate1_lifetime_probe *)

Module Probe.

(** *** The counters of [/proc/self/smaps_rollup] *)

(** The rest of a line that starts with [key]. *)
Fixpoint strip (key line : string) : option string :=
  match key, line with
  | EmptyString, _ => Some line
  | String.String a key, String.String b line => if Ascii.eqb a b then strip key line else None
  | _, EmptyString => None
  end.

(** [sscanf] with [" %ld"], which leaves [val] if there is no number. *)
Definition scan_long (s : string) (val : Z) : Z :=
  let number s := match s with
                  | String.String a r => (λ d, (Json.read_digits d r).1) <$> Json.digit a
                  | EmptyString => None
                  end in
  let saturate n := Z.max (- 2 ^ 63) (Z.min n (2 ^ 63 - 1)) in
  match BenchMain.skip_space s with
  | String.String a r =>
      if Ascii.eqb a "-" then default val ((λ n, saturate (- n)) <$> number r)
      else if Ascii.eqb a "+" then default val (saturate <$> number r)
      else default val (saturate <$> number (String.String a r))
  | EmptyString => val
  end.

(** [f]: the lines of the file, if it can be opened. *)
Definition read_smaps_kb (f : option (list string)) (key : string) : Z :=
  match f with
  | None => -1
  | Some lines => match head (omap (strip key) lines) with Some s => scan_long s (-1) | None => -1 end
  end.

Lemma strip_key key rest : strip key (key +:+ rest) = Some rest.
Proof. induction key as [|a key IH]; [done|]. simpl. by rewrite Ascii.eqb_refl. Qed.

Lemma scan_number n rest val :
  0 <= n < 2 ^ 63 -> Json.ends rest -> scan_long (pretty n +:+ rest) val = n.
Proof.
  intros Hn Hr. destruct (Json.read_number_pretty n rest ltac:(lia) Hr) as [E Hs].
  destruct (pretty n) as [|a r] eqn:Ep; [done|]. clear Ep Hs.
  change (String.String a r +:+ rest) with (String.String a (r +:+ rest)) in *.
  cbn [Json.read_number] in E. destruct (Json.digit a) as [d|] eqn:Ed; [|done].
  assert (Ha : (48 <= nat_of_ascii a <= 57)%nat).
  { unfold Json.digit in Ed. cbv zeta in Ed.
    destruct ((48 <=? nat_of_ascii a)%nat && (nat_of_ascii a <=? 57)%nat) eqn:Hd; [|discriminate]. apply andb_true_iff in Hd as [H1 H2].
    apply Nat.leb_le in H1, H2. lia. }
  unfold scan_long. cbn [BenchMain.skip_space].
  assert (BenchMain.is_space a = false) as ->.
  { unfold BenchMain.is_space. rewrite (proj2 (Nat.eqb_neq _ _)), (proj2 (Nat.leb_gt _ 13)) by lia.
    by rewrite andb_false_r. }
  assert (∀ c, (nat_of_ascii c < 48)%nat -> Ascii.eqb a c = false) as Hc.
  { intros c Hc. apply Ascii.eqb_neq. intros ->. lia. }
  rewrite !Hc by (vm_compute; lia). rewrite Ed. cbn [fmap option_fmap option_map default].
  assert (E1 : (Json.read_digits d (r +:+ rest)).1 = n); [|cbn [from_option id]; rewrite E1; pow2; lia].
  destruct (d =? 0) eqn:E0; [|by injection E as ->].
  injection E as <- ->. apply Z.eqb_eq in E0 as ->. by rewrite Json.read_digits_ends.
Qed.

Lemma skip_spaces k s : BenchMain.skip_space (spaces k +:+ s) = BenchMain.skip_space s.
Proof. induction k as [|k IH]; [done|]. exact IH. Qed.

(** A line as the kernel writes it is read back. *)
Lemma read_smaps_line pre post key k n rest :
  Forall (λ l, strip key l = None) pre -> 0 <= n < 2 ^ 63 -> Json.ends rest ->
  read_smaps_kb (Some (pre ++ (key +:+ spaces k +:+ pretty n +:+ rest) :: post)) key = n.
Proof.
  intros Hpre Hn Hr. unfold read_smaps_kb. rewrite omap_app.
  assert (omap (strip key) pre = []) as -> by (induction Hpre as [|l pre E _ IH]; [done|]; csimpl; by rewrite E).
  csimpl. rewrite strip_key. cbn [app head].
  transitivity (scan_long (pretty n +:+ rest) (-1)); [|by apply scan_number].
  unfold scan_long. by rewrite skip_spaces.
Qed.

(** The sizes and counts of the command line, 64-bit; the default ones. *)
Record args := mkArgs { held_count : Z; held_kb : Z; churn_window : Z; churn_kb : Z; iters : Z }.
Definition default_args : args := mkArgs 64 64 256 4 2000000.

(** [argv[i]] past the arguments given is the default; [strtoul]'s results. *)
Definition parse_args (argv : list Z) : args :=
  let at_ i d := default d (argv !! i) in
  mkArgs (at_ 0%nat 64) (at_ 1%nat 64) (at_ 2%nat 256) (at_ 3%nat 4) (at_ 4%nat 2000000).

Inductive exit :=
  | Reported (live_kb rss anon thp slack : Z)
  | Perror          (** an allocation of the held set or of a table failed *)
  | DivByZero       (** [i % churn_window] *)
  | OutOfBounds.    (** [held[0][0]] of an empty table *)

(** The blocks allocated and not freed, by size; the [n]-th request is granted by
    [grant n].  What [touch] writes is not modelled. *)
Section Probe.
  Context (grant : nat -> bool).

(** The held set: [n] blocks of [size] bytes. *)
Fixpoint hold (n : nat) (size : Z) (req : nat) (live : list Z) : option (nat * list Z) :=
  match n with
  | O => Some (req, live)
  | S n => if grant req then hold n size (S req) (size :: live) else None
  end.

(** The churn: [win] is the table, [true] where a block is. *)
Fixpoint churn (n : nat) (i : nat) (w : nat) (req : nat) (win : list bool) : option (nat * list bool) :=
  match n with
  | O => Some (req, win)
  | S n =>
      if (w =? 0)%nat then None
      else churn n (S i) w (S req) (<[(i mod w)%nat := grant req]> win)
  end.

(** [main], after the command line: the blocks alive at the end and the exit.
    [smaps] is what the kernel's file holds at each reading; the two [calloc]s are
    the requests before each loop. *)
Definition main (a : args) (smaps : string -> option (list string)) : exit * list Z :=
  let read key := read_smaps_kb (smaps key) key in
  let held_bytes := u64 (held_kb a * 1024) in
  let churn_bytes := u64 (churn_kb a * 1024) in
  if negb (grant 0) then (Perror, []) else
  match hold (Z.to_nat (held_count a)) held_bytes 1 [] with
  | None => (Perror, [])
  | Some (req, held) =>
      if negb (grant req) then (Perror, held) else
      let w := Z.to_nat (churn_window a) in
      match churn (Z.to_nat (iters a)) 0 w (S req) (replicate w false) with
      | None => (DivByZero, held)
      | Some (_, win) =>
          let live := held ++ replicate (length (filter (λ b, b = true) win)) churn_bytes in
          let live_kb := u64 (held_count a * held_kb a + churn_window a * churn_kb a) in
          let rss := read "Rss:" in
          let slack := if 0 <=? rss then rss - live_kb else -1 in
          if held_count a =? 0 then (OutOfBounds, live)
          else (Reported live_kb rss (read "Anonymous:") (read "AnonHugePages:") slack, live)
      end
  end.

Definition bytes (l : list Z) : Z := foldr Z.add 0 l.

Lemma hold_granted n size req live :
  (∀ k, grant k = true) -> hold n size req live = Some ((req + n)%nat, replicate n size ++ live).
Proof.
  intros Hg. revert req live. induction n as [|n IH]; intros req live; simpl; [by rewrite Nat.add_0_r|].
  rewrite Hg, IH. f_equal. f_equal; [lia|].
  change (size :: live) with ([size] ++ live). rewrite app_assoc, <- replicate_cons_app. done.
Qed.

(** The window after [i] turns. *)
Definition window_at (w i : nat) : list bool := replicate (min i w) true ++ replicate (w - min i w) false.

Lemma window_turn w i : (0 < w)%nat -> <[(i mod w)%nat := true]> (window_at w i) = window_at w (S i).
Proof.
  intros Hw. unfold window_at. destruct (decide (i < w)%nat) as [Hlt | Hge].
  - rewrite Nat.mod_small, !Nat.min_l by lia.
    rewrite insert_app_r_alt by (rewrite length_replicate; lia). rewrite length_replicate, Nat.sub_diag.
    replace (w - i)%nat with (S (w - S i)) by lia. cbn [replicate insert list_insert].
    change (true :: ?l) with ([true] ++ l). rewrite app_assoc. by rewrite <- replicate_cons_app.
  - rewrite !Nat.min_r by lia. pose proof (Nat.mod_upper_bound i w ltac:(lia)).
    rewrite insert_app_l by (rewrite length_replicate; lia). by rewrite insert_replicate.
Qed.

Lemma churn_granted n i w req :
  (∀ k, grant k = true) -> (0 < w)%nat ->
  ∃ req', churn n i w req (window_at w i) = Some (req', window_at w (i + n)).
Proof.
  intros Hg Hw. revert i req. induction n as [|n IH]; intros i req; simpl; [rewrite Nat.add_0_r; eauto|].
  destruct w as [|w]; [lia|]. cbn [Nat.eqb]. rewrite Hg, window_turn by done.
  rewrite <- Nat.add_succ_comm. apply IH.
Qed.

Lemma bytes_replicate n x l : bytes (replicate n x ++ l) = Z.of_nat n * x + bytes l.
Proof. induction n as [|n IH]; [done|]. cbn [replicate app bytes foldr] in *. unfold bytes in *. rewrite IH. lia. Qed.

(** When every request is granted the probe ends and reports the live kilobytes as
    if the window had been filled; they are the ones alive exactly if there were as
    many turns as the window has places. *)
Lemma probe_reports a smaps :
  (∀ k, grant k = true) -> 0 < held_count a < 2 ^ 20 -> 0 < churn_window a < 2 ^ 20 ->
  0 <= held_kb a < 2 ^ 20 -> 0 < churn_kb a < 2 ^ 20 -> 0 <= iters a ->
  ∃ live_kb rss anon thp slack live, main a smaps = (Reported live_kb rss anon thp slack, live) ∧
    bytes live = 1024 * (held_count a * held_kb a + Z.min (iters a) (churn_window a) * churn_kb a) ∧
    (live_kb * 1024 = bytes live <-> churn_window a <= iters a) ∧
    (0 <= rss -> slack = rss - live_kb).
Proof.
  intros Hg Hh Hw Hhk Hck Hi. unfold main. rewrite !Hg, hold_granted by done. cbn [negb]. rewrite Hg. cbn [negb].
  destruct (churn_granted (Z.to_nat (iters a)) 0 (Z.to_nat (churn_window a)) (S (1 + Z.to_nat (held_count a))) Hg)
    as (req' & E); [lia|].
  unfold window_at in E at 1. rewrite Nat.min_0_l in E. cbn [replicate app] in E. rewrite Nat.sub_0_r in E.
  rewrite E. rewrite (proj2 (Z.eqb_neq _ _)) by lia.
  do 6 eexists. split; [reflexivity|].
  assert (Ef : ∀ n m : nat, length (filter (λ b : bool, b = true) (replicate n true ++ replicate m false)) = n).
  { intros n m. rewrite filter_app, length_app. induction n as [|n IH]; simpl.
    - induction m as [|m IHm]; [done|]. simpl. exact IHm.
    - f_equal. exact IH. }
  unfold window_at. rewrite Ef, app_nil_r.
  replace (replicate (Z.to_nat (held_count a)) (u64 (held_kb a * 1024)) ++
    replicate (min (0 + Z.to_nat (iters a)) (Z.to_nat (churn_window a))) (u64 (churn_kb a * 1024)))
    with (replicate (Z.to_nat (held_count a)) (u64 (held_kb a * 1024)) ++
    replicate (min (0 + Z.to_nat (iters a)) (Z.to_nat (churn_window a))) (u64 (churn_kb a * 1024)) ++ [])
    by by rewrite app_nil_r.
  rewrite !bytes_replicate. cbn [bytes foldr].
  assert (0 <= held_count a * held_kb a < 2 ^ 40) by (change (2 ^ 40) with (2 ^ 20 * 2 ^ 20); nia).
  assert (0 <= churn_window a * churn_kb a < 2 ^ 40) by (change (2 ^ 40) with (2 ^ 20 * 2 ^ 20); nia).
  rewrite !u64_small by (pow2; lia).
  assert (Em : Z.of_nat (min (0 + Z.to_nat (iters a)) (Z.to_nat (churn_window a))) = Z.min (iters a) (churn_window a)) by lia.
  rewrite Em, Z2Nat.id by lia. split_and!.
  - lia.
  - split; intros H1; [|rewrite Z.min_r by lia; lia].
    destruct (Z.le_gt_cases (churn_window a) (iters a)); [done|]. rewrite Z.min_l in H1 by lia. nia.
  - intros Hr. by rewrite (proj2 (Z.leb_le _ _)).
Qed.

(** An empty window or an empty held set on the command line ends it otherwise. *)
Lemma probe_faults a smaps :
  (∀ k, grant k = true) ->
  (churn_window a = 0 -> 0 < iters a -> (main a smaps).1 = DivByZero) ∧
  (held_count a = 0 -> 0 < churn_window a -> (main a smaps).1 = OutOfBounds).
Proof.
  intros Hg. unfold main. rewrite !Hg, hold_granted by done. cbn [negb]. rewrite Hg. cbn [negb]. split.
  - intros -> Hi. destruct (Z.to_nat (iters a)) eqn:E; [lia|]. done.
  - intros Hh Hw. rewrite Hh.
    destruct (churn_granted (Z.to_nat (iters a)) 0 (Z.to_nat (churn_window a)) (S (1 + Z.to_nat 0)) Hg)
      as (req' & E); [lia|].
    unfold window_at in E at 1. rewrite Nat.min_0_l in E. cbn [replicate app] in E. rewrite Nat.sub_0_r in E.
    rewrite E. done.
Qed.
End Probe.
End Probe.
