(* ===== verification/Interposed.v ===== *)
(** * The interposed functions, one part at a time

    What [Trampoline]'s parts do whatever the heaps behind them: the bootstrap
    buffer, the inline cache in front of the dispatch table, and [malloc]'s
    dispatch as a run of the interleaving model of [Deopt]. *)

From S2P Require Import Prelude Common Trampoline.
From S2P Require Ring Deopt Dispatch TrampolineHeap.

(** ** The bootstrap buffer *)

(** The requests of one process, in order, and the results. *)
Fixpoint bootstrap_run {D W} (g_bootstrap : Z) (sizes : list Z) (s : process D W) : list ptr :=
  match sizes with
  | [] => []
  | n :: sizes =>
      match bootstrap_alloc g_bootstrap n s with
      | Ok (p, s) => p :: bootstrap_run g_bootstrap sizes s
      | Trap _ => []
      end
  end.

Lemma round16 n : 0 <= n -> n + 15 < 2 ^ 64 ->
  let a := Z.land (u64 (n + 15)) (Z.lnot 15) in a mod 16 = 0 ∧ n <= a < n + 16.
Proof.
  intros Hn Hb a. subst a. rewrite u64_small by lia. change 15 with (2 ^ 4 - 1) at 2 4 6.
  rewrite land_lnot_mask by lia. change (2 ^ 4) with 16. pose proof (Z.mod_pos_bound (n + 15) 16 ltac:(lia)).
  rewrite Zminus_mod_idemp_r, Z.sub_diag. split; [done|lia].
Qed.

(** A block below the bump offset [u]. *)
Definition bootstrap_block (g_bootstrap u : Z) (p n : Z) : Prop :=
  p = 0 ∨ (p mod 16 = 0 ∧ g_bootstrap + u <= p ∧ p + n <= g_bootstrap + BOOTSTRAP_SIZE).

Lemma bootstrap_run_spec {D W} g_bootstrap sizes (s : process D W) :
  g_bootstrap mod 16 = 0 -> 0 < g_bootstrap -> Forall (λ n, 0 <= n < 2 ^ 32) sizes ->
  0 <= g_bootstrap_used s -> g_bootstrap_used s mod 16 = 0 ->
  g_bootstrap_used s + Z.of_nat (length sizes) * (2 ^ 32 + 16) < 2 ^ 64 ->
  Forall2 (bootstrap_block g_bootstrap (g_bootstrap_used s)) (bootstrap_run g_bootstrap sizes s) sizes ∧
  ∀ i j p q n, (i < j)%nat -> bootstrap_run g_bootstrap sizes s !! i = Some p -> sizes !! i = Some n ->
    bootstrap_run g_bootstrap sizes s !! j = Some q -> p = 0 ∨ q = 0 ∨ p + n <= q.
Proof.
  intros Hg Hg0. revert s. induction sizes as [|n sizes IH]; intros s HF Hu Hu16 Hfit; [by split|].
  apply Forall_cons in HF as [Hn HF]. destruct (round16 n) as [Ha16 Ha]; [lia|pow2; lia|].
  cbn [bootstrap_run]. unfold bootstrap_alloc. cbv zeta in Ha16, Ha. set (a := Z.land _ _) in *.
  cbn [length] in Hfit. rewrite (u64_small (g_bootstrap_used s + a)) by (pow2; lia).
  set (s1 := set_used _ s). assert (E1 : g_bootstrap_used s1 = g_bootstrap_used s + a) by done.
  set (p0 := if _ >? _ then _ else _).
  assert (Hp0 : p0 = 0 ∨ p0 = g_bootstrap + g_bootstrap_used s ∧ g_bootstrap_used s + a <= BOOTSTRAP_SIZE).
  { subst p0. rewrite Z.gtb_ltb. destruct (Z.ltb_spec BOOTSTRAP_SIZE (g_bootstrap_used s + a)); auto. }
  clearbody p0. destruct (IH s1) as [IHb IHd]; [done|lia| |rewrite E1; pow2; lia|].
  { by rewrite E1, Zplus_mod, Hu16, Ha16. }
  split.
  - constructor.
    + destruct Hp0 as [->|[-> Hle]]; [by left|right]. split_and!; [|lia|lia].
      by rewrite Zplus_mod, Hg, Hu16.
    + eapply Forall2_impl; [exact IHb|]. intros p m [->|(? & ? & ?)]; [by left|right]. split_and!; [done|lia|done].
  - intros i j p q m Hij Hp Hm Hq. destruct j as [|j]; [lia|]. cbn in Hq.
    destruct i as [|i]; [|by eapply (IHd i j); [lia|..]].
    injection Hp as <-. injection Hm as <-. destruct Hp0 as [->|[-> _]]; [by left|right].
    pose proof (Forall2_lookup_l _ _ _ _ _ IHb Hq) as (m & _ & [->|(_ & Hlo & _)]); [by left|right].
    rewrite E1 in Hlo. lia.
Qed.

(** The bootstrap buffer.  Whatever a process requests from it (fewer than
    2^31 requests, each below 4 GiB), the non-null results are 16-aligned, lie in
    the buffer with all the bytes requested, and are pairwise disjoint. *)
Theorem bootstrap_blocks {D W : Type} (g_bootstrap : Z) (s : process D W) (sizes : list Z) :
  g_bootstrap mod 16 = 0 -> 0 < g_bootstrap -> g_bootstrap_used s = 0 ->
  Forall (λ n, 0 <= n < 2 ^ 32) sizes -> Z.of_nat (length sizes) < 2 ^ 31 ->
  let ps := bootstrap_run g_bootstrap sizes s in
  Forall2 (λ p n, p = 0 ∨ p mod 16 = 0 ∧ g_bootstrap <= p ∧ p + n <= g_bootstrap + BOOTSTRAP_SIZE ∧
    (0 < n -> is_bootstrap g_bootstrap p = true)) ps sizes ∧
  ∀ i j p q n, (i < j)%nat -> ps !! i = Some p -> sizes !! i = Some n -> ps !! j = Some q ->
    p = 0 ∨ q = 0 ∨ p + n <= q.
Proof.
  intros Hg Hg0 Hu HF Hlen ps.
  destruct (bootstrap_run_spec g_bootstrap sizes s) as [Hb Hd]; [done|done|done|lia|by rewrite Hu|pow2; lia|].
  split; [|exact Hd]. eapply Forall2_impl; [exact Hb|]. intros p n [->|(? & ? & ?)]; [by left|right].
  split_and!; [done|lia|lia|]. intros Hn. apply andb_true_iff. split; [apply Z.leb_le|apply Z.ltb_lt]; lia.
Qed.

Lemma bootstrap_blocks_witness :
  let ps := bootstrap_run 65536 [100; 65000; 424; 8] (process0 (D := Dispatch.state) (H := Deopt.dispatch_table) tt) in
  ps = [65536; 65648; 0; 0] ∧ Forall2 (λ p n, p = 0 ∨ p mod 16 = 0 ∧ 65536 <= p ∧ p + n <= 65536 + BOOTSTRAP_SIZE ∧
    (0 < n -> is_bootstrap 65536 p = true)) ps [100; 65000; 424; 8].
Proof.
  split; [reflexivity|].
  refine (proj1 (bootstrap_blocks 65536 (process0 (D := Dispatch.state) (H := Deopt.dispatch_table) tt)
    [100; 65000; 424; 8] _ _ _ _ _)); [reflexivity|lia|reflexivity| |simpl; lia].
  repeat constructor; pow2; lia.
Defined.

(** The buffer's overflow test is defeated by a request near 2^64: it is
    served, and the next request gets the first block again. *)
Example bootstrap_request_wraps :
  bootstrap_run 65536 [16; 2 ^ 64 - 31; 16] (process0 (D := Dispatch.state) (H := Deopt.dispatch_table) tt)
    = [65536; 65552; 65536].
Proof. vm_compute. reflexivity. Qed.

(** ** The inline cache *)

Section Cache.
Context {D : Type} `{Deopt.RoutineTableLaws D}.
Import Deopt.

(** A thread's cache: an old generation, or what the table holds. *)
Record fresh_thread (d : D) (th : thread) : Prop := {
  fr_gen : tl_ic_gen th <= rt_generation d;
  fr_fn : tl_ic_gen th = rt_generation d -> tl_ic_id th ≠ 0 -> tl_ic_fn th = rt_lookup (tl_ic_id th) d;
  fr_entered id : doing th = Entered id -> id ≠ 0;
  fr_reading id g : doing th = Dispatching id g -> id ≠ 0 ∧ g <= rt_generation d;
}.

Record fresh (n : nat) (s : state D) : Prop := {
  fr_ok : rt_ok (table s);
  fr_bound : 1 <= rt_generation (table s) <= Z.of_nat n + 1;
  fr_thread t : fresh_thread (table s) (thr t s);
}.

Lemma fresh_mono n s : fresh n s -> fresh (S n) s.
Proof. intros []. split; [done|lia|done]. Qed.

Lemma fresh_ext n s s' : table s' = table s -> threads s' = threads s -> fresh n s -> fresh n s'.
Proof. intros Et Eth [Hok Hb Hf]. split; rewrite ?Et; [done..|]. intros t. unfold thr. rewrite Eth. apply Hf. Qed.

Lemma fresh_set_thr n s t th : fresh n s -> fresh_thread (table s) th -> fresh n (set_thr t th s).
Proof.
  intros [Hok Hb Hf] Hth. split; [done..|]. intros t'. rewrite thr_set_thr. case_decide; [done|apply Hf].
Qed.

Lemma fresh_set_doing n s t a :
  fresh n s -> (∀ id, a = Entered id -> id ≠ 0) ->
  (∀ id g, a = Dispatching id g -> id ≠ 0 ∧ g <= rt_generation (table s)) -> fresh n (set_doing t a s).
Proof. intros Hf He Hd. apply fresh_set_thr; [done|]. destruct (fr_thread _ _ Hf t). by split. Qed.

(** The table changes under a new generation. *)
Lemma fresh_bump n s s' :
  fresh n s -> threads s' = threads s -> rt_ok (table s') ->
  rt_generation (table s') = rt_generation (table s) + 1 -> fresh (S n) s'.
Proof.
  intros [Hok Hb Hf] Eth Hok' Hg. split; [done|lia|]. intros t.
  assert (E : thr t s' = thr t s) by (unfold thr; by rewrite Eth). rewrite E. destruct (Hf t). split; [lia|intros; lia|done|]. intros id g Hd. destruct (fr_reading0 id g Hd). split; [done|lia].
Qed.

Lemma fresh_revert n s id : fresh n s -> Z.of_nat (S n) < 2 ^ 63 -> id ≠ 0 -> fresh (S n) (handle_revert id s).
Proof.
  intros Hf Hn Hid. destruct (revert_law (table s) id (fr_ok _ _ Hf) Hid) as (Hok & Hg & _).
  pose proof (fr_bound _ _ Hf). destruct Hg as [Hg|[E _]].
  - eapply fresh_bump; [done..|]. cbn. rewrite Hg. apply u64_small. pow2. lia.
  - apply fresh_mono, (fresh_ext n s); [exact E|done|done].
Qed.

Lemma fresh_init : fresh 0 init.
Proof.
  destruct (empty_law (D := D)) as (Hok & Hg & _). split; [exact Hok|cbn; rewrite Hg; lia|].
  intros t. unfold thr. cbn. rewrite lookup_empty. split; cbn; rewrite ?Hg; try done; intros; lia.
Qed.

(** A page's code holds the id of a site. *)
Definition sites_baked (s : state D) : Prop := ∀ P id, baked s !! P = Some id -> id ≠ 0.

Lemma sites_baked_step reuse s s' : sites_baked s -> step reuse s s' -> sites_baked s'.
Proof.
  intros Hi [a Ha]. assert (Hsame : baked s' = baked s -> sites_baked s') by (intros E P id; rewrite E; apply Hi).
  destruct a; simpl in Ha; try (repeat case_match; simplify_eq; by apply Hsame).
  - repeat case_match; simplify_eq. apply Hsame. simpl. unfold handle_enqueue. by case_match.
  - destruct (_ || _ || _ || _)%bool eqn:Eg; [done|]. zb. destruct (rt_install _ _ _); simplify_eq.
    intros P i. cbn. intros [[<- <-]|[_ HP]]%lookup_insert_Some; [done|by eapply Hi].
  - unfold drain_one in Ha. destruct (g_deopt_queue s); simplify_eq. by apply Hsame.
Qed.

Lemma sites_baked_reachable reuse n s : nsteps (step reuse) n init s -> sites_baked s.
Proof.
  revert s. induction n as [|n IH]; intros s Hs.
  - inversion Hs; subst. intros P id. cbn. by rewrite lookup_empty.
  - apply nsteps_inv_r in Hs as (s0 & Hs0 & Hstep). eapply sites_baked_step; [by apply IH|exact Hstep].
Qed.

Lemma fresh_step reuse n s s' :
  Z.of_nat (S n) < 2 ^ 63 -> sites_baked s -> fresh n s -> step reuse s s' -> fresh (S n) s'.
Proof.
  intros Hn Hi Hf [a Ha]. destruct a as [t id|t|t|t|t reason|t|id page| |]; simpl in Ha.
  - destruct (doing (thr t s)) eqn:Ed; try done. destruct (Z.eqb_spec id 0); simplify_eq.
    apply fresh_mono. assert (Hf' : fresh n (set_thr t (mkThread (u32 (tl_safe_point_counter (thr t s) + 1))
      (tl_ic_id (thr t s)) (tl_ic_fn (thr t s)) (tl_ic_gen (thr t s)) (Entered id)) s)).
    { apply fresh_set_thr; [done|]. destruct (fr_thread _ _ Hf t). split; try done. by intros ? [= <-]. }
    case_match; [by eapply fresh_ext; [..|exact Hf']|done].
  - destruct (doing (thr t s)) as [|id| | |] eqn:Ed; simplify_eq. apply fresh_mono, fresh_set_doing; [done..|].
    intros i g [= <- <-]. split; [|done]. by apply (fr_entered _ _ (fr_thread _ _ Hf t)).
  - destruct (doing (thr t s)) as [| |id g| |] eqn:Ed; try done.
    destruct (fr_reading _ _ (fr_thread _ _ Hf t) id g Ed) as [Hid Hg].
    assert (Hno : ∀ fn : ptr, (∀ i, (if fn =? 0 then Idle else Running fn) = Entered i -> i ≠ 0) ∧
      ∀ i j, (if fn =? 0 then Idle else Running fn) = Dispatching i j -> i ≠ 0 ∧ j <= rt_generation (table s)).
    { intros fn. by destruct (fn =? 0). }
    apply fresh_mono. destruct (_ && _)%bool; simplify_eq.
    + destruct (Hno (tl_ic_fn (thr t s))). apply fresh_set_doing; [|done..].
      apply fresh_set_thr; [done|apply Hf].
    + destruct (Hno (rt_lookup id (table s))). apply fresh_set_doing; [|done..].
      apply fresh_set_thr; [done|]. destruct (fr_thread _ _ Hf t). split; cbn; auto; by intros ? ? [= <- <-].
  - destruct (doing (thr t s)) eqn:Ed; simplify_eq. by apply fresh_mono, fresh_set_doing.
  - destruct (doing (thr t s)) as [| | |P|] eqn:Ed; try done.
    destruct (baked s !! P) as [id|] eqn:Hb; simplify_eq.
    apply fresh_set_doing; [|done..]. apply fresh_revert; [done|done|by apply (Hi P)].
  - destruct (doing (thr t s)) as [| | | |P r] eqn:Ed; try done.
    destruct (baked s !! P) as [id|] eqn:Hb; simplify_eq.
    apply fresh_mono, fresh_set_doing; [|done..].
    apply (fresh_ext n s); [unfold handle_enqueue; by case_match..|done].
  - destruct (_ || _ || _ || _)%bool eqn:Eg; [done|]. zb.
    destruct (rt_install id page (table s)) as [d|] eqn:Er; simplify_eq.
    destruct (install_law (table s) d id page (fr_ok _ _ Hf) ltac:(done) Er) as (Hok & Hg & _).
    pose proof (fr_bound _ _ Hf). eapply fresh_bump; [done..|].
    cbn. rewrite Hg. apply u64_small. pow2. lia.
  - unfold drain_one in Ha. destruct (g_deopt_queue s); simplify_eq. by apply fresh_mono, (fresh_ext n s).
  - simplify_eq. by apply fresh_mono, (fresh_ext n s).
Qed.

Lemma fresh_reachable reuse n s : Z.of_nat n < 2 ^ 63 -> nsteps (step reuse) n init s -> fresh n s.
Proof.
  revert s. induction n as [|n IH]; intros s Hn Hs.
  - inversion Hs; subst. apply fresh_init.
  - apply nsteps_inv_r in Hs as (s0 & Hs0 & Hstep). eapply fresh_step; [done| | |exact Hstep].
    + by eapply sites_baked_reachable.
    + apply IH; [lia|done].
Qed.

(** The inline cache is transparent.  Whatever the threads and the background
    thread have done, in any interleaving, a [malloc] that dispatches now gets
    from the cache the very routine the table holds for its site. *)
Theorem inline_cache_transparent (reuse : bool) (n : nat) (s : state D) (t : Z) (id : CallSiteID) :
  Z.of_nat n < 2 ^ 63 -> nsteps (step reuse) n init s -> id ≠ 0 ->
  (cached_lookup t id s).1 = rt_lookup id (table s).
Proof.
  intros Hn Hs Hid. destruct (fr_thread _ _ (fresh_reachable reuse n s Hn Hs) t) as [_ Hfn _ _].
  unfold cached_lookup. destruct (_ && _)%bool eqn:Eh; [|done]. zb. subst id. cbn. by apply Hfn.
Qed.
End Cache.

#[local] Existing Instance Deopt.dispatch_table.
#[local] Existing Instance Deopt.dispatch_table_laws.

(** A thread caches the routine of site 1; another site is compiled, so that the
    cache is out of date; the routine of site 1 is then reverted. *)
Definition cached_then_reverted : list Deopt.action :=
  [Deopt.Install 1 4096] ++ Deopt.enter 5 1 ++ [Deopt.Finish 5; Deopt.Install 2 8192] ++
  Deopt.enter 6 1 ++ Deopt.deopt 6.

Lemma inline_cache_transparent_witness :
  ∃ s, Deopt.outcome true cached_then_reverted = Some s ∧
    Deopt.tl_ic_fn (Deopt.thr 5 s) = 4096 ∧ (cached_lookup 5 1 s).1 = 0.
Proof.
  destruct (Deopt.outcome true cached_then_reverted) as [s|] eqn:E; [|by vm_compute in E].
  exists s. split; [done|].
  split; [eapply (Deopt.outcome_eval (λ s, Deopt.tl_ic_fn (Deopt.thr 5 s))); [exact E|vm_compute; reflexivity]|].
  rewrite (inline_cache_transparent true (length cached_then_reverted) s 5 1 ltac:(vm_compute; reflexivity)
             (Deopt.outcome_nsteps _ _ _ E) ltac:(discriminate)).
  eapply (Deopt.outcome_eval (λ s, Deopt.rt_lookup 1 (Deopt.table s))); [exact E|vm_compute; reflexivity].
Defined.

(** ** [malloc] and the interleaving model *)

Section Refinement.
Context {D W : Type} `{Deopt.RoutineTable D} `{!Heaps W}.
Context (g_bootstrap : Z) (dlsym : symbol -> list Z * bool).
Import Deopt.

Lemma thr_sampled t (d : state D) : threads (sample_safe_point t d) !! t = Some (thr t (sample_safe_point t d)).
Proof.
  unfold sample_safe_point, thr. case_match; cbn [threads mark_safe_point set_thr]; by rewrite lookup_insert_eq.
Qed.

Lemma doing_sampled t (d : state D) : doing (thr t (sample_safe_point t d)) = doing (thr t d).
Proof. unfold sample_safe_point, thr. case_match; cbn [threads mark_safe_point set_thr]; by rewrite lookup_insert_eq. Qed.

Lemma set_doing_set_doing t a b (d : state D) : set_doing t b (set_doing t a d) = set_doing t b d.
Proof. unfold set_doing at 2. rewrite set_doing_set_thr. unfold set_doing. done. Qed.

Lemma set_doing_id t (d : state D) : threads d !! t = Some (thr t d) -> set_doing t (doing (thr t d)) d = d.
Proof.
  intros E. unfold set_doing, set_thr. assert (Eth : mkThread (tl_safe_point_counter (thr t d)) (tl_ic_id (thr t d))
    (tl_ic_fn (thr t d)) (tl_ic_gen (thr t d)) (doing (thr t d)) = thr t d) by (by destruct (thr t d)).
  rewrite Eth, insert_id by done. by destruct d.
Qed.

Lemma enter_action reuse t id (d : state D) : doing (thr t d) = Idle -> id ≠ 0 ->
  act reuse (Enter t id) d = Some (set_doing t (Entered id) (sample_safe_point t d)).
Proof.
  intros Ed Hid. simpl. rewrite Ed, (proj2 (Z.eqb_neq _ _)) by done. unfold sample_safe_point.
  set (c := u32 _). destruct (Z.land c 31 =? 0); unfold set_doing, set_thr, thr;
    cbn [threads mark_safe_point table g_epoch g_deopt_queue g_pending epochs mapped baked resets];
    rewrite lookup_insert_eq; cbn; by rewrite insert_insert_eq.
Qed.

Lemma thr_set_doing t a (d : state D) : thr t (set_doing t a d) = with_doing a (thr t d).
Proof. unfold set_doing. by rewrite thr_set_thr, decide_True. Qed.

Lemma read_action reuse t id (d : state D) :
  act reuse (ReadGeneration t) (set_doing t (Entered id) d) =
  Some (set_doing t (Dispatching id (rt_generation (table d))) d).
Proof. simpl. rewrite thr_set_doing. cbn [doing with_doing]. by rewrite set_doing_set_doing. Qed.

Lemma set_thr_set_doing t a th (d : state D) : set_thr t th (set_doing t a d) = set_thr t th d.
Proof. unfold set_doing, set_thr. cbn. by rewrite insert_insert_eq. Qed.

Lemma lookup_action reuse t id (d : state D) : 
  act reuse (Lookup t) (set_doing t (Dispatching id (rt_generation (table d))) d) =
  let '(fn, d') := cached_lookup t id d in
  Some (set_doing t (if fn =? 0 then Idle else Running fn) d').
Proof.
  simpl. rewrite thr_set_doing. cbn [doing with_doing]. unfold cached_lookup. cbn [tl_ic_id tl_ic_gen tl_ic_fn].
  destruct (_ && _)%bool; f_equal; rewrite !set_doing_set_thr; apply set_thr_set_doing.
Qed.

Lemma sampled_lookup t id (d : state D) : doing (thr t d) = Idle ->
  let '(_, d2) := cached_lookup t id (sample_safe_point t d) in
  doing (thr t d2) = Idle ∧ threads d2 !! t = Some (thr t d2) ∧ baked d2 = baked d.
Proof.
  intros Ed. unfold cached_lookup. set (d1 := sample_safe_point t d).
  assert (Hb : baked d1 = baked d) by (subst d1; unfold sample_safe_point; by case_match).
  assert (Hd : doing (thr t d1) = Idle) by (subst d1; by rewrite doing_sampled).
  assert (Ht : threads d1 !! t = Some (thr t d1)) by apply thr_sampled.
  destruct (_ && _)%bool; [done|]. rewrite thr_set_thr, decide_True by done. cbn [doing].
  split_and!; [done| |done]. cbn. by rewrite lookup_insert_eq.
Qed.

Lemma handle_set_doing t a id page r (d : state D) :
  handle_revert id (set_doing t a d) = set_doing t a (handle_revert id d) ∧
  handle_enqueue id page r (set_doing t a d) = set_doing t a (handle_enqueue id page r d).
Proof. split; [done|]. unfold handle_enqueue. cbn [g_deopt_queue set_doing set_thr]. by case_match. Qed.

Lemma real_malloc_deopt n (s s' : process D W) p : call_real_malloc n s = Ok (p, s') -> Trampoline.deopt s' = Trampoline.deopt s.
Proof.
  unfold call_real_malloc, call. destruct (g_real_malloc s); [|done]. cbn.
  destruct (real_malloc n (world s)). by intros [= _ <-].
Qed.

Lemma M_bind_Ok {A B} (m : M D W A) (f : A -> M D W B) s b s' :
  (m ≫= f) s = Ok (b, s') -> ∃ a s1, m s = Ok (a, s1) ∧ f a s1 = Ok (b, s').
Proof. unfold mbind, M_bind. intros E. apply bind_Ok in E as ([a s1] & E1 & E2). eauto. Qed.

(** How a routine's call changes the deopt state. *)
Lemma routine_deopt t fn n (s s' : process D W) p : call_routine t fn n s = Ok (p, s') ->
  Trampoline.deopt s' = Trampoline.deopt s ∨
  ∃ id page r w', run_routine t fn n (world s) = Ok (Deopts id page r, w') ∧
    Trampoline.deopt s' = handle true id page r (Trampoline.deopt s).
Proof.
  unfold call_routine, call, mbind, M_bind. intros E. cbn [mbind res_bind] in E.
  destruct (run_routine t fn n (world s)) as [[r w]|] eqn:Er; [|done]. cbn [mbind res_bind] in E.
  destruct r as [q| |id page r].
  - left. by injection E as _ <-.
  - left. by apply real_malloc_deopt in E.
  - right. exists id, page, r, w. split; [done|]. cbn in E. by apply real_malloc_deopt in E.
Qed.

(** The call's effect on the deopt state, after the lookup. *)
Lemma instrumented_deopt c n (s s' : process D W) p fn d2 :
  cached_lookup (c_tid c) (hash_return_addr (c_ra c)) (sample_safe_point (c_tid c) (Trampoline.deopt s)) = (fn, d2) ->
  instrumented_malloc c n s = Ok (p, s') ->
  Trampoline.deopt s' = d2 ∨
  (fn ≠ 0 ∧ ∃ w id page r w', run_routine (c_tid c) fn n w = Ok (Deopts id page r, w') ∧
    Trampoline.deopt s' = handle true id page r d2).
Proof.
  intros El E. unfold instrumented_malloc in E. apply M_bind_Ok in E as (? & s1 & [= <- <-] & E).
  apply M_bind_Ok in E as (fn' & s2 & E2 & E). unfold find_routine in E2. cbn [Trampoline.deopt set_deopt] in E2.
  rewrite El in E2. injection E2 as <- <-. destruct (Z.eqb_spec fn 0) as [->|Hfn]; cbn [negb] in E.
  - apply M_bind_Ok in E as (? & s3 & [= <- <-] & E). apply M_bind_Ok in E as (q & s4 & E4 & E).
    apply M_bind_Ok in E as (? & s5 & [= <- <-] & E). injection E as <- <-.
    apply real_malloc_deopt in E4. left. exact E4.
  - apply M_bind_Ok in E as (? & s3 & [= <- <-] & E). apply routine_deopt in E as [E|(id & page & r & w' & Er & E)].
    + left. exact E.
    + right. split; [done|]. eauto 10.
Qed.

(** C27: [malloc]'s dispatch is a run of the interleaving model.  A running,
    unguarded [malloc] changes the dispatch table, the safe points, the inline
    caches and the deopt queue exactly as the model's thread does: it enters,
    reads the generation, looks the routine up, and returns from the routine, if
    there is one, with or without a guard failure on the way.  (The routine reports
    the page and the site baked into it.) *)
Theorem malloc_refines_actions (reuse : bool) (c : caller) (n : Z) (s s' : process D W) (p : ptr) :
  let t := c_tid c in let id := hash_return_addr (c_ra c) in let d := Trampoline.deopt s in
  g_initialized s = true -> g_shutting_down s = false -> reentrancy_guard t s = false ->
  id ≠ 0 -> doing (thr t d) = Idle ->
  (let fn := (cached_lookup t id (sample_safe_point t d)).1 in
   ∀ w id' page r w', run_routine t fn n w = Ok (Deopts id' page r, w') ->
     page = fn ∧ baked d !! fn = Some id') ->
  malloc g_bootstrap dlsym c n s = Ok (p, s') ->
  ∃ rest, run_actions reuse ([Enter t id; ReadGeneration t; Lookup t] ++ rest) d = Some (Trampoline.deopt s') ∧
    (rest = [] ∨ rest = [Finish t] ∨ ∃ r, rest = [GuardFails t r; Enqueue t; Finish t]).
Proof.
  intros t id d Hi Hd Hg Hid Hidle Hbaked E.
  pose proof (sampled_lookup t id d Hidle) as Hs.
  assert (Hthree : run_actions reuse [Enter t id; ReadGeneration t; Lookup t] d =
    let '(fn, d') := cached_lookup t id (sample_safe_point t d) in
    Some (set_doing t (if fn =? 0 then Idle else Running fn) d')).
  { cbn [run_actions]. rewrite enter_action by done. cbn [mbind option_bind].
    rewrite read_action. cbn [mbind option_bind]. rewrite lookup_action. by destruct (cached_lookup _ _ _). }
  destruct (cached_lookup t id (sample_safe_point t d)) as [fn d2] eqn:El.
  cbn [fst] in Hbaked. destruct Hs as (Hidle2 & Ht2 & Hb2).
  assert (Hback : ∀ a, set_doing t Idle (set_doing t a d2) = d2).
  { intros a. rewrite set_doing_set_doing, <- Hidle2. by apply set_doing_id. }
  unfold malloc in E. cbv zeta in E. fold t in E. rewrite Hi, Hd, Hg in E. cbn [negb] in E.
  apply M_bind_Ok in E as (? & s1 & [= <- <-] & E). apply M_bind_Ok in E as (q & s2 & E2 & E).
  apply M_bind_Ok in E as (? & s3 & [= <- <-] & E). injection E as <- <-. cbn [Trampoline.deopt set_guard].
  destruct (instrumented_deopt c n (set_guard t true s) s2 q fn d2 El E2) as [->|(Hfn & w & id' & page & r & w' & Er & ->)].
  - destruct (Z.eqb_spec fn 0) as [->|Hfn].
    + exists []. rewrite app_nil_r, Hthree. split; [|by left]. by rewrite <- Hidle2, set_doing_id.
    + exists [Finish t]. rewrite run_actions_app, Hthree. split; [|by right; left].
      simpl. rewrite thr_set_doing. cbn [doing with_doing mbind option_bind]. by rewrite Hback.
  - destruct (Hbaked _ _ _ _ _ Er) as [-> Hb]. exists [GuardFails t r; Enqueue t; Finish t].
    rewrite run_actions_app, Hthree, (proj2 (Z.eqb_neq _ _)) by done. split; [|by right; right; exists r].
    rewrite <- Hb2 in Hb. simpl. rewrite thr_set_doing. cbn [doing with_doing]. rewrite Hb. simpl.
    rewrite thr_set_doing. cbn [doing with_doing]. rewrite Hb. simpl.
    rewrite thr_set_doing. cbn [doing with_doing]. simpl. f_equal.
    destruct (handle_set_doing t (Running fn) id' fn r d2) as [-> _].
    rewrite !set_doing_set_doing. destruct (handle_set_doing t (Handling fn r) id' fn r (handle_revert id' d2)) as [_ ->].
    rewrite !set_doing_set_doing.
    assert (Hsame : set_doing t Idle (handle_enqueue id' fn r (handle_revert id' d2)) =
      handle_enqueue id' fn r (handle_revert id' (set_doing t Idle d2))).
    { destruct (handle_set_doing t Idle id' fn r d2) as [-> _].
      by destruct (handle_set_doing t Idle id' fn r (handle_revert id' d2)) as [_ ->]. }
    rewrite Hsame. by rewrite <- Hidle2, set_doing_id.
Qed.
End Refinement.

(** ** The bytes [realloc] copies *)

Section Copies.
Context {D W : Type} `{Deopt.RoutineTable D} `{!Heaps W}.
Context (g_bootstrap : Z) (dlsym : symbol -> list Z * bool) (realloc_ra : Z).
Abbreviation comp := (M D W).

(** A computation that copies nothing. *)
Definition keeps {A} (m : comp A) : Prop := ∀ s a s', m s = Ok (a, s') -> copies s' = copies s.

Lemma keeps_bind {A B} (m : comp A) (f : A -> comp B) : keeps m -> (∀ a, keeps (f a)) -> keeps (m ≫= f).
Proof.
  intros Hm Hf s b s' E. apply M_bind_Ok in E as (a & s1 & E1 & E2).
  rewrite (Hf _ _ _ _ E2). by apply Hm in E1.
Qed.
Lemma keeps_ret {A} (a : A) : keeps (mret a : comp A).
Proof. by intros s b s' [= _ <-]. Qed.
Lemma keeps_modify f : (∀ s, copies (f s) = copies s) -> keeps (modify f : comp unit).
Proof. intros Hf s [] s' [= <-]. apply Hf. Qed.
Lemma keeps_call {A} (f : W -> res (A * W)) : keeps (call f : comp A).
Proof. intros s a s' E. unfold call in E. apply bind_Ok in E as ([b w] & _ & E). by injection E as _ <-. Qed.
Lemma keeps_call_ (f : W -> res W) : keeps (call_ f : comp unit).
Proof. intros s a s' E. unfold call_ in E. apply bind_Ok in E as (w & _ & E). by injection E as _ <-. Qed.
Lemma keeps_if {A} (b : process D W -> bool) (m m' : comp A) :
  keeps m -> keeps m' -> keeps (λ s, if b s then m s else m' s).
Proof. intros Hm Hm' s a s' E. destruct (b s); [by apply Hm in E|by apply Hm' in E]. Qed.
Lemma keeps_trap {A} (t : trap) : keeps ((λ _, Trap t) : comp A).
Proof. done. Qed.
Lemma keeps_ok {A} (a : A) : keeps ((λ s, Ok (a, s)) : comp A).
Proof. by intros s b s' [= _ <-]. Qed.

Lemma keeps_real_malloc n : keeps (call_real_malloc n : comp ptr).
Proof. apply (keeps_if g_real_malloc (call _) (λ _, Trap NullDeref)); [apply keeps_call|apply keeps_trap]. Qed.
Lemma keeps_real_free p : keeps (call_real_free p : comp unit).
Proof. apply (keeps_if g_real_free (call_ _) (λ _, Trap NullDeref)); [apply keeps_call_|apply keeps_trap]. Qed.

Lemma keeps_instrumented c n : keeps (instrumented_malloc c n : comp ptr).
Proof.
  unfold instrumented_malloc. apply keeps_bind; [by apply keeps_modify|intros _].
  apply keeps_bind.
  { intros s a s' E. unfold find_routine in E. destruct (cached_lookup _ _ _). by injection E as _ <-. }
  intros fn. case_match; repeat (apply keeps_bind; [|intros ?]);
    auto using keeps_ret, keeps_call, keeps_real_malloc; try by apply keeps_modify.
  case_match; try apply keeps_ret; try apply keeps_real_malloc.
  apply keeps_bind; [by apply keeps_modify|intros _; apply keeps_real_malloc].
Qed.

Lemma keeps_early x t n :
  keeps (resolve_if_missing g_bootstrap dlsym x t : comp unit) ∧ keeps (serve_early g_bootstrap n : comp ptr).
Proof.
  assert (Hserve : ∀ n, keeps (serve_early g_bootstrap n : comp ptr)).
  { intros m. apply (keeps_if g_real_malloc (call_real_malloc m) (bootstrap_alloc g_bootstrap m)).
    - apply keeps_real_malloc.
    - by intros s a s' [= _ <-]. }
  split; [|apply Hserve].
  assert (Hnested : ∀ l, keeps (nested g_bootstrap l : comp unit)).
  { induction l as [|m l IH]; [apply keeps_ret|]. apply keeps_bind; [apply Hserve|intros _; exact IH]. }
  assert (Hone : ∀ y, keeps (resolve_one g_bootstrap dlsym y : comp unit)).
  { intros y. apply (keeps_if (has_symbol y) (λ s, Ok (tt, s)) (nested g_bootstrap _ ≫= _)); [apply keeps_ok|].
    apply keeps_bind; [apply Hnested|intros _]. apply keeps_modify. by destruct y. }
  apply (keeps_if (has_symbol x) (λ s, Ok (tt, s)) (resolve_real_allocators g_bootstrap dlsym t)); [apply keeps_ok|].
  apply (keeps_if (reentrancy_guard t) (λ s, Ok (tt, s)) (modify _ ≫= _)); [apply keeps_ok|].
  repeat (apply keeps_bind; [first [apply Hone|by apply keeps_modify]|intros _]). by apply keeps_modify.
Qed.

Lemma keeps_malloc c n : keeps (malloc g_bootstrap dlsym c n : comp ptr).
Proof.
  destruct (keeps_early SymMalloc (c_tid c) n) as [Hr Hs]. intros s q s' E. unfold malloc in E. cbv zeta in E.
  destruct (negb (g_initialized s)).
  { revert E. apply keeps_bind; [exact Hr|intros _; exact Hs]. }
  destruct (g_shutting_down s); [by apply keeps_real_malloc in E|].
  destruct (reentrancy_guard (c_tid c) s); [by apply keeps_real_malloc in E|].
  revert E. apply keeps_bind; [by apply keeps_modify|intros _].
  apply keeps_bind; [apply keeps_instrumented|intros q'].
  apply keeps_bind; [by apply keeps_modify|intros _; apply keeps_ret].
Qed.

Lemma keeps_free c p : keeps (Trampoline.free g_bootstrap dlsym c p : comp unit).
Proof.
  destruct (keeps_early SymFree (c_tid c) 0) as [Hr _].
  assert (Hf : keeps (free_if_resolved p : comp unit)).
  { apply (keeps_if g_real_free (call_real_free p) (λ s, Ok (tt, s))); [apply keeps_real_free|apply keeps_ok]. }
  intros s a s' E. unfold Trampoline.free in E. cbv zeta in E.
  destruct (is_bootstrap _ _); [by injection E as _ <-|].
  destruct (negb (g_initialized s)).
  { revert E. apply keeps_bind; [exact Hr|intros _; exact Hf]. }
  destruct (g_shutting_down s).
  { destruct (_ && _)%bool; [by injection E as _ <-|by apply keeps_real_free in E]. }
  destruct (_ || _)%bool; [by apply Hf in E|].
  revert E. repeat (apply keeps_bind; [first [by apply keeps_modify|idtac]|intros _]); [|by apply keeps_modify].
  destruct (p =? 0); [apply keeps_ret|].
  apply (keeps_if (λ s, managed p (world s)) (call_ _) (call_real_free p)); [apply keeps_call_|apply keeps_real_free].
Qed.

(** The bytes [realloc] copies.  In a running process, moving a block of the
    segment heap copies, when the new block exists, exactly the smaller of the
    requested size and the old block's capacity, from the old block to the new,
    and nothing else; the capacity of a fixed-size block is its chunk's. *)
Theorem realloc_copies_block (c : caller) (p n q : Z) (s s' : process D W) :
  g_initialized s = true -> g_shutting_down s = false -> reentrancy_guard (c_tid c) s = false ->
  is_bootstrap g_bootstrap p = false -> p ≠ 0 -> managed p (world s) = true -> 0 < n ->
  realloc g_bootstrap dlsym realloc_ra c p n s = Ok (q, s') ->
  copies s' = (if q =? 0 then [] else [(q, p, Z.min n (capacity p (world s)))]) ++ copies s ∧
  (0 < chunk_size_of p (world s) -> capacity p (world s) = chunk_size_of p (world s)).
Proof.
  intros Hi Hd Hg Hb Hp Hm Hn E. split.
  2:{ intros Hc. unfold capacity. by rewrite Z.gtb_ltb, (proj2 (Z.ltb_lt _ _)). }
  unfold realloc in E. cbv zeta in E. rewrite Hb, Hi, Hd, Hg, (proj2 (Z.eqb_neq p 0)), Hm, (proj2 (Z.eqb_neq n 0)) in E
    by lia. cbn [negb] in E.
  apply M_bind_Ok in E as (out & s1 & E1 & E). apply keeps_malloc in E1.
  apply M_bind_Ok in E as (? & s2 & E2 & E). apply M_bind_Ok in E as (? & s3 & E3 & E).
  apply keeps_free in E3. injection E as <- <-. rewrite E3.
  assert (Hmin : (if n <? capacity p (world s) then n else capacity p (world s)) = Z.min n (capacity p (world s))).
  { destruct (Z.ltb_spec n (capacity p (world s))); lia. }
  rewrite Hmin in E2. unfold copy_if in E2. destruct (out =? 0); injection E2 as _ <-; cbn; by rewrite E1.
Qed.
End Copies.

Section Witness.
Import TrampolineHeap.
#[local] Existing Instance demo_heaps.

(** The same code at its address all along. *)
Definition static_heaps : Heaps demo_world := {|
  real_malloc := libc_malloc; real_free := libc_free; real_realloc := libc_realloc;
  run_routine t fn n w :=
    slot_routine demo_slots t fn n (mkHeaps (fl w) (libc w) (mmaps w) (λ _, (0, demo_site)));
  managed := seg_managed;
  chunk_size_of := chunk_size_of (Heaps := demo_heaps);
  segment_end_of := segment_end_of (Heaps := demo_heaps);
  free_managed := release_managed;
|}.
Definition static_malloc : caller -> Z -> M Dispatch.state demo_world ptr :=
  malloc (H0 := static_heaps) BOOTSTRAP demo_dlsym.

(** A request of another size deoptimizes the routine. *)
Lemma malloc_refines_actions_witness :
  let s' := after (static_malloc demo_caller 100) s_compiled in
  ∃ rest, Deopt.run_actions true
      ([Deopt.Enter 3 demo_site; Deopt.ReadGeneration 3; Deopt.Lookup 3] ++ rest) (deopt s_compiled) = Some (deopt s') ∧
    (rest = [] ∨ rest = [Deopt.Finish 3] ∨ ∃ r, rest = [Deopt.GuardFails 3 r; Deopt.Enqueue 3; Deopt.Finish 3]).
Proof.
  assert (E : static_malloc demo_caller 100 s_compiled =
    Ok (result 0 (static_malloc demo_caller 100) s_compiled, after (static_malloc demo_caller 100) s_compiled)).
  { exact (after_result 0 (static_malloc demo_caller 100) s_compiled ltac:(vm_compute; reflexivity)). }
  refine (malloc_refines_actions (Heaps0 := static_heaps) BOOTSTRAP demo_dlsym true demo_caller 100 s_compiled _ _ _ _ _ _ _ _ E).
  1-3: vm_compute; reflexivity.
  - vm_compute. discriminate.
  - vm_compute. reflexivity.
  - assert (Hfn : (cached_lookup (c_tid demo_caller) (hash_return_addr (c_ra demo_caller))
      (sample_safe_point (c_tid demo_caller) (deopt s_compiled))).1 = 4096) by (vm_compute; reflexivity).
    assert (Hb : Deopt.baked (deopt s_compiled) !! 4096 = Some demo_site) by (vm_compute; reflexivity).
    rewrite Hfn. intros fn w id' page r w' Hr. subst fn. cbn in Hr. unfold slot_routine in Hr.
    destruct (fl w). cbn in Hr. injection Hr as <- <- _ _. split; [done|exact Hb].
Defined.

(** A block of 64 bytes grows to 100: 64 are copied. *)
Lemma realloc_copies_block_witness :
  let q := result 0 (demo_realloc demo_caller p_served 100) s_served in
  copies (after (demo_realloc demo_caller p_served 100) s_served) = [(q, p_served, 64)] ∧ q ≠ 0.
Proof.
  cbv zeta. split; [|vm_compute; discriminate].
  assert (E : demo_realloc demo_caller p_served 100 s_served =
    Ok (result 0 (demo_realloc demo_caller p_served 100) s_served, after (demo_realloc demo_caller p_served 100) s_served)).
  { exact (after_result 0 (demo_realloc demo_caller p_served 100) s_served ltac:(vm_compute; reflexivity)). }
  destruct (realloc_copies_block BOOTSTRAP demo_dlsym 5000 demo_caller p_served 100 _ s_served _
    ltac:(vm_compute; reflexivity) ltac:(vm_compute; reflexivity) ltac:(vm_compute; reflexivity)
    ltac:(vm_compute; reflexivity) ltac:(vm_compute; discriminate) ltac:(vm_compute; reflexivity) ltac:(lia) E) as [-> _].
  vm_compute. reflexivity.
Defined.
End Witness.
